(* ===== verification/_CoqProject ===== *)
-Q . S2P
Prelude.v
Traces.v
Bytes.v
CoreError.v
FileSys.v
SegmentedLog.v
LogScan.v
LogInv.v
LogOps.v
LogTrunc.v
LogPurge.v
LogCrash.v
LogSpec.v
LogCorrect.v
LogLive.v
LogKilled.v
External.v
Samples.v
Proto.v
SampleCodecs.v
WalInterface.v
Wal.v
Mapping.v
Document.v
IndexApi.v
Collection.v
SampleIndex.v
CollectionSpec.v
Catalog.v
CatalogSpec.v
CatalogRel.v
CatalogReplay.v
CatalogCommit.v
CatalogOpen.v
CatalogOps.v
CatalogCalls.v
CatalogHistory.v
CatalogCorrect.v
CatalogSnapshots.v
Conversions.v
LogStore.v
LogStoreSpec.v
SampleRaft.v
LogStoreCorrect.v
LogStoreLive.v
LogStoreKilled.v
StateMachine.v
ReplicaSpec.v
StateMachineCorrect.v
ReplicaEffect.v
ReplicaLog.v
ReplicaRestart.v
ReplicaSnapshot.v
RestartCorrect.v
ReplicaCreate.v
MemStore.v
ClusterSpec.v
ClusterHistory.v
Search.v
Network.v
NetworkCorrect.v
Cluster.v
ClusterCorrect.v
Startup.v
StartupCorrect.v
NodeStore.v
StoredCluster.v
Api.v
ApiSpec.v
SampleHttp.v
ApiCorrect.v
ApiCluster.v
ClusterServer.v
