(* ===== verification/Prelude.v ===== *)
(** * Lumen: a verification of the document database

    Lumen is a document database in Rust: collections of JSON documents with a
    typed mapping, indexed by Tantivy, made durable by a write-ahead log, and
    replicated with openraft.  It runs as a single node or as a node of a cluster,
    behind the same HTTP interface.  This development models the crates [core],
    [proto], [cluster] and [api] and proves what makes them correct.

    ** How the program is put together

    - [crates/core/src/log.rs]: a log of checksummed records in segment files.  It is
      used twice: by [wal.rs] as the write-ahead log of a single node, and by
      [crates/cluster/src/log_store.rs] as the Raft log.
    - [mapping.rs], [document.rs], [collection.rs], [search.rs]: one collection, its
      schema, its Tantivy index with a buffered writer, its reads and searches.
    - [catalog.rs]: all collections of a node.  A single node logs a command and
      applies it; a cluster node applies the commands that Raft commits.  A checkpoint
      commits the indexes, writes [catalog.pb] and trims the log; [open] loads the
      snapshot and replays the rest of the log.
    - [crates/proto]: the messages, and conversions to and from openraft's types.
    - [log_store.rs], [state_machine.rs], [network.rs], [cluster.rs]: Raft's storage,
      state machine and transport, and the node that clients talk to.
    - [crates/api]: handlers over a trait with two engines, routes, the server.

    ** Files

    Foundations: this file (results, panics, the state-and-error monad [M], machine
    integers, ordered maps, shared list lemmas and tactics), [Traces] (runs of labelled
    step relations, forward and backward simulation), [Bytes] (bytes,
    little-endian integers, decimal text), [CoreError] (error.rs), [FileSys] (a
    directory as a map of files with their synced prefix; [crash] keeps any prefix at
    least that long of each file; sync.rs), [External] (third-party interfaces).

    - Segmented log (log.rs): [SegmentedLog] is the code; [LogScan] frames and the
      scan; [LogInv] the invariant; [LogOps], [LogTrunc], [LogPurge], [LogCrash] the
      operations; [LogSpec] the abstract list of records; [LogCorrect] the theorems;
      [LogKilled] kills between the deletions of a purge or a truncation.
    - Write-ahead log (wal.rs): [WalInterface] is what the catalog is promised, as a
      class; [Wal] is the code and the instance.
    - Data (lumen.proto, raft.proto, mapping.rs, document.rs): [Proto], [Mapping],
      [Document].
    - Collection (collection.rs, search.rs): [IndexApi] (Tantivy's index),
      [Collection], [CollectionSpec] (a collection stands for a map of committed and a
      map of current documents), [Search].
    - Catalog (catalog.rs): [Catalog] is the code; [CatalogSpec] the abstract database
      and its commands; [CatalogRel] when a disk or a running node stands for an
      abstract state; [CatalogReplay], [CatalogCommit], [CatalogOpen], [CatalogOps] the
      phases; [CatalogCalls] the specification of every public method; [CatalogHistory]
      calls, checkpoints and crashes in any order; [CatalogCorrect] the theorems;
      [CatalogSnapshots] snapshot archives.
    - Raft storage and state machine: [Conversions] (conversions.rs), [LogStore],
      [LogStoreSpec], [LogStoreCorrect] (log_store.rs), [LogStoreKilled] (kills inside the
      calls of the store), [StateMachine], [ReplicaSpec],
      [StateMachineCorrect] (state_machine.rs and the replicated half of catalog.rs);
      restarts: [ReplicaLog] positions in a log, [ReplicaRestart] the invariant of a
      replica over commits, kills and replays and its step relation, [ReplicaSnapshot]
      that it survives building and installing snapshots, [RestartCorrect], [ReplicaCreate] (a
      kill inside the creation of a collection); [MemStore] the
      stores in memory of type_config.rs, and their agreement with those on disk.
    - Network and node: [Network], [NetworkCorrect] (network.rs), [Cluster],
      [ClusterCorrect] (cluster.rs), [Startup], [StartupCorrect] ([Cluster::start]).
    - Whole cluster: [ClusterSpec] what clients see, as a log and as one database;
      [ClusterHistory] nodes, snapshots and clients as one step relation, and its
      theorems; [NodeStore] what a node's log store hands to its state machine;
      [StoredCluster] the step relation with a log store in every node, which refines
      that of [ClusterHistory].
    - HTTP: [Api] (error.rs, engine.rs, handlers.rs, lib.rs), [ApiSpec], [ApiCorrect],
      [ApiCluster] (api's cluster.rs), [ClusterServer] (the router of a cluster node,
      [serve_cluster], the calls of [Cluster] that wait and stop).
    - [Samples], [SampleCodecs], [SampleIndex], [SampleRaft], [SampleHttp], and
      [Search.SampleSearch]: executable instances of the interfaces; those of the Raft
      core and the transport are with the modules [NetDemo], [ClusterDemo], [StartupDemo]
      and [ApiDemo], which like [Demo], [SnapDemo], [StoreDemo], [SmDemo], [RestartDemo],
      [MemDemo], [HistoryDemo], [LogKilledDemo], [KilledDemo], [CreateDemo], [StoredDemo] and
      [ServerDemo] evaluate the development.

    ** How code is modelled

    A struct is a record, an enum an inductive type, a method a function of the same
    name.  A fallible function returns [result E A], whose third case [Panic] is a
    panic; a method that changes [self] or the disk is a computation in [M S E A], where
    the state survives an error.  [u64] values are integers of [Z] with the wrap-around
    written out.  [BTreeMap] and [HashMap] are [gmap], with the iteration order where it
    matters.  A random uuid, the time a search took and the lengths that reads return are
    arguments.  Two loops that are not structural take fuel: [scan_loop] one more than
    the bytes of the segment, each round consuming a header ([scan_segment_total] shows
    that more fuel changes nothing); [chunk_loop] one more than the bytes of the file,
    each round consuming one at least.

    Code outside the repository is an interface: a class with the operations the source
    calls and the documented laws it relies on.  These are [Crc32c], [Codec] (prost),
    [Json], [Rfc3339], [UuidApi], [MarkJson], [TantivySchema], [TantivyIndex],
    [TantivySearch], [openraft.MembershipApi], [Transport] (tonic), [RaftHandle],
    [cluster.Openraft], [RaftStart] and [server.RaftControl] (openraft), [Axum], [DtoJson],
    [InitJson] and [ManagementJson].  Every theorem is proved for all instances; the sample
    instances show that the laws can hold.

    What [ClusterHistory] takes from openraft is in its steps: one committed log of accepted
    commands, handed to every node in order; after a restart the entries from the reported
    position on; a snapshot only for a node whose log it extends; a read only at a node
    that has applied what was committed at the call.  Three further conditions exclude
    what the theorems below on unwanted behaviour show: no collection is dropped after a
    position that a restarted node reports or a snapshot claims; the bytes of an installed
    [catalog.pb], which the code does not sync, are kept; no uuid is drawn twice.

    In [StoredCluster] the order of the committed log is no longer given to a node: openraft
    calls its store, and the state machine applies what [try_get_log_entries] returns.  What
    remains of openraft is [store_pre] (entries without gaps, nothing purged that is not
    there) and [raft_safe] (the committed id that is saved is that of a prefix of the
    cluster's log, and entries up to it are neither written anew nor truncated).

    ** What the theorems show

    - Segmented log: every history of operations refines a list of records; a crash
      keeps every synced record and a prefix of the others; the scan terminates, stays in
      bounds on arbitrary bytes and finds exactly the complete frames.
    - Single node: every method refines the abstract database, errors included; any
      history of calls, checkpoints and crashes does; acknowledged writes survive,
      interrupted ones are atomic, interrupted checkpoints harmless.
    - Mapping and documents: what is accepted, exactly; round trips; a validated
      document is always built.  Search pages through one ranking of committed documents.
    - Raft: messages round-trip and malformed ones are refused; the log store implements
      the storage contract, is durable, and survives a kill at any point of a call other than
      a truncation; applying a committed log refines the abstract
      replica and replicas converge; snapshots transfer exactly the committed documents;
      remote calls are transparent.
    - Restarts: a replica killed at any time, in the middle of a replay, between the commits
      of a checkpoint or while it writes a file, opens, reports a position that is safe, and
      after the entries that follow it holds the database of the log, although its commits
      may trail behind and already hold some of the effects; so does one that is killed in
      the creation of a collection; a node that is killed in a checkpoint and a call of its
      log store at once starts with everything the store knows to be committed.  They ask
      that no collection is dropped, and the last that nothing is purged, after the reported
      position: [restart_replays_into_new_collection] and [new_collection_resets_applied]
      show why.
    - Whole cluster: its clients cannot tell it from one database on which every operation
      takes effect at one instant, whatever the nodes and their log stores go through; every
      node can catch up, with the entries that its own store hands out; a snapshot of any
      node installs on every other.
    - In memory: the log store on disk and the one of the tests answer every sequence of
      calls alike, and the state machines agree on membership and position.
    - Cluster node: which requests are admitted, what an acknowledged write means, what a
      linearizable read returns.
    - HTTP: routing is the inverse of addressing; the standalone server answers every
      request as the database prescribes, never with 500, across restarts; a node that is
      not the leader redirects; a get through the leader is linearizable; the management
      routes of a cluster node do not meet those of the data; its tasks end with it.
    - Behaviours the code should not have are theorems too, evaluated on the sample
      instances or proved for all: [replay_crash_loses_document],
      [raced_upsert_blocks_open], [empty_collection_dir_blocks_open],
      [interrupted_install_blocks_open], [installed_catalog_unsynced],
      [append_after_purge_renumbered], [stale_segment_resurrects],
      [truncate_below_floor_resurrects], [snapshot_install_loses_entries],
      [try_get_log_entries_panics], [new_collection_resets_applied],
      [restart_replays_into_new_collection], [read_error_installs_prefix],
      [raced_index_stops_replicas], [document_search_unreachable],
      [raced_snapshot_loses_document], [interrupted_drop_blocks_replica],
      [interrupted_create_twice_blocks_replica], [interrupted_truncate_leaves_hole].

    ** Not modelled

    Sockets, signals, tracing and the command line; a task of a timed-out request
    that outlives the server; the scheduling of
    a cluster node's tasks, which are flags and events; kills of a replica in the middle
    of [apply_drop] or [install_snapshot] and of a truncation of the log as steps of a
    history, after which the code does not open or not with the log it had (theorems on
    unwanted behaviour); a kill in [apply_create] as a step, since only the first one is
    survived; the installation of a snapshot as the cause of a purge, which openraft
    decides; the network without peers of type_config.rs; the text of third-party errors;
    the JSON that a response is serialised to; the percent-decoding of paths; I/O errors
    other than
    missing, existing and short files; the durability of directory entries, which the
    model takes as immediate.  Locks: methods run one after another, and a race is
    modelled as the interleaving it allows where a theorem is about it.  Raft itself is
    openraft's. *)

From stdpp Require Export base tactics list gmap strings pretty sorting fin_maps.
From Stdlib Require Export ZArith Lia.
From Stdlib Require Export Strings.Byte Ascii.

Open Scope Z_scope.

(** ** Results, panics and the state-and-error monad

    A Rust function that returns [Result<T, E>] and may panic becomes a
    function into [result E T]; [Panic] carries the text of the [expect] or the
    library panic that fires.  A method that mutates [self] or the disk becomes
    a computation of [M S E T]: the state survives an error, as the mutations
    made before a [?] do in Rust. *)

Inductive result (E A : Type) : Type :=
| Ok (a : A)
| Err (e : E)
| Panic (why : string).
Arguments Ok {E A} a.
Arguments Err {E A} e.
Arguments Panic {E A} why.

Global Instance result_ret {E} : MRet (result E) := λ A a, Ok a.
Global Instance result_bind {E} : MBind (result E) := λ A B f r,
  match r with
  | Ok a => f a
  | Err e => Err e
  | Panic w => Panic w
  end.
Global Instance result_fmap {E} : FMap (result E) := λ A B f r,
  match r with
  | Ok a => Ok (f a)
  | Err e => Err e
  | Panic w => Panic w
  end.

(** [Option::ok_or] and [Result::map_err]. *)
Definition ok_or {E A} (e : E) (o : option A) : result E A :=
  match o with
  | Some a => Ok a
  | None => Err e
  end.
Definition map_err {E F A} (f : E → F) (r : result E A) : result F A :=
  match r with
  | Ok a => Ok a
  | Err e => Err (f e)
  | Panic w => Panic w
  end.
(** [Option::expect]. *)
Definition expect {E A} (why : string) (o : option A) : result E A :=
  match o with
  | Some a => Ok a
  | None => Panic why
  end.
Definition is_ok {E A} (r : result E A) : bool :=
  match r with
  | Ok _ => true
  | _ => false
  end.

(** [iter.map(f).collect::<Result<Vec<_>, _>>()]: the first error stops the
    iteration. *)
Fixpoint collect {E A B} (f : A → result E B) (l : list A) : result E (list B) :=
  match l with
  | [] => Ok []
  | x :: l => y ← f x; ys ← collect f l; mret (y :: ys)
  end.

(** A [for] loop of checks that return early with [?]. *)
Fixpoint try_each {E A} (f : A → result E unit) (l : list A) : result E unit :=
  match l with
  | [] => Ok tt
  | x :: l => f x;; try_each f l
  end.

Lemma try_each_Ok {E A} (f : A → result E unit) l :
  try_each f l = Ok tt ↔ Forall (λ x, f x = Ok tt) l.
Proof.
  induction l as [|x l IH]; cbn; [by split; [constructor|]|].
  rewrite Forall_cons, <-IH. destruct (f x) as [[]| |]; naive_solver.
Qed.

Lemma collect_Ok {E A B} (f : A → result E B) l ys :
  collect f l = Ok ys ↔ Forall2 (λ x y, f x = Ok y) l ys.
Proof.
  revert ys. induction l as [|x l IH]; intros ys; cbn.
  - split; [intros [= <-]; constructor|by inversion 1].
  - split.
    + destruct (f x) as [y| |] eqn:E1; cbn; [|done..].
      destruct (collect f l) as [zs| |] eqn:E2; cbn; [|done..]. intros [= <-].
      constructor; [done|by apply IH].
    + intros (y & zs & E1 & E2 & ->)%Forall2_cons_inv_l. apply IH in E2. by rewrite E1, E2.
Qed.

Definition M (S E A : Type) : Type := S → result E A * S.

Global Instance M_ret {S E} : MRet (M S E) := λ A a s, (Ok a, s).
Global Instance M_bind {S E} : MBind (M S E) := λ A B f m s,
  match m s with
  | (Ok a, s') => f a s'
  | (Err e, s') => (Err e, s')
  | (Panic w, s') => (Panic w, s')
  end.

Definition get {S E} : M S E S := λ s, (Ok s, s).
Definition put {S E} (s' : S) : M S E unit := λ _, (Ok tt, s').
Definition modify {S E} (f : S → S) : M S E unit := λ s, (Ok tt, f s).
Definition throw {S E A} (e : E) : M S E A := λ s, (Err e, s).
(** A pure [Result] inside a stateful method. *)
Definition lift {S E A} (r : result E A) : M S E A := λ s, (r, s).
(** [m.map_err(f)?] on a stateful call. *)
Definition mapE {S E F A} (f : E → F) (m : M S E A) : M S F A := λ s,
  let '(r, s') := m s in (map_err f r, s').
(** A method of a component of the state. *)
Definition zoom {S T E A} (view : S → T) (upd : T → S → S) (m : M T E A) : M S E A := λ s,
  let '(r, t) := m (view s) in (r, upd t s).

Lemma M_bind_Ok {S E A B} (m : M S E A) (f : A → M S E B) s a s' :
  m s = (Ok a, s') → (m ≫= f) s = f a s'.
Proof. unfold mbind, M_bind. by intros ->. Qed.

Lemma M_bind_Err {S E A B} (m : M S E A) (f : A → M S E B) s e s' :
  m s = (Err e, s') → (m ≫= f) s = (Err e, s').
Proof. unfold mbind, M_bind. by intros ->. Qed.

(** The rest of a computation after a first step with any outcome. *)
Lemma M_bind_run {S E A B} (m : M S E A) (f : A → M S E B) s r s' :
  m s = (r, s') → (m ≫= f) s = (lift r ≫= f) s'.
Proof. unfold mbind, M_bind, lift. by intros ->. Qed.

Lemma M_bind_assoc {S E A B C} (m : M S E A) (f : A → M S E B) (g : B → M S E C) s :
  ((m ≫= f) ≫= g) s = (m ≫= λ a, f a ≫= g) s.
Proof. unfold mbind, M_bind. by destruct (m s) as [[]]. Qed.

(** A [for] loop whose body may return early with [?]. *)
Fixpoint for_each {S E A} (l : list A) (body : A → M S E unit) : M S E unit :=
  match l with
  | [] => mret tt
  | x :: l => body x;; for_each l body
  end.

Lemma for_each_app {S E A} (l k : list A) (body : A → M S E unit) s s' :
  for_each l body s = (Ok tt, s') → for_each (l ++ k) body s = for_each k body s'.
Proof.
  revert s. induction l as [|x l IH]; intros s; cbn [for_each app].
  - by intros [= ->].
  - unfold mbind, M_bind. destruct (body x s) as [[[]| |] s1]; [apply IH|done|done].
Qed.

Lemma for_each_noop {S E A} (l : list A) (body : A → M S E unit) s :
  Forall (λ x, body x s = (Ok tt, s)) l → for_each l body s = (Ok tt, s).
Proof.
  induction 1 as [|x l Hx _ IH]; [done|]. cbn [for_each]. by rewrite (M_bind_Ok _ _ _ _ _ Hx).
Qed.

(** ** Machine integers

    [u64], [u32] and [usize] values are integers of [Z]; the arithmetic of the
    release build wraps modulo the width. *)

Definition two64 : Z := 2 ^ 64.
Definition two32 : Z := 2 ^ 32.
Definition wrap64 (z : Z) : Z := z mod two64.
Definition u64_max : Z := two64 - 1.
Definition is_u64 (z : Z) : Prop := 0 ≤ z < two64.
Definition is_u32 (z : Z) : Prop := 0 ≤ z < two32.
(** [u64::saturating_add(1)]. *)
Definition saturating_succ (z : Z) : Z := if decide (z = u64_max) then u64_max else z + 1.

Lemma wrap64_small z : is_u64 z → wrap64 z = z.
Proof. intros. by apply Z.mod_small. Qed.

(** ** Ordered maps

    A [BTreeMap<K, V>] is a [gmap K V]; its iteration order is the key order
    [R] ([Z.le] for integers, [String.le] for strings, whose bytes Rust compares
    too). *)

Section btree.
Context {K : Type} `{Countable K} (R : relation K) `{!RelDecision R} `{!PartialOrder R} `{!Total R}.

Definition key_le {A} : relation (K * A) := λ x y, R x.1 y.1.

Global Instance key_le_dec {A} : ∀ x y : K * A, Decision (key_le x y).
Proof. unfold key_le. intros; apply _. Defined.

Definition btree_iter {A} (m : gmap K A) : list (K * A) :=
  merge_sort key_le (map_to_list m).

Global Instance key_le_total {A} : Total (@key_le A).
Proof. intros x y. apply (total R). Qed.

Global Instance key_le_trans {A} : Transitive (@key_le A).
Proof. intros x y z ??. unfold key_le in *. by etrans. Qed.

Lemma btree_iter_perm {A} (m : gmap K A) : btree_iter m ≡ₚ map_to_list m.
Proof. apply merge_sort_Permutation. Qed.

Lemma elem_of_btree_iter {A} (m : gmap K A) k v :
  (k, v) ∈ btree_iter m ↔ m !! k = Some v.
Proof. by rewrite btree_iter_perm, elem_of_map_to_list. Qed.

Lemma btree_iter_sorted {A} (m : gmap K A) : StronglySorted key_le (btree_iter m).
Proof. apply StronglySorted_merge_sort; apply _. Qed.

Lemma btree_iter_keys_NoDup {A} (m : gmap K A) : NoDup (btree_iter m).*1.
Proof. rewrite btree_iter_perm. apply NoDup_fst_map_to_list. Qed.

Lemma keys_NoDup_inj {A} (l : list (K * A)) k v w :
  NoDup l.*1 → (k, v) ∈ l → (k, w) ∈ l → v = w.
Proof.
  intros Hnd Hv Hw.
  apply elem_of_list_to_map_1 in Hv; [|done].
  apply elem_of_list_to_map_1 in Hw; [|done]. congruence.
Qed.

(** The iteration of a map built from a key-sorted list is that list. *)
Lemma btree_iter_list_to_map {A} (l : list (K * A)) :
  NoDup l.*1 → StronglySorted key_le l → btree_iter (list_to_map l) = l.
Proof.
  intros Hnd Hs.
  assert (btree_iter (list_to_map l : gmap K A) ≡ₚ l) as Hp.
  { rewrite btree_iter_perm. by apply map_to_list_to_map. }
  apply (StronglySorted_unique_strong key_le); [|apply btree_iter_sorted|done|done].
  intros [k1 v1] [k2 v2] H1 H2 H12 H21. rewrite Hp in H1.
  unfold key_le in *; cbn in *.
  assert (k1 = k2) as -> by (by apply (anti_symm R)).
  f_equal. eapply keys_NoDup_inj; eauto.
Qed.

Lemma list_to_map_btree_iter {A} (m : gmap K A) : list_to_map (btree_iter m) = m.
Proof.
  rewrite <-(list_to_map_to_list m) at 2.
  apply list_to_map_proper; [apply btree_iter_keys_NoDup|apply btree_iter_perm].
Qed.
End btree.

(** [BTreeMap::keys().next_back()]. *)
Definition last_key {A} (m : gmap Z A) : option Z := fst <$> last (btree_iter Z.le m).

(** [BTreeMap::retain] on the keys. *)
Definition retain_keys {A} (p : Z → bool) (m : gmap Z A) : gmap Z A :=
  filter (λ kv, p kv.1 = true) m.

(** Lists with strictly increasing integer keys, the canonical form of a
    [BTreeMap<u64, _>]. *)
Abbreviation keys_sorted l := (StronglySorted Z.lt l.*1).

Lemma StronglySorted_lt_NoDup (l : list Z) : StronglySorted Z.lt l → NoDup l.
Proof.
  induction 1 as [|x l _ IH Hx]; constructor; [|done].
  intros Hin. rewrite Forall_forall in Hx. specialize (Hx x Hin). lia.
Qed.

Lemma list_filter_all {A} (P : A → Prop) `{!∀ x, Decision (P x)} (l : list A) :
  (∀ x, x ∈ l → P x) → filter P l = l.
Proof.
  induction l as [|x l IH]; intros Hl; [done|].
  rewrite filter_cons_True, IH; [done|set_solver..].
Qed.

Lemma list_filter_none {A} (P : A → Prop) `{!∀ x, Decision (P x)} (l : list A) :
  (∀ x, x ∈ l → ¬ P x) → filter P l = [].
Proof.
  induction l as [|x l IH]; intros Hl; [done|].
  rewrite filter_cons_False, IH; [done|set_solver..].
Qed.

Lemma NoDup_omap {A B} (f : A → option B) (l : list A) :
  (∀ x y b, x ∈ l → y ∈ l → f x = Some b → f y = Some b → x = y) →
  NoDup l → NoDup (omap f l).
Proof.
  intros Hinj. induction 1 as [|x l Hx Hl IH]; cbn; [constructor|].
  assert (NoDup (omap f l)) as Hnd.
  { apply IH. intros ?????. apply Hinj; by constructor. }
  destruct (f x) as [b|] eqn:Eb; [|done]. constructor; [|done].
  intros (y & Hy & Ey)%list_elem_of_omap. apply Hx.
  rewrite (Hinj x y b); [done|by constructor..|done|done].
Qed.

Lemma StronglySorted_lt_le (l : list Z) : StronglySorted Z.lt l → StronglySorted Z.le l.
Proof.
  induction 1 as [|x l _ IH Hx]; constructor; [done|].
  eapply Forall_impl; [exact Hx|]. intros; lia.
Qed.

(** [sort_unstable] of a permutation of a strictly sorted list. *)
Lemma merge_sort_unique (l k : list Z) :
  StronglySorted Z.lt k → l ≡ₚ k → merge_sort Z.le l = k.
Proof.
  intros Hk Hp. apply (StronglySorted_unique Z.le).
  - apply StronglySorted_merge_sort; apply _.
  - by apply StronglySorted_lt_le.
  - by rewrite merge_sort_Permutation.
Qed.

Lemma keys_sorted_filter {A} (P : Z * A → Prop) `{!∀ x, Decision (P x)} (l : list (Z * A)) :
  keys_sorted l → keys_sorted (filter P l).
Proof.
  induction l as [|x l IH]; [done|]. cbn [fmap list_fmap].
  intros [Hx Hl]%StronglySorted_cons. rewrite filter_cons.
  case_decide; [|by apply IH]. cbn [fmap list_fmap]. constructor; [by apply IH|].
  rewrite Forall_forall in Hx |- *. intros k ([k' v] & -> & Hk)%list_elem_of_fmap.
  apply list_elem_of_filter in Hk as [_ Hk]. apply Hx, list_elem_of_fmap. eauto.
Qed.

Lemma keys_sorted_key_le {A} (l : list (Z * A)) : keys_sorted l → StronglySorted (key_le Z.le) l.
Proof.
  induction l as [|x l IH]; cbn [fmap list_fmap]; [constructor|].
  intros [Hx Hl]%StronglySorted_cons. constructor; [by apply IH|].
  rewrite Forall_forall in Hx. rewrite Forall_forall. intros y Hy.
  assert (x.1 < y.1) by (apply Hx, list_elem_of_fmap; eauto). unfold key_le. lia.
Qed.

Lemma btree_iter_sorted_list {A} (l : list (Z * A)) :
  keys_sorted l → btree_iter Z.le (list_to_map l) = l.
Proof.
  intros Hs. apply (btree_iter_list_to_map Z.le);
    [by apply StronglySorted_lt_NoDup|by apply keys_sorted_key_le].
Qed.

Lemma last_key_sorted_list {A} (l : list (Z * A)) :
  keys_sorted l → last_key (list_to_map l) = fst <$> last l.
Proof. intros Hs. unfold last_key. by rewrite btree_iter_sorted_list. Qed.

Lemma NoDup_fst_filter {K A} (P : K * A → Prop) `{!∀ x, Decision (P x)} (l : list (K * A)) :
  NoDup l.*1 → NoDup (filter P l).*1.
Proof.
  induction l as [|x l IH]; [done|]. cbn [fmap list_fmap].
  intros [Hx Hl]%NoDup_cons. rewrite filter_cons.
  case_decide; [|by apply IH]. cbn [fmap list_fmap]. constructor; [|by apply IH].
  intros (y & E & [_ Hy]%list_elem_of_filter)%list_elem_of_fmap.
  apply Hx, list_elem_of_fmap. eauto.
Qed.

Lemma retain_keys_list_to_map {A} (p : Z → bool) (l : list (Z * A)) :
  NoDup l.*1 → retain_keys p (list_to_map l) = list_to_map (filter (λ kv, p kv.1 = true) l).
Proof.
  intros Hnd. unfold retain_keys. rewrite map_filter_alt.
  assert (map_to_list (list_to_map l : gmap Z A) ≡ₚ l) as Hp by (by apply map_to_list_to_map).
  apply list_to_map_proper.
  - rewrite Hp. by apply NoDup_fst_filter.
  - by rewrite Hp.
Qed.

Lemma foldl_insert_list_to_map {A} (l : list (Z * A)) (m : gmap Z A) :
  NoDup l.*1 → foldl (λ m kv, <[kv.1 := kv.2]> m) m l = list_to_map l ∪ m.
Proof.
  revert m. induction l as [|[k v] l IH]; intros m; cbn [fmap list_fmap foldl].
  - by rewrite list_to_map_nil, (left_id_L ∅ (∪)).
  - intros [Hk Hnd]%NoDup_cons. rewrite IH by done. cbn [fst snd].
    rewrite list_to_map_cons, <-insert_union_l, <-insert_union_r; [done|].
    by apply not_elem_of_list_to_map_1.
Qed.

(** Choosing a value for each key of a map. *)
Lemma map_choice {K} `{Countable K} {A B} (R : K → A → B → Prop) (g : gmap K A) :
  (∀ n a, g !! n = Some a → ∃ b, R n a b) → ∃ g' : gmap K B, map_Forall2 R g g'.
Proof.
  induction g as [|n a g Hn IH] using map_ind; intros HR; [exists ∅; apply map_Forall2_empty|].
  destruct (HR n a) as [b Hb]; [apply lookup_insert_eq|]. destruct IH as [g' Hg'].
  { intros n' a' Hn'. apply HR. rewrite lookup_insert_ne; [done|congruence]. }
  exists (<[n := b]> g'). by apply map_Forall2_insert_2.
Qed.

(** ** Development tactics *)

(** Run the first step of a monadic computation in the goal with an equation
    for it ([mstep (fs_read_ok _ _ H)]). *)
Tactic Notation "mstep" uconstr(lem) := erewrite M_bind_Ok; [|eapply lem]; cbv beta.

(** The first step is a pure operation of the monad. *)
Ltac mpure := erewrite M_bind_Ok; [|reflexivity]; cbv beta.
