(* ===== verification/Traces.v ===== *)
(** * Labelled transition systems

    Systems that are compared by their events: a step shows an event or nothing.
    Forward and backward simulations give inclusion of the event sequences. *)

From S2P Require Import Prelude.

Section lts.
Context {S E : Type} (step : S → option E → S → Prop).

(** The events of a finite run. *)
Inductive traces : S → list E → S → Prop :=
| traces_nil s : traces s [] s
| traces_cons s o s' t s'' : step s o s' → traces s' t s'' → traces s (option_list o ++ t) s''.

Lemma traces_one s o s' : step s o s' → traces s (option_list o) s'.
Proof. intros Hs. rewrite <-(app_nil_r (option_list o)). eapply traces_cons; [done|constructor]. Qed.

Lemma traces_app s t1 s' t2 s'' : traces s t1 s' → traces s' t2 s'' → traces s (t1 ++ t2) s''.
Proof.
  induction 1 as [|s0 o s1 t s2 Hs _ IH]; [done|]. intros Ht. rewrite <-app_assoc. eapply traces_cons; [done|by apply IH].
Qed.

Lemma traces_snoc s t s' o s'' : traces s t s' → step s' o s'' → traces s (t ++ option_list o) s''.
Proof. intros Ht Hs. eapply traces_app; [done|by apply traces_one]. Qed.

Lemma traces_invariant (I : S → Prop) s t s' :
  (∀ s o s', step s o s' → I s → I s') → traces s t s' → I s → I s'.
Proof. intros HI. induction 1 as [|s0 o s1 t s2 Hs _ IH]; [done|]. intros Hi. by eapply IH, HI. Qed.
End lts.

Section simulation.
Context {S1 S2 E : Type} (step1 : S1 → option E → S1 → Prop) (step2 : S2 → option E → S2 → Prop).

(** A part of a system that steps on its own. *)
Lemma traces_lift (f : S1 → S2) s t s' :
  (∀ s o s', step1 s o s' → step2 (f s) o (f s')) → traces step1 s t s' → traces step2 (f s) t (f s').
Proof. intros Hf. induction 1 as [|s0 o s1 t s2 Hs _ IH]; [constructor|]. eapply traces_cons; [by apply Hf|done]. Qed.

Context (R : S1 → S2 → Prop).

Lemma forward_simulation s t s' a :
  (∀ s o s' a, step1 s o s' → R s a → ∃ a', traces step2 a (option_list o) a' ∧ R s' a') →
  traces step1 s t s' → R s a → ∃ a', traces step2 a t a' ∧ R s' a'.
Proof.
  intros Hsim Ht. revert a. induction Ht as [s|s0 o s1 t s2 Hs _ IH]; intros a Ha; [exists a; split; [constructor|done]|].
  destruct (Hsim _ _ _ _ Hs Ha) as (a1 & Ht1 & Ha1). destruct (IH a1 Ha1) as (a2 & Ht2 & Ha2).
  exists a2. split; [by eapply traces_app|done].
Qed.

(** The state of the second system before a step is found from the one after it. *)
Lemma backward_simulation s t s' a' :
  (∀ s o s' a', step1 s o s' → R s' a' → ∃ a, traces step2 a (option_list o) a' ∧ R s a) →
  traces step1 s t s' → R s' a' → ∃ a, traces step2 a t a' ∧ R s a.
Proof.
  intros Hsim Ht. induction Ht as [s|s0 o s1 t s2 Hs _ IH]; intros Ha; [exists a'; split; [constructor|done]|].
  destruct (IH Ha) as (a1 & Ht1 & Ha1). destruct (Hsim _ _ _ _ Hs Ha1) as (a0 & Ht0 & Ha0).
  exists a0. split; [by eapply traces_app|done].
Qed.
End simulation.
