(* ===== verification/Bytes.v ===== *)
(** * Bytes, integers as bytes and as decimal text

    The pieces of Rust's standard library the sources use on raw data:
    [u32::to_le_bytes] / [u32::from_le_bytes], byte slices, the decimal
    [Display] and [FromStr] of [u64], and [str::strip_prefix] /
    [str::strip_suffix]. *)

From S2P Require Import Prelude.

Open Scope Z_scope.

(** ** Bytes and slices *)

Global Instance byte_eq_dec : EqDecision byte := Byte.byte_eq_dec.

Definition byte_of_Z (z : Z) : byte := default x00 (Byte.of_N (Z.to_N (z mod 256))).
Definition Z_of_byte (b : byte) : Z := Z.of_N (Byte.to_N b).

(** [&bytes[off..off + n]], for bounds already checked by the caller. *)
Definition slice (bs : list byte) (off n : Z) : list byte :=
  take (Z.to_nat n) (drop (Z.to_nat off) bs).

(** [bs.len()]. *)
Definition blen (bs : list byte) : Z := Z.of_nat (length bs).

Definition to_le_bytes (z : Z) : list byte :=
  [byte_of_Z z; byte_of_Z (z / 256); byte_of_Z (z / 65536); byte_of_Z (z / 16777216)].

Fixpoint from_le_bytes (bs : list byte) : Z :=
  match bs with
  | [] => 0
  | b :: bs => Z_of_byte b + 256 * from_le_bytes bs
  end.

Lemma Z_of_byte_of_Z z : Z_of_byte (byte_of_Z z) = z mod 256.
Proof.
  unfold Z_of_byte, byte_of_Z.
  assert (0 ≤ z mod 256 < 256) as Hz by (apply Z.mod_pos_bound; lia).
  destruct (Byte.of_N (Z.to_N (z mod 256))) eqn:E; cbn.
  - apply Byte.to_of_N in E. lia.
  - apply Byte.of_N_None_iff in E. lia.
Qed.

Lemma Z_of_byte_range b : 0 ≤ Z_of_byte b < 256.
Proof. unfold Z_of_byte. pose proof (Byte.to_N_bounded b). lia. Qed.

Lemma from_to_le_bytes z : is_u32 z → from_le_bytes (to_le_bytes z) = z.
Proof.
  unfold is_u32, two32. intros Hz. cbn. rewrite !Z_of_byte_of_Z.
  Z.div_mod_to_equations. lia.
Qed.

Lemma from_le_bytes_range bs : 0 ≤ from_le_bytes bs < 256 ^ blen bs.
Proof.
  unfold blen. induction bs as [|b bs IH]; cbn; [lia|].
  pose proof (Z_of_byte_range b).
  rewrite Nat2Z.inj_succ, Z.pow_succ_r by lia. lia.
Qed.

Lemma blen_app a b : blen (a ++ b) = blen a + blen b.
Proof. unfold blen. rewrite length_app. lia. Qed.

Lemma blen_nonneg a : 0 ≤ blen a.
Proof. unfold blen. lia. Qed.

Lemma blen_to_le_bytes z : blen (to_le_bytes z) = 4.
Proof. done. Qed.

Lemma slice_app a b c : slice (a ++ b ++ c) (blen a) (blen b) = b.
Proof.
  unfold slice, blen. rewrite !Nat2Z.id.
  by rewrite drop_app_length, take_app_length.
Qed.

Lemma slice_app_at a b c off n :
  off = blen a → n = blen b → slice (a ++ b ++ c) off n = b.
Proof. intros -> ->. apply slice_app. Qed.

(** ** Strings *)

Fixpoint strip_prefix (p s : string) : option string :=
  match p, s with
  | EmptyString, _ => Some s
  | String a p', String b s' => if decide (a = b) then strip_prefix p' s' else None
  | String _ _, EmptyString => None
  end.

Fixpoint strip_suffix (suf s : string) : option string :=
  if decide (s = suf) then Some EmptyString
  else match s with
       | EmptyString => None
       | String c s' => String c <$> strip_suffix suf s'
       end.

Lemma strip_prefix_app p s : strip_prefix p (p +:+ s) = Some s.
Proof. induction p as [|a p IH]; simpl; [done|]. by case_decide. Qed.

Lemma strip_prefix_Some p s t : strip_prefix p s = Some t → s = p +:+ t.
Proof.
  revert s. induction p as [|a p IH]; intros [|b s] E; simpl in *; simplify_eq; try done.
  case_decide; [subst|done]. by rewrite (IH s E).
Qed.

Lemma string_length_app s t : String.length (s +:+ t) = (String.length s + String.length t)%nat.
Proof. induction s as [|c s IH]; [done|]. change (S (String.length (s +:+ t)) = S (String.length s + String.length t)). by rewrite IH. Qed.

Lemma string_app_suffix_neq c s suf : String c (s +:+ suf) ≠ suf.
Proof.
  intros E. apply (f_equal String.length) in E. cbn [String.length] in E.
  rewrite string_length_app in E. lia.
Qed.

Lemma strip_suffix_unfold suf s :
  strip_suffix suf s =
    if decide (s = suf) then Some EmptyString
    else match s with
         | EmptyString => None
         | String c s' => String c <$> strip_suffix suf s'
         end.
Proof. by destruct s. Qed.

Lemma strip_suffix_app s suf : strip_suffix suf (s +:+ suf) = Some s.
Proof.
  induction s as [|c s IH].
  - rewrite strip_suffix_unfold. by case_decide.
  - change (String c s +:+ suf) with (String c (s +:+ suf)).
    rewrite strip_suffix_unfold, IH.
    case_decide as E; [by apply string_app_suffix_neq in E|done].
Qed.

Lemma strip_suffix_Some suf s t : strip_suffix suf s = Some t → s = t +:+ suf.
Proof.
  revert t. induction s as [|c s IH]; intros t; rewrite strip_suffix_unfold;
    case_decide; intros E; simplify_eq/=; try done.
  destruct (strip_suffix suf s) as [u|] eqn:Eu; simplify_eq/=.
  by rewrite (IH u).
Qed.

(** ** Decimal text of a [u64] *)

(** [format!("{n}")]. *)
Definition u64_to_string (n : Z) : string := pretty (Z.to_N n).

Definition digit_of_ascii (a : ascii) : option Z :=
  let n := Z.of_N (N_of_ascii a) in
  if decide (48 ≤ n ≤ 57) then Some (n - 48) else None.

(** The accumulation of [u64::from_str]: a non-digit or an overflow is an
    error. *)
Fixpoint parse_digits (acc : Z) (s : string) : option Z :=
  match s with
  | EmptyString => Some acc
  | String a s =>
      d ← digit_of_ascii a;
      let acc := 10 * acc + d in
      if decide (acc < two64) then parse_digits acc s else None
  end.

(** [s.parse::<u64>().ok()]: a leading [+] is accepted, an empty digit string is
    not. *)
Definition parse_u64 (s : string) : option Z :=
  match s with
  | EmptyString => None
  | String a s' =>
      if decide (a = "+"%char)
      then match s' with EmptyString => None | _ => parse_digits 0 s' end
      else parse_digits 0 s
  end.

Lemma digit_of_pretty_char (d : N) :
  (d < 10)%N → digit_of_ascii (pretty_N_char d) = Some (Z.of_N d).
Proof.
  intros Hd.
  assert (d = 0 ∨ d = 1 ∨ d = 2 ∨ d = 3 ∨ d = 4 ∨ d = 5 ∨ d = 6 ∨ d = 7 ∨ d = 8 ∨ d = 9)%N as Hc
    by lia.
  clear Hd. by repeat destruct Hc as [->|Hc]; [..|subst].
Qed.

Lemma parse_digits_go n s acc :
  Z.of_N n < two64 → parse_digits (Z.of_N n) s = acc →
  parse_digits 0 (pretty_N_go n s) = acc.
Proof.
  revert s. induction (N.lt_wf_0 n) as [n _ IH]; intros s Hn Hs.
  assert (n = 0 ∨ 0 < n)%N as [->|Hpos] by lia; [by rewrite pretty_N_go_0|].
  rewrite pretty_N_go_step by done.
  assert (Hlt : (n `div` 10 < n)%N) by (apply N.div_lt; lia).
  apply IH; [done|lia|].
  assert (Hm : (n `mod` 10 < 10)%N) by (apply N.mod_lt; lia).
  pose proof (N.div_mod n 10 ltac:(lia)) as Hdm.
  simpl. rewrite digit_of_pretty_char by done. simpl.
  replace (10 * Z.of_N (n `div` 10) + Z.of_N (n `mod` 10)) with (Z.of_N n) by lia.
  by case_decide.
Qed.

Lemma pretty_N_go_head n s :
  (0 < n)%N → ∃ d t, (d < 10)%N ∧ pretty_N_go n s = String (pretty_N_char d) t.
Proof.
  revert s. induction (N.lt_wf_0 n) as [n _ IH]; intros s Hpos.
  rewrite pretty_N_go_step by done.
  assert (n `div` 10 = 0 ∨ 0 < n `div` 10)%N as [E|E]
    by (clear; destruct (n `div` 10)%N; lia).
  - rewrite E, pretty_N_go_0. exists (n `mod` 10)%N, s. split; [apply N.mod_lt; lia|done].
  - apply IH; [apply N.div_lt; lia|done].
Qed.

Lemma pretty_char_not_plus d : (d < 10)%N → pretty_N_char d ≠ "+"%char.
Proof. intros Hd E. apply (f_equal digit_of_ascii) in E. by rewrite digit_of_pretty_char in E. Qed.

(** Printing then parsing a [u64] gives it back. *)
Lemma parse_u64_to_string n : is_u64 n → parse_u64 (u64_to_string n) = Some n.
Proof.
  intros [Hn Hlt]. unfold u64_to_string, pretty, pretty_N.
  case_decide as E; [by assert (n = 0) as -> by lia|].
  destruct (pretty_N_go_head (Z.to_N n) "") as (d & t & Hd & Eg); [lia|].
  rewrite Eg. unfold parse_u64. case_decide as Ep; [by apply pretty_char_not_plus in Ep|].
  rewrite <-Eg. apply parse_digits_go; [lia|]. cbn. f_equal. lia.
Qed.

Lemma u64_to_string_inj m n :
  is_u64 m → is_u64 n → u64_to_string m = u64_to_string n → m = n.
Proof.
  intros Hm Hn E. apply (f_equal parse_u64) in E.
  rewrite !parse_u64_to_string in E by done. congruence.
Qed.
