(* ===== verification/CoreError.v ===== *)
(** * The error type of [lumen-core] (crates/core/src/error.rs)

    A formatted message is kept as its format literal and the values it
    interpolates; the text of third-party errors ([{e}]) is left out. *)

From S2P Require Import Prelude.

Record message := Msg { msg_fmt : string; msg_args : list string }.

Global Instance message_eq_dec : EqDecision message.
Proof. solve_decision. Defined.

(** The kinds of [std::io::Error] the modelled file operations return. *)
Inductive io_error := NotFound | AlreadyExists | UnexpectedEof | DirectoryNotEmpty.

Global Instance io_error_eq_dec : EqDecision io_error.
Proof. solve_decision. Defined.

(** [lumen_core::Error]. *)
Inductive Error : Type :=
| CollectionNotFound (name : string)
| SchemaConflict (name : string)
| MappingError (m : message)
| Validation (m : message)
| DocumentNotFound (id : string)
| Recovery (m : message)
| Io (e : io_error)
| TantivyError (what : string).

Global Instance Error_eq_dec : EqDecision Error.
Proof. solve_decision. Defined.
