(* ===== verification/FileSys.v ===== *)
(** * A directory of files

    What the sources use of [std::fs]: a directory is a finite map from file
    names to files, a file is its contents and the length of the prefix that has
    reached stable storage ([fsync] raises it to the whole file).  Operations
    fail for the reasons the standard library documents (a missing file, a short
    read); media faults are not modelled.

    [crash] is what a process kill or a power loss leaves behind: every file
    keeps its synced prefix and an arbitrary part of what follows it. *)

From S2P Require Import Prelude Bytes CoreError.

Open Scope Z_scope.

Record file := File { f_data : list byte; f_synced : nat }.

Global Instance file_eq_dec : EqDecision file.
Proof. solve_decision. Defined.

Abbreviation dir := (gmap string file).
Abbreviation IO := (M dir io_error).

Definition fs_lookup (name : string) : IO file := λ d,
  match d !! name with
  | Some f => (Ok f, d)
  | None => (Err NotFound, d)
  end.

(** [fs::read_dir(dir)?], the names in some order. *)
Definition read_dir : IO (list string) := λ d, (Ok (map_to_list d).*1, d).

(** [fs::read(path)]. *)
Definition fs_read (name : string) : IO (list byte) :=
  f ← fs_lookup name; mret (f_data f).

(** [fs::metadata(path)?.len()]. *)
Definition metadata_len (name : string) : IO Z :=
  f ← fs_lookup name; mret (blen (f_data f)).

(** [fs::remove_file(path)]. *)
Definition remove_file (name : string) : IO unit :=
  fs_lookup name;; modify (delete name).

(** [OpenOptions::new().append(true).open(path)] and
    [OpenOptions::new().write(true).open(path)]: the file must exist. *)
Definition open_existing (name : string) : IO unit := fs_lookup name;; mret tt.

(** [OpenOptions::new().create(true).append(true).open(path)]: an existing file
    keeps its contents. *)
Definition open_create_append (name : string) : IO unit := λ d,
  match d !! name with
  | Some _ => (Ok tt, d)
  | None => (Ok tt, <[name := File [] 0]> d)
  end.

(** [File::create(path)]: an existing file is truncated. *)
Definition file_create (name : string) : IO unit :=
  modify (<[name := File [] 0]>).

(** [file.set_len(n)] with [n] at most the current length. *)
Definition set_len (name : string) (n : Z) : IO unit :=
  f ← fs_lookup name;
  modify (<[name := File (take (Z.to_nat n) (f_data f)) (f_synced f `min` Z.to_nat n)]>).

(** [file.write_all(bytes)] on a handle in append mode. *)
Definition write_all (name : string) (bs : list byte) : IO unit :=
  f ← fs_lookup name;
  modify (<[name := File (f_data f ++ bs) (f_synced f)]>).

(** [crate::sync::fsync(&file)], [File::sync_all]. *)
Definition fsync (name : string) : IO unit :=
  f ← fs_lookup name;
  modify (<[name := File (f_data f) (length (f_data f))]>).

(** [file.read_exact_at(&mut buf, offset)] with [buf.len() = n]. *)
Definition read_exact_at (name : string) (off n : Z) : IO (list byte) :=
  f ← fs_lookup name;
  if decide (off + n ≤ blen (f_data f)) then mret (slice (f_data f) off n)
  else throw UnexpectedEof.

(** [fs::rename(from, to)], which replaces [to] atomically. *)
Definition rename (from to : string) : IO unit :=
  f ← fs_lookup from;
  modify (λ d, <[to := f]> (delete from d)).

(** ** The operations on a present file *)

Section fs_ok.
Context (d : dir) (name : string) (f : file) (Hf : d !! name = Some f).

Lemma fs_lookup_ok : fs_lookup name d = (Ok f, d).
Proof. unfold fs_lookup. by rewrite Hf. Qed.
Lemma fs_read_ok : fs_read name d = (Ok (f_data f), d).
Proof. unfold fs_read. by mstep fs_lookup_ok. Qed.
Lemma metadata_len_ok : metadata_len name d = (Ok (blen (f_data f)), d).
Proof. unfold metadata_len. by mstep fs_lookup_ok. Qed.
Lemma remove_file_ok : remove_file name d = (Ok tt, delete name d).
Proof. unfold remove_file. by mstep fs_lookup_ok. Qed.
Lemma open_existing_ok : open_existing name d = (Ok tt, d).
Proof. unfold open_existing. by mstep fs_lookup_ok. Qed.
Lemma open_create_append_ok : open_create_append name d = (Ok tt, d).
Proof. unfold open_create_append. by rewrite Hf. Qed.
Lemma set_len_ok n :
  set_len name n d =
    (Ok tt, <[name := File (take (Z.to_nat n) (f_data f)) (f_synced f `min` Z.to_nat n)]> d).
Proof. unfold set_len. by mstep fs_lookup_ok. Qed.
Lemma write_all_ok bs :
  write_all name bs d = (Ok tt, <[name := File (f_data f ++ bs) (f_synced f)]> d).
Proof. unfold write_all. by mstep fs_lookup_ok. Qed.
Lemma fsync_ok : fsync name d = (Ok tt, <[name := File (f_data f) (length (f_data f))]> d).
Proof. unfold fsync. by mstep fs_lookup_ok. Qed.
Lemma read_exact_at_ok off n :
  off + n ≤ blen (f_data f) → read_exact_at name off n d = (Ok (slice (f_data f) off n), d).
Proof. intros. unfold read_exact_at. mstep fs_lookup_ok. by case_decide. Qed.
Lemma rename_ok to : rename name to d = (Ok tt, <[to := f]> (delete name d)).
Proof. unfold rename. by mstep fs_lookup_ok. Qed.
End fs_ok.

Lemma open_create_append_new (d : dir) name :
  d !! name = None → open_create_append name d = (Ok tt, <[name := File [] 0]> d).
Proof. intros E. unfold open_create_append. by rewrite E. Qed.

(** ** Replacing a file

    The program replaces its small files in four steps: create a temporary file,
    write it, sync it, rename it. *)

(** The directory after the first, the first two and the first three steps. *)
Definition replacing (tmp : string) (bs : list byte) (d : dir) : list dir :=
  [ (file_create tmp d).2;
    ((file_create tmp;; write_all tmp bs) d).2;
    ((file_create tmp;; write_all tmp bs;; fsync tmp) d).2 ].

Lemma replacing_other tmp bs d d' name : d' ∈ replacing tmp bs d → tmp ≠ name → d' !! name = d !! name.
Proof.
  intros Hin Hne.
  assert (E1 : file_create tmp d = (Ok tt, <[tmp := File [] 0]> d)) by done.
  pose proof (write_all_ok _ _ _ (lookup_insert_eq d tmp (File [] 0)) bs) as E2.
  pose proof (fsync_ok _ _ _ (lookup_insert_eq (<[tmp := File [] 0]> d) tmp (File ([] ++ bs) 0))) as E3.
  revert Hin. unfold replacing. rewrite !(M_bind_Ok _ _ _ _ _ E1), (M_bind_Ok _ _ _ _ _ E2), E2, E1.
  cbn [f_synced f_data]. rewrite E3. cbn [snd].
  intros [->|[->|[->|[]%elem_of_nil]%elem_of_cons]%elem_of_cons]%elem_of_cons;
    by rewrite !lookup_insert_ne.
Qed.

Lemma replace_ok tmp name bs d :
  ∃ d', (file_create tmp;; write_all tmp bs;; fsync tmp;; rename tmp name) d = (Ok tt, d')
    ∧ d' !! name = Some (File bs (length bs)).
Proof.
  mpure. mstep (write_all_ok _ _ _ (lookup_insert_eq _ _ _)).
  mstep (fsync_ok _ _ _ (lookup_insert_eq _ _ _)).
  eexists. split; [apply (rename_ok _ _ _ (lookup_insert_eq _ _ _))|]. by rewrite lookup_insert_eq.
Qed.

(** ** Crashes *)

Definition crash_file (f f' : file) : Prop :=
  ∃ k, (f_synced f ≤ k)%nat ∧ f_data f' = take k (f_data f) ∧ f_synced f' = length (f_data f').

Definition crash (d d' : dir) : Prop :=
  ∀ name, option_Forall2 crash_file (d !! name) (d' !! name).

Lemma crash_lookup d d' name f :
  crash d d' → d !! name = Some f → ∃ f', d' !! name = Some f' ∧ crash_file f f'.
Proof. intros Hc E. specialize (Hc name). rewrite E in Hc. inv Hc. eauto. Qed.

Lemma crash_lookup_None d d' name : crash d d' → d !! name = None → d' !! name = None.
Proof. intros Hc E. specialize (Hc name). rewrite E in Hc. by inv Hc. Qed.

(** A fully synced file survives unchanged. *)
Lemma crash_file_synced f f' :
  (length (f_data f) ≤ f_synced f)%nat → crash_file f f' → f_data f' = f_data f.
Proof. intros Hs (k & Hk & E & _). rewrite E. apply take_ge. lia. Qed.

(** Every byte of every file is on stable storage. *)
Definition all_synced (d : dir) : Prop :=
  ∀ name f, d !! name = Some f → f_synced f = length (f_data f).

Lemma crash_all_synced d d' : crash d d' → all_synced d'.
Proof.
  intros Hc name f Hf. specialize (Hc name). rewrite Hf in Hc.
  by inv Hc as [? ? (k & _ & _ & ?)|].
Qed.

(** ** How operations change a directory

    [grows]: files only get longer and what was synced stays synced.  [settled]:
    what is left is an old file or one that is completely synced. *)

Definition grows (d d' : dir) : Prop :=
  ∀ name f, d !! name = Some f → ∃ f', d' !! name = Some f'
    ∧ (length (f_data f) ≤ length (f_data f'))%nat
    ∧ (f_synced f `min` length (f_data f) ≤ f_synced f')%nat.

Definition settled (d d' : dir) : Prop :=
  ∀ name f', d' !! name = Some f' → d !! name = Some f' ∨ f_synced f' = length (f_data f').

Global Instance grows_preorder : PreOrder grows.
Proof.
  split.
  - intros d name f Hf. exists f. split_and!; [done|lia|lia].
  - intros d1 d2 d3 H12 H23 name f Hf. destruct (H12 _ _ Hf) as (f2 & Hf2 & ? & ?).
    destruct (H23 _ _ Hf2) as (f3 & Hf3 & ? & ?). exists f3. split_and!; [done|lia|lia].
Qed.

Global Instance settled_preorder : PreOrder settled.
Proof.
  split; [by left|]. intros d1 d2 d3 H12 H23 name f Hf.
  destruct (H23 _ _ Hf) as [Hf2|?]; [|by right]. by apply H12.
Qed.

Lemma grows_insert (d : dir) name f f' :
  d !! name = Some f → (length (f_data f) ≤ length (f_data f'))%nat →
  (f_synced f `min` length (f_data f) ≤ f_synced f')%nat → grows d (<[name := f']> d).
Proof.
  intros Hf Hl Hs n g Hg. destruct (decide (n = name)) as [->|Hne].
  - simplify_eq. exists f'. by rewrite lookup_insert_eq.
  - exists g. rewrite lookup_insert_ne by done. split_and!; [done|lia|lia].
Qed.

Lemma grows_insert_new (d : dir) name f : d !! name = None → grows d (<[name := f]> d).
Proof.
  intros Hn n g Hg. exists g. rewrite lookup_insert_ne by congruence. split_and!; [done|lia|lia].
Qed.

Lemma settled_insert (d : dir) name f :
  f_synced f = length (f_data f) → settled d (<[name := f]> d).
Proof.
  intros Hs n g. destruct (decide (n = name)) as [->|Hne].
  - rewrite lookup_insert_eq. intros [= ->]. by right.
  - rewrite lookup_insert_ne by done. by left.
Qed.

Lemma settled_delete (d : dir) name : settled d (delete name d).
Proof. intros n g [_ ?]%lookup_delete_Some. by left. Qed.
