(* ===== verification/SegmentedLog.v ===== *)
(** * The segmented log (crates/core/src/log.rs)

    An append-only log of byte records keyed by a contiguous [u64] index, stored
    as [len: u32][crc32c: u32][payload] frames in files [seg-<start>.log].  One
    definition per function of the source; a method of [&mut self] is a
    computation over the in-memory struct and the log's directory.

    The checksum crate is the class [Crc32c]: all the log relies on is that a
    checksum fits in 32 bits.  An open [File] in append mode is the name of the
    segment it was opened on.  Arithmetic on [u64] wraps (release build), and the
    [debug_assert!] of [append] is the separate predicate [append_contract]. *)

From S2P Require Import Prelude Bytes CoreError FileSys.

Open Scope Z_scope.

Class Crc32c := {
  crc32c : list byte → Z;
  crc32c_u32 p : is_u32 (crc32c p)
}.

Definition SEGMENT_PREFIX : string := "seg-".
Definition SEGMENT_SUFFIX : string := ".log".
Definition DEFAULT_SEGMENT_MAX_BYTES : Z := 64 * 1024 * 1024.
Definition HEADER_BYTES : Z := 8.

Record RecordLoc := {
  segment_start : Z;
  payload_offset : Z;
  loc_len : Z
}.

Record Active := {
  a_start : Z;
  a_file : string;
  a_bytes : Z
}.

Record SegmentedLog := {
  segment_max_bytes : Z;
  starts : list Z;
  records : gmap Z RecordLoc;
  active : option Active
}.

Global Instance RecordLoc_eq_dec : EqDecision RecordLoc.
Proof. solve_decision. Defined.
Global Instance Active_eq_dec : EqDecision Active.
Proof. solve_decision. Defined.

(** The struct and the directory it works on. *)
Record LogSt := { slf : SegmentedLog; disk : dir }.

Definition set_starts (ss : list Z) (l : SegmentedLog) : SegmentedLog :=
  {| segment_max_bytes := segment_max_bytes l; starts := ss;
     records := records l; active := active l |}.
Definition set_records (rs : gmap Z RecordLoc) (l : SegmentedLog) : SegmentedLog :=
  {| segment_max_bytes := segment_max_bytes l; starts := starts l;
     records := rs; active := active l |}.
Definition set_active (a : option Active) (l : SegmentedLog) : SegmentedLog :=
  {| segment_max_bytes := segment_max_bytes l; starts := starts l;
     records := records l; active := a |}.

Definition on_self (f : SegmentedLog → SegmentedLog) : M LogSt Error unit :=
  modify (λ s, {| slf := f (slf s); disk := disk s |}).

(** A file operation on the log's directory; [?] turns [io::Error] into
    [Error::Io]. *)
Definition io {A} (m : IO A) : M LogSt Error A :=
  mapE Io (zoom disk (λ d s, {| slf := slf s; disk := d |}) m).

Definition get_self : M LogSt Error SegmentedLog := s ← get; mret (slf s).

(** ** Segment names *)

Definition segment_path (start : Z) : string :=
  SEGMENT_PREFIX +:+ (u64_to_string start +:+ SEGMENT_SUFFIX).

Definition parse_segment_name (name : string) : option Z :=
  rest ← strip_prefix SEGMENT_PREFIX name;
  start ← strip_suffix SEGMENT_SUFFIX rest;
  parse_u64 start.

Definition segment_starts : IO (list Z) :=
  names ← read_dir;
  mret (merge_sort Z.le (omap parse_segment_name names)).

Section SegmentedLog.
Context `{Crc32c}.

(** ** Scanning a segment *)

(** The loop of [scan_segment]: [offset] and [index] are its mutable variables,
    [locs] the pushed triples (index, payload offset, length). *)
Fixpoint scan_loop (fuel : nat) (bytes : list byte) (offset index : Z)
    (locs : list (Z * Z * Z)) : list (Z * Z * Z) * Z :=
  match fuel with
  | O => (locs, offset)
  | S fuel =>
      if decide (offset + HEADER_BYTES ≤ blen bytes) then
        let len := from_le_bytes (slice bytes offset 4) in
        let crc := from_le_bytes (slice bytes (offset + 4) 4) in
        let body := offset + HEADER_BYTES in
        if decide (blen bytes < body + len) then (locs, offset)
        else
          let payload := slice bytes body len in
          if decide (crc32c payload = crc)
          then scan_loop fuel bytes (body + len) (wrap64 (index + 1))
                 (locs ++ [(index, body, len)])
          else (locs, offset)
      else (locs, offset)
  end.

(** Every iteration advances by at least a header, so as many iterations as
    there are bytes are enough. *)
Definition scan_segment (start : Z) (bytes : list byte) : list (Z * Z * Z) * Z :=
  scan_loop (S (length bytes)) bytes 0 start [].

(** ** Opening *)

Definition insert_locs (start : Z) (locs : list (Z * Z * Z)) (m : gmap Z RecordLoc) :
    gmap Z RecordLoc :=
  foldl (λ m '(index, off, len),
    <[index := {| segment_start := start; payload_offset := off; loc_len := len |}]> m) m locs.

(** The loop over [starts.iter().enumerate()]: the result is the record index,
    the active segment and [torn_at]. *)
Fixpoint open_segments (n i : nat) (ss : list Z) (recs : gmap Z RecordLoc)
    (act : option Active) : IO (gmap Z RecordLoc * option Active * option nat) :=
  match ss with
  | [] => mret (recs, act, None)
  | start :: ss =>
      let path := segment_path start in
      bytes ← fs_read path;
      let '(locs, valid_len) := scan_segment start bytes in
      let recs := insert_locs start locs recs in
      let torn := bool_decide (valid_len < blen bytes) in
      let is_last := bool_decide ((i + 1)%nat = n) in
      if torn then
        open_existing path;;
        set_len path valid_len;;
        fsync path;;
        mret (recs, Some {| a_start := start; a_file := path; a_bytes := valid_len |}, Some i)
      else if is_last then
        open_existing path;;
        open_segments n (S i) ss recs
          (Some {| a_start := start; a_file := path; a_bytes := blen bytes |})
      else open_segments n (S i) ss recs act
  end.

Definition open_with_segment_max (max : Z) : M dir Error SegmentedLog :=
  mapE Io (
    ss ← segment_starts;
    '(recs, act, torn_at) ← open_segments (length ss) 0 ss ∅ None;
    mret {| segment_max_bytes := max;
            starts := match torn_at with Some i => take (i + 1) ss | None => ss end;
            records := recs;
            active := act |}).

Definition open : M dir Error SegmentedLog := open_with_segment_max DEFAULT_SEGMENT_MAX_BYTES.

(** ** Reading *)

Definition last_index (l : SegmentedLog) : option Z := last_key (records l).

(** [handles] is the set of segments opened so far. *)
Fixpoint read_locs (handles : gset Z) (locs : list (Z * RecordLoc)) (out : list (Z * list byte)) :
    IO (list (Z * list byte)) :=
  match locs with
  | [] => mret out
  | (index, loc) :: locs =>
      let path := segment_path (segment_start loc) in
      (if decide (segment_start loc ∈ handles) then mret tt else open_existing path);;
      buf ← read_exact_at path (payload_offset loc) (loc_len loc);
      read_locs ({[segment_start loc]} ∪ handles) locs (out ++ [(index, buf)])
  end.

Definition read_all : M LogSt Error (list (Z * list byte)) :=
  l ← get_self;
  io (read_locs ∅ (btree_iter Z.le (records l)) []).

(** [BTreeMap::range] panics on an inverted range. *)
Definition read_range (from to : Z) : M LogSt Error (list (Z * list byte)) :=
  l ← get_self;
  if decide (to < from)
  then lift (Panic "range start is greater than range end in BTreeMap")
  else io (read_locs ∅ (filter (λ kv, from ≤ kv.1 < to) (btree_iter Z.le (records l))) []).

(** ** Appending *)

Definition needs_rotation (l : SegmentedLog) : bool :=
  match active l with
  | None => true
  | Some a => bool_decide (segment_max_bytes l ≤ a_bytes a)
  end.

Definition rotate (start : Z) : M LogSt Error unit :=
  l ← get_self;
  (match active l with
   | Some a => io (fsync (a_file a))
   | None => mret tt
   end);;
  io (open_create_append (segment_path start));;
  on_self (set_active
    (Some {| a_start := start; a_file := segment_path start; a_bytes := 0 |}));;
  l ← get_self;
  if decide (start ∈ starts l) then mret tt
  else on_self (set_starts (merge_sort Z.le (starts l ++ [start]))).

(** The [debug_assert!]: appends are contiguous, or the log is empty. *)
Definition append_contract (l : SegmentedLog) (index : Z) : bool :=
  match last_index l with
  | None => true
  | Some last => bool_decide (index = wrap64 (last + 1))
  end.

Definition frame (payload : list byte) : list byte :=
  to_le_bytes (blen payload) ++ to_le_bytes (crc32c payload) ++ payload.

(** The part of [append] after the rotation check: write the frame, then index
    it. *)
Definition append_frame (index : Z) (payload : list byte) : M LogSt Error unit :=
  l ← get_self;
  a ← lift (expect "active present after rotation" (active l));
  let payload_off := wrap64 (a_bytes a + HEADER_BYTES) in
  io (write_all (a_file a) (frame payload));;
  on_self (set_active
    (Some {| a_start := a_start a; a_file := a_file a;
             a_bytes := wrap64 (a_bytes a + blen (frame payload)) |}));;
  on_self (λ l, set_records
    (<[index := {| segment_start := a_start a; payload_offset := payload_off;
                   loc_len := blen payload |}]> (records l)) l).

Definition append (index : Z) (payload : list byte) : M LogSt Error unit :=
  (if decide (blen payload < two32) then mret tt
   else throw (Recovery (Msg "log record exceeds u32 length" [])));;
  l ← get_self;
  (if needs_rotation l then rotate index else mret tt);;
  append_frame index payload.

Definition sync : M LogSt Error unit :=
  l ← get_self;
  match active l with
  | Some a => io (fsync (a_file a))
  | None => mret tt
  end.

(** ** Truncation and purge *)

Definition reopen_active : M LogSt Error unit :=
  l ← get_self;
  match last (starts l) with
  | Some start =>
      let path := segment_path start in
      bytes ← io (metadata_len path);
      io (open_existing path);;
      on_self (set_active (Some {| a_start := start; a_file := path; a_bytes := bytes |}))
  | None => on_self (set_active None)
  end.

(** The [if let Some(..) = cut] block of [truncate_from]. *)
Definition cut_frame (index : Z) (cut : option (Z * Z)) : M LogSt Error unit :=
  match cut with
  | Some (seg, frame_start) =>
      if decide (seg < index) then
        io (open_existing (segment_path seg));;
        io (set_len (segment_path seg) frame_start);;
        io (fsync (segment_path seg))
      else mret tt
  | None => mret tt
  end.

Definition truncate_from (index : Z) : M LogSt Error unit :=
  l ← get_self;
  let cut := (λ loc, (segment_start loc, wrap64 (payload_offset loc - HEADER_BYTES)))
               <$> records l !! index in
  let to_delete := filter (λ s, index ≤ s) (starts l) in
  on_self (λ l, set_records (retain_keys (λ k, bool_decide (k < index)) (records l)) l);;
  cut_frame index cut;;
  for_each to_delete (λ start, io (remove_file (segment_path start)));;
  on_self (λ l, set_starts (filter (λ s, s ∉ to_delete) (starts l)) l);;
  reopen_active.

Definition purge_step (active_start : option Z) (index : Z) (ss : list Z) (i : nat) :
    M LogSt Error unit :=
  match ss !! i with
  | None => lift (Panic "index out of bounds")
  | Some start =>
      if decide (Some start = active_start) then mret tt
      else match ss !! (i + 1)%nat with
           | None => mret tt
           | Some next =>
               if decide (wrap64 (next - 1) ≤ index)
               then io (remove_file (segment_path start))
               else mret tt
           end
  end.

Definition purge_through (index : Z) : M LogSt Error unit :=
  on_self (λ l, set_records (retain_keys (λ k, bool_decide (index < k)) (records l)) l);;
  l ← get_self;
  let active_start := a_start <$> active l in
  for_each (seq 0 (length (starts l))) (purge_step active_start index (starts l));;
  on_self (λ l, set_starts
    (filter (λ s, Some s = active_start
                  ∨ Exists (λ kv, segment_start kv.2 = s) (map_to_list (records l)))
            (starts l)) l).
End SegmentedLog.
