(* ===== verification/LogScan.v ===== *)
(** * Frames and the segment scan

    The scan of [log.rs] against a declarative reading of a segment file: the
    file is a sequence of frames followed by a tail that does not start with a
    valid frame. *)

From S2P Require Import Prelude Bytes CoreError FileSys SegmentedLog.

Open Scope Z_scope.

Section LogScan.
Context `{Crc32c}.

(** The contents of a segment that holds the payloads [ps]. *)
Definition seg_bytes (ps : list (list byte)) : list byte := concat (frame <$> ps).

(** One step of the scan on the bytes that are left: the payload of the next
    valid frame. *)
Definition next_frame (t : list byte) : option (list byte) :=
  if decide (HEADER_BYTES ≤ blen t) then
    let len := from_le_bytes (slice t 0 4) in
    if decide (blen t < HEADER_BYTES + len) then None
    else
      let payload := slice t HEADER_BYTES len in
      if decide (crc32c payload = from_le_bytes (slice t 4 4)) then Some payload else None
  else None.

(** A tail the scan stops at. *)
Definition torn (t : list byte) : Prop := next_frame t = None.

(** The triples the scan pushes for the payloads [ps] found from [off] on. *)
Fixpoint scan_locs (index off : Z) (ps : list (list byte)) : list (Z * Z * Z) :=
  match ps with
  | [] => []
  | p :: ps => (index, off + HEADER_BYTES, blen p)
                 :: scan_locs (index + 1) (off + HEADER_BYTES + blen p) ps
  end.

Lemma slice_shift pre t k n : 0 ≤ k → slice (pre ++ t) (blen pre + k) n = slice t k n.
Proof.
  intros Hk. unfold slice, blen. f_equal.
  rewrite Z2Nat.inj_add, Nat2Z.id by lia. by rewrite drop_app_add.
Qed.

Lemma slice_blen t k n : 0 ≤ k → 0 ≤ n → k + n ≤ blen t → blen (slice t k n) = n.
Proof.
  unfold slice, blen. intros. rewrite length_take, length_drop. lia.
Qed.

Lemma blen_frame p : blen (frame p) = HEADER_BYTES + blen p.
Proof. unfold frame. rewrite !blen_app, !blen_to_le_bytes. unfold HEADER_BYTES. lia. Qed.

Lemma seg_bytes_cons p ps : seg_bytes (p :: ps) = frame p ++ seg_bytes ps.
Proof. done. Qed.

Lemma blen_seg_bytes_cons p ps :
  blen (seg_bytes (p :: ps)) = HEADER_BYTES + blen p + blen (seg_bytes ps).
Proof. by rewrite seg_bytes_cons, blen_app, blen_frame. Qed.

Lemma seg_bytes_app ps qs : seg_bytes (ps ++ qs) = seg_bytes ps ++ seg_bytes qs.
Proof. unfold seg_bytes. by rewrite fmap_app, concat_app. Qed.

Lemma seg_bytes_snoc ps p : seg_bytes (ps ++ [p]) = seg_bytes ps ++ frame p.
Proof. rewrite seg_bytes_app, seg_bytes_cons. f_equal. apply app_nil_r. Qed.

Lemma next_frame_blen t p : next_frame t = Some p → HEADER_BYTES + blen p ≤ blen t.
Proof.
  unfold next_frame. intros E. repeat case_decide; simplify_eq.
  pose proof (from_le_bytes_range (slice t 0 4)).
  rewrite slice_blen; unfold HEADER_BYTES in *; lia.
Qed.

(** The frame written by [append] is read back, whatever follows it. *)
Lemma next_frame_frame p t : blen p < two32 → next_frame (frame p ++ t) = Some p.
Proof.
  intros Hp. unfold next_frame.
  assert (Hlen : from_le_bytes (slice (frame p ++ t) 0 4) = blen p).
  { rewrite <-(from_to_le_bytes (blen p)) by (split; [apply blen_nonneg|done]).
    done. }
  assert (Hcrc : from_le_bytes (slice (frame p ++ t) 4 4) = crc32c p).
  { rewrite <-(from_to_le_bytes (crc32c p)) by apply crc32c_u32.
    done. }
  assert (Hbody : slice (frame p ++ t) HEADER_BYTES (blen p) = p).
  { replace (frame p ++ t) with ((to_le_bytes (blen p) ++ to_le_bytes (crc32c p)) ++ p ++ t)
      by (unfold frame; by rewrite <-!app_assoc).
    by apply slice_app_at. }
  pose proof (blen_nonneg t). pose proof (blen_nonneg p).
  rewrite Hlen, Hcrc, Hbody, blen_app, blen_frame.
  unfold HEADER_BYTES in *. by repeat (case_decide; try lia).
Qed.

(** A frame cut short is torn: its length field promises more bytes than there
    are.  The checksum is not needed for this. *)
Lemma torn_partial_frame p k :
  blen p < two32 → (k < length (frame p))%nat → torn (take k (frame p)).
Proof.
  intros Hp Hk. unfold torn, next_frame.
  assert (Hb : blen (take k (frame p)) = Z.of_nat k).
  { unfold blen. rewrite length_take. lia. }
  assert (HF : Z.of_nat (length (frame p)) = HEADER_BYTES + blen p) by apply blen_frame.
  rewrite Hb. case_decide as H8; [|done].
  assert (Hlen : from_le_bytes (slice (take k (frame p)) 0 4) = blen p).
  { rewrite <-(from_to_le_bytes (blen p)) by (split; [apply blen_nonneg|done]).
    f_equal. unfold slice. change (Z.to_nat 0) with 0%nat. change (Z.to_nat 4) with 4%nat.
    rewrite drop_0, take_take.
    replace (4 `min` k)%nat with 4%nat by (unfold HEADER_BYTES in *; lia). done. }
  rewrite Hlen. case_decide; [done|]. unfold HEADER_BYTES in *. lia.
Qed.

Lemma torn_nil : torn [].
Proof. unfold torn, next_frame. case_decide as E; [|done]. by cbn in E. Qed.

(** The body of the loop in terms of the unread bytes. *)
Lemma scan_loop_step fuel pre t index locs :
  scan_loop (S fuel) (pre ++ t) (blen pre) index locs =
    match next_frame t with
    | None => (locs, blen pre)
    | Some p => scan_loop fuel (pre ++ t) (blen pre + HEADER_BYTES + blen p)
                  (wrap64 (index + 1)) (locs ++ [(index, blen pre + HEADER_BYTES, blen p)])
    end.
Proof.
  cbn [scan_loop]. unfold next_frame. rewrite blen_app.
  assert (E0 : slice (pre ++ t) (blen pre) 4 = slice t 0 4).
  { pose proof (slice_shift pre t 0 4) as E. rewrite Z.add_0_r in E. by apply E. }
  rewrite E0, !slice_shift by (unfold HEADER_BYTES; lia).
  unfold HEADER_BYTES.
  repeat case_decide; try done; try lia.
  pose proof (from_le_bytes_range (slice t 0 4)).
  rewrite slice_blen by lia. done.
Qed.

Lemma scan_loop_frames ps : ∀ fuel pre tail index locs,
  (length ps < fuel)%nat → 0 ≤ index → index + Z.of_nat (length ps) < two64 →
  Forall (λ p, blen p < two32) ps → torn tail →
  scan_loop fuel (pre ++ seg_bytes ps ++ tail) (blen pre) index locs =
    (locs ++ scan_locs index (blen pre) ps, blen pre + blen (seg_bytes ps)).
Proof.
  induction ps as [|p ps IH]; intros [|fuel] pre tail index locs Hf H0 Hi Hs Ht;
    try (cbn in Hf; lia); rewrite scan_loop_step.
  - cbn. rewrite Ht, app_nil_r. f_equal. unfold blen; cbn; lia.
  - apply Forall_cons in Hs as [Hp Hs]. cbn [length] in *.
    assert (Hcat : seg_bytes (p :: ps) ++ tail = frame p ++ seg_bytes ps ++ tail)
      by (by rewrite seg_bytes_cons, app_assoc).
    rewrite Hcat, next_frame_frame by done.
    replace (blen pre + HEADER_BYTES + blen p) with (blen (pre ++ frame p))
      by (rewrite blen_app, blen_frame; lia).
    rewrite app_assoc, wrap64_small by (split; lia).
    rewrite IH by (done || lia).
    rewrite blen_seg_bytes_cons, blen_app, blen_frame. cbn [scan_locs].
    rewrite <-app_assoc. cbn. f_equal; [|lia]. do 3 f_equal. lia.
Qed.

Lemma length_seg_bytes ps : (length ps ≤ length (seg_bytes ps))%nat.
Proof.
  induction ps as [|p ps IH]; [cbn; lia|].
  rewrite seg_bytes_cons, length_app. cbn [length].
  pose proof (blen_frame p) as E. unfold blen, HEADER_BYTES in E. lia.
Qed.

(** Scanning a segment file finds exactly the frames that were written and the
    length of their bytes. *)
Lemma scan_segment_frames start ps tail :
  0 ≤ start → start + Z.of_nat (length ps) < two64 →
  Forall (λ p, blen p < two32) ps → torn tail →
  scan_segment start (seg_bytes ps ++ tail) = (scan_locs start 0 ps, blen (seg_bytes ps)).
Proof.
  intros H0 Hi Hs Ht. unfold scan_segment.
  rewrite (scan_loop_frames ps _ [] tail start []); try done.
  - rewrite length_app. pose proof (length_seg_bytes ps). lia.
Qed.

(** The loop stops by itself: on any file, extra iterations change nothing. *)
Lemma scan_loop_enough fuel1 : ∀ fuel2 pre t index locs,
  (length t < fuel1)%nat → (length t < fuel2)%nat →
  scan_loop fuel1 (pre ++ t) (blen pre) index locs =
  scan_loop fuel2 (pre ++ t) (blen pre) index locs.
Proof.
  induction fuel1 as [|fuel1 IH]; intros [|fuel2] pre t index locs H1 H2; try lia.
  rewrite !scan_loop_step. destruct (next_frame t) as [p|] eqn:E; [|done].
  pose proof (next_frame_blen t p E) as Hb. pose proof (blen_nonneg p).
  set (n := Z.to_nat (HEADER_BYTES + blen p)).
  assert (Hn : (0 < n ≤ length t)%nat) by (unfold n, blen, HEADER_BYTES in *; lia).
  rewrite <-(take_drop n t), app_assoc.
  replace (blen pre + HEADER_BYTES + blen p) with (blen (pre ++ take n t)).
  2:{ rewrite blen_app. unfold blen at 2. rewrite length_take. unfold n in *. lia. }
  apply IH; rewrite length_drop; lia.
Qed.

Lemma scan_segment_fuel start bytes fuel :
  (length bytes < fuel)%nat → scan_loop fuel bytes 0 start [] = scan_segment start bytes.
Proof. intros Hf. apply (scan_loop_enough _ _ [] bytes); [done|lia]. Qed.
End LogScan.

Global Arguments seg_bytes {_} _ : simpl never.
Global Arguments frame {_} _ : simpl never.
