(* ===== verification/LogInv.v ===== *)
(** * The segmented log: physical layout and invariant

    A log is, on disk, a list of segments: a start index and the payloads of its
    records.  [disk_rep] says which directories represent such a list (the last
    segment may carry a torn tail), [log_inv] says when the in-memory struct
    agrees with it, up to the purge floor that only lives in memory. *)

From S2P Require Import Prelude Bytes CoreError FileSys SegmentedLog LogScan.

Open Scope Z_scope.

Abbreviation segment := (Z * list (list byte))%type.

(** ** Names *)

Lemma parse_segment_path s : is_u64 s → parse_segment_name (segment_path s) = Some s.
Proof.
  intros Hs. unfold parse_segment_name, segment_path.
  rewrite strip_prefix_app. cbn. rewrite strip_suffix_app. cbn.
  by apply parse_u64_to_string.
Qed.

Lemma segment_path_inj s t : is_u64 s → is_u64 t → segment_path s = segment_path t → s = t.
Proof.
  intros Hs Ht E. apply (f_equal parse_segment_name) in E.
  rewrite !parse_segment_path in E by done. congruence.
Qed.

(** ** Lists of segments *)

(** The records a payload list stands for when its first index is [i]. *)
Fixpoint entries_from (i : Z) (ps : list (list byte)) : list (Z * list byte) :=
  match ps with
  | [] => []
  | p :: ps => (i, p) :: entries_from (i + 1) ps
  end.

(** Their locations in segment [s], the first frame at offset [off]. *)
Fixpoint locs_from (s i off : Z) (ps : list (list byte)) : list (Z * RecordLoc) :=
  match ps with
  | [] => []
  | p :: ps =>
      (i, {| segment_start := s; payload_offset := off + HEADER_BYTES; loc_len := blen p |})
        :: locs_from s (i + 1) (off + HEADER_BYTES + blen p) ps
  end.

Definition zlen {A} (l : list A) : Z := Z.of_nat (length l).

Definition seg_entries (sg : segment) : list (Z * list byte) := entries_from sg.1 sg.2.
Definition seg_locs (sg : segment) : list (Z * RecordLoc) := locs_from sg.1 sg.1 0 sg.2.
Definition all_entries (segs : list segment) : list (Z * list byte) := concat (seg_entries <$> segs).
Definition all_locs (segs : list segment) : list (Z * RecordLoc) := concat (seg_locs <$> segs).

Definition seg_end (sg : segment) : Z := sg.1 + zlen sg.2.

(** Each segment starts where the previous one ends. *)
Fixpoint chain (s0 : Z) (segs : list segment) : Prop :=
  match segs with
  | [] => True
  | sg :: segs => sg.1 = s0 ∧ chain (seg_end sg) segs
  end.

Definition first_start (segs : list segment) : Z :=
  match segs with
  | [] => 0
  | sg :: _ => sg.1
  end.

(** The index the next record gets. *)
Definition next_index (segs : list segment) : Z :=
  match last segs with
  | None => 0
  | Some sg => seg_end sg
  end.

(** The records the in-memory index still serves. *)
Definition visible (floor : Z) (segs : list segment) : list (Z * list byte) :=
  filter (λ kv, floor < kv.1) (all_entries segs).

Lemma zlen_nil {A} : zlen (@nil A) = 0.
Proof. done. Qed.
Lemma zlen_cons {A} (x : A) l : zlen (x :: l) = 1 + zlen l.
Proof. unfold zlen. cbn [length]. lia. Qed.
Lemma zlen_app {A} (l k : list A) : zlen (l ++ k) = zlen l + zlen k.
Proof. unfold zlen. rewrite length_app. lia. Qed.
Lemma zlen_nonneg {A} (l : list A) : 0 ≤ zlen l.
Proof. unfold zlen. lia. Qed.
Lemma zlen_pos {A} (l : list A) : l ≠ [] → 0 < zlen l.
Proof. destruct l; [done|]. rewrite zlen_cons. pose proof (zlen_nonneg l). lia. Qed.

Lemma elem_of_entries_from i ps k p :
  (k, p) ∈ entries_from i ps → i ≤ k < i + zlen ps.
Proof.
  revert i. induction ps as [|q ps IH]; intros i; cbn; [by intros ?%elem_of_nil|].
  rewrite zlen_cons. intros [E|E]%elem_of_cons; [simplify_eq|apply IH in E];
    pose proof (zlen_nonneg ps); lia.
Qed.

Lemma entries_from_app i ps qs :
  entries_from i (ps ++ qs) = entries_from i ps ++ entries_from (i + zlen ps) qs.
Proof.
  revert i. induction ps as [|p ps IH]; intros i; cbn.
  - by rewrite zlen_nil, Z.add_0_r.
  - rewrite IH, zlen_cons. do 3 f_equal. lia.
Qed.

Lemma locs_from_app `{Crc32c} s i off ps qs :
  locs_from s i off (ps ++ qs) =
    locs_from s i off ps ++ locs_from s (i + zlen ps) (off + blen (seg_bytes ps)) qs.
Proof.
  revert i off. induction ps as [|p ps IH]; intros i off.
  - cbn. by rewrite zlen_nil, !Z.add_0_r.
  - cbn [app locs_from]. rewrite IH, zlen_cons, blen_seg_bytes_cons.
    do 2 f_equal. f_equal; lia.
Qed.

Lemma keys_locs_from s i off ps : (locs_from s i off ps).*1 = (entries_from i ps).*1.
Proof. revert i off. induction ps as [|p ps IH]; intros; cbn; [done|]. by rewrite IH. Qed.

Lemma all_entries_app a b : all_entries (a ++ b) = all_entries a ++ all_entries b.
Proof. unfold all_entries. by rewrite fmap_app, concat_app. Qed.
Lemma all_locs_app a b : all_locs (a ++ b) = all_locs a ++ all_locs b.
Proof. unfold all_locs. by rewrite fmap_app, concat_app. Qed.
Lemma all_entries_cons sg segs : all_entries (sg :: segs) = seg_entries sg ++ all_entries segs.
Proof. done. Qed.
Lemma all_locs_cons sg segs : all_locs (sg :: segs) = seg_locs sg ++ all_locs segs.
Proof. done. Qed.
Lemma all_entries_one sg : all_entries [sg] = seg_entries sg.
Proof. apply app_nil_r. Qed.
Lemma all_locs_one sg : all_locs [sg] = seg_locs sg.
Proof. apply app_nil_r. Qed.

Lemma keys_all_locs segs : (all_locs segs).*1 = (all_entries segs).*1.
Proof.
  induction segs as [|sg segs IH]; [done|].
  rewrite all_locs_cons, all_entries_cons, !fmap_app, IH. f_equal. apply keys_locs_from.
Qed.

Lemma chain_app s0 a b : chain s0 (a ++ b) ↔ chain s0 a ∧ chain (default s0 (seg_end <$> last a)) b.
Proof.
  revert s0. induction a as [|sg a IH]; intros s0; cbn [app chain]; [by rewrite (left_id True _)|].
  rewrite IH. destruct a as [|sg' a]; cbn; [tauto|].
  rewrite !last_cons. destruct (last a); cbn; tauto.
Qed.

Lemma next_index_snoc segs sg : next_index (segs ++ [sg]) = seg_end sg.
Proof. unfold next_index. by rewrite last_snoc. Qed.

Lemma chain_all_entries s0 segs :
  chain s0 segs → all_entries segs = entries_from s0 (concat segs.*2).
Proof.
  revert s0. induction segs as [|sg segs IH]; intros s0; [done|].
  intros [<- Hc]. rewrite all_entries_cons, (IH _ Hc). cbn [fmap list_fmap concat].
  by rewrite entries_from_app.
Qed.

Lemma entries_from_sorted i ps : StronglySorted Z.lt (entries_from i ps).*1.
Proof.
  revert i. induction ps as [|p ps IH]; intros i; cbn; constructor; [done|].
  apply Forall_forall. intros k ([k' q] & -> & Hk)%list_elem_of_fmap.
  apply elem_of_entries_from in Hk. cbn. lia.
Qed.

Lemma chain_keys_sorted s0 segs : chain s0 segs → StronglySorted Z.lt (all_entries segs).*1.
Proof. intros Hc. rewrite (chain_all_entries _ _ Hc). apply entries_from_sorted. Qed.

Lemma chain_locs_sorted s0 segs : chain s0 segs → keys_sorted (all_locs segs).
Proof. rewrite keys_all_locs. apply chain_keys_sorted. Qed.

(** ** Representation on disk *)

Section LogInv.
Context `{Crc32c}.

(** Machine bounds of a segment: indexes and offsets fit in [u64], payload
    lengths in [u32]. *)
Record seg_ok (sg : segment) : Prop := {
  so_start : 0 ≤ sg.1;
  so_end : seg_end sg < two64;
  so_payloads : Forall (λ p, blen p < two32) sg.2;
  so_bytes : blen (seg_bytes sg.2) < two64
}.

(** A segment that is no longer appended to: exact contents, all of it synced. *)
Definition sealed_file (d : dir) (sg : segment) : Prop :=
  ∃ f, d !! segment_path sg.1 = Some f ∧ f_data f = seg_bytes sg.2
       ∧ (length (f_data f) ≤ f_synced f)%nat.

(** The last segment, possibly with a torn tail. *)
Definition tail_file (d : dir) (sg : segment) (tail : list byte) : Prop :=
  ∃ f, d !! segment_path sg.1 = Some f ∧ f_data f = seg_bytes sg.2 ++ tail.

Record disk_rep (d : dir) (segs : list segment) (tail : list byte) : Prop := {
  dr_chain : chain (first_start segs) segs;
  dr_ok : Forall seg_ok segs;
  dr_files : ∀ init sg, segs = init ++ [sg] →
    Forall (sealed_file d) init ∧ Forall (λ sg, sg.2 ≠ []) init ∧ tail_file d sg tail;
  dr_torn : torn tail;
  dr_only : ∀ name f s, d !! name = Some f → parse_segment_name name = Some s →
    s ∈ segs.*1 ∧ name = segment_path s
}.

Definition active_of (segs : list segment) : option Active :=
  (λ sg : segment, {| a_start := sg.1; a_file := segment_path sg.1;
                      a_bytes := blen (seg_bytes sg.2) |}) <$> last segs.

(** The in-memory struct serves the records above [floor]. *)
Record log_inv (st : LogSt) (segs : list segment) (floor : Z) : Prop := {
  li_disk : disk_rep (disk st) segs [];
  li_starts : starts (slf st) = segs.*1;
  li_active : active (slf st) = active_of segs;
  li_records : records (slf st) = list_to_map (filter (λ kv, floor < kv.1) (all_locs segs));
  li_floor : segs ≠ [] → floor < next_index segs
}.

Lemma seg_ok_u64 sg : seg_ok sg → is_u64 sg.1.
Proof. intros [? He _ _]. unfold seg_end in He. pose proof (zlen_nonneg sg.2). split; lia. Qed.

(** ** Opening *)

Lemma insert_locs_scan s i off ps m :
  insert_locs s (scan_locs i off ps) m
  = foldl (λ m kv, <[kv.1 := kv.2]> m) m (locs_from s i off ps).
Proof.
  unfold insert_locs. revert i off m.
  induction ps as [|p ps IH]; intros; cbn; [done|]. by rewrite IH.
Qed.

Lemma scan_seg sg tail :
  seg_ok sg → torn tail →
  scan_segment sg.1 (seg_bytes sg.2 ++ tail) = (scan_locs sg.1 0 sg.2, blen (seg_bytes sg.2)).
Proof. intros [] Ht. by apply scan_segment_frames. Qed.

Lemma open_segments_init init : ∀ rest n i recs act d,
  Forall (sealed_file d) init → Forall seg_ok init → (i + length init < n)%nat →
  open_segments n i (init ++ rest).*1 recs act d =
  open_segments n (i + length init) rest.*1
    (foldl (λ m kv, <[kv.1 := kv.2]> m) recs (all_locs init)) act d.
Proof.
  induction init as [|sg init IH]; intros rest n i recs act d Hf Hok Hn.
  { cbn. by rewrite Nat.add_0_r. }
  apply Forall_cons in Hf as [(f & Hd & Hdata & _) Hf]. apply Forall_cons in Hok as [Hsg Hok].
  cbn [app fmap list_fmap open_segments]. mstep (fs_read_ok _ _ _ Hd).
  rewrite Hdata, <-(app_nil_r (seg_bytes sg.2)), (scan_seg sg []) by (done || apply torn_nil).
  rewrite app_nil_r. cbn [length] in Hn.
  rewrite bool_decide_false by lia. rewrite bool_decide_false by lia.
  rewrite IH by (done || lia).
  rewrite insert_locs_scan, all_locs_cons, foldl_app. f_equal. cbn. lia.
Qed.

(** The segment names of a represented directory, sorted. *)
Lemma chain_starts_sorted s0 segs :
  chain s0 segs → (∀ init sg, segs = init ++ [sg] → Forall (λ sg, sg.2 ≠ []) init) →
  StronglySorted Z.lt segs.*1 ∧ Forall (λ s, s0 ≤ s) segs.*1.
Proof.
  revert s0. induction segs as [|sg segs IH]; intros s0 Hc Hne; [by repeat constructor|].
  destruct Hc as [<- Hc]. cbn [fmap list_fmap].
  destruct (IH _ Hc) as [Hs Hge].
  { intros init sg' ->. specialize (Hne (sg :: init) sg' eq_refl). by apply Forall_cons in Hne as []. }
  assert (Hlt : Forall (Z.lt sg.1) segs.*1).
  { destruct (decide (segs = [])) as [->|Hsegs]; [constructor|].
    destruct (exists_last Hsegs) as (init & sg' & ->).
    specialize (Hne (sg :: init) sg' eq_refl). apply Forall_cons in Hne as [Hne _].
    apply zlen_pos in Hne. unfold seg_end in Hge.
    eapply Forall_impl; [exact Hge|]. cbn. lia. }
  split; [by constructor|]. constructor; [lia|].
  eapply Forall_impl; [exact Hlt|]. cbn. lia.
Qed.

Lemma disk_rep_starts_sorted d segs tail : disk_rep d segs tail → StronglySorted Z.lt segs.*1.
Proof.
  intros Hd. eapply chain_starts_sorted; [apply Hd|].
  intros init sg E. by apply Hd in E as (_ & ? & _).
Qed.

Lemma disk_rep_file d segs tail sg :
  disk_rep d segs tail → sg ∈ segs → ∃ f, d !! segment_path sg.1 = Some f.
Proof.
  intros Hd Hin. destruct segs as [|lst init _] using rev_ind; [by apply elem_of_nil in Hin|].
  destruct (dr_files _ _ _ Hd _ _ eq_refl) as (Hf & _ & (f & Hl & _)).
  apply elem_of_app in Hin as [Hin| ->%list_elem_of_singleton]; [|eauto].
  rewrite Forall_forall in Hf. destruct (Hf _ Hin) as (f' & ? & _). eauto.
Qed.

Lemma disk_rep_u64 d segs tail s : disk_rep d segs tail → s ∈ segs.*1 → is_u64 s.
Proof.
  intros Hd (sg & -> & Hin)%list_elem_of_fmap. apply seg_ok_u64.
  pose proof (dr_ok _ _ _ Hd) as Hok. rewrite Forall_forall in Hok. by apply Hok.
Qed.

Lemma segment_starts_rep d segs tail :
  disk_rep d segs tail → segment_starts d = (Ok segs.*1, d).
Proof.
  intros Hd. unfold segment_starts, read_dir. mpure.
  unfold mret, M_ret. do 2 f_equal.
  pose proof (disk_rep_starts_sorted _ _ _ Hd) as Hsort.
  assert (Hperm : omap parse_segment_name (map_to_list d).*1 ≡ₚ segs.*1).
  { apply NoDup_Permutation.
    - apply NoDup_omap; [|apply NoDup_fst_map_to_list].
      intros n1 n2 s ([n1' f1] & -> & H1)%list_elem_of_fmap ([n2' f2] & -> & H2)%list_elem_of_fmap E1 E2.
      apply elem_of_map_to_list in H1, H2.
      destruct (dr_only _ _ _ Hd _ _ _ H1 E1) as [_ ->].
      destruct (dr_only _ _ _ Hd _ _ _ H2 E2) as [_ ->]. done.
    - by apply StronglySorted_lt_NoDup.
    - intros s. rewrite list_elem_of_omap. split.
      + intros (n & ([n' f] & -> & Hn)%list_elem_of_fmap & E). apply elem_of_map_to_list in Hn.
        by destruct (dr_only _ _ _ Hd _ _ _ Hn E).
      + intros Hs. pose proof Hs as (sg & -> & Hin)%list_elem_of_fmap.
        destruct (disk_rep_file _ _ _ _ Hd Hin) as [f Hf].
        exists (segment_path sg.1). split.
        * apply list_elem_of_fmap. exists (segment_path sg.1, f).
          by rewrite elem_of_map_to_list.
        * apply parse_segment_path. by eapply disk_rep_u64. }
  by apply merge_sort_unique.
Qed.

(** ** Updating the last segment *)

Lemma sealed_file_insert d sg name f :
  segment_path sg.1 ≠ name → sealed_file d sg → sealed_file (<[name := f]> d) sg.
Proof. intros Hne (g & Hg & ?). exists g. by rewrite lookup_insert_ne. Qed.

Lemma disk_rep_init_neq d init sg tail sg' :
  disk_rep d (init ++ [sg]) tail → sg' ∈ init → segment_path sg'.1 ≠ segment_path sg.1.
Proof.
  intros Hd Hin E.
  pose proof (disk_rep_starts_sorted _ _ _ Hd) as Hs. rewrite fmap_app in Hs.
  assert (sg'.1 < sg.1).
  { eapply StronglySorted_app_1_elem_of; [exact Hs|apply list_elem_of_fmap; eauto|].
    by apply list_elem_of_singleton. }
  apply segment_path_inj in E; [lia|eapply disk_rep_u64; [exact Hd|]..];
    rewrite fmap_app; apply elem_of_app.
  - left. apply list_elem_of_fmap; eauto.
  - right. by apply list_elem_of_singleton.
Qed.

Lemma first_start_snoc init (sg sg' : segment) :
  sg'.1 = sg.1 → first_start (init ++ [sg']) = first_start (init ++ [sg]).
Proof. by destruct init. Qed.

Lemma chain_snoc_update s0 init (sg sg' : segment) :
  sg'.1 = sg.1 → chain s0 (init ++ [sg]) → chain s0 (init ++ [sg']).
Proof. intros E. rewrite !chain_app. cbn. rewrite E. tauto. Qed.

(** Rewriting the file of the last segment represents the log with that segment
    replaced. *)
Lemma disk_rep_update_last d init sg tail sg' tail' f :
  disk_rep d (init ++ [sg]) tail → sg'.1 = sg.1 → seg_ok sg' →
  f_data f = seg_bytes sg'.2 ++ tail' → torn tail' →
  disk_rep (<[segment_path sg.1 := f]> d) (init ++ [sg']) tail'.
Proof.
  intros Hd E Hok Hf Ht. split.
  - rewrite (first_start_snoc _ sg sg') by done. eapply chain_snoc_update; [done|apply Hd].
  - pose proof (dr_ok _ _ _ Hd) as Ho. apply Forall_app in Ho as [Ho _].
    by apply Forall_app_2; [|constructor].
  - intros init' sg'' [<- <-]%app_inj_tail.
    destruct (dr_files _ _ _ Hd _ _ eq_refl) as (Hs & Hne & _).
    split_and!; [|done|exists f; rewrite E, lookup_insert_eq; done].
    rewrite Forall_forall in Hs |- *. intros x Hx.
    apply sealed_file_insert; [|by apply Hs]. by eapply disk_rep_init_neq.
  - done.
  - intros name g s Hn Hp. rewrite fmap_app. cbn. rewrite E.
    change [sg.1] with [sg].*1. rewrite <-fmap_app.
    destruct (decide (name = segment_path sg.1)) as [->|Hne].
    + assert (Hin : sg.1 ∈ (init ++ [sg]).*1).
      { rewrite fmap_app. apply elem_of_app. right. by apply list_elem_of_singleton. }
      rewrite parse_segment_path in Hp by (by eapply disk_rep_u64). by simplify_eq.
    + rewrite lookup_insert_ne in Hn by done. by eapply (dr_only _ _ _ Hd).
Qed.

Lemma disk_rep_nonneg_keys d segs tail :
  disk_rep d segs tail → filter (λ kv, -1 < kv.1) (all_locs segs) = all_locs segs.
Proof.
  intros Hd. apply list_filter_all. intros [k l] Hk.
  assert (k ∈ (all_entries segs).*1) as ([k' p] & E & Hin)%list_elem_of_fmap.
  { rewrite <-keys_all_locs. apply list_elem_of_fmap. by exists (k, l). }
  cbn in E; subst k'. rewrite (chain_all_entries _ _ (dr_chain _ _ _ Hd)) in Hin.
  apply elem_of_entries_from in Hin. cbn.
  pose proof (dr_ok _ _ _ Hd) as Hok. destruct segs as [|sg segs]; cbn in *.
  - unfold zlen in Hin; cbn in Hin; lia.
  - apply Forall_cons in Hok as [[] _]. lia.
Qed.

(** The index built by a scan of every segment. *)
Lemma indexed_records d init sg tail :
  disk_rep d (init ++ [sg]) tail →
  foldl (λ m kv, <[kv.1 := kv.2]> m)
    (foldl (λ m kv, <[kv.1 := kv.2]> m) ∅ (all_locs init)) (locs_from sg.1 sg.1 0 sg.2)
  = list_to_map (filter (λ kv, -1 < kv.1) (all_locs (init ++ [sg]))) :> gmap Z RecordLoc.
Proof.
  intros Hd.
  assert (Hkeys : keys_sorted (all_locs (init ++ [sg]))) by (eapply chain_locs_sorted, Hd).
  rewrite (disk_rep_nonneg_keys _ _ _ Hd), <-foldl_app.
  change (locs_from sg.1 sg.1 0 sg.2) with (seg_locs sg).
  rewrite <-all_locs_one, <-all_locs_app, foldl_insert_list_to_map
    by (by apply StronglySorted_lt_NoDup).
  by rewrite (right_id_L ∅ (∪)).
Qed.

(** A freshly opened log has purged nothing. *)
Lemma fresh_inv d segs l :
  disk_rep d segs [] → starts l = segs.*1 → active l = active_of segs →
  records l = list_to_map (filter (λ kv, -1 < kv.1) (all_locs segs)) →
  log_inv {| slf := l; disk := d |} segs (-1).
Proof.
  intros Hd Hs Ha Hr. pose proof (dr_ok _ _ _ Hd) as Hok. split; try done.
  intros Hne. destruct (exists_last Hne) as (init & sg & ->).
  rewrite next_index_snoc. apply Forall_app in Hok as [_ [[] _]%Forall_cons].
  unfold seg_end. pose proof (zlen_nonneg sg.2). lia.
Qed.

(** Opening a represented directory: the torn tail is cut, everything else is
    indexed. *)
Lemma open_rep d segs tail max :
  disk_rep d segs tail →
  ∃ l d', open_with_segment_max max d = (Ok l, d') ∧ segment_max_bytes l = max
    ∧ log_inv {| slf := l; disk := d' |} segs (-1) ∧ (tail = [] → d' = d)
    ∧ settled d d'.
Proof.
  intros Hd. unfold open_with_segment_max, mapE.
  mstep (segment_starts_rep _ _ _ Hd).
  destruct segs as [|sg init _] using rev_ind.
  { cbn. do 2 eexists. split_and!; [done|done| |done|done].
    apply fresh_inv; try done. destruct Hd as [? ? ? ? Ho]. split; try done; try apply torn_nil.
    by intros [] ? [=]. }
  destruct (dr_files _ _ _ Hd _ _ eq_refl) as (Hs & Hne & (f & Hf & Hdata)).
  pose proof (dr_ok _ _ _ Hd) as Hok. apply Forall_app in Hok as [Hoki [Hoks _]%Forall_cons].
  pose proof (dr_torn _ _ _ Hd) as Ht.
  assert (Hact : active_of (init ++ [sg]) = Some {| a_start := sg.1; a_file := segment_path sg.1;
            a_bytes := blen (seg_bytes sg.2) |}) by (unfold active_of; by rewrite last_snoc).
  rewrite length_fmap, length_app. unfold mbind at 1, M_bind at 1.
  rewrite open_segments_init by (done || cbn; lia).
  cbn [fmap list_fmap open_segments]. mstep (fs_read_ok _ _ _ Hf).
  rewrite Hdata, scan_seg by done. rewrite insert_locs_scan, (indexed_records _ _ _ _ Hd).
  case_bool_decide as Hlt.
  - mstep (open_existing_ok _ _ _ Hf). mstep (set_len_ok _ _ _ Hf).
    mstep (fsync_ok _ _ _ (lookup_insert_eq _ _ _)). cbn.
    do 2 eexists. split_and!; [done|done| |intros ->; rewrite app_nil_r in Hlt; lia|];
      [|rewrite insert_insert_eq; by apply settled_insert].
    rewrite take_ge by (rewrite length_fmap, length_app; cbn; lia).
    rewrite insert_insert_eq. apply fresh_inv; try done.
    eapply disk_rep_update_last; [exact Hd|done|done| |apply torn_nil].
    cbn. rewrite Hdata, app_nil_r. unfold blen. rewrite Nat2Z.id. by rewrite take_app_length.
  - assert (tail = []) as ->.
    { rewrite blen_app in Hlt. destruct tail; [done|]. unfold blen in Hlt; cbn in Hlt; lia. }
    rewrite bool_decide_true by (cbn; lia). mstep (open_existing_ok _ _ _ Hf). cbn.
    rewrite app_nil_r. do 2 eexists. split_and!; [done|done| |done|done].
    by apply fresh_inv.
Qed.
End LogInv.
