(* ===== verification/LogOps.v ===== *)
(** * The segmented log: every operation preserves the invariant

    For each method of [log.rs]: it returns [Ok], the state it leaves satisfies
    [log_inv] again, and the records it serves are those of the abstract log. *)

From S2P Require Import Prelude Bytes CoreError FileSys SegmentedLog LogScan LogInv.

Open Scope Z_scope.

Lemma io_ok {A} (m : IO A) st a d' :
  m (disk st) = (Ok a, d') → io m st = (Ok a, {| slf := slf st; disk := d' |}).
Proof. intros E. unfold io, mapE, zoom. by rewrite E. Qed.

Lemma get_self_ok st : get_self st = (Ok (slf st), st).
Proof. done. Qed.

Lemma on_self_ok f st : on_self f st = (Ok tt, {| slf := f (slf st); disk := disk st |}).
Proof. done. Qed.

Section LogOps.
Context `{Crc32c}.

(** ** Reading *)

Definition readable (d : dir) (loc : RecordLoc) (p : list byte) : Prop :=
  ∃ f, d !! segment_path (segment_start loc) = Some f
       ∧ payload_offset loc + loc_len loc ≤ blen (f_data f)
       ∧ slice (f_data f) (payload_offset loc) (loc_len loc) = p.

Definition reads (d : dir) (kl : Z * RecordLoc) (kp : Z * list byte) : Prop :=
  kl.1 = kp.1 ∧ readable d kl.2 kp.2.

Lemma read_locs_ok d locs es : Forall2 (reads d) locs es →
  ∀ handles out, read_locs handles locs out d = (Ok (out ++ es), d).
Proof.
  induction 1 as [|[k loc] [k' p] locs es [Hk (f & Hf & Hb & Hs)] _ IH]; intros handles out;
    cbn [read_locs]; [by rewrite app_nil_r|].
  cbn in Hk, Hf, Hb, Hs; subst k' p.
  erewrite M_bind_Ok; [|case_decide; [reflexivity|by apply (open_existing_ok _ _ _ Hf)]].
  mstep (read_exact_at_ok _ _ _ Hf _ _ Hb). rewrite IH, <-app_assoc. done.
Qed.

Lemma read_locs_start d locs es :
  Forall2 (reads d) locs es → read_locs ∅ locs [] d = (Ok es, d).
Proof. intros Hr. by apply (read_locs_ok d locs es Hr ∅ []). Qed.

Lemma reads_from d s f ps : ∀ pre tail i,
  d !! segment_path s = Some f → f_data f = pre ++ seg_bytes ps ++ tail →
  Forall2 (reads d) (locs_from s i (blen pre) ps) (entries_from i ps).
Proof.
  induction ps as [|p ps IH]; intros pre tail i Hf Hd; cbn; constructor.
  - split; [done|]. exists f. cbn. split; [done|].
    rewrite seg_bytes_cons in Hd. unfold frame in Hd.
    assert (Hd' : f_data f = (pre ++ to_le_bytes (blen p) ++ to_le_bytes (crc32c p))
                             ++ p ++ seg_bytes ps ++ tail) by (by rewrite Hd, <-!app_assoc).
    rewrite Hd'. split.
    + rewrite !blen_app, !blen_to_le_bytes. unfold HEADER_BYTES.
      pose proof (blen_nonneg (seg_bytes ps)). pose proof (blen_nonneg tail). lia.
    + apply slice_app_at; [|done]. by rewrite !blen_app, !blen_to_le_bytes.
  - replace (blen pre + HEADER_BYTES + blen p) with (blen (pre ++ frame p))
      by (rewrite blen_app, blen_frame; lia).
    eapply (IH (pre ++ frame p) tail); [done|]. rewrite Hd, seg_bytes_cons. by rewrite <-!app_assoc.
Qed.

Lemma reads_all d segs tail : disk_rep d segs tail → Forall2 (reads d) (all_locs segs) (all_entries segs).
Proof.
  intros Hd. destruct segs as [|sg init _] using rev_ind; [constructor|].
  destruct (dr_files _ _ _ Hd _ _ eq_refl) as (Hs & _ & (f & Hf & Hdata)).
  rewrite all_locs_app, all_entries_app, all_locs_one, all_entries_one.
  apply Forall2_app; [|by apply (reads_from d _ f _ [] tail)].
  clear Hd Hf Hdata. induction Hs as [|x init (g & Hg & Hx & _) _ IH]; [constructor|].
  rewrite all_locs_cons, all_entries_cons. apply Forall2_app; [|done].
  apply (reads_from d _ g _ [] []); [done|]. by rewrite app_nil_r.
Qed.

Lemma Forall2_filter_reads (P : Z * RecordLoc → Prop) `{!∀ x, Decision (P x)}
    (Q : Z * list byte → Prop) `{!∀ x, Decision (Q x)} d locs es :
  (∀ k l p, P (k, l) ↔ Q (k, p)) →
  Forall2 (reads d) locs es → Forall2 (reads d) (filter P locs) (filter Q es).
Proof.
  intros HPQ. induction 1 as [|[k loc] [k' p] locs es [Hk Hr] _ IH]; [constructor|].
  cbn in Hk; subst k'. rewrite !filter_cons. specialize (HPQ k loc p).
  repeat case_decide; [by constructor|tauto|tauto|done].
Qed.

Lemma log_inv_sorted st segs floor :
  log_inv st segs floor → keys_sorted (filter (λ kv, floor < kv.1) (all_locs segs)).
Proof. intros Hi. apply keys_sorted_filter. eapply chain_locs_sorted, (li_disk _ _ _ Hi). Qed.

Lemma read_all_inv st segs floor :
  log_inv st segs floor → read_all st = (Ok (visible floor segs), st).
Proof.
  intros Hi. unfold read_all. mstep get_self_ok.
  rewrite (li_records _ _ _ Hi), btree_iter_sorted_list by (by eapply log_inv_sorted).
  destruct st as [l d]. apply io_ok. apply read_locs_start.
  apply Forall2_filter_reads; [done|]. eapply reads_all, (li_disk _ _ _ Hi).
Qed.

Lemma read_range_inv st segs floor from to :
  log_inv st segs floor → from ≤ to →
  read_range from to st = (Ok (filter (λ kv, from ≤ kv.1 < to) (visible floor segs)), st).
Proof.
  intros Hi Hle. unfold read_range. mstep get_self_ok. rewrite decide_False by lia.
  rewrite (li_records _ _ _ Hi), btree_iter_sorted_list by (by eapply log_inv_sorted).
  destruct st as [l d]. apply io_ok. apply read_locs_start.
  apply Forall2_filter_reads; [done|]. apply Forall2_filter_reads; [done|].
  eapply reads_all, (li_disk _ _ _ Hi).
Qed.

Lemma filter_keys_eq {A B} (P : Z * A → Prop) `{!∀ x, Decision (P x)}
    (Q : Z * B → Prop) `{!∀ x, Decision (Q x)} (l : list (Z * A)) (k : list (Z * B)) :
  (∀ i a b, P (i, a) ↔ Q (i, b)) → l.*1 = k.*1 → (filter P l).*1 = (filter Q k).*1.
Proof.
  intros HPQ. revert k.
  induction l as [|[i a] l IH]; intros [|[j b] k] E; cbn in E; simplify_eq; [done|].
  rewrite !filter_cons. specialize (HPQ j a b).
  repeat case_decide; cbn; try tauto; [f_equal|]; by apply IH.
Qed.

Lemma last_index_inv st segs floor :
  log_inv st segs floor → last_index (slf st) = fst <$> last (visible floor segs).
Proof.
  intros Hi. unfold last_index. rewrite (li_records _ _ _ Hi), last_key_sorted_list
    by (by eapply log_inv_sorted).
  rewrite <-!fmap_last. f_equal. unfold visible.
  apply filter_keys_eq; [done|]. apply keys_all_locs.
Qed.

(** ** Rotation *)

Lemma path_fresh d segs tail s :
  disk_rep d segs tail → is_u64 s → s ∉ segs.*1 → d !! segment_path s = None.
Proof.
  intros Hd Hs Hn. destruct (d !! segment_path s) as [f|] eqn:E; [|done].
  destruct (dr_only _ _ _ Hd _ _ _ E (parse_segment_path _ Hs)) as [Hin _]. done.
Qed.

Lemma next_index_fresh d segs tail :
  disk_rep d segs tail → (∀ sg, last segs = Some sg → sg.2 ≠ []) → segs ≠ [] →
  Forall (λ s, s < next_index segs) segs.*1.
Proof.
  intros Hd Hne Hsegs. destruct (exists_last Hsegs) as (init & sg & ->).
  rewrite next_index_snoc. specialize (Hne sg (last_snoc _ _)).
  assert (sg.1 < seg_end sg) by (unfold seg_end; apply zlen_pos in Hne; lia).
  pose proof (disk_rep_starts_sorted _ _ _ Hd) as Hs. rewrite fmap_app in *. cbn in *.
  apply Forall_app. split; [|by repeat constructor].
  apply Forall_forall. intros x Hx.
  enough (x < sg.1) by lia. eapply StronglySorted_app_1_elem_of; [exact Hs|done|].
  by apply list_elem_of_singleton.
Qed.

(** A new, empty segment at the end of a fully synced log. *)
Lemma disk_rep_push d segs s :
  disk_rep d segs [] → Forall (sealed_file d) segs → Forall (λ sg, sg.2 ≠ []) segs →
  is_u64 s → (segs ≠ [] → s = next_index segs) →
  disk_rep (<[segment_path s := File [] 0]> d) (segs ++ [(s, [])]) [].
Proof.
  intros Hd Hsealed Hne Hs Hnext.
  assert (Hlt : Forall (λ s', s' < s) segs.*1).
  { destruct (decide (segs = [])) as [->|Hsegs]; [constructor|]. rewrite (Hnext Hsegs).
    eapply next_index_fresh; [done| |done]. intros sg Hsg.
    rewrite Forall_forall in Hne. apply Hne. by apply last_Some_elem_of. }
  split.
  - destruct (decide (segs = [])) as [->|Hsegs]; [done|].
    replace (first_start (segs ++ [(s, [])])) with (first_start segs) by (by destruct segs).
    apply chain_app. split; [apply Hd|]. cbn. split; [|done].
    rewrite (Hnext Hsegs). unfold next_index. destruct (exists_last Hsegs) as (i & l & ->).
    by rewrite last_snoc.
  - apply Forall_app. split; [apply Hd|]. repeat constructor; cbn; try apply Hs.
    unfold seg_end, zlen; cbn. destruct Hs. lia.
  - intros init sg [<- <-]%app_inj_tail. split_and!; [|done|].
    + rewrite Forall_forall in Hsealed. rewrite Forall_forall in Hlt. apply Forall_forall. intros x Hx.
      apply sealed_file_insert; [|by apply Hsealed]. cbn. intros E.
      assert (Hin : x.1 ∈ segs.*1) by (apply list_elem_of_fmap; eauto).
      apply segment_path_inj in E; [|by eapply disk_rep_u64|done].
      specialize (Hlt _ Hin). lia.
    + eexists. by rewrite lookup_insert_eq.
  - apply torn_nil.
  - intros name f s' Hn Hp. rewrite fmap_app, elem_of_app. cbn.
    destruct (decide (name = segment_path s)) as [->|Hneq].
    + rewrite parse_segment_path in Hp by done. simplify_eq.
      split; [right; by apply list_elem_of_singleton|done].
    + rewrite lookup_insert_ne in Hn by done.
      destruct (dr_only _ _ _ Hd _ _ _ Hn Hp). auto.
Qed.

Lemma all_locs_snoc_nil segs s : all_locs (segs ++ [(s, [])]) = all_locs segs.
Proof. rewrite all_locs_app. apply app_nil_r. Qed.

Lemma log_inv_disk l d d' segs floor :
  log_inv {| slf := l; disk := d |} segs floor → disk_rep d' segs [] →
  log_inv {| slf := l; disk := d' |} segs floor.
Proof. intros [] Hd'. by split. Qed.

(** Syncing the active segment seals every segment. *)
Lemma sync_inv st segs floor :
  log_inv st segs floor →
  ∃ st', sync st = (Ok tt, st') ∧ slf st' = slf st ∧ log_inv st' segs floor
    ∧ Forall (sealed_file (disk st')) segs.
Proof.
  intros Hi. destruct st as [l d]. pose proof (li_disk _ _ _ Hi) as Hd. cbn in Hd.
  unfold sync. mstep get_self_ok. rewrite (li_active _ _ _ Hi). unfold active_of.
  destruct segs as [|sg init _] using rev_ind; [by eexists|].
  rewrite last_snoc. cbn [fmap option_fmap option_map a_file].
  destruct (dr_files _ _ _ Hd _ _ eq_refl) as (Hsl & Hn & (f & Hf & Hdt)).
  rewrite app_nil_r in Hdt.
  assert (Hd' : disk_rep (<[segment_path sg.1 := File (f_data f) (length (f_data f))]> d)
                  (init ++ [sg]) []).
  { eapply disk_rep_update_last; [exact Hd|done| |by rewrite Hdt, app_nil_r|apply torn_nil].
    pose proof (dr_ok _ _ _ Hd) as Hok. by apply Forall_app in Hok as [_ [? _]%Forall_cons]. }
  eexists. split_and!; [apply io_ok, (fsync_ok _ _ _ Hf)|done|by eapply log_inv_disk|].
  destruct (dr_files _ _ _ Hd' _ _ eq_refl) as (Hsl' & _ & _).
  apply Forall_app. split; [done|]. constructor; [|done].
  eexists. cbn [disk]. by rewrite lookup_insert_eq.
Qed.

(** [rotate] at the next index opens a fresh empty segment. *)
Lemma rotate_inv st segs floor s :
  log_inv st segs floor → is_u64 s → (segs ≠ [] → s = next_index segs) →
  Forall (λ sg, sg.2 ≠ []) segs → (segs = [] → floor < s) →
  ∃ st', rotate s st = (Ok tt, st') ∧ log_inv st' (segs ++ [(s, [])]) floor
    ∧ segment_max_bytes (slf st') = segment_max_bytes (slf st).
Proof.
  intros Hi0 Hs Hnext Hne Hfl.
  destruct (sync_inv _ _ _ Hi0) as ([l d] & Esync & El & Hi & Hsealed). cbn in El, Hsealed.
  pose proof (li_disk _ _ _ Hi) as Hd. cbn in Hd.
  assert (Hnin : s ∉ segs.*1).
  { destruct (decide (segs = [])) as [->|Hsegs]; [by intros ?%elem_of_nil|].
    assert (Hlt : Forall (λ s, s < next_index segs) segs.*1).
    { eapply next_index_fresh; [done| |done]. intros sg Hsg. rewrite Forall_forall in Hne.
      apply Hne. by apply last_Some_elem_of. }
    rewrite Forall_forall in Hlt. intros Hin%Hlt. rewrite (Hnext Hsegs) in Hin. lia. }
  unfold rotate. unfold sync in Esync. rewrite (M_bind_Ok _ _ _ _ _ (get_self_ok st)) in Esync.
  mstep get_self_ok. erewrite M_bind_Ok; [|exact Esync]. cbv beta.
  mstep io_ok; [|apply open_create_append_new; by eapply path_fresh].
  mstep on_self_ok. mstep get_self_ok. cbn [slf disk set_active starts].
  pose proof (li_starts _ _ _ Hi) as Hst. cbn in Hst. rewrite Hst.
  rewrite decide_False by done. eexists. split_and!; [apply on_self_ok| |by rewrite <-El].
  pose proof (disk_rep_push _ _ _ Hd Hsealed Hne Hs Hnext) as Hd2.
  split; cbn; try done.
  - apply merge_sort_unique; [|by rewrite fmap_app].
    by eapply disk_rep_starts_sorted.
  - by unfold active_of; rewrite last_snoc.
  - rewrite all_locs_snoc_nil. apply (li_records _ _ _ Hi).
  - intros _. rewrite next_index_snoc. unfold seg_end, zlen. cbn.
    destruct (decide (segs = [])) as [->|Hsegs]; [specialize (Hfl eq_refl); lia|].
    pose proof (li_floor _ _ _ Hi Hsegs). rewrite (Hnext Hsegs). lia.
Qed.

(** ** Appending *)

(** The bytes of the last segment, and the room a new record needs. *)
Definition active_bytes (segs : list segment) : Z :=
  match last segs with
  | Some sg => blen (seg_bytes sg.2)
  | None => 0
  end.

(** What [append] does to the segments: start a new one when the last is full,
    extend the last otherwise. *)
Definition push_record (max index : Z) (p : list byte) (segs : list segment) : list segment :=
  match last segs with
  | None => [(index, [p])]
  | Some sg =>
      if decide (max ≤ blen (seg_bytes sg.2) ∧ sg.2 ≠ []) then segs ++ [(index, [p])]
      else removelast segs ++ [(sg.1, sg.2 ++ [p])]
  end.

Lemma all_locs_push init sg p :
  all_locs (init ++ [(sg.1, sg.2 ++ [p])]) =
    all_locs (init ++ [sg]) ++
    [(seg_end sg, {| segment_start := sg.1; payload_offset := blen (seg_bytes sg.2) + HEADER_BYTES;
                     loc_len := blen p |})].
Proof.
  rewrite !all_locs_app, !all_locs_one, <-app_assoc. f_equal. unfold seg_locs. cbn [fst snd].
  by rewrite (locs_from_app sg.1).
Qed.

Lemma all_entries_push init sg p :
  all_entries (init ++ [(sg.1, sg.2 ++ [p])]) = all_entries (init ++ [sg]) ++ [(seg_end sg, p)].
Proof.
  rewrite !all_entries_app, !all_entries_one, <-app_assoc. f_equal. unfold seg_entries. cbn [fst snd].
  by rewrite entries_from_app.
Qed.

Lemma filter_push {A} floor (l : list (Z * A)) k v :
  keys_sorted (l ++ [(k, v)]) → floor < k →
  list_to_map (filter (λ kv, floor < kv.1) (l ++ [(k, v)]))
  = <[k := v]> (list_to_map (filter (λ kv, floor < kv.1) l) : gmap Z A).
Proof.
  intros Hs Hk. rewrite filter_app, filter_cons_True, filter_nil by done.
  apply list_to_map_snoc. rewrite fmap_app in Hs.
  intros ([k' w] & E & [_ Hin]%list_elem_of_filter)%list_elem_of_fmap. cbn in E; subst k'.
  assert (k < k); [|lia]. eapply StronglySorted_app_1_elem_of; [exact Hs| |].
  - apply list_elem_of_fmap. by exists (k, w).
  - by apply list_elem_of_singleton.
Qed.

(** Writing a frame at the end of the active segment. *)
Lemma append_frame_inv st init sg floor p :
  log_inv st (init ++ [sg]) floor → blen p < two32 → seg_end sg + 1 < two64 →
  blen (seg_bytes sg.2) + HEADER_BYTES + blen p < two64 →
  ∃ st', append_frame (seg_end sg) p st = (Ok tt, st')
    ∧ log_inv st' (init ++ [(sg.1, sg.2 ++ [p])]) floor
    ∧ segment_max_bytes (slf st') = segment_max_bytes (slf st).
Proof.
  intros Hi Hp Hend Hroom. destruct st as [l d].
  pose proof (li_disk _ _ _ Hi) as Hd. cbn in Hd.
  pose proof (li_active _ _ _ Hi) as Ha. cbn in Ha. unfold active_of in Ha. rewrite last_snoc in Ha.
  pose proof (li_records _ _ _ Hi) as Hr. cbn in Hr.
  pose proof (li_starts _ _ _ Hi) as Hst. cbn in Hst.
  destruct (dr_files _ _ _ Hd _ _ eq_refl) as (_ & _ & (f & Hf & Hdt)). rewrite app_nil_r in Hdt.
  assert (Hok : seg_ok sg).
  { pose proof (dr_ok _ _ _ Hd) as Hok. by apply Forall_app in Hok as [_ [? _]%Forall_cons]. }
  pose proof (blen_nonneg (seg_bytes sg.2)). pose proof (blen_nonneg p).
  assert (Hend' : seg_end (sg.1, sg.2 ++ [p]) = seg_end sg + 1)
    by (unfold seg_end; cbn; rewrite zlen_app; unfold zlen at 2; cbn; lia).
  assert (Hd' : disk_rep (<[segment_path sg.1 := File (f_data f ++ frame p) (f_synced f)]> d)
                  (init ++ [(sg.1, sg.2 ++ [p])]) []).
  { eapply disk_rep_update_last; [exact Hd|done| | |apply torn_nil].
    - destruct Hok. split; cbn [fst snd]; [done|lia|by apply Forall_app; repeat constructor|].
      rewrite seg_bytes_snoc, blen_app, blen_frame. unfold HEADER_BYTES in *. lia.
    - cbn. by rewrite seg_bytes_snoc, Hdt, app_nil_r. }
  unfold append_frame. mstep get_self_ok. cbn [slf]. rewrite Ha. mpure.
  mstep io_ok; [|apply (write_all_ok _ _ _ Hf)].
  mstep on_self_ok. eexists. split_and!; [apply on_self_ok| |done].
  pose proof (li_floor _ _ _ Hi ltac:(by destruct init)) as Hfl. rewrite next_index_snoc in Hfl.
  split; cbn; try done.
  - rewrite Hst. by rewrite !fmap_app.
  - unfold active_of. rewrite last_snoc. cbn. do 2 f_equal.
    rewrite seg_bytes_snoc, blen_app, blen_frame. apply wrap64_small.
    unfold HEADER_BYTES in *. split; lia.
  - rewrite Hr, wrap64_small by (unfold HEADER_BYTES in *; split; lia).
    pose proof (chain_locs_sorted _ _ (dr_chain _ _ _ Hd')) as Hs.
    rewrite all_locs_push in Hs |- *. by rewrite filter_push.
  - intros _. rewrite next_index_snoc, Hend'. lia.
Qed.

(** Rotating onto an empty active segment reuses it. *)
Lemma rotate_same_inv st init s floor :
  log_inv st (init ++ [(s, [])]) floor →
  ∃ st', rotate s st = (Ok tt, st') ∧ log_inv st' (init ++ [(s, [])]) floor
    ∧ segment_max_bytes (slf st') = segment_max_bytes (slf st).
Proof.
  intros Hi0.
  destruct (sync_inv _ _ _ Hi0) as ([l d] & Esync & El & Hi & Hsealed). cbn in El, Hsealed.
  pose proof (li_disk _ _ _ Hi) as Hd. cbn in Hd.
  destruct (dr_files _ _ _ Hd _ _ eq_refl) as (_ & _ & (f & Hf & _)). cbn in Hf.
  unfold rotate. unfold sync in Esync. rewrite (M_bind_Ok _ _ _ _ _ (get_self_ok st)) in Esync.
  mstep get_self_ok. erewrite M_bind_Ok; [|exact Esync]. cbv beta.
  mstep io_ok; [|apply (open_create_append_ok _ _ _ Hf)].
  mstep on_self_ok. mstep get_self_ok. cbn [slf disk set_active starts].
  pose proof (li_starts _ _ _ Hi) as Hst. cbn in Hst. rewrite Hst.
  rewrite decide_True by (rewrite fmap_app; apply elem_of_app; right; by apply list_elem_of_singleton).
  eexists. split_and!; [done| |by rewrite <-El]. destruct Hi. split; cbn; try done.
  unfold active_of. by rewrite last_snoc.
Qed.

(** The first frame of an empty segment. *)
Lemma append_frame_first st init s floor p :
  log_inv st (init ++ [(s, [])]) floor → blen p < two32 → s + 1 < two64 →
  ∃ st', append_frame s p st = (Ok tt, st') ∧ log_inv st' (init ++ [(s, [p])]) floor
    ∧ segment_max_bytes (slf st') = segment_max_bytes (slf st).
Proof.
  intros Hi Hp Hs. assert (E : seg_end (s, []) = s) by (unfold seg_end, zlen; cbn; lia).
  pose proof (append_frame_inv st init (s, []) floor p) as Ha. rewrite E in Ha.
  apply Ha; [done..|].
  change (blen (seg_bytes (s, []).2)) with 0. unfold HEADER_BYTES, two32, two64 in *. lia.
Qed.

Lemma append_inv st segs floor index p :
  log_inv st segs floor →
  (segs ≠ [] → index = next_index segs) → (segs = [] → floor < index) →
  0 ≤ index → index + 1 < two64 → blen p < two32 →
  active_bytes segs + HEADER_BYTES + blen p < two64 →
  ∃ st', append index p st = (Ok tt, st')
    ∧ log_inv st' (push_record (segment_max_bytes (slf st)) index p segs) floor
    ∧ segment_max_bytes (slf st') = segment_max_bytes (slf st).
Proof.
  intros Hi Hnext Hfl H0 Hmax Hp Hroom.
  assert (Hu : is_u64 index) by (split; lia).
  unfold append. rewrite decide_True by done. mpure. mstep get_self_ok.
  unfold needs_rotation. rewrite (li_active _ _ _ Hi). unfold active_of.
  unfold push_record, active_bytes in *.
  destruct segs as [|sg init _] using rev_ind.
  - cbn [last fmap option_fmap option_map].
    destruct (rotate_inv _ _ _ index Hi Hu) as (st1 & E1 & Hi1 & Hm1); try done.
    erewrite M_bind_Ok by exact E1. cbv beta.
    destruct (append_frame_first st1 [] index floor p Hi1) as (st2 & E2 & Hi2 & Hm2); [done..|].
    exists st2. by rewrite E2, Hm2, Hm1.
  - rewrite last_snoc in *. cbn [fmap option_fmap option_map a_bytes].
    rewrite (Hnext ltac:(by destruct init)) in *. rewrite next_index_snoc in *.
    assert (Hinit : Forall (λ sg, sg.2 ≠ []) init)
      by (by destruct (dr_files _ _ _ (li_disk _ _ _ Hi) _ _ eq_refl) as (_ & ? & _)).
    case_bool_decide as Hfull; [destruct (decide (sg.2 = [])) as [Hnil|Hne]|].
    + rewrite decide_False by tauto. rewrite removelast_last.
      destruct sg as [s ps]; cbn in Hnil; subst ps.
      replace (seg_end (s, [])) with s in * by (unfold seg_end, zlen; cbn; lia).
      destruct (rotate_same_inv _ _ _ _ Hi) as (st1 & E1 & Hi1 & Hm1).
      erewrite M_bind_Ok by exact E1. cbv beta.
      destruct (append_frame_first st1 init s floor p Hi1) as (st2 & E2 & Hi2 & Hm2); [done..|].
      exists st2. by rewrite E2, Hm2, Hm1.
    + rewrite decide_True by done.
      destruct (rotate_inv _ _ _ (seg_end sg) Hi Hu) as (st1 & E1 & Hi1 & Hm1);
        [by rewrite next_index_snoc|by apply Forall_app; repeat constructor|by destruct init|].
      erewrite M_bind_Ok by exact E1. cbv beta.
      destruct (append_frame_first st1 (init ++ [sg]) (seg_end sg) floor p Hi1)
        as (st2 & E2 & Hi2 & Hm2); [done..|].
      exists st2. by rewrite E2, Hm2, Hm1.
    + rewrite decide_False by tauto. rewrite removelast_last. mpure.
      destruct (append_frame_inv st init sg floor p Hi) as (st2 & E2 & Hi2 & Hm2); [done..|].
      exists st2. by rewrite E2, Hm2.
Qed.

(** The records after an append are the old ones and the new one. *)
Lemma push_record_entries max index p segs :
  (segs ≠ [] → index = next_index segs) →
  all_entries (push_record max index p segs) = all_entries segs ++ [(index, p)].
Proof.
  intros Hnext. unfold push_record. destruct segs as [|sg init _] using rev_ind; [done|].
  rewrite last_snoc, (Hnext ltac:(by destruct init)), next_index_snoc.
  case_decide; [by rewrite all_entries_app|]. rewrite removelast_last. apply all_entries_push.
Qed.

Lemma push_record_next max index p segs :
  (segs ≠ [] → index = next_index segs) → next_index (push_record max index p segs) = index + 1.
Proof.
  intros Hnext. unfold push_record. destruct segs as [|sg init _] using rev_ind; [done|].
  rewrite last_snoc, (Hnext ltac:(by destruct init)), next_index_snoc.
  case_decide; rewrite next_index_snoc; unfold seg_end; cbn; rewrite ?zlen_app;
    unfold zlen; cbn; lia.
Qed.

Lemma push_record_nonempty max index p segs : push_record max index p segs ≠ [].
Proof. unfold push_record. destruct (last segs); [case_decide|done]; by destruct segs; try destruct (removelast _). Qed.

Lemma push_record_visible max index p segs floor :
  (segs ≠ [] → index = next_index segs) → floor < index →
  visible floor (push_record max index p segs) = visible floor segs ++ [(index, p)].
Proof.
  intros Hnext Hf. unfold visible. rewrite push_record_entries by done.
  by rewrite filter_app, filter_cons_True.
Qed.
End LogOps.
