(* ===== verification/LogTrunc.v ===== *)
(** * The segmented log: truncation and purge

    [truncate_from] drops a suffix of the records, [purge_through] a prefix; both
    delete the segments that become empty of live records and keep the
    invariant. *)

From S2P Require Import Prelude Bytes CoreError FileSys SegmentedLog LogScan LogInv LogOps.

Open Scope Z_scope.

(** ** Deleting segment files *)

Definition delete_paths (d : dir) (ss : list Z) : dir :=
  foldl (λ d s, delete (segment_path s) d) d ss.

Lemma delete_paths_lookup d ss name :
  delete_paths d ss !! name = if decide (name ∈ segment_path <$> ss) then None else d !! name.
Proof.
  unfold delete_paths. revert d. induction ss as [|s ss IH]; intros d; cbn [foldl fmap list_fmap].
  - by case_decide as E; [apply elem_of_nil in E|].
  - rewrite IH. destruct (decide (name = segment_path s)) as [->|Hne].
    + rewrite lookup_delete_eq. by repeat case_decide; set_solver.
    + rewrite lookup_delete_ne by done. by repeat case_decide; set_solver.
Qed.

Lemma delete_paths_insert d ss name f :
  name ∉ segment_path <$> ss → delete_paths (<[name := f]> d) ss = <[name := f]> (delete_paths d ss).
Proof.
  intros Hn. apply map_eq. intros n. rewrite delete_paths_lookup.
  destruct (decide (n = name)) as [->|Hne].
  - by rewrite decide_False, !lookup_insert_eq.
  - by rewrite !lookup_insert_ne, delete_paths_lookup by done.
Qed.

(** The loop that removes a list of existing segments. *)
Lemma remove_loop_ok ss : ∀ l d,
  NoDup (segment_path <$> ss) → Forall (λ s, is_Some (d !! segment_path s)) ss →
  for_each ss (λ s, io (remove_file (segment_path s))) {| slf := l; disk := d |}
  = (Ok tt, {| slf := l; disk := delete_paths d ss |}).
Proof.
  induction ss as [|s ss IH]; intros l d; [done|].
  cbn [fmap list_fmap]. intros [Hn Hnd]%NoDup_cons [[f Hf] Hss]%Forall_cons.
  cbn [for_each]. mstep io_ok; [|apply (remove_file_ok _ _ _ Hf)].
  apply IH; [done|]. rewrite Forall_forall in Hss |- *. intros s' Hs'. cbn.
  rewrite lookup_delete_ne; [by apply Hss|]. intros E. apply Hn. rewrite E.
  by apply list_elem_of_fmap_2.
Qed.

Section LogTrunc.
Context `{Crc32c}.

Lemma disk_rep_paths_NoDup d segs tail : disk_rep d segs tail → NoDup (segment_path <$> segs.*1).
Proof.
  intros Hd. apply NoDup_fmap_2_strong.
  - intros s t Hs Ht. apply segment_path_inj; by eapply disk_rep_u64.
  - eapply StronglySorted_lt_NoDup, disk_rep_starts_sorted, Hd.
Qed.

Lemma disk_rep_path_notin d a b tail sg :
  disk_rep d (a ++ b) tail → sg ∈ a → segment_path sg.1 ∉ segment_path <$> b.*1.
Proof.
  intros Hd Hin Hb. pose proof (disk_rep_paths_NoDup _ _ _ Hd) as Hnd.
  rewrite !fmap_app in Hnd. apply NoDup_app in Hnd as (_ & Hnd & _).
  eapply Hnd; [|exact Hb]. by apply list_elem_of_fmap_2, list_elem_of_fmap_2.
Qed.

Lemma sealed_file_delete d ss sg :
  segment_path sg.1 ∉ segment_path <$> ss → sealed_file d sg → sealed_file (delete_paths d ss) sg.
Proof. intros Hn (f & Hf & ?). exists f. by rewrite delete_paths_lookup, decide_False. Qed.

Lemma disk_rep_only_delete d segs tail ss (keep : list Z) :
  disk_rep d segs tail → (∀ s, s ∈ segs.*1 → s ∉ ss → s ∈ keep) →
  ∀ name f s, delete_paths d ss !! name = Some f → parse_segment_name name = Some s →
    s ∈ keep ∧ name = segment_path s.
Proof.
  intros Hd Hk name f s Hn Hp. rewrite delete_paths_lookup in Hn. case_decide as Hin; [done|].
  destruct (dr_only _ _ _ Hd _ _ _ Hn Hp) as [Hs ->]. split; [|done].
  apply Hk; [done|]. intros Hss. by apply Hin, list_elem_of_fmap_2.
Qed.

(** A sealed or clean file has no tail. *)
Lemma disk_rep_clean_file d segs sg :
  disk_rep d segs [] → sg ∈ segs → tail_file d sg [].
Proof.
  intros Hd Hin. destruct segs as [|lst init _] using rev_ind; [by apply elem_of_nil in Hin|].
  destruct (dr_files _ _ _ Hd _ _ eq_refl) as (Hf & _ & Hl).
  apply elem_of_app in Hin as [Hin| ->%list_elem_of_singleton]; [|done].
  rewrite Forall_forall in Hf. destruct (Hf _ Hin) as (f & ? & E & _).
  exists f. by rewrite app_nil_r.
Qed.

Lemma chain_prefix s0 a b : chain s0 (a ++ b) → chain s0 a.
Proof. rewrite chain_app. tauto. Qed.

Lemma first_start_app a b : a ≠ [] → first_start (a ++ b) = first_start a.
Proof. by destruct a. Qed.

(** Deleting the files of a suffix of the segments. *)
Lemma disk_rep_drop_suffix d a b :
  disk_rep d (a ++ b) [] → disk_rep (delete_paths d b.*1) a [].
Proof.
  intros Hd. split.
  - destruct (decide (a = [])) as [->|Ha]; [done|].
    rewrite <-(first_start_app a b) by done. eapply chain_prefix, Hd.
  - by pose proof (dr_ok _ _ _ Hd) as [? _]%Forall_app.
  - intros init sg ->.
    assert (Hfile : ∀ x, x ∈ init ++ [sg] → tail_file (delete_paths d b.*1) x []).
    { intros x Hx. destruct (disk_rep_clean_file d _ x Hd) as (f & Hf & E); [set_solver|].
      exists f. rewrite delete_paths_lookup, decide_False; [done|]. by eapply disk_rep_path_notin. }
    assert (∃ init' sg', (init ++ [sg]) ++ b = init' ++ [sg'] ∧ ∀ x, x ∈ init → x ∈ init')
      as (init' & sg' & E & Hsub).
    { destruct b as [|lst b _] using rev_ind; [exists init, sg; by rewrite app_nil_r|].
      exists ((init ++ [sg]) ++ b), lst. rewrite <-!app_assoc. split; [done|set_solver]. }
    destruct (dr_files _ _ _ Hd _ _ E) as (Hs & Hne & _).
    rewrite Forall_forall in Hs. rewrite Forall_forall in Hne.
    split_and!; [| |apply Hfile; set_solver].
    + apply Forall_forall. intros x Hx.
      apply sealed_file_delete; [|by apply Hs, Hsub]. eapply disk_rep_path_notin; [exact Hd|set_solver].
    + apply Forall_forall. auto.
  - apply torn_nil.
  - eapply disk_rep_only_delete; [exact Hd|]. intros s. rewrite fmap_app. set_solver.
Qed.

(** Deleting the files of a prefix, as long as something is left. *)
Lemma disk_rep_drop_prefix d a b :
  disk_rep d (a ++ b) [] → b ≠ [] → disk_rep (delete_paths d a.*1) b [].
Proof.
  intros Hd Hb.
  assert (Hnot : ∀ sg, sg ∈ b → segment_path sg.1 ∉ segment_path <$> a.*1).
  { intros sg Hin Ha. apply list_elem_of_fmap in Ha as (s & E & (sg' & -> & Hin')%list_elem_of_fmap).
    pose proof (disk_rep_path_notin _ _ _ _ _ Hd Hin') as Hn. apply Hn. rewrite <-E.
    by apply list_elem_of_fmap_2, list_elem_of_fmap_2. }
  split.
  - pose proof (dr_chain _ _ _ Hd) as Hc. apply chain_app in Hc as [_ Hc].
    destruct b as [|sg b]; [done|]. destruct Hc as [_ Hc]. by split.
  - by pose proof (dr_ok _ _ _ Hd) as [_ ?]%Forall_app.
  - intros init sg ->. rewrite app_assoc in Hd.
    destruct (dr_files _ _ _ Hd _ _ eq_refl) as (Hs & Hne & (f & Hf & E)).
    apply Forall_app in Hs as [_ Hs]. apply Forall_app in Hne as [_ Hne].
    split_and!; [|done|].
    + rewrite Forall_forall in Hs. apply Forall_forall. intros x Hx.
      apply sealed_file_delete; [apply Hnot; set_solver|by apply Hs].
    + exists f. rewrite delete_paths_lookup, decide_False; [done|]. apply Hnot. set_solver.
  - apply torn_nil.
  - eapply disk_rep_only_delete; [exact Hd|]. intros s. rewrite fmap_app. set_solver.
Qed.

(** ** Truncation *)

(** What [truncate_from index] leaves of the segments. *)
Definition cut_segs (index : Z) (segs : list segment) : list segment :=
  (λ sg : segment, (sg.1, take (Z.to_nat (index - sg.1)) sg.2))
    <$> filter (λ sg : segment, sg.1 < index) segs.

Lemma filter_locs_from index s i off ps :
  filter (λ kv, kv.1 < index) (locs_from s i off ps)
  = locs_from s i off (take (Z.to_nat (index - i)) ps).
Proof.
  revert i off. induction ps as [|p ps IH]; intros i off; [by rewrite take_nil|].
  cbn [locs_from]. rewrite filter_cons. cbn [fst]. rewrite IH. case_decide.
  - by replace (Z.to_nat (index - i)) with (S (Z.to_nat (index - (i + 1)))) by lia.
  - by replace (Z.to_nat (index - (i + 1))) with 0%nat by lia;
      replace (Z.to_nat (index - i)) with 0%nat by lia.
Qed.

Lemma filter_entries_from index i ps :
  filter (λ kv, kv.1 < index) (entries_from i ps)
  = entries_from i (take (Z.to_nat (index - i)) ps).
Proof.
  revert i. induction ps as [|p ps IH]; intros i; [by rewrite take_nil|].
  cbn [entries_from]. rewrite filter_cons. cbn [fst]. rewrite IH. case_decide.
  - by replace (Z.to_nat (index - i)) with (S (Z.to_nat (index - (i + 1)))) by lia.
  - by replace (Z.to_nat (index - (i + 1))) with 0%nat by lia;
      replace (Z.to_nat (index - i)) with 0%nat by lia.
Qed.

Lemma all_locs_cut index segs :
  filter (λ kv, kv.1 < index) (all_locs segs) = all_locs (cut_segs index segs).
Proof.
  induction segs as [|sg segs IH]; [done|]. unfold cut_segs in *.
  rewrite all_locs_cons, filter_app, IH, filter_cons. unfold seg_locs at 1. rewrite filter_locs_from.
  case_decide; [done|]. by replace (Z.to_nat (index - sg.1)) with 0%nat by lia.
Qed.

Lemma all_entries_cut index segs :
  filter (λ kv, kv.1 < index) (all_entries segs) = all_entries (cut_segs index segs).
Proof.
  induction segs as [|sg segs IH]; [done|]. unfold cut_segs in *.
  rewrite all_entries_cons, filter_app, IH, filter_cons. unfold seg_entries at 1.
  rewrite filter_entries_from.
  case_decide; [done|]. by replace (Z.to_nat (index - sg.1)) with 0%nat by lia.
Qed.

Lemma chain_ge s0 segs : chain s0 segs → Forall (λ sg, s0 ≤ sg.1) segs.
Proof.
  revert s0. induction segs as [|sg segs IH]; intros s0; [constructor|].
  intros [<- Hc]. constructor; [lia|]. eapply Forall_impl; [by apply IH|].
  intros x. cbn. unfold seg_end. pose proof (zlen_nonneg sg.2). lia.
Qed.

(** Earlier segments end before later ones start. *)
Lemma chain_end_le s0 a b x y : chain s0 (a ++ b) → x ∈ a → y ∈ b → seg_end x ≤ y.1.
Proof.
  intros Hc (a1 & a2 & ->)%list_elem_of_split Hy. rewrite <-app_assoc in Hc.
  apply chain_app in Hc as [_ Hc]. cbn in Hc. destruct Hc as [_ Hc].
  apply chain_ge in Hc. rewrite Forall_forall in Hc. apply Hc. set_solver.
Qed.

Lemma elem_of_locs_from s i off ps k loc :
  (k, loc) ∈ locs_from s i off ps → segment_start loc = s ∧ i ≤ k < i + zlen ps.
Proof.
  revert i off. induction ps as [|p ps IH]; intros i off; [by intros ?%elem_of_nil|].
  cbn [locs_from]. rewrite zlen_cons. pose proof (zlen_nonneg ps).
  intros [E|E]%elem_of_cons; [simplify_eq; cbn; lia|]. apply IH in E. lia.
Qed.

Lemma elem_of_all_locs segs k loc :
  (k, loc) ∈ all_locs segs →
  ∃ sg, sg ∈ segs ∧ segment_start loc = sg.1 ∧ sg.1 ≤ k < seg_end sg.
Proof.
  induction segs as [|sg segs IH]; [by intros ?%elem_of_nil|].
  rewrite all_locs_cons. intros [E|E]%elem_of_app.
  - apply elem_of_locs_from in E as [E Hk]. exists sg. by split; [left|].
  - destruct (IH E) as (sg' & ? & ?). exists sg'. by split; [right|].
Qed.

(** The location of a record inside a segment. *)
Lemma loc_in_segment sg k p :
  sg.2 !! k = Some p →
  (sg.1 + Z.of_nat k, {| segment_start := sg.1;
                         payload_offset := blen (seg_bytes (take k sg.2)) + HEADER_BYTES;
                         loc_len := blen p |}) ∈ seg_locs sg.
Proof.
  intros Hk. unfold seg_locs. rewrite <-(take_drop_middle _ _ _ Hk) at 2.
  rewrite (locs_from_app sg.1). apply elem_of_app. right. cbn [locs_from].
  apply elem_of_cons. left. apply lookup_lt_Some in Hk.
  unfold zlen. rewrite length_take_le by lia. by rewrite Z.add_0_l.
Qed.

Lemma filter_sorted_split index segs :
  StronglySorted Z.lt segs.*1 →
  segs = filter (λ sg : segment, sg.1 < index) segs
         ++ filter (λ sg : segment, ¬ sg.1 < index) segs.
Proof.
  induction segs as [|sg segs IH]; [done|]. cbn [fmap list_fmap].
  intros [Hlt Hs]%StronglySorted_cons. rewrite !filter_cons.
  repeat case_decide; try tauto.
  - cbn. by rewrite <-IH.
  - rewrite Forall_forall in Hlt.
    assert (Hge : ∀ x, x ∈ segs → ¬ x.1 < index).
    { intros x Hx. assert (sg.1 < x.1) by (apply Hlt, list_elem_of_fmap; eauto). lia. }
    rewrite (list_filter_none (λ x : segment, x.1 < index)) by done.
    by rewrite (list_filter_all (λ x : segment, ¬ x.1 < index)).
Qed.

(** The segments kept by a cut: all but the last of them are untouched. *)
Lemma cut_segs_snoc index segs init sg s0 :
  chain s0 segs → filter (λ sg : segment, sg.1 < index) segs = init ++ [sg] →
  segs = (init ++ [sg]) ++ filter (λ sg : segment, ¬ sg.1 < index) segs →
  cut_segs index segs = init ++ [(sg.1, take (Z.to_nat (index - sg.1)) sg.2)].
Proof.
  intros Hc Hf Hsplit. unfold cut_segs. rewrite Hf, fmap_app. cbn. f_equal.
  apply list_eq_Forall2, Forall2_fmap_l, Forall_Forall2_diag, Forall_forall.
  intros x Hx. rewrite Hsplit, <-app_assoc in Hc.
  assert (seg_end x ≤ sg.1) by (eapply chain_end_le; [exact Hc|done|set_solver]).
  assert (sg.1 < index).
  { assert (Hin : sg ∈ filter (λ sg : segment, sg.1 < index) segs) by (rewrite Hf; set_solver).
    by apply list_elem_of_filter in Hin as []. }
  destruct x as [s ps]. cbn in *. f_equal. apply take_ge. unfold seg_end, zlen in *. cbn in *. lia.
Qed.

Lemma log_inv_lookup st segs floor k loc :
  log_inv st segs floor →
  records (slf st) !! k = Some loc ↔ floor < k ∧ (k, loc) ∈ all_locs segs.
Proof.
  intros Hi. rewrite (li_records _ _ _ Hi), <-elem_of_list_to_map, list_elem_of_filter; [done|].
  by eapply StronglySorted_lt_NoDup, log_inv_sorted.
Qed.

(** [reopen_active] on a clean directory restores the active segment. *)
Lemma reopen_active_ok l d segs :
  disk_rep d segs [] → starts l = segs.*1 →
  reopen_active {| slf := l; disk := d |}
  = (Ok tt, {| slf := set_active (active_of segs) l; disk := d |}).
Proof.
  intros Hd Hs. unfold reopen_active. mstep get_self_ok. cbn [slf]. rewrite Hs.
  destruct segs as [|sg init _] using rev_ind; [done|].
  unfold active_of. rewrite fmap_last, last_snoc. cbn [fmap option_fmap option_map].
  destruct (disk_rep_clean_file d _ sg Hd) as (f & Hf & E); [set_solver|]. rewrite app_nil_r in E.
  mstep io_ok; [|apply (metadata_len_ok _ _ _ Hf)].
  mstep io_ok; [|apply (open_existing_ok _ _ _ Hf)]. by rewrite E.
Qed.

Lemma cut_frame_noop index cut st :
  (∀ c, cut = Some c → ¬ c.1 < index) → cut_frame index cut st = (Ok tt, st).
Proof.
  intros Hc. destruct cut as [[s o]|]; [|done]. cbn.
  rewrite decide_False; [done|]. by apply (Hc (s, o)).
Qed.

Lemma cut_frame_file index l d s o f :
  s < index → d !! segment_path s = Some f →
  cut_frame index (Some (s, o)) {| slf := l; disk := d |}
  = (Ok tt, {| slf := l; disk := <[segment_path s :=
        File (take (Z.to_nat o) (f_data f)) (length (take (Z.to_nat o) (f_data f)))]> d |}).
Proof.
  intros Hs Hf. unfold cut_frame. rewrite decide_True by done.
  mstep io_ok; [|apply (open_existing_ok _ _ _ Hf)].
  mstep io_ok; [|apply (set_len_ok _ _ _ Hf)]. cbn [slf disk].
  erewrite io_ok; [|apply (fsync_ok _ _ _ (lookup_insert_eq _ _ _))].
  cbn [slf disk f_data]. by rewrite insert_insert_eq.
Qed.

Lemma seg_ok_take sg k : seg_ok sg → seg_ok (sg.1, take k sg.2).
Proof.
  intros [H1 H2 H3 H4]. unfold seg_end, zlen in *.
  rewrite <-(take_drop k sg.2), seg_bytes_app, blen_app in H4.
  pose proof (blen_nonneg (seg_bytes (drop k sg.2))).
  split; unfold seg_end, zlen; cbn [fst snd]; [done| |by apply Forall_take|lia].
  rewrite length_take. lia.
Qed.

(** The cut in the last kept segment, followed by the deletion of the segments
    above it. *)
Lemma cut_last_ok l d init sg b floor index :
  log_inv {| slf := l; disk := d |} ((init ++ [sg]) ++ b) floor →
  floor < index → sg.1 < index → Forall (λ x : segment, ¬ x.1 < index) b →
  let cut := (λ loc, (segment_start loc, wrap64 (payload_offset loc - HEADER_BYTES)))
               <$> records l !! index in
  ∀ l', ∃ d1, cut_frame index cut {| slf := l'; disk := d |} = (Ok tt, {| slf := l'; disk := d1 |})
    ∧ dom d1 = dom d
    ∧ disk_rep (delete_paths d1 b.*1) (init ++ [(sg.1, take (Z.to_nat (index - sg.1)) sg.2)]) [].
Proof.
  intros Hi Hfl Hs Hb cut l'. pose proof (li_disk _ _ _ Hi) as Hd. cbn in Hd.
  pose proof (disk_rep_drop_suffix _ _ _ Hd) as Hd0.
  assert (Hok : seg_ok sg).
  { pose proof (dr_ok _ _ _ Hd) as Hok. rewrite Forall_forall in Hok. apply Hok. set_solver. }
  destruct (sg.2 !! Z.to_nat (index - sg.1)) as [p|] eqn:Ep.
  - pose proof (loc_in_segment sg _ _ Ep) as Hloc.
    replace (sg.1 + Z.of_nat (Z.to_nat (index - sg.1))) with index in Hloc by lia.
    assert (Hcut : cut = Some (sg.1, blen (seg_bytes (take (Z.to_nat (index - sg.1)) sg.2)))).
    { unfold cut. erewrite (proj2 (log_inv_lookup _ _ _ _ _ Hi)).
      2: { split; [done|]. rewrite !all_locs_app, all_locs_one, !elem_of_app. left. right. exact Hloc. }
      cbn. do 2 f_equal.
      pose proof (blen_nonneg (seg_bytes (take (Z.to_nat (index - sg.1)) sg.2))).
      pose proof (so_bytes _ (seg_ok_take sg (Z.to_nat (index - sg.1)) Hok)). cbn in *.
      rewrite wrap64_small; [lia|]. split; lia. }
    destruct (disk_rep_clean_file d _ sg Hd) as (f & Hf & E); [set_solver|]. rewrite app_nil_r in E.
    eexists. rewrite Hcut. split_and!; [by apply cut_frame_file|rewrite dom_insert_L|].
    { apply elem_of_dom_2 in Hf. set_solver. }
    rewrite delete_paths_insert by (eapply disk_rep_path_notin; [exact Hd|set_solver]).
    eapply disk_rep_update_last; [exact Hd0|done|by apply seg_ok_take| |apply torn_nil].
    cbn. rewrite app_nil_r, E. unfold blen. rewrite Nat2Z.id.
    rewrite <-(take_drop (Z.to_nat (index - sg.1)) sg.2) at 2.
    rewrite seg_bytes_app. by rewrite take_app_length.
  - exists d. split_and!; [|done|].
    + apply cut_frame_noop. intros [s o] Hc. unfold cut in Hc.
      apply fmap_Some in Hc as (loc & Hloc & [= -> ->]).
      apply (log_inv_lookup _ _ _ _ _ Hi) in Hloc as [_ Hloc]. cbn.
      apply elem_of_all_locs in Hloc as (x & Hx & -> & Hk).
      apply lookup_ge_None in Ep. unfold seg_end, zlen in Hk.
      apply elem_of_app in Hx as [Hx|Hx]; [|rewrite Forall_forall in Hb; by apply Hb].
      exfalso. apply elem_of_app in Hx as [Hx| ->%list_elem_of_singleton]; [|lia].
      pose proof (dr_chain _ _ _ Hd) as Hc. rewrite <-app_assoc in Hc.
      assert (seg_end x ≤ sg.1) by (eapply chain_end_le; [exact Hc|done|set_solver]).
      unfold seg_end, zlen in *. lia.
    + apply lookup_ge_None in Ep. rewrite take_ge by done. by destruct sg.
Qed.


(** The in-memory floor stays below the end of a truncated log. *)
Lemma cut_next_index s0 init sg b index floor :
  chain s0 ((init ++ [sg]) ++ b) → Forall (λ x : segment, ¬ x.1 < index) b → sg.1 < index →
  floor < index → floor < next_index ((init ++ [sg]) ++ b) →
  floor < seg_end (sg.1, take (Z.to_nat (index - sg.1)) sg.2).
Proof.
  intros Hc Hb Hs Hf Hn. unfold seg_end, zlen. cbn [fst snd]. rewrite length_take.
  destruct b as [|x b].
  - rewrite app_nil_r, next_index_snoc in Hn. unfold seg_end, zlen in Hn. lia.
  - apply Forall_cons in Hb as [Hx _].
    rewrite <-app_assoc in Hc. apply chain_app in Hc as [_ Hc]. cbn in Hc.
    destruct Hc as (_ & E & _). unfold seg_end, zlen in E. lia.
Qed.

Lemma starts_split index segs :
  filter (λ s, index ≤ s) segs.*1 = (filter (λ sg : segment, ¬ sg.1 < index) segs).*1.
Proof.
  induction segs as [|sg segs IH]; [done|]. cbn [fmap list_fmap].
  rewrite !filter_cons, IH. repeat case_decide; (done || lia).
Qed.

Lemma starts_kept index segs :
  filter (λ s, s ∉ filter (λ s, index ≤ s) segs.*1) segs.*1 = (cut_segs index segs).*1.
Proof.
  assert (E : ∀ l : list segment, (∀ x, x ∈ l → x ∈ segs) →
    filter (λ s, s ∉ filter (λ s, index ≤ s) segs.*1) l.*1
    = (filter (λ sg : segment, sg.1 < index) l).*1).
  { induction l as [|sg l IH]; intros Hsub; [done|]. cbn [fmap list_fmap].
    assert (Hin : sg.1 ∈ segs.*1) by (apply list_elem_of_fmap; exists sg; split; [done|apply Hsub; left]).
    assert (Hiff : sg.1 ∉ filter (λ s, index ≤ s) segs.*1 ↔ sg.1 < index).
    { rewrite list_elem_of_filter. split; [|intros ? [??]; lia].
      intros Hn. destruct (decide (sg.1 < index)); [done|]. destruct Hn. split; [lia|done]. }
    rewrite !filter_cons, IH by (intros; apply Hsub; by right).
    repeat case_decide; (done || tauto). }
  rewrite E by done. unfold cut_segs. by rewrite <-list_fmap_compose.
Qed.

Lemma filter_comm {A} (P Q : A → Prop) `{!∀ x, Decision (P x), !∀ x, Decision (Q x)} (l : list A) :
  filter P (filter Q l) = filter Q (filter P l).
Proof.
  induction l as [|x l IH]; [done|]. rewrite !filter_cons.
  repeat (case_decide; rewrite ?filter_cons); by rewrite ?IH.
Qed.

Lemma truncate_records st segs floor index :
  log_inv st segs floor →
  retain_keys (λ k, bool_decide (k < index)) (records (slf st))
  = list_to_map (filter (λ kv, floor < kv.1) (all_locs (cut_segs index segs))).
Proof.
  intros Hi. rewrite (li_records _ _ _ Hi), retain_keys_list_to_map
    by (by eapply StronglySorted_lt_NoDup, log_inv_sorted).
  rewrite <-all_locs_cut, filter_comm. do 2 f_equal.
  apply list_filter_iff. intros x. by rewrite bool_decide_eq_true.
Qed.

(** The cut block, whichever segment holds the record at [index]. *)
Lemma cut_ok l d segs floor index l' :
  log_inv {| slf := l; disk := d |} segs floor → floor < index →
  ∃ d1, cut_frame index ((λ loc, (segment_start loc,
              wrap64 (payload_offset loc - HEADER_BYTES))) <$> records l !! index)
             {| slf := l'; disk := d |} = (Ok tt, {| slf := l'; disk := d1 |})
    ∧ dom d1 = dom d
    ∧ disk_rep (delete_paths d1 (filter (λ sg : segment, ¬ sg.1 < index) segs).*1)
        (cut_segs index segs) []
    ∧ (cut_segs index segs ≠ [] → floor < next_index (cut_segs index segs)).
Proof.
  intros Hi Hfl. pose proof (li_disk _ _ _ Hi) as Hd. cbn in Hd.
  pose proof (filter_sorted_split index segs (disk_rep_starts_sorted _ _ _ Hd)) as Hsplit.
  set (a := filter (λ sg : segment, sg.1 < index) segs) in Hsplit.
  set (b := filter (λ sg : segment, ¬ sg.1 < index) segs) in Hsplit |- *.
  assert (Hb : Forall (λ x : segment, ¬ x.1 < index) b).
  { apply Forall_forall. by intros x [? _]%list_elem_of_filter. }
  destruct a as [|sg init _] eqn:Ea using rev_ind.
  - exists d. assert (cut_segs index segs = []) as -> by (unfold cut_segs; by fold a; rewrite Ea).
    split_and!; [|done| |done].
    + apply cut_frame_noop. intros [s o] Hc. apply fmap_Some in Hc as (loc & Hloc & [= -> ->]).
      apply (log_inv_lookup _ _ _ _ _ Hi) in Hloc as [_ (x & Hx & -> & _)%elem_of_all_locs].
      rewrite Hsplit in Hx. rewrite Forall_forall in Hb. by apply Hb.
    + rewrite Hsplit in Hd. by apply (disk_rep_drop_suffix d []).
  - rewrite (cut_segs_snoc index segs init sg _ (dr_chain _ _ _ Hd)) by done.
    assert (Hs : sg.1 < index).
    { assert (Hin : sg ∈ a) by (rewrite Ea; set_solver). by apply list_elem_of_filter in Hin as []. }
    pose proof Hi as Hi'. rewrite Hsplit in Hi'.
    destruct (cut_last_ok _ _ _ _ _ _ _ Hi' Hfl Hs Hb l') as (d1 & ? & ? & ?).
    exists d1. split_and!; try done. intros _. rewrite next_index_snoc.
    eapply cut_next_index; [|exact Hb|done|done|]; rewrite <-Hsplit; [apply Hd|].
    apply (li_floor _ _ _ Hi). rewrite Hsplit. by destruct init.
Qed.

(** [truncate_from] leaves the records below [index], on disk and in memory. *)
Lemma truncate_inv st segs floor index :
  log_inv st segs floor → floor < index →
  ∃ st', truncate_from index st = (Ok tt, st') ∧ log_inv st' (cut_segs index segs) floor
    ∧ segment_max_bytes (slf st') = segment_max_bytes (slf st).
Proof.
  intros Hi Hfl. pose proof (truncate_records _ _ _ index Hi) as Hrec. destruct st as [l d].
  pose proof (li_disk _ _ _ Hi) as Hd. pose proof (li_starts _ _ _ Hi) as Hst. cbn in Hd, Hst, Hrec.
  unfold truncate_from. mstep get_self_ok. mstep on_self_ok. cbn [slf disk]. rewrite Hrec, Hst.
  set (l1 := set_records _ _). rewrite starts_split.
  destruct (cut_ok _ _ _ _ _ l1 Hi Hfl) as (d1 & Ecut & Edom & Hd1 & Hn1).
  set (b := filter (λ sg : segment, ¬ sg.1 < index) segs) in *.
  erewrite M_bind_Ok; [|exact Ecut]. cbv beta.
  erewrite M_bind_Ok; [|apply remove_loop_ok]; cbv beta; cycle 1.
  { pose proof (disk_rep_paths_NoDup _ _ _ Hd) as Hnd.
    rewrite (filter_sorted_split index segs (disk_rep_starts_sorted _ _ _ Hd)), !fmap_app in Hnd.
    by apply NoDup_app in Hnd as (_ & _ & ?). }
  { apply Forall_forall. intros s (sg & -> & Hin)%list_elem_of_fmap.
    apply elem_of_dom. rewrite Edom. apply elem_of_dom.
    eapply disk_rep_file; [exact Hd|]. by apply list_elem_of_filter in Hin as []. }
  mstep on_self_ok. cbn [slf disk].
  assert (Hkept : filter (λ s, s ∉ b.*1) (starts l1) = (cut_segs index segs).*1).
  { cbn. rewrite Hst. unfold b. rewrite <-starts_split. apply starts_kept. }
  rewrite (reopen_active_ok _ _ _ Hd1) by done.
  eexists. split_and!; [done| |done]. split; done.
Qed.

(** ** Purge *)

(** The segments [purge_through index] keeps: the last one, and those with a
    record above [index]. *)
Fixpoint purge_segs (index : Z) (segs : list segment) : list segment :=
  match segs with
  | sg :: ((_ :: _) as rest) =>
      if decide (seg_end sg - 1 ≤ index) then purge_segs index rest else segs
  | _ => segs
  end.
End LogTrunc.
