(* ===== verification/LogPurge.v ===== *)
(** * The segmented log: purge

    [purge_through] drops a prefix of the records: segments that hold nothing
    above the floor are deleted, a partly covered segment keeps its file and only
    the in-memory index forgets the covered records. *)

From S2P Require Import Prelude Bytes CoreError FileSys SegmentedLog LogScan LogInv LogOps LogTrunc.

Open Scope Z_scope.

Section LogPurge.
Context `{Crc32c}.

Lemma purge_segs_split index segs :
  ∃ a, segs = a ++ purge_segs index segs ∧ Forall (λ x, seg_end x - 1 ≤ index) a.
Proof.
  induction segs as [|sg segs (a & E & Ha)]; [by exists []|].
  destruct segs as [|sg' segs]; [by exists []|].
  cbn [purge_segs]. case_decide; [|by exists []].
  exists (sg :: a). split; [by cbn; f_equal|by constructor].
Qed.

Lemma purge_segs_nonempty index segs : segs ≠ [] → purge_segs index segs ≠ [].
Proof.
  induction segs as [|sg segs IH]; [done|]. intros _.
  destruct segs as [|sg' segs]; [done|]. cbn [purge_segs]. case_decide; [by apply IH|done].
Qed.

(** What is kept, but for the last segment, has a record above [index]. *)
Lemma purge_segs_live index segs s0 init sg :
  chain s0 segs → purge_segs index segs = init ++ [sg] →
  Forall (λ x, index < seg_end x - 1) init.
Proof.
  revert s0. induction segs as [|x segs IH]; intros s0 Hc; [by destruct init|].
  destruct Hc as [_ Hc]. destruct segs as [|y segs]; cbn [purge_segs].
  { intros E. destruct init as [|z init]; [constructor|]. injection E. by destruct init. }
  case_decide as Hx; [by eapply IH|]. intros E.
  destruct init as [|z init]; [constructor|]. injection E as -> E. rewrite E in Hc.
  constructor; [lia|]. apply Forall_forall. intros w Hw.
  apply chain_ge in Hc. rewrite Forall_forall in Hc.
  specialize (Hc w ltac:(set_solver)). unfold seg_end, zlen in *. lia.
Qed.

Lemma next_index_purge index segs : next_index (purge_segs index segs) = next_index segs.
Proof.
  destruct (purge_segs_split index segs) as (a & E & _).
  destruct (decide (segs = [])) as [->|Hne]; [done|].
  rewrite E at 2. destruct (exists_last (purge_segs_nonempty index _ Hne)) as (i & sg & ->).
  by rewrite app_assoc, !next_index_snoc.
Qed.

(** ** The deletion loop *)

(** The start of a segment is where the one before it ends. *)
Lemma chain_next_start s0 pre x y rest :
  chain s0 (pre ++ x :: y :: rest) → y.1 = seg_end x.
Proof. rewrite chain_app. intros [_ (_ & E & _)]. done. Qed.

Lemma purge_step_remove act index l d pre (x y : segment) rest f :
  Some x.1 ≠ act → is_u64 (y.1 - 1) → y.1 - 1 ≤ index → d !! segment_path x.1 = Some f →
  purge_step act index (pre ++ x :: y :: rest).*1 (length pre) {| slf := l; disk := d |}
  = (Ok tt, {| slf := l; disk := delete (segment_path x.1) d |}).
Proof.
  intros Ha Hu Hy Hf. unfold purge_step.
  rewrite fmap_app. cbn [fmap list_fmap].
  rewrite list_lookup_middle by (by rewrite length_fmap).
  rewrite decide_False by done.
  replace (pre.*1 ++ x.1 :: y.1 :: rest.*1) with ((pre.*1 ++ [x.1]) ++ y.1 :: rest.*1)
    by (by rewrite <-app_assoc).
  rewrite list_lookup_middle by (rewrite length_app, length_fmap; cbn; lia).
  rewrite wrap64_small, decide_True by done.
  by apply io_ok, (remove_file_ok _ _ _ Hf).
Qed.

Lemma purge_loop_remove act index l a : ∀ pre b d s0,
  b ≠ [] → chain s0 (pre ++ a ++ b) → Forall seg_ok (pre ++ a ++ b) →
  Forall (λ x : segment, seg_end x - 1 ≤ index ∧ x.2 ≠ [] ∧ Some x.1 ≠ act) a →
  NoDup (segment_path <$> a.*1) → Forall (λ x : segment, is_Some (d !! segment_path x.1)) a →
  for_each (seq (length pre) (length a)) (purge_step act index (pre ++ a ++ b).*1)
    {| slf := l; disk := d |} = (Ok tt, {| slf := l; disk := delete_paths d a.*1 |}).
Proof.
  induction a as [|x a IH]; intros pre b d s0 Hb Hc Hok Ha Hnd Hf; [done|].
  apply Forall_cons in Ha as [(Hx & Hne & Hact) Ha]. cbn [fmap list_fmap] in Hnd.
  apply NoDup_cons in Hnd as [Hn Hnd]. apply Forall_cons in Hf as [[f Hfx] Hf].
  assert (∃ y rest, a ++ b = y :: rest) as (y & rest & E).
  { destruct a as [|y a]; [destruct b as [|y b]; [done|]|]; eauto. }
  assert (Hy : y.1 = seg_end x).
  { cbn [app] in Hc. rewrite E in Hc. by eapply chain_next_start. }
  assert (Hokx : seg_ok x) by (rewrite Forall_forall in Hok; apply Hok; set_solver).
  assert (Hu : is_u64 (y.1 - 1)).
  { rewrite Hy. destruct Hokx. apply zlen_pos in Hne. unfold seg_end in *. split; lia. }
  cbn [length seq for_each app]. rewrite E.
  rewrite (M_bind_Ok _ _ _ _ _ (purge_step_remove act index l d pre x y rest f Hact Hu ltac:(lia) Hfx)).
  rewrite <-E, (cons_middle x pre), (app_assoc pre).
  replace (S (length pre)) with (length (pre ++ [x])) by (rewrite length_app; cbn; lia).
  apply (IH (pre ++ [x]) b (delete (segment_path x.1) d) s0); try done.
  - by rewrite <-app_assoc.
  - by rewrite <-app_assoc.
  - apply Forall_forall. intros z Hz. rewrite Forall_forall in Hf.
    rewrite lookup_delete_ne; [by apply Hf|]. intros Ez. apply Hn. rewrite Ez.
    by apply list_elem_of_fmap_2, list_elem_of_fmap_2.
Qed.

(** The steps that find nothing to delete. *)
Lemma purge_step_skip act index ss i st start :
  ss !! i = Some start →
  (Some start = act ∨ ∀ next, ss !! (i + 1)%nat = Some next → index < wrap64 (next - 1)) →
  purge_step act index ss i st = (Ok tt, st).
Proof.
  intros Es Hor. unfold purge_step. rewrite Es. case_decide as Ha; [done|].
  destruct Hor as [?|Hn]; [done|]. destruct (ss !! (i + 1)%nat) as [next|]; [|done].
  rewrite decide_False; [done|]. specialize (Hn _ eq_refl). lia.
Qed.

Lemma purge_loop_skip index st a init sg s0 k :
  chain s0 (a ++ init ++ [sg]) → Forall seg_ok (a ++ init ++ [sg]) →
  Forall (λ x, index < seg_end x - 1) init → Forall (λ x : segment, x.2 ≠ []) init →
  for_each (take k (seq (length a) (length (init ++ [sg]))))
    (purge_step (Some sg.1) index (a ++ init ++ [sg]).*1) st = (Ok tt, st).
Proof.
  intros Hc Hok Hlive Hne. apply for_each_noop, Forall_take, Forall_forall. intros i Hi%elem_of_seq.
  destruct (lookup_lt_is_Some_2 (a ++ init ++ [sg]) i) as [x Hx].
  { rewrite (length_app a). lia. }
  eapply purge_step_skip; [by rewrite list_lookup_fmap, Hx|].
  rewrite lookup_app_r in Hx by lia.
  apply lookup_snoc_Some in Hx as [[Hlt Hx]|[Hlt ->]]; [right|by left].
  intros next. rewrite list_lookup_fmap. intros (y & Ey & ->)%fmap_Some.
  assert (Hin : x ∈ init) by (by eapply list_elem_of_lookup_2).
  rewrite Forall_forall in Hlive. rewrite Forall_forall in Hne. rewrite Forall_forall in Hok.
  specialize (Hlive _ Hin). specialize (Hne _ Hin). specialize (Hok x ltac:(set_solver)).
  destruct (list_elem_of_split_length init _ _ Hx) as (l1 & l2 & -> & El).
  assert (y.1 = seg_end x) as ->.
  { destruct (l2 ++ [sg]) as [|z rest] eqn:Ez; [by destruct l2|].
    rewrite <-app_assoc, app_assoc in Hc, Ey. cbn [app] in Hc, Ey. rewrite Ez in Hc, Ey.
    rewrite lookup_app_r, length_app in Ey by (rewrite length_app; lia).
    replace (i + 1 - (length a + length l1))%nat with 1%nat in Ey by lia. cbn in Ey. simplify_eq.
    by eapply chain_next_start. }
  destruct Hok. apply zlen_pos in Hne. rewrite wrap64_small; unfold seg_end in *; [lia|split; lia].
Qed.

(** ** The index and the segment list after the purge *)

Lemma purge_records st segs floor index :
  log_inv st segs floor → floor ≤ index →
  retain_keys (λ k, bool_decide (index < k)) (records (slf st))
  = list_to_map (filter (λ kv, index < kv.1) (all_locs (purge_segs index segs))).
Proof.
  intros Hi Hle. destruct (purge_segs_split index segs) as (a & E & Ha).
  rewrite (li_records _ _ _ Hi), retain_keys_list_to_map
    by (by eapply StronglySorted_lt_NoDup, log_inv_sorted).
  rewrite E at 1. rewrite all_locs_app, list_filter_filter, filter_app.
  rewrite (list_filter_none _ (all_locs a)).
  - cbn. f_equal. apply list_filter_iff. intros [k loc]. rewrite bool_decide_eq_true. cbn. lia.
  - intros [k loc] (x & Hx & _ & Hk)%elem_of_all_locs. rewrite bool_decide_eq_true. cbn.
    rewrite Forall_forall in Ha. specialize (Ha _ Hx). cbn in Ha. lia.
Qed.

Lemma purge_starts d segs index init sg (recs : gmap Z RecordLoc) a :
  disk_rep d segs [] → segs = a ++ init ++ [sg] → Forall (λ x, seg_end x - 1 ≤ index) a →
  Forall (λ x, index < seg_end x - 1) init →
  recs = list_to_map (filter (λ kv, index < kv.1) (all_locs (init ++ [sg]))) →
  filter (λ s, Some s = Some sg.1 ∨ Exists (λ kv, segment_start kv.2 = s) (map_to_list recs)) segs.*1
  = (init ++ [sg]).*1.
Proof.
  intros Hd Hs Ha Hlive Hrecs. subst segs recs. rewrite fmap_app, filter_app.
  pose proof (disk_rep_starts_sorted _ _ _ Hd) as Hsort. rewrite fmap_app in Hsort.
  pose proof (dr_chain _ _ _ Hd) as Hc. rewrite Forall_forall in Hlive.
  assert (Hkeys : NoDup (filter (λ kv, index < kv.1) (all_locs (init ++ [sg]))).*1).
  { apply chain_app in Hc as [_ Hc].
    eapply StronglySorted_lt_NoDup, keys_sorted_filter, chain_locs_sorted, Hc. }
  rewrite list_filter_none, list_filter_all; [done| |].
  - intros s. rewrite fmap_app. intros [Hin|Hin]%elem_of_app; [right|left; set_solver].
    apply list_elem_of_fmap in Hin as (x & -> & Hx).
    apply Exists_exists. specialize (Hlive _ Hx).
    destruct (dr_files _ _ _ Hd (a ++ init) sg ltac:(by rewrite app_assoc)) as (_ & Hne & _).
    rewrite Forall_forall in Hne. specialize (Hne x ltac:(set_solver)).
    destruct (exists_last Hne) as (ps & p & E).
    assert (Hlk : x.2 !! length ps = Some p) by (rewrite E; by apply list_lookup_middle).
    pose proof (loc_in_segment x _ _ Hlk) as Hloc.
    match type of Hloc with ?e ∈ _ => exists e; split; [|done] end.
    apply elem_of_map_to_list', elem_of_list_to_map_1; [done|]. cbn [fst snd].
    apply list_elem_of_filter. split.
    + cbn. unfold seg_end, zlen in Hlive. rewrite E, length_app in Hlive. cbn in Hlive. lia.
    + apply list_elem_of_split in Hx as (i1 & i2 & ->).
        rewrite all_locs_app, all_locs_app, all_locs_cons, !elem_of_app. auto.
  - intros s Hin [Hs|Hex].
    + simplify_eq. assert (sg.1 < sg.1); [|lia].
      eapply StronglySorted_app_1_elem_of; [exact Hsort|exact Hin|]. set_solver.
    + apply Exists_exists in Hex as ([k loc] & Hm & <-). apply elem_of_map_to_list in Hm.
      apply elem_of_list_to_map_2, list_elem_of_filter in Hm as [_ Hm].
      apply elem_of_all_locs in Hm as (y & Hy & Ey & _). cbn in Hin. rewrite Ey in Hin.
      assert (y.1 < y.1); [|lia].
      eapply StronglySorted_app_1_elem_of; [exact Hsort|exact Hin|]. by apply list_elem_of_fmap_2.
Qed.

(** The loop over covered segments, with others after them, deletes their files. *)
Lemma purge_loop_covered l d a init sg index :
  disk_rep d (a ++ init ++ [sg]) [] → Forall (λ x, seg_end x - 1 ≤ index) a →
  for_each (seq 0 (length a)) (purge_step (Some sg.1) index (a ++ init ++ [sg]).*1) {| slf := l; disk := d |}
  = (Ok tt, {| slf := l; disk := delete_paths d a.*1 |}).
Proof.
  intros Hd Ha. pose proof (dr_chain _ _ _ Hd) as Hc. pose proof (dr_ok _ _ _ Hd) as Hok.
  pose proof (dr_files _ _ _ Hd (a ++ init) sg ltac:(by rewrite <-app_assoc)) as (_ & Hnn & _).
  apply Forall_app in Hnn as [Hna Hni].
  eapply (purge_loop_remove _ _ _ a [] (init ++ [sg])); [by destruct init|exact Hc|done| | |].
  - rewrite Forall_forall in Ha. rewrite Forall_forall in Hna. apply Forall_forall. intros x Hx.
    split_and!; [by apply Ha|by apply Hna|]. intros [= E].
    pose proof (disk_rep_starts_sorted _ _ _ Hd) as Hsort. rewrite fmap_app in Hsort.
    assert (x.1 < sg.1); [|lia].
    eapply StronglySorted_app_1_elem_of; [exact Hsort|by apply list_elem_of_fmap_2|set_solver].
  - pose proof (disk_rep_paths_NoDup _ _ _ Hd) as Hnd. rewrite !fmap_app in Hnd.
    by apply NoDup_app in Hnd as (? & _).
  - apply Forall_forall. intros x Hx. eapply disk_rep_file; [exact Hd|set_solver].
Qed.

(** The first [k] rounds delete the files of the first [k] covered segments. *)
Lemma purge_loop_rounds l d a init sg index k :
  disk_rep d (a ++ init ++ [sg]) [] → Forall (λ x, seg_end x - 1 ≤ index) a →
  Forall (λ x, index < seg_end x - 1) init →
  for_each (take k (seq 0 (length (a ++ init ++ [sg]).*1)))
    (purge_step (Some sg.1) index (a ++ init ++ [sg]).*1) {| slf := l; disk := d |}
  = (Ok tt, {| slf := l; disk := delete_paths d (take k a).*1 |}).
Proof.
  intros Hd Ha Hlive. rewrite length_fmap, (length_app a), seq_app, take_app, length_seq.
  destruct (decide (k ≤ length a)%nat) as [Hk|Hk].
  - replace (k - length a)%nat with 0%nat by lia. rewrite take_0, app_nil_r, take_seq, Nat.min_l by done.
    rewrite <-(take_drop k a) in Hd, Ha. apply Forall_app in Ha as [Ha _]. rewrite <-app_assoc, (app_assoc (drop k a)) in Hd.
    pose proof (purge_loop_covered l d (take k a) (drop k a ++ init) sg index Hd Ha) as E.
    rewrite length_take, Nat.min_l, <-(app_assoc (drop k a)), (app_assoc (take k a)), take_drop in E by done. exact E.
  - rewrite (take_ge a), (take_ge (seq 0 _)) by (rewrite ?length_seq; lia). erewrite for_each_app; [|by apply purge_loop_covered].
    pose proof (dr_files _ _ _ Hd (a ++ init) sg ltac:(by rewrite <-app_assoc)) as (_ & [_ Hni]%Forall_app & _).
    eapply purge_loop_skip; [apply Hd|apply Hd|done..].
Qed.

(** The whole loop. *)
Lemma purge_loop_ok l d a init sg index :
  disk_rep d (a ++ init ++ [sg]) [] → Forall (λ x, seg_end x - 1 ≤ index) a →
  Forall (λ x, index < seg_end x - 1) init →
  for_each (seq 0 (length (a ++ init ++ [sg]).*1))
    (purge_step (Some sg.1) index (a ++ init ++ [sg]).*1) {| slf := l; disk := d |}
  = (Ok tt, {| slf := l; disk := delete_paths d a.*1 |}).
Proof.
  intros Hd Ha Hlive. pose proof (purge_loop_rounds l d a init sg index (length (a ++ init ++ [sg])) Hd Ha Hlive) as E.
  rewrite length_fmap in *. rewrite !take_ge in E by (rewrite ?length_seq, ?length_app; lia). exact E.
Qed.

(** [purge_through] leaves the records above [index]. *)
Lemma purge_inv st segs floor index :
  log_inv st segs floor → floor ≤ index → (segs ≠ [] → index < next_index segs) →
  ∃ st', purge_through index st = (Ok tt, st') ∧ log_inv st' (purge_segs index segs) index
    ∧ segment_max_bytes (slf st') = segment_max_bytes (slf st).
Proof.
  intros Hi Hle Hnext. pose proof (purge_records _ _ _ index Hi Hle) as Hrec. destruct st as [l d].
  pose proof (li_disk _ _ _ Hi) as Hd. pose proof (li_starts _ _ _ Hi) as Hst.
  pose proof (li_active _ _ _ Hi) as Hact. cbn in Hd, Hst, Hact, Hrec.
  unfold purge_through. mstep on_self_ok. mstep get_self_ok. cbn [slf disk set_records starts active].
  rewrite Hst, Hact, Hrec. unfold active_of.
  destruct (decide (segs = [])) as [->|Hne].
  { eexists. split_and!; [done| |done]. split; try done; cbn; by rewrite Hst. }
  pose proof (next_index_purge index segs) as Hnp.
  destruct (purge_segs_split index segs) as (a & Es & Ha).
  destruct (exists_last (purge_segs_nonempty index _ Hne)) as (init & sg & Ep).
  pose proof (purge_segs_live _ _ _ _ _ (dr_chain _ _ _ Hd) Ep) as Hlive.
  rewrite Ep in *.
  assert (Elast : a_start <$> active_of segs = Some sg.1).
  { unfold active_of. by rewrite Es, app_assoc, last_snoc. }
  unfold active_of in Elast. rewrite Elast.
  erewrite M_bind_Ok; [|rewrite Es at 1 2; apply purge_loop_ok; [by rewrite <-Es|done..]].
  cbv beta. eexists. split_and!; [apply on_self_ok| |done].
  split; cbn.
  - apply disk_rep_drop_prefix; [by rewrite <-Es|by destruct init].
  - rewrite Hst. by eapply purge_starts.
  - rewrite Hact. unfold active_of. by rewrite Es, app_assoc, !last_snoc.
  - done.
  - intros _. rewrite Hnp. by apply Hnext.
Qed.

(** The records served afterwards, whichever covered segments are gone. *)
Lemma drop_visible segs b c floor index :
  floor ≤ index → segs = b ++ c → Forall (λ x, seg_end x - 1 ≤ index) b →
  visible index c = filter (λ kv, index < kv.1) (visible floor segs).
Proof.
  intros Hle -> Hb. unfold visible.
  rewrite all_entries_app, list_filter_filter, filter_app, (list_filter_none _ (all_entries b)).
  - cbn. apply list_filter_iff. intros [k p]. cbn. lia.
  - intros [k p] Hin. assert (Hk : k ∈ (all_locs b).*1).
    { rewrite keys_all_locs. apply list_elem_of_fmap. by exists (k, p). }
    apply list_elem_of_fmap in Hk as ([k' loc] & -> & (x & Hx & _ & Hk)%elem_of_all_locs).
    rewrite Forall_forall in Hb. specialize (Hb _ Hx). cbn in *. lia.
Qed.

Lemma truncate_visible segs floor index :
  visible floor (cut_segs index segs) = filter (λ kv, kv.1 < index) (visible floor segs).
Proof. unfold visible. by rewrite <-all_entries_cut, filter_comm. Qed.
End LogPurge.
