(* ===== verification/LogCrash.v ===== *)
(** * The segmented log: crashes

    A crash keeps a prefix of every file that contains at least what was synced.
    What is left of a log directory represents the same segments with the last
    one cut somewhere above its synced records, possibly in the middle of a
    frame; [open_rep] then recovers exactly the whole frames. *)

From S2P Require Import Prelude Bytes CoreError FileSys SegmentedLog LogScan LogInv LogOps LogTrunc.

Open Scope Z_scope.

Section LogCrash.
Context `{Crc32c}.

(** A prefix of a segment is a number of whole frames and a torn one. *)
Lemma take_frames ps n :
  Forall (λ p, blen p < two32) ps →
  ∃ k tail, take n (seg_bytes ps) = seg_bytes (take k ps) ++ tail ∧ torn tail
    ∧ (k ≤ length ps)%nat
    ∧ ∀ j, (j ≤ length ps)%nat → (length (seg_bytes (take j ps)) ≤ n)%nat → (j ≤ k)%nat.
Proof.
  revert n. induction ps as [|p ps IH]; intros n Hp.
  { exists 0%nat, []. split_and!; [by destruct n|apply torn_nil|done|cbn; lia]. }
  apply Forall_cons in Hp as [Hp Hps].
  destruct (decide (n < length (frame p))%nat) as [Hlt|Hge].
  - exists 0%nat, (take n (frame p)). split_and!; [|by apply torn_partial_frame|lia|].
    + by rewrite seg_bytes_cons, take_app_le by lia.
    + intros [|j] _ Hj; [done|]. cbn [take] in Hj. rewrite seg_bytes_cons, length_app in Hj. lia.
  - destruct (IH (n - length (frame p))%nat Hps) as (k & tail & E & Ht & Hk & Hmax).
    exists (S k), tail. cbn [take length]. split_and!; [|done|lia|].
    + rewrite !seg_bytes_cons, take_app_ge, E by lia. by rewrite app_assoc.
    + intros [|j] Hj1 Hj2; [lia|]. cbn [take] in Hj2. rewrite seg_bytes_cons, length_app in Hj2.
      apply le_n_S, Hmax; lia.
Qed.

(** The first [j] records of the last segment have reached stable storage. *)
Definition synced_upto (d : dir) (sg : segment) (j : nat) : Prop :=
  (j ≤ length sg.2)%nat ∧
  ∃ f, d !! segment_path sg.1 = Some f ∧ (length (seg_bytes (take j sg.2)) ≤ f_synced f)%nat.

(** The segments a crash leaves: the last one keeps [k] records. *)
Inductive crash_segs (d : dir) : list segment → list segment → Prop :=
| crash_none : crash_segs d [] []
| crash_last init sg k :
    (k ≤ length sg.2)%nat → (∀ j, synced_upto d sg j → (j ≤ k)%nat) →
    crash_segs d (init ++ [sg]) (init ++ [(sg.1, take k sg.2)]).

Lemma crash_only d d' segs tail :
  crash d d' → disk_rep d segs tail →
  ∀ name f s, d' !! name = Some f → parse_segment_name name = Some s →
    s ∈ segs.*1 ∧ name = segment_path s.
Proof.
  intros Hc Hd name f s Hf Hp. specialize (Hc name). rewrite Hf in Hc. inv Hc.
  by eapply (dr_only _ _ _ Hd).
Qed.

Lemma crash_sealed d d' sg : crash d d' → sealed_file d sg → sealed_file d' sg.
Proof.
  intros Hc (f & Hf & E & Hs). destruct (crash_lookup _ _ _ _ Hc Hf) as (f' & Hf' & Hcf).
  exists f'. pose proof (crash_file_synced _ _ Hs Hcf) as E'.
  destruct Hcf as (_ & _ & _ & Hsy). split_and!; [done|congruence|lia].
Qed.

Lemma crash_rep d d' segs :
  disk_rep d segs [] → crash d d' →
  ∃ segs' tail, crash_segs d segs segs' ∧ disk_rep d' segs' tail ∧ all_synced d'.
Proof.
  intros Hd Hc. destruct segs as [|sg init _] using rev_ind.
  { exists [], []. split_and!; [constructor| |by eapply crash_all_synced].
    split; [done|constructor|by intros [] ? [=]|apply torn_nil|by eapply crash_only]. }
  destruct (dr_files _ _ _ Hd _ _ eq_refl) as (Hs & Hne & (f & Hf & Hdata)). rewrite app_nil_r in Hdata.
  pose proof (dr_ok _ _ _ Hd) as [Hoki [Hok _]%Forall_cons]%Forall_app.
  destruct (crash_lookup _ _ _ _ Hc Hf) as (f' & Hf' & (n & Hn & Hdata' & Hsy)).
  destruct (take_frames sg.2 n (so_payloads _ Hok)) as (k & tail & E & Ht & Hk & Hmax).
  exists (init ++ [(sg.1, take k sg.2)]), tail. split_and!; [|split|by eapply crash_all_synced].
  - constructor; [done|]. intros j [Hj (g & Hg & Hlen)]. simplify_eq. apply Hmax; [done|lia].
  - rewrite (first_start_snoc _ sg) by done. eapply chain_snoc_update; [|apply Hd]. done.
  - apply Forall_app. split; [done|]. constructor; [|done]. by apply seg_ok_take.
  - intros init' sg' [<- <-]%app_inj_tail. split_and!; [|done|].
    + rewrite Forall_forall in Hs. apply Forall_forall. intros x Hx. by eapply crash_sealed, Hs.
    + exists f'. split; [done|]. by rewrite Hdata', Hdata.
  - done.
  - intros name g s Hg Hp. destruct (crash_only _ _ _ _ Hc Hd _ _ _ Hg Hp) as [Hin ->].
    rewrite fmap_app in *. done.
Qed.

(** Opening keeps every file fully synced. *)
Lemma crash_segs_next d segs segs' :
  crash_segs d segs segs' → next_index segs' ≤ next_index segs.
Proof.
  intros []; [done|]. rewrite !next_index_snoc. unfold seg_end, zlen. cbn.
  rewrite length_take. lia.
Qed.

(** What is left is a prefix of the records. *)
Lemma crash_segs_entries d segs segs' s0 :
  crash_segs d segs segs' → chain s0 segs →
  all_entries segs' = filter (λ kv, kv.1 < next_index segs') (all_entries segs).
Proof.
  intros [|init sg k Hk _] Hc; [done|].
  rewrite next_index_snoc, !all_entries_app, !all_entries_one, filter_app.
  unfold seg_entries, seg_end. cbn [fst snd]. rewrite filter_entries_from.
  unfold zlen. rewrite length_take. f_equal; [|do 2 f_equal; lia].
  symmetry. apply list_filter_all. intros [i p] Hin. cbn.
  assert (Hi : i ∈ (all_locs init).*1).
  { rewrite keys_all_locs. apply list_elem_of_fmap. by exists (i, p). }
  apply list_elem_of_fmap in Hi as ([i' loc] & -> & (x & Hx & _ & Hi)%elem_of_all_locs).
  assert (seg_end x ≤ sg.1) by (eapply chain_end_le; [exact Hc|done|set_solver]). cbn in *. lia.
Qed.
End LogCrash.
