(* ===== verification/LogSpec.v ===== *)
(** * The segmented log: abstract specification and refinement

    An abstract log is the list of records it serves, the purge floor, the next
    index and a durability mark: records below the mark survive a crash.  Every
    operation of [log.rs] called within its contract returns [Ok] and simulates
    the abstract operation; a crash followed by [open] loses at most records
    above the durability mark. *)

From S2P Require Import Prelude Bytes CoreError FileSys SegmentedLog LogScan LogInv LogOps LogTrunc LogPurge LogCrash.

Open Scope Z_scope.

(** ** Effects on the directory, operation by operation *)

Section respects.
Context (R : relation dir) `{!PreOrder R}.

Definition respects {A} (m : M LogSt Error A) : Prop := ∀ st, R (disk st) (disk (m st).2).

Lemma respects_ret {A} (a : A) : respects (mret a).
Proof. intros st. reflexivity. Qed.
Lemma respects_lift {A} (r : result Error A) : respects (lift r).
Proof. intros st. reflexivity. Qed.
Lemma respects_throw {A} (e : Error) : respects (throw e : M LogSt Error A).
Proof. intros st. reflexivity. Qed.
Lemma respects_get_self : respects get_self.
Proof. intros st. reflexivity. Qed.
Lemma respects_on_self f : respects (on_self f).
Proof. intros st. reflexivity. Qed.
Lemma respects_bind {A B} (m : M LogSt Error A) (f : A → M LogSt Error B) :
  respects m → (∀ a, respects (f a)) → respects (m ≫= f).
Proof.
  intros Hm Hf st. unfold mbind, M_bind. specialize (Hm st).
  destruct (m st) as [[a|e|w] st']; cbn in *; [|done|done]. etrans; [exact Hm|apply Hf].
Qed.
Lemma respects_io {A} (m : IO A) : (∀ d, R d (m d).2) → respects (io m).
Proof.
  intros Hm st. unfold io, mapE, zoom. specialize (Hm (disk st)). by destruct (m (disk st)).
Qed.
Lemma respects_for_each {A} (l : list A) (body : A → M LogSt Error unit) :
  (∀ x, respects (body x)) → respects (for_each l body).
Proof.
  intros Hb. induction l as [|x l IH]; [apply respects_ret|]. cbn [for_each].
  by apply respects_bind.
Qed.
Lemma respects_open_existing name : respects (io (open_existing name)).
Proof.
  apply respects_io. intros d. unfold open_existing, fs_lookup, mbind, M_bind.
  destruct (d !! name); reflexivity.
Qed.
Lemma respects_metadata_len name : respects (io (metadata_len name)).
Proof.
  apply respects_io. intros d. unfold metadata_len, fs_lookup, mbind, M_bind.
  destruct (d !! name); reflexivity.
Qed.
End respects.

Lemma grows_fsync name : respects grows (io (fsync name)).
Proof.
  apply respects_io. intros d. unfold fsync, fs_lookup, mbind, M_bind.
  destruct (d !! name) as [f|] eqn:E; [|done].
  eapply grows_insert; [done|cbn; lia..].
Qed.
Lemma grows_write_all name bs : respects grows (io (write_all name bs)).
Proof.
  apply respects_io. intros d. unfold write_all, fs_lookup, mbind, M_bind.
  destruct (d !! name) as [f|] eqn:E; [|done].
  eapply grows_insert; [done|cbn; rewrite ?length_app; lia..].
Qed.
Lemma grows_open_create_append name : respects grows (io (open_create_append name)).
Proof.
  apply respects_io. intros d. unfold open_create_append.
  destruct (d !! name) eqn:E; [done|]. by apply grows_insert_new.
Qed.
Lemma settled_remove_file name : respects settled (io (remove_file name)).
Proof.
  apply respects_io. intros d. unfold remove_file, fs_lookup, mbind, M_bind.
  destruct (d !! name); [|done]. apply settled_delete.
Qed.

Create HintDb log_respects.
#[export] Hint Resolve respects_ret respects_lift respects_throw respects_get_self
  respects_on_self respects_open_existing respects_metadata_len grows_fsync grows_write_all
  grows_open_create_append settled_remove_file : log_respects.

(** Walk through a method, one file operation at a time. *)
Ltac walk := repeat first
  [ solve [eauto with log_respects typeclass_instances]
  | apply respects_bind; [apply _| |intros ?]
  | apply respects_for_each; [apply _|intros ?]
  | case_match ].

(** ** The abstract log *)

Record alog := {
  al_entries : list (Z * list byte);
  al_floor : Z;
  al_next : option Z;
  al_durable : Z;
  (** purged records whose bytes may still be on disk *)
  al_past : list (Z * list byte)
}.

Inductive log_op :=
| OpAppend (index : Z) (payload : list byte)
| OpSync
| OpTruncate (index : Z)
| OpPurge (index : Z).

(** The index an append must use: the next one, or any above the floor while the
    log has never held a record. *)
Definition index_allowed (a : alog) (index : Z) : Prop :=
  match al_next a with
  | None => al_floor a < index
  | Some n => index = n
  end.

(** The abstract operations, with the caller's obligations as guards. *)
Inductive astep : alog → log_op → alog → Prop :=
| astep_append a index p :
    index_allowed a index → 0 ≤ index → index + 1 < two64 → blen p < two32 →
    astep a (OpAppend index p)
      {| al_entries := al_entries a ++ [(index, p)]; al_floor := al_floor a;
         al_next := Some (index + 1);
         al_durable := if al_next a is None then index else al_durable a `min` index;
         al_past := al_past a |}
| astep_sync a :
    astep a OpSync
      {| al_entries := al_entries a; al_floor := al_floor a; al_next := al_next a;
         al_durable := default (al_durable a) (al_next a); al_past := al_past a |}
| astep_truncate a index :
    al_floor a < index →
    astep a (OpTruncate index)
      {| al_entries := filter (λ kv, kv.1 < index) (al_entries a); al_floor := al_floor a;
         al_next := Z.min index <$> al_next a; al_durable := al_durable a `min` index;
         al_past := al_past a |}
| astep_purge a index :
    al_floor a ≤ index → (∀ n, al_next a = Some n → index < n) →
    astep a (OpPurge index)
      {| al_entries := filter (λ kv, index < kv.1) (al_entries a); al_floor := index;
         al_next := al_next a; al_durable := al_durable a;
         al_past := al_past a ++ filter (λ kv, kv.1 ≤ index) (al_entries a) |}.

(** What a crash and a reopen may do: keep the records below some [m] that is at
    least the durability mark.  The purge floor is gone; purged records may be
    served again until the owner purges anew, but nothing else. *)
Definition crashed (a a' : alog) : Prop :=
  ∃ m, al_durable a ≤ m
    ∧ filter (λ kv, al_floor a < kv.1) (al_entries a') = filter (λ kv, kv.1 < m) (al_entries a)
    ∧ (∀ kv, kv ∈ al_entries a' → kv ∈ al_entries a ∨ kv ∈ al_past a)
    ∧ al_floor a' = -1 ∧ al_past a' = []
    ∧ (al_next a' = Some m ∧ al_durable a' = m ∧ (∃ n, al_next a = Some n ∧ m ≤ n)
       ∨ al_next a' = None ∧ al_entries a' = []).

(** The log of an empty directory. *)
Definition alog_empty : alog :=
  {| al_entries := []; al_floor := -1; al_next := None; al_durable := 0; al_past := [] |}.

Section LogSpec.
Context `{Crc32c}.

Definition run_op (o : log_op) : M LogSt Error unit :=
  match o with
  | OpAppend index p => append index p
  | OpSync => sync
  | OpTruncate index => truncate_from index
  | OpPurge index => purge_through index
  end.

Lemma append_grows i p : respects grows (append i p).
Proof. unfold append, append_frame, rotate. walk. Qed.

Lemma cut_frame_settled i cut : respects settled (cut_frame i cut).
Proof.
  intros [l d]. destruct cut as [[s o]|]; [|done]. destruct (decide (s < i)) as [Hs|Hs].
  - destruct (d !! segment_path s) as [f|] eqn:Hf.
    + rewrite (cut_frame_file _ _ _ _ _ _ Hs Hf). by apply settled_insert.
    + unfold cut_frame. rewrite decide_True by done. unfold io, mapE, zoom, open_existing, fs_lookup,
        mbind, M_bind. cbn. by rewrite Hf.
  - unfold cut_frame. by rewrite decide_False.
Qed.

#[local] Hint Resolve cut_frame_settled : log_respects.

Lemma truncate_settled i : respects settled (truncate_from i).
Proof. unfold truncate_from, reopen_active. walk. Qed.

Lemma purge_settled i : respects settled (purge_through i).
Proof. unfold purge_through, purge_step. walk. Qed.

(** ** The refinement relation *)

(** Segment files stay within one record of the rotation threshold. *)
Definition small_segs (max : Z) (segs : list segment) : Prop :=
  Forall (λ sg, blen (seg_bytes sg.2) < max + HEADER_BYTES + two32) segs.

Definition next_rel (a : alog) (segs : list segment) : Prop :=
  match al_next a with
  | None => segs = []
  | Some n => al_floor a < n ∧ (segs ≠ [] → next_index segs = n)
  end.

Definition durable_rel (d : dir) (durable : Z) (segs : list segment) : Prop :=
  ∀ init sg, segs = init ++ [sg] →
    durable ≤ seg_end sg ∧ synced_upto d sg (Z.to_nat (durable - sg.1)).

Record log_rel (max : Z) (st : LogSt) (a : alog) : Prop := {
  lr_max : segment_max_bytes (slf st) = max;
  lr_segs : ∃ segs, log_inv st segs (al_floor a) ∧ al_entries a = visible (al_floor a) segs
    ∧ small_segs max segs ∧ next_rel a segs ∧ durable_rel (disk st) (al_durable a) segs
    ∧ ∀ kv, kv ∈ all_entries segs → kv ∈ al_entries a ∨ kv ∈ al_past a
}.

Lemma push_record_small max index p segs :
  0 ≤ max → small_segs max segs → blen p < two32 → small_segs max (push_record max index p segs).
Proof.
  intros Hm Hs Hp. unfold push_record, small_segs in *.
  assert (H1 : ∀ i : Z, blen (seg_bytes (i, [p]).2) < max + HEADER_BYTES + two32).
  { intros i. cbn [snd]. rewrite blen_seg_bytes_cons. change (blen (seg_bytes [])) with 0. lia. }
  destruct segs as [|sg init _] using rev_ind; [by repeat constructor|].
  rewrite last_snoc. case_decide as Hd; [apply Forall_app; by repeat constructor|].
  rewrite removelast_last. apply Forall_app in Hs as [Hs _]. apply Forall_app. split; [done|].
  constructor; [|done]. cbn [snd]. rewrite seg_bytes_snoc, blen_app, blen_frame.
  destruct (decide (sg.2 = [])) as [->|Hne].
  - change (blen (seg_bytes [])) with 0. lia.
  - assert (blen (seg_bytes sg.2) < max) by (apply Znot_ge_lt; intros ?; apply Hd; split; [lia|done]).
    lia.
Qed.

Lemma length_seg_bytes_take j k ps :
  (j ≤ k)%nat → (length (seg_bytes (take j ps)) ≤ length (seg_bytes (take k ps)))%nat.
Proof.
  intros Hle. replace (take j ps) with (take j (take k ps)) by (rewrite take_take; f_equal; lia).
  rewrite <-(take_drop j (take k ps)) at 2. rewrite seg_bytes_app, length_app. lia.
Qed.

Lemma synced_full d sg j f :
  d !! segment_path sg.1 = Some f → f_data f = seg_bytes sg.2 →
  (length (f_data f) ≤ f_synced f)%nat → (j ≤ length sg.2)%nat → synced_upto d sg j.
Proof.
  intros Hf Hd Hs Hj. split; [done|]. exists f. split; [done|].
  pose proof (length_seg_bytes_take j (length sg.2) sg.2 Hj) as Hl.
  rewrite firstn_all in Hl. rewrite Hd in Hs. lia.
Qed.

Lemma synced_zero d segs tail sg : disk_rep d segs tail → sg ∈ segs → synced_upto d sg 0.
Proof.
  intros Hd Hin. destruct (disk_rep_file _ _ _ _ Hd Hin) as [f Hf].
  split; [lia|]. exists f. split; [done|]. apply le_0_n.
Qed.

Lemma synced_grows d d' sg p j :
  grows d d' → tail_file d sg [] → synced_upto d sg j → synced_upto d' (sg.1, sg.2 ++ [p]) j.
Proof.
  intros Hg (g & Hgf & Hdata) [Hj (f & Hf & Hs)].
  assert (g = f) as -> by congruence. rewrite app_nil_r in Hdata.
  destruct (Hg _ _ Hf) as (f' & Hf' & _ & Hs'). split; cbn [fst snd]; [rewrite length_app; lia|].
  exists f'. split; [done|]. rewrite take_app_le by done.
  pose proof (length_seg_bytes_take j (length sg.2) sg.2 Hj) as Hl.
  rewrite firstn_all, <-Hdata in Hl. lia.
Qed.

Lemma durable_rel_mono d durable durable' segs :
  durable' ≤ durable → durable_rel d durable segs → durable_rel d durable' segs.
Proof.
  intros Hle Hdur init sg ->. destruct (Hdur _ _ eq_refl) as [H1 [H2 (f & Hf & Hl)]].
  split; [lia|]. split; [lia|]. exists f. split; [done|].
  etrans; [|exact Hl]. apply length_seg_bytes_take. lia.
Qed.

Lemma append_durable d d' segs durable max index p :
  disk_rep d segs [] → disk_rep d' (push_record max index p segs) [] → grows d d' →
  (segs ≠ [] → index = next_index segs) → durable ≤ index →
  durable_rel d durable segs → durable_rel d' durable (push_record max index p segs).
Proof.
  intros Hd Hd' Hg Hnext Hdi Hdur init' sg' E.
  assert (Hnew : sg' = (index, [p]) →
    durable ≤ seg_end sg' ∧ synced_upto d' sg' (Z.to_nat (durable - sg'.1))).
  { intros ->. unfold seg_end, zlen. cbn [fst snd length].
    replace (Z.to_nat (durable - index)) with 0%nat by lia.
    split; [lia|]. eapply synced_zero; [exact Hd'|]. rewrite E. set_solver. }
  unfold push_record in E. destruct segs as [|sg init _] using rev_ind.
  { apply Hnew. change [(index, [p])] with ([] ++ [(index, [p])]) in E.
    by apply app_inj_tail in E as [_ <-]. }
  rewrite last_snoc, removelast_last in E.
  case_decide; apply app_inj_tail in E as [<- <-]; [by apply Hnew|].
  destruct (Hdur _ _ eq_refl) as [Hle Hsy]. split.
  - unfold seg_end in *. cbn. rewrite zlen_app. pose proof (zlen_nonneg [p]). lia.
  - cbn [fst]. eapply synced_grows; [exact Hg| |exact Hsy].
    eapply disk_rep_clean_file; [exact Hd|set_solver].
Qed.

Lemma append_sim max st a index p a' :
  0 ≤ max < 2 ^ 63 → log_rel max st a → astep a (OpAppend index p) a' →
  ∃ st', run_op (OpAppend index p) st = (Ok tt, st') ∧ log_rel max st' a'.
Proof.
  intros Hm Hr Hstep. inv Hstep as [? ? ? Hal H0 H1 Hp| | |].
  destruct Hr as [Emax (segs & Hi & He & Hsm & Hn & Hdur & Hpast)].
  assert (Hnext : segs ≠ [] → index = next_index segs).
  { unfold index_allowed, next_rel in *. destruct (al_next a); [|done]. destruct Hn as [_ Hn].
    intros Hne. rewrite (Hn Hne). done. }
  assert (Hfl : al_floor a < index).
  { unfold index_allowed, next_rel in *. destruct (al_next a); [|done]. destruct Hn as [Hn _]. by subst. }
  destruct (append_inv st segs (al_floor a) index p Hi Hnext) as (st' & E & Hi' & Em'); try done.
  { unfold active_bytes. destruct (last segs) as [sg|] eqn:El; [|unfold HEADER_BYTES, two32, two64 in *; lia].
    unfold small_segs in Hsm. rewrite Forall_forall in Hsm. apply last_Some_elem_of, Hsm in El.
    unfold HEADER_BYTES, two32, two64 in *. lia. }
  exists st'. split; [done|]. split; [congruence|]. cbn.
  exists (push_record (segment_max_bytes (slf st)) index p segs). rewrite Emax in *.
  split; [done|]. split; [by rewrite push_record_visible, He|].
  split; [apply push_record_small; (done || lia)|]. split.
  - unfold next_rel. cbn [al_next al_floor]. split; [lia|]. intros _. by apply push_record_next.
  - split.
    + eapply append_durable; [apply Hi|apply Hi'| |done|case_match; lia|].
      { pose proof (append_grows index p st) as Hg. by rewrite E in Hg. }
      unfold next_rel in Hn. destruct (al_next a); [eapply durable_rel_mono, Hdur; lia|].
      subst segs. by intros [] ? [=].
    + intros kv. rewrite push_record_entries by done. cbn. set_solver.
Qed.

Lemma sync_sim max st a a' :
  log_rel max st a → astep a OpSync a' →
  ∃ st', run_op OpSync st = (Ok tt, st') ∧ log_rel max st' a'.
Proof.
  intros Hr Hstep. inv Hstep. destruct Hr as [Emax (segs & Hi & He & Hsm & Hn & Hdur & Hpast)].
  destruct (sync_inv _ _ _ Hi) as (st' & E & Es & Hi' & Hseal).
  exists st'. split; [done|]. split; [congruence|]. cbn. exists segs. do 4 (split; [done|]).
  split; [|done]. intros init sg ->. apply Forall_app in Hseal as [_ [(f & Hf & Hd & Hs) _]%Forall_cons].
  assert (Hne : init ++ [sg] ≠ []) by (by destruct init).
  unfold next_rel in Hn. destruct (al_next a) as [n|]; [|done]. cbn.
  destruct Hn as [_ Hn]. specialize (Hn Hne). rewrite next_index_snoc in Hn. subst n.
  split; [done|]. eapply synced_full; [done|done|done|]. unfold seg_end, zlen. lia.
Qed.

(** Cutting or dropping segments keeps the synced part of the last one. *)
Lemma settled_durable d d' segs segs' durable init sg :
  disk_rep d segs [] → disk_rep d' segs' [] → settled d d' →
  durable_rel d durable segs → segs' = init ++ [sg] →
  (∃ sg0, sg0 ∈ segs ∧ sg.1 = sg0.1 ∧ ∃ k, sg.2 = take k sg0.2) →
  durable ≤ seg_end sg → synced_upto d' sg (Z.to_nat (durable - sg.1)).
Proof.
  intros Hd Hd' Hset Hdur -> (sg0 & Hin0 & Es & k & Ek) Hle.
  assert (Hj : (Z.to_nat (durable - sg.1) ≤ length sg.2)%nat) by (unfold seg_end, zlen in Hle; lia).
  destruct (disk_rep_clean_file d' _ sg Hd') as (f & Hf & Hdata); [set_solver|].
  rewrite app_nil_r in Hdata.
  destruct (Hset _ _ Hf) as [Hf0|Hfull]; [|eapply synced_full; eauto; lia].
  destruct segs as [|lst ini _] using rev_ind; [by apply elem_of_nil in Hin0|].
  apply elem_of_app in Hin0 as [Hin0| ->%list_elem_of_singleton].
  - destruct (dr_files _ _ _ Hd _ _ eq_refl) as (Hs & _ & _). rewrite Forall_forall in Hs.
    destruct (Hs _ Hin0) as (g & Hg & _ & Hlen). rewrite Es in Hf0. simplify_eq.
    by eapply synced_full.
  - destruct (Hdur _ _ eq_refl) as [_ [Hj0 (g & Hg & Hlen)]]. rewrite Es in *. simplify_eq.
    split; [done|]. exists f. rewrite Es. split; [done|]. rewrite Ek, take_take.
    etrans; [|exact Hlen]. apply length_seg_bytes_take. lia.
Qed.

Lemma next_index_ge s0 segs x : chain s0 segs → x ∈ segs → seg_end x ≤ next_index segs.
Proof.
  intros Hc Hin. destruct segs as [|sg init _] using rev_ind; [by apply elem_of_nil in Hin|].
  rewrite next_index_snoc. apply elem_of_app in Hin as [Hin| ->%list_elem_of_singleton]; [|done].
  assert (seg_end x ≤ sg.1) by (eapply chain_end_le; [exact Hc|done|set_solver]).
  unfold seg_end in *. pose proof (zlen_nonneg sg.2). lia.
Qed.

Lemma cut_segs_last index segs s0 init sg :
  chain s0 segs → StronglySorted Z.lt segs.*1 → cut_segs index segs = init ++ [sg] →
  seg_end sg = index `min` next_index segs.
Proof.
  intros Hc Hs E. pose proof (filter_sorted_split index segs Hs) as Hsplit.
  set (b := filter (λ sg : segment, ¬ sg.1 < index) segs) in Hsplit.
  destruct (filter (λ sg : segment, sg.1 < index) segs) as [|x a _] eqn:Ea using rev_ind.
  { unfold cut_segs in E. rewrite Ea in E. by destruct init. }
  rewrite (cut_segs_snoc index segs a x s0 Hc Ea Hsplit) in E. apply app_inj_tail in E as [_ <-].
  assert (Hx : x.1 < index).
  { assert (Hin : x ∈ filter (λ sg : segment, sg.1 < index) segs) by (rewrite Ea; set_solver).
    by apply list_elem_of_filter in Hin as []. }
  unfold seg_end, zlen. cbn [fst snd]. rewrite length_take.
  destruct b as [|y b'] eqn:Eb.
  - rewrite Hsplit, app_nil_r, next_index_snoc. unfold seg_end, zlen. lia.
  - assert (Hy : y ∈ b) by (rewrite Eb; set_solver).
    apply list_elem_of_filter in Hy as [Hy Hin]. clear Eb.
    pose proof (next_index_ge _ _ _ Hc Hin) as Hge.
    rewrite Hsplit, <-app_assoc in Hc. apply chain_next_start in Hc.
    unfold seg_end, zlen in *. lia.
Qed.

Lemma small_segs_cut max index segs : small_segs max segs → small_segs max (cut_segs index segs).
Proof.
  unfold small_segs. intros Hs. rewrite Forall_forall in Hs. apply Forall_forall.
  intros x (sg & -> & [_ Hin]%list_elem_of_filter)%list_elem_of_fmap. cbn [snd].
  specialize (Hs _ Hin). rewrite <-(take_drop (Z.to_nat (index - sg.1)) sg.2), seg_bytes_app, blen_app in Hs.
  pose proof (blen_nonneg (seg_bytes (drop (Z.to_nat (index - sg.1)) sg.2))). lia.
Qed.

Lemma truncate_sim max st a index a' :
  log_rel max st a → astep a (OpTruncate index) a' →
  ∃ st', run_op (OpTruncate index) st = (Ok tt, st') ∧ log_rel max st' a'.
Proof.
  intros Hr Hstep. inv Hstep as [| |? ? Hfl|]. destruct Hr as [Emax (segs & Hi & He & Hsm & Hn & Hdur & Hpast)].
  destruct (truncate_inv _ _ _ _ Hi Hfl) as (st' & E & Hi' & Em).
  exists st'. split; [done|]. split; [congruence|]. cbn. exists (cut_segs index segs).
  pose proof (dr_chain _ _ _ (li_disk _ _ _ Hi)) as Hc.
  pose proof (disk_rep_starts_sorted _ _ _ (li_disk _ _ _ Hi)) as Hs.
  split; [done|]. split; [by rewrite truncate_visible, He|]. split; [by apply small_segs_cut|]. split; [|split].
  - unfold next_rel in *. cbn. destruct (al_next a) as [n|]; cbn; [|by rewrite Hn].
    destruct Hn as [Hf Hn]. split; [lia|]. intros Hne.
    destruct (exists_last Hne) as (init & sg & Ec). rewrite Ec, next_index_snoc.
    rewrite (cut_segs_last _ _ _ _ _ Hc Hs Ec), Hn; [done|]. by intros ->.
  - intros init sg Ec. pose proof (cut_segs_last _ _ _ _ _ Hc Hs Ec) as Hend.
    assert (Hle : al_durable a `min` index ≤ seg_end sg).
    { destruct segs as [|lst ini _] using rev_ind; [by destruct init|].
      destruct (Hdur _ _ eq_refl) as [? _]. rewrite next_index_snoc in Hend. lia. }
    split; [done|].
    assert (Hsub : ∃ sg0, sg0 ∈ segs ∧ sg.1 = sg0.1 ∧ ∃ k, sg.2 = take k sg0.2).
    { assert (Hin : sg ∈ cut_segs index segs) by (rewrite Ec; set_solver).
      apply list_elem_of_fmap in Hin as (sg0 & -> & [_ Hin]%list_elem_of_filter). eauto. }
    pose proof (truncate_settled index st) as Hset. rewrite E in Hset. cbn in Hset.
    eapply settled_durable; [apply Hi|apply Hi'|done| |exact Ec|done|done].
    eapply durable_rel_mono, Hdur. lia.
  - intros kv. rewrite <-all_entries_cut. intros [Hk Hin]%list_elem_of_filter.
    destruct (Hpast kv Hin) as [?|?]; [left|by right]. by apply list_elem_of_filter.
Qed.

(** A log whose covered segments [b] are gone from the disk, in part or all of them. *)
Lemma purged_rel max st st' a index a' segs b c :
  astep a (OpPurge index) a' → segment_max_bytes (slf st') = max →
  (log_inv st segs (al_floor a) ∧ al_entries a = visible (al_floor a) segs
    ∧ small_segs max segs ∧ next_rel a segs ∧ durable_rel (disk st) (al_durable a) segs
    ∧ ∀ kv, kv ∈ all_entries segs → kv ∈ al_entries a ∨ kv ∈ al_past a) →
  segs = b ++ c → (segs ≠ [] → c ≠ []) → Forall (λ x, seg_end x - 1 ≤ index) b →
  log_inv st' c index → settled (disk st) (disk st') → log_rel max st' a'.
Proof.
  intros Hstep Emax (Hi & He & Hsm & Hn & Hdur & Hpast). inv Hstep as [| | |? ? Hfl Hlt]. intros Eb Hc Hb Hi' Hset.
  split; [done|]. cbn. exists c.
  split; [done|]. split; [rewrite He; symmetry; by eapply drop_visible|]. split; [|split; [|split]].
  - unfold small_segs in *. rewrite Eb in Hsm. by apply Forall_app in Hsm as [_ ?].
  - unfold next_rel in *. cbn. destruct (al_next a) as [n|]; [|by rewrite Hn in Eb; symmetry in Eb; apply app_nil in Eb as [_ ->]].
    destruct Hn as [Hf Hn]. split; [auto|]. intros Hne. destruct (exists_last Hne) as (init & sg & ->).
    rewrite app_assoc in Eb. rewrite next_index_snoc, <-(next_index_snoc (b ++ init)), <-Eb. apply Hn. rewrite Eb. by destruct (b ++ init).
  - intros init sg Ec. assert (Hin : sg ∈ segs) by (rewrite Eb, Ec; set_solver).
    destruct (Hdur (b ++ init) sg) as [Hle _]; [rewrite Eb, Ec; by rewrite app_assoc|].
    split; [done|]. eapply settled_durable; [apply Hi|apply Hi'|done|done|exact Ec| |done].
    exists sg. split_and!; [done|done|]. exists (length sg.2). by rewrite firstn_all.
  - intros kv Hin. assert (Hall : kv ∈ all_entries segs) by (rewrite Eb, all_entries_app; set_solver).
    destruct (Hpast kv Hall) as [Hin'|?]; [|set_solver].
    destruct (decide (index < kv.1)); [left; by apply list_elem_of_filter|right].
    apply elem_of_app. right. apply list_elem_of_filter. split; [lia|done].
Qed.

Lemma next_allowed a segs index n :
  next_rel a segs → segs ≠ [] → (∀ n, al_next a = Some n → index < n) → next_index segs = n → index < n.
Proof.
  unfold next_rel. intros Hn Hne Hlt <-. destruct (al_next a) as [n|]; [|done]. destruct Hn as [_ Hn]. rewrite (Hn Hne). auto.
Qed.

Lemma purge_sim max st a index a' :
  log_rel max st a → astep a (OpPurge index) a' →
  ∃ st', run_op (OpPurge index) st = (Ok tt, st') ∧ log_rel max st' a'.
Proof.
  intros [Emax (segs & Hrep)] Hstep. inversion Hstep as [| | |? ? Hfl Hlt]; subst. pose proof Hrep as (Hi & _ & _ & Hn & _).
  destruct (purge_inv _ _ _ _ Hi Hfl) as (st' & E & Hi' & Em); [intros Hne; by eapply next_allowed|].
  exists st'. split; [done|]. destruct (purge_segs_split index segs) as (b & Eb & Hb).
  eapply purged_rel; [exact Hstep|done|exact Hrep|exact Eb|apply purge_segs_nonempty|done|done|].
  pose proof (purge_settled index st) as Hset. by rewrite E in Hset.
Qed.

(** ** Crash and reopen *)

Lemma visible_all d segs tail : disk_rep d segs tail → visible (-1) segs = all_entries segs.
Proof.
  intros Hd. apply list_filter_all. intros [k p] Hk. cbn.
  rewrite (chain_all_entries _ _ (dr_chain _ _ _ Hd)) in Hk. apply elem_of_entries_from in Hk.
  pose proof (dr_ok _ _ _ Hd) as Hok. destruct segs as [|sg segs]; cbn in *.
  - unfold zlen in Hk; cbn in Hk; lia.
  - apply Forall_cons in Hok as [[] _]. lia.
Qed.

(** What a freshly opened, fully synced directory stands for. *)
Definition reopened (segs : list segment) : alog :=
  {| al_entries := visible (-1) segs; al_floor := -1;
     al_next := if decide (segs = []) then None else Some (next_index segs);
     al_durable := next_index segs; al_past := [] |}.

Lemma reopened_rel max l d segs :
  log_inv {| slf := l; disk := d |} segs (-1) → segment_max_bytes l = max → small_segs max segs →
  all_synced d → log_rel max {| slf := l; disk := d |} (reopened segs).
Proof.
  intros Hi Em Hs Hsy. split; [done|]. exists segs. do 3 (split; [done|]). split; [|split].
  - unfold next_rel, reopened. cbn. case_decide; [done|]. split; [|done].
    by apply (li_floor _ _ _ Hi).
  - intros init sg ->. cbn. rewrite next_index_snoc. split; [done|].
    destruct (disk_rep_clean_file d _ sg (li_disk _ _ _ Hi)) as (f & Hf & E); [set_solver|].
    rewrite app_nil_r in E. eapply synced_full; [done|done|by rewrite (Hsy _ _ Hf)|].
    unfold seg_end, zlen. lia.
  - cbn. intros kv Hin. left. by rewrite (visible_all _ _ _ (li_disk _ _ _ Hi)).
Qed.

Lemma small_segs_crash max d segs segs' :
  crash_segs d segs segs' → small_segs max segs → small_segs max segs'.
Proof.
  intros [|init sg k _ _]; [done|]. unfold small_segs. intros [Hi [Hs _]%Forall_cons]%Forall_app.
  apply Forall_app. split; [done|]. constructor; [|done]. cbn [snd].
  rewrite <-(take_drop k sg.2), seg_bytes_app, blen_app in Hs.
  pose proof (blen_nonneg (seg_bytes (drop k sg.2))). lia.
Qed.

Lemma settled_all_synced d d' : settled d d' → all_synced d → all_synced d'.
Proof. intros Hset Ha name f Hf. destruct (Hset _ _ Hf) as [?|?]; [|done]. by eapply Ha. Qed.

Lemma crash_segs_durable d segs segs' durable :
  crash_segs d segs segs' → durable_rel d durable segs → segs ≠ [] → durable ≤ next_index segs'.
Proof.
  intros [|init sg k Hk Hmax]; [done|]. intros Hdur _. destruct (Hdur _ _ eq_refl) as [Hle Hsy].
  apply Hmax in Hsy. rewrite next_index_snoc. unfold seg_end, zlen in *. cbn.
  rewrite length_take. lia.
Qed.

Lemma crash_sim max st a d :
  log_rel max st a → crash (disk st) d →
  ∃ l d' a', open_with_segment_max max d = (Ok l, d') ∧ crashed a a'
    ∧ log_rel max {| slf := l; disk := d' |} a'.
Proof.
  intros [Emax (segs & Hi & He & Hsm & Hn & Hdur & Hpast)] Hcr.
  pose proof (li_disk _ _ _ Hi) as Hd.
  destruct (crash_rep _ _ _ Hd Hcr) as (segs' & tail & Hcs & Hd' & Hsy).
  destruct (open_rep _ _ _ max Hd') as (l & d2 & Eo & Em & Hi' & _ & Hset).
  exists l, d2, (reopened segs'). split; [done|]. split.
  - unfold crashed, reopened. cbn.
    rewrite (visible_all _ _ _ (li_disk _ _ _ Hi')),
      (crash_segs_entries _ _ _ _ Hcs (dr_chain _ _ _ Hd)).
    assert (Hsub : ∀ kv, kv ∈ filter (λ kv, kv.1 < next_index segs') (all_entries segs) →
                         kv ∈ visible (al_floor a) segs ∨ kv ∈ al_past a).
    { rewrite <-He. intros kv [_ Hin]%list_elem_of_filter. by apply Hpast. }
    rewrite He, filter_comm.
    destruct (decide (segs = [])) as [->|Hne].
    + inv Hcs as [E|init ? ? ? ? E]; [|by destruct init]. exists (al_durable a).
      split; [done|]. split; [done|]. split; [by intros ? ?%elem_of_nil|].
      do 2 (split; [done|]). by right.
    + exists (next_index segs'). split; [by eapply crash_segs_durable|]. do 4 (split; [done|]).
      case_decide as E.
      2: { left. do 2 (split; [done|]). unfold next_rel in Hn.
           destruct (al_next a) as [n|]; [|done]. exists n. split; [done|].
           destruct Hn as [_ Hn]. rewrite <-(Hn Hne). by eapply crash_segs_next. }
      destruct Hcs as [|init ? ? ? ?]; [done|by destruct init].
  - apply reopened_rel; [done|done|by eapply small_segs_crash|by eapply settled_all_synced].
Qed.

Lemma log_rel_fresh max :
  ∃ l, open_with_segment_max max ∅ = (Ok l, ∅) ∧ log_rel max {| slf := l; disk := ∅ |} alog_empty.
Proof.
  assert (Hd : disk_rep ∅ [] []).
  { split; [done|constructor|by intros [] ? [=]|apply torn_nil|done]. }
  destruct (open_rep _ _ _ max Hd) as (l & d & E & Em & Hi & Hsame & _). rewrite (Hsame eq_refl) in *.
  exists l. split; [done|]. split; [done|]. exists []. split; [done|]. split; [done|].
  split; [by apply Forall_nil|]. split; [done|]. split; [by intros [] ? [=]|].
  by intros ? ?%elem_of_nil.
Qed.
End LogSpec.
