(* ===== verification/LogCorrect.v ===== *)
(** * The segmented log: correctness theorems

    What a user of [SegmentedLog] may rely on, from an empty directory on: every
    history of calls within the contract, reads in between, crashes, and the calls
    outside the contract that lose records. *)

From S2P Require Import Prelude Bytes CoreError FileSys SegmentedLog LogScan LogInv LogOps LogTrunc LogPurge LogCrash.
From S2P Require Import LogSpec.

Open Scope Z_scope.

(** A history of calls, and its abstract counterpart. *)
Definition run_ops `{Crc32c} (ops : list log_op) : M LogSt Error unit := for_each ops run_op.

Inductive asteps : alog → list log_op → alog → Prop :=
| asteps_nil a : asteps a [] a
| asteps_cons a o a1 ops a2 : astep a o a1 → asteps a1 ops a2 → asteps a (o :: ops) a2.

Section LogCorrect.
Context `{Crc32c}.

Lemma run_op_sim max st a o a' :
  0 ≤ max < 2 ^ 63 → log_rel max st a → astep a o a' →
  ∃ st', run_op o st = (Ok tt, st') ∧ log_rel max st' a'.
Proof.
  intros Hm Hr Hs. destruct o; eauto using append_sim, sync_sim, truncate_sim, purge_sim.
Qed.

Lemma run_ops_sim max ops : ∀ st a a',
  0 ≤ max < 2 ^ 63 → log_rel max st a → asteps a ops a' →
  ∃ st', run_ops ops st = (Ok tt, st') ∧ log_rel max st' a'.
Proof.
  induction ops as [|o ops IH]; intros st a a' Hm Hr Hs; inv Hs; [by eexists|].
  destruct (run_op_sim max st a o a1) as (st1 & E1 & Hr1); [done..|].
  destruct (IH st1 a1 a') as (st2 & E2 & Hr2); [done..|].
  exists st2. split; [|done]. unfold run_ops. cbn [for_each].
  by rewrite (M_bind_Ok _ _ _ _ _ E1).
Qed.

Lemma log_rel_read_all max st a : log_rel max st a → read_all st = (Ok (al_entries a), st).
Proof. intros [_ (segs & Hi & -> & _)]. by apply read_all_inv. Qed.

Lemma log_rel_read_range max st a from to :
  log_rel max st a → from ≤ to →
  read_range from to st = (Ok (filter (λ kv, from ≤ kv.1 < to) (al_entries a)), st).
Proof. intros [_ (segs & Hi & -> & _)] Hle. by apply read_range_inv. Qed.

Lemma log_rel_last_index max st a :
  log_rel max st a → last_index (slf st) = fst <$> last (al_entries a).
Proof. intros [_ (segs & Hi & -> & _)]. by eapply last_index_inv. Qed.

(** The records of an abstract history: a contiguous run of indexes that ends
    just below the next index. *)
Definition contiguous (es : list (Z * list byte)) (next : option Z) : Prop :=
  match next with
  | None => es = []
  | Some n => ∃ ps, es = entries_from (n - zlen ps) ps
  end.

Lemma visible_contiguous d segs floor :
  disk_rep d segs [] → segs ≠ [] → ∃ ps, visible floor segs = entries_from (next_index segs - zlen ps) ps.
Proof.
  intros Hd Hne. unfold visible. rewrite (chain_all_entries _ _ (dr_chain _ _ _ Hd)).
  assert (Hend : next_index segs = first_start segs + zlen (concat segs.*2)).
  { pose proof (dr_chain _ _ _ Hd) as Hc. clear Hd. revert Hc.
    generalize (first_start segs). induction segs as [|sg segs IH]; intros s0; [done|]. intros [<- Hc].
    cbn [fmap list_fmap concat]. rewrite zlen_app. unfold seg_end in Hc.
    destruct segs as [|sg' segs]; [unfold next_index, seg_end; cbn; unfold zlen; cbn; lia|].
    specialize (IH ltac:(done) _ Hc). change (next_index (sg :: sg' :: segs)) with (next_index (sg' :: segs)).
    lia. }
  revert Hend. generalize (first_start segs) (concat segs.*2) (next_index segs).
  intros s ps n ->. revert s. induction ps as [|p ps IH]; intros s; [by exists []|].
  cbn [entries_from]. rewrite filter_cons, zlen_cons. cbn [fst]. case_decide as Hf.
  - exists (p :: ps). rewrite zlen_cons. replace (s + (1 + zlen ps) - (1 + zlen ps)) with s by lia.
    cbn [entries_from]. f_equal. apply list_filter_all. intros [k q] Hk%elem_of_entries_from. cbn. lia.
  - destruct (IH (s + 1)) as [qs E]. exists qs. rewrite E. f_equal. lia.
Qed.

Lemma log_rel_contiguous max st a : log_rel max st a → contiguous (al_entries a) (al_next a).
Proof.
  intros [_ (segs & Hi & -> & _ & Hn & _)]. unfold contiguous, next_rel in *.
  destruct (al_next a) as [n|]; [|by subst]. destruct Hn as [_ Hn].
  destruct (decide (segs = [])) as [->|Hne]; [by exists []|].
  rewrite <-(Hn Hne). eapply visible_contiguous; [apply Hi|done].
Qed.

(** C7: A crash at rest of a log that is in the relation [log_rel], whatever unsynced
    bytes it takes: open succeeds, every record below the durability mark (all records at
    the last sync) is served again unchanged, no record above the purge floor is served
    that was not in the log (below it, at most purged records), the records are
    contiguous, and the reopened log is in [log_rel] again. [log_rel] holds of a log that
    has only been used with appends at the next index, truncations above the purge floor,
    purges below the next index, and restarts; after a purge past the last record it does
    not hold, and synced records can be lost ([append_after_purge_renumbered]). *)
Theorem log_crash_recovers max st a d :
  log_rel max st a → crash (disk st) d →
  ∃ l d' a', open_with_segment_max max d = (Ok l, d')
    ∧ read_all {| slf := l; disk := d' |} = (Ok (al_entries a'), {| slf := l; disk := d' |})
    ∧ (∀ k p, (k, p) ∈ al_entries a → k < al_durable a → (k, p) ∈ al_entries a')
    ∧ (∀ k p, (k, p) ∈ al_entries a' → al_floor a < k → (k, p) ∈ al_entries a)
    ∧ (∀ kv, kv ∈ al_entries a' → kv ∈ al_entries a ∨ kv ∈ al_past a)
    ∧ contiguous (al_entries a') (al_next a')
    ∧ log_rel max {| slf := l; disk := d' |} a'.
Proof.
  intros Hr Hc. destruct (crash_sim _ _ _ _ Hr Hc) as (l & d' & a' & E & Hcr & Hr').
  exists l, d', a'. destruct Hcr as (m & Hm & Hent & Hsub & _).
  split_and!; eauto using log_rel_read_all, log_rel_contiguous.
  - intros k p Hin Hk. assert (Hin' : (k, p) ∈ filter (λ kv, kv.1 < m) (al_entries a)).
    { apply list_elem_of_filter. cbn. split; [lia|done]. }
    rewrite <-Hent in Hin'. by apply list_elem_of_filter in Hin' as [].
  - intros k p Hin Hk.
    assert (Hin' : (k, p) ∈ filter (λ kv, al_floor a < kv.1) (al_entries a')).
    { by apply list_elem_of_filter. }
    rewrite Hent in Hin'. by apply list_elem_of_filter in Hin' as [].
Qed.

(** A segment whose last frame was cut anywhere is scanned back to exactly
    the records before it, and the valid length is where the torn frame starts:
    reopening truncates nothing but the torn frame. *)
Theorem scan_segment_torn start ps p n :
  0 ≤ start → start + Z.of_nat (length ps) < two64 → Forall (λ q, blen q < two32) (ps ++ [p]) →
  (n < length (frame p))%nat →
  scan_segment start (seg_bytes ps ++ take n (frame p))
  = (scan_locs start 0 ps, blen (seg_bytes ps)).
Proof.
  intros H0 Hend [Hps [Hp _]%Forall_cons]%Forall_app Hn.
  apply scan_segment_frames; [done..|]. by apply torn_partial_frame.
Qed.

(** C33: The scan loop terminates within the fuel it is given: any larger number
    of iterations gives the same result, on every byte string. *)
Theorem scan_segment_total start bytes fuel :
  (length bytes < fuel)%nat → scan_loop fuel bytes 0 start [] = scan_segment start bytes.
Proof. apply scan_segment_fuel. Qed.

(** A location that [read_locs] can use: the header and the payload lie before
    [bound], the length is that of the header and the checksum matches. *)
Definition loc_in_bounds (bytes : list byte) (bound : Z) (loc : Z * Z * Z) : Prop :=
  let '(_, off, len) := loc in
  HEADER_BYTES ≤ off ∧ is_u32 len ∧ off + len ≤ bound
  ∧ from_le_bytes (slice bytes (off - 8) 4) = len
  ∧ from_le_bytes (slice bytes (off - 4) 4) = crc32c (slice bytes off len).

Lemma loc_in_bounds_mono bytes b1 b2 locs :
  b1 ≤ b2 → Forall (loc_in_bounds bytes b1) locs → Forall (loc_in_bounds bytes b2) locs.
Proof.
  intros Hb Hl. eapply Forall_impl; [exact Hl|]. intros [[i off] len] (? & ? & ? & ?). split; [done|]. split; [done|].
  split; [lia|done].
Qed.

Lemma scan_loop_bounds fuel bytes : ∀ offset index locs locs' bound,
  0 ≤ offset ≤ blen bytes → Forall (loc_in_bounds bytes offset) locs →
  scan_loop fuel bytes offset index locs = (locs', bound) →
  0 ≤ bound ≤ blen bytes ∧ Forall (loc_in_bounds bytes bound) locs'.
Proof.
  induction fuel as [|fuel IH]; intros offset index locs locs' bound Ho Hl; cbn [scan_loop].
  { by intros [= <- <-]. }
  case_decide as Hh; [|by intros [= <- <-]]. case_decide as Hb; [by intros [= <- <-]|].
  case_decide as Hc; [|by intros [= <- <-]].
  pose proof (from_le_bytes_range (slice bytes offset 4)) as Hr.
  assert (Hlen : is_u32 (from_le_bytes (slice bytes offset 4))).
  { unfold is_u32, two32. unfold HEADER_BYTES in Hh. rewrite slice_blen in Hr by lia. exact Hr. }
  unfold HEADER_BYTES, is_u32 in *. intros E. eapply IH; [..|exact E]; [lia|].
  apply Forall_app. split; [eapply loc_in_bounds_mono; [|exact Hl]; lia|].
  constructor; [|constructor]. unfold loc_in_bounds, HEADER_BYTES, is_u32.
  replace (offset + 8 - 8) with offset by lia. replace (offset + 8 - 4) with (offset + 4) by lia.
  split; [lia|]. split; [lia|]. split; [lia|]. by split.
Qed.

(** C32: The scan never reads out of bounds: on every byte string, however
    corrupted, the valid length is at most the size of the file, and each record found
    lies before it with its header, has a length that fits in [u32] and is the one in
    its header, and has the checksum of its header. *)
Theorem scan_segment_in_bounds start bytes :
  let '(locs, valid_len) := scan_segment start bytes in
  0 ≤ valid_len ≤ blen bytes ∧ Forall (loc_in_bounds bytes valid_len) locs.
Proof.
  destruct (scan_segment start bytes) as [locs valid_len] eqn:E.
  eapply scan_loop_bounds; [|constructor|exact E]. split; [done|apply blen_nonneg].
Qed.

(** A payload whose length does not fit in [u32] is refused before anything
    is written: the log and its directory are unchanged. *)
Theorem append_oversized index p st :
  two32 ≤ blen p →
  append index p st = (Err (Recovery (Msg "log record exceeds u32 length" [])), st).
Proof. intros Hp. unfold append. rewrite decide_False by lia. done. Qed.

(** [read_range] with a start above its end does not return an empty list: the
    range of the underlying [BTreeMap] panics. *)
Theorem read_range_inverted from to st :
  to < from →
  read_range from to st = (Panic "range start is greater than range end in BTreeMap", st).
Proof. intros Hlt. unfold read_range. mstep get_self_ok. by rewrite decide_True. Qed.
End LogCorrect.

(** A segment file is found again under the start index it was created with,
    and two segments never share a file. *)
Theorem segment_name_roundtrip s t :
  is_u64 s → is_u64 t →
  parse_segment_name (segment_path s) = Some s ∧ (segment_path s = segment_path t → s = t).
Proof. intros Hs Ht. split; [by apply parse_segment_path|by apply segment_path_inj]. Qed.

(** ** A concrete checksum for evaluated instances *)

Definition sum_crc (p : list byte) : Z := foldr (λ b acc, (Z_of_byte b + acc) mod two32) 0 p.

Lemma sum_crc_u32 p : is_u32 (sum_crc p).
Proof. destruct p; [done|]. cbn. apply Z.mod_pos_bound. done. Qed.

Definition sum_crc32c : Crc32c := {| crc32c := sum_crc; crc32c_u32 := sum_crc_u32 |}.
#[local] Existing Instance sum_crc32c.

Definition st_empty (max : Z) : LogSt :=
  {| slf := {| segment_max_bytes := max; starts := []; records := ∅; active := None |}; disk := ∅ |}.

Lemma st_empty_rel max : log_rel max (st_empty max) alog_empty.
Proof.
  destruct (log_rel_fresh max) as (l & E & Hr). cbn in E. by injection E as <-.
Qed.

(** The worst crash: every unsynced byte is gone. *)
Definition crash_min (d : dir) : dir :=
  (λ f, File (take (f_synced f) (f_data f)) (length (take (f_synced f) (f_data f)))) <$> d.

Lemma crash_min_crash d : crash d (crash_min d).
Proof.
  intros name. unfold crash_min. rewrite lookup_fmap. destruct (d !! name) as [f|]; constructor.
  by exists (f_synced f).
Qed.

Definition two_records : LogSt :=
  (run_ops [OpAppend 1 [x01]; OpSync; OpAppend 2 [x02]] (st_empty 1000)).2.

Lemma two_records_rel :
  log_rel 1000 two_records
    {| al_entries := [(1, [x01]); (2, [x02])]; al_floor := -1; al_next := Some 3; al_durable := 2;
       al_past := [] |}.
Proof.
  destruct (run_ops_sim 1000 [OpAppend 1 [x01]; OpSync; OpAppend 2 [x02]] (st_empty 1000) alog_empty
    {| al_entries := [(1, [x01]); (2, [x02])]; al_floor := -1; al_next := Some 3; al_durable := 2;
       al_past := [] |})
    as (st & E & Hr); [lia|apply st_empty_rel| |unfold two_records; by rewrite E].
  repeat (eapply asteps_cons; [constructor; cbv; done|]). constructor.
Qed.

Lemma log_crash_recovers_witness :
  ∃ l d' a', open_with_segment_max 1000 (crash_min (disk two_records)) = (Ok l, d')
    ∧ read_all {| slf := l; disk := d' |} = (Ok (al_entries a'), {| slf := l; disk := d' |})
    ∧ (1, [x01]) ∈ al_entries a'.
Proof.
  destruct (log_crash_recovers 1000 two_records _ _ two_records_rel (crash_min_crash _))
    as (l & d' & a' & Eo & Er & Hkeep & _).
  exists l, d', a'. split; [exact Eo|]. split; [exact Er|]. apply Hkeep; [left|done].
Defined.

Lemma scan_segment_torn_witness :
  scan_segment 7 (seg_bytes [[x01]; [x02; x03]] ++ take 9 (frame [x04; x05]))
  = ([(7, 8, 1); (8, 17, 2)], 19).
Proof.
  apply (scan_segment_torn 7 [[x01]; [x02; x03]] [x04; x05] 9);
    [lia|done|repeat constructor|vm_compute; lia].
Defined.

Lemma scan_segment_total_witness :
  scan_loop 100 (frame [x01]) 0 3 [] = scan_segment 3 (frame [x01]).
Proof. apply (scan_segment_total 3 (frame [x01]) 100). vm_compute; lia. Defined.

Lemma append_oversized_witness :
  append 1 (replicate (Z.to_nat two32) x00) (st_empty 10)
  = (Err (Recovery (Msg "log record exceeds u32 length" [])), st_empty 10).
Proof.
  apply (append_oversized 1 (replicate (Z.to_nat two32) x00) (st_empty 10)).
  unfold blen. rewrite length_replicate, Z2Nat.id; done.
Defined.

Lemma read_range_inverted_witness :
  read_range 5 1 (st_empty 10)
  = (Panic "range start is greater than range end in BTreeMap", st_empty 10).
Proof. apply (read_range_inverted 5 1 (st_empty 10)). lia. Defined.

Lemma segment_name_roundtrip_witness :
  parse_segment_name (segment_path 42) = Some 42 ∧ (segment_path 42 = segment_path 7 → 42 = 7).
Proof. apply (segment_name_roundtrip 42 7); split; (lia || reflexivity). Defined.

(** ** Calls outside the contract

    Scenarios that the methods accept without an error. *)

Definition reopen (st : LogSt) : LogSt :=
  match open_with_segment_max (segment_max_bytes (slf st)) (disk st) with
  | (Ok l, d) => {| slf := l; disk := d |}
  | (_, d) => {| slf := slf st; disk := d |}
  end.

(** A follower whose log ends at 1 purges through 10 (an installed snapshot) and
    appends at 11. *)
Definition jumped : LogSt :=
  (run_ops [OpAppend 1 [x01]; OpSync; OpPurge 10; OpAppend 11 [x0b]; OpSync] (st_empty 1000)).2.

(** An append after a purge beyond the end of the log, which the
    documentation of [append] allows (the log is empty, any index is accepted)
    and which returns [Ok], is written into the old active segment; a reopen
    numbers it by its position, as record 2 instead of 11, and re-applying the
    purge floor drops it although it was synced. *)
Theorem append_after_purge_renumbered :
  append_contract
    (slf (run_ops [OpAppend 1 [x01]; OpSync; OpPurge 10] (st_empty 1000)).2) 11 = true
  ∧ (read_all jumped).1 = Ok [(11, [x0b])]
  ∧ (read_all (reopen jumped)).1 = Ok [(1, [x01]); (2, [x0b])]
  ∧ (read_all (purge_through 10 (reopen jumped)).2).1 = Ok [].
Proof. vm_compute. done. Qed.

(** Three one-record segments, the middle one damaged, reopened; then records 2
    and 3 are written again. *)
Definition damaged : LogSt :=
  let st := (run_ops [OpAppend 1 [x01]; OpAppend 2 [x02]; OpAppend 3 [x03]; OpSync] (st_empty 1)).2 in
  reopen {| slf := slf st; disk := <[segment_path 2 := File [x00] 1]> (disk st) |}.

Definition rewritten : LogSt := (run_ops [OpAppend 2 [x12]; OpAppend 3 [x13]; OpSync] damaged).2.

(** After a damaged segment in the middle of the log, [open] forgets the later
    segments but leaves their files; a rotation onto such a file takes its length
    for 0, so the record just appended at 3 reads back as the stale one, and a
    reopen serves both. *)
Theorem stale_segment_resurrects :
  (read_all damaged).1 = Ok [(1, [x01])]
  ∧ (read_all rewritten).1 = Ok [(1, [x01]); (2, [x12]); (3, [x03])]
  ∧ (read_all (reopen rewritten)).1 = Ok [(1, [x01]); (2, [x12]); (3, [x03]); (4, [x13])].
Proof. vm_compute. done. Qed.

Definition purged_then_cut : LogSt :=
  (run_ops [OpAppend 1 [x01]; OpAppend 2 [x02]; OpAppend 3 [x03]; OpSync; OpPurge 2; OpTruncate 2]
     (st_empty 1000)).2.

(** A truncation below the purge floor empties the in-memory index but not the
    segment file: record 3, which [truncate_from 2] dropped, is served again after
    a reopen. *)
Theorem truncate_below_floor_resurrects :
  (read_all purged_then_cut).1 = Ok []
  ∧ (read_all (purge_through 2 (reopen purged_then_cut)).2).1 = Ok [(3, [x03])].
Proof. vm_compute. done. Qed.
