(* ===== verification/LogLive.v ===== *)
(** * The segmented log while it runs

    [LogSpec] describes the log across crashes and has to exclude calls after which the
    files no longer tell the index of a record: purges past the last record, truncations
    below the purge floor.  Here the log is described while the process runs, for every
    truncation and every purge.  The state is the list of records and the highest index
    purged so far; an append continues the records or, when there are none, uses any index
    above the purged ones. *)

From S2P Require Import Prelude Bytes CoreError FileSys SegmentedLog LogScan LogInv LogOps LogTrunc LogPurge LogSpec LogCorrect.

Open Scope Z_scope.

(** ** The abstract log *)

Record llog := {
  ll_entries : list (Z * list byte);
  ll_floor : Z
}.

Definition llog_empty : llog := {| ll_entries := []; ll_floor := -1 |}.

Definition lnext_ok (a : llog) (index : Z) : Prop :=
  match last (ll_entries a) with
  | Some (k, _) => index = k + 1
  | None => ll_floor a < index
  end.

(** What a caller has to ensure. *)
Definition lpre (a : llog) (o : log_op) : Prop :=
  match o with
  | OpAppend index p => lnext_ok a index ∧ 0 ≤ index ∧ index + 1 < two64 ∧ blen p < two32
  | OpSync => True
  | OpTruncate index | OpPurge index => is_u64 index
  end.

Definition lpost (a : llog) (o : log_op) : llog :=
  match o with
  | OpAppend index p => {| ll_entries := ll_entries a ++ [(index, p)]; ll_floor := ll_floor a |}
  | OpSync => a
  | OpTruncate index => {| ll_entries := filter (λ kv, kv.1 < index) (ll_entries a); ll_floor := ll_floor a |}
  | OpPurge index => {| ll_entries := filter (λ kv, index < kv.1) (ll_entries a); ll_floor := ll_floor a `max` index |}
  end.

Fixpoint lpres (a : llog) (ops : list log_op) : Prop :=
  match ops with
  | [] => True
  | o :: ops => lpre a o ∧ lpres (lpost a o) ops
  end.

(** ** Shared facts *)

Lemma StronglySorted_filter {A} (R : relation A) (P : A → Prop) `{!∀ x, Decision (P x)} (l : list A) :
  StronglySorted R l → StronglySorted R (filter P l).
Proof.
  induction l as [|x l IH]; [done|]. intros [Hx Hl]%StronglySorted_cons. rewrite filter_cons.
  case_decide; [|by apply IH]. apply StronglySorted_cons. split; [|by apply IH].
  apply Forall_forall. intros y [_ Hy]%list_elem_of_filter. rewrite Forall_forall in Hx. by apply Hx.
Qed.

Lemma filter_ext_in {A} (P Q : A → Prop) `{!∀ x, Decision (P x), !∀ x, Decision (Q x)} (l : list A) :
  (∀ x, x ∈ l → P x ↔ Q x) → filter P l = filter Q l.
Proof.
  induction l as [|x l IH]; intros Hx; [done|]. rewrite !filter_cons, IH by (intros y ?; apply Hx; by right).
  specialize (Hx x ltac:(left)). repeat case_decide; naive_solver.
Qed.

Lemma slice_prefix a b off n : 0 ≤ off → 0 ≤ n → off + n ≤ blen a → slice (a ++ b) off n = slice a off n.
Proof.
  unfold slice, blen. intros. rewrite drop_app_le by lia. apply take_app_le. rewrite length_drop. lia.
Qed.

Lemma slice_take a k off n : 0 ≤ off → 0 ≤ n → off + n ≤ k → slice (take (Z.to_nat k) a) off n = slice a off n.
Proof.
  unfold slice. intros. rewrite skipn_firstn_comm, take_take. f_equal. lia.
Qed.

Section LogLive.
Context `{Crc32c}.

(** ** The invariant *)

(** A record and the one after it: a later segment, or behind it in the same one. *)
Definition before (x y : Z * RecordLoc) : Prop :=
  x.1 < y.1 ∧ (segment_start x.2 = segment_start y.2 →
               payload_offset x.2 + loc_len x.2 + HEADER_BYTES ≤ payload_offset y.2).

(** Where a record may be: in a segment that starts at or below it, and below the start
    of the next one. *)
Record placed (ss : list Z) (fl : Z) (x : Z * RecordLoc) : Prop := {
  pl_key : fl < x.1 ∧ 0 ≤ x.1 ∧ x.1 + 1 < two64;
  pl_start : segment_start x.2 ∈ ss;
  pl_le : segment_start x.2 ≤ x.1;
  pl_next : ∀ s, s ∈ ss → segment_start x.2 < s → x.1 < s;
  pl_off : HEADER_BYTES ≤ payload_offset x.2 ∧ 0 ≤ loc_len x.2
}.

(** No segment is longer than one record above the limit. *)
Definition bounded (max : Z) (f : file) : Prop := blen (f_data f) < max + two32 + HEADER_BYTES.

(** [new]: segments that have just been created. *)
Record live_inv (new : list Z) (max : Z) (st : LogSt) (locs : list (Z * RecordLoc)) (a : llog) : Prop := {
  lv_max : segment_max_bytes (slf st) = max;
  lv_floor : -1 ≤ ll_floor a;
  lv_starts : StronglySorted Z.lt (starts (slf st)) ∧ Forall is_u64 (starts (slf st));
  lv_files : Forall (λ s, ∃ f, disk st !! segment_path s = Some f ∧ bounded max f) (starts (slf st));
  (** files that are no longer in use have a purged number *)
  lv_stale : ∀ s, is_u64 s → is_Some (disk st !! segment_path s) → s ∈ starts (slf st) ∨ s ≤ ll_floor a;
  lv_active : active (slf st) = s ← last (starts (slf st)); f ← disk st !! segment_path s;
    Some {| a_start := s; a_file := segment_path s; a_bytes := blen (f_data f) |};
  (** a segment begins with the record of its number, unless it is purged *)
  lv_owner : Forall (λ s, s ≤ ll_floor a ∨ s ∈ (ll_entries a).*1 ∨ s ∈ new) (starts (slf st));
  lv_records : records (slf st) = list_to_map locs;
  lv_order : StronglySorted before locs;
  lv_placed : Forall (placed (starts (slf st)) (ll_floor a)) locs;
  lv_reads : Forall2 (reads (disk st)) locs (ll_entries a)
}.

Definition live_rel (max : Z) (st : LogSt) (a : llog) : Prop := ∃ locs, live_inv [] max st locs a.

Lemma order_keys locs : StronglySorted before locs → keys_sorted locs.
Proof. apply StronglySorted_fmap. by intros x y []. Qed.

Lemma reads_keys d locs es : Forall2 (reads d) locs es → locs.*1 = es.*1.
Proof. induction 1 as [|x y locs es [E _] _ IH]; [done|]. cbn. by rewrite E, IH. Qed.

Lemma live_keys new max st locs a : live_inv new max st locs a → keys_sorted (ll_entries a).
Proof. intros Hi. rewrite <-(reads_keys _ _ _ (lv_reads _ _ _ _ _ Hi)). apply order_keys, Hi. Qed.

(** ** Reads *)

Lemma live_read_all max st a : live_rel max st a → read_all st = (Ok (ll_entries a), st).
Proof.
  intros [locs Hi]. unfold read_all. mstep get_self_ok.
  rewrite (lv_records _ _ _ _ _ Hi), btree_iter_sorted_list by apply order_keys, Hi.
  destruct st as [l d]. apply io_ok, read_locs_start, (lv_reads _ _ _ _ _ Hi).
Qed.

Lemma live_read_range max st a from to :
  live_rel max st a → from ≤ to →
  read_range from to st = (Ok (filter (λ kv, from ≤ kv.1 < to) (ll_entries a)), st).
Proof.
  intros [locs Hi] Hle. unfold read_range. mstep get_self_ok. rewrite decide_False by lia.
  rewrite (lv_records _ _ _ _ _ Hi), btree_iter_sorted_list by apply order_keys, Hi.
  destruct st as [l d]. apply io_ok, read_locs_start. apply Forall2_filter_reads; [done|]. apply (lv_reads _ _ _ _ _ Hi).
Qed.

Lemma live_last_index max st a : live_rel max st a → last_index (slf st) = fst <$> last (ll_entries a).
Proof.
  intros [locs Hi]. unfold last_index. rewrite (lv_records _ _ _ _ _ Hi), last_key_sorted_list by apply order_keys, Hi.
  by rewrite <-!fmap_last, (reads_keys _ _ _ (lv_reads _ _ _ _ _ Hi)).
Qed.

Lemma live_sorted max st a : live_rel max st a → keys_sorted (ll_entries a).
Proof. intros [locs Hi]. by eapply live_keys. Qed.

Lemma live_bounds max st a : live_rel max st a → Forall (λ kv, 0 ≤ kv.1 ∧ kv.1 + 1 < two64) (ll_entries a).
Proof.
  intros [locs Hi]. pose proof (lv_placed _ _ _ _ _ Hi) as Hp. pose proof (lv_reads _ _ _ _ _ Hi) as Hr.
  induction Hr as [|x y locs' es [E _] _ IH] in Hp |- *; [constructor|]. apply Forall_cons in Hp as [[[_ Hx] _ _ _ _] Hp].
  constructor; [by rewrite <-E|by apply IH].
Qed.

Lemma live_fresh max : live_rel max {| slf := {| segment_max_bytes := max; starts := []; records := ∅; active := None |}; disk := ∅ |} llog_empty.
Proof.
  exists []. split; cbn; try done; try (repeat constructor; done).
  intros s _ [f Hf]. by rewrite lookup_empty in Hf.
Qed.

(** ** Changing files *)

Lemma live_start_u64 new max st locs a s : live_inv new max st locs a → s ∈ starts (slf st) → is_u64 s.
Proof. intros Hi Hs. pose proof (lv_starts _ _ _ _ _ Hi) as [_ Hu]. rewrite Forall_forall in Hu. by apply Hu. Qed.

Lemma live_file new max st locs a s :
  live_inv new max st locs a → s ∈ starts (slf st) → ∃ f, disk st !! segment_path s = Some f ∧ bounded max f.
Proof. intros Hi Hs. pose proof (lv_files _ _ _ _ _ Hi) as Hf. rewrite Forall_forall in Hf. by apply Hf. Qed.

Lemma reads_elem d locs es x : Forall2 (reads d) locs es → x ∈ locs → ∃ p, (x.1, p) ∈ es ∧ readable d x.2 p.
Proof.
  induction 1 as [|y [k p] locs es [E Hr] _ IH]; [by intros ?%elem_of_nil|]. cbn in E. intros [->|(q & Hq & ?)%IH]%elem_of_cons.
  - exists p. rewrite E. split; [by left|done].
  - exists q. split; [by right|done].
Qed.

Lemma reads_below d locs es i : Forall2 (reads d) locs es → Forall (λ kv, kv.1 < i) es → Forall (λ x, x.1 < i) locs.
Proof.
  intros Hr Hlt. apply Forall_forall. intros x Hx. destruct (reads_elem _ _ _ _ Hr Hx) as (p & Hp & _).
  rewrite Forall_forall in Hlt. by apply (Hlt (x.1, p)).
Qed.

(** The records that a new directory still serves. *)
Lemma reads_keep d d' locs es :
  (∀ k loc p, (k, loc) ∈ locs → readable d loc p → readable d' loc p) →
  Forall2 (reads d) locs es → Forall2 (reads d') locs es.
Proof.
  intros Hk. induction 1 as [|[k loc] [k' p] locs es [E Hr] _ IH]; [constructor|].
  constructor; [split; [done|]; eapply (Hk k); [left|done]|]. apply IH. intros k0 l0 p0 ?. apply (Hk k0). by right.
Qed.

(** A file that is extended. *)
Lemma readable_extend d s f bs n loc p :
  d !! segment_path s = Some f → HEADER_BYTES ≤ payload_offset loc ∧ 0 ≤ loc_len loc →
  readable d loc p → readable (<[segment_path s := File (f_data f ++ bs) n]> d) loc p.
Proof.
  intros Hf [Ho Hl] (g & Hg & Hb & Hs). unfold HEADER_BYTES in *.
  destruct (decide (segment_path (segment_start loc) = segment_path s)) as [E|Hne].
  - rewrite E in Hg. assert (g = f) as -> by congruence. eexists. rewrite E, lookup_insert_eq. split; [done|]. cbn.
    rewrite blen_app. pose proof (blen_nonneg bs). split; [lia|]. by rewrite slice_prefix by lia.
  - exists g. by rewrite lookup_insert_ne.
Qed.

(** The active segment. *)
Lemma live_active new max st locs a s :
  live_inv new max st locs a → last (starts (slf st)) = Some s →
  ∃ f, disk st !! segment_path s = Some f ∧ bounded max f
    ∧ active (slf st) = Some {| a_start := s; a_file := segment_path s; a_bytes := blen (f_data f) |}.
Proof.
  intros Hi Hl. destruct (live_file _ _ _ _ _ s Hi) as (f & Hf & Hb); [by apply last_Some_elem_of|].
  exists f. split; [done|]. split; [done|]. rewrite (lv_active _ _ _ _ _ Hi), Hl. cbn. by rewrite Hf.
Qed.

(** Syncing a file changes nothing but its synced length. *)
Lemma live_synced new max l d locs a s f n :
  live_inv new max {| slf := l; disk := d |} locs a → d !! segment_path s = Some f →
  live_inv new max {| slf := l; disk := <[segment_path s := File (f_data f) n]> d |} locs a.
Proof.
  intros [? ? ? Hf Hst Ha ? ? ? Hp Hr] Hd. cbn in *.
  assert (Hlk : ∀ t, f_data <$> (<[segment_path s := File (f_data f) n]> d !! segment_path t) = f_data <$> d !! segment_path t).
  { intros t. destruct (decide (segment_path s = segment_path t)) as [E|Hne]; [|by rewrite lookup_insert_ne].
    by rewrite <-E, lookup_insert_eq, Hd. }
  split; cbn; try done.
  - eapply Forall_impl; [exact Hf|]. intros t (g & Hg & Hb). specialize (Hlk t). rewrite Hg in Hlk. cbn in *.
    destruct (<[_ := _]> d !! segment_path t) as [g'|]; [|done]. injection Hlk as Hlk. exists g'. split; [done|]. unfold bounded. by rewrite Hlk.
  - intros t Ht Hs. apply Hst; [done|]. specialize (Hlk t). rewrite <-(fmap_is_Some f_data), <-Hlk. by apply fmap_is_Some.
  - rewrite Ha. destruct (last (starts l)) as [t|]; [|done]. cbn. specialize (Hlk t).
    destruct (d !! segment_path t), (<[_ := _]> d !! segment_path t); cbn in *; try done. injection Hlk as Hlk. by rewrite Hlk.
  - eapply reads_keep; [|exact Hr]. intros k loc p Hin. rewrite <-(app_nil_r (f_data f)). apply readable_extend; [done|].
    rewrite Forall_forall in Hp. apply (Hp _ Hin).
Qed.

Lemma sync_live new max st locs a :
  live_inv new max st locs a → ∃ st', sync st = (Ok tt, st') ∧ slf st' = slf st ∧ live_inv new max st' locs a.
Proof.
  intros Hi. destruct st as [l d]. unfold sync. mstep get_self_ok. cbn [slf].
  destruct (last (starts l)) as [s|] eqn:El.
  - destruct (live_active _ _ _ _ _ _ Hi El) as (f & Hf & _ & Ea). cbn in Hf, Ea. rewrite Ea.
    eexists. split; [apply io_ok, (fsync_ok _ _ _ Hf)|]. split; [done|]. by apply live_synced.
  - pose proof (lv_active _ _ _ _ _ Hi) as Ea. cbn in Ea. rewrite El in Ea. rewrite Ea. by eexists.
Qed.

(** ** Appending *)

(** A number above everything is not in use. *)
Lemma live_number new max st locs a i :
  live_inv new max st locs a → ll_floor a < i → Forall (λ kv, kv.1 < i) (ll_entries a) → i ∉ new →
  Forall (λ s, s ∈ new ∨ s < i) (starts (slf st)).
Proof.
  intros Hi Hfl Hlt Hn. eapply Forall_impl; [apply (lv_owner _ _ _ _ _ Hi)|]. intros s [?|[Hs|?]]; [right; lia| |by left].
  apply list_elem_of_fmap in Hs as (kv & -> & Hs). right. rewrite Forall_forall in Hlt. by apply Hlt.
Qed.

Lemma rotate_live max st locs a i :
  live_inv [] max st locs a → 0 ≤ max → is_u64 i → ll_floor a < i → Forall (λ kv, kv.1 < i) (ll_entries a) →
  ∃ st', rotate i st = (Ok tt, st') ∧ live_inv [i] max st' locs a ∧ last (starts (slf st')) = Some i
    ∧ disk st' !! segment_path i = Some (File [] 0).
Proof.
  intros Hi0 Hm Hu Hfl Hlt. destruct (sync_live _ _ _ _ _ Hi0) as ([l d] & Es & El & Hi). cbn in El.
  pose proof (live_number _ _ _ _ _ i Hi Hfl Hlt ltac:(by intros ?%elem_of_nil)) as Hss. cbn in Hss.
  assert (Hss' : Forall (λ s, s < i) (starts l)) by (eapply Forall_impl; [exact Hss|]; intros s [?%elem_of_nil|?]; done).
  assert (Hfresh : d !! segment_path i = None).
  { apply eq_None_not_Some. intros Hs. rewrite Forall_forall in Hss'.
    destruct (lv_stale _ _ _ _ _ Hi i Hu Hs) as [?%Hss'|]; lia. }
  assert (Hne : ∀ s, s ∈ starts l → segment_path i ≠ segment_path s).
  { intros s Hs E. destruct (live_file _ _ _ _ _ s Hi Hs) as (f & Hf & _). cbn in Hf. congruence. }
  unfold rotate. mstep get_self_ok. unfold sync in Es. rewrite (M_bind_Ok _ _ _ _ _ (get_self_ok st)) in Es.
  erewrite M_bind_Ok; [|exact Es]. cbv beta. mstep io_ok; [|by apply open_create_append_new].
  mstep on_self_ok. mstep get_self_ok. cbn [slf disk set_active starts].
  rewrite decide_False by (rewrite Forall_forall in Hss'; intros ?%Hss'; lia).
  pose proof (lv_starts _ _ _ _ _ Hi) as [Hsort Hus]. cbn in Hsort, Hus.
  assert (Hsort' : StronglySorted Z.lt (starts l ++ [i])).
  { apply StronglySorted_app_2; [|done|by repeat constructor]. intros x y Hx ->%list_elem_of_singleton.
    rewrite Forall_forall in Hss'. by apply Hss'. }
  assert (Em : merge_sort Z.le (starts l ++ [i]) = starts l ++ [i]) by (by apply merge_sort_unique).
  eexists. split; [apply on_self_ok|]. cbn [slf disk set_starts starts]. rewrite Em.
  split; [|by rewrite last_snoc, lookup_insert_eq]. destruct Hi as [? ? _ Hf Hst _ Ho ? ? Hp Hr]. cbn in *. split; cbn; try done.
  - split; [done|]. apply Forall_app. split; [done|by constructor].
  - apply Forall_app. split.
    2: { constructor; [|constructor]. exists (File [] 0). rewrite lookup_insert_eq. split; [done|]. unfold bounded, two32, HEADER_BYTES. change (blen (f_data (File [] 0))) with 0. lia. }
    rewrite Forall_forall in Hf |- *. intros s Hs. destruct (Hf s Hs) as (f & ? & ?). exists f. by rewrite lookup_insert_ne by auto.
  - intros s Hs. destruct (decide (segment_path i = segment_path s)) as [E|?].
    + apply segment_path_inj in E as ->; [|done..]. intros _. left. set_solver.
    + rewrite lookup_insert_ne by done. intros Hl. destruct (Hst s Hs Hl); [left; set_solver|by right].
  - rewrite last_snoc. cbn. by rewrite lookup_insert_eq.
  - apply Forall_app. split; [|constructor; [set_solver|constructor]]. eapply Forall_impl; [exact Ho|]. cbn. set_solver.
  - rewrite Forall_forall in Hp |- *. intros x Hx. destruct (Hp x Hx) as [? ? ? Hn ?]. split; [done|set_solver|done| |done].
    intros s [Hs| ->%list_elem_of_singleton]%elem_of_app Hlt'; [by apply Hn|].
    pose proof (reads_below _ _ _ _ Hr Hlt) as Hk. rewrite Forall_forall in Hk. by apply Hk.
  - eapply reads_keep; [|exact Hr]. intros k loc p Hin (f & Hg & ?). exists f. rewrite lookup_insert_ne; [done|].
    apply Hne. rewrite Forall_forall in Hp. apply (Hp _ Hin).
Qed.

Lemma append_frame_live new max st locs a i p s f :
  live_inv new max st locs a → new ⊆ [i] → 0 ≤ max < 2 ^ 63 → 0 ≤ i ∧ i + 1 < two64 → ll_floor a < i → Forall (λ kv, kv.1 < i) (ll_entries a) →
  blen p < two32 → last (starts (slf st)) = Some s → disk st !! segment_path s = Some f → blen (f_data f) ≤ max →
  ∃ st', append_frame i p st = (Ok tt, st') ∧ live_rel max st' (lpost a (OpAppend i p)).
Proof.
  intros Hi Hnew Hm Hu Hfl Hlt Hp Hl Hf Hb. destruct st as [l d]. cbn in Hl, Hf.
  destruct (live_active _ _ _ _ _ _ Hi Hl) as (f' & Hf' & _ & Ea). cbn in Hf', Ea. assert (f' = f) as -> by congruence. clear Hf'.
  pose proof (blen_nonneg (f_data f)) as H0. pose proof (blen_nonneg p) as H1.
  pose proof (blen_frame p) as Hfr. unfold two32, HEADER_BYTES in *.
  assert (Hs : s ∈ starts l) by (by apply last_Some_elem_of).
  assert (Hsi : s ≤ i).
  { pose proof (lv_owner _ _ _ _ _ Hi) as Ho. rewrite Forall_forall in Ho. destruct (Ho s Hs) as [?|[(kv & -> & Hkv)%list_elem_of_fmap|?]]; [lia| |set_solver by lia].
    rewrite Forall_forall in Hlt. specialize (Hlt _ Hkv). lia. }
  unfold append_frame. mstep get_self_ok. cbn [slf]. rewrite Ea. cbn [expect]. mpure.
  mstep io_ok; [|apply (write_all_ok _ _ _ Hf)]. mstep on_self_ok. eexists. split; [apply on_self_ok|].
  cbn [slf disk a_start a_file a_bytes set_active]. rewrite !wrap64_small by (unfold is_u64, two64, HEADER_BYTES; lia).
  set (loc := {| segment_start := s; payload_offset := _; loc_len := _ |}). exists (locs ++ [(i, loc)]).
  pose proof Hi as [? ? Hst Hfs Hstale _ Ho Hrec Hord Hpl Hrd]. cbn in *.
  pose proof (reads_below _ _ _ _ Hrd Hlt) as Hkeys.
  assert (Hlast : ∀ t, t ∈ starts l → t ≤ s).
  { intros t Ht. apply last_Some in Hl as [init El]. rewrite El in Ht, Hst. destruct Hst as [Hst _].
    apply elem_of_app in Ht as [Ht| ->%list_elem_of_singleton]; [|done].
    assert (t < s); [|lia]. eapply StronglySorted_app_1_elem_of; [exact Hst|done|by apply list_elem_of_singleton]. }
  split; cbn; try done.
  - rewrite Forall_forall in Hfs |- *. intros t Ht. destruct (Hfs t Ht) as (g & Hg & Hgb).
    destruct (decide (segment_path s = segment_path t)) as [E|?]; [|exists g; by rewrite lookup_insert_ne].
    rewrite <-E, lookup_insert_eq. eexists. split; [done|]. unfold bounded, two32, HEADER_BYTES in *. cbn [f_data]. rewrite blen_app, Hfr. lia.
  - intros t Ht Hsome. apply Hstale; [done|]. destruct (decide (segment_path s = segment_path t)) as [E|?]; [rewrite <-E, Hf; by eexists|].
    by rewrite lookup_insert_ne in Hsome.
  - rewrite Hl. cbn. rewrite lookup_insert_eq. cbn. by rewrite blen_app.
  - eapply Forall_impl; [exact Ho|]. cbn. rewrite fmap_app. set_solver.
  - rewrite Hrec, list_to_map_snoc; [done|]. rewrite Forall_forall in Hkeys.
    intros (x & Ex & Hx)%list_elem_of_fmap. specialize (Hkeys _ Hx). cbn in *. lia.
  - apply StronglySorted_app_2; [|done|by repeat constructor]. intros x y Hx ->%list_elem_of_singleton.
    rewrite Forall_forall in Hkeys. split; [by apply Hkeys|]. cbn. intros Ex.
    destruct (reads_elem _ _ _ _ Hrd Hx) as (q & _ & g & Hg & Hbnd & _). rewrite Ex in Hg. assert (g = f) as -> by congruence. lia.
  - apply Forall_app. split; [done|]. constructor; [|constructor]. split; cbn; [done|done|done| |unfold HEADER_BYTES; lia].
    intros t Ht Hst'. specialize (Hlast t Ht). lia.
  - apply Forall2_app.
    + eapply reads_keep; [|exact Hrd]. intros k loc' q Hin. apply readable_extend; [done|]. rewrite Forall_forall in Hpl. apply (Hpl _ Hin).
    + constructor; [|constructor]. split; [done|]. eexists. cbn. rewrite lookup_insert_eq. split; [done|]. cbn [f_data].
      rewrite blen_app, Hfr. unfold HEADER_BYTES. split; [lia|]. unfold frame.
      replace (f_data f ++ to_le_bytes (blen p) ++ to_le_bytes (crc32c p) ++ p)
        with ((f_data f ++ to_le_bytes (blen p) ++ to_le_bytes (crc32c p)) ++ p ++ []) by (by rewrite app_nil_r, <-!app_assoc).
      apply slice_app_at; [|done]. by rewrite !blen_app, !blen_to_le_bytes.
Qed.

(** The index of an append is above everything. *)
Lemma lnext_above new max st locs a i :
  live_inv new max st locs a → lnext_ok a i → ll_floor a < i ∧ Forall (λ kv, kv.1 < i) (ll_entries a).
Proof.
  intros Hi Hn. unfold lnext_ok in Hn. destruct (last (ll_entries a)) as [[k p]|] eqn:El.
  - subst i. pose proof (live_keys _ _ _ _ _ Hi) as Hs. apply last_Some in El as [init El]. rewrite El in Hs |- *.
    rewrite fmap_app in Hs. assert (Hfk : ll_floor a < k).
    { pose proof (lv_reads _ _ _ _ _ Hi) as Hr. rewrite El in Hr. apply Forall2_app_inv_r in Hr as (l1 & l2 & _ & Hr & E).
      apply Forall2_cons_inv_r in Hr as (x & l3 & [Ex _] & _ & ->). pose proof (lv_placed _ _ _ _ _ Hi) as Hp. rewrite E in Hp.
      apply Forall_app in Hp as [_ [[[Hx _] _ _ _ _] _]%Forall_cons]. cbn in Ex. by rewrite <-Ex. }
    split; [lia|]. apply Forall_app. split; [|constructor; [cbn; lia|constructor]]. apply Forall_forall. intros x Hx.
    assert (x.1 < k); [|lia]. eapply StronglySorted_app_1_elem_of; [exact Hs|by apply list_elem_of_fmap_2|by left].
  - split; [done|]. by apply last_None in El as ->.
Qed.

Lemma append_live max st a i p :
  0 ≤ max < 2 ^ 63 → live_rel max st a → lpre a (OpAppend i p) →
  ∃ st', append i p st = (Ok tt, st') ∧ live_rel max st' (lpost a (OpAppend i p)).
Proof.
  intros Hm [locs Hi] (Hn & H0 & Hu & Hp). destruct (lnext_above _ _ _ _ _ _ Hi Hn) as [Hfl Hlt].
  assert (Hu' : is_u64 i) by (split; lia).
  unfold append. rewrite decide_True by done. mpure. mstep get_self_ok. unfold needs_rotation.
  assert (Hrot : ∃ st', rotate i st = (Ok tt, st') ∧ ∃ st2, append_frame i p st' = (Ok tt, st2) ∧ live_rel max st2 (lpost a (OpAppend i p))).
  { destruct (rotate_live max st locs a i Hi ltac:(lia) Hu' Hfl Hlt) as (st' & E & Hi' & Hl & Hf). exists st'. split; [done|].
    eapply append_frame_live; [exact Hi'|done|done|done|done|done|done|exact Hl|exact Hf|exact (proj1 Hm)]. }
  destruct (last (starts (slf st))) as [s|] eqn:El.
  - destruct (live_active _ _ _ _ _ _ Hi El) as (f & Hf & _ & ->). cbn [a_bytes]. rewrite (lv_max _ _ _ _ _ Hi). case_bool_decide as Hb.
    + destruct Hrot as (st' & E & ?). by rewrite (M_bind_Ok _ _ _ _ _ E).
    + mpure. eapply append_frame_live; [exact Hi|set_solver|done|done|done|done|done|exact El|exact Hf|]. lia.
  - rewrite (lv_active _ _ _ _ _ Hi), El. cbn [mbind option_bind]. destruct Hrot as (st' & E & ?). by rewrite (M_bind_Ok _ _ _ _ _ E).
Qed.

(** ** Truncating *)

Lemma live_lookup new max st locs a i loc :
  live_inv new max st locs a → records (slf st) !! i = Some loc ↔ (i, loc) ∈ locs.
Proof.
  intros Hi. rewrite (lv_records _ _ _ _ _ Hi), <-elem_of_list_to_map; [done|].
  by apply StronglySorted_lt_NoDup, order_keys, Hi.
Qed.

Lemma live_order new max st locs a x y :
  live_inv new max st locs a → x ∈ locs → y ∈ locs → x.1 < y.1 → before x y.
Proof.
  intros Hi Hx Hy Hlt. pose proof (lv_order _ _ _ _ _ Hi) as Ho. apply list_elem_of_split in Hy as (l1 & l2 & ->).
  apply StronglySorted_app in Ho as (H1 & _ & [H2 _]%StronglySorted_cons).
  apply elem_of_app in Hx as [Hx|[->|Hx]%elem_of_cons]; [apply H1; [done|by left]|lia|].
  rewrite Forall_forall in H2. destruct (H2 x Hx) as [? _]. lia.
Qed.

(** Cutting the segment of record [i] keeps the records before it. *)
Lemma cut_live new max l l' d locs a i :
  live_inv new max {| slf := l; disk := d |} locs a → 0 ≤ max < 2 ^ 63 →
  ∃ d', cut_frame i ((λ loc, (segment_start loc, wrap64 (payload_offset loc - HEADER_BYTES))) <$> records l !! i) {| slf := l'; disk := d |}
      = (Ok tt, {| slf := l'; disk := d' |})
    ∧ (∀ s, is_Some (d' !! segment_path s) → is_Some (d !! segment_path s))
    ∧ (∀ s f, d !! segment_path s = Some f → ∃ f', d' !! segment_path s = Some f' ∧ blen (f_data f') ≤ blen (f_data f))
    ∧ Forall2 (reads d') (filter (λ x, x.1 < i) locs) (filter (λ kv, kv.1 < i) (ll_entries a)).
Proof.
  intros Hi Hm.
  assert (Hrd : Forall2 (reads d) (filter (λ x, x.1 < i) locs) (filter (λ kv, kv.1 < i) (ll_entries a)))
    by (apply Forall2_filter_reads; [done|apply (lv_reads _ _ _ _ _ Hi)]).
  assert (Hnoop : ∀ c, (∀ x, c = Some x → ¬ x.1 < i) → cut_frame i c {| slf := l'; disk := d |} = (Ok tt, {| slf := l'; disk := d |}))
    by (intros; by apply cut_frame_noop).
  destruct (records l !! i) as [loc|] eqn:Er; cbn [fmap option_fmap option_map].
  2: { exists d. split; [by apply Hnoop|]. split; [done|]. split; [intros s f ?; by exists f|done]. }
  destruct (decide (segment_start loc < i)) as [Hlt|Hge].
  2: { exists d. split; [apply Hnoop; by intros x [= <-]|]. split; [done|]. split; [intros s f ?; by exists f|done]. }
  pose proof (proj1 (live_lookup _ _ _ _ _ i loc Hi) Er) as Hin.
  pose proof (lv_placed _ _ _ _ _ Hi) as Hp. rewrite Forall_forall in Hp. destruct (Hp _ Hin) as [_ Hs _ _ [Ho Hl]]. cbn in Hs, Ho, Hl.
  destruct (reads_elem _ _ _ _ (lv_reads _ _ _ _ _ Hi) Hin) as (p & _ & f & Hf & Hb & _). cbn in Hf, Hb.
  destruct (live_file _ _ _ _ _ _ Hi Hs) as (f' & Hf' & Hbd). cbn in Hf'. assert (f' = f) as -> by congruence. clear Hf'.
  unfold bounded, two32, HEADER_BYTES in *. rewrite wrap64_small by (unfold is_u64, two64; lia).
  set (n := payload_offset loc - 8) in *.
  eexists. split; [by apply cut_frame_file|]. split; [|split].
  - intros s. destruct (decide (segment_path (segment_start loc) = segment_path s)) as [<-|?]; [by rewrite Hf|by rewrite lookup_insert_ne].
  - intros s g Hg. destruct (decide (segment_path (segment_start loc) = segment_path s)) as [E|?]; [|exists g; by rewrite lookup_insert_ne].
    rewrite <-E, lookup_insert_eq. eexists. split; [done|]. cbn [f_data]. assert (g = f) as -> by congruence. unfold blen. rewrite length_take. lia.
  - eapply reads_keep; [|exact Hrd]. intros k loc' q [Hk Hin']%list_elem_of_filter (g & Hg & Hgb & Hgs). cbn in Hk.
    destruct (live_order _ _ _ _ _ _ _ Hi Hin' Hin Hk) as [_ Hbef]. destruct (Hp _ Hin') as [_ Hs' _ _ [Ho' Hl']]. cbn in Hs', Ho', Hl', Hbef.
    destruct (decide (segment_path (segment_start loc) = segment_path (segment_start loc'))) as [E|?]; [|exists g; by rewrite lookup_insert_ne].
    rewrite <-E, Hf in Hg. injection Hg as <-. apply segment_path_inj in E; [|by eapply live_start_u64..].
    specialize (Hbef (eq_sym E)). unfold HEADER_BYTES in *. eexists. rewrite E, lookup_insert_eq. split; [done|]. cbn [f_data].
    assert (Hn : payload_offset loc' + loc_len loc' ≤ n) by (unfold n; lia).
    split; [unfold blen in *; rewrite length_take; lia|]. rewrite slice_take by lia. exact Hgs.
Qed.

Lemma reopen_live l d max :
  Forall (λ s, ∃ f, d !! segment_path s = Some f ∧ bounded max f) (starts l) →
  reopen_active {| slf := l; disk := d |}
  = (Ok tt, {| slf := set_active (s ← last (starts l); f ← d !! segment_path s;
      Some {| a_start := s; a_file := segment_path s; a_bytes := blen (f_data f) |}) l; disk := d |}).
Proof.
  intros Hf. unfold reopen_active. mstep get_self_ok. cbn [slf]. destruct (last (starts l)) as [s|] eqn:El; [|done].
  rewrite Forall_forall in Hf. destruct (Hf s) as (f & Hd & _); [by apply last_Some_elem_of|].
  mstep io_ok; [|apply (metadata_len_ok _ _ _ Hd)]. mstep io_ok; [|apply (open_existing_ok _ _ _ Hd)].
  cbn [mbind option_bind]. by rewrite Hd.
Qed.

Lemma live_paths_NoDup (P : Z → Prop) `{!∀ s, Decision (P s)} new max st locs a :
  live_inv new max st locs a → NoDup (segment_path <$> filter P (starts (slf st))).
Proof.
  intros Hi. apply NoDup_fmap_2_strong.
  - intros s t [_ Hs]%list_elem_of_filter [_ Ht]%list_elem_of_filter. by apply segment_path_inj; eapply live_start_u64.
  - apply NoDup_filter, StronglySorted_lt_NoDup, Hi.
Qed.

Lemma path_deleted new max st locs a d (P : Z → Prop) `{!∀ s, Decision (P s)} s :
  live_inv new max st locs a → is_u64 s →
  delete_paths d (filter P (starts (slf st))) !! segment_path s
  = if decide (P s ∧ s ∈ starts (slf st)) then None else d !! segment_path s.
Proof.
  intros Hi Hs. rewrite delete_paths_lookup. apply decide_ext. rewrite list_elem_of_fmap. setoid_rewrite list_elem_of_filter. split.
  - intros (t & E & HP & Ht). apply segment_path_inj in E as ->; [done..|]. by eapply live_start_u64.
  - intros [? ?]. by exists s.
Qed.

Lemma truncate_live max st a i :
  0 ≤ max < 2 ^ 63 → live_rel max st a →
  ∃ st', truncate_from i st = (Ok tt, st') ∧ live_rel max st' (lpost a (OpTruncate i)).
Proof.
  intros Hm [locs Hi]. destruct st as [l d]. unfold truncate_from. mstep get_self_ok. cbn [slf]. mstep on_self_ok. cbn [slf disk].
  set (l1 := set_records _ l). destruct (cut_live _ _ _ l1 _ _ _ i Hi Hm) as (d1 & E1 & Hd1 & Hf1 & Hr1).
  rewrite (M_bind_Ok _ _ _ _ _ E1). pose proof Hi as [Hmx Hfl [Hst Hus] Hfs Hstale _ Ho Hrec Hord Hpl _]. cbn in *.
  rewrite Forall_forall in Hfs. rewrite Forall_forall in Hus.
  assert (Hf2 : Forall (λ s, is_Some (d1 !! segment_path s)) (filter (λ s, i ≤ s) (starts l))).
  { apply Forall_forall. intros s [_ Hs]%list_elem_of_filter. destruct (Hfs s Hs) as (f & Hf & _). destruct (Hf1 s f Hf) as (f' & ? & _). by eexists. }
  mstep remove_loop_ok; [|by apply (live_paths_NoDup _ _ _ _ _ _ Hi)|exact Hf2]. mstep on_self_ok. cbn [slf disk l1 set_records starts].
  assert (Ess : filter (λ s, s ∉ filter (λ s, i ≤ s) (starts l)) (starts l) = filter (λ s, s < i) (starts l)).
  { apply filter_ext_in. intros s Hs. rewrite list_elem_of_filter. split; [|lia]. intros Hn. destruct (decide (s < i)); [done|]. destruct Hn. split; [lia|done]. }
  rewrite Ess. set (d2 := delete_paths d1 _).
  assert (Hd2 : ∀ s, is_u64 s → d2 !! segment_path s = if decide (i ≤ s ∧ s ∈ starts l) then None else d1 !! segment_path s)
    by (intros s Hs; by apply (path_deleted _ _ _ _ _ d1 (λ s, i ≤ s) s Hi)).
  assert (Hf3 : Forall (λ s, ∃ f, d2 !! segment_path s = Some f ∧ bounded max f) (filter (λ s, s < i) (starts l))).
  { apply Forall_forall. intros s [Hs Hin]%list_elem_of_filter. rewrite Hd2, decide_False by (auto; lia).
    destruct (Hfs s Hin) as (f & Hf & Hb). destruct (Hf1 s f Hf) as (f' & ? & ?). exists f'. split; [done|]. unfold bounded in *. lia. }
  rewrite (reopen_live _ d2 max) by exact Hf3. eexists. split; [done|]. exists (filter (λ x, x.1 < i) locs).
  assert (Hsub : ∀ s, s ∈ filter (λ s, s < i) (starts l) → s < i ∧ s ∈ starts l) by (intros s; by rewrite list_elem_of_filter).
  split; cbn; try done.
  - split; [by apply StronglySorted_filter|]. apply Forall_forall. by intros s [_ ?%Hus]%Hsub.
  - intros s Hs. rewrite Hd2 by done. case_decide as Hc; [by intros []|]. intros Hs1%Hd1. destruct (Hstale s Hs Hs1); [|by right].
    left. apply list_elem_of_filter. split; [|done]. destruct (decide (s < i)); [done|]. destruct Hc. split; [lia|done].
  - apply Forall_forall. intros s [Hlt Hs]%Hsub. rewrite Forall_forall in Ho. destruct (Ho s Hs) as [?|[Hk|?]]; [by left| |by right; right].
    right. left. apply list_elem_of_fmap in Hk as (kv & -> & Hkv). apply list_elem_of_fmap_2. by apply list_elem_of_filter.
  - unfold l1. cbn. rewrite Hrec, retain_keys_list_to_map by (by apply StronglySorted_lt_NoDup, order_keys). f_equal.
    apply filter_ext_in. intros x _. by rewrite bool_decide_eq_true.
  - by apply StronglySorted_filter.
  - apply Forall_forall. intros x [Hx Hin]%list_elem_of_filter. rewrite Forall_forall in Hpl. destruct (Hpl x Hin) as [? ? ? Hn ?]. split; try done.
    + apply list_elem_of_filter. split; [lia|done].
    + intros s [_ Hs]%Hsub. by apply Hn.
  - eapply reads_keep; [|exact Hr1]. intros k loc q [Hk Hin]%list_elem_of_filter (f & Hf & ?). exists f. split; [|done]. rewrite Forall_forall in Hpl.
    destruct (Hpl _ Hin) as [_ Hs Hle _ _]. cbn in *. rewrite Hd2, decide_False by (auto; lia). done.
Qed.

(** ** Purging *)

(** The segments that the loop of [purge_through] deletes. *)
Fixpoint covered (i : Z) (ss : list Z) : list Z :=
  match ss with
  | s :: (n :: _) as rest => if decide (n - 1 ≤ i) then s :: covered i rest else covered i rest
  | _ => []
  end.

Lemma covered_spec i ss s :
  StronglySorted Z.lt ss → s ∈ covered i ss → s ∈ ss ∧ ∃ n, n ∈ ss ∧ s < n ∧ n - 1 ≤ i.
Proof.
  induction ss as [|x ss IH]; [by intros _ ?%elem_of_nil|]. intros [Hx Hs]%StronglySorted_cons.
  destruct ss as [|n ss]; [by intros ?%elem_of_nil|]. cbn [covered]. pose proof (Forall_inv Hx) as Hxn.
  assert (Hrest : s ∈ covered i (n :: ss) → s ∈ x :: n :: ss ∧ ∃ n', n' ∈ x :: n :: ss ∧ s < n' ∧ n' - 1 ≤ i).
  { intros (? & n' & ? & ?)%IH; [|done]. split; [by right|]. exists n'. split; [by right|done]. }
  case_decide; [|done]. intros [->|?]%elem_of_cons; [|by apply Hrest].
  split; [by left|]. exists n. split; [right; by left|done].
Qed.

Lemma covered_NoDup i ss : StronglySorted Z.lt ss → NoDup (covered i ss).
Proof.
  induction ss as [|x ss IH]; [constructor|]. intros [Hx Hs]%StronglySorted_cons. destruct ss as [|n ss]; [constructor|].
  cbn [covered]. case_decide; [|by apply IH]. constructor; [|by apply IH].
  intros Hc. destruct (covered_spec i (n :: ss) x Hs Hc) as [Hin _]. rewrite Forall_forall in Hx. specialize (Hx x Hin). lia.
Qed.

Lemma purge_step_live act i pre s ss l d f :
  StronglySorted Z.lt (pre ++ s :: ss) → Forall is_u64 (pre ++ s :: ss) → act = last (pre ++ s :: ss) →
  d !! segment_path s = Some f →
  purge_step act i (pre ++ s :: ss) (length pre) {| slf := l; disk := d |}
  = (Ok tt, {| slf := l; disk := match ss with
                                 | n :: _ => if decide (n - 1 ≤ i) then delete (segment_path s) d else d
                                 | [] => d
                                 end |}).
Proof.
  intros Hs Hu Ha Hf. unfold purge_step. rewrite list_lookup_middle by done.
  assert (En : (pre ++ s :: ss) !! (length pre + 1)%nat = head ss).
  { rewrite lookup_app_r by lia. replace (length pre + 1 - length pre)%nat with 1%nat by lia. by destruct ss. }
  rewrite En. destruct ss as [|n ss]; cbn [head]; [by rewrite Ha, last_snoc, decide_True|].
  pose proof (proj2 (proj2 (proj1 (StronglySorted_app _ _ _) Hs))) as [Hx _]%StronglySorted_cons.
  apply Forall_app in Hu as [_ [[Hs0 _] [[_ Hn1] _]%Forall_cons]%Forall_cons]. pose proof (Forall_inv Hx) as Hsn. cbn in Hsn.
  rewrite decide_False.
  2: { rewrite Ha. intros E. assert (Hin : s ∈ n :: ss) by (apply last_Some_elem_of; rewrite last_app_cons, last_cons_cons in E; done).
       rewrite Forall_forall in Hx. specialize (Hx s Hin). lia. }
  rewrite wrap64_small by (unfold is_u64; lia). case_decide; [|done]. by apply io_ok, (remove_file_ok _ _ _ Hf).
Qed.

Lemma purge_loop_live act i ss : ∀ pre l d,
  StronglySorted Z.lt (pre ++ ss) → Forall is_u64 (pre ++ ss) → act = last (pre ++ ss) →
  Forall (λ s, is_Some (d !! segment_path s)) ss →
  for_each (seq (length pre) (length ss)) (purge_step act i (pre ++ ss)) {| slf := l; disk := d |}
  = (Ok tt, {| slf := l; disk := delete_paths d (covered i ss) |}).
Proof.
  induction ss as [|s ss IH]; intros pre l d Hs Hu Ha Hf; [done|]. apply Forall_cons in Hf as [[f Hf] Hfs].
  cbn [length seq for_each]. rewrite (M_bind_Ok _ _ _ _ _ (purge_step_live act i pre s ss l d f Hs Hu Ha Hf)).
  set (d1 := match ss with [] => d | _ => _ end). specialize (IH (pre ++ [s]) l d1).
  rewrite <-!app_assoc, length_app, Nat.add_1_r in IH. cbn [app] in IH. rewrite IH; [|done..|].
  - do 2 f_equal. unfold d1. destruct ss as [|n ss]; [done|]. cbn [covered]. by case_decide.
  - unfold d1. destruct ss as [|n ss]; [done|]. case_decide; [|done]. rewrite Forall_forall in Hfs |- *. intros t Ht.
    rewrite lookup_delete_ne; [by apply Hfs|]. apply Forall_app in Hu as [_ [Hus Hut]%Forall_cons]. rewrite Forall_forall in Hut.
    intros E. apply segment_path_inj in E as ->; [|done|by apply Hut].
    apply StronglySorted_app in Hs as (_ & _ & [Hx _]%StronglySorted_cons). rewrite Forall_forall in Hx. specialize (Hx t Ht). lia.
Qed.

(** A segment with a number above the purged ones holds the record of that number. *)
Lemma live_owner max st locs a s :
  live_inv [] max st locs a → s ∈ starts (slf st) → ll_floor a < s → ∃ loc, (s, loc) ∈ locs ∧ segment_start loc = s.
Proof.
  intros Hi Hs Hlt. pose proof (lv_owner _ _ _ _ _ Hi) as Ho. rewrite Forall_forall in Ho.
  destruct (Ho s Hs) as [?|[Hk|?%elem_of_nil]]; [lia| |done]. rewrite <-(reads_keys _ _ _ (lv_reads _ _ _ _ _ Hi)) in Hk.
  apply list_elem_of_fmap in Hk as ([k loc] & E & Hin). cbn in E. subst k. exists loc. split; [done|].
  pose proof (lv_placed _ _ _ _ _ Hi) as Hp. rewrite Forall_forall in Hp. destruct (Hp _ Hin) as [_ _ Hle Hn _]. cbn in *.
  destruct (decide (segment_start loc < s)) as [Hlt'|]; [specialize (Hn s Hs Hlt'); lia|lia].
Qed.

(** The files of the active segment and of those with a record above [i] are kept. *)
Lemma purge_keeps max st locs a i s :
  live_inv [] max st locs a → s ∈ starts (slf st) →
  (last (starts (slf st)) = Some s ∨ ∃ x, x ∈ locs ∧ i < x.1 ∧ segment_start x.2 = s) →
  delete_paths (disk st) (covered i (starts (slf st))) !! segment_path s = disk st !! segment_path s.
Proof.
  intros Hi Hs Hor. pose proof (lv_starts _ _ _ _ _ Hi) as [Hst Hus]. rewrite delete_paths_lookup, decide_False; [done|].
  intros (t & E & Ht)%list_elem_of_fmap. destruct (covered_spec _ _ _ Hst Ht) as (Hin & n & Hn & Htn & Hni).
  rewrite Forall_forall in Hus. apply segment_path_inj in E as ->; [|by apply Hus..]. destruct Hor as [Hlast|([k loc] & Hx & Hk & <-)].
  - apply last_Some in Hlast as [init E]. rewrite E in Hn, Hst. apply elem_of_app in Hn as [Hn| ->%list_elem_of_singleton]; [|lia].
    assert (n < t); [|lia]. eapply StronglySorted_app_1_elem_of; [exact Hst|done|by left].
  - pose proof (lv_placed _ _ _ _ _ Hi) as Hp. rewrite Forall_forall in Hp. destruct (Hp _ Hx) as [_ _ _ Hnx _]. cbn in *. specialize (Hnx n Hn Htn). lia.
Qed.

Lemma purge_live max st a i :
  live_rel max st a → ∃ st', purge_through i st = (Ok tt, st') ∧ live_rel max st' (lpost a (OpPurge i)).
Proof.
  intros [locs Hi]. destruct st as [l d]. pose proof Hi as [Hmx Hfl [Hst Hus] Hfs Hstale Ha Ho Hrec Hord Hpl Hrd]. cbn in *.
  rewrite Forall_forall in Hfs. rewrite Forall_forall in Hpl. set (locs' := filter (λ x, i < x.1) locs).
  assert (Erec : retain_keys (λ k, bool_decide (i < k)) (records l) = list_to_map locs').
  { rewrite Hrec, retain_keys_list_to_map by (by apply StronglySorted_lt_NoDup, order_keys). f_equal.
    apply filter_ext_in. intros x _. by rewrite bool_decide_eq_true. }
  unfold purge_through. mstep on_self_ok. mstep get_self_ok. cbn [slf disk set_records starts active records]. rewrite Erec.
  assert (Eact : a_start <$> active l = last (starts l)).
  { rewrite Ha. destruct (last (starts l)) as [s|] eqn:El; [|done]. destruct (Hfs s) as (f & Hf & _); [by apply last_Some_elem_of|].
    cbn. by rewrite Hf. }
  rewrite Eact. erewrite M_bind_Ok; [|apply (purge_loop_live _ i (starts l) [] _ d); [done|done|done|]].
  2: { apply Forall_forall. intros s Hs. destruct (Hfs s Hs) as (f & ? & _). by eexists. }
  eexists. split; [apply on_self_ok|]. cbn [slf disk set_starts starts records set_records].
  set (ss := filter _ (starts l)).
  assert (Hss : ∀ s, s ∈ ss ↔ s ∈ starts l ∧ (last (starts l) = Some s ∨ ∃ x, x ∈ locs' ∧ segment_start x.2 = s)).
  { intros s. unfold ss. rewrite list_elem_of_filter, Exists_exists. rewrite (and_comm (s ∈ starts l)).
    assert (E : ∀ x, x ∈ map_to_list (list_to_map locs' : gmap Z RecordLoc) ↔ x ∈ locs').
    { intros [k loc]. rewrite elem_of_map_to_list. symmetry. apply elem_of_list_to_map.
      by apply StronglySorted_lt_NoDup, order_keys, StronglySorted_filter. }
    setoid_rewrite E. naive_solver. }
  assert (Hkeep : ∀ s, s ∈ ss → delete_paths d (covered i (starts l)) !! segment_path s = d !! segment_path s).
  { intros s [Hs Hor]%Hss. apply (purge_keeps _ _ _ _ _ _ Hi Hs). destruct Hor as [?|(x & [? ?]%list_elem_of_filter & ?)]; [by left|right; by exists x]. }
  set (d' := delete_paths d _) in *. assert (Hf' : Forall (λ s, ∃ f, d' !! segment_path s = Some f ∧ bounded max f) ss).
  { apply Forall_forall. intros s Hs. rewrite (Hkeep s Hs). apply Hfs. by apply Hss in Hs as []. }
  assert (Hlast : last ss = last (starts l)).
  { destruct (last (starts l)) as [s|] eqn:El; [|by apply last_None in El; unfold ss; rewrite El].
    apply last_Some in El as [init E]. unfold ss. rewrite E, filter_app, filter_cons, decide_True by (left; by rewrite ?last_snoc). by rewrite filter_nil, last_snoc. }
  exists locs'. split; cbn; try done.
  - lia.
  - split; [by apply StronglySorted_filter|]. apply Forall_forall. intros s [Hs _]%Hss. rewrite Forall_forall in Hus. by apply Hus.
  - intros s Hs Hd. assert (Hd0 : is_Some (d !! segment_path s)) by (unfold d' in Hd; rewrite delete_paths_lookup in Hd; by case_decide; [destruct Hd|]).
    destruct (Hstale s Hs Hd0) as [Hin|?]; [|right; lia]. destruct (decide (s ≤ ll_floor a `max` i)); [by right|left].
    apply Hss. split; [done|]. right. destruct (live_owner _ _ _ _ s Hi Hin ltac:(lia)) as (loc & Hl & E).
    exists (s, loc). split; [|done]. apply list_elem_of_filter. split; [cbn; lia|done].
  - rewrite Hlast, Ha. destruct (last (starts l)) as [s|] eqn:El; [|done]. cbn. rewrite Hkeep; [done|].
    apply Hss. split; [by apply last_Some_elem_of|by left].
  - apply Forall_forall. intros s [Hs _]%Hss. rewrite Forall_forall in Ho. destruct (Ho s Hs) as [?|[Hk|?]]; [left; lia| |by right; right].
    destruct (decide (s ≤ i)); [left; lia|]. right. left. apply list_elem_of_fmap in Hk as (kv & -> & Hkv).
    apply list_elem_of_fmap_2, list_elem_of_filter. split; [lia|done].
  - by apply StronglySorted_filter.
  - apply Forall_forall. intros x Hx. pose proof Hx as [Hxi Hin]%list_elem_of_filter. destruct (Hpl x Hin) as [[? ?] ? ? Hn ?]. split; try done.
    + split; [lia|done].
    + apply Hss. split; [done|]. right. by exists x.
    + intros s [Hs _]%Hss. by apply Hn.
  - eapply reads_keep; [|apply Forall2_filter_reads; [done|exact Hrd]]. intros k loc q Hx (f & Hf & ?). exists f. split; [|done]. rewrite Hkeep; [done|].
    apply Hss. pose proof Hx as [_ Hin]%list_elem_of_filter. split; [apply (Hpl _ Hin)|]. right. by exists (k, loc).
Qed.

(** ** Histories *)

Lemma live_sim max st a o :
  0 ≤ max < 2 ^ 63 → live_rel max st a → lpre a o → ∃ st', run_op o st = (Ok tt, st') ∧ live_rel max st' (lpost a o).
Proof.
  intros Hm Hr Hp. destruct o as [i p| |i|i]; cbn [run_op].
  - by apply append_live.
  - destruct Hr as [locs Hi]. destruct (sync_live _ _ _ _ _ Hi) as (st' & E & _ & Hi'). exists st'. split; [done|]. by exists locs.
  - by apply truncate_live.
  - by apply purge_live.
Qed.

Lemma live_run max ops : ∀ st a,
  0 ≤ max < 2 ^ 63 → live_rel max st a → lpres a ops →
  ∃ st', run_ops ops st = (Ok tt, st') ∧ live_rel max st' (foldl lpost a ops).
Proof.
  induction ops as [|o ops IH]; intros st a Hm Hr Hp; [by exists st|]. destruct Hp as [Ho Hp].
  destruct (live_sim _ _ _ _ Hm Hr Ho) as (st1 & E1 & Hr1). destruct (IH _ _ Hm Hr1 Hp) as (st2 & E2 & Hr2).
  exists st2. split; [|done]. unfold run_ops. cbn [for_each]. by rewrite (M_bind_Ok _ _ _ _ _ E1).
Qed.

(** C6: From an empty directory, every history of appends, syncs, truncations at any index
    and purges up to any index succeeds, and [read_all], [read_range] and [last_index]
    then report exactly the records of the abstract log, provided that each append
    continues the records or, on an empty log, has an index above every purged one, that
    indexes stay below 2^64 - 1 and payloads below 4 GiB, and that the process is not
    restarted. The documented freedom to append any index to an empty log does not extend
    to purged numbers ([append_reused_index_reads_old]), and restarts are the subject of
    [log_crash_recovers]. *)
Theorem log_history_refines max ops :
  0 ≤ max < 2 ^ 63 → lpres llog_empty ops →
  let a := foldl lpost llog_empty ops in
  ∃ l st, open_with_segment_max max ∅ = (Ok l, ∅)
    ∧ run_ops ops {| slf := l; disk := ∅ |} = (Ok tt, st)
    ∧ read_all st = (Ok (ll_entries a), st)
    ∧ (∀ from to, from ≤ to →
        read_range from to st = (Ok (filter (λ kv, from ≤ kv.1 < to) (ll_entries a)), st))
    ∧ last_index (slf st) = fst <$> last (ll_entries a).
Proof.
  intros Hm Hp a. destruct (log_rel_fresh max) as (l & El & _). pose proof El as El'. injection El' as <-.
  destruct (live_run max ops _ _ Hm (live_fresh max) Hp) as (st & E & Hr). eexists _, st. split; [exact El|]. split; [exact E|].
  split; [by eapply live_read_all|]. split; [intros; by eapply live_read_range|by eapply live_last_index].
Qed.
End LogLive.

Module LogLiveDemo.
#[local] Existing Instance sum_crc32c.

(** A purge past the end, an append far above it, and a truncation below the purged
    records. *)
Definition ops : list log_op :=
  [OpAppend 5 [x01]; OpAppend 6 [x02]; OpSync; OpPurge 20; OpAppend 30 [x03]; OpAppend 31 [x04]; OpTruncate 31].

Lemma log_history_refines_witness :
  ∃ l st, open_with_segment_max 1 ∅ = (Ok l, ∅) ∧ run_ops ops {| slf := l; disk := ∅ |} = (Ok tt, st)
    ∧ read_all st = (Ok [(30, [x03])], st) ∧ last_index (slf st) = Some 30.
Proof.
  destruct (log_history_refines 1 ops) as (l & st & ? & ? & ? & _ & ?).
  - lia.
  - vm_compute. repeat split; done.
  - exists l, st. done.
Defined.

(** On an empty log, the doc of [append] allows any index.  A number that was purged may
    still have a file that the log has forgotten: the new segment opens it, the record is
    written behind the old one and read at the place of the old one. *)
Theorem append_reused_index_reads_old :
  (read_all (run_ops [OpAppend 1 [x01]; OpPurge 1; OpAppend 100 [x02]; OpPurge 50; OpTruncate 100; OpAppend 1 [x09]]
    (st_empty 1)).2).1 = Ok [(1, [x01])].
Proof. vm_compute. reflexivity. Qed.
End LogLiveDemo.
