(* ===== verification/LogKilled.v ===== *)
(** * Kills inside the operations of the segmented log

    [purge_through] deletes the segments it covers one after another, oldest first: a
    kill after any number of them leaves a log that only has more to purge.
    [truncate_from] cuts one segment before it deletes the later ones: a kill in between
    leaves a log with a hole. *)

From S2P Require Import Prelude Bytes CoreError FileSys SegmentedLog LogScan LogInv LogOps LogTrunc LogPurge LogCrash LogSpec LogCorrect.

Open Scope Z_scope.

Section LogKilled.
Context `{Crc32c}.

(** [purge_through] up to the first [k] rounds of its loop. *)
Definition purge_rounds (index : Z) (k : nat) : M LogSt Error unit :=
  on_self (λ l, set_records (retain_keys (λ k, bool_decide (index < k)) (records l)) l);;
  l ← get_self;
  for_each (take k (seq 0 (length (starts l)))) (purge_step (a_start <$> active l) index (starts l)).

(** [truncate_from] up to the first [k] deletions. *)
Definition truncate_rounds (index : Z) (k : nat) : M LogSt Error unit :=
  l ← get_self;
  let cut := (λ loc, (segment_start loc, wrap64 (payload_offset loc - HEADER_BYTES)))
               <$> records l !! index in
  let to_delete := filter (λ s, index ≤ s) (starts l) in
  on_self (λ l, set_records (retain_keys (λ k, bool_decide (k < index)) (records l)) l);;
  cut_frame index cut;;
  for_each (take k to_delete) (λ start, io (remove_file (segment_path start))).

Lemma purge_rounds_disk st segs floor index k :
  log_inv st segs floor →
  ∃ st1 b c, purge_rounds index k st = (Ok tt, st1) ∧ disk st1 = delete_paths (disk st) b.*1
    ∧ segs = b ++ c ∧ (segs ≠ [] → c ≠ []) ∧ Forall (λ x, seg_end x - 1 ≤ index) b.
Proof.
  intros Hi. destruct st as [l d]. pose proof (li_disk _ _ _ Hi) as Hd. pose proof (li_starts _ _ _ Hi) as Hst.
  pose proof (li_active _ _ _ Hi) as Hact. cbn in Hd, Hst, Hact.
  unfold purge_rounds. mstep on_self_ok. mstep get_self_ok. cbn [slf disk set_records starts active].
  rewrite Hst, Hact. destruct (decide (segs = [])) as [->|Hne].
  { eexists _, [], []. split; [cbn; by rewrite take_nil|]. done. }
  destruct (purge_segs_split index segs) as (a & Es & Ha).
  destruct (exists_last (purge_segs_nonempty index _ Hne)) as (init & sg & Ep).
  pose proof (purge_segs_live _ _ _ _ _ (dr_chain _ _ _ Hd) Ep) as Hlive. rewrite Ep in Es.
  assert (Elast : a_start <$> active_of segs = Some sg.1).
  { unfold active_of. by rewrite Es, app_assoc, last_snoc. }
  rewrite Elast. rewrite Es in Hd |- *. eexists _, (take k a), (drop k a ++ init ++ [sg]).
  split; [by apply purge_loop_rounds|]. split; [done|]. split; [by rewrite (app_assoc (take k a)), take_drop|].
  split; [intros _ [_ [_ [=]]%app_nil]%app_nil|by apply Forall_take].
Qed.

(** What a kill in the loop leaves is a log that stands for the purged one. *)
Lemma purge_killed max st a index a' k :
  log_rel max st a → astep a (OpPurge index) a' →
  ∃ st1 l, purge_rounds index k st = (Ok tt, st1) ∧ log_rel max {| slf := l; disk := disk st1 |} a'.
Proof.
  intros [Emax (segs & Hrep)] Hstep. inversion Hstep as [| | |? ? Hfl Hlt]; subst. pose proof Hrep as (Hi & _ & _ & Hn & _).
  destruct (purge_rounds_disk st segs _ index k Hi) as (st1 & b & c & E & Ed & Es & Hc & Hb).
  set (l := {| segment_max_bytes := segment_max_bytes (slf st); starts := c.*1;
               records := list_to_map (filter (λ kv, index < kv.1) (all_locs c)); active := active_of c |}).
  exists st1, l. split; [done|]. eapply purged_rel; [exact Hstep|done|exact Hrep|exact Es|exact Hc|exact Hb| |].
  - split; cbn; [|done..|].
    + rewrite Ed. destruct (decide (c = [])) as [->|Hne].
      * destruct segs; [|by destruct Hc]. symmetry in Es. apply app_nil in Es as [-> _]. apply Hi.
      * apply disk_rep_drop_prefix; [rewrite <-Es; apply Hi|done].
    + intros Hne. assert (Hne' : segs ≠ []) by (rewrite Es; intros [_ ?]%app_nil; done).
      destruct (exists_last Hne) as (init & sg & ->). rewrite app_assoc in Es.
      eapply next_allowed; [exact Hn|done|done|]. by rewrite Es, !next_index_snoc.
  - cbn. rewrite Ed. intros name f Hf. rewrite delete_paths_lookup in Hf. case_decide; [done|by left].
Qed.
End LogKilled.

(** ** A kill inside a truncation *)

Module LogKilledDemo.
#[local] Existing Instance sum_crc32c.

(** Five records in segments of two, killed in [truncate_from 2] after the cut and
    before the first or the second deletion, and opened again. *)
Definition five : LogSt :=
  (run_ops [OpAppend 1 [x01]; OpAppend 2 [x02]; OpAppend 3 [x03]; OpAppend 4 [x04]; OpAppend 5 [x05]; OpSync] (st_empty 10)).2.
Definition killed (k : nat) : LogSt := reopen (truncate_rounds 2 k five).2.

(** The log that is opened has a hole where the truncated records were, followed by
    records that the caller had asked to drop; a new record at 2 goes behind them and
    comes back as 6. *)
Theorem interrupted_truncate_leaves_hole :
  (read_all five).1 = Ok [(1, [x01]); (2, [x02]); (3, [x03]); (4, [x04]); (5, [x05])]
  ∧ (read_all (killed 0)).1 = Ok [(1, [x01]); (3, [x03]); (4, [x04]); (5, [x05])]
  ∧ (read_all (killed 1)).1 = Ok [(1, [x01]); (5, [x05])]
  ∧ (read_all (reopen (run_ops [OpAppend 2 [x12]; OpSync] (killed 0)).2)).1
    = Ok [(1, [x01]); (3, [x03]); (4, [x04]); (5, [x05]); (6, [x12])].
Proof. vm_compute. done. Qed.
End LogKilledDemo.
