(* ===== verification/External.v ===== *)
(** * Third-party interfaces of the core crate

    What [lumen-core] uses of [serde_json], [time], [uuid] and [tantivy], as
    classes: the operations the source calls and the documented facts it relies
    on.  Nothing else is known about them. *)

From S2P Require Import Prelude Bytes.

Open Scope Z_scope.

(** [serde_json::Value].  An object is iterated in map order, each key once.
    [is_x] says whether [as_x] returns: a value of the type, and [None] on others. *)
Class Json := {
  Value : Type;
  f64 : Type;
  from_slice : list byte → option Value;
  as_object : Value → option (list (string * Value));
  is_string : Value → bool;
  as_str : Value → option string;
  is_i64 : Value → bool;
  as_i64 : Value → option Z;
  is_number : Value → bool;
  as_f64 : Value → option f64;
  as_object_keys v o : as_object v = Some o → NoDup o.*1;
  is_string_as_str v : is_string v = true ↔ is_Some (as_str v);
  is_i64_as_i64 v : is_i64 v = true ↔ is_Some (as_i64 v);
  is_number_as_f64 v : is_number v = true ↔ is_Some (as_f64 v)
}.

(** [OffsetDateTime::parse(s, &Rfc3339)]. *)
Class Rfc3339 := {
  OffsetDateTime : Type;
  parse_rfc3339 : string → option OffsetDateTime
}.

(** [uuid::Uuid]: printing and parsing round-trip.  [Uuid::new_v4] is random;
    where the source calls it, the fresh value is an argument. *)
Class UuidApi := {
  Uuid : Type;
  Uuid_eq_dec :: EqDecision Uuid;
  Uuid_countable :: Countable Uuid;
  uuid_to_string : Uuid → string;
  uuid_parse_str : string → option Uuid;
  uuid_parse_to_string u : uuid_parse_str (uuid_to_string u) = Some u
}.

Lemma uuid_to_string_inj `{UuidApi} u v : uuid_to_string u = uuid_to_string v → u = v.
Proof.
  intros E. apply (f_equal uuid_parse_str) in E. rewrite !uuid_parse_to_string in E. congruence.
Qed.

(** ** Tantivy: schemas

    The builder calls the source makes, with the options it sets. *)

Inductive TextOptions :=
| STRING_stored
| TEXT
| TextOpts (indexed_raw_basic : bool) (fast_raw : bool).

Inductive schema_call :=
| add_text_field (name : string) (opts : TextOptions)
| add_bytes_field_stored (name : string)
| add_i64_field (name : string) (indexed fast : bool)
| add_f64_field (name : string) (indexed fast : bool)
| add_date_field (name : string) (indexed fast : bool).

Definition call_name (c : schema_call) : string :=
  match c with
  | add_text_field n _ | add_bytes_field_stored n | add_i64_field n _ _
  | add_f64_field n _ _ | add_date_field n _ _ => n
  end.

Definition starts_with_hyphen (name : string) : bool :=
  match name with
  | String c _ => bool_decide (c = "-"%char)
  | EmptyString => false
  end.

(** [SchemaBuilder::build] on the calls made, and [Schema::get_field].  Adding a field
    asserts that its name is a valid one (a name has at least one character and does not
    start with a hyphen) and is not taken; [build] stands for the result when no assertion
    fails. *)
Class TantivySchema := {
  Schema : Type;
  FieldId : Type;
  FieldId_eq_dec :: EqDecision FieldId;
  is_valid_field_name : string → bool;
  build : list schema_call → Schema;
  get_field : Schema → string → option FieldId;
  is_valid_field_name_iff name : is_valid_field_name name = true ↔ name ≠ "" ∧ starts_with_hyphen name = false;
  get_field_build calls name :
    NoDup (call_name <$> calls) → Forall (λ c, is_valid_field_name (call_name c) = true) calls →
    is_Some (get_field (build calls) name) ↔ name ∈ call_name <$> calls;
  get_field_inj s n1 n2 f : get_field s n1 = Some f → get_field s n2 = Some f → n1 = n2
}.

(** The calls that the builder accepts. *)
Definition accepted `{TantivySchema} (calls : list schema_call) : Prop :=
  NoDup (call_name <$> calls) ∧ Forall (λ c, is_valid_field_name (call_name c) = true) calls.

#[global] Instance accepted_dec `{TantivySchema} calls : Decision (accepted calls).
Proof. unfold accepted. apply _. Defined.
