(* ===== verification/Samples.v ===== *)
(** * Concrete instances of the third-party interfaces

    Small executable models of JSON values, dates, uuids and schemas, used to
    evaluate the development on concrete inputs. *)

From S2P Require Import Prelude Bytes External.

Open Scope Z_scope.

Module Samples.

Inductive jvalue :=
| JStr (s : string)
| JInt (z : Z)
| JObj (o : list (string * jvalue)).

(** One byte is an object with an integer field [n], two bytes one with a string
    field [s], anything else is not JSON. *)
Definition jparse (bs : list byte) : option jvalue :=
  match bs with
  | [b] => Some (JObj [("n", JInt (Z_of_byte b))])
  | [_; _] => Some (JObj [("s", JStr "text")])
  | _ => None
  end.

Definition jobject (v : jvalue) : option (list (string * jvalue)) :=
  match v with
  | JObj o => if decide (NoDup o.*1) then Some o else None
  | _ => None
  end.

Definition jstr (v : jvalue) : option string := match v with JStr s => Some s | _ => None end.
Definition jint (v : jvalue) : option Z := match v with JInt z => Some z | _ => None end.
Definition is_some {A} (o : option A) : bool := match o with Some _ => true | None => false end.

Program Definition json : Json := {|
  Value := jvalue; f64 := Z; from_slice := jparse; as_object := jobject;
  is_string v := is_some (jstr v); as_str := jstr;
  is_i64 v := is_some (jint v); as_i64 := jint;
  is_number v := is_some (jint v); as_f64 := jint
|}.
Next Obligation. intros [| |l] o; cbn; try done. case_decide; by intros [= <-]. Qed.
Next Obligation. intros v. cbn. destruct (jstr v); cbn; split; [by eexists|done|done|by intros []]. Qed.
Next Obligation. intros v. cbn. destruct (jint v); cbn; split; [by eexists|done|done|by intros []]. Qed.
Next Obligation. intros v. cbn. destruct (jint v); cbn; split; [by eexists|done|done|by intros []]. Qed.

Definition rfc3339 : Rfc3339 := {|
  OffsetDateTime := string;
  parse_rfc3339 s := if decide (s = "") then None else Some s
|}.

Program Definition uuid : UuidApi := {|
  Uuid := string; uuid_to_string u := u; uuid_parse_str s := Some s
|}.
Next Obligation. done. Qed.

Program Definition schema : TantivySchema := {|
  Schema := list schema_call;
  FieldId := string;
  is_valid_field_name name := negb (bool_decide (name = "")) && negb (starts_with_hyphen name);
  build calls := calls;
  get_field calls name := if decide (name ∈ call_name <$> calls) then Some name else None
|}.
Next Obligation.
  intros name. cbn. rewrite andb_true_iff, !negb_true_iff, bool_decide_eq_false. done.
Qed.
Next Obligation.
  intros calls name _ _. cbn. case_decide; split; try done; by intros [].
Qed.
Next Obligation. intros s n1 n2 f. cbn. repeat case_decide; congruence. Qed.

End Samples.
