(* ===== verification/Proto.v ===== *)
(** * Protobuf messages (crates/proto/proto/lumen.proto, raft.proto)

    One record per message, one inductive per [oneof], in the shape prost gives
    them: a message-typed field is an [option], [repeated] is a list, [map] is a
    [BTreeMap] (the build script asks for [btree_map]), an enum field is its
    [i32] value.  The wire format is prost's: the class [Codec] is all the
    program uses of it. *)

From S2P Require Import Prelude Bytes.

Open Scope Z_scope.

(** [prost::Message]: [encode_to_vec] and [decode] of a message type. *)
Class Codec (T : Type) := {
  encode_to_vec : T → list byte;
  decode : list byte → option T;
  decode_encode m : decode (encode_to_vec m) = Some m
}.

Module v1.

Record Field := {
  field_name : string;
  field_type : Z;
  field_indexed : bool;
  field_fast : bool
}.

Record Mapping := { mapping_fields : list Field }.

Inductive FieldType :=
| Unspecified | Text | Keyword | I64 | F64 | Date.

(** [ty as i32]. *)
Definition FieldType_i32 (ty : FieldType) : Z :=
  match ty with
  | Unspecified => 0
  | Text => 1
  | Keyword => 2
  | I64 => 3
  | F64 => 4
  | Date => 5
  end.

(** [FieldType::try_from(i32)]: the values of the enum in [lumen.proto]. *)
Definition FieldType_try_from (z : Z) : option FieldType :=
  if decide (z = 0) then Some Unspecified
  else if decide (z = 1) then Some Text
  else if decide (z = 2) then Some Keyword
  else if decide (z = 3) then Some I64
  else if decide (z = 4) then Some F64
  else if decide (z = 5) then Some Date
  else None.

Record IndexDocument := {
  index_collection : string;
  index_id : string;
  index_source : list byte
}.

Record DeleteDocument := {
  delete_collection : string;
  delete_id : string
}.

Record CreateCollection := {
  create_collection : string;
  create_mapping : option Mapping;
  create_uuid : string
}.

Record DropCollection := { drop_collection_name : string }.

Inductive Op :=
| OpIndexDocument (index : IndexDocument)
| OpDeleteDocument (delete : DeleteDocument)
| OpCreateCollection (create : CreateCollection)
| OpDropCollection (drop : DropCollection).

Record Command := { op : option Op }.

Record WalEntry := {
  seq : Z;
  command : option Command
}.

Record CatalogEntry := {
  entry_name : string;
  entry_uuid : string;
  entry_mapping : option Mapping;
  entry_created_seq : Z
}.

Record CatalogSnapshot := {
  applied_seq : Z;
  entries : list CatalogEntry
}.

(** [CatalogSnapshot::default()]. *)
Definition CatalogSnapshot_default : CatalogSnapshot :=
  {| applied_seq := 0; entries := [] |}.

#[global] Instance Field_eq_dec : EqDecision Field.
Proof. solve_decision. Defined.
#[global] Instance Mapping_eq_dec : EqDecision Mapping.
Proof. solve_decision. Defined.
#[global] Instance IndexDocument_eq_dec : EqDecision IndexDocument.
Proof. solve_decision. Defined.
#[global] Instance DeleteDocument_eq_dec : EqDecision DeleteDocument.
Proof. solve_decision. Defined.
#[global] Instance CreateCollection_eq_dec : EqDecision CreateCollection.
Proof. solve_decision. Defined.
#[global] Instance DropCollection_eq_dec : EqDecision DropCollection.
Proof. solve_decision. Defined.
#[global] Instance Op_eq_dec : EqDecision Op.
Proof. solve_decision. Defined.
#[global] Instance Command_eq_dec : EqDecision Command.
Proof. solve_decision. Defined.

End v1.

Module raft.

Record LeaderId := { leader_term : Z; leader_node_id : Z }.
Record Vote := { vote_leader_id : option LeaderId; vote_committed : bool }.
Record LogId := { log_leader_id : option LeaderId; log_index : Z }.
Record Node := { node_id : Z; rpc_addr : string }.
Record NodeIdSet := { node_ids : list Z }.
Record Membership := { configs : list NodeIdSet; nodes : gmap Z Node }.
Record StoredMembership := { sm_log_id : option LogId; sm_membership : option Membership }.

(** [raft::Unit] has no field: [Blank], [Success] and [Conflict] carry it. *)
Inductive Payload :=
| PayloadBlank
| PayloadNormal (cmd : v1.Command)
| PayloadMembership (m : Membership).

Record Entry := { entry_log_id : option LogId; entry_payload : option Payload }.

Record SnapshotMeta := {
  meta_last_log_id : option LogId;
  meta_last_membership : option StoredMembership;
  meta_snapshot_id : string
}.

Record VoteRequest := { vq_vote : option Vote; vq_last_log_id : option LogId }.
Record VoteResponse := {
  vr_vote : option Vote;
  vr_vote_granted : bool;
  vr_last_log_id : option LogId
}.
Record AppendEntriesRequest := {
  aq_vote : option Vote;
  aq_prev_log_id : option LogId;
  aq_entries : list Entry;
  aq_leader_commit : option LogId
}.
Record PartialSuccess := { matching : option LogId }.
Inductive AppendEntriesResult :=
| ResultSuccess
| ResultPartialSuccess (p : PartialSuccess)
| ResultConflict
| ResultHigherVote (v : Vote).
Record AppendEntriesResponse := { ar_result : option AppendEntriesResult }.
Record SnapshotRequest := {
  sq_vote : option Vote;
  sq_meta : option SnapshotMeta;
  sq_data : list byte
}.
Record SnapshotResponse := { sr_vote : option Vote }.
Record RaftMeta := {
  rm_vote : option Vote;
  rm_committed : option LogId;
  rm_last_purged : option LogId
}.

#[global] Instance Node_eq_dec : EqDecision Node.
Proof. solve_decision. Defined.

End raft.
