(* ===== verification/SampleCodecs.v ===== *)
(** * A concrete codec

    An executable encoding of the protobuf messages, used where the development
    is evaluated on concrete inputs.  It is not prost's wire format; it has the
    one property the program relies on. *)

From S2P Require Import Prelude Bytes Proto.

Open Scope Z_scope.

Module SampleCodecs.

Fixpoint pos_bytes (p : positive) : list byte :=
  match p with
  | xH => []
  | xO p => x00 :: pos_bytes p
  | xI p => x01 :: pos_bytes p
  end.

Fixpoint bytes_pos (bs : list byte) : positive :=
  match bs with
  | [] => xH
  | x00 :: bs => xO (bytes_pos bs)
  | _ :: bs => xI (bytes_pos bs)
  end.

Lemma bytes_pos_bytes p : bytes_pos (pos_bytes p) = p.
Proof. induction p; cbn; by f_equal. Qed.

Program Definition countable_codec (A : Type) `{Countable A} : Codec A := {|
  encode_to_vec m := pos_bytes (countable.encode m);
  decode bs := countable.decode (bytes_pos bs)
|}.
Next Obligation. intros A ?? m. cbn. by rewrite bytes_pos_bytes, countable.decode_encode. Qed.

#[export] Instance byte_countable : Countable byte :=
  inj_countable Byte.to_N Byte.of_N Byte.of_to_N.

Module Field.
Definition to (f : v1.Field) := (v1.field_name f, v1.field_type f, v1.field_indexed f, v1.field_fast f).
Definition from '(n, t, i, b) : v1.Field :=
  {| v1.field_name := n; v1.field_type := t; v1.field_indexed := i; v1.field_fast := b |}.
End Field.
#[export] Instance Field_countable : Countable v1.Field.
Proof. refine (inj_countable' Field.to Field.from _). by intros []. Defined.

#[export] Instance Mapping_countable : Countable v1.Mapping.
Proof. refine (inj_countable' v1.mapping_fields v1.Build_Mapping _). by intros []. Defined.

#[export] Instance IndexDocument_countable : Countable v1.IndexDocument.
Proof.
  refine (inj_countable' (λ d, (v1.index_collection d, v1.index_id d, v1.index_source d))
    (λ '(c, i, s), v1.Build_IndexDocument c i s) _). by intros [].
Defined.

#[export] Instance DeleteDocument_countable : Countable v1.DeleteDocument.
Proof.
  refine (inj_countable' (λ d, (v1.delete_collection d, v1.delete_id d))
    (λ '(c, i), v1.Build_DeleteDocument c i) _). by intros [].
Defined.

#[export] Instance CreateCollection_countable : Countable v1.CreateCollection.
Proof.
  refine (inj_countable' (λ d, (v1.create_collection d, v1.create_mapping d, v1.create_uuid d))
    (λ '(c, m, u), v1.Build_CreateCollection c m u) _). by intros [].
Defined.

#[export] Instance DropCollection_countable : Countable v1.DropCollection.
Proof. refine (inj_countable' v1.drop_collection_name v1.Build_DropCollection _). by intros []. Defined.

Definition op_sum (o : v1.Op) :
    v1.IndexDocument + v1.DeleteDocument + (v1.CreateCollection + v1.DropCollection) :=
  match o with
  | v1.OpIndexDocument i => inl (inl i)
  | v1.OpDeleteDocument d => inl (inr d)
  | v1.OpCreateCollection c => inr (inl c)
  | v1.OpDropCollection d => inr (inr d)
  end.
Definition sum_op (s : v1.IndexDocument + v1.DeleteDocument + (v1.CreateCollection + v1.DropCollection)) :
    v1.Op :=
  match s with
  | inl (inl i) => v1.OpIndexDocument i
  | inl (inr d) => v1.OpDeleteDocument d
  | inr (inl c) => v1.OpCreateCollection c
  | inr (inr d) => v1.OpDropCollection d
  end.
#[export] Instance Op_countable : Countable v1.Op.
Proof. refine (inj_countable' op_sum sum_op _). by intros []. Defined.

#[export] Instance Command_countable : Countable v1.Command.
Proof. refine (inj_countable' v1.op v1.Build_Command _). by intros []. Defined.

#[export] Instance WalEntry_eq_dec : EqDecision v1.WalEntry.
Proof. solve_decision. Defined.
#[export] Instance WalEntry_countable : Countable v1.WalEntry.
Proof.
  refine (inj_countable' (λ e, (v1.seq e, v1.command e)) (λ '(s, c), v1.Build_WalEntry s c) _).
  by intros [].
Defined.

#[export] Instance CatalogEntry_eq_dec : EqDecision v1.CatalogEntry.
Proof. solve_decision. Defined.
#[export] Instance CatalogEntry_countable : Countable v1.CatalogEntry.
Proof.
  refine (inj_countable' (λ e, (v1.entry_name e, v1.entry_uuid e, v1.entry_mapping e, v1.entry_created_seq e))
    (λ '(n, u, m, s), v1.Build_CatalogEntry n u m s) _). by intros [].
Defined.

#[export] Instance CatalogSnapshot_eq_dec : EqDecision v1.CatalogSnapshot.
Proof. solve_decision. Defined.
#[export] Instance CatalogSnapshot_countable : Countable v1.CatalogSnapshot.
Proof.
  refine (inj_countable' (λ e, (v1.applied_seq e, v1.entries e))
    (λ '(s, es), v1.Build_CatalogSnapshot s es) _). by intros [].
Defined.

Definition wal_entry_codec : Codec v1.WalEntry := countable_codec v1.WalEntry.
Definition snapshot_codec : Codec v1.CatalogSnapshot := countable_codec v1.CatalogSnapshot.

End SampleCodecs.
