(* ===== verification/WalInterface.v ===== *)
(** * What the write-ahead log promises to the catalog

    The interface between [wal.rs] and [catalog.rs].  [w_rel w es floor last] says
    that the log [w] durably holds the entries [es] above [floor] and that [last]
    is the sequence number of the newest entry ever appended. *)

From S2P Require Import Prelude Bytes CoreError Proto.

Open Scope Z_scope.

Class WriteAheadLog := {
  (** The open log together with its directory, and a closed directory. *)
  wal : Type;
  wdir : Type;
  w_dir : wal → wdir;
  w_empty : wdir;
  w_open : M wdir Error (wal * list v1.WalEntry);
  w_append : v1.WalEntry → M wal Error unit;
  w_trim : Z → M wal Error unit;
  (** What a crash may leave of a directory, at rest or during an append. *)
  w_crash : wdir → wdir → Prop;
  w_crash_in_append : v1.WalEntry → wal → wdir → Prop;
  (** The entry fits in a record. *)
  w_fits : v1.WalEntry → Prop;
  w_rel : wal → list v1.WalEntry → Z → Z → Prop;

  w_open_empty : ∃ w, w_open w_empty = (Ok (w, []), w_dir w) ∧ w_rel w [] (-1) 0;
  w_append_ok w es fl last e :
    w_rel w es fl last → v1.seq e = last + 1 → last + 2 < two64 → w_fits e →
    ∃ w', w_append e w = (Ok tt, w') ∧ w_rel w' (es ++ [e]) fl (last + 1);
  w_trim_ok w es fl last h :
    w_rel w es fl last → fl ≤ h ≤ last →
    ∃ w', w_trim h w = (Ok tt, w') ∧ w_rel w' (filter (λ e, h < v1.seq e) es) h last;
  w_recover w es fl last d :
    w_rel w es fl last → w_crash (w_dir w) d →
    ∃ w' es', w_open d = (Ok (w', es'), w_dir w') ∧ w_rel w' es' (-1) last
      ∧ filter (λ e, fl < v1.seq e) es' = es;
  w_recover_append w es fl last e d :
    w_rel w es fl last → v1.seq e = last + 1 → last + 2 < two64 → w_fits e →
    w_crash_in_append e w d →
    ∃ w' es' last', w_open d = (Ok (w', es'), w_dir w') ∧ w_rel w' es' (-1) last'
      ∧ (filter (λ e, fl < v1.seq e) es' = es ∧ last' = last
         ∨ filter (λ e, fl < v1.seq e) es' = es ++ [e] ∧ last' = last + 1);
  w_seqs w es fl last :
    w_rel w es fl last →
    StronglySorted Z.lt (v1.seq <$> es) ∧ Forall (λ e, fl < v1.seq e ≤ last) es
    ∧ -1 ≤ fl ≤ last ∧ 0 ≤ last
}.
