(* ===== verification/Wal.v ===== *)
(** * The write-ahead log (crates/core/src/wal.rs)

    [Wal] wraps a [SegmentedLog]: a record is an encoded [WalEntry] at its
    sequence number, and every append is synced.  The instance at the end
    discharges the interface the catalog is verified against. *)

From S2P Require Import Prelude Bytes CoreError FileSys SegmentedLog LogScan LogInv LogOps LogTrunc LogPurge LogCrash.
From S2P Require Import LogSpec LogCorrect Proto WalInterface SampleCodecs.

Open Scope Z_scope.

Section Wal.
Context `{Crc32c} `{!Codec v1.WalEntry}.

Definition corrupt_record : Error := Recovery (Msg "corrupt wal record: {e}" []).

(** [Wal::open]. *)
Definition wal_open : M dir Error (LogSt * list v1.WalEntry) := λ d,
  match SegmentedLog.open d with
  | (Ok log, d) =>
      let '(records, st) := read_all {| slf := log; disk := d |} in
      (records ← records;
       entries ← collect (λ '(_, bytes), ok_or corrupt_record (decode bytes)) records;
       mret (st, entries), disk st)
  | (Err e, d) => (Err e, d)
  | (Panic w, d) => (Panic w, d)
  end.

(** [Wal::append]. *)
Definition wal_append (entry : v1.WalEntry) : M LogSt Error unit :=
  append (v1.seq entry) (encode_to_vec entry);;
  sync.

(** [Wal::trim]. *)
Definition wal_trim (floor : Z) : M LogSt Error unit := purge_through floor.

(** ** The entries a log holds *)

Definition record_of (e : v1.WalEntry) : Z * list byte := (v1.seq e, encode_to_vec e).

Lemma decode_records es :
  collect (λ '(_, bytes), ok_or corrupt_record (decode bytes)) (record_of <$> es) = Ok es.
Proof.
  apply collect_Ok. rewrite Forall2_fmap_l. apply Forall_Forall2_diag, Forall_forall.
  intros e _. cbn. by rewrite decode_encode.
Qed.

#[local] Instance record_of_inj : Inj (=) (=) record_of.
Proof.
  intros e e' [= _ E]. apply (f_equal decode) in E. rewrite !decode_encode in E. congruence.
Qed.

Record wal_rel (w : LogSt) (es : list v1.WalEntry) (fl last : Z) : Prop := {
  wr_floor : -1 ≤ fl ≤ last;
  wr_last : 0 ≤ last;
  wr_log : ∃ a, log_rel DEFAULT_SEGMENT_MAX_BYTES w a ∧ al_entries a = record_of <$> es
    ∧ al_floor a = fl
    ∧ (al_next a = Some (last + 1) ∧ al_durable a = last + 1 ∨ al_next a = None)
    ∧ ∀ kv, kv ∈ al_past a → ∃ e, kv = record_of e
}.

Lemma max_bytes_ok : 0 ≤ DEFAULT_SEGMENT_MAX_BYTES < 2 ^ 63.
Proof. done. Qed.

Lemma wal_open_rel d l d' a :
  open_with_segment_max DEFAULT_SEGMENT_MAX_BYTES d = (Ok l, d') →
  log_rel DEFAULT_SEGMENT_MAX_BYTES {| slf := l; disk := d' |} a →
  ∀ es, al_entries a = record_of <$> es → wal_open d = (Ok ({| slf := l; disk := d' |}, es), d').
Proof.
  intros Eo Hr es He. unfold wal_open, SegmentedLog.open. rewrite Eo.
  rewrite (log_rel_read_all _ _ _ Hr), He. cbn. by rewrite decode_records.
Qed.

Lemma wal_append_rel w es fl last e :
  wal_rel w es fl last → v1.seq e = last + 1 → last + 2 < two64 → blen (encode_to_vec e) < two32 →
  ∃ w1 w', append (v1.seq e) (encode_to_vec e) w = (Ok tt, w1) ∧ sync w1 = (Ok tt, w')
    ∧ wal_rel w' (es ++ [e]) fl (last + 1)
    ∧ ∃ a, log_rel DEFAULT_SEGMENT_MAX_BYTES w1 a ∧ al_entries a = record_of <$> (es ++ [e])
        ∧ al_floor a = fl ∧ al_next a = Some (last + 2)
        ∧ al_durable a = last + 1 ∧ ∀ kv, kv ∈ al_past a → ∃ e, kv = record_of e.
Proof.
  intros [Hfl Hl (a & Hr & He & Ef & Hn & Hp)] Hseq Hmax Hb.
  assert (Hal : index_allowed a (v1.seq e)).
  { unfold index_allowed. destruct Hn as [[-> _]| ->]; [done|]. rewrite Ef. lia. }
  pose proof (astep_append a _ _ Hal ltac:(lia) ltac:(lia) Hb) as Hs.
  destruct (run_op_sim _ _ _ _ _ max_bytes_ok Hr Hs) as (w1 & E1 & Hr1).
  destruct (run_op_sim _ _ _ _ _ max_bytes_ok Hr1 (astep_sync _)) as (w2 & E2 & Hr2).
  cbn in Hr2, E1, E2. exists w1, w2. split; [done|]. split; [done|]. split.
  - split; [lia|lia|]. eexists. split; [exact Hr2|]. cbn.
    split; [by rewrite He, fmap_app|]. split; [exact Ef|]. split; [|exact Hp].
    left. rewrite Hseq. split; [f_equal; lia|lia].
  - eexists. split; [exact Hr1|]. cbn. rewrite He, fmap_app, Hseq.
    split; [unfold record_of; cbn; by rewrite Hseq|].
    split; [exact Ef|]. split; [f_equal; lia|]. split; [|exact Hp].
    destruct Hn as [[-> ->]| ->]; lia.
Qed.

Lemma wal_trim_rel w es fl last h :
  wal_rel w es fl last → fl ≤ h ≤ last →
  ∃ w', wal_trim h w = (Ok tt, w') ∧ wal_rel w' (filter (λ e, h < v1.seq e) es) h last.
Proof.
  intros [Hfl Hl (a & Hr & He & Ef & Hn & Hp)] Hh.
  assert (Hg : ∀ n, al_next a = Some n → h < n).
  { intros n En. destruct Hn as [[Hn _]|Hn]; rewrite Hn in En; simplify_eq. lia. }
  pose proof (astep_purge a h ltac:(lia) Hg) as Hs.
  destruct (run_op_sim _ _ _ _ _ max_bytes_ok Hr Hs) as (w' & E & Hr').
  exists w'. split; [done|]. split; [lia|lia|]. eexists. split; [exact Hr'|]. cbn.
  split; [|split; [done|split; [exact Hn|]]].
  2: { intros kv [?|[_ Hin]%list_elem_of_filter]%elem_of_app; [by apply Hp|].
       rewrite He in Hin. apply list_elem_of_fmap in Hin as (e & -> & _). by exists e. }
  rewrite He. clear. induction es as [|e es IH]; [done|].
  cbn [fmap list_fmap]. rewrite !filter_cons. cbn. case_decide; by rewrite IH.
Qed.

(** The records of a recovered log are all encoded entries. *)
Lemma records_decode (l : list (Z * list byte)) :
  (∀ kv, kv ∈ l → ∃ e, kv = record_of e) → ∃ es, l = record_of <$> es.
Proof.
  intros Hall. induction l as [|kv l IH]; [by exists []|].
  destruct (Hall kv) as [e He]; [left|]. destruct IH as [es ->]; [intros; apply Hall; by right|].
  exists (e :: es). cbn. by rewrite He.
Qed.

Lemma filter_records (fl : Z) (es : list v1.WalEntry) :
  filter (λ kv : Z * list byte, fl < kv.1) (record_of <$> es)
  = record_of <$> filter (λ e, fl < v1.seq e) es.
Proof.
  induction es as [|e es IH]; [done|]. cbn [fmap list_fmap]. rewrite !filter_cons. cbn.
  case_decide; by rewrite IH.
Qed.

(** Crash and reopen of a log whose records are encoded entries. *)
Lemma wal_crash_open w a es d :
  log_rel DEFAULT_SEGMENT_MAX_BYTES w a → al_entries a = record_of <$> es →
  (∀ kv, kv ∈ al_past a → ∃ e, kv = record_of e) → crash (disk w) d →
  ∃ w' es' a', wal_open d = (Ok (w', es'), disk w')
    ∧ log_rel DEFAULT_SEGMENT_MAX_BYTES w' a' ∧ al_entries a' = record_of <$> es' ∧ crashed a a'.
Proof.
  intros Hr He Hp Hc. destruct (crash_sim _ _ _ _ Hr Hc) as (l & d' & a' & Eo & Hcr & Hr').
  destruct (records_decode (al_entries a')) as [es' He'].
  { intros kv Hin. destruct Hcr as (_ & _ & _ & Hsub & _).
    destruct (Hsub _ Hin) as [Hin'|?]; [|by apply Hp].
    rewrite He in Hin'. apply list_elem_of_fmap in Hin' as (e & -> & _). by exists e. }
  exists {| slf := l; disk := d' |}, es', a'. split_and!; [|done..]. by eapply wal_open_rel.
Qed.

Lemma record_keys_lt (n : Z) (es : list v1.WalEntry) :
  (∀ e, e ∈ es → v1.seq e < n) → filter (λ kv : Z * list byte, kv.1 < n) (record_of <$> es) = record_of <$> es.
Proof.
  intros Hlt. apply list_filter_all. intros kv (e & -> & Hin)%list_elem_of_fmap. by apply Hlt.
Qed.

Lemma wal_seqs_lt w a es n :
  log_rel DEFAULT_SEGMENT_MAX_BYTES w a → al_entries a = record_of <$> es → al_next a = Some n →
  ∀ e, e ∈ es → v1.seq e < n.
Proof.
  intros Hr He Hn e Hin. pose proof (log_rel_contiguous _ _ _ Hr) as Hc. rewrite Hn in Hc.
  destruct Hc as [ps Hc]. assert (Hkey : record_of e ∈ al_entries a) by (rewrite He; by apply list_elem_of_fmap_2).
  rewrite Hc in Hkey. apply elem_of_entries_from in Hkey. lia.
Qed.

Lemma wal_none_nil w a es :
  log_rel DEFAULT_SEGMENT_MAX_BYTES w a → al_entries a = record_of <$> es → al_next a = None → es = [].
Proof.
  intros Hr He Hn. pose proof (log_rel_contiguous _ _ _ Hr) as Hc. rewrite Hn in Hc. cbn in Hc.
  rewrite Hc in He. by destruct es.
Qed.

Lemma wal_recover_rel w es fl last d :
  wal_rel w es fl last → crash (disk w) d →
  ∃ w' es', wal_open d = (Ok (w', es'), disk w') ∧ wal_rel w' es' (-1) last
    ∧ filter (λ e, fl < v1.seq e) es' = es.
Proof.
  intros [Hfl Hl (a & Hr & He & Ef & Hn & Hp)] Hc.
  destruct (wal_crash_open _ _ _ _ Hr He Hp Hc) as (w' & es' & a' & Eo & Hr' & He' & Hcr).
  exists w', es'. split; [done|]. destruct Hcr as (m & Hm & Hent & _ & Hf' & Hp' & Hn').
  rewrite He', He, Ef, filter_records in Hent. split.
  - split; [lia|lia|]. exists a'. split; [done|]. split; [done|]. split; [done|]. split.
    + destruct Hn' as [(Hnext & Hd & n & Hn' & Hle)|[Hnext _]]; [|by right].
      destruct Hn as [[Hn Hdur]|Hn]; [|congruence]. left.
      assert (m = last + 1) as -> by (simplify_eq; lia). done.
    + rewrite Hp'. by intros ? ?%elem_of_nil.
  - rewrite record_keys_lt in Hent.
    + by apply (inj (fmap record_of)) in Hent.
    + destruct Hn as [[Hn Hdur]|Hn].
      * intros e Hin. pose proof (wal_seqs_lt _ _ _ _ Hr He Hn e Hin). lia.
      * rewrite (wal_none_nil _ _ _ Hr He Hn). by intros ? ?%elem_of_nil.
Qed.

Lemma wal_recover_append_rel w es fl last e d :
  wal_rel w es fl last → v1.seq e = last + 1 → last + 2 < two64 → blen (encode_to_vec e) < two32 →
  crash (disk (append (v1.seq e) (encode_to_vec e) w).2) d →
  ∃ w' es' last', wal_open d = (Ok (w', es'), disk w') ∧ wal_rel w' es' (-1) last'
    ∧ (filter (λ e, fl < v1.seq e) es' = es ∧ last' = last
       ∨ filter (λ e, fl < v1.seq e) es' = es ++ [e] ∧ last' = last + 1).
Proof.
  intros Hw Hseq Hmax Hb Hc. pose proof Hw as [Hfl Hl (a0 & Hr0 & He0 & Ef0 & Hn0 & _)].
  destruct (wal_append_rel w es fl last e Hw Hseq Hmax Hb)
    as (w1 & _ & E1 & _ & _ & a & Hr & He & Ef & Hn & Hdur & Hp). rewrite E1 in Hc. cbn in Hc.
  destruct (wal_crash_open _ _ _ _ Hr He Hp Hc) as (w' & es' & a' & Eo & Hr' & He' & Hcr).
  destruct Hcr as (m & Hm & Hent & _ & Hf' & Hp' & Hn').
  rewrite He', He, Ef, filter_records in Hent.
  assert (Hlt : ∀ e', e' ∈ es → v1.seq e' < last + 1).
  { destruct Hn0 as [[Hn0 _]|Hn0]; [exact (wal_seqs_lt _ _ _ _ Hr0 He0 Hn0)|].
    rewrite (wal_none_nil _ _ _ Hr0 He0 Hn0). by intros ? ?%elem_of_nil. }
  assert (Hfin : filter (λ e, fl < v1.seq e) es' = es ∧ m ≤ last + 1
               ∨ filter (λ e, fl < v1.seq e) es' = es ++ [e] ∧ last + 1 < m).
  { destruct (decide (last + 1 < m)); [right|left]; (split; [|lia]); apply (inj (fmap record_of)).
    - rewrite Hent. apply record_keys_lt. intros e' [Hin%Hlt| ->%list_elem_of_singleton]%elem_of_app; lia.
    - rewrite Hent, fmap_app, filter_app, record_keys_lt by (intros e' Hin%Hlt; lia).
      rewrite (list_filter_none _ (record_of <$> [e])); [by rewrite app_nil_r|].
      intros kv ->%list_elem_of_singleton. cbn. lia. }
  assert (Hend : ∃ last', -1 ≤ last' ∧ (m ≤ last + 1 → last' = last) ∧ (last + 1 < m → last' = last + 1)
      ∧ (al_next a' = Some (last' + 1) ∧ al_durable a' = last' + 1 ∨ al_next a' = None)).
  { exists (if decide (last + 1 < m) then last + 1 else last).
    assert (Hsome : ∀ l', (last + 1 < m → l' = last + 1) → (m ≤ last + 1 → l' = last) →
      al_next a' = Some (l' + 1) ∧ al_durable a' = l' + 1 ∨ al_next a' = None).
    { intros l' Hl1 Hl2. destruct Hn' as [(-> & -> & n & Hnn & Hle)|[-> _]]; [left|by right].
      rewrite Hn in Hnn. injection Hnn as <-. assert (m = l' + 1) as -> by lia. done. }
    case_decide; (split; [lia|]; split; [lia|]; split; [lia|]; apply Hsome; lia). }
  destruct Hend as (last' & Hl' & Hl1 & Hl2 & Hnext). exists w', es', last'. split; [done|]. split.
  - split; [lia|destruct Hfin as [[_ ?]|[_ ?]]; lia|]. exists a'.
    split_and!; try done. rewrite Hp'. by intros ? ?%elem_of_nil.
  - destruct Hfin as [[? ?]|[? ?]]; [left|right]; auto.
Qed.

Lemma wal_seqs_rel w es fl last :
  wal_rel w es fl last →
  StronglySorted Z.lt (v1.seq <$> es) ∧ Forall (λ e, fl < v1.seq e ≤ last) es
  ∧ -1 ≤ fl ≤ last ∧ 0 ≤ last.
Proof.
  intros [Hfl Hl (a & Hr & He & Ef & Hn & _)]. split_and!; try lia.
  - pose proof (log_rel_contiguous _ _ _ Hr) as Hc.
    assert (Hkeys : (al_entries a).*1 = v1.seq <$> es) by (rewrite He, <-list_fmap_compose; done).
    rewrite <-Hkeys. destruct Hn as [[Hn _]|Hn]; rewrite Hn in Hc.
    + destruct Hc as [ps ->]. apply entries_from_sorted.
    + cbn in Hc. rewrite Hc. constructor.
  - apply Forall_forall. intros e Hin. split.
    + destruct Hr as [_ (segs & _ & Hv & _)]. rewrite Ef in Hv.
      assert (Hk : record_of e ∈ al_entries a) by (rewrite He; by apply list_elem_of_fmap_2).
      rewrite Hv in Hk. by apply list_elem_of_filter in Hk as [? _].
    + destruct Hn as [[Hn _]|Hn].
      * pose proof (wal_seqs_lt _ _ _ _ Hr He Hn e Hin). lia.
      * rewrite (wal_none_nil _ _ _ Hr He Hn) in Hin. by apply elem_of_nil in Hin.
Qed.

Lemma wal_open_empty : ∃ w, wal_open ∅ = (Ok (w, []), disk w) ∧ wal_rel w [] (-1) 0.
Proof.
  destruct (log_rel_fresh DEFAULT_SEGMENT_MAX_BYTES) as (l & E & Hr).
  exists {| slf := l; disk := ∅ |}. split; [by eapply wal_open_rel|].
  split; [lia|lia|]. exists alog_empty. split_and!; [done..|by right|].
  by intros ? ?%elem_of_nil.
Qed.

(** The log that the catalog writes through. *)
#[global, refine] Instance wal_instance : WriteAheadLog := {|
  wal := LogSt; wdir := dir; w_dir := disk; w_empty := ∅;
  w_open := wal_open; w_append := wal_append; w_trim := wal_trim;
  w_crash := crash;
  w_crash_in_append e w d :=
    crash (disk w) d ∨ crash (disk (append (v1.seq e) (encode_to_vec e) w).2) d;
  w_fits e := blen (encode_to_vec e) < two32;
  w_rel := wal_rel
|}.
Proof.
  - apply wal_open_empty.
  - intros w es fl last e Hw Hs Hm Hb.
    destruct (wal_append_rel w es fl last e Hw Hs Hm Hb) as (w1 & w' & E1 & E2 & Hr & _).
    exists w'. split; [|done]. unfold wal_append. by rewrite (M_bind_Ok _ _ _ _ _ E1).
  - apply wal_trim_rel.
  - apply wal_recover_rel.
  - intros w es fl last e d Hw Hs Hm Hb [Hc|Hc].
    + destruct (wal_recover_rel _ _ _ _ _ Hw Hc) as (w' & es' & ? & ? & ?).
      exists w', es', last. auto.
    + by apply (wal_recover_append_rel w es fl last e d).
  - apply wal_seqs_rel.
Defined.
End Wal.

Section WalCorrect.
Context `{Crc32c} `{!Codec v1.WalEntry}.

(** Once [Wal::append] has returned, the entry survives any crash: [Wal::open]
    succeeds on what is left and returns, above the trim floor, exactly the entries
    appended so far in order, the new one last. *)
Theorem wal_append_durable w es fl last e :
  wal_rel w es fl last → v1.seq e = last + 1 → last + 2 < two64 → blen (encode_to_vec e) < two32 →
  ∃ w', wal_append e w = (Ok tt, w') ∧
    ∀ d, crash (disk w') d →
      ∃ w2 es', wal_open d = (Ok (w2, es'), disk w2)
        ∧ filter (λ e, fl < v1.seq e) es' = es ++ [e] ∧ wal_rel w2 es' (-1) (last + 1).
Proof.
  intros Hw Hs Hm Hb. destruct (w_append_ok (WriteAheadLog := wal_instance) w es fl last e Hw Hs Hm Hb)
    as (w' & E & Hw').
  exists w'. split; [done|]. intros d Hc.
  destruct (w_recover (WriteAheadLog := wal_instance) w' _ _ _ d Hw' Hc) as (w2 & es' & Eo & Hr & Hf). eauto.
Qed.

(** A crash in the middle of [Wal::append], before its sync, is atomic: the
    reopened log holds either all earlier entries or these and the new one. *)
Theorem wal_append_atomic w es fl last e d :
  wal_rel w es fl last → v1.seq e = last + 1 → last + 2 < two64 → blen (encode_to_vec e) < two32 →
  crash (disk (append (v1.seq e) (encode_to_vec e) w).2) d →
  ∃ w' es', wal_open d = (Ok (w', es'), disk w')
    ∧ (filter (λ e, fl < v1.seq e) es' = es ∨ filter (λ e, fl < v1.seq e) es' = es ++ [e]).
Proof.
  intros Hw Hs Hm Hb Hc.
  destruct (wal_recover_append_rel w es fl last e d Hw Hs Hm Hb Hc)
    as (w' & es' & last' & E & _ & Hor). exists w', es'. split; [done|]. naive_solver.
Qed.
End WalCorrect.

(** ** Evaluated instances *)

#[local] Existing Instances sum_crc32c SampleCodecs.wal_entry_codec.

Definition sample_entry (n : Z) : v1.WalEntry :=
  {| v1.seq := n;
     v1.command := Some {| v1.op := Some (v1.OpDropCollection {| v1.drop_collection_name := "c" |}) |} |}.

Lemma st_empty_wal : wal_rel (st_empty DEFAULT_SEGMENT_MAX_BYTES) [] (-1) 0.
Proof.
  split; [lia|lia|]. exists alog_empty. split_and!; [apply st_empty_rel|done|done|by right|].
  by intros ? ?%elem_of_nil.
Qed.

Lemma wal_append_durable_witness :
  ∃ w', wal_append (sample_entry 1) (st_empty DEFAULT_SEGMENT_MAX_BYTES) = (Ok tt, w') ∧
    ∀ d, crash (disk w') d →
      ∃ w2 es', wal_open d = (Ok (w2, es'), disk w2)
        ∧ filter (λ e, -1 < v1.seq e) es' = [] ++ [sample_entry 1] ∧ wal_rel w2 es' (-1) (0 + 1).
Proof.
  apply (wal_append_durable (st_empty DEFAULT_SEGMENT_MAX_BYTES) [] (-1) 0 (sample_entry 1) st_empty_wal);
    [reflexivity|done|vm_compute; reflexivity].
Defined.

Lemma wal_append_atomic_witness :
  ∃ w' es', wal_open (crash_min (disk (append 1 (encode_to_vec (sample_entry 1))
                                          (st_empty DEFAULT_SEGMENT_MAX_BYTES)).2))
            = (Ok (w', es'), disk w')
    ∧ (filter (λ e, -1 < v1.seq e) es' = []
       ∨ filter (λ e, -1 < v1.seq e) es' = [] ++ [sample_entry 1]).
Proof.
  apply (wal_append_atomic (st_empty DEFAULT_SEGMENT_MAX_BYTES) [] (-1) 0 (sample_entry 1) _ st_empty_wal);
    [reflexivity|done|vm_compute; reflexivity|apply crash_min_crash].
Defined.
