(* ===== verification/Mapping.v ===== *)
(** * Collection mappings (crates/core/src/mapping.rs)

    Field specifications, their validation, the Tantivy schema they give, the
    validation of documents, and the conversions to and from the protobuf and
    JSON forms. *)

From S2P Require Import Prelude Bytes CoreError Proto External Samples.

Open Scope Z_scope.

Definition ID_FIELD : string := "_id".
Definition SOURCE_FIELD : string := "_source".

Inductive FieldType := Text | Keyword | I64 | F64 | Date.

#[global] Instance FieldType_eq_dec : EqDecision FieldType.
Proof. solve_decision. Defined.

Definition as_str_type (ty : FieldType) : string :=
  match ty with
  | Text => "text"
  | Keyword => "keyword"
  | I64 => "i64"
  | F64 => "f64"
  | Date => "date"
  end.

Record FieldSpec := {
  ty : FieldType;
  indexed : bool;
  fast : bool
}.

#[global] Instance FieldSpec_eq_dec : EqDecision FieldSpec.
Proof. solve_decision. Defined.

Record Mapping := { fields : gmap string FieldSpec }.

#[global] Instance Mapping_eq_dec : EqDecision Mapping.
Proof. solve_decision. Defined.

(** [name.starts_with('_')]. *)
Definition starts_with_underscore (name : string) : bool :=
  match name with
  | String c _ => bool_decide (c = "_"%char)
  | EmptyString => false
  end.

Definition validate_field (name : string) (spec : FieldSpec) : result Error unit :=
  if decide (name = "") then Err (MappingError (Msg "field name must not be empty" []))
  else if starts_with_underscore name
  then Err (MappingError (Msg "field name {name} uses the reserved '_' prefix" [name]))
  else if decide (ty spec = Text ∧ fast spec = true)
  then Err (MappingError (Msg "text field {name} cannot be fast" [name]))
  else Ok tt.

(** The iteration order of a [BTreeMap<String, _>]. *)
Abbreviation iter m := (btree_iter String.le m).

(** [Mapping::new]. *)
Definition Mapping_new (fs : gmap string FieldSpec) : result Error Mapping :=
  try_each (λ '(name, spec), validate_field name spec) (iter fs);;
  Ok {| fields := fs |}.

Definition field (m : Mapping) (name : string) : option FieldSpec := fields m !! name.

Section Mapping.
Context `{Json} `{Rfc3339}.

Definition to_schema_field (name : string) (spec : FieldSpec) : option schema_call :=
  if negb (indexed spec) && negb (fast spec) then None
  else Some match ty spec with
  | Text => add_text_field name TEXT
  | Keyword => add_text_field name (TextOpts (indexed spec) (fast spec))
  | I64 => add_i64_field name (indexed spec) (fast spec)
  | F64 => add_f64_field name (indexed spec) (fast spec)
  | Date => add_date_field name (indexed spec) (fast spec)
  end.

(** [Mapping::to_schema]: the builder calls. *)
Definition to_schema (m : Mapping) : list schema_call :=
  add_text_field ID_FIELD STRING_stored :: add_bytes_field_stored SOURCE_FIELD
  :: omap (λ '(name, spec), to_schema_field name spec) (iter (fields m)).

Definition value_matches (value : Value) (ty : FieldType) : bool :=
  match ty with
  | Text | Keyword => is_string value
  | I64 => is_i64 value
  | F64 => is_number value
  | Date =>
      match as_str value with
      | Some s => bool_decide (is_Some (parse_rfc3339 s))
      | None => false
      end
  end.

Definition validate_document (m : Mapping) (document : Value) : result Error unit :=
  object ← ok_or (Validation (Msg "document must be a JSON object" [])) (as_object document);
  try_each (λ '(name, value),
    spec ← ok_or (Validation (Msg "unmapped field {name}" [name])) (fields m !! name);
    if value_matches value (ty spec) then Ok tt
    else Err (Validation (Msg "field {name} expected {}" [name; as_str_type (ty spec)]))) object.
End Mapping.

(** ** The JSON form *)

Record FieldDto := { dto_ty : FieldType; dto_indexed : bool; dto_fast : bool }.
Record MappingDto := { dto_fields : gmap string FieldDto }.

Definition MappingDto_from (m : Mapping) : MappingDto :=
  {| dto_fields := (λ spec, {| dto_ty := ty spec; dto_indexed := indexed spec;
                               dto_fast := fast spec |}) <$> fields m |}.

Definition Mapping_try_from_dto (dto : MappingDto) : result Error Mapping :=
  Mapping_new ((λ f, {| ty := dto_ty f; indexed := dto_indexed f; fast := dto_fast f |})
                 <$> dto_fields dto).

(** ** The protobuf form *)

Definition FieldType_to_proto (ty : FieldType) : v1.FieldType :=
  match ty with
  | Text => v1.Text
  | Keyword => v1.Keyword
  | I64 => v1.I64
  | F64 => v1.F64
  | Date => v1.Date
  end.

Definition FieldType_try_from_proto (ty : v1.FieldType) : result Error FieldType :=
  match ty with
  | v1.Unspecified => Err (MappingError (Msg "field type unspecified" []))
  | v1.Text => Ok Text
  | v1.Keyword => Ok Keyword
  | v1.I64 => Ok I64
  | v1.F64 => Ok F64
  | v1.Date => Ok Date
  end.

Definition Mapping_to_proto (m : Mapping) : v1.Mapping :=
  {| v1.mapping_fields := (λ '(name, spec),
       {| v1.field_name := name; v1.field_type := v1.FieldType_i32 (FieldType_to_proto (ty spec));
          v1.field_indexed := indexed spec; v1.field_fast := fast spec |}) <$> iter (fields m) |}.

(** The body of the loop of [TryFrom<proto::Mapping>]: the specification of one
    field. *)
Definition spec_from_proto (f : v1.Field) : result Error FieldSpec :=
  proto_ty ← ok_or (MappingError (Msg "unknown field type {} for field {}"
                [pretty (v1.field_type f); v1.field_name f])) (v1.FieldType_try_from (v1.field_type f));
  t ← FieldType_try_from_proto proto_ty;
  mret {| ty := t; indexed := v1.field_indexed f; fast := v1.field_fast f |}.

Fixpoint insert_fields (fs : list v1.Field) (acc : gmap string FieldSpec) :
    result Error (gmap string FieldSpec) :=
  match fs with
  | [] => Ok acc
  | f :: fs =>
      spec ← spec_from_proto f;
      match acc !! v1.field_name f with
      | Some _ => Err (MappingError (Msg "duplicate field {}" [v1.field_name f]))
      | None => insert_fields fs (<[v1.field_name f := spec]> acc)
      end
  end.

Definition Mapping_try_from_proto (m : v1.Mapping) : result Error Mapping :=
  fs ← insert_fields (v1.mapping_fields m) ∅;
  Mapping_new fs.

(** ** Validity *)

Definition valid_field (name : string) (spec : FieldSpec) : Prop :=
  name ≠ "" ∧ starts_with_underscore name = false ∧ ¬ (ty spec = Text ∧ fast spec = true).

Definition mapping_valid (m : Mapping) : Prop := map_Forall valid_field (fields m).

Lemma validate_field_Ok name spec : validate_field name spec = Ok tt ↔ valid_field name spec.
Proof.
  unfold validate_field, valid_field. case_decide; [naive_solver|].
  destruct (starts_with_underscore name); [naive_solver|]. case_decide; naive_solver.
Qed.

Lemma validate_fields_Ok fs :
  try_each (λ '(name, spec), validate_field name spec) (iter fs) = Ok tt ↔ map_Forall valid_field fs.
Proof.
  rewrite try_each_Ok, Forall_forall. split.
  - intros Hall name spec Hl. apply validate_field_Ok.
    apply (Hall (name, spec)). by apply elem_of_btree_iter.
  - intros Hall [name spec] Hin. apply validate_field_Ok, Hall. by apply elem_of_btree_iter in Hin.
Qed.

Lemma Mapping_new_Ok fs m :
  Mapping_new fs = Ok m ↔ fields m = fs ∧ map_Forall valid_field fs.
Proof.
  unfold Mapping_new. rewrite <-validate_fields_Ok.
  destruct (try_each _ _) as [[]| |]; cbn; [|naive_solver..].
  destruct m as [f]; cbn. split; [by intros [= ->]|by intros [-> _]].
Qed.

Lemma Mapping_new_not_Panic fs w : Mapping_new fs ≠ Panic w.
Proof.
  unfold Mapping_new. generalize (iter fs). intros l.
  induction l as [|[n s] l IH]; [done|]. cbn.
  destruct (validate_field n s) as [[]|e|w'] eqn:E; [apply IH|done|].
  unfold validate_field in E. repeat case_match; done.
Qed.

(** ** Protobuf conversions *)

Lemma FieldType_i32_roundtrip t : v1.FieldType_try_from (v1.FieldType_i32 t) = Some t.
Proof. by destruct t. Qed.

(** [f] describes a field with specification [spec]. *)
Definition describes (f : v1.Field) (spec : FieldSpec) : Prop :=
  v1.field_type f = v1.FieldType_i32 (FieldType_to_proto (ty spec))
  ∧ v1.field_indexed f = indexed spec ∧ v1.field_fast f = fast spec.

Lemma spec_from_proto_Ok f spec : spec_from_proto f = Ok spec ↔ describes f spec.
Proof.
  unfold spec_from_proto, describes. destruct f as [n z i b], spec as [t i' b']. cbn. split.
  - destruct (v1.FieldType_try_from z) as [pt|] eqn:E; [|done]. cbn.
    assert (z = v1.FieldType_i32 pt) as ->.
    { unfold v1.FieldType_try_from in E. repeat case_decide; by simplify_eq. }
    destruct pt; cbn; try done; intros [=]; by subst.
  - intros (-> & -> & ->). rewrite FieldType_i32_roundtrip. by destruct t.
Qed.

Lemma insert_fields_Ok fs : ∀ acc r,
  insert_fields fs acc = Ok r ↔
  ∃ specs, Forall2 describes fs specs ∧ NoDup (v1.field_name <$> fs)
    ∧ (∀ f, f ∈ fs → acc !! v1.field_name f = None)
    ∧ r = list_to_map (zip (v1.field_name <$> fs) specs) ∪ acc.
Proof.
  induction fs as [|f fs IH]; intros acc r; cbn [insert_fields].
  { split.
    - intros [= <-]. exists []. split_and!; [constructor|constructor|set_solver|].
      symmetry. apply (left_id_L ∅ (∪)).
    - intros (specs & Hs & _ & _ & ->). inv Hs. f_equal. symmetry. apply (left_id_L ∅ (∪)). }
  split.
  - destruct (spec_from_proto f) as [spec| |] eqn:Es; cbn; [|done..]. apply spec_from_proto_Ok in Es.
    destruct (acc !! v1.field_name f) as [|] eqn:Ea; [done|].
    intros (specs & Hs & Hnd & Hfresh & ->)%IH.
    assert (Hn : v1.field_name f ∉ v1.field_name <$> fs).
    { intros (g & E & Hg)%list_elem_of_fmap. specialize (Hfresh g Hg).
      rewrite <-E, lookup_insert_eq in Hfresh. done. }
    exists (spec :: specs). split_and!; [by constructor|by constructor| |].
    + intros g [->|Hg]%elem_of_cons; [done|]. specialize (Hfresh g Hg).
      by apply lookup_insert_None in Hfresh as [].
    + cbn. rewrite <-insert_union_l, <-insert_union_r; [done|].
      apply not_elem_of_list_to_map_1. rewrite fst_zip; [done|].
      rewrite length_fmap. by rewrite (Forall2_length _ _ _ Hs).
  - intros (specs0 & Hs & Hnd & Hfresh & ->).
    apply Forall2_cons_inv_l in Hs as (spec & specs & Hd & Hs & ->).
    cbn [fmap list_fmap] in Hnd. apply NoDup_cons in Hnd as [Hn Hnd].
    rewrite (proj2 (spec_from_proto_Ok f spec) Hd). cbn. rewrite (Hfresh f) by left.
    apply IH. exists specs. split_and!; [done|done| |].
    + intros g Hg. rewrite lookup_insert_ne; [apply Hfresh; by right|].
      intros E. apply Hn. rewrite E. by apply list_elem_of_fmap_2.
    + rewrite <-insert_union_l, <-insert_union_r; [done|].
      apply not_elem_of_list_to_map_1. rewrite fst_zip; [done|].
      rewrite length_fmap. by rewrite (Forall2_length _ _ _ Hs).
Qed.

Lemma Mapping_try_from_proto_Ok (p : v1.Mapping) (m : Mapping) :
  Mapping_try_from_proto p = Ok m ↔
  ∃ specs, Forall2 describes (v1.mapping_fields p) specs
    ∧ NoDup (v1.field_name <$> v1.mapping_fields p)
    ∧ fields m = list_to_map (zip (v1.field_name <$> v1.mapping_fields p) specs)
    ∧ mapping_valid m.
Proof.
  unfold Mapping_try_from_proto, mapping_valid. split.
  - destruct (insert_fields _ _) as [fs| |] eqn:E; cbn; [|done..].
    apply insert_fields_Ok in E as (specs & Hs & Hnd & _ & ->). rewrite (right_id_L ∅ (∪)).
    intros [-> Hv]%Mapping_new_Ok. eauto.
  - intros (specs & Hs & Hnd & Hf & Hv).
    rewrite (proj2 (insert_fields_Ok (v1.mapping_fields p) ∅ (fields m))).
    + cbn. by apply Mapping_new_Ok.
    + exists specs. rewrite (right_id_L ∅ (∪)). by split_and!.
Qed.

Lemma zip_to_proto (l : list (string * FieldSpec)) (g : string * FieldSpec → v1.Field) :
  (∀ x, v1.field_name (g x) = x.1) → zip (v1.field_name <$> (g <$> l)) l.*2 = l.
Proof. intros Hg. induction l as [|[n s] l IH]; [done|]. cbn. by rewrite Hg, IH. Qed.

Lemma Mapping_proto_roundtrip m :
  mapping_valid m → Mapping_try_from_proto (Mapping_to_proto m) = Ok m.
Proof.
  intros Hv. apply Mapping_try_from_proto_Ok. exists (iter (fields m)).*2.
  unfold Mapping_to_proto. cbn [v1.mapping_fields].
  rewrite zip_to_proto by (by intros []). split_and!.
  - rewrite Forall2_fmap. apply Forall_Forall2_diag, Forall_forall. by intros [].
  - rewrite <-list_fmap_compose.
    replace (v1.field_name ∘ _ <$> iter (fields m)) with (iter (fields m)).*1
      by (apply list_fmap_ext; by intros ? []).
    apply btree_iter_keys_NoDup.
  - by rewrite list_to_map_btree_iter.
  - done.
Qed.

Lemma Mapping_dto_roundtrip m :
  mapping_valid m → Mapping_try_from_dto (MappingDto_from m) = Ok m.
Proof.
  intros Hv. apply Mapping_new_Ok.
  assert (E : (λ f, {| ty := dto_ty f; indexed := dto_indexed f; fast := dto_fast f |})
               <$> dto_fields (MappingDto_from m) = fields m).
  { unfold MappingDto_from. cbn. rewrite <-map_fmap_compose. rewrite <-(map_fmap_id (fields m)) at 2.
    apply map_fmap_ext. by intros ? []. }
  by rewrite E.
Qed.

(** ** Schemas and documents *)

Lemma to_schema_field_name name spec c : to_schema_field name spec = Some c → call_name c = name.
Proof. unfold to_schema_field. intros E. repeat case_match; by simplify_eq. Qed.

Lemma to_schema_names m name :
  name ∈ call_name <$> to_schema m ↔
  name = ID_FIELD ∨ name = SOURCE_FIELD
  ∨ ∃ spec, fields m !! name = Some spec ∧ indexed spec || fast spec = true.
Proof.
  unfold to_schema. cbn [fmap list_fmap call_name]. rewrite !elem_of_cons.
  do 2 f_equiv. rewrite list_elem_of_fmap. split.
  - intros (c & -> & ([n spec] & Hin & E)%list_elem_of_omap). apply elem_of_btree_iter in Hin.
    rewrite (to_schema_field_name _ _ _ E). exists spec. split; [done|].
    unfold to_schema_field in E. by destruct (indexed spec), (fast spec).
  - intros (spec & Hl & Hb).
    assert (is_Some (to_schema_field name spec)) as [c Hc].
    { unfold to_schema_field. destruct (indexed spec), (fast spec); by eauto. }
    exists c. split; [by rewrite (to_schema_field_name _ _ _ Hc)|].
    apply list_elem_of_omap. exists (name, spec). by rewrite elem_of_btree_iter.
Qed.

Lemma mapping_valid_reserved m name spec :
  mapping_valid m → fields m !! name = Some spec → name ≠ ID_FIELD ∧ name ≠ SOURCE_FIELD.
Proof. intros Hv Hl. destruct (Hv _ _ Hl) as (_ & Hu & _). split; by intros ->. Qed.

Lemma to_schema_NoDup m : mapping_valid m → NoDup (call_name <$> to_schema m).
Proof.
  intros Hv. unfold to_schema. cbn [fmap list_fmap call_name].
  assert (Hnames : ∀ n, n ∈ call_name <$> omap (λ '(name, spec), to_schema_field name spec)
                          (iter (fields m)) → is_Some (fields m !! n)).
  { intros n (c & -> & ([n' spec] & Hin & E)%list_elem_of_omap)%list_elem_of_fmap.
    apply elem_of_btree_iter in Hin. rewrite (to_schema_field_name _ _ _ E). eauto. }
  assert (Hres : ∀ n, is_Some (fields m !! n) → n ≠ ID_FIELD ∧ n ≠ SOURCE_FIELD).
  { intros n [spec Hl]. by eapply mapping_valid_reserved. }
  constructor; [|constructor].
  - intros [E|Hin]%elem_of_cons; [done|]. by apply Hnames, Hres in Hin as [].
  - intros Hin. by apply Hnames, Hres in Hin as [].
  - pose proof (btree_iter_keys_NoDup String.le (fields m)) as Hnd. revert Hnd.
    generalize (iter (fields m)). intros l. induction l as [|[n spec] l IH]; [constructor|].
    cbn [fmap list_fmap]. intros [Hn Hnd]%NoDup_cons. cbn.
    destruct (to_schema_field n spec) as [c|] eqn:E; [|by apply IH].
    cbn. constructor; [|by apply IH]. rewrite (to_schema_field_name _ _ _ E).
    intros (c' & Ec & ([n' spec'] & Hin & E')%list_elem_of_omap)%list_elem_of_fmap.
    rewrite (to_schema_field_name _ _ _ E') in Ec. subst n'. apply Hn, list_elem_of_fmap.
    by exists (n, spec').
Qed.

(** ** Schemas *)

Section schemas.
Context `{TantivySchema}.

(** A mapping whose schema the builder accepts, which [validate_field] does not ensure:
    [mapping_ok_iff]. *)
Definition mapping_ok (m : Mapping) : Prop := mapping_valid m ∧ accepted (to_schema m).

Definition schema_of (m : Mapping) : Schema := build (to_schema m).

(** [Mapping::to_schema], with the assertions of the builder. *)
Definition build_schema {E} (m : Mapping) : result E Schema :=
  if decide (accepted (to_schema m)) then Ok (schema_of m)
  else Panic "assertion failed: is_valid_field_name(&field_name)".

Lemma build_schema_ok {E} m : mapping_ok m → build_schema (E:=E) m = Ok (schema_of m).
Proof. intros [_ Ha]. unfold build_schema. by rewrite decide_True. Qed.

(** The fields that get into the schema must not start with a hyphen. *)
Theorem mapping_ok_iff m :
  mapping_valid m →
  mapping_ok m ↔ ∀ name spec, fields m !! name = Some spec → indexed spec || fast spec = true → starts_with_hyphen name = false.
Proof.
  intros Hv. unfold mapping_ok, accepted. rewrite Forall_forall. pose proof (to_schema_NoDup m Hv) as Hnd.
  assert (Hn : (∀ c, c ∈ to_schema m → is_valid_field_name (call_name c) = true)
    ↔ ∀ name, name ∈ call_name <$> to_schema m → is_valid_field_name name = true).
  { split; [intros Hc name (c & -> & ?)%list_elem_of_fmap; by apply Hc|intros Hc c ?; by apply Hc, list_elem_of_fmap_2]. }
  rewrite Hn. setoid_rewrite to_schema_names. setoid_rewrite is_valid_field_name_iff. split.
  - intros (_ & _ & Hall) name spec Hl Hb. apply Hall. eauto.
  - intros Hall. split; [done|]. split; [done|]. intros name [->|[->|(spec & Hl & Hb)]]; [done..|]. split; [|by eapply Hall].
    by destruct (Hv _ _ Hl).
Qed.
End schemas.

Section documents.
Context `{Json} `{Rfc3339}.

(** The JSON values of a field type. *)
Inductive has_type : Value → FieldType → Prop :=
| text_is_string v s : as_str v = Some s → has_type v Text
| keyword_is_string v s : as_str v = Some s → has_type v Keyword
| i64_is_integer v z : as_i64 v = Some z → has_type v I64
| f64_is_number v x : as_f64 v = Some x → has_type v F64
| date_is_rfc3339 v s t : as_str v = Some s → parse_rfc3339 s = Some t → has_type v Date.

Lemma value_matches_iff v t : value_matches v t = true ↔ has_type v t.
Proof.
  destruct t; cbn; rewrite ?is_string_as_str, ?is_i64_as_i64, ?is_number_as_f64.
  1-4: split; [intros [? ?]; by econstructor|inversion 1; by eexists].
  split.
  - destruct (as_str v) as [s|] eqn:E; [|done]. intros [t Ht]%bool_decide_eq_true. by econstructor.
  - inversion 1; subst. simplify_option_eq. apply bool_decide_eq_true. by eexists.
Qed.

#[global] Instance has_type_dec v t : Decision (has_type v t).
Proof. destruct (value_matches v t) eqn:E; [left|right]; rewrite <-value_matches_iff, E; done. Defined.

(** A JSON object whose fields are all mapped, each with a value of the mapped type. *)
Definition document_typed (m : Mapping) (v : Value) : Prop :=
  ∃ o, as_object v = Some o ∧
    ∀ name x, (name, x) ∈ o → ∃ spec, fields m !! name = Some spec ∧ has_type x (ty spec).

Lemma validate_document_Ok m v :
  validate_document m v = Ok tt ↔
  ∃ o, as_object v = Some o ∧
    ∀ name x, (name, x) ∈ o → ∃ spec, fields m !! name = Some spec ∧ value_matches x (ty spec) = true.
Proof.
  unfold validate_document. destruct (as_object v) as [o|]; cbn; [|naive_solver].
  rewrite try_each_Ok, Forall_forall. split.
  - intros Hall. exists o. split; [done|]. intros name x Hin. specialize (Hall _ Hin). cbn in Hall.
    destruct (fields m !! name) as [spec|]; [|done]. cbn in Hall. exists spec.
    destruct (value_matches x (ty spec)); done.
  - intros (o' & [= <-] & Hall) [name x] Hin. destruct (Hall _ _ Hin) as (spec & Hl & Hm).
    rewrite Hl. cbn. by rewrite Hm.
Qed.

Lemma validate_document_Err m v : is_ok (validate_document m v) = false → ∃ msg, validate_document m v = Err (Validation msg).
Proof.
  unfold validate_document. destruct (as_object v) as [o|]; cbn; [|by eexists].
  induction o as [|[name x] o IH]; cbn; [done|]. destruct (fields m !! name) as [spec|]; cbn; [|by eexists].
  destruct (value_matches x (ty spec)); cbn; [exact IH|by eexists].
Qed.

(** C34: A document is accepted when it is a JSON object all of whose fields are mapped,
    with a value of the mapped type (a string for text and keyword, a 64-bit integer for
    i64, any number for f64, a string in RFC 3339 form for date), and every other document
    is refused with a validation error. *)
Theorem validate_document_iff m v :
  (document_typed m v ∧ validate_document m v = Ok tt)
  ∨ (¬ document_typed m v ∧ ∃ msg, validate_document m v = Err (Validation msg)).
Proof.
  assert (Hiff : validate_document m v = Ok tt ↔ document_typed m v).
  { rewrite validate_document_Ok. unfold document_typed. by setoid_rewrite value_matches_iff. }
  destruct (is_ok (validate_document m v)) eqn:E.
  - assert (Ev : validate_document m v = Ok tt) by (by destruct (validate_document m v) as [[]| |]). left. by rewrite <-Hiff.
  - right. destruct (validate_document_Err m v E) as [msg Em]. split; [|by exists msg]. rewrite <-Hiff. by rewrite Em.
Qed.
End documents.

(** C35: A protobuf mapping is accepted exactly when every field has a known, specified
    type, no name occurs twice, every name is non-empty and does not start with an
    underscore, and no text field is fast; the mapping is then the map of the described
    fields. *)
Theorem mapping_from_proto_iff (p : v1.Mapping) (m : Mapping) :
  Mapping_try_from_proto p = Ok m ↔
  ∃ specs, Forall2 describes (v1.mapping_fields p) specs
    ∧ NoDup (v1.field_name <$> v1.mapping_fields p)
    ∧ fields m = list_to_map (zip (v1.field_name <$> v1.mapping_fields p) specs)
    ∧ mapping_valid m.
Proof. apply Mapping_try_from_proto_Ok. Qed.

(** C36: Every valid mapping survives the conversion to protobuf and back, and to
    its JSON form and back, unchanged. *)
Theorem mapping_roundtrips (m : Mapping) :
  mapping_valid m →
  Mapping_try_from_proto (Mapping_to_proto m) = Ok m
  ∧ Mapping_try_from_dto (MappingDto_from m) = Ok m.
Proof. intros Hv. split; [by apply Mapping_proto_roundtrip|by apply Mapping_dto_roundtrip]. Qed.

#[global] Arguments Mapping_try_from_proto : simpl never.
#[global] Arguments Mapping_to_proto : simpl never.

(** ** Evaluated instances *)

Definition sample_mapping : Mapping :=
  {| fields := {[ "n" := {| ty := I64; indexed := true; fast := true |};
                  "s" := {| ty := Text; indexed := true; fast := false |} ]} |}.

(** A field name with a leading hyphen. *)
Definition hyphen_mapping : Mapping :=
  {| fields := {[ "-x" := {| ty := Text; indexed := true; fast := false |} ]} |}.

Lemma sample_mapping_valid : mapping_valid sample_mapping.
Proof. apply validate_fields_Ok. vm_compute. reflexivity. Qed.

Lemma mapping_roundtrips_witness :
  Mapping_try_from_proto (Mapping_to_proto sample_mapping) = Ok sample_mapping
  ∧ Mapping_try_from_dto (MappingDto_from sample_mapping) = Ok sample_mapping.
Proof. apply (mapping_roundtrips sample_mapping), sample_mapping_valid. Defined.
