(* ===== verification/Document.v ===== *)
(** * Documents (crates/core/src/document.rs)

    [build_doc] turns a parsed JSON document into a Tantivy document. *)

From S2P Require Import Prelude Bytes CoreError External Samples Mapping.

Open Scope Z_scope.

Section Document.
Context `{Json} `{Rfc3339} `{TantivySchema}.

(** A [TantivyDocument]: the values added, in order. *)
Inductive FieldValue :=
| TextV (s : string)
| BytesV (b : list byte)
| I64V (z : Z)
| F64V (x : f64)
| DateV (t : OffsetDateTime).

Abbreviation TantivyDocument := (list (FieldId * FieldValue)).

(** [doc.get_first(field)]. *)
Definition get_first (doc : TantivyDocument) (f : FieldId) : option FieldValue :=
  snd <$> head (filter (λ kv, kv.1 = f) doc).

Definition type_debug (ty : FieldType) : string :=
  match ty with
  | Text => "Text"
  | Keyword => "Keyword"
  | I64 => "I64"
  | F64 => "F64"
  | Date => "Date"
  end.

Definition type_err (ty : FieldType) : Error :=
  Validation (Msg "field value does not match type {ty:?}" [type_debug ty]).

Definition add_value (doc : TantivyDocument) (field : FieldId) (value : Value) (ty : FieldType) :
    result Error TantivyDocument :=
  match ty with
  | Text | Keyword =>
      s ← ok_or (type_err ty) (as_str value);
      mret (doc ++ [(field, TextV s)])
  | I64 =>
      z ← ok_or (type_err ty) (as_i64 value);
      mret (doc ++ [(field, I64V z)])
  | F64 =>
      x ← ok_or (type_err ty) (as_f64 value);
      mret (doc ++ [(field, F64V x)])
  | Date =>
      s ← ok_or (type_err ty) (as_str value);
      odt ← ok_or (type_err ty) (parse_rfc3339 s);
      mret (doc ++ [(field, DateV odt)])
  end.

(** The loop over the fields of the object. *)
Fixpoint add_fields (schema : Schema) (mapping : Mapping) (object : list (string * Value))
    (doc : TantivyDocument) : result Error TantivyDocument :=
  match object with
  | [] => Ok doc
  | (name, value) :: object =>
      match get_field schema name with
      | None => add_fields schema mapping object doc
      | Some f =>
          spec ← expect "validated: every field is mapped" (field mapping name);
          doc ← add_value doc f value (ty spec);
          add_fields schema mapping object doc
      end
  end.

Definition build_doc (schema : Schema) (mapping : Mapping) (id : string) (source : list byte)
    (parsed : Value) : result Error TantivyDocument :=
  id_field ← expect "schema always has _id" (get_field schema ID_FIELD);
  source_field ← expect "schema always has _source" (get_field schema SOURCE_FIELD);
  let doc := [(id_field, TextV id); (source_field, BytesV source)] in
  object ← ok_or (Validation (Msg "document must be a JSON object" [])) (as_object parsed);
  add_fields schema mapping object doc.

(** ** Building a validated document *)

Lemma schema_of_get_field m name :
  mapping_ok m →
  is_Some (get_field (schema_of m) name) ↔
  name = ID_FIELD ∨ name = SOURCE_FIELD
  ∨ ∃ spec, fields m !! name = Some spec ∧ indexed spec || fast spec = true.
Proof.
  intros Hv. unfold schema_of. rewrite get_field_build by apply Hv.
  apply to_schema_names.
Qed.

Lemma add_value_typed doc f v t :
  has_type v t → ∃ x, add_value doc f v t = Ok (doc ++ [(f, x)]).
Proof. inversion 1 as [? ? E|? ? E|? ? E|? ? E|? ? ? E E']; subst; cbn; rewrite E; cbn; [..|rewrite E']; by eexists. Qed.

Lemma add_value_untyped doc f v t : ¬ has_type v t → is_ok (add_value doc f v t) = false.
Proof.
  intros Hn. destruct t; cbn; [destruct (as_str v) eqn:E|destruct (as_str v) eqn:E|destruct (as_i64 v) eqn:E|
    destruct (as_f64 v) eqn:E|destruct (as_str v) as [s|] eqn:E; [cbn; destruct (parse_rfc3339 s) eqn:E'|]]; cbn; try done.
  all: destruct Hn; by econstructor.
Qed.

Lemma add_value_shape doc f v t r :
  add_value doc f v t = Ok r → ∃ x, r = doc ++ [(f, x)].
Proof.
  destruct t; cbn; [destruct (as_str v)|destruct (as_str v)|destruct (as_i64 v)|destruct (as_f64 v)|
    destruct (as_str v); [cbn; destruct (parse_rfc3339 _)|]]; cbn; try done; intros [= <-]; eauto.
Qed.

Lemma add_value_not_Panic doc f v t w : add_value doc f v t ≠ Panic w.
Proof.
  destruct t; cbn; [destruct (as_str v)|destruct (as_str v)|destruct (as_i64 v)|destruct (as_f64 v)|
    destruct (as_str v); [cbn; destruct (parse_rfc3339 _)|]]; done.
Qed.

(** Whatever the object holds, a result extends the document with values of
    mapped fields only: a reserved name would have panicked. *)
Lemma add_fields_shape m o : ∀ doc r,
  mapping_ok m → add_fields (schema_of m) m o doc = Ok r →
  ∃ rest, r = doc ++ rest
    ∧ ∀ f x, (f, x) ∈ rest → ∃ name spec, fields m !! name = Some spec
        ∧ get_field (schema_of m) name = Some f.
Proof.
  induction o as [|[name v] o IH]; intros doc r Hv; cbn [add_fields].
  { intros [= <-]. exists []. rewrite app_nil_r. split; [done|]. by intros ? ? ?%elem_of_nil. }
  destruct (get_field (schema_of m) name) as [f|] eqn:Ef; [|by apply IH].
  unfold field. destruct (fields m !! name) as [spec|] eqn:El; [|done]. cbn.
  destruct (add_value doc f v (ty spec)) as [r1| |] eqn:Ea; cbn; [|done..].
  apply add_value_shape in Ea as [x ->]. intros (rest & -> & Hrest)%(IH _ _ Hv).
  exists ((f, x) :: rest). split; [by rewrite <-app_assoc|].
  intros f' x' [[= -> ->]|Hin]%elem_of_cons; eauto.
Qed.

Lemma add_fields_not_Panic m o : ∀ doc w,
  (∀ name v, (name, v) ∈ o → is_Some (get_field (schema_of m) name) → is_Some (fields m !! name)) →
  add_fields (schema_of m) m o doc ≠ Panic w.
Proof.
  induction o as [|[name v] o IH]; intros doc w Hall; cbn [add_fields]; [done|].
  assert (Hall' : ∀ n x, (n, x) ∈ o → is_Some (get_field (schema_of m) n) → is_Some (fields m !! n))
    by (intros ? ? ?; apply (Hall _ x); by right).
  destruct (get_field (schema_of m) name) as [f|] eqn:Ef; [|by apply IH].
  destruct (Hall name v) as [spec Hl]; [left|by eauto|]. unfold field. rewrite Hl. cbn.
  destruct (add_value doc f v (ty spec)) as [r| |w'] eqn:Ea; cbn; [by apply IH|done|].
  by apply add_value_not_Panic in Ea.
Qed.

(** The system fields of a schema. *)
Lemma system_fields_exist m :
  mapping_ok m →
  ∃ idf srcf, get_field (schema_of m) ID_FIELD = Some idf
    ∧ get_field (schema_of m) SOURCE_FIELD = Some srcf ∧ idf ≠ srcf.
Proof.
  intros Hv.
  destruct (proj2 (schema_of_get_field m ID_FIELD Hv)) as [idf Hid]; [by left|].
  destruct (proj2 (schema_of_get_field m SOURCE_FIELD Hv)) as [srcf Hsrc]; [by right; left|].
  exists idf, srcf. split_and!; [done|done|]. intros ->.
  by pose proof (get_field_inj _ _ _ _ Hid Hsrc).
Qed.

(** A built document starts with its id and source and has no other value for
    these fields. *)
Definition doc_shape (m : Mapping) (id : string) (source : list byte) (doc : TantivyDocument) : Prop :=
  ∃ idf srcf rest, get_field (schema_of m) ID_FIELD = Some idf
    ∧ get_field (schema_of m) SOURCE_FIELD = Some srcf ∧ idf ≠ srcf
    ∧ doc = (idf, TextV id) :: (srcf, BytesV source) :: rest
    ∧ ∀ f x, (f, x) ∈ rest → f ≠ idf ∧ f ≠ srcf.

Lemma build_doc_shape m id source v doc :
  mapping_ok m → build_doc (schema_of m) m id source v = Ok doc → doc_shape m id source doc.
Proof.
  intros Hv. destruct (system_fields_exist m Hv) as (idf & srcf & Hid & Hsrc & Hne).
  unfold build_doc. rewrite Hid. cbn. rewrite Hsrc. cbn.
  destruct (as_object v) as [o|]; cbn; [|done].
  intros (rest & -> & Hrest)%(add_fields_shape _ _ _ _ Hv).
  exists idf, srcf, rest. split_and!; try done. intros f x Hin.
  destruct (Hrest _ _ Hin) as (name & spec & Hl & Hf).
  destruct (mapping_valid_reserved m name spec (proj1 Hv) Hl) as [Hn1 Hn2].
  split; intros ->; [apply Hn1|apply Hn2]; by eapply get_field_inj.
Qed.

(** What [build_doc] needs of a document: no reserved field, and a value of the mapped type
    in each field of the schema.  Other fields are skipped. *)
Definition buildable (m : Mapping) (v : Value) : Prop :=
  match as_object v with
  | Some o => Forall (λ nx, nx.1 ≠ ID_FIELD ∧ nx.1 ≠ SOURCE_FIELD ∧
      match fields m !! nx.1 with
      | Some spec => indexed spec || fast spec = true → has_type nx.2 (ty spec)
      | None => True
      end) o
  | None => False
  end.

#[global] Instance buildable_dec m v : Decision (buildable m v).
Proof.
  unfold buildable. destruct (as_object v); [|apply _]. apply Forall_dec. intros [name x]. cbn.
  destruct (fields m !! name); apply _.
Defined.

Lemma add_fields_ok m o : ∀ doc,
  mapping_ok m →
  is_ok (add_fields (schema_of m) m o doc) = true ↔
  Forall (λ nx, nx.1 ≠ ID_FIELD ∧ nx.1 ≠ SOURCE_FIELD ∧
    match fields m !! nx.1 with
    | Some spec => indexed spec || fast spec = true → has_type nx.2 (ty spec)
    | None => True
    end) o.
Proof.
  induction o as [|[name v] o IH]; intros doc Hv; [split; [by constructor|done]|]. rewrite Forall_cons. cbn [add_fields fst snd].
  pose proof (schema_of_get_field m name Hv) as Hg. destruct (get_field (schema_of m) name) as [f|].
  - unfold field. destruct (fields m !! name) as [spec|] eqn:El; cbn.
    + destruct (mapping_valid_reserved m name spec (proj1 Hv) El) as [Hi Hs].
      assert (Hb : indexed spec || fast spec = true)
        by (destruct (proj1 Hg ltac:(by eexists)) as [?|[?|(spec' & El' & Hb)]]; [done..|congruence]).
      destruct (decide (has_type v (ty spec))) as [Ht|Ht].
      * destruct (add_value_typed doc f v (ty spec) Ht) as [x ->]. cbn. rewrite IH by done. tauto.
      * pose proof (add_value_untyped doc f v (ty spec) Ht) as Ha. destruct (add_value doc f v (ty spec)); [done|..]; cbn; (split; [done|]); intros [(_ & _ & Ht') _]; by apply Ht in Ht'.
    + destruct (proj1 Hg ltac:(by eexists)) as [?|[?|(spec' & El' & Hb)]]; [split; [done|tauto]..|congruence].
  - rewrite IH by done. assert (Hno : ¬ (name = ID_FIELD ∨ name = SOURCE_FIELD
      ∨ ∃ spec, fields m !! name = Some spec ∧ indexed spec || fast spec = true)) by (rewrite <-Hg; by intros []).
    destruct (fields m !! name) as [spec|]; [|naive_solver].
    destruct (indexed spec || fast spec) eqn:Eb; [destruct Hno; eauto|naive_solver].
Qed.

(** A document is built exactly when it is [buildable]. *)
Lemma build_doc_iff m id source v :
  mapping_ok m → is_ok (build_doc (schema_of m) m id source v) = true ↔ buildable m v.
Proof.
  intros Hv. destruct (system_fields_exist m Hv) as (idf & srcf & Hid & Hsrc & _).
  unfold build_doc, buildable. rewrite Hid. cbn. rewrite Hsrc. cbn. destruct (as_object v) as [o|]; [|done].
  by apply add_fields_ok.
Qed.

Lemma validated_buildable m v : mapping_valid m → validate_document m v = Ok tt → buildable m v.
Proof.
  intros Hm (o & Ho & Hall)%validate_document_Ok. unfold buildable. rewrite Ho. apply Forall_forall. intros [name x] Hin.
  destruct (Hall _ _ Hin) as (spec & Hl & Ht%value_matches_iff). cbn. rewrite Hl.
  destruct (mapping_valid_reserved m name spec Hm Hl). done.
Qed.

Lemma build_doc_Ok m id source v :
  mapping_ok m → validate_document m v = Ok tt →
  ∃ doc, build_doc (schema_of m) m id source v = Ok doc ∧ doc_shape m id source doc.
Proof.
  intros Hv Hval. apply (validated_buildable m v (proj1 Hv)), (build_doc_iff m id source v Hv) in Hval.
  destruct (build_doc _ _ _ _ _) as [doc| |] eqn:E; [|done..]. exists doc. split; [done|]. by eapply build_doc_shape.
Qed.

Lemma doc_shape_get_first m id source doc :
  doc_shape m id source doc →
  ∃ idf srcf, get_field (schema_of m) ID_FIELD = Some idf
    ∧ get_field (schema_of m) SOURCE_FIELD = Some srcf
    ∧ get_first doc idf = Some (TextV id) ∧ get_first doc srcf = Some (BytesV source).
Proof.
  intros (idf & srcf & rest & Hid & Hsrc & Hne & -> & _). exists idf, srcf.
  split_and!; [done|done|..]; unfold get_first.
  - by rewrite filter_cons_True.
  - by rewrite filter_cons_False, filter_cons_True.
Qed.

(** C37: When the schema of a valid mapping can be built, a document that passes
    validation is turned into a Tantivy document, without an error and without hitting an
    expect; the id and the source bytes read back from it are the ones given. *)
Theorem build_doc_validated m s id source v :
  mapping_valid m → build_schema (E:=Error) m = Ok s → validate_document m v = Ok tt →
  ∃ doc idf srcf, build_doc s m id source v = Ok doc
    ∧ get_field s ID_FIELD = Some idf ∧ get_first doc idf = Some (TextV id)
    ∧ get_field s SOURCE_FIELD = Some srcf
    ∧ get_first doc srcf = Some (BytesV source).
Proof.
  unfold build_schema. intros Hm Hs Hval. case_decide as Ha; [|done]. injection Hs as <-.
  destruct (build_doc_Ok m id source v (conj Hm Ha) Hval) as (doc & E & Hs).
  destruct (doc_shape_get_first _ _ _ _ Hs) as (idf & srcf & ? & ? & ? & ?). eauto 10.
Qed.

(** A document validated against one mapping and built under another one (a
    replay after the collection was dropped and created again) never hits an
    [expect]: it is built or refused with an error. *)
Theorem build_doc_never_panics m0 m id source v w :
  mapping_ok m0 → mapping_ok m → validate_document m0 v = Ok tt →
  build_doc (schema_of m) m id source v ≠ Panic w.
Proof.
  intros Hv0 Hv (o & Ho & Hall)%validate_document_Ok.
  destruct (system_fields_exist m Hv) as (idf & srcf & Hid & Hsrc & _).
  unfold build_doc. rewrite Hid. cbn. rewrite Hsrc. cbn. rewrite Ho. cbn.
  apply add_fields_not_Panic. intros name x Hin Hf.
  destruct (Hall _ _ Hin) as (spec0 & Hl0 & _).
  destruct (mapping_valid_reserved m0 name spec0 (proj1 Hv0) Hl0).
  apply (schema_of_get_field m name Hv) in Hf as [?|[?|(spec & ? & _)]]; [done|done|by eauto].
Qed.

(** A document with a reserved field that reaches [build_doc] unvalidated
    panics: the schema knows [_id], the mapping does not. *)
Theorem build_doc_reserved_panics m id source v x :
  mapping_ok m → as_object v = Some [(ID_FIELD, x)] →
  build_doc (schema_of m) m id source v = Panic "validated: every field is mapped".
Proof.
  intros Hv Ho. destruct (system_fields_exist m Hv) as (idf & srcf & Hid & Hsrc & _).
  assert (E : field m ID_FIELD = None).
  { unfold field. destruct (fields m !! ID_FIELD) as [spec|] eqn:E; [|done].
    by destruct (mapping_valid_reserved m _ spec (proj1 Hv) E). }
  unfold build_doc. rewrite Hid. cbn. rewrite Hsrc. cbn. rewrite Ho. cbn -[field]. rewrite Hid, E. done.
Qed.
End Document.

Abbreviation TantivyDocument := (list (FieldId * FieldValue)).

(** ** Evaluated instances *)

#[local] Existing Instances Samples.json Samples.rfc3339 Samples.schema.

Definition sample_doc : Value := Samples.JObj [("n", Samples.JInt 7)].
Definition reserved_doc : Value := Samples.JObj [(ID_FIELD, Samples.JInt 7)].

Lemma sample_mapping_ok : mapping_ok sample_mapping.
Proof.
  split; [apply sample_mapping_valid|]. apply (bool_decide_eq_true_1 (accepted _)). vm_compute. reflexivity.
Qed.

Lemma build_doc_validated_witness :
  ∃ doc idf srcf,
    build_doc (schema_of sample_mapping) sample_mapping "a" [x07]
      sample_doc = Ok doc
    ∧ get_field (schema_of sample_mapping) ID_FIELD = Some idf
    ∧ get_first doc idf = Some (TextV "a")
    ∧ get_field (schema_of sample_mapping) SOURCE_FIELD = Some srcf
    ∧ get_first doc srcf = Some (BytesV [x07]).
Proof.
  apply (build_doc_validated sample_mapping (schema_of sample_mapping) "a" [x07] sample_doc);
    [apply sample_mapping_valid|vm_compute; reflexivity|vm_compute; reflexivity].
Defined.

(** [n] became a text field. *)
Definition other_mapping : Mapping :=
  {| fields := {[ "n" := {| ty := Text; indexed := true; fast := false |} ]} |}.

Lemma other_mapping_ok : mapping_ok other_mapping.
Proof.
  split; [apply validate_fields_Ok; vm_compute; reflexivity|]. apply (bool_decide_eq_true_1 (accepted _)). vm_compute. reflexivity.
Qed.

Lemma build_doc_never_panics_witness :
  build_doc (schema_of other_mapping) other_mapping "a" [x07] sample_doc
  ≠ Panic "validated: every field is mapped".
Proof.
  apply (build_doc_never_panics sample_mapping other_mapping "a" [x07]
    sample_doc);
    [apply sample_mapping_ok|apply other_mapping_ok|vm_compute; reflexivity].
Defined.

Lemma build_doc_reserved_panics_witness :
  build_doc (schema_of sample_mapping) sample_mapping "a" []
    reserved_doc = Panic "validated: every field is mapped".
Proof.
  apply (build_doc_reserved_panics sample_mapping "a" [] reserved_doc
    (Samples.JInt 7 : Value (Json := Samples.json))); [apply sample_mapping_ok|vm_compute; reflexivity].
Defined.
