(* ===== verification/IndexApi.v ===== *)
(** * Tantivy indexes

    What [collection.rs] and [search.rs] use of a Tantivy index, as a class: a
    committed index has a schema, live documents and a payload; a commit applies
    the buffered operations of the writer in order and replaces the payload
    atomically.  [index_docs] is in no particular order: merges may permute it. *)

From S2P Require Import Prelude Bytes CoreError External Mapping Document.

Open Scope Z_scope.

(** Tokens longer than this are not indexed (tantivy's [MAX_TOKEN_LEN]). *)
Definition MAX_TOKEN_LEN : nat := Z.to_nat 65530.

Section ops.
Context `{Json} `{Rfc3339} `{TantivySchema}.

(** The operations buffered by an [IndexWriter]. *)
Inductive WriterOp :=
| DeleteTerm (f : FieldId) (t : string)
| AddDocument (d : TantivyDocument).

Definition apply_op (matches : FieldId → string → TantivyDocument → bool)
    (docs : list TantivyDocument) (o : WriterOp) : list TantivyDocument :=
  match o with
  | DeleteTerm f t => filter (λ d, matches f t d = false) docs
  | AddDocument d => docs ++ [d]
  end.

(** A field added with [STRING.set_stored()] or as stored bytes. *)
Definition stored_call (calls : list schema_call) (name : string) : Prop :=
  add_text_field name STRING_stored ∈ calls ∨ add_bytes_field_stored name ∈ calls.
End ops.

Class TantivyIndex `{Json} `{Rfc3339} `{TantivySchema} := {
  Index : Type;
  create_in_dir : Schema → Index;
  index_schema : Index → Schema;
  index_payload : Index → option string;
  index_docs : Index → list TantivyDocument;
  index_commit : Index → list WriterOp → string → Index;
  (** Whether a document has a term, and what is stored of a document. *)
  has_term : Schema → FieldId → string → TantivyDocument → bool;
  stored_doc : Schema → TantivyDocument → TantivyDocument;
  (** [TopDocs::with_limit(1)] of a term query: some matching document. *)
  top_doc : Index → FieldId → string → option TantivyDocument;

  create_schema s : index_schema (create_in_dir s) = s;
  create_payload s : index_payload (create_in_dir s) = None;
  create_docs s : index_docs (create_in_dir s) = [];
  commit_schema i ops p : index_schema (index_commit i ops p) = index_schema i;
  commit_payload i ops p : index_payload (index_commit i ops p) = Some p;
  commit_docs i ops p :
    index_docs (index_commit i ops p)
    ≡ₚ foldl (apply_op (has_term (index_schema i))) (index_docs i) ops;
  has_term_string calls name f t d :
    accepted calls → add_text_field name STRING_stored ∈ calls →
    get_field (build calls) name = Some f → (String.length t ≤ MAX_TOKEN_LEN)%nat →
    has_term (build calls) f t d = true ↔ (f, TextV t) ∈ d;
  stored_doc_get_first calls name f d :
    accepted calls → stored_call calls name →
    get_field (build calls) name = Some f →
    get_first (stored_doc (build calls) d) f = get_first d f;
  top_doc_match i f t :
    match top_doc i f t with
    | Some r => ∃ d, d ∈ index_docs i ∧ has_term (index_schema i) f t d = true
                     ∧ r = stored_doc (index_schema i) d
    | None => Forall (λ d, has_term (index_schema i) f t d = false) (index_docs i)
    end
}.
