(* ===== verification/Collection.v ===== *)
(** * Collections (crates/core/src/collection.rs, search.rs)

    A collection is a mapping and a Tantivy index.  Its state is what the process
    holds (the operations buffered by the writer, the commit the reader sees) and
    the committed index on disk; a process that dies keeps only the latter. *)

From S2P Require Import Prelude Bytes CoreError External Mapping Document IndexApi.

Open Scope Z_scope.

Record LogMark := { mark_term : Z; mark_node : Z; mark_index : Z }.

#[global] Instance LogMark_eq_dec : EqDecision LogMark.
Proof. solve_decision. Defined.

(** [LogMark::default()]. *)
Definition LogMark_default : LogMark := {| mark_term := 0; mark_node := 0; mark_index := 0 |}.

(** The derived JSON form of a mark in the commit payload. *)
Class MarkJson := {
  mark_to_string : LogMark → string;
  mark_from_str : string → option LogMark;
  mark_roundtrip m : mark_from_str (mark_to_string m) = Some m
}.

Section Collection.
Context `{Json} `{Rfc3339} `{TantivySchema} `{!TantivyIndex} `{!MarkJson} `{UuidApi}.

Record Collection := {
  c_uuid : Uuid;
  c_mapping : Mapping;
  (** buffered in the [IndexWriter] *)
  c_pending : list WriterOp;
  (** the commit the [IndexReader] was last reloaded at *)
  c_reader : Index
}.

(** A collection and its index on disk. *)
Record ColSt := { col : Collection; on_disk : Index }.

(** [Collection::from_index]. *)
Definition from_index (uuid : Uuid) (mapping : Mapping) (index : Index) : Collection :=
  {| c_uuid := uuid; c_mapping := mapping; c_pending := []; c_reader := index |}.

(** ** search.rs *)

Definition missing_field (name : string) : Error :=
  Recovery (Msg "stored document missing system field {name}" [name]).

Definition system_fields (schema : Schema) : result Error (FieldId * FieldId) :=
  idf ← expect "schema always has _id" (get_field schema ID_FIELD);
  srcf ← expect "schema always has _source" (get_field schema SOURCE_FIELD);
  mret (idf, srcf).

Definition bytes_field (doc : TantivyDocument) (f : FieldId) (name : string) :
    result Error (list byte) :=
  match get_first doc f with
  | Some (BytesV b) => Ok b
  | _ => Err (missing_field name)
  end.

Definition source_by_id (schema : Schema) (reader : Index) (id : string) :
    result Error (option (list byte)) :=
  '(id_field, source_field) ← system_fields schema;
  match top_doc reader id_field id with
  | Some doc => b ← bytes_field doc source_field SOURCE_FIELD; mret (Some b)
  | None => Ok None
  end.

(** ** collection.rs *)

Definition id_term (schema : Schema) : result Error FieldId :=
  expect "schema always has _id" (get_field schema ID_FIELD).

(** [id_exists]: a count over the documents the reader sees. *)
Definition id_exists (schema : Schema) (reader : Index) (id : string) : result Error bool :=
  f ← id_term schema;
  mret (bool_decide (filter (λ d, has_term (index_schema reader) f id d = true)
                            (index_docs reader) ≠ [])).

Definition set_pending (ops : list WriterOp) (c : Collection) : Collection :=
  {| c_uuid := c_uuid c; c_mapping := c_mapping c; c_pending := ops; c_reader := c_reader c |}.

(** [writer.delete_term(..)], [writer.add_document(..)]. *)
Definition buffer (o : WriterOp) : M ColSt Error unit :=
  modify (λ s, {| col := set_pending (c_pending (col s) ++ [o]) (col s); on_disk := on_disk s |}).

Definition apply_upsert (id : string) (source : list byte) (parsed : Value) : M ColSt Error bool :=
  s ← get;
  let schema := index_schema (on_disk s) in
  doc ← lift (build_doc schema (c_mapping (col s)) id source parsed);
  existed ← lift (id_exists schema (c_reader (col s)) id);
  f ← lift (id_term schema);
  buffer (DeleteTerm f id);;
  buffer (AddDocument doc);;
  mret (negb existed).

Definition apply_delete (id : string) : M ColSt Error bool :=
  s ← get;
  let schema := index_schema (on_disk s) in
  existed ← lift (id_exists schema (c_reader (col s)) id);
  f ← lift (id_term schema);
  buffer (DeleteTerm f id);;
  mret existed.

Definition commit (mark : LogMark) : M ColSt Error unit :=
  modify (λ s,
    let index := index_commit (on_disk s) (c_pending (col s)) (mark_to_string mark) in
    {| col := {| c_uuid := c_uuid (col s); c_mapping := c_mapping (col s);
                 c_pending := []; c_reader := index |};
       on_disk := index |}).

Definition committed_mark_of (index : Index) : result Error (option LogMark) :=
  match index_payload index with
  | Some payload =>
      m ← ok_or (Recovery (Msg "invalid commit payload: {e}" [])) (mark_from_str payload);
      mret (Some m)
  | None => Ok None
  end.

Definition committed_mark : M ColSt Error (option LogMark) :=
  s ← get; lift (committed_mark_of (on_disk s)).

Definition source (id : string) : M ColSt Error (option (list byte)) :=
  s ← get; lift (source_by_id (index_schema (on_disk s)) (c_reader (col s)) id).

(** [archive_into]: the files of the latest commit; the reader is reloaded. *)
Definition archive_into : M ColSt Error Index :=
  s ← get;
  put {| col := {| c_uuid := c_uuid (col s); c_mapping := c_mapping (col s);
                   c_pending := c_pending (col s); c_reader := on_disk s |};
         on_disk := on_disk s |};;
  mret (on_disk s).
End Collection.
