(* ===== verification/SampleIndex.v ===== *)
(** * A concrete index and commit payload

    Executable instances of the Tantivy interface and of the JSON form of a mark:
    an index is its list of documents.  They show that the interfaces can be
    implemented and are used to evaluate the development on concrete inputs. *)

From S2P Require Import Prelude Bytes CoreError External Samples Mapping Document IndexApi Collection.

Open Scope Z_scope.

Module SampleIndex.
#[local] Existing Instances Samples.json Samples.rfc3339 Samples.schema.

Definition document : Type := list (string * FieldValue).

Record index := { i_schema : list schema_call; i_payload : option string; i_docs : list document }.

Definition is_text (t : string) (v : FieldValue) : bool :=
  match v with TextV s => bool_decide (s = t) | _ => false end.

Definition matches (_ : list schema_call) (f t : string) (d : document) : bool :=
  existsb (λ kv, bool_decide (kv.1 = f) && is_text t kv.2) d.

Lemma matches_iff s f t (d : document) : matches s f t d = true ↔ (f, TextV t) ∈ d.
Proof.
  unfold matches. rewrite existsb_exists. split.
  - intros ([f' v] & Hin & Hb). cbn in Hb. apply andb_true_iff in Hb as [Hf Hv].
    apply bool_decide_eq_true in Hf as ->. destruct v; try done.
    apply bool_decide_eq_true in Hv as ->. by apply list_elem_of_In.
  - intros Hin. exists (f, TextV t). split; [by apply list_elem_of_In|]. cbn.
    by rewrite !bool_decide_true.
Qed.

#[refine] Definition tantivy : TantivyIndex := {|
  Index := index;
  create_in_dir s := {| i_schema := s; i_payload := None; i_docs := [] |};
  index_schema := i_schema;
  index_payload := i_payload;
  index_docs := i_docs;
  index_commit i ops p :=
    {| i_schema := i_schema i; i_payload := Some p;
       i_docs := foldl (apply_op (matches (i_schema i))) (i_docs i) ops |};
  has_term := matches;
  stored_doc _ d := d;
  top_doc i f t := head (filter (λ d, matches (i_schema i) f t d = true) (i_docs i))
|}.
Proof.
  all: try done.
  - intros. apply matches_iff.
  - intros i f t. destruct (filter _ (i_docs i)) as [|d ds] eqn:E; cbn.
    + apply Forall_forall. intros d Hd. apply not_true_iff_false. intros Ht.
      eapply elem_of_nil. rewrite <-E. by apply list_elem_of_filter.
    + assert (Hd : d ∈ filter (λ d, matches (i_schema i) f t d = true) (i_docs i)) by (rewrite E; by left).
      apply list_elem_of_filter in Hd as [? ?]. by exists d.
Defined.

(** The three numbers of a mark, as the binary digits of one number. *)
Fixpoint digits (n : positive) : string :=
  match n with
  | xH => ""
  | xO p => String "0" (digits p)
  | xI p => String "1" (digits p)
  end.
Fixpoint of_digits (s : string) : positive :=
  match s with
  | EmptyString => xH
  | String c s => if decide (c = "0"%char) then xO (of_digits s) else xI (of_digits s)
  end.
Lemma of_digits_digits p : of_digits (digits p) = p.
Proof. induction p; cbn; by f_equal. Qed.

#[refine] Definition mark_json : MarkJson := {|
  mark_to_string m := digits (countable.encode (mark_term m, mark_node m, mark_index m));
  mark_from_str s :=
    (λ '(t, n, i), {| mark_term := t; mark_node := n; mark_index := i |})
      <$> (countable.decode (of_digits s) : option (Z * Z * Z))
|}.
Proof. intros []. cbn. by rewrite of_digits_digits, countable.decode_encode. Defined.
End SampleIndex.
