(* ===== verification/CollectionSpec.v ===== *)
(** * Collections: abstract contents

    A collection stands for a finite map from document ids to source bytes.  Each
    operation of [Collection] refines the operation on that map; what a process
    death leaves is the map of the last commit. *)

From S2P Require Import Prelude Bytes CoreError External Mapping Document IndexApi Collection.

Open Scope Z_scope.

Abbreviation docs_map := (gmap string (list byte)).

Lemma list_to_map_delete (kvs : list (string * list byte)) id :
  list_to_map (filter (λ kv, kv.1 ≠ id) kvs) = delete id (list_to_map kvs : docs_map).
Proof.
  induction kvs as [|[k v] kvs IH]; [symmetry; apply delete_empty|].
  rewrite filter_cons. cbn [fst]. rewrite list_to_map_cons. case_decide as Hk.
  - by rewrite list_to_map_cons, IH, delete_insert_ne.
  - assert (k = id) as -> by tauto. by rewrite IH, delete_insert_eq.
Qed.

Lemma Forall2_filter {A B} (R : A → B → Prop) (P : A → Prop) (Q : B → Prop)
    `{!∀ x, Decision (P x), !∀ x, Decision (Q x)} l k :
  (∀ x y, R x y → P x ↔ Q y) → Forall2 R l k → Forall2 R (filter P l) (filter Q k).
Proof.
  intros HPQ. induction 1 as [|x y l k Hxy _ IH]; [constructor|].
  rewrite !filter_cons. specialize (HPQ _ _ Hxy). repeat case_decide; try tauto. by constructor.
Qed.

Section CollectionSpec.
Context `{Json} `{Rfc3339} `{TantivySchema} `{!TantivyIndex} `{!MarkJson} `{UuidApi}.

(** Ids short enough to be indexed. *)
Definition id_ok (id : string) : Prop := (String.length id ≤ MAX_TOKEN_LEN)%nat.

Lemma id_ok_short id : Z.of_nat (String.length id) ≤ 65530 → id_ok id.
Proof. unfold id_ok, MAX_TOKEN_LEN. lia. Qed.

Definition docs_rep (m : Mapping) (docs : list TantivyDocument) (g : docs_map) : Prop :=
  ∃ kvs docs', NoDup kvs.*1 ∧ g = list_to_map kvs ∧ docs ≡ₚ docs'
    ∧ Forall2 (λ d kv, doc_shape m kv.1 kv.2 d) docs' kvs.

#[global] Instance docs_rep_proper m : Proper ((≡ₚ) ==> (=) ==> iff) (docs_rep m).
Proof.
  intros d1 d2 Hp g ? <-.
  split; intros (kvs & docs' & ? & ? & Hd & ?); exists kvs, docs'; split_and!; try done.
  - by rewrite <-Hp.
  - by rewrite Hp.
Qed.

Lemma docs_rep_nil m : docs_rep m [] ∅.
Proof. exists [], []. split_and!; [constructor|done|done|constructor]. Qed.

(** Term queries on [_id] see exactly the id of a document. *)
Lemma has_term_shape m id src d t f :
  mapping_ok m → doc_shape m id src d → id_ok t → get_field (schema_of m) ID_FIELD = Some f →
  has_term (schema_of m) f t d = true ↔ t = id.
Proof.
  intros Hv (idf & srcf & rest & Hid & _ & Hne & -> & Hrest) Ht Hf.
  assert (f = idf) as -> by congruence. unfold schema_of.
  rewrite (has_term_string (to_schema m) ID_FIELD); [|apply Hv|by left|done|done].
  split; [|intros ->; left]. intros [[= ->]|[[= E _]|Hin]%elem_of_cons]%elem_of_cons; [done|].
  by destruct (Hrest _ _ Hin).
Qed.

Lemma docs_rep_delete m docs g id f :
  mapping_ok m → docs_rep m docs g → id_ok id → get_field (schema_of m) ID_FIELD = Some f →
  docs_rep m (apply_op (has_term (schema_of m)) docs (DeleteTerm f id)) (delete id g).
Proof.
  intros Hv (kvs & docs' & Hnd & -> & Hp & Hs) Hid Hf. cbn.
  exists (filter (λ kv, kv.1 ≠ id) kvs), (filter (λ d, has_term (schema_of m) f id d = false) docs').
  split_and!; [by apply NoDup_fst_filter|by rewrite list_to_map_delete|by rewrite Hp|].
  eapply Forall2_filter; [|exact Hs]. intros d kv Hd.
  pose proof (has_term_shape m _ _ d id f Hv Hd Hid Hf) as Ht.
  rewrite <-not_true_iff_false, Ht. naive_solver.
Qed.

Lemma docs_rep_add m docs g id src d f :
  g !! id = None → docs_rep m docs g → doc_shape m id src d →
  docs_rep m (apply_op f docs (AddDocument d)) (<[id := src]> g).
Proof.
  intros Hn (kvs & docs' & Hnd & -> & Hp & Hs) Hd. cbn.
  assert (Hnin : id ∉ kvs.*1) by (by apply not_elem_of_list_to_map).
  exists (kvs ++ [(id, src)]), (docs' ++ [d]). rewrite fmap_app. split_and!.
  - apply NoDup_app. split_and!; [done| |by apply NoDup_singleton]. set_solver.
  - by rewrite list_to_map_snoc.
  - by rewrite Hp.
  - apply Forall2_app; [done|]. by repeat constructor.
Qed.

Lemma docs_rep_upsert m docs g id src d f :
  mapping_ok m → docs_rep m docs g → id_ok id → get_field (schema_of m) ID_FIELD = Some f →
  doc_shape m id src d →
  docs_rep m (foldl (apply_op (has_term (schema_of m))) docs [DeleteTerm f id; AddDocument d])
    (<[id := src]> g).
Proof.
  intros Hv Hr Hid Hf Hd. cbn [foldl]. rewrite <-insert_delete_eq.
  apply docs_rep_add; [apply lookup_delete_eq| |done]. by apply docs_rep_delete.
Qed.

(** What a lookup by id finds. *)
Lemma docs_rep_lookup m docs g id f :
  mapping_ok m → docs_rep m docs g → id_ok id → get_field (schema_of m) ID_FIELD = Some f →
  match g !! id with
  | Some src => ∀ d, d ∈ docs → has_term (schema_of m) f id d = true → doc_shape m id src d
  | None => Forall (λ d, has_term (schema_of m) f id d = false) docs
  end ∧ (is_Some (g !! id) → ∃ d, d ∈ docs ∧ has_term (schema_of m) f id d = true).
Proof.
  intros Hv (kvs & docs' & Hnd & -> & Hp & Hs) Hid Hf.
  assert (Hget : ∀ d, d ∈ docs' → ∃ kv, kv ∈ kvs ∧ doc_shape m kv.1 kv.2 d).
  { intros d Hin. apply list_elem_of_lookup in Hin as [i Hi].
    destruct (Forall2_lookup_l _ _ _ _ _ Hs Hi) as (kv & Hk & Hd).
    exists kv. split; [by eapply list_elem_of_lookup_2|done]. }
  destruct (list_to_map kvs !! id) as [src|] eqn:El.
  - split.
    + intros d Hin Ht. rewrite Hp in Hin. destruct (Hget d Hin) as ([k v] & Hk & Hd).
      apply (has_term_shape m k v d id f Hv Hd Hid Hf) in Ht. subst k.
      apply elem_of_list_to_map_1 in Hk; [|done]. cbn in *. by simplify_eq.
    + intros _. apply elem_of_list_to_map_2 in El. apply list_elem_of_lookup in El as [i Hi].
      destruct (Forall2_lookup_r _ _ _ _ _ Hs Hi) as (d & Hd & Hsh). exists d.
      split; [rewrite Hp; by eapply list_elem_of_lookup_2|].
      by apply (has_term_shape m id src d id f).
  - split; [|by intros []]. apply Forall_forall. intros d Hin. rewrite Hp in Hin.
    destruct (Hget d Hin) as ([k v] & Hk & Hd). apply not_true_iff_false.
    rewrite (has_term_shape m k v d id f) by done. intros <-.
    apply elem_of_list_to_map_1 in Hk; [|done]. cbn in *. congruence.
Qed.

(** ** The refinement relation *)

(** The documents once everything buffered is committed. *)
Definition effective (s : ColSt) : list TantivyDocument :=
  foldl (apply_op (has_term (index_schema (on_disk s)))) (index_docs (on_disk s)) (c_pending (col s)).

(** [s] holds the documents [g], of which [committed] are committed. *)
Record col_rep (s : ColSt) (m : Mapping) (committed g : docs_map) : Prop := {
  cr_valid : mapping_ok m;
  cr_mapping : c_mapping (col s) = m;
  cr_schema : index_schema (on_disk s) = schema_of m;
  cr_reader : c_reader (col s) = on_disk s;
  cr_committed : docs_rep m (index_docs (on_disk s)) committed;
  cr_docs : docs_rep m (effective s) g
}.

Lemma col_rep_create u m :
  mapping_ok m →
  col_rep {| col := from_index u m (create_in_dir (schema_of m));
             on_disk := create_in_dir (schema_of m) |} m ∅ ∅.
Proof.
  intros Hv. split; cbn; try done; [apply create_schema|rewrite create_docs; apply docs_rep_nil|].
  unfold effective. cbn. rewrite create_docs. apply docs_rep_nil.
Qed.

(** Opening the index of another process: only the committed documents are left. *)
Lemma col_rep_open u m index committed :
  mapping_ok m → index_schema index = schema_of m → docs_rep m (index_docs index) committed →
  col_rep {| col := from_index u m index; on_disk := index |} m committed committed.
Proof. intros Hv Hs Hd. by split. Qed.

Lemma id_exists_rep s m committed g id :
  col_rep s m committed g → id_ok id →
  id_exists (index_schema (on_disk s)) (c_reader (col s)) id
  = Ok (bool_decide (is_Some (committed !! id))).
Proof.
  intros [Hv _ Hs Hr Hc _] Hid. destruct (system_fields_exist m Hv) as (idf & _ & Hf & _).
  unfold id_exists, id_term. rewrite Hr, Hs, Hf. cbn. do 2 f_equal. apply bool_decide_ext.
  destruct (docs_rep_lookup m _ _ id idf Hv Hc Hid Hf) as [Hl Hex].
  destruct (committed !! id) as [src|].
  - split; [by eauto|]. intros _. destruct (Hex ltac:(eauto)) as (d & Hin & Ht). intros Hnil.
    eapply elem_of_nil. rewrite <-Hnil. by apply list_elem_of_filter.
  - split; [|by intros []]. intros Hne. destruct Hne. apply list_filter_none.
    rewrite Forall_forall in Hl. intros d Hin. rewrite (Hl d Hin). done.
Qed.

Lemma upsert_built s m committed g id src parsed :
  col_rep s m committed g → buildable m parsed → id_ok id →
  ∃ s', apply_upsert id src parsed s = (Ok (bool_decide (committed !! id = None)), s')
    ∧ col_rep s' m committed (<[id := src]> g) ∧ on_disk s' = on_disk s
    ∧ c_uuid (col s') = c_uuid (col s).
Proof.
  intros Hrep Hval Hid. pose proof Hrep as [Hv Hm Hs Hr Hc Hd].
  destruct (system_fields_exist m Hv) as (idf & _ & Hf & _).
  apply (build_doc_iff m id src parsed Hv) in Hval. destruct (build_doc _ _ _ _ _) as [doc| |] eqn:Edoc; [|done..].
  pose proof (build_doc_shape m id src parsed doc Hv Edoc) as Hshape.
  unfold apply_upsert. mpure. unfold lift at 1. rewrite Hm, Hs, Edoc. mpure.
  pose proof (id_exists_rep _ _ _ _ id Hrep Hid) as Eid. rewrite Hs in Eid. rewrite Eid.
  mpure. unfold id_term. rewrite Hf. mpure. mpure. mpure. cbn.
  eexists. split_and!; [unfold mret, M_ret; do 2 f_equal| |done|done].
  - rewrite <-bool_decide_not. f_equal. apply bool_decide_ext. by rewrite eq_None_not_Some.
  - split; cbn; try done. unfold effective. cbn. rewrite <-app_assoc, foldl_app, Hs.
    unfold effective in Hd. rewrite Hs in Hd. by apply docs_rep_upsert.
Qed.

Lemma upsert_rep s m committed g id src parsed :
  col_rep s m committed g → validate_document m parsed = Ok tt → id_ok id →
  ∃ s', apply_upsert id src parsed s = (Ok (bool_decide (committed !! id = None)), s')
    ∧ col_rep s' m committed (<[id := src]> g) ∧ on_disk s' = on_disk s
    ∧ c_uuid (col s') = c_uuid (col s).
Proof.
  intros Hrep Hval. apply upsert_built; [done|]. by apply validated_buildable; [apply (cr_valid _ _ _ _ Hrep)|].
Qed.

(** A document that cannot be built changes nothing. *)
Lemma upsert_unbuilt s m committed g id src parsed :
  col_rep s m committed g → ¬ buildable m parsed →
  is_ok (apply_upsert id src parsed s).1 = false ∧ (apply_upsert id src parsed s).2 = s.
Proof.
  intros [Hv Hm Hs _ _ _] Hn. rewrite <-(build_doc_iff m id src parsed Hv) in Hn.
  unfold apply_upsert. mpure. unfold lift at 1. rewrite Hm, Hs. unfold mbind, M_bind.
  by destruct (build_doc (schema_of m) m id src parsed).
Qed.

Lemma delete_rep s m committed g id :
  col_rep s m committed g → id_ok id →
  ∃ s', apply_delete id s = (Ok (bool_decide (is_Some (committed !! id))), s')
    ∧ col_rep s' m committed (delete id g) ∧ on_disk s' = on_disk s
    ∧ c_uuid (col s') = c_uuid (col s).
Proof.
  intros Hrep Hid. pose proof Hrep as [Hv Hm Hs Hr Hc Hd].
  destruct (system_fields_exist m Hv) as (idf & _ & Hf & _).
  unfold apply_delete. mpure.
  rewrite (id_exists_rep _ _ _ _ id Hrep Hid). mpure. unfold id_term. rewrite Hs, Hf. mpure. mpure. cbn.
  eexists. split_and!; [done| |done|done].
  split; cbn; try done. unfold effective. cbn. rewrite foldl_app, Hs.
  unfold effective in Hd. rewrite Hs in Hd. by apply docs_rep_delete.
Qed.

Lemma commit_rep s m committed g mark :
  col_rep s m committed g →
  ∃ s', commit mark s = (Ok tt, s') ∧ col_rep s' m g g
    ∧ committed_mark_of (on_disk s') = Ok (Some mark) ∧ c_uuid (col s') = c_uuid (col s).
Proof.
  intros [Hv Hm Hs Hr Hc Hd]. eexists. split_and!; [done| |cbn|done].
  - assert (Hdocs : docs_rep m (index_docs (index_commit (on_disk s) (c_pending (col s))
                                  (mark_to_string mark))) g) by (by rewrite commit_docs).
    by split; cbn; rewrite ?commit_schema.
  - unfold committed_mark_of. rewrite commit_payload, mark_roundtrip. done.
Qed.

Lemma source_rep s m committed g id :
  col_rep s m committed g → id_ok id → source id s = (Ok (committed !! id), s).
Proof.
  intros Hrep Hid. pose proof Hrep as [Hv Hm Hs Hr Hc Hd].
  destruct (system_fields_exist m Hv) as (idf & srcf & Hf & Hsrc & _).
  destruct (docs_rep_lookup m _ _ id idf Hv Hc Hid Hf) as [Hl Hex].
  unfold source. mpure. unfold lift. f_equal. unfold source_by_id, system_fields.
  rewrite Hr, Hs, Hf. cbn. rewrite Hsrc. cbn.
  pose proof (top_doc_match (on_disk s) idf id) as Ht. rewrite Hs in Ht.
  destruct (top_doc (on_disk s) idf id) as [r|].
  - destruct Ht as (d & Hin & Hterm & ->). destruct (committed !! id) as [src|].
    + specialize (Hl d Hin Hterm). destruct Hl as (idf' & srcf' & rest & Hid' & Hsrc' & Hne & -> & _).
      assert (srcf' = srcf) as -> by congruence.
      unfold bytes_field, schema_of.
      rewrite (stored_doc_get_first (to_schema m) SOURCE_FIELD);
        [|apply Hv|right; by right; left|done].
      unfold get_first. by rewrite filter_cons_False, filter_cons_True.
    + rewrite Forall_forall in Hl. specialize (Hl d Hin). congruence.
  - destruct (committed !! id) as [src|]; [|done].
    destruct (Hex ltac:(eauto)) as (d & Hin & Hterm). rewrite Forall_forall in Ht.
    specialize (Ht d Hin). congruence.
Qed.
End CollectionSpec.
