(* ===== verification/Catalog.v ===== *)
(** * The catalog (crates/core/src/catalog.rs)

    The catalog of a node: the collections in memory, the write-ahead log, and the
    root directory with the catalog snapshot ([catalog.pb]), one directory per
    collection, the quarantine and the snapshot archive.  One definition per
    method, run to completion (the locks of the source serialise them).

    The names used in the root directory are disjoint (segment files,
    [catalog.pb], uuids, [_quarantine], [_snapshots]), so the parts of the
    directory are separate fields.  [Uuid::new_v4] results are arguments. *)

From S2P Require Import Prelude Bytes CoreError FileSys Proto External Mapping Document IndexApi Collection.
From S2P Require Import WalInterface.

Open Scope Z_scope.

Definition SNAPSHOT_FILE : string := "catalog.pb".
Definition SNAPSHOT_TMP : string := ".catalog.pb.tmp".
Definition MAX_NAME_LEN : nat := 255.

(** ** Names *)

Definition name_char_ok (c : ascii) : bool :=
  let n := nat_of_ascii c in
  ((97 <=? n)%nat && (n <=? 122)%nat) || ((48 <=? n)%nat && (n <=? 57)%nat)
  || bool_decide (c = "-"%char) || bool_decide (c = "_"%char).

Fixpoint all_chars (p : ascii → bool) (s : string) : bool :=
  match s with
  | EmptyString => true
  | String c s => p c && all_chars p s
  end.

Definition validate_name (name : string) : result Error unit :=
  if decide (name = "" ∨ (MAX_NAME_LEN < String.length name)%nat)
  then Err (Validation (Msg "collection name must be 1..={MAX_NAME_LEN} bytes" []))
  else if starts_with_underscore name
  then Err (Validation (Msg "collection name {name:?} uses the reserved '_' prefix" [name]))
  else if negb (all_chars name_char_ok name)
  then Err (Validation (Msg "collection name {name:?} must match [a-z0-9_-]" [name]))
  else Ok tt.

Definition command (op : v1.Op) : v1.Command := {| v1.op := Some op |}.
Definition wal_entry (seq : Z) (op : v1.Op) : v1.WalEntry :=
  {| v1.seq := seq; v1.command := Some (command op) |}.

Section Catalog.
Context `{Json} `{Rfc3339} `{TantivySchema} `{!TantivyIndex} `{!MarkJson} `{UuidApi}.
Context `{WriteAheadLog} `{!Codec v1.CatalogSnapshot}.

Record Entry := {
  e_uuid : Uuid;
  e_created_seq : Z;
  e_collection : Collection
}.

(** The contents of [_snapshots/current.tar]. *)
Record archive := {
  ar_catalog : list byte;
  ar_cols : gmap Uuid Index
}.

(** The root directory.  A collection directory holds an index once
    [Index::create_in_dir] has run, and is empty before. *)
Record Root := {
  files : dir;
  col_dirs : gmap Uuid (option Index);
  quarantined : gmap (Uuid * Z) (option Index);
  current_tar : option archive
}.

Record Catalog := {
  c_seq : Z;
  c_wal : wal;
  collections : gmap string Entry
}.

Record CatSt := { cat : Catalog; root : Root }.

(** What is on disk when no process runs. *)
Record Disk := { d_root : Root; d_wal : wdir }.
Definition disk_of (st : CatSt) : Disk := {| d_root := root st; d_wal := w_dir (c_wal (cat st)) |}.

Abbreviation MC := (M CatSt Error).

(** ** Accessors *)

Definition set_seq (z : Z) (c : Catalog) : Catalog :=
  {| c_seq := z; c_wal := c_wal c; collections := collections c |}.
Definition set_wal (w : wal) (c : Catalog) : Catalog :=
  {| c_seq := c_seq c; c_wal := w; collections := collections c |}.
Definition set_collections (m : gmap string Entry) (c : Catalog) : Catalog :=
  {| c_seq := c_seq c; c_wal := c_wal c; collections := m |}.
Definition set_files (d : dir) (r : Root) : Root :=
  {| files := d; col_dirs := col_dirs r; quarantined := quarantined r; current_tar := current_tar r |}.
Definition set_col_dirs (m : gmap Uuid (option Index)) (r : Root) : Root :=
  {| files := files r; col_dirs := m; quarantined := quarantined r; current_tar := current_tar r |}.
Definition set_quarantined (q : gmap (Uuid * Z) (option Index)) (r : Root) : Root :=
  {| files := files r; col_dirs := col_dirs r; quarantined := q; current_tar := current_tar r |}.
Definition set_current_tar (a : option archive) (r : Root) : Root :=
  {| files := files r; col_dirs := col_dirs r; quarantined := quarantined r; current_tar := a |}.

Definition on_cat (f : Catalog → Catalog) : MC unit :=
  modify (λ s, {| cat := f (cat s); root := root s |}).
Definition on_root (f : Root → Root) : MC unit :=
  modify (λ s, {| cat := cat s; root := f (root s) |}).
Definition on_files {A} (m : IO A) : MC A :=
  mapE Io (zoom (λ s, files (root s))
    (λ d s, {| cat := cat s; root := set_files d (root s) |}) m).
Definition on_wal {A} (m : M wal Error A) : MC A :=
  zoom (λ s, c_wal (cat s)) (λ w s, {| cat := set_wal w (cat s); root := root s |}) m.

(** A method of the collection [name] and of its index on disk. *)
Definition on_col {A} (name : string) (m : M ColSt Error A) : MC A :=
  s ← get;
  e ← lift (ok_or (CollectionNotFound name) (collections (cat s) !! name));
  index ← lift (ok_or (TantivyError "index directory missing")
                      (mjoin (col_dirs (root s) !! e_uuid e)));
  let '(r, s') := m {| col := e_collection e; on_disk := index |} in
  on_cat (set_collections (<[name := {| e_uuid := e_uuid e; e_created_seq := e_created_seq e;
                                        e_collection := col s' |}]> (collections (cat s))));;
  on_root (set_col_dirs (<[e_uuid e := Some (on_disk s')]> (col_dirs (root s))));;
  lift r.

Definition lookup_entry (name : string) : MC (option Entry) :=
  s ← get; mret (collections (cat s) !! name).

(** [Catalog::get]. *)
Definition catalog_get (name : string) : MC Entry :=
  o ← lookup_entry name;
  lift (ok_or (CollectionNotFound name) o).

(** [next_seq]: [fetch_add(1) + 1]. *)
Definition next_seq : MC Z :=
  s ← get;
  on_cat (set_seq (wrap64 (c_seq (cat s) + 1)));;
  mret (wrap64 (c_seq (cat s) + 1)).

(** ** Collection directories *)

(** [Collection::create]: the directory first, then the schema, which may panic, then the
    index in the directory. *)
Definition collection_create (uuid : Uuid) (mapping : Mapping) : MC Collection :=
  s ← get;
  (if decide (is_Some (col_dirs (root s) !! uuid)) then throw (Io AlreadyExists) else mret tt);;
  on_root (λ r, set_col_dirs (<[uuid := None]> (col_dirs r)) r);;
  schema ← lift (build_schema mapping);
  let index := create_in_dir schema in
  on_root (λ r, set_col_dirs (<[uuid := Some index]> (col_dirs r)) r);;
  mret (from_index uuid mapping index).

(** [Collection::open]. *)
Definition collection_open (dirs : gmap Uuid (option Index)) (uuid : Uuid) (mapping : Mapping) :
    result Error Collection :=
  match dirs !! uuid with
  | Some (Some index) => Ok (from_index uuid mapping index)
  | _ => Err (TantivyError "open_in_dir")
  end.

Definition install_collection (name : string) (uuid : Uuid) (mapping : Mapping) (created_seq : Z) :
    MC Collection :=
  s ← get;
  collection ←
    (if decide (is_Some (col_dirs (root s) !! uuid))
     then lift (collection_open (col_dirs (root s)) uuid mapping)
     else collection_create uuid mapping);
  on_cat (λ c, set_collections (<[name := {| e_uuid := uuid; e_created_seq := created_seq;
                                             e_collection := collection |}]> (collections c)) c);;
  mret collection.

Definition drop_dir (uuid : Uuid) : MC unit :=
  on_root (λ r, set_col_dirs (delete uuid (col_dirs r)) r).

(** [fs::rename] replaces an empty directory and refuses another one. *)
Definition quarantine (uuid : Uuid) (seq : Z) : MC unit :=
  s ← get;
  match col_dirs (root s) !! uuid with
  | None => throw (Io NotFound)
  | Some d =>
      if decide (is_Some (mjoin (quarantined (root s) !! (uuid, seq)))) then throw (Io DirectoryNotEmpty)
      else on_root (λ r, set_quarantined (<[(uuid, seq) := d]> (quarantined r))
                           (set_col_dirs (delete uuid (col_dirs r)) r))
  end.

(** The directories named by a uuid, in some order. *)
Definition collection_dirs : MC (list Uuid) :=
  s ← get; mret (map_to_list (col_dirs (root s))).*1.

Definition live_uuids (c : Catalog) : list Uuid := e_uuid <$> (map_to_list (collections c)).*2.

Definition sweep_orphans (high : Z) : MC unit :=
  s ← get;
  let live := live_uuids (cat s) in
  dirs ← collection_dirs;
  for_each dirs (λ uuid, if decide (uuid ∈ live) then mret tt else quarantine uuid high).

(** ** The catalog snapshot *)

Definition load_snapshot (d : dir) : result Error v1.CatalogSnapshot :=
  match (fs_read SNAPSHOT_FILE d).1 with
  | Ok bytes => ok_or (Recovery (Msg "corrupt catalog snapshot: {e}" [])) (decode bytes)
  | Err NotFound => Ok v1.CatalogSnapshot_default
  | Err e => Err (Io e)
  | Panic w => Panic w
  end.

Definition write_snapshot (snapshot : v1.CatalogSnapshot) : IO unit :=
  file_create SNAPSHOT_TMP;;
  write_all SNAPSHOT_TMP (encode_to_vec snapshot);;
  fsync SNAPSHOT_TMP;;
  rename SNAPSHOT_TMP SNAPSHOT_FILE.

(** [HashMap::iter]: some order. *)
Definition snapshot_proto (c : Catalog) (applied_seq : Z) : v1.CatalogSnapshot :=
  {| v1.applied_seq := applied_seq;
     v1.entries := (λ '(name, e),
       {| v1.entry_name := name; v1.entry_uuid := uuid_to_string (e_uuid e);
          v1.entry_mapping := Some (Mapping_to_proto (c_mapping (e_collection e)));
          v1.entry_created_seq := e_created_seq e |}) <$> map_to_list (collections c) |}.

Definition persist (applied_seq : Z) : MC unit :=
  s ← get; on_files (write_snapshot (snapshot_proto (cat s) applied_seq)).

(** ** Applying commands *)

Record ApplyOutcome := { outcome_id : string; outcome_created : bool }.
Definition ApplyOutcome_default : ApplyOutcome := {| outcome_id := ""; outcome_created := false |}.

Definition apply_create (mark : LogMark) (create : v1.CreateCollection) : MC unit :=
  proto_mapping ← lift (ok_or (Recovery (Msg "create command has no mapping" []))
                              (v1.create_mapping create));
  mapping ← lift (Mapping_try_from_proto proto_mapping);
  existing ← lookup_entry (v1.create_collection create);
  match existing with
  | Some _ => mret tt
  | None =>
      uuid ← lift (ok_or (Recovery (Msg "create command has invalid uuid {:?}" [v1.create_uuid create]))
                         (uuid_parse_str (v1.create_uuid create)));
      install_collection (v1.create_collection create) uuid mapping (mark_index mark);;
      persist (mark_index mark)
  end.

Definition apply_drop (mark : LogMark) (name : string) : MC unit :=
  existing ← lookup_entry name;
  on_cat (λ c, set_collections (delete name (collections c)) c);;
  match existing with
  | Some e => drop_dir (e_uuid e);; persist (mark_index mark)
  | None => mret tt
  end.

(** [committed_mark()?.unwrap_or_default().index]. *)
Definition committed_index (name : string) : MC Z :=
  m ← on_col name committed_mark;
  mret (mark_index (default LogMark_default m)).

Definition apply_index (mark : LogMark) (index : v1.IndexDocument) : MC ApplyOutcome :=
  target ← lookup_entry (v1.index_collection index);
  match target with
  | None => mret ApplyOutcome_default
  | Some _ =>
      k ← committed_index (v1.index_collection index);
      if decide (mark_index mark ≤ k)
      then mret {| outcome_id := v1.index_id index; outcome_created := false |}
      else
        parsed ← lift (ok_or (Recovery (Msg "index command has invalid json: {e}" []))
                             (from_slice (v1.index_source index)));
        created ← on_col (v1.index_collection index)
                    (apply_upsert (v1.index_id index) (v1.index_source index) parsed);
        mret {| outcome_id := v1.index_id index; outcome_created := created |}
  end.

Definition apply_delete_doc (mark : LogMark) (delete : v1.DeleteDocument) : MC ApplyOutcome :=
  target ← lookup_entry (v1.delete_collection delete);
  match target with
  | None => mret ApplyOutcome_default
  | Some _ =>
      k ← committed_index (v1.delete_collection delete);
      if decide (mark_index mark ≤ k) then mret ApplyOutcome_default
      else
        on_col (v1.delete_collection delete) (apply_delete (v1.delete_id delete));;
        mret {| outcome_id := v1.delete_id delete; outcome_created := false |}
  end.

Definition apply_command (mark : LogMark) (command : v1.Command) : MC ApplyOutcome :=
  match v1.op command with
  | Some (v1.OpCreateCollection create) => apply_create mark create;; mret ApplyOutcome_default
  | Some (v1.OpDropCollection drop) =>
      apply_drop mark (v1.drop_collection_name drop);; mret ApplyOutcome_default
  | Some (v1.OpIndexDocument index) => apply_index mark index
  | Some (v1.OpDeleteDocument delete) => apply_delete_doc mark delete
  | None => mret ApplyOutcome_default
  end.

(** ** Checkpoints *)

Definition commit_all (mark : LogMark) : MC unit :=
  s ← get;
  for_each (map_to_list (collections (cat s))).*1 (λ name, on_col name (commit mark));;
  persist (mark_index mark).

Definition checkpoint_applied (mark : LogMark) : MC unit := commit_all mark.

Definition local_mark (index : Z) : LogMark :=
  {| mark_term := 0; mark_node := 0; mark_index := index |}.

Definition checkpoint : MC unit :=
  s ← get;
  let high_water := c_seq (cat s) in
  commit_all (local_mark high_water);;
  on_wal (w_trim high_water).

Definition commit_collection (name : string) (mark : LogMark) : MC unit :=
  catalog_get name;;
  k ← committed_index name;
  if decide (k < mark_index mark) then on_col name (commit mark) else mret tt.

(** The fold of [min_committed_mark] over the marks of the collections. *)
Definition min_mark (min : option LogMark) (mark : LogMark) : option LogMark :=
  match min with
  | Some current => if decide (mark_index current ≤ mark_index mark) then Some current else Some mark
  | None => Some mark
  end.

Definition min_committed_mark : MC (option LogMark) :=
  s ← get;
  (fix go (names : list string) (acc : option LogMark) : MC (option LogMark) :=
     match names with
     | [] => mret acc
     | name :: names =>
         m ← on_col name committed_mark;
         go names (min_mark acc (default LogMark_default m))
     end) (map_to_list (collections (cat s))).*1 None.

(** ** Opening *)

(** The names dropped in the WAL tail. *)
Definition dropped_in_tail (applied_seq : Z) (entries : list v1.WalEntry) : list string :=
  omap (λ e,
    c ← v1.command e; o ← v1.op c;
    match o with
    | v1.OpDropCollection d => Some (v1.drop_collection_name d)
    | _ => None
    end) (filter (λ e, applied_seq < v1.seq e) entries).

(** The loop over the snapshot entries. *)
Fixpoint open_entries (dirs : gmap Uuid (option Index)) (dropped : list string)
    (entries : list v1.CatalogEntry) (cols : gmap string Entry) (max_seq : Z) :
    result Error (gmap string Entry * Z) :=
  match entries with
  | [] => Ok (cols, max_seq)
  | entry :: entries =>
      if decide (v1.entry_name entry ∈ dropped)
      then open_entries dirs dropped entries cols max_seq
      else
        uuid ← ok_or (Recovery (Msg "invalid uuid {:?} in snapshot" [v1.entry_uuid entry]))
                     (uuid_parse_str (v1.entry_uuid entry));
        proto_mapping ← ok_or (Recovery (Msg "catalog entry {uuid} has no mapping" [uuid_to_string uuid]))
                              (v1.entry_mapping entry);
        mapping ← Mapping_try_from_proto proto_mapping;
        if decide (dirs !! uuid = None)
        then Err (Recovery (Msg "catalog entry {uuid} has no data dir" [uuid_to_string uuid]))
        else
          c ← collection_open dirs uuid mapping;
          open_entries dirs dropped entries
            (<[v1.entry_name entry := {| e_uuid := uuid; e_created_seq := v1.entry_created_seq entry;
                                         e_collection := c |}]> cols)
            (max_seq `max` v1.entry_created_seq entry)
  end.

(** The replay loop; the result says whether a command was replayed. *)
Fixpoint replay (applied_seq : Z) (entries : list v1.WalEntry) (replayed : bool) : MC bool :=
  match entries with
  | [] => mret replayed
  | entry :: entries =>
      if decide (v1.seq entry ≤ applied_seq) then replay applied_seq entries replayed
      else match v1.command entry with
           | Some command =>
               apply_command (local_mark (v1.seq entry)) command;;
               replay applied_seq entries true
           | None => replay applied_seq entries replayed
           end
  end.

(** The part of [open] that runs on the constructed catalog. *)
Definition open_tail (applied_seq : Z) (entries : list v1.WalEntry) : MC unit :=
  replayed ← replay applied_seq entries false;
  s ← get;
  sweep_orphans (c_seq (cat s));;
  (if (replayed : bool) then checkpoint else mret tt).

(** The part of [open] before: load the snapshot, open the log and the collections
    that are not dropped in its tail. *)
Definition load_catalog (d : Disk) : result Error (CatSt * Z * list v1.WalEntry) * Disk :=
  match load_snapshot (files (d_root d)) with
  | Ok snapshot =>
      let applied_seq := v1.applied_seq snapshot in
      match w_open (d_wal d) with
      | (Ok (w, entries), wd) =>
          let d := {| d_root := d_root d; d_wal := wd |} in
          let max_seq := foldl (λ m e, m `max` v1.seq e) applied_seq entries in
          match open_entries (col_dirs (d_root d)) (dropped_in_tail applied_seq entries)
                  (v1.entries snapshot) ∅ max_seq with
          | Ok (cols, max_seq) =>
              (Ok ({| cat := {| c_seq := max_seq; c_wal := w; collections := cols |};
                      root := d_root d |}, applied_seq, entries), d)
          | Err e => (Err e, d)
          | Panic w => (Panic w, d)
          end
      | (Err e, wd) => (Err e, {| d_root := d_root d; d_wal := wd |})
      | (Panic m, wd) => (Panic m, {| d_root := d_root d; d_wal := wd |})
      end
  | Err e => (Err e, d)
  | Panic w => (Panic w, d)
  end.

Definition catalog_open (d : Disk) : result Error CatSt * Disk :=
  match load_catalog d with
  | (Ok (st, applied_seq, entries), _) =>
      let '(r, st) := open_tail applied_seq entries st in
      (r;; Ok st, disk_of st)
  | (Err e, d) => (Err e, d)
  | (Panic w, d) => (Panic w, d)
  end.

(** ** Client operations of a single node *)

Record Created := { created_collection : Collection; created_new : bool }.
Record Upserted := { upserted_id : string; upserted_created : bool }.

(** [or_new_id(id)], the fresh id an argument. *)
Definition or_new_id (fresh : Uuid) (id : option string) : string :=
  default (uuid_to_string fresh) id.

(** The check shared by [create] and [build_create_command]. *)
Definition check_create (name : string) (mapping : Mapping) : MC (option Entry) :=
  existing ← lookup_entry name;
  match existing with
  | Some e =>
      if decide (c_mapping (e_collection e) = mapping) then mret (Some e)
      else throw (SchemaConflict name)
  | None => mret None
  end.

Definition create_op (name : string) (uuid : Uuid) (mapping : Mapping) : v1.Op :=
  v1.OpCreateCollection {| v1.create_collection := name;
    v1.create_mapping := Some (Mapping_to_proto mapping);
    v1.create_uuid := uuid_to_string uuid |}.
Definition drop_op (name : string) : v1.Op :=
  v1.OpDropCollection {| v1.drop_collection_name := name |}.
Definition index_op (collection id : string) (source : list byte) : v1.Op :=
  v1.OpIndexDocument {| v1.index_collection := collection; v1.index_id := id;
                        v1.index_source := source |}.
Definition delete_op (collection id : string) : v1.Op :=
  v1.OpDeleteDocument {| v1.delete_collection := collection; v1.delete_id := id |}.

(** [create]; [fresh] is the result of [Uuid::new_v4]. *)
Definition create (fresh : Uuid) (name : string) (mapping : Mapping) : MC Created :=
  lift (validate_name name);;
  existing ← check_create name mapping;
  match existing with
  | Some e => mret {| created_collection := e_collection e; created_new := false |}
  | None =>
      seq ← next_seq;
      on_wal (w_append (wal_entry seq (create_op name fresh mapping)));;
      c ← install_collection name fresh mapping seq;
      mret {| created_collection := c; created_new := true |}
  end.

Definition drop_collection (name : string) : MC unit :=
  e ← catalog_get name;
  seq ← next_seq;
  on_wal (w_append (wal_entry seq (drop_op name)));;
  on_cat (λ c, set_collections (delete name (collections c)) c);;
  drop_dir (e_uuid e).

(** The checks shared by [upsert_document] and [build_index_command]: the
    collection exists, the source is JSON and passes the mapping. *)
Definition check_document (collection : string) (source : list byte) : MC Value :=
  target ← catalog_get collection;
  parsed ← lift (ok_or (Validation (Msg "invalid JSON: {e}" [])) (from_slice source));
  lift (validate_document (c_mapping (e_collection target)) parsed);;
  mret parsed.

(** The second half of [upsert_document], under the WAL lock. *)
Definition finish_upsert (collection id : string) (source : list byte) (parsed : Value) :
    MC Upserted :=
  seq ← next_seq;
  on_wal (w_append (wal_entry seq (index_op collection id source)));;
  created ← on_col collection (apply_upsert id source parsed);
  mret {| upserted_id := id; upserted_created := created |}.

Definition upsert_document (fresh : Uuid) (collection : string) (id : option string)
    (source : list byte) : MC Upserted :=
  parsed ← check_document collection source;
  finish_upsert collection (or_new_id fresh id) source parsed.

Definition get_document (collection id : string) : MC (list byte) :=
  catalog_get collection;;
  o ← on_col collection (source id);
  lift (ok_or (DocumentNotFound id) o).

Definition delete_document (collection id : string) : MC bool :=
  catalog_get collection;;
  seq ← next_seq;
  on_wal (w_append (wal_entry seq (delete_op collection id)));;
  on_col collection (apply_delete id).

Definition describe (name : string) : MC Mapping :=
  e ← catalog_get name; mret (c_mapping (e_collection e)).

Definition list_names : MC (list string) :=
  s ← get; mret (merge_sort String.le (map_to_list (collections (cat s))).*1).

(** ** Command builders of the replicated path *)

Definition build_create_command (fresh : Uuid) (name : string) (mapping : Mapping) :
    MC (option v1.Command) :=
  lift (validate_name name);;
  existing ← check_create name mapping;
  match existing with
  | Some _ => mret None
  | None => mret (Some (command (create_op name fresh mapping)))
  end.

Definition build_index_command (fresh : Uuid) (collection : string) (id : option string)
    (source : list byte) : MC v1.Command :=
  check_document collection source;;
  mret (command (index_op collection (or_new_id fresh id) source)).

Definition build_delete_command (collection id : string) : MC v1.Command :=
  catalog_get collection;; mret (command (delete_op collection id)).

Definition build_drop_command (name : string) : MC v1.Command :=
  catalog_get name;; mret (command (drop_op name)).
End Catalog.
