(* ===== verification/CatalogSpec.v ===== *)
(** * The catalog: abstract database

    A database maps collection names to a uuid, a mapping and documents.  The
    write-ahead log is a list of numbered commands; a node's state is a base
    database (what the last snapshot covers) and the tail of commands logged since.
    This file defines the database, the commands and the relations between them
    and the state of the node. *)

From S2P Require Import Prelude Bytes CoreError FileSys Proto External Mapping Document IndexApi Collection.
From S2P Require Import CollectionSpec WalInterface Catalog.

Open Scope Z_scope.

Section CatalogSpec.
Context `{Json} `{Rfc3339} `{TantivySchema} `{!TantivyIndex} `{!MarkJson} `{UuidApi}.
Context `{WriteAheadLog} `{!Codec v1.CatalogSnapshot}.

(** ** Databases and commands *)

Record coll := { a_uuid : Uuid; a_mapping : Mapping; a_docs : docs_map }.
Abbreviation db := (gmap string coll).

Inductive cmd :=
| CCreate (name : string) (uuid : Uuid) (mapping : Mapping)
| CDrop (name : string)
| CIndex (name id : string) (source : list byte)
| CDelete (name id : string).

Definition op_of (c : cmd) : v1.Op :=
  match c with
  | CCreate n u m => create_op n u m
  | CDrop n => drop_op n
  | CIndex n id src => index_op n id src
  | CDelete n id => delete_op n id
  end.

Definition set_docs (f : docs_map → docs_map) (c : coll) : coll :=
  {| a_uuid := a_uuid c; a_mapping := a_mapping c; a_docs := f (a_docs c) |}.

Definition step (d : db) (c : cmd) : db :=
  match c with
  | CCreate n u m => <[n := {| a_uuid := u; a_mapping := m; a_docs := ∅ |}]> d
  | CDrop n => delete n d
  | CIndex n id src => alter (set_docs <[id := src]>) n d
  | CDelete n id => alter (set_docs (delete id)) n d
  end.

Definition run (d : db) (cs : list cmd) : db := foldl step d cs.

(** A command that its client operation logs in database [d]. *)
Definition cmd_ok (d : db) (c : cmd) : Prop :=
  match c with
  | CCreate n u m => d !! n = None ∧ mapping_ok m
  | CDrop n => is_Some (d !! n)
  | CIndex n id src => ∃ cl v, d !! n = Some cl ∧ from_slice src = Some v
      ∧ validate_document (a_mapping cl) v = Ok tt ∧ id_ok id
  | CDelete n id => is_Some (d !! n) ∧ id_ok id
  end.

Fixpoint cmds_ok (d : db) (cs : list cmd) : Prop :=
  match cs with
  | [] => True
  | c :: cs => cmd_ok d c ∧ cmds_ok (step d c) cs
  end.

Definition creates (cs : list cmd) : list Uuid :=
  omap (λ c, if c is CCreate _ u _ then Some u else None) cs.
Definition drops (cs : list cmd) : list string :=
  omap (λ c, if c is CDrop n then Some n else None) cs.

Definition live (d : db) (u : Uuid) : Prop := ∃ n c, d !! n = Some c ∧ a_uuid c = u.

(** Uuids are never used twice. *)
Definition uuids_ok (d : db) (cs : list cmd) : Prop :=
  (∀ n1 n2 c1 c2, d !! n1 = Some c1 → d !! n2 = Some c2 → a_uuid c1 = a_uuid c2 → n1 = n2)
  ∧ NoDup (creates cs) ∧ (∀ u, u ∈ creates cs → ¬ live d u).

Lemma cmds_ok_app d cs1 cs2 : cmds_ok d (cs1 ++ cs2) ↔ cmds_ok d cs1 ∧ cmds_ok (run d cs1) cs2.
Proof.
  revert d. induction cs1 as [|c cs1 IH]; intros d; cbn; [tauto|]. rewrite IH. cbn. tauto.
Qed.

Lemma run_app d cs1 cs2 : run d (cs1 ++ cs2) = run (run d cs1) cs2.
Proof. apply foldl_app. Qed.

(** A step changes the documents of one collection, or adds or removes one. *)
Lemma step_lookup_ne d c n :
  (match c with CCreate n' _ _ | CDrop n' | CIndex n' _ _ | CDelete n' _ => n' end) ≠ n →
  step d c !! n = d !! n.
Proof. destruct c; cbn; intros; by rewrite ?lookup_insert_ne, ?lookup_delete_ne, ?lookup_alter_ne. Qed.

Lemma live_step d c u :
  live (step d c) u → live d u ∨ u ∈ creates [c].
Proof.
  intros (n & cl & Hl & <-). unfold live. destruct c as [n' u m|n'|n' id src|n' id]; cbn in *.
  - apply lookup_insert_Some in Hl as [[-> <-]|[_ Hl]]; [right; cbn; set_solver|left; eauto].
  - apply lookup_delete_Some in Hl as [_ Hl]. left. eauto.
  - destruct (decide (n' = n)) as [->|Hne].
    + rewrite lookup_alter_eq in Hl. apply fmap_Some in Hl as (c0 & Hc0 & ->). left. eauto.
    + rewrite lookup_alter_ne in Hl by done. left. eauto.
  - destruct (decide (n' = n)) as [->|Hne].
    + rewrite lookup_alter_eq in Hl. apply fmap_Some in Hl as (c0 & Hc0 & ->). left. eauto.
    + rewrite lookup_alter_ne in Hl by done. left. eauto.
Qed.

(** The entry of a name after a document command has the old uuid and mapping. *)
Lemma alter_uuid (f : coll → coll) (d : db) n' n c :
  (∀ c, a_uuid (f c) = a_uuid c) → alter f n' d !! n = Some c →
  ∃ c0, d !! n = Some c0 ∧ a_uuid c0 = a_uuid c.
Proof.
  intros Hf Hl. destruct (decide (n' = n)) as [->|Hne].
  - rewrite lookup_alter_eq in Hl. apply fmap_Some in Hl as (c0 & Hc0 & ->). eauto.
  - rewrite lookup_alter_ne in Hl by done. eauto.
Qed.

Lemma uuids_ok_step d c cs : uuids_ok d (c :: cs) → uuids_ok (step d c) cs.
Proof.
  intros (Hinj & Hnd & Hfresh).
  assert (Hnd' : NoDup (creates cs) ∧ ∀ u, u ∈ creates cs → u ∉ creates [c]).
  { unfold creates in *. destruct c; cbn in *; [apply NoDup_cons in Hnd as [Hn Hnd]|..];
      (split; [done|set_solver]). }
  destruct Hnd' as [Hnd' Hdisj]. split_and!; [|done|].
  - intros n1 n2 c1 c2 H1' H2' E. destruct c as [n' u m|n'|n' id src|n' id]; cbn in *.
    + assert (Hu : ¬ live d u) by (apply Hfresh; left).
      apply lookup_insert_Some in H1' as [[-> <-]|[Hn1 H1']];
        apply lookup_insert_Some in H2' as [[-> <-]|[Hn2 H2']]; cbn in *; [done|..].
      * destruct Hu. exists n2, c2. auto.
      * destruct Hu. exists n1, c1. auto.
      * by eapply Hinj.
    + apply lookup_delete_Some in H1' as [_ ?], H2' as [_ ?]. by eapply Hinj.
    + apply alter_uuid in H1' as (d1 & ? & E1), H2' as (d2 & ? & E2); [|done..].
      eapply Hinj; [done..|congruence].
    + apply alter_uuid in H1' as (d1 & ? & E1), H2' as (d2 & ? & E2); [|done..].
      eapply Hinj; [done..|congruence].
  - intros u Hu [Hl|Hc]%live_step; [|by eapply Hdisj].
    apply (Hfresh u); [|done]. unfold creates in *. destruct c; cbn; set_solver.
Qed.

Lemma uuids_ok_run d cs1 cs2 : uuids_ok d (cs1 ++ cs2) → uuids_ok (run d cs1) cs2.
Proof.
  revert d. induction cs1 as [|c cs1 IH]; intros d Hok; [done|]. by apply IH, uuids_ok_step.
Qed.

(** Only a drop removes a name. *)
Lemma run_not_dropped d cs n : is_Some (d !! n) → n ∉ drops cs → is_Some (run d cs !! n).
Proof.
  revert d. induction cs as [|c cs IH]; intros d [cl Hl] Hn; cbn; [by eauto|].
  apply IH; [|unfold drops in *; destruct c; cbn in *; set_solver].
  destruct c as [n' u m|n'|n' id src|n' id]; cbn.
  - destruct (decide (n' = n)) as [->|]; [rewrite lookup_insert_eq|rewrite lookup_insert_ne by done]; eauto.
  - rewrite lookup_delete_ne; [by eauto|]. intros ->. unfold drops in Hn. cbn in Hn. set_solver.
  - destruct (decide (n' = n)) as [->|]; [rewrite lookup_alter_eq, Hl|rewrite lookup_alter_ne by done]; eauto.
  - destruct (decide (n' = n)) as [->|]; [rewrite lookup_alter_eq, Hl|rewrite lookup_alter_ne by done]; eauto.
Qed.

Lemma drops_app cs1 cs2 : drops (cs1 ++ cs2) = drops cs1 ++ drops cs2.
Proof. apply omap_app. Qed.
Lemma creates_app cs1 cs2 : creates (cs1 ++ cs2) = creates cs1 ++ creates cs2.
Proof. apply omap_app. Qed.
End CatalogSpec.
