(* ===== verification/CatalogRel.v ===== *)
(** * The catalog: relation between a node and its database

    [disk_inv] says when the files of a stopped node stand for an abstract state,
    [cat_rel] says it of a running node, [replay_inv] of a node in the middle of
    the replay in [Catalog::open]. *)

From S2P Require Import Prelude Bytes CoreError FileSys Proto External Mapping Document IndexApi Collection.
From S2P Require Import CollectionSpec WalInterface Catalog CatalogSpec.

Open Scope Z_scope.

Section CatalogRel.
Context `{Json} `{Rfc3339} `{TantivySchema} `{!TantivyIndex} `{!MarkJson} `{UuidApi}.
Context `{WriteAheadLog} `{!Codec v1.CatalogSnapshot}.

(** The database at the last snapshot, the sequence number it covers, the
    commands logged since, and the last sequence number used. *)
Record astate := {
  base : gmap string coll;
  applied : Z;
  tail : list (Z * cmd);
  last : Z
}.

Definition now (a : astate) : gmap string coll := run (base a) (tail a).*2.

Definition entries_of (t : list (Z * cmd)) : list v1.WalEntry :=
  (λ sc, wal_entry sc.1 (op_of sc.2)) <$> t.

Record astate_ok (a : astate) : Prop := {
  ao_cmds : cmds_ok (base a) (tail a).*2;
  ao_uuids : uuids_ok (base a) (tail a).*2;
  ao_seqs : Forall (λ sc, applied a < sc.1 ≤ last a) (tail a);
  ao_applied : 0 ≤ applied a ≤ last a;
  ao_last : last a = applied a ∨ last a ∈ (tail a).*1;
  ao_base : ∀ n c, base a !! n = Some c → mapping_ok (a_mapping c)
}.

(** ** The snapshot file *)

Definition snap_entry (x : string * coll * Z) : v1.CatalogEntry :=
  {| v1.entry_name := x.1.1; v1.entry_uuid := uuid_to_string (a_uuid x.1.2);
     v1.entry_mapping := Some (Mapping_to_proto (a_mapping x.1.2));
     v1.entry_created_seq := x.2 |}.

Definition snap_rep (snap : v1.CatalogSnapshot) (a : astate) : Prop :=
  v1.applied_seq snap = applied a ∧
  ∃ l, v1.entries snap = snap_entry <$> l ∧ NoDup l.*1.*1
    ∧ (∀ n c, base a !! n = Some c ↔ (n, c) ∈ l.*1) ∧ Forall (λ x, x.2 ≤ last a) l.

(** [catalog.pb] is absent before the first snapshot, and complete and synced
    afterwards. *)
Definition snapshot_ok (d : dir) (a : astate) : Prop :=
  (d !! SNAPSHOT_FILE = None ∧ snap_rep v1.CatalogSnapshot_default a)
  ∨ ∃ f snap, d !! SNAPSHOT_FILE = Some f ∧ f_data f = encode_to_vec snap
      ∧ (length (f_data f) ≤ f_synced f)%nat ∧ snap_rep snap a.

Lemma load_snapshot_ok d a :
  snapshot_ok d a → ∃ snap, load_snapshot d = Ok snap ∧ snap_rep snap a.
Proof.
  intros [[Hn Hs]|(f & snap & Hf & Hd & _ & Hs)]; unfold load_snapshot.
  - exists v1.CatalogSnapshot_default. unfold fs_read, fs_lookup, mbind, M_bind. by rewrite Hn.
  - exists snap. rewrite (fs_read_ok _ _ _ Hf). cbn. by rewrite Hd, decode_encode.
Qed.

Lemma snapshot_ok_crash d d' a : crash d d' → snapshot_ok d a → snapshot_ok d' a.
Proof.
  intros Hc [[Hn Hs]|(f & snap & Hf & Hd & Hsy & Hs)].
  - left. split; [by eapply crash_lookup_None|done].
  - right. destruct (crash_lookup _ _ _ _ Hc Hf) as (f' & Hf' & Hcf).
    pose proof (crash_file_synced _ _ Hsy Hcf) as E. destruct Hcf as (_ & _ & _ & Hsy').
    exists f', snap. split_and!; [done|congruence|lia|done].
Qed.

(** ** Collection directories *)

(** The commit of collection [u] on disk: nothing newer than the snapshot, with
    the documents [docs0], or everything. *)
Definition commit_ok (a : astate) (n : string) (u : Uuid) (m : Mapping) (docs0 : docs_map)
    (k : Z) (docs : docs_map) : Prop :=
  k ≤ applied a ∧ docs = docs0
  ∨ k = last a ∧ ∃ c, now a !! n = Some c ∧ a_uuid c = u ∧ a_mapping c = m ∧ docs = a_docs c.

Definition mark_at (index : Index) (k : Z) : Prop :=
  ∃ mk, committed_mark_of index = Ok mk ∧ mark_index (default LogMark_default mk) = k.

Definition dir_ok (a : astate) (dirs : gmap Uuid (option Index)) (n : string) (u : Uuid)
    (m : Mapping) (docs0 : docs_map) : Prop :=
  ∃ index k docs, dirs !! u = Some (Some index) ∧ index_schema index = schema_of m
    ∧ mark_at index k ∧ docs_rep m (index_docs index) docs ∧ commit_ok a n u m docs0 k docs.

Definition quarantine_ok (r : Root) (cs : list cmd) : Prop :=
  ∀ u s, is_Some (quarantined r !! (u, s)) → col_dirs r !! u = None ∧ u ∉ creates cs.

(** ** A stopped node *)

Record disk_inv (d : Disk) (a : astate) : Prop := {
  di_ok : astate_ok a;
  di_snap : snapshot_ok (files (d_root d)) a;
  di_wal : ∃ w es, w_open (d_wal d) = (Ok (w, es), w_dir w) ∧ w_rel w es (-1) (last a)
    ∧ filter (λ e, applied a < v1.seq e) es = entries_of (tail a);
  di_base : ∀ n c, base a !! n = Some c → n ∉ drops (tail a).*2 →
    dir_ok a (col_dirs (d_root d)) n (a_uuid c) (a_mapping c) (a_docs c);
  di_creates : ∀ s n u m, (s, CCreate n u m) ∈ tail a →
    col_dirs (d_root d) !! u = None ∨ dir_ok a (col_dirs (d_root d)) n u m ∅;
  di_quar : quarantine_ok (d_root d) (tail a).*2
}.

(** ** A node in the middle of a replay *)

(** A collection of the snapshot that the rest of the log drops is not opened. *)
Definition skipped (a : astate) (p : list (Z * cmd)) (n : string) : Prop :=
  is_Some (base a !! n) ∧ n ∈ drops (tail a).*2 ∧ n ∉ drops p.*2.

(** The documents of collection [n] with uuid [u] at the snapshot. *)
Definition base_docs (a : astate) (n : string) (u : Uuid) : docs_map :=
  match base a !! n with
  | Some c => if decide (a_uuid c = u) then a_docs c else ∅
  | None => ∅
  end.

Definition entry_ok (a : astate) (dirs : gmap Uuid (option Index)) (n : string) (e : Entry)
    (c : coll) : Prop :=
  e_uuid e = a_uuid c ∧ e_created_seq e ≤ last a ∧
  ∃ index k committed docs, dirs !! a_uuid c = Some (Some index)
    ∧ col_rep {| col := e_collection e; on_disk := index |} (a_mapping c) committed docs
    ∧ mark_at index k ∧ commit_ok a n (a_uuid c) (a_mapping c) (a_docs c) k docs
    ∧ commit_ok a n (a_uuid c) (a_mapping c) (base_docs a n (a_uuid c)) k committed.

Record replay_inv (a : astate) (w : wal) (p q : list (Z * cmd)) (st : CatSt) : Prop := {
  ri_tail : tail a = p ++ q;
  ri_seq : c_seq (cat st) = last a;
  ri_wal : c_wal (cat st) = w;
  ri_some : ∀ n e, collections (cat st) !! n = Some e →
    ∃ c, run (base a) p.*2 !! n = Some c ∧ entry_ok a (col_dirs (root st)) n e c;
  ri_none : ∀ n, collections (cat st) !! n = None → run (base a) p.*2 !! n = None ∨ skipped a p n;
  ri_creates : ∀ s n u m, (s, CCreate n u m) ∈ q →
    col_dirs (root st) !! u = None ∨ dir_ok a (col_dirs (root st)) n u m ∅;
  ri_quar : quarantine_ok (root st) q.*2
}.

(** ** A running node *)

Definition running_ok (a : astate) (dirs : gmap Uuid (option Index)) (n : string) (e : Entry)
    (c : coll) : Prop :=
  e_uuid e = a_uuid c ∧ e_created_seq e ≤ last a ∧
  ∃ index k, dirs !! a_uuid c = Some (Some index)
    ∧ col_rep {| col := e_collection e; on_disk := index |} (a_mapping c)
        (base_docs a n (a_uuid c)) (a_docs c)
    ∧ mark_at index k ∧ k ≤ applied a.

Record cat_rel (st : CatSt) (a : astate) : Prop := {
  ca_ok : astate_ok a;
  ca_snap : snapshot_ok (files (root st)) a;
  ca_seq : c_seq (cat st) = last a;
  ca_wal : ∃ es fl, w_rel (c_wal (cat st)) es fl (last a) ∧ fl ≤ applied a
    ∧ filter (λ e, applied a < v1.seq e) es = entries_of (tail a);
  ca_some : ∀ n e, collections (cat st) !! n = Some e →
    ∃ c, now a !! n = Some c ∧ running_ok a (col_dirs (root st)) n e c;
  ca_none : ∀ n, collections (cat st) !! n = None → now a !! n = None;
  ca_dirs : ∀ u, is_Some (col_dirs (root st) !! u) → live (now a) u;
  ca_quar : quarantine_ok (root st) (tail a).*2
}.

(** ** Running one step of a method *)

(** The state after a method of collection [n] changed it to [s']. *)
Definition put_col (st : CatSt) (n : string) (e : Entry) (s' : ColSt) : CatSt :=
  {| cat := set_collections (<[n := {| e_uuid := e_uuid e; e_created_seq := e_created_seq e;
                                       e_collection := col s' |}]> (collections (cat st))) (cat st);
     root := set_col_dirs (<[e_uuid e := Some (on_disk s')]> (col_dirs (root st))) (root st) |}.

Lemma on_col_ok {A} st n e index (m : M ColSt Error A) r s' :
  collections (cat st) !! n = Some e → col_dirs (root st) !! e_uuid e = Some (Some index) →
  m {| col := e_collection e; on_disk := index |} = (r, s') →
  on_col n m st = (r, put_col st n e s').
Proof.
  intros He Hd Hm. unfold on_col. mpure. rewrite He. mpure. rewrite Hd. mpure. by rewrite Hm.
Qed.

(** A method that leaves the collection and its index as they are. *)
Lemma put_col_same st n e index :
  collections (cat st) !! n = Some e → col_dirs (root st) !! e_uuid e = Some (Some index) →
  put_col st n e {| col := e_collection e; on_disk := index |} = st.
Proof.
  intros He Hd. destruct st as [c r]. unfold put_col, set_collections, set_col_dirs. cbn in *. f_equal.
  - destruct c. cbn in *. f_equal. apply insert_id. rewrite He. by destruct e.
  - destruct r. cbn in *. f_equal. by apply insert_id.
Qed.

Lemma on_files_ok {A} st (m : IO A) r d' :
  m (files (root st)) = (Ok r, d') →
  on_files m st = (Ok r, {| cat := cat st; root := set_files d' (root st) |}).
Proof. intros E. unfold on_files, mapE, zoom. by rewrite E. Qed.

Lemma on_wal_ok {A} st (m : M wal Error A) r w' :
  m (c_wal (cat st)) = (Ok r, w') →
  on_wal m st = (Ok r, {| cat := set_wal w' (cat st); root := root st |}).
Proof. intros E. unfold on_wal, zoom. by rewrite E. Qed.

Lemma write_snapshot_ok snap d :
  ∃ d', write_snapshot snap d = (Ok tt, d')
    ∧ d' !! SNAPSHOT_FILE = Some (File (encode_to_vec snap) (length (encode_to_vec snap))).
Proof. apply replace_ok. Qed.

Lemma persist_ok st z :
  ∃ d', persist z st = (Ok tt, {| cat := cat st; root := set_files d' (root st) |})
    ∧ d' !! SNAPSHOT_FILE = Some (File (encode_to_vec (snapshot_proto (cat st) z))
                                       (length (encode_to_vec (snapshot_proto (cat st) z)))).
Proof.
  destruct (write_snapshot_ok (snapshot_proto (cat st) z) (files (root st))) as (d' & E & Hd).
  exists d'. split; [|done]. unfold persist. mpure. by apply on_files_ok.
Qed.
End CatalogRel.
