(* ===== verification/CatalogReplay.v ===== *)
(** * The catalog: replaying the log

    Every command of the WAL tail, applied by [apply_command] in the order of the
    log, keeps [replay_inv]: commands a collection has already committed are
    skipped, commands for collections that the tail drops are ignored. *)

From S2P Require Import Prelude Bytes CoreError FileSys Proto External Mapping Document IndexApi Collection.
From S2P Require Import CollectionSpec WalInterface Catalog CatalogSpec CatalogRel.

Open Scope Z_scope.

Section CatalogReplay.
Context `{Json} `{Rfc3339} `{TantivySchema} `{!TantivyIndex} `{!MarkJson} `{UuidApi}.
Context `{WriteAheadLog} `{!Codec v1.CatalogSnapshot}.

(** ** Frame properties *)

Lemma entry_ok_frame a dirs dirs' n e c :
  dirs' !! a_uuid c = dirs !! a_uuid c → entry_ok a dirs n e c → entry_ok a dirs' n e c.
Proof. intros E (? & ? & index & k & D & g & ? & ?). split_and!; try done. exists index, k, D, g. by rewrite E. Qed.

Lemma dir_ok_frame a dirs dirs' n u m docs0 :
  dirs' !! u = dirs !! u → dir_ok a dirs n u m docs0 → dir_ok a dirs' n u m docs0.
Proof. intros E (index & k & docs & ? & ?). exists index, k, docs. by rewrite E. Qed.

Lemma skipped_snoc a p s c n :
  (∀ n', c = CDrop n' → n' ≠ n) → skipped a p n → skipped a (p ++ [(s, c)]) n.
Proof.
  intros Hc (Hb & Hin & Hnin). split_and!; [done|done|]. rewrite fmap_app, drops_app.
  rewrite not_elem_of_app. split; [done|]. unfold drops. cbn. destruct c; cbn; set_solver.
Qed.

(** What the abstract state says of the next command. *)
Lemma replay_next a w p s c q st :
  astate_ok a → replay_inv a w p ((s, c) :: q) st →
  cmd_ok (run (base a) p.*2) c ∧ uuids_ok (run (base a) p.*2) (c :: q.*2) ∧ applied a < s ≤ last a.
Proof.
  intros [Hc Hu Hs _ _ _] Hi. rewrite (ri_tail _ _ _ _ _ Hi) in Hc, Hu, Hs.
  rewrite fmap_app in Hc, Hu. apply cmds_ok_app in Hc as [_ [Hc _]].
  apply uuids_ok_run in Hu. apply Forall_app in Hs as [_ [Hs _]%Forall_cons]. done.
Qed.

Lemma run_snoc (d : gmap string coll) p (s : Z) c : run d (p ++ [(s, c)]).*2 = step (run d p.*2) c.
Proof. by rewrite fmap_app, run_app. Qed.

Lemma replay_tail a w p x q st : replay_inv a w p (x :: q) st → tail a = (p ++ [x]) ++ q.
Proof. intros Hi. rewrite (ri_tail _ _ _ _ _ Hi). by rewrite <-app_assoc. Qed.

(** A present collection is not skipped and agrees with the database. *)
Lemma replay_lookup a w p q st n e :
  replay_inv a w p q st → collections (cat st) !! n = Some e →
  ∃ c index k D docs, run (base a) p.*2 !! n = Some c ∧ e_uuid e = a_uuid c
    ∧ e_created_seq e ≤ last a ∧ col_dirs (root st) !! e_uuid e = Some (Some index)
    ∧ col_rep {| col := e_collection e; on_disk := index |} (a_mapping c) D docs
    ∧ mark_at index k ∧ commit_ok a n (a_uuid c) (a_mapping c) (a_docs c) k docs
    ∧ commit_ok a n (a_uuid c) (a_mapping c) (base_docs a n (a_uuid c)) k D.
Proof.
  intros Hi He. destruct (ri_some _ _ _ _ _ Hi _ _ He) as (c & Hc & Eu & Hs & index & k & D & docs & Hd & ?).
  exists c, index, k, D, docs. rewrite Eu. naive_solver.
Qed.

(** ** Document commands *)

Lemma committed_index_ok st n e index k :
  collections (cat st) !! n = Some e → col_dirs (root st) !! e_uuid e = Some (Some index) →
  mark_at index k → committed_index n st = (Ok k, st).
Proof.
  intros He Hd (mk & Hm & <-). unfold committed_index.
  erewrite M_bind_Ok; [|eapply on_col_ok; [done..|unfold committed_mark; mpure; unfold lift; cbn; by rewrite Hm]].
  by rewrite put_col_same.
Qed.

(** The collection a document command is for, and what it does to its documents. *)
Definition doc_cmd (c : cmd) : option (string * (docs_map → docs_map)) :=
  match c with
  | CIndex n id src => Some (n, <[id := src]>)
  | CDelete n id => Some (n, delete id)
  | _ => None
  end.

Lemma doc_cmd_step c n f d : doc_cmd c = Some (n, f) → step d c = alter (set_docs f) n d.
Proof. destruct c; intros [=]; by subst. Qed.

Lemma doc_cmd_creates c n f q : doc_cmd c = Some (n, f) → creates (c :: q) = creates q.
Proof. by destruct c. Qed.

(** The collection was dropped later in the log: nothing happens. *)
Lemma replay_doc_skip a w p s c q st n f :
  doc_cmd c = Some (n, f) → replay_inv a w p ((s, c) :: q) st →
  collections (cat st) !! n = None → is_Some (run (base a) p.*2 !! n) →
  replay_inv a w (p ++ [(s, c)]) q st.
Proof.
  intros Hc Hi Hn Hsome.
  assert (Hskip : ∀ n', skipped a p n' → skipped a (p ++ [(s, c)]) n').
  { intros n' Hs. apply skipped_snoc; [|done]. intros ? ->. done. }
  pose proof (replay_tail _ _ _ _ _ _ Hi) as Ht. destruct Hi as [_ Hseq Hwal Hcols Hnone Hcr Hq]. split; try done.
  - intros n' e He. rewrite run_snoc, (doc_cmd_step _ _ _ _ Hc), lookup_alter_ne by congruence. auto.
  - intros n' Hn'. rewrite run_snoc, (doc_cmd_step _ _ _ _ Hc).
    destruct (decide (n = n')) as [<-|Hne].
    + right. apply Hskip. destruct (Hnone n Hn) as [E|?]; [|done]. rewrite E in Hsome. by destruct Hsome.
    + rewrite lookup_alter_ne by done. destruct (Hnone n' Hn'); auto.
  - intros s' n' u m Hin. apply (Hcr s'). by right.
  - intros u s' Hu0. destruct (Hq u s' Hu0) as [? Hu]. split; [done|].
    cbn [fmap list_fmap snd] in Hu. by erewrite doc_cmd_creates in Hu.
Qed.

(** The collection is present: its entry is replaced by one with the documents
    the command leaves. *)
Lemma replay_doc_put a w p s c q st n f e cl e' :
  doc_cmd c = Some (n, f) → replay_inv a w p ((s, c) :: q) st →
  collections (cat st) !! n = Some e → run (base a) p.*2 !! n = Some cl →
  entry_ok a (col_dirs (root st)) n e' (set_docs f cl) →
  replay_inv a w (p ++ [(s, c)]) q
    {| cat := set_collections (<[n := e']> (collections (cat st))) (cat st); root := root st |}.
Proof.
  intros Hc Hi He Hcl He'.
  assert (Hskip : ∀ n', skipped a p n' → skipped a (p ++ [(s, c)]) n').
  { intros n' Hs. apply skipped_snoc; [|done]. intros ? ->. done. }
  pose proof (replay_tail _ _ _ _ _ _ Hi) as Ht. destruct Hi as [_ Hseq Hwal Hcols Hnone Hcr Hq]. split; cbn; try done.
  - intros n' e1. rewrite run_snoc, (doc_cmd_step _ _ _ _ Hc).
    intros [[<- <-]|[Hne He1]]%lookup_insert_Some.
    + rewrite lookup_alter_eq, Hcl. cbn. eauto.
    + rewrite lookup_alter_ne by done. auto.
  - intros n' [Hne Hn']%lookup_insert_None.
    rewrite run_snoc, (doc_cmd_step _ _ _ _ Hc), lookup_alter_ne by done.
    destruct (Hnone n' Hne); auto.
  - intros s' n' u m Hin. apply (Hcr s'). by right.
  - intros u s' Hu0. destruct (Hq u s' Hu0) as [? Hu]. split; [done|].
    cbn [fmap list_fmap snd] in Hu. by erewrite doc_cmd_creates in Hu.
Qed.

(** Running the document operation on a present collection, unless its commit
    already covers the command. *)
Lemma replay_doc a w p s c q st n f e {A} (m : M ColSt Error A) :
  astate_ok a → doc_cmd c = Some (n, f) → replay_inv a w p ((s, c) :: q) st →
  collections (cat st) !! n = Some e →
  (∀ cl cs D g, run (base a) p.*2 !! n = Some cl → col_rep cs (a_mapping cl) D g →
     ∃ r cs', m cs = (Ok r, cs') ∧ col_rep cs' (a_mapping cl) D (f g) ∧ on_disk cs' = on_disk cs) →
  ∃ k, committed_index n st = (Ok k, st) ∧
    (s ≤ k → replay_inv a w (p ++ [(s, c)]) q st) ∧
    (k < s → ∃ r st', on_col n m st = (Ok r, st') ∧ replay_inv a w (p ++ [(s, c)]) q st').
Proof.
  intros Hok Hc Hi He Hm.
  destruct (replay_next _ _ _ _ _ _ _ Hok Hi) as (_ & _ & Hs).
  destruct (replay_lookup _ _ _ _ _ _ _ Hi He)
    as (cl & index & k & D & docs & Hcl & Eu & Hz & Hd & Hrep & Hk & Hco & HD).
  exists k. split; [by eapply committed_index_ok|]. split; intros Hsk.
  - assert (E : st = {| cat := set_collections (<[n := e]> (collections (cat st))) (cat st); root := root st |}).
    { destruct st as [[] ?]. cbn in *. unfold set_collections. cbn. by rewrite insert_id. }
    rewrite E. eapply replay_doc_put; [done..|].
    split; [done|]. split; [done|]. exists index, k, D, docs. cbn. rewrite Eu in Hd. do 3 (split; [done|]).
    split; [|done]. right. destruct Hco as [[? _]|?]; [lia|done].
  - destruct (Hm cl _ _ _ Hcl Hrep) as (r & cs' & Em & Hrep' & Ed). cbn in Ed.
    exists r. eexists. split; [by eapply on_col_ok|].
    assert (E : put_col st n e cs' = {| cat := set_collections (<[n := {| e_uuid := e_uuid e;
        e_created_seq := e_created_seq e; e_collection := col cs' |}]> (collections (cat st))) (cat st);
        root := root st |}).
    { unfold put_col. f_equal. rewrite Ed. destruct (root st). unfold set_col_dirs. cbn in *. f_equal.
      by apply insert_id. }
    rewrite E. eapply replay_doc_put; [done..|].
    split; [done|]. split; [done|]. exists index, k, D, (f docs). cbn. rewrite Eu in Hd.
    destruct cs' as [c' i']. cbn in Ed. subst i'. do 3 (split; [done|]).
    split; [|done]. left. destruct Hco as [[? ->]|[? _]]; [done|lia].
Qed.

(** ** Creating and dropping collections *)

Lemma mark_at_create s : mark_at (create_in_dir s) 0.
Proof. exists None. unfold committed_mark_of. by rewrite create_payload. Qed.

(** A new collection. *)
Definition new_entry (u : Uuid) (m : Mapping) (z : Z) : Entry :=
  {| e_uuid := u; e_created_seq := z; e_collection := from_index u m (create_in_dir (schema_of m)) |}.

Lemma install_new st n u m z :
  mapping_ok m → col_dirs (root st) !! u = None →
  install_collection n u m z st
  = (Ok (from_index u m (create_in_dir (schema_of m))),
     {| cat := set_collections (<[n := new_entry u m z]> (collections (cat st))) (cat st);
        root := set_col_dirs (<[u := Some (create_in_dir (schema_of m))]>
                  (<[u := None]> (col_dirs (root st)))) (root st) |}).
Proof.
  intros Hm Hd. assert (Hno : ¬ is_Some (col_dirs (root st) !! u)) by (rewrite Hd; by intros []).
  unfold install_collection. mpure. rewrite decide_False by done. unfold collection_create.
  erewrite M_bind_Ok; [|mpure; rewrite decide_False by done; do 2 mpure; rewrite (build_schema_ok m Hm);
    do 2 mpure; reflexivity]. done.
Qed.

(** [install_collection] on an absent directory or on one that [dir_ok] holds of. *)
Lemma install_ok a st n u m s :
  mapping_ok m → 0 ≤ applied a → s ≤ last a → base_docs a n u = ∅ →
  col_dirs (root st) !! u = None ∨ dir_ok a (col_dirs (root st)) n u m ∅ →
  ∃ c e dirs, install_collection n u m s st =
      (Ok c, {| cat := set_collections (<[n := e]> (collections (cat st))) (cat st);
                root := set_col_dirs dirs (root st) |})
    ∧ (∀ u', u' ≠ u → dirs !! u' = col_dirs (root st) !! u')
    ∧ entry_ok a dirs n e {| a_uuid := u; a_mapping := m; a_docs := ∅ |}.
Proof.
  intros Hv Ha Hs Hb [Hn|(index & k & docs & Hd & Hsch & Hk & Hr & Hco)].
  - rewrite install_new by done. do 3 eexists. split; [reflexivity|]. split.
    + intros u' Hne. cbn. by rewrite !lookup_insert_ne.
    + split_and!; [done|done|]. exists (create_in_dir (schema_of m)), 0, ∅, ∅. cbn.
      rewrite lookup_insert_eq. rewrite Hb.
      split; [done|]. split; [by apply col_rep_create|]. split; [apply mark_at_create|]. split; by left.
  - unfold install_collection. mpure. rewrite decide_True by (rewrite Hd; by eauto). unfold collection_open. rewrite Hd. mpure.
    exists (from_index u m index), {| e_uuid := u; e_created_seq := s; e_collection := from_index u m index |},
      (col_dirs (root st)). split; [by destruct st as [? []]|]. split; [done|].
    split_and!; [done|done|]. exists index, k, docs, docs. cbn. rewrite Hb.
      split; [done|]. split; [by apply col_rep_open|done].
Qed.

(** A collection created in the tail was not in the snapshot. *)
Lemma base_docs_created a p s n u m q :
  astate_ok a → tail a = (p ++ [(s, CCreate n u m)]) ++ q → base_docs a n u = ∅.
Proof.
  intros Hok Ht. unfold base_docs. destruct (base a !! n) as [c|] eqn:Hc; [|done].
  case_decide as Hu; [|done]. destruct (ao_uuids _ Hok) as (_ & _ & Hfresh). exfalso.
  apply (Hfresh u); [|by exists n, c]. rewrite Ht, !fmap_app, !creates_app. cbn. set_solver.
Qed.

Lemma replay_create a w p s n u m q st :
  astate_ok a → replay_inv a w p ((s, CCreate n u m) :: q) st →
  ∃ o st', apply_command (local_mark s) (command (create_op n u m)) st = (Ok o, st')
    ∧ replay_inv a w (p ++ [(s, CCreate n u m)]) q st'.
Proof.
  intros Hok Hi. destruct (replay_next _ _ _ _ _ _ _ Hok Hi) as ([Hfree Hv] & Huu & Hs).
  pose proof (replay_tail _ _ _ _ _ _ Hi) as Ht.
  destruct Hi as [_ Hseq Hwal Hcols Hnone Hcr Hq].
  assert (Hno : collections (cat st) !! n = None).
  { destruct (collections (cat st) !! n) eqn:E; [|done]. destruct (Hcols _ _ E) as (c & ? & _). congruence. }
  assert (Hb : base_docs a n u = ∅) by (by eapply base_docs_created).
  destruct (install_ok a st n u m s Hv (proj1 (ao_applied _ Hok)) (proj2 Hs) Hb) as (c & e & dirs & Ei & Hfr & He).
  { apply (Hcr s). by left. }
  set (st1 := {| cat := _; root := _ |}) in Ei.
  destruct (persist_ok st1 s) as (d' & Ep & _).
  eexists ApplyOutcome_default, _. split.
  { unfold apply_command. cbn. erewrite M_bind_Ok; [reflexivity|]. unfold apply_create. cbn.
    mpure. rewrite Mapping_proto_roundtrip by apply Hv. mpure. unfold lookup_entry. mpure. rewrite Hno.
    rewrite uuid_parse_to_string. mpure. erewrite M_bind_Ok; [|exact Ei]. exact Ep. }
  destruct Huu as (_ & Hnd & Hfresh).
  assert (Hnl : ∀ n' c', run (base a) p.*2 !! n' = Some c' → a_uuid c' ≠ u).
  { intros n' c' Hc' <-. apply (Hfresh (a_uuid c')); [left|]. exists n', c'. done. }
  assert (Hnu : ∀ u', u' ∈ creates q.*2 → u' ≠ u).
  { intros u' Hin ->. unfold creates in *. cbn in Hnd. by apply NoDup_cons in Hnd as [? _]. }
  split; cbn; try done.
  - intros n' e'. rewrite run_snoc. cbn [step].
    intros [[<- <-]|[Hne He']]%lookup_insert_Some; [rewrite lookup_insert_eq; eauto|].
    rewrite lookup_insert_ne by done. destruct (Hcols _ _ He') as (c' & Hc' & Hok').
    exists c'. split; [done|]. eapply entry_ok_frame; [|exact Hok']. by eapply Hfr, Hnl.
  - intros n' [Hne Hn']%lookup_insert_None. rewrite run_snoc. cbn [step].
    rewrite lookup_insert_ne by done. destruct (Hnone n' Hne); [by left|right].
    by apply skipped_snoc.
  - intros s' n' u' m' Hin.
    assert (u' ≠ u).
    { apply Hnu. unfold creates. apply list_elem_of_omap. exists (CCreate n' u' m'). split; [|done].
      apply list_elem_of_fmap. by exists (s', CCreate n' u' m'). }
    rewrite Hfr by done. destruct (Hcr s' n' u' m') as [?|?]; [by right|by left|right].
    eapply dir_ok_frame; [|done]. by apply Hfr.
  - intros u' s' Hu'. destruct (Hq u' s' Hu') as [? Hu]. cbn in Hu. split; [|set_solver].
    rewrite Hfr; [done|]. intros ->. apply Hu. left.
Qed.

Lemma replay_drop a w p s n q st :
  astate_ok a → replay_inv a w p ((s, CDrop n) :: q) st →
  ∃ o st', apply_command (local_mark s) (command (drop_op n)) st = (Ok o, st')
    ∧ replay_inv a w (p ++ [(s, CDrop n)]) q st'.
Proof.
  intros Hok Hi. destruct (replay_next _ _ _ _ _ _ _ Hok Hi) as (_ & Huu & _).
  pose proof (replay_tail _ _ _ _ _ _ Hi) as Ht.
  destruct Hi as [_ Hseq Hwal Hcols Hnone Hcr Hq].
  assert (Hskip : ∀ n', n' ≠ n → skipped a p n' → skipped a (p ++ [(s, CDrop n)]) n').
  { intros n' Hne Hs. apply skipped_snoc; [|done]. by intros ? [= <-]. }
  assert (Hnone' : ∀ n', delete n (collections (cat st)) !! n' = None →
      run (base a) (p ++ [(s, CDrop n)]).*2 !! n' = None ∨ skipped a (p ++ [(s, CDrop n)]) n').
  { intros n' Hn'. rewrite run_snoc. cbn [step]. destruct (decide (n = n')) as [<-|Hne].
    - left. apply lookup_delete_eq.
    - rewrite lookup_delete_ne in Hn' by done. rewrite lookup_delete_ne by done.
      destruct (Hnone n' Hn'); [by left|right; auto]. }
  unfold apply_command. cbn. destruct (collections (cat st) !! n) as [e|] eqn:He.
  - destruct (Hcols _ _ He) as (c & Hc & Eu & _).
    set (st1 := {| cat := set_collections (delete n (collections (cat st))) (cat st);
                   root := set_col_dirs (delete (e_uuid e) (col_dirs (root st))) (root st) |}).
    destruct (persist_ok st1 s) as (d' & Ep & _). eexists ApplyOutcome_default, _. split.
    { erewrite M_bind_Ok; [reflexivity|]. unfold apply_drop, lookup_entry. do 2 mpure. rewrite He.
      mpure. exact Ep. }
    destruct Huu as (Hinj & _ & Hfresh). split; cbn; try done.
    + intros n' e'. rewrite run_snoc. cbn [step]. intros [Hne He']%lookup_delete_Some.
      rewrite lookup_delete_ne by done. destruct (Hcols _ _ He') as (c' & Hc' & Hok').
      exists c'. split; [done|]. eapply entry_ok_frame; [|exact Hok']. apply lookup_delete_ne.
      rewrite Eu. intros E. apply Hne. by eapply Hinj.
    + intros s' n' u' m' Hin. rewrite lookup_delete_ne.
      2: { rewrite Eu. intros E. apply (Hfresh u').
           - unfold creates. apply list_elem_of_omap. exists (CCreate n' u' m'). split; [|done].
             right. apply list_elem_of_fmap. by exists (s', CCreate n' u' m').
           - exists n, c. done. }
      destruct (Hcr s' n' u' m') as [?|Hd]; [by right|by left|right].
      eapply dir_ok_frame; [|exact Hd]. apply lookup_delete_ne. rewrite Eu. intros E.
      apply (Hfresh u'); [|by exists n, c].
      unfold creates. apply list_elem_of_omap. exists (CCreate n' u' m'). split; [|done].
      right. apply list_elem_of_fmap. by exists (s', CCreate n' u' m').
    + intros u' s' Hu'. destruct (Hq u' s' Hu') as [Hdn Hu]. split; [|done].
      apply lookup_delete_None. by right.
  - eexists ApplyOutcome_default, _. split.
    { erewrite M_bind_Ok; [reflexivity|]. unfold apply_drop, lookup_entry. do 2 mpure. by rewrite He. }
    split; cbn; try done.
    + intros n' e'. rewrite run_snoc. cbn [step]. intros [Hne He']%lookup_delete_Some.
      rewrite lookup_delete_ne by done. by apply Hcols.
    + intros s' n' u' m' Hin. apply (Hcr s'). by right.
Qed.

(** ** The replay loop *)

Lemma replay_index a w p s n id src q st :
  astate_ok a → replay_inv a w p ((s, CIndex n id src) :: q) st →
  ∃ o st', apply_command (local_mark s) (command (index_op n id src)) st = (Ok o, st')
    ∧ replay_inv a w (p ++ [(s, CIndex n id src)]) q st'.
Proof.
  intros Hok Hi. destruct (replay_next _ _ _ _ _ _ _ Hok Hi) as ((cl & v & Hcl & Hjson & Hval & Hid) & _ & _).
  unfold apply_command. cbn. unfold apply_index, lookup_entry. mpure. cbn [v1.index_collection].
  destruct (collections (cat st) !! n) as [e|] eqn:He.
  - destruct (replay_doc a w p s (CIndex n id src) q st n (<[id := src]>) e (apply_upsert id src v))
      as (k & Ek & Hle & Hgt); [done|done|done|done| |].
    { intros cl' cs D g Hcl' Hrep. assert (cl' = cl) as -> by congruence.
      destruct (upsert_rep _ _ _ _ id src v Hrep Hval Hid) as (cs' & ? & ? & ? & _). eauto. }
    erewrite M_bind_Ok; [|exact Ek]. cbn. case_decide as Hd; [eauto|].
    rewrite Hjson. mpure. destruct (Hgt ltac:(lia)) as (r & st' & E & Hi').
    erewrite M_bind_Ok; [|exact E]. eauto.
  - eexists _, st. split; [done|]. eapply replay_doc_skip; [done..|by eauto].
Qed.

Lemma replay_delete a w p s n id q st :
  astate_ok a → replay_inv a w p ((s, CDelete n id) :: q) st →
  ∃ o st', apply_command (local_mark s) (command (delete_op n id)) st = (Ok o, st')
    ∧ replay_inv a w (p ++ [(s, CDelete n id)]) q st'.
Proof.
  intros Hok Hi. destruct (replay_next _ _ _ _ _ _ _ Hok Hi) as ((Hcl & Hid) & _ & _).
  unfold apply_command. cbn. unfold apply_delete_doc, lookup_entry. mpure. cbn [v1.delete_collection].
  destruct (collections (cat st) !! n) as [e|] eqn:He.
  - destruct (replay_doc a w p s (CDelete n id) q st n (delete id) e (apply_delete id))
      as (k & Ek & Hle & Hgt); [done|done|done|done| |].
    { intros cl' cs D g Hcl' Hrep.
      destruct (delete_rep _ _ _ _ id Hrep Hid) as (cs' & ? & ? & ? & _). eauto. }
    erewrite M_bind_Ok; [|exact Ek]. cbn. case_decide as Hd; [eauto|].
    destruct (Hgt ltac:(lia)) as (r & st' & E & Hi').
    erewrite M_bind_Ok; [|exact E]. eauto.
  - eexists _, st. split; [done|]. eapply replay_doc_skip; done.
Qed.

Lemma replay_cmd a w p s c q st :
  astate_ok a → replay_inv a w p ((s, c) :: q) st →
  ∃ o st', apply_command (local_mark s) (command (op_of c)) st = (Ok o, st')
    ∧ replay_inv a w (p ++ [(s, c)]) q st'.
Proof. destruct c; eauto using replay_create, replay_drop, replay_index, replay_delete. Qed.

(** Entries the snapshot covers are passed over. *)
Lemma replay_filter A es b st : replay A es b st = replay A (filter (λ e, A < v1.seq e) es) b st.
Proof.
  revert b st. induction es as [|e es IH]; intros b st; [done|].
  rewrite filter_cons. cbn [replay]. destruct (decide (A < v1.seq e)) as [Hlt|Hge].
  - rewrite decide_False by lia. cbn [replay]. rewrite decide_False by lia.
    destruct (v1.command e); [|done].
    unfold mbind, M_bind. destruct (apply_command _ _ _) as [[?| |] ?]; [apply IH|done|done].
  - rewrite decide_True by lia. apply IH.
Qed.

Lemma replay_entries a w q : ∀ p b st,
  astate_ok a → replay_inv a w p q st →
  ∃ st', replay (applied a) (entries_of q) b st = (Ok (b || negb (bool_decide (q = []))), st')
    ∧ replay_inv a w (tail a) [] st'.
Proof.
  induction q as [|[s c] q IH]; intros p b st Hok Hi.
  { exists st. pose proof (ri_tail _ _ _ _ _ Hi) as Ht. rewrite app_nil_r in Ht. rewrite Ht.
    cbn. rewrite orb_false_r. done. }
  destruct (replay_next _ _ _ _ _ _ _ Hok Hi) as (_ & _ & Hs).
  destruct (replay_cmd _ _ _ _ _ _ _ Hok Hi) as (o & st1 & E1 & Hi1).
  destruct (IH _ true _ Hok Hi1) as (st2 & E2 & Hi2). exists st2. split; [|done].
  cbn [entries_of fmap list_fmap replay]. cbn. rewrite decide_False by lia.
  erewrite M_bind_Ok; [|exact E1]. cbv beta. unfold entries_of in E2. rewrite E2.
  by rewrite orb_true_r.
Qed.
End CatalogReplay.
