(* ===== verification/CatalogCommit.v ===== *)
(** * The catalog: checkpoints

    [commit_all] commits collection after collection and then writes the
    snapshot; [checkpoint] trims the log afterwards.  At every point in between
    the files on disk stand for the same database. *)

From S2P Require Import Prelude Bytes CoreError FileSys Proto External Mapping Document IndexApi Collection.
From S2P Require Import CollectionSpec WalInterface Catalog CatalogSpec CatalogRel.

Open Scope Z_scope.

Section CatalogCommit.
Context `{Json} `{Rfc3339} `{TantivySchema} `{!TantivyIndex} `{!MarkJson} `{UuidApi}.
Context `{WriteAheadLog} `{!Codec v1.CatalogSnapshot}.

(** Entry [e] holds collection [c]; [committed] of its documents are on disk at
    mark [k]. *)
Definition holds (z : Z) (dirs : gmap Uuid (option Index)) (e : Entry) (c : coll)
    (committed : docs_map) (k : Z) : Prop :=
  e_uuid e = a_uuid c ∧ e_created_seq e ≤ z ∧
  ∃ index, dirs !! a_uuid c = Some (Some index)
    ∧ col_rep {| col := e_collection e; on_disk := index |} (a_mapping c) committed (a_docs c)
    ∧ mark_at index k.

(** The collections in memory are those of database [d]; [P] relates each to what
    of it is committed. *)
Record loaded (z : Z) (d : gmap string coll) (P : string → coll → docs_map → Z → Prop) (st : CatSt) :
    Prop := {
  lo_some : ∀ n e, collections (cat st) !! n = Some e →
    ∃ c D k, d !! n = Some c ∧ holds z (col_dirs (root st)) e c D k ∧ P n c D k;
  lo_none : ∀ n, collections (cat st) !! n = None → d !! n = None
}.

Lemma loaded_impl z d P Q st :
  (∀ n c D k, d !! n = Some c → P n c D k → Q n c D k) → loaded z d P st → loaded z d Q st.
Proof.
  intros HPQ [Hs Hn]. split; [|done]. intros n e He. destruct (Hs _ _ He) as (c & D & k & ? & ? & ?).
  exists c, D, k. auto.
Qed.

(** The parts of the state a commit does not touch. *)
Definition same_but_cols (st st' : CatSt) : Prop :=
  c_seq (cat st') = c_seq (cat st) ∧ c_wal (cat st') = c_wal (cat st)
  ∧ files (root st') = files (root st) ∧ quarantined (root st') = quarantined (root st)
  ∧ (∀ n, is_Some (collections (cat st') !! n) ↔ is_Some (collections (cat st) !! n))
  ∧ (∀ u, is_Some (col_dirs (root st') !! u) ↔ is_Some (col_dirs (root st) !! u)).

#[local] Instance same_but_cols_preorder : PreOrder same_but_cols.
Proof.
  split.
  - intros st. by repeat split.
  - intros s1 s2 s3 (?&?&?&?&E1&E2) (?&?&?&?&E3&E4). repeat split; try congruence.
    all: intros; try (apply E3, E1 || apply E1, E3 || apply E4, E2 || apply E2, E4); done.
Qed.

Definition inj_uuids (d : gmap string coll) : Prop :=
  ∀ n1 n2 c1 c2, d !! n1 = Some c1 → d !! n2 = Some c2 → a_uuid c1 = a_uuid c2 → n1 = n2.

(** Committing one collection. *)
Lemma commit_one z d P st n mark :
  inj_uuids d → loaded z d P st → is_Some (collections (cat st) !! n) →
  ∃ st', on_col n (commit mark) st = (Ok tt, st') ∧ same_but_cols st st'
    ∧ loaded z d (λ n' c D k, if decide (n' = n) then D = a_docs c ∧ k = mark_index mark else P n' c D k) st'.
Proof.
  intros Hinj [Hs Hn] [e He].
  destruct (Hs _ _ He) as (c & D & k & Hc & (Eu & Hz & index & Hd & Hrep & Hk) & HP).
  destruct (commit_rep _ _ _ _ mark Hrep) as (s' & Ec & Hrep' & Hmk & _).
  exists (put_col st n e s'). split; [eapply on_col_ok; [done|by rewrite Eu|done]|]. split.
  - repeat split; cbn; try done.
    1, 2: destruct (decide (n = n0)) as [<-|]; [rewrite lookup_insert_eq|by rewrite lookup_insert_ne]; by eauto.
    all: destruct (decide (e_uuid e = u)) as [<-|]; [rewrite lookup_insert_eq|by rewrite lookup_insert_ne];
      try rewrite Eu, Hd; by eauto.
  - split; cbn.
    + intros n' e'. intros [[<- <-]|[Hne He']]%lookup_insert_Some.
      * exists c, (a_docs c), (mark_index mark). split; [done|]. rewrite decide_True by done. split; [|done].
        split; [done|]. split; [done|]. exists (on_disk s'). cbn. rewrite Eu, lookup_insert_eq.
        split; [done|]. split; [by destruct s'|]. by exists (Some mark).
      * destruct (Hs _ _ He') as (c' & D' & k' & Hc' & (Eu' & Hz' & index' & Hd' & ?) & HP').
        exists c', D', k'. split; [done|]. rewrite decide_False by done. split; [|done].
        split; [done|]. split; [done|]. exists index'. rewrite lookup_insert_ne; [done|].
        rewrite Eu. intros E. apply Hne. by eapply Hinj.
    + intros n' [Hne Hn']%lookup_insert_None. by apply Hn.
Qed.

(** The loop of [commit_all], over any list of present names. *)
Lemma commit_loop z d mark ns : ∀ P st,
  inj_uuids d → loaded z d P st → Forall (λ n, is_Some (collections (cat st) !! n)) ns →
  ∃ st', for_each ns (λ n, on_col n (commit mark)) st = (Ok tt, st') ∧ same_but_cols st st'
    ∧ loaded z d (λ n c D k, (n ∈ ns ∧ D = a_docs c ∧ k = mark_index mark) ∨ (n ∉ ns ∧ P n c D k)) st'.
Proof.
  induction ns as [|n ns IH]; intros P st Hinj Hl Hns.
  { exists st. split_and!; [done|done|]. eapply loaded_impl, Hl. intros. right. split; [by apply not_elem_of_nil|done]. }
  apply Forall_cons in Hns as [Hn Hns].
  destruct (commit_one z d P st n mark Hinj Hl Hn) as (st1 & E1 & Hsame1 & Hl1).
  destruct (IH _ st1 Hinj Hl1) as (st2 & E2 & Hsame2 & Hl2).
  { destruct Hsame1 as (_ & _ & _ & _ & Hn1 & _). eapply Forall_impl; [exact Hns|]. intros. by apply Hn1. }
  exists st2. split; [cbn [for_each]; by rewrite (M_bind_Ok _ _ _ _ _ E1)|].
  split; [by etrans|]. eapply loaded_impl, Hl2. intros n' c D k _ [(Hin & ?)|[Hnin HP]].
  - left. split; [by right|done].
  - case_decide as Hd; [subst; left; split; [left|done]|]. right. split; [|done].
    by intros [->|?]%elem_of_cons.
Qed.

(** ** The snapshot a loaded catalog writes *)

(** A snapshot of database [d], written with sequence number [k] when [z] is the last. *)
Definition saved_as (d : gmap string coll) (k z : Z) : astate :=
  {| base := d; applied := k; tail := []; last := z |}.

Lemma snapshot_proto_rep z k d P st :
  loaded z d P st → snap_rep (snapshot_proto (cat st) k) (saved_as d k z).
Proof.
  intros [Hs Hn]. split; [done|].
  set (f := λ ne : string * Entry, (ne.1, {| a_uuid := e_uuid ne.2;
    a_mapping := c_mapping (e_collection ne.2); a_docs := default ∅ (a_docs <$> d !! ne.1) |},
    e_created_seq ne.2)).
  exists (f <$> map_to_list (collections (cat st))).
  assert (Hf : ∀ n e, collections (cat st) !! n = Some e →
            ∃ c, d !! n = Some c ∧ f (n, e) = (n, c, e_created_seq e) ∧ e_created_seq e ≤ z).
  { intros n e He. destruct (Hs _ _ He) as (c & D & k' & Hc & (Eu & Hz & index & _ & Hrep & _) & _).
    exists c. split; [done|]. split; [|done]. unfold f. cbn. rewrite Hc, Eu. cbn.
    pose proof (cr_mapping _ _ _ _ Hrep) as Hm. cbn in Hm. rewrite Hm. by destruct c. }
  split_and!.
  - unfold snapshot_proto. cbn. rewrite <-list_fmap_compose. apply list_fmap_ext. by intros ? [] _.
  - rewrite <-!list_fmap_compose. replace (_ <$> map_to_list (collections (cat st)))
      with (map_to_list (collections (cat st))).*1 by (apply list_fmap_ext; by intros ? []).
    apply NoDup_fst_map_to_list.
  - cbn. intros n c. rewrite <-list_fmap_compose. split.
    + intros Hc. destruct (collections (cat st) !! n) as [e|] eqn:He.
      2: { apply Hn in He. congruence. }
      destruct (Hf n e He) as (c' & Hc' & Ef & _). assert (c' = c) as -> by congruence.
      apply list_elem_of_fmap. exists (n, e). rewrite elem_of_map_to_list. split; [|done].
      unfold compose. by rewrite Ef.
    + intros ([n' e] & E & Hin)%list_elem_of_fmap. apply elem_of_map_to_list in Hin.
      destruct (Hf n' e Hin) as (c' & Hc' & Ef & _). unfold compose in E. rewrite Ef in E. cbn in E.
      by simplify_eq.
  - apply Forall_forall. intros x ([n e] & -> & Hin)%list_elem_of_fmap. apply elem_of_map_to_list in Hin.
    destruct (Hf n e Hin) as (c & _ & -> & ?). done.
Qed.

(** The abstract state after a snapshot at the last sequence number. *)
Definition checkpointed (a : astate) : astate :=
  {| base := now a; applied := last a; tail := []; last := last a |}.

Lemma commit_all_at z d P st mark :
  inj_uuids d → loaded z d P st →
  ∃ st', commit_all mark st = (Ok tt, st')
    ∧ loaded z d (λ n c D k, D = a_docs c ∧ k = mark_index mark) st'
    ∧ c_seq (cat st') = c_seq (cat st) ∧ c_wal (cat st') = c_wal (cat st)
    ∧ quarantined (root st') = quarantined (root st)
    ∧ (∀ u, is_Some (col_dirs (root st') !! u) ↔ is_Some (col_dirs (root st) !! u))
    ∧ snapshot_ok (files (root st')) (saved_as d (mark_index mark) z).
Proof.
  intros Hinj Hl. set (ns := (map_to_list (collections (cat st))).*1).
  assert (Hns : Forall (λ n, is_Some (collections (cat st) !! n)) ns).
  { apply Forall_forall. intros n ([n' e] & -> & Hin)%list_elem_of_fmap.
    apply elem_of_map_to_list in Hin. by eauto. }
  destruct (commit_loop z d mark ns P st Hinj Hl Hns) as (st1 & E1 & Hsame & Hl1).
  destruct Hsame as (Hseq & Hwal & Hfiles & Hquar & Hnames & Hdirs).
  assert (Hl2 : loaded z d (λ n c D k, D = a_docs c ∧ k = mark_index mark) st1).
  { destruct Hl1 as [Hs Hn]. split; [|done]. intros n e He.
    destruct (Hs n e He) as (c & D & k & ? & ? & [(_ & ? & Hk)|[Hnin _]]); [by exists c, D, k|].
    destruct Hnin. destruct (proj1 (Hnames n)) as [e0 He0]; [by eauto|].
    apply list_elem_of_fmap. exists (n, e0). by rewrite elem_of_map_to_list. }
  destruct (persist_ok st1 (mark_index mark)) as (d' & Ep & Hd').
  eexists. split; [unfold commit_all; mpure; erewrite M_bind_Ok; [exact Ep|exact E1]|].
  cbn. split_and!; try done.
  - by destruct Hl2.
  - right. eexists _, _. split; [exact Hd'|]. split; [done|]. split; [done|].
    by eapply snapshot_proto_rep.
Qed.

(** [commit_all] at the last sequence number. *)
Lemma commit_all_ok a P st mark :
  inj_uuids (now a) → loaded (last a) (now a) P st → mark_index mark = last a →
  ∃ st', commit_all mark st = (Ok tt, st')
    ∧ loaded (last a) (now a) (λ n c D k, D = a_docs c ∧ k = last a) st'
    ∧ c_seq (cat st') = c_seq (cat st) ∧ c_wal (cat st') = c_wal (cat st)
    ∧ quarantined (root st') = quarantined (root st)
    ∧ (∀ u, is_Some (col_dirs (root st') !! u) ↔ is_Some (col_dirs (root st) !! u))
    ∧ snapshot_ok (files (root st')) (checkpointed a).
Proof.
  intros Hinj Hl Hmk. pose proof (commit_all_at _ _ _ st mark Hinj Hl) as Hc. by rewrite Hmk in Hc.
Qed.
End CatalogCommit.
