(* ===== verification/CatalogOpen.v ===== *)
(** * The catalog: recovery

    [Catalog::open] on the files of a stopped node succeeds and loads exactly the
    database that the files stand for. *)

From S2P Require Import Prelude Bytes CoreError FileSys Proto External Mapping Document IndexApi Collection.
From S2P Require Import CollectionSpec WalInterface Catalog CatalogSpec CatalogRel CatalogReplay CatalogCommit.

Open Scope Z_scope.

Section CatalogOpen.
Context `{Json} `{Rfc3339} `{TantivySchema} `{!TantivyIndex} `{!MarkJson} `{UuidApi}.
Context `{WriteAheadLog} `{!Codec v1.CatalogSnapshot}.

(** ** Loading the snapshot *)

Lemma dropped_in_tail_rep A es t :
  filter (λ e, A < v1.seq e) es = entries_of t → dropped_in_tail A es = drops t.*2.
Proof.
  intros E. unfold dropped_in_tail. rewrite E. clear E. unfold entries_of, drops.
  induction t as [|[s c] t IH]; [done|]. destruct c; cbn; by rewrite IH.
Qed.

(** The in-memory entry for a snapshot entry. *)
Definition opened (dirs : gmap Uuid (option Index)) (x : string * coll * Z) (e : Entry) : Prop :=
  ∃ index, dirs !! a_uuid x.1.2 = Some (Some index)
    ∧ e = {| e_uuid := a_uuid x.1.2; e_created_seq := x.2;
             e_collection := from_index (a_uuid x.1.2) (a_mapping x.1.2) index |}.

Lemma open_entries_ok dirs dropped l : ∀ cols z,
  NoDup l.*1.*1 → Forall (λ x, x.2 ≤ z) l →
  Forall (λ x, x.1.1 ∉ dropped → mapping_ok (a_mapping x.1.2)
               ∧ ∃ index, dirs !! a_uuid x.1.2 = Some (Some index)) l →
  ∃ cols', open_entries dirs dropped (snap_entry <$> l) cols z = Ok (cols', z)
    ∧ ∀ n, match cols' !! n with
           | Some e => (∃ x, x ∈ l ∧ x.1.1 = n ∧ n ∉ dropped ∧ opened dirs x e) ∨ cols !! n = Some e
           | None => cols !! n = None ∧ (n ∈ l.*1.*1 → n ∈ dropped)
           end.
Proof.
  induction l as [|x l IH]; intros cols z Hnd Hz Hl.
  { exists cols. split; [done|]. intros n. destruct (cols !! n); [by right|]. split; [done|].
    by intros ?%elem_of_nil. }
  cbn [fmap list_fmap] in Hnd. apply NoDup_cons in Hnd as [Hn Hnd].
  apply Forall_cons in Hz as [Hzx Hz]. apply Forall_cons in Hl as [Hx Hl].
  cbn [fmap list_fmap open_entries]. cbn [snap_entry v1.entry_name]. case_decide as Hdr.
  - destruct (IH cols z Hnd Hz Hl) as (cols' & E & Hc). exists cols'. split; [done|]. intros n.
    specialize (Hc n). destruct (cols' !! n).
    + destruct Hc as [(y & Hin & ?)|?]; [left|by right]. exists y. split; [by right|done].
    + destruct Hc as [? Hc]. split; [done|]. intros [->|?]%elem_of_cons; auto.
  - destruct (Hx Hdr) as [Hv [index Hd]]. cbn. rewrite uuid_parse_to_string. cbn.
    rewrite Mapping_proto_roundtrip by apply Hv. cbn. rewrite decide_False by (by rewrite Hd).
    unfold collection_open. rewrite Hd. cbn. rewrite Z.max_l by done.
    set (e := {| e_uuid := _; e_created_seq := _; e_collection := _ |}).
    destruct (IH (<[x.1.1 := e]> cols) z Hnd Hz Hl) as (cols' & E & Hc). exists cols'. split; [done|].
    intros n. specialize (Hc n). destruct (cols' !! n) as [e'|].
    + destruct Hc as [(y & Hin & ?)|[[<- <-]|[_ ?]]%lookup_insert_Some].
      * left. exists y. split; [by right|done].
      * left. exists x. split; [left|]. split_and!; [done|done|]. by exists index.
      * by right.
    + destruct Hc as [[Hcn Hne]%lookup_insert_None Hc]. split; [done|].
      intros [->|?]%elem_of_cons; [done|auto].
Qed.

Lemma foldl_max_seq es z (t : list (Z * cmd)) A :
  A ≤ z → Forall (λ e, v1.seq e ≤ z) es → z = A ∨ z ∈ v1.seq <$> es →
  foldl (λ m e, m `max` v1.seq e) A es = z.
Proof.
  revert A. induction es as [|e es IH]; intros A HA Hes Hor; cbn.
  - destruct Hor as [?|Hin]; [done|]. by apply elem_of_nil in Hin.
  - apply Forall_cons in Hes as [He Hes]. apply IH; [lia|done|].
    destruct Hor as [->|[->|?]%elem_of_cons]; [left; lia|left; lia|by right].
Qed.

Lemma entries_of_seqs t : v1.seq <$> entries_of t = t.*1.
Proof. unfold entries_of. rewrite <-list_fmap_compose. apply list_fmap_ext. by intros ? []. Qed.

(** The state [open] builds before it replays. *)
Lemma open_initial d a w es :
  disk_inv d a → w_rel w es (-1) (last a) →
  filter (λ e, applied a < v1.seq e) es = entries_of (tail a) →
  ∃ snap cols, load_snapshot (files (d_root d)) = Ok snap ∧ v1.applied_seq snap = applied a
    ∧ open_entries (col_dirs (d_root d)) (dropped_in_tail (applied a) es) (v1.entries snap) ∅
        (foldl (λ m e, m `max` v1.seq e) (applied a) es) = Ok (cols, last a)
    ∧ replay_inv a w [] (tail a)
        {| cat := {| c_seq := last a; c_wal := w; collections := cols |}; root := d_root d |}.
Proof.
  intros Hd Hw Hes. destruct (load_snapshot_ok _ _ (di_snap _ _ Hd)) as (snap & El & Ha & l & Hl & Hnd & Hbase & Hz).
  pose proof (di_ok _ _ Hd) as Hok. destruct (w_seqs _ _ _ _ Hw) as (_ & Hs & _).
  rewrite (dropped_in_tail_rep _ _ _ Hes).
  assert (Hmax : foldl (λ m e, m `max` v1.seq e) (applied a) es = last a).
  { apply (foldl_max_seq es (last a) []); [apply Hok|eapply Forall_impl; [exact Hs|]; cbn; lia|].
    destruct (ao_last _ Hok) as [?|Hin]; [by left|right].
    rewrite <-entries_of_seqs, <-Hes in Hin. apply list_elem_of_fmap in Hin as (e & -> & [_ Hin]%list_elem_of_filter).
    by apply list_elem_of_fmap_2. }
  assert (Hdir : ∀ n c, base a !! n = Some c → n ∉ drops (tail a).*2 →
    ∃ index k docs, col_dirs (d_root d) !! a_uuid c = Some (Some index)
      ∧ col_rep {| col := from_index (a_uuid c) (a_mapping c) index; on_disk := index |}
          (a_mapping c) docs docs
      ∧ mark_at index k ∧ commit_ok a n (a_uuid c) (a_mapping c) (a_docs c) k docs).
  { intros n c Hc Hn. destruct (di_base _ _ Hd n c Hc Hn) as (index & k & docs & ? & ? & ? & ? & ?).
    exists index, k, docs. split; [done|]. split; [|done]. apply col_rep_open; [|done|done].
    by eapply (ao_base _ Hok). }
  destruct (open_entries_ok (col_dirs (d_root d)) (drops (tail a).*2) l ∅ (last a) Hnd Hz)
    as (cols & Eo & Hcols).
  { apply Forall_forall. intros [[n c] z] Hin Hn. cbn in *.
    assert (Hc : base a !! n = Some c) by (apply Hbase, list_elem_of_fmap; by exists (n, c, z)).
    split; [by eapply (ao_base _ Hok)|]. destruct (Hdir n c Hc Hn) as (index & _ & _ & ? & _). eauto. }
  exists snap, cols. rewrite Hl, Hmax. do 3 (split; [done|]).
  rewrite Forall_forall in Hz. split; cbn; try done.
  - intros n e He. specialize (Hcols n). rewrite He in Hcols.
    destruct Hcols as [([[n' c] z] & Hin & <- & Hn & index & Hdi & ->)|?]; [|by rewrite lookup_empty in *].
    cbn in *. assert (Hc : base a !! n' = Some c) by (apply Hbase, list_elem_of_fmap; by exists (n', c, z)).
    destruct (Hdir n' c Hc Hn) as (index' & k & docs & Hdi' & Hrep & Hk & Hco).
    assert (index' = index) as -> by congruence.
    exists c. split; [done|]. split; [done|]. split; [by apply (Hz _ Hin)|].
    exists index, k, docs, docs. do 4 (split; [done|]). unfold base_docs.
    by rewrite Hc, decide_True.
  - intros n Hn. specialize (Hcols n). rewrite Hn in Hcols. destruct Hcols as [_ Hdrop].
    destruct (base a !! n) as [c|] eqn:Hc; [right|by left]. split; [by rewrite Hc; eauto|].
    split; [|by apply not_elem_of_nil]. apply Hdrop. apply Hbase in Hc.
    apply list_elem_of_fmap. by exists (n, c).
  - apply Hd.
  - apply Hd.
Qed.

(** ** Sweeping orphans *)

Lemma sweep_loop (lv : list Uuid) high us : ∀ st,
  NoDup us → Forall (λ u, is_Some (col_dirs (root st) !! u)) us →
  (∀ u s, is_Some (quarantined (root st) !! (u, s)) → col_dirs (root st) !! u = None) →
  ∃ st', for_each us (λ u, if decide (u ∈ lv) then mret tt else quarantine u high) st = (Ok tt, st')
    ∧ cat st' = cat st ∧ files (root st') = files (root st)
    ∧ (∀ u, col_dirs (root st') !! u
            = if decide (u ∈ us ∧ u ∉ lv) then None else col_dirs (root st) !! u)
    ∧ (∀ u s, is_Some (quarantined (root st') !! (u, s)) → col_dirs (root st') !! u = None)
    ∧ (∀ u s, is_Some (quarantined (root st') !! (u, s)) →
         is_Some (quarantined (root st) !! (u, s)) ∨ is_Some (col_dirs (root st) !! u) ∧ u ∉ lv).
Proof.
  induction us as [|u us IH]; intros st Hnd Hus Hq.
  { exists st. split_and!; try done. by left. }
  apply NoDup_cons in Hnd as [Hn Hnd]. apply Forall_cons in Hus as [[x Hu] Hus]. cbn [for_each].
  destruct (decide (u ∈ lv)) as [Hin|Hnin].
  - mpure. destruct (IH st Hnd Hus Hq) as (st' & E & ? & ? & Hdirs & ? & ?). exists st'.
    split_and!; try done. intros u'. rewrite Hdirs.
    by repeat case_decide; set_solver.
  - set (st1 := {| cat := cat st; root := set_quarantined (<[(u, high) := x]> (quarantined (root st)))
                     (set_col_dirs (delete u (col_dirs (root st))) (root st)) |}).
    assert (E1 : quarantine u high st = (Ok tt, st1)).
    { unfold quarantine. mpure. rewrite Hu. rewrite decide_False; [done|].
      intros [y (o & Hs & _)%bind_Some]. by rewrite (Hq u high) in Hu. }
    destruct (IH st1) as (st' & E & Hc & Hf & Hdirs & Hq' & Hnew); [done|..].
    { apply Forall_forall. intros u' Hin'. cbn. rewrite lookup_delete_ne by (intros ->; done).
      rewrite Forall_forall in Hus. by apply Hus. }
    { cbn. intros u' s Hs. apply lookup_delete_None. destruct (decide (u = u')) as [->|Hne]; [by left|right].
      rewrite lookup_insert_ne in Hs by congruence. by eapply Hq. }
    exists st'. rewrite (M_bind_Ok _ _ _ _ _ E1). split_and!; try done.
    + intros u'. rewrite Hdirs. cbn. destruct (decide (u = u')) as [<-|Hne].
      * rewrite lookup_delete_eq. by repeat case_decide; set_solver.
      * rewrite lookup_delete_ne by done. by repeat case_decide; set_solver.
    + intros u' s' Hs. apply Hnew in Hs as [Hs|[[y Hy] Hlv]]; cbn in *.
      * destruct (decide ((u, high) = (u', s'))) as [[= <- <-]|Hne]; [right; by rewrite Hu|left].
        by rewrite lookup_insert_ne in Hs.
      * apply lookup_delete_Some in Hy as [_ Hy]. right. by rewrite Hy.
Qed.

(** ** After the replay *)

Lemma inj_now a : astate_ok a → inj_uuids (now a).
Proof.
  intros Hok. pose proof (ao_uuids _ Hok) as Hu. rewrite <-(app_nil_r (tail a).*2) in Hu.
  apply uuids_ok_run in Hu as (Hinj & _). exact Hinj.
Qed.

Lemma replay_loaded a w st :
  replay_inv a w (tail a) [] st →
  loaded (last a) (now a) (λ n c D k, commit_ok a n (a_uuid c) (a_mapping c) (base_docs a n (a_uuid c)) k D) st.
Proof.
  intros [_ _ _ Hs Hn _ _]. split.
  - intros n e He. destruct (Hs _ _ He) as (c & Hc & Eu & Hz & index & k & D & docs & Hd & Hrep & Hk & Hco & HD).
    exists c, D, k. split; [done|]. split; [|done]. split; [done|]. split; [done|]. exists index.
    split; [done|]. split; [|done].
    assert (docs = a_docs c) as <-; [|done]. destruct Hco as [[_ ?]|(_ & c' & Hc' & _ & _ & ->)]; [done|].
    unfold now in Hc'. congruence.
  - intros n Hno. destruct (Hn n Hno) as [?|(_ & ? & ?)]; done.
Qed.

Lemma loaded_live z d P st u : loaded z d P st → live d u ↔ u ∈ live_uuids (cat st).
Proof.
  intros [Hs Hn]. unfold live, live_uuids. rewrite <-list_fmap_compose, list_elem_of_fmap. split.
  - intros (n & c & Hc & <-). destruct (collections (cat st) !! n) as [e|] eqn:He.
    + destruct (Hs _ _ He) as (c' & D & k & Hc' & (Eu & _) & _). exists (n, e).
      rewrite elem_of_map_to_list. split; [|done]. cbn. rewrite Eu. congruence.
    + apply Hn in He. congruence.
  - intros ([n e] & -> & He). apply elem_of_map_to_list in He.
    destruct (Hs _ _ He) as (c & D & k & Hc & (Eu & _) & _). exists n, c. done.
Qed.

Lemma sweep_ok z d P high st :
  loaded z d P st → (∀ u s, is_Some (quarantined (root st) !! (u, s)) → col_dirs (root st) !! u = None) →
  ∃ st', sweep_orphans high st = (Ok tt, st') ∧ cat st' = cat st ∧ files (root st') = files (root st)
    ∧ loaded z d P st' ∧ (∀ u, is_Some (col_dirs (root st') !! u) → live d u)
    ∧ (∀ u s, is_Some (quarantined (root st') !! (u, s)) → col_dirs (root st') !! u = None).
Proof.
  intros Hl Hq. unfold sweep_orphans. mpure. unfold collection_dirs at 1. mpure.
  destruct (sweep_loop (live_uuids (cat st)) high (map_to_list (col_dirs (root st))).*1 st)
    as (st' & E & Hc & Hf & Hdirs & Hq' & _); [apply NoDup_fst_map_to_list| |done|].
  { apply Forall_forall. intros u ([u' x] & -> & Hin)%list_elem_of_fmap. apply elem_of_map_to_list in Hin.
    by eauto. }
  exists st'. split_and!; try done.
  - destruct Hl as [Hs Hn]. split; [|by rewrite Hc]. rewrite Hc. intros n e He.
    destruct (Hs _ _ He) as (c & D & k & Hcn & (Eu & Hz & index & Hd & ?) & ?).
    exists c, D, k. split; [done|]. split; [|done]. split; [done|]. split; [done|]. exists index.
    split; [|done]. rewrite Hdirs, decide_False; [done|]. intros [_ Hno]. apply Hno.
    eapply (loaded_live z d P st); [by split|]. exists n, c. done.
  - intros u. rewrite Hdirs. case_decide as Hdec; [by intros []|]. intros [x Hx].
    apply (loaded_live z d P st u Hl). destruct (decide (u ∈ live_uuids (cat st))); [done|].
    destruct Hdec. split; [|done]. apply list_elem_of_fmap. exists (u, x). by rewrite elem_of_map_to_list.
Qed.

(** A node at rest right after a checkpoint. *)
Lemma cat_rel_checkpointed a st es fl :
  astate_ok a →
  loaded (last a) (now a) (λ n c D k, D = a_docs c ∧ k ≤ last a) st →
  snapshot_ok (files (root st)) (checkpointed a) → c_seq (cat st) = last a →
  w_rel (c_wal (cat st)) es fl (last a) →
  (∀ u, is_Some (col_dirs (root st) !! u) → live (now a) u) →
  (∀ u s, is_Some (quarantined (root st) !! (u, s)) → col_dirs (root st) !! u = None) →
  cat_rel st (checkpointed a).
Proof.
  intros Hok Hl Hsnap Hseq Hw Hdirs Hq. destruct (w_seqs _ _ _ _ Hw) as (_ & Hes & Hfl & _).
  pose proof (ao_applied _ Hok) as Hap. split; cbn; try done.
  - split; cbn; try done; [split_and!; [by apply inj_now|constructor|by intros ? ?%elem_of_nil]|lia|by left|].
    intros n c Hc. destruct (collections (cat st) !! n) as [e|] eqn:He.
    + destruct (lo_some _ _ _ _ Hl _ _ He) as (c' & D & k & Hc' & (_ & _ & index & _ & Hrep & _) & _).
      assert (c' = c) as -> by congruence. apply Hrep.
    + apply (lo_none _ _ _ _ Hl) in He. congruence.
  - exists es, fl. split; [done|]. split; [lia|]. apply list_filter_none. intros e Hin.
    rewrite Forall_forall in Hes. specialize (Hes e Hin). cbn in Hes. lia.
  - intros n e He. destruct (lo_some _ _ _ _ Hl _ _ He) as (c & D & k & Hc & (Eu & Hz & index & Hd & Hrep & Hk) & -> & Hkl).
    exists c. split; [done|]. split; [done|]. split; [done|]. exists index, k. split; [done|].
    split; [|done]. unfold base_docs. cbn. by rewrite Hc, decide_True.
  - by apply (lo_none _ _ _ _ Hl).
  - intros u s Hs. split; [by eapply Hq|by apply not_elem_of_nil].
Qed.

Lemma checkpointed_nil a : tail a = [] → astate_ok a → checkpointed a = a.
Proof.
  intros Ht Hok. destruct a as [b A t l]. cbn in Ht. subst t. unfold checkpointed, now. cbn.
  destruct (ao_last _ Hok) as [E|Hin]; cbn in *; [by subst|by apply elem_of_nil in Hin].
Qed.

Lemma checkpoint_ok a P st es fl :
  astate_ok a → loaded (last a) (now a) P st → c_seq (cat st) = last a →
  w_rel (c_wal (cat st)) es fl (last a) →
  (∀ u, is_Some (col_dirs (root st) !! u) → live (now a) u) →
  (∀ u s, is_Some (quarantined (root st) !! (u, s)) → col_dirs (root st) !! u = None) →
  ∃ st', checkpoint st = (Ok tt, st') ∧ cat_rel st' (checkpointed a).
Proof.
  intros Hok Hl Hseq Hw Hdirs Hq. destruct (w_seqs _ _ _ _ Hw) as (_ & _ & Hfl & _).
  unfold checkpoint. mpure. rewrite Hseq.
  destruct (commit_all_ok a P st (local_mark (last a)) (inj_now _ Hok) Hl eq_refl)
    as (st1 & E1 & Hl1 & Hs1 & Hw1 & Hq1 & Hd1 & Hsn1).
  erewrite M_bind_Ok; [|exact E1]. cbv beta.
  destruct (w_trim_ok _ _ _ _ (last a) Hw) as (w' & Ew & Hw'); [lia|]. rewrite <-Hw1 in Ew.
  eexists. split; [by apply on_wal_ok|].
  eapply cat_rel_checkpointed; cbn; [done| |done|congruence|exact Hw'|..].
  - destruct Hl1 as [Hs Hn]. split; [|done]. intros n e He.
    destruct (Hs _ _ He) as (c & D & k & ? & ? & -> & ->). exists c, (a_docs c), (last a).
    split; [done|]. split; [done|]. split; [done|lia].
  - intros u Hu. by apply Hdirs, Hd1.
  - rewrite Hq1. intros u s Hu. apply Hq in Hu. apply eq_None_not_Some. rewrite Hd1, Hu. by intros [].
Qed.

(** ** Recovery *)

Lemma catalog_open_ok d a :
  disk_inv d a →
  ∃ st, catalog_open d = (Ok st, disk_of st) ∧ cat_rel st (checkpointed a).
Proof.
  intros Hd. pose proof (di_ok _ _ Hd) as Hok. destruct (di_wal _ _ Hd) as (w & es & Ew & Hw & Hes).
  destruct (open_initial d a w es Hd Hw Hes) as (snap & cols & El & Ea & Eo & Hi).
  unfold catalog_open, load_catalog. rewrite El, Ea, Ew. cbn [d_root]. rewrite Eo.
  set (st0 := {| cat := _; root := _ |}) in Hi |- *. unfold open_tail.
  destruct (replay_entries a w (tail a) [] false st0 Hok Hi) as (st1 & E1 & Hi1).
  rewrite <-Hes, <-replay_filter in E1.
  erewrite M_bind_Ok; [|exact E1]. mpure.
  pose proof (replay_loaded _ _ _ Hi1) as Hl1.
  assert (Hq1 : ∀ u s, is_Some (quarantined (root st1) !! (u, s)) → col_dirs (root st1) !! u = None).
  { intros u s Hs. by destruct (ri_quar _ _ _ _ _ Hi1 u s Hs). }
  destruct (sweep_ok _ _ _ (c_seq (cat st1)) st1 Hl1 Hq1) as (st2 & E2 & Ec & Ef & Hl2 & Hd2 & Hq2).
  erewrite M_bind_Ok; [|exact E2]. cbv beta.
  pose proof (ri_seq _ _ _ _ _ Hi1) as Hseq. pose proof (ri_wal _ _ _ _ _ Hi1) as Hwal.
  case_bool_decide as Ht; cbn [orb negb].
  - unfold mret, M_ret. cbn. exists st2. split; [done|].
    eapply cat_rel_checkpointed; [done| | |by rewrite Ec|rewrite Ec, Hwal; exact Hw|done|done].
    + eapply loaded_impl; [|exact Hl2]. intros n c D k Hc Hco. cbn in Hco.
      pose proof (ao_applied _ Hok). unfold now in *. rewrite Ht in Hc. cbn in Hc.
      destruct Hco as [[Hk ->]|(-> & c' & Hc' & _ & _ & ->)].
      * unfold base_docs. rewrite Hc, decide_True by done. split; [done|lia].
      * unfold now in Hc'. rewrite Ht in Hc'. cbn in Hc'. split; [congruence|lia].
    + rewrite (checkpointed_nil a Ht Hok), Ef. rewrite replay_filter, Hes, Ht in E1. cbn in E1.
      injection E1 as <-. apply Hd.
  - destruct (checkpoint_ok a _ st2 es (-1) Hok Hl2) as (st3 & E3 & Hr);
      [by rewrite Ec|by rewrite Ec, Hwal|done|done|].
    rewrite E3. cbn. by exists st3.
Qed.
End CatalogOpen.
