(* ===== verification/CatalogOps.v ===== *)
(** * The catalog: client operations and crashes

    Each client operation of a running node logs one command and applies it to
    the collections in memory; the node stays related to its database.  A crash at
    rest or between the log append and the application leaves files that stand for
    the old or the new database. *)

From S2P Require Import Prelude Bytes CoreError FileSys Proto External Mapping Document IndexApi Collection.
From S2P Require Import CollectionSpec WalInterface Catalog CatalogSpec CatalogRel CatalogReplay CatalogCommit.
From S2P Require Import CatalogOpen.

Open Scope Z_scope.

Section CatalogOps.
Context `{Json} `{Rfc3339} `{TantivySchema} `{!TantivyIndex} `{!MarkJson} `{UuidApi}.
Context `{WriteAheadLog} `{!Codec v1.CatalogSnapshot}.

(** ** What a crash leaves *)

(** Tantivy commits are atomic and durable, so collection directories survive as
    they are; the catalog files and the log lose unsynced bytes. *)
Definition crash_disk (d d' : Disk) : Prop :=
  crash (files (d_root d)) (files (d_root d'))
  ∧ col_dirs (d_root d') = col_dirs (d_root d) ∧ quarantined (d_root d') = quarantined (d_root d)
  ∧ w_crash (d_wal d) (d_wal d').

(** ** Names keep their collection until they are dropped *)

Lemma step_keeps d c n cl :
  cmd_ok d c → d !! n = Some cl → n ∉ drops [c] →
  ∃ cl', step d c !! n = Some cl' ∧ a_uuid cl' = a_uuid cl ∧ a_mapping cl' = a_mapping cl.
Proof.
  intros Hc Hl Hn. destruct c as [n' u m|n'|n' id src|n' id]; cbn in *.
  - destruct Hc as [Hc _]. rewrite lookup_insert_ne by congruence. eauto.
  - rewrite lookup_delete_ne by (intros ->; set_solver). eauto.
  - destruct (decide (n' = n)) as [->|]; [rewrite lookup_alter_eq, Hl|rewrite lookup_alter_ne by done]; cbn; eauto.
  - destruct (decide (n' = n)) as [->|]; [rewrite lookup_alter_eq, Hl|rewrite lookup_alter_ne by done]; cbn; eauto.
Qed.

Lemma run_keeps d cs n cl :
  cmds_ok d cs → d !! n = Some cl → n ∉ drops cs →
  ∃ cl', run d cs !! n = Some cl' ∧ a_uuid cl' = a_uuid cl ∧ a_mapping cl' = a_mapping cl.
Proof.
  revert d cl. induction cs as [|c cs IH]; intros d cl Hok Hl Hn; cbn; [by eauto|].
  destruct Hok as [Hc Hok]. change (c :: cs) with ([c] ++ cs) in Hn. rewrite drops_app in Hn.
  destruct (step_keeps d c n cl Hc Hl) as (cl1 & H1' & E1 & E2); [set_solver|].
  destruct (IH _ _ Hok H1') as (cl2 & ? & ? & ?); [set_solver|]. exists cl2. split; [done|]. split; congruence.
Qed.

(** The uuid of a created collection identifies it. *)
Definition only_for (d : gmap string coll) (u : Uuid) (n : string) (m : Mapping) : Prop :=
  ∀ n' c', d !! n' = Some c' → a_uuid c' = u → n' = n ∧ a_mapping c' = m.

Lemma only_for_step d c u n m : u ∉ creates [c] → only_for d u n m → only_for (step d c) u n m.
Proof.
  intros Hc Ho n' c' Hl Hu. destruct c as [n0 u0 m0|n0|n0 id src|n0 id]; cbn in *.
  - apply lookup_insert_Some in Hl as [[-> <-]|[_ Hl]]; [cbn in *; set_solver|by eapply Ho].
  - apply lookup_delete_Some in Hl as [_ Hl]. by eapply Ho.
  - destruct (decide (n0 = n')) as [->|]; [|rewrite lookup_alter_ne in Hl by done; by eapply Ho].
    rewrite lookup_alter_eq in Hl. apply fmap_Some in Hl as (c0 & Hc0 & ->). by eapply (Ho n' c0).
  - destruct (decide (n0 = n')) as [->|]; [|rewrite lookup_alter_ne in Hl by done; by eapply Ho].
    rewrite lookup_alter_eq in Hl. apply fmap_Some in Hl as (c0 & Hc0 & ->). by eapply (Ho n' c0).
Qed.

Lemma only_for_run d cs u n m : u ∉ creates cs → only_for d u n m → only_for (run d cs) u n m.
Proof.
  revert d. induction cs as [|c cs IH]; intros d Hu Ho; [done|].
  change (c :: cs) with ([c] ++ cs) in Hu. rewrite creates_app in Hu.
  cbn. apply IH; [set_solver|]. apply only_for_step; [set_solver|done].
Qed.

Lemma created_only_for a s n u m :
  astate_ok a → (s, CCreate n u m) ∈ tail a → only_for (now a) u n m ∧ base_docs a n u = ∅.
Proof.
  intros Hok Hin. apply list_elem_of_split in Hin as (p & q & Ht).
  split; [|eapply (base_docs_created a p s n u m q); [done|]; by rewrite Ht, <-app_assoc].
  pose proof (ao_uuids _ Hok) as Hu. unfold now. rewrite Ht, fmap_app in *. cbn in *.
  apply uuids_ok_run in Hu as (_ & Hnd & Hfresh). rewrite run_app. cbn.
  apply only_for_run.
  - unfold creates in Hnd. cbn in Hnd. by apply NoDup_cons in Hnd as [? _].
  - intros n' c' [[-> <-]|[_ Hl]]%lookup_insert_Some Hu'; [done|].
    destruct (Hfresh u); [left|]. exists n', c'. done.
Qed.

(** ** Stopping a running node *)

(** What [disk_inv] needs of the collection directories. *)
Record dirs_rel (a : astate) (r : Root) : Prop := {
  dl_base : ∀ n c, base a !! n = Some c → n ∉ drops (tail a).*2 →
    dir_ok a (col_dirs r) n (a_uuid c) (a_mapping c) (a_docs c);
  dl_creates : ∀ s n u m, (s, CCreate n u m) ∈ tail a →
    col_dirs r !! u = None ∨ dir_ok a (col_dirs r) n u m ∅
}.

(** The directories of the live collections of [a] serve the longer log of [a'] if
    the new commands create nothing that has a directory. *)
Lemma dirs_rel_intro a a' t r :
  astate_ok a → base a' = base a → tail a' = tail a ++ t →
  (∀ n c, now a !! n = Some c →
    dir_ok a' (col_dirs r) n (a_uuid c) (a_mapping c) (base_docs a n (a_uuid c))) →
  (∀ u, is_Some (col_dirs r !! u) → live (now a) u) →
  (∀ u, u ∈ creates t.*2 → col_dirs r !! u = None) → dirs_rel a' r.
Proof.
  intros Hok Eb Et Hdir Hlive Hnew. split.
  - rewrite Eb, Et, fmap_app, drops_app. intros n c Hc Hn.
    destruct (run_keeps _ _ _ _ (ao_cmds _ Hok) Hc) as (c' & Hc' & Eu & Em); [set_solver|].
    pose proof (Hdir n c' Hc') as Hdi. rewrite Eu, Em in Hdi. unfold base_docs in Hdi.
    by rewrite Hc, decide_True in Hdi.
  - rewrite Et. intros s n u m [Hin|Hin]%elem_of_app.
    + destruct (created_only_for a s n u m Hok Hin) as [Ho Hb].
      destruct (col_dirs r !! u) as [x|] eqn:Hx; [right|by left].
      destruct (Hlive u) as (n' & c & Hc & Hu); [by eauto|]. destruct (Ho n' c Hc Hu) as [-> Hm].
      pose proof (Hdir n c Hc) as Hdi. by rewrite Hu, Hm, Hb in Hdi.
    + left. apply Hnew, list_elem_of_omap. exists (CCreate n u m). split; [|done].
      apply list_elem_of_fmap. by exists (s, CCreate n u m).
Qed.

(** Directories of a loaded catalog whose commits are at the snapshot or at the end. *)
Lemma loaded_dirs a st :
  astate_ok a →
  loaded (last a) (now a) (λ n c D k, commit_ok a n (a_uuid c) (a_mapping c) (base_docs a n (a_uuid c)) k D) st →
  (∀ u, is_Some (col_dirs (root st) !! u) → live (now a) u) → dirs_rel a (root st).
Proof.
  intros Hok Hl Hd. apply (dirs_rel_intro a a []); [done|done|by rewrite app_nil_r| |done|by intros ? ?%elem_of_nil].
  intros n c Hc. destruct (collections (cat st) !! n) as [e|] eqn:He.
  - destruct (lo_some _ _ _ _ Hl _ _ He) as (c' & D & k & Hc' & (Eu & Hz & index & Hdi & Hrep & Hk) & Hco).
    assert (c' = c) as -> by congruence. exists index, k, D.
    split; [done|]. split; [apply Hrep|]. split; [done|]. split; [apply Hrep|done].
  - apply (lo_none _ _ _ _ Hl) in He. congruence.
Qed.

Lemma cat_rel_loaded st a :
  cat_rel st a →
  loaded (last a) (now a) (λ n c D k, D = base_docs a n (a_uuid c) ∧ k ≤ applied a) st.
Proof.
  intros Hr. split; [|apply Hr]. intros n e He.
  destruct (ca_some _ _ Hr _ _ He) as (c & Hc & Eu & Hz & index & k & Hd & Hrep & Hk & Hle).
  exists c, (base_docs a n (a_uuid c)), k. split; [done|]. split; [|done].
  split; [done|]. split; [done|]. exists index. done.
Qed.

Lemma cat_rel_dirs st a : cat_rel st a → dirs_rel a (root st).
Proof.
  intros Hr. apply loaded_dirs; [apply Hr| |apply Hr].
  eapply loaded_impl; [|by apply cat_rel_loaded]. cbn. intros n c D k _ [-> ?]. by left.
Qed.

Lemma filter_above fl A (es : list v1.WalEntry) :
  fl ≤ A → filter (λ e, A < v1.seq e) (filter (λ e, fl < v1.seq e) es) = filter (λ e, A < v1.seq e) es.
Proof. intros Hle. rewrite list_filter_filter. apply list_filter_iff. intros; lia. Qed.

(** A crash of files that stand for [a]. *)
Lemma crash_disk_inv a st es fl d :
  astate_ok a → snapshot_ok (files (root st)) a → dirs_rel a (root st) →
  quarantine_ok (root st) (tail a).*2 →
  w_rel (c_wal (cat st)) es fl (last a) → fl ≤ applied a →
  filter (λ e, applied a < v1.seq e) es = entries_of (tail a) →
  crash_disk (disk_of st) d → disk_inv d a.
Proof.
  intros Hok Hsn [Hb Hc] Hq Hw Hfl Hes (Hcf & Hcd & Hcq & Hcw). cbn in *.
  destruct (w_recover _ _ _ _ _ Hw Hcw) as (w' & es' & Eo & Hw' & Hf). split; try done.
  - by eapply snapshot_ok_crash.
  - exists w', es'. split; [done|]. split; [done|]. by rewrite <-(filter_above fl), Hf.
  - by rewrite Hcd.
  - by rewrite Hcd.
  - intros u s. rewrite Hcq, Hcd. apply Hq.
Qed.

Lemma cat_rel_crash st a d : cat_rel st a → crash_disk (disk_of st) d → disk_inv d a.
Proof.
  intros Hr. destruct (ca_wal _ _ Hr) as (es & fl & Hw & Hfl & Hes).
  eapply crash_disk_inv; [apply Hr|apply Hr|by apply cat_rel_dirs|apply Hr|done..].
Qed.

(** ** Logging a command *)

(** The state after one more command has been logged. *)
Definition push (a : astate) (c : cmd) : astate :=
  {| base := base a; applied := applied a; tail := tail a ++ [(last a + 1, c)]; last := last a + 1 |}.

Lemma now_push a c : now (push a c) = step (now a) c.
Proof. unfold now, push. cbn [base tail]. by rewrite fmap_app, run_app. Qed.

(** The uuid has never been used. *)
Definition new_uuid (a : astate) (r : Root) (u : Uuid) : Prop :=
  ¬ live (base a) u ∧ u ∉ creates (tail a).*2 ∧ ∀ s, quarantined r !! (u, s) = None.

(** What the operation that logs [c] ensures. *)
Definition can_log (a : astate) (r : Root) (c : cmd) : Prop :=
  cmd_ok (now a) c ∧ (∀ u, u ∈ creates [c] → new_uuid a r u)
  ∧ last a + 2 < two64 ∧ w_fits (wal_entry (last a + 1) (op_of c)).

Lemma push_ok a r c : astate_ok a → can_log a r c → astate_ok (push a c).
Proof.
  intros [Hc Hu Hs Ha Hl Hb] (Hcmd & Hnew & _). split; cbn.
  - rewrite fmap_app, cmds_ok_app. by split_and!.
  - rewrite fmap_app. destruct Hu as (Hi & Hnd & Hf). cbn. split_and!; [done|..]; rewrite creates_app.
    + apply NoDup_app. split_and!; [done| |].
      * intros u Hin Hin'. by destruct (Hnew u Hin') as (_ & ? & _).
      * unfold creates. destruct c; cbn; try constructor; [by apply not_elem_of_nil|constructor].
    + intros u [Hin|Hin]%elem_of_app; [by apply Hf|]. by destruct (Hnew u Hin).
  - apply Forall_app. split; [eapply Forall_impl; [exact Hs|]; cbn; lia|].
    repeat constructor; cbn; lia.
  - lia.
  - right. rewrite fmap_app. set_solver.
  - done.
Qed.

Lemma snapshot_ok_push d a c : snapshot_ok d a → snapshot_ok d (push a c).
Proof.
  assert (Hrep : ∀ snap, snap_rep snap a → snap_rep snap (push a c)).
  { intros snap (? & l & ? & ? & ? & Hz). split; [done|]. exists l. split_and!; try done.
    eapply Forall_impl; [exact Hz|]. cbn. lia. }
  intros [[? ?]|(f & snap & ? & ? & ? & ?)]; [left|right]; [by auto|].
  exists f, snap. split_and!; auto.
Qed.

Lemma wal_push a c es fl :
  astate_ok a → fl ≤ applied a → filter (λ e, applied a < v1.seq e) es = entries_of (tail a) →
  filter (λ e, applied a < v1.seq e) (es ++ [wal_entry (last a + 1) (op_of c)])
  = entries_of (tail (push a c)).
Proof.
  intros Hok Hfl Hes. pose proof (ao_applied _ Hok). unfold entries_of. cbn. rewrite filter_app, Hes, fmap_app.
  rewrite filter_cons_True by (cbn; lia). done.
Qed.

(** The node after [next_seq] and a successful append. *)
Definition logged (st : CatSt) (w : wal) (z : Z) : CatSt :=
  {| cat := {| c_seq := z; c_wal := w; collections := collections (cat st) |}; root := root st |}.

Definition log_ok (a : astate) (w : wal) : Prop :=
  ∃ es fl, w_rel w es fl (last a) ∧ fl ≤ applied a
    ∧ filter (λ e, applied a < v1.seq e) es = entries_of (tail a).

Lemma log_cmd {A} st a c (k : Z → M CatSt Error A) :
  cat_rel st a → can_log a (root st) c →
  ∃ w, (seq ← next_seq; on_wal (w_append (wal_entry seq (op_of c)));; k seq) st
       = k (last a + 1) (logged st w (last a + 1))
    ∧ log_ok (push a c) w.
Proof.
  intros Hr (Hc & Hn & Hroom & Hfit). destruct (ca_wal _ _ Hr) as (es & fl & Hw & Hfl & Hes).
  pose proof (ao_applied _ (ca_ok _ _ Hr)).
  destruct (w_append_ok _ _ _ _ (wal_entry (last a + 1) (op_of c)) Hw eq_refl Hroom Hfit) as (w & Ew & Hw').
  exists w. split; [|exists (es ++ [wal_entry (last a + 1) (op_of c)]), fl; split_and!; try done].
  2: { exact (wal_push a c es fl (ca_ok _ _ Hr) Hfl Hes). }
  assert (Eseq : next_seq st = (Ok (last a + 1), {| cat := set_seq (last a + 1) (cat st); root := root st |})).
  { unfold next_seq. mpure. mpure. rewrite (ca_seq _ _ Hr), wrap64_small; [done|].
    unfold is_u64. lia. }
  rewrite (M_bind_Ok _ _ _ _ _ Eseq). by erewrite M_bind_Ok; [|by apply on_wal_ok].
Qed.

(** Assembling the relation after the application in memory. *)
Lemma cat_rel_push st a c w st' :
  cat_rel st a → can_log a (root st) c → log_ok (push a c) w →
  c_seq (cat st') = last a + 1 → c_wal (cat st') = w → files (root st') = files (root st) →
  (∀ n e, collections (cat st') !! n = Some e →
    ∃ cl, step (now a) c !! n = Some cl ∧ running_ok (push a c) (col_dirs (root st')) n e cl) →
  (∀ n, collections (cat st') !! n = None → step (now a) c !! n = None) →
  (∀ u, is_Some (col_dirs (root st') !! u) → live (step (now a) c) u) →
  quarantine_ok (root st') (tail (push a c)).*2 → cat_rel st' (push a c).
Proof.
  intros Hr Hc Hlog Hs Hw Hf Hsome Hnone Hd Hq. split; rewrite ?now_push, ?Hf, ?Hw; try done.
  - by eapply push_ok; [apply Hr|].
  - apply snapshot_ok_push, Hr.
Qed.

Lemma running_push a c dirs n e cl : running_ok a dirs n e cl → running_ok (push a c) dirs n e cl.
Proof. intros (? & ? & ?). split; [done|]. split; [cbn; lia|done]. Qed.

(** ** Crashes while a command is logged *)

Lemma new_uuid_unused st a u :
  cat_rel st a → new_uuid a (root st) u → ¬ live (now a) u ∧ col_dirs (root st) !! u = None.
Proof.
  intros Hr (Hb & Ht & _).
  assert (Hgen : ∀ cs d, live (run d cs) u → live d u ∨ u ∈ creates cs).
  { induction cs as [|x cs IH]; intros d Hl; [by left|]. change (x :: cs) with ([x] ++ cs).
    rewrite creates_app. destruct (IH _ Hl) as [[?|?]%live_step|?]; set_solver. }
  assert (Hl : ¬ live (now a) u) by (by intros [?|?]%Hgen).
  split; [done|]. apply eq_None_not_Some. by intros ?%(ca_dirs _ _ Hr).
Qed.

Lemma push_dirs st a c :
  cat_rel st a → can_log a (root st) c → dirs_rel (push a c) (root st).
Proof.
  intros Hr (_ & Hn & _). eapply (dirs_rel_intro a (push a c) [_]); [apply Hr|done|done| |apply Hr|].
  - intros n cl Hcl. destruct (collections (cat st) !! n) as [e|] eqn:He.
    + destruct (ca_some _ _ Hr _ _ He) as (c' & Hc' & Eu & Hz & index & k & Hd & Hrep & Hk & Hle).
      assert (c' = cl) as -> by congruence. exists index, k, (base_docs a n (a_uuid cl)).
      split; [done|]. split; [apply Hrep|]. split; [done|]. split; [apply Hrep|]. by left.
    + apply (ca_none _ _ Hr) in He. congruence.
  - intros u Hin. by apply (new_uuid_unused st a), Hn.
Qed.

Lemma push_quar a r c :
  quarantine_ok r (tail a).*2 → (∀ u, u ∈ creates [c] → new_uuid a r u) →
  quarantine_ok r (tail (push a c)).*2.
Proof.
  intros Hq Hn u s Hs. destruct (Hq u s Hs) as [? ?]. split; [done|]. cbn [push tail].
  rewrite fmap_app, creates_app. intros [?|Hin]%elem_of_app; [done|].
  destruct (Hn u Hin) as (_ & _ & Hs'). rewrite Hs' in Hs. by destruct Hs.
Qed.

(** Between the append and the application in memory. *)
Lemma crash_logged st a c w d :
  cat_rel st a → can_log a (root st) c → log_ok (push a c) w →
  crash_disk (disk_of (logged st w (last a + 1))) d → disk_inv d (push a c).
Proof.
  intros Hr Hc (es & fl & Hw & Hfl & Hes) Hcr.
  eapply (crash_disk_inv (push a c) (logged st w (last a + 1))); [|apply snapshot_ok_push, Hr|exact (push_dirs _ _ _ Hr Hc)| |done..].
  - by eapply push_ok; [apply Hr|].
  - apply push_quar; [apply Hr|apply Hc].
Qed.

(** In the middle of the append. *)
Lemma crash_logging st a c d :
  cat_rel st a → can_log a (root st) c →
  crash (files (root st)) (files (d_root d)) → col_dirs (d_root d) = col_dirs (root st) →
  quarantined (d_root d) = quarantined (root st) →
  w_crash_in_append (wal_entry (last a + 1) (op_of c)) (c_wal (cat st)) (d_wal d) →
  disk_inv d a ∨ disk_inv d (push a c).
Proof.
  intros Hr Hc Hcf Hcd Hcq Hcw. destruct (ca_wal _ _ Hr) as (es & fl & Hw & Hfl & Hes).
  pose proof Hc as (_ & Hn & Hroom & Hfit). pose proof (push_ok _ _ _ (ca_ok _ _ Hr) Hc) as Hok.
  destruct (w_recover_append _ _ _ _ (wal_entry (last a + 1) (op_of c)) _ Hw eq_refl Hroom Hfit Hcw)
    as (w' & es' & last' & Eo & Hw' & [[Hf ->]|[Hf ->]]); [left|right].
  - destruct (cat_rel_dirs _ _ Hr) as [Hb Hcs].
    split; rewrite ?Hcd; try apply Hr; try done; [eapply snapshot_ok_crash; [done|apply Hr]| |].
    + exists w', es'. split; [done|]. split; [done|]. by rewrite <-(filter_above fl), Hf.
    + intros u s. rewrite Hcq, Hcd. apply Hr.
  - destruct (push_dirs _ _ _ Hr Hc) as [Hb Hcs].
    split; rewrite ?Hcd; try done; [eapply snapshot_ok_crash; [done|apply snapshot_ok_push, Hr]| |].
    + exists w', es'. split; [done|]. split; [done|]. cbn [applied push].
      rewrite <-(filter_above fl), Hf by done. exact (wal_push a c es fl (ca_ok _ _ Hr) Hfl Hes).
    + intros u s. rewrite Hcq, Hcd. apply push_quar; [apply Hr|done].
Qed.

(** ** Document operations in memory *)

(** A method of collection [n] that changes its documents by [f] in the writer
    only, after [c] has been logged. *)
Lemma doc_cmd {A} st a c w n e cl f (m : M ColSt Error A) r :
  cat_rel st a → can_log a (root st) c → log_ok (push a c) w →
  step (now a) c = alter (set_docs f) n (now a) → creates [c] = [] →
  collections (cat st) !! n = Some e → now a !! n = Some cl →
  (∀ s D g, col_rep s (a_mapping cl) D g → D = base_docs a n (a_uuid cl) →
    ∃ s', m s = (Ok r, s') ∧ col_rep s' (a_mapping cl) D (f g) ∧ on_disk s' = on_disk s) →
  ∃ st', on_col n m (logged st w (last a + 1)) = (Ok r, st') ∧ cat_rel st' (push a c).
Proof.
  intros Hr Hc Hlog Estep Ecr He Hcl Hm.
  destruct (ca_some _ _ Hr _ _ He) as (cl' & Hcl' & Eu & Hz & index & k & Hd & Hrep & Hk & Hle).
  assert (cl' = cl) as -> by congruence.
  destruct (Hm _ _ _ Hrep eq_refl) as ([c' i'] & Em & Hrep' & Edisk). cbn in Edisk. subst i'.
  exists (put_col (logged st w (last a + 1)) n e {| col := c'; on_disk := index |}).
  split; [eapply on_col_ok; cbn; [done|by rewrite Eu|done]|].
  assert (Edirs : <[e_uuid e := Some index]> (col_dirs (root st)) = col_dirs (root st))
    by (apply insert_id; by rewrite Eu).
  eapply (cat_rel_push st a c w); cbn; rewrite ?Edirs, ?Estep; try done.
  - intros n' e' [[<- <-]|[Hne He']]%lookup_insert_Some.
    + rewrite lookup_alter_eq, Hcl. eexists. split; [done|]. split; [done|]. cbn. split; [lia|].
      by exists index, k.
    + rewrite lookup_alter_ne by done. destruct (ca_some _ _ Hr _ _ He') as (c2 & ? & ?).
      exists c2. split; [done|]. by apply running_push.
  - intros n' [Hn' Hne]%lookup_insert_None. rewrite lookup_alter_ne by done. by apply Hr.
  - intros u (n' & c2 & Hc2 & Eu2)%(ca_dirs _ _ Hr). unfold live.
    destruct (decide (n = n')) as [<-|Hne].
    + exists n, (set_docs f c2). by rewrite lookup_alter_eq, Hc2.
    + exists n', c2. by rewrite lookup_alter_ne.
  - intros u s. exact (push_quar a (root st) c (ca_quar _ _ Hr) (proj1 (proj2 Hc)) u s).
Qed.

(** ** Creating and dropping collections in memory *)

Lemma base_docs_fresh a n u : ¬ live (base a) u → base_docs a n u = ∅.
Proof.
  intros Hu. unfold base_docs. destruct (base a !! n) as [c|] eqn:Hc; [|done].
  case_decide; [|done]. destruct Hu. by exists n, c.
Qed.

Lemma create_cmd st a n u m w :
  cat_rel st a → can_log a (root st) (CCreate n u m) → log_ok (push a (CCreate n u m)) w →
  ∃ col st', install_collection n u m (last a + 1) (logged st w (last a + 1)) = (Ok col, st')
    ∧ c_mapping col = m ∧ cat_rel st' (push a (CCreate n u m)).
Proof.
  intros Hr Hc Hlog. pose proof Hc as ([Hn Hv] & Hnew & _).
  assert (Hu : new_uuid a (root st) u) by (apply Hnew; left).
  destruct (new_uuid_unused _ _ _ Hr Hu) as [Hl Hdir].
  rewrite install_new by done. eexists _, _. split_and!; [done|done|].
  eapply (cat_rel_push st a _ w); cbn; try done.
  - intros n' e' [[<- <-]|[Hne He']]%lookup_insert_Some.
    + rewrite lookup_insert_eq. eexists. split; [done|]. split; [done|]. cbn. split; [lia|].
      exists (create_in_dir (schema_of m)), 0. rewrite !lookup_insert_eq. split; [done|].
      split; [|split; [exists None; unfold committed_mark_of; by rewrite create_payload|apply Hr]].
      change (base_docs (push a _) n u) with (base_docs a n u). rewrite base_docs_fresh by apply Hu.
      by apply col_rep_create.
    + rewrite lookup_insert_ne by done.
      destruct (ca_some _ _ Hr _ _ He') as (c2 & Hc2 & Eu & Hz & index & k & Hd & ?).
      exists c2. split; [done|]. apply running_push. split; [done|]. split; [done|]. exists index, k.
      rewrite !lookup_insert_ne; [done|..]; intros ->; apply Hl; by exists n', c2.
  - intros n' [Hn' Hne]%lookup_insert_None. rewrite lookup_insert_ne by done. by apply Hr.
  - intros u' Hu'. destruct (decide (u = u')) as [->|Hne].
    + exists n. eexists. by rewrite lookup_insert_eq.
    + rewrite !lookup_insert_ne in Hu' by done. destruct (ca_dirs _ _ Hr _ Hu') as (n' & c2 & Hc2 & ?).
      exists n', c2. rewrite lookup_insert_ne; [done|]. intros ->. congruence.
  - intros u' s Hs. pose proof (push_quar a (root st) _ (ca_quar _ _ Hr) Hnew u' s Hs) as [Hd' ?].
    split; [|done]. cbn. rewrite !lookup_insert_ne; [done|..]; intros ->;
      destruct Hu as (_ & _ & Hq); rewrite Hq in Hs; by destruct Hs.
Qed.

Lemma drop_cmd st a n e cl w :
  cat_rel st a → can_log a (root st) (CDrop n) → log_ok (push a (CDrop n)) w →
  collections (cat st) !! n = Some e → now a !! n = Some cl →
  ∃ st', (on_cat (λ c, set_collections (delete n (collections c)) c);; drop_dir (e_uuid e))
           (logged st w (last a + 1)) = (Ok tt, st')
    ∧ cat_rel st' (push a (CDrop n)).
Proof.
  intros Hr Hc Hlog He Hcl.
  destruct (ca_some _ _ Hr _ _ He) as (cl' & Hcl' & Eu & _). assert (cl' = cl) as -> by congruence.
  mpure. eexists. split; [done|]. eapply (cat_rel_push st a _ w); cbn; try done.
  - intros n' e' [Hne He']%lookup_delete_Some. rewrite lookup_delete_ne by done.
    destruct (ca_some _ _ Hr _ _ He') as (c2 & Hc2 & Eu2 & Hz & index & k & Hd & ?).
    exists c2. split; [done|]. apply running_push. split; [done|]. split; [done|]. exists index, k.
    rewrite lookup_delete_ne; [done|]. rewrite Eu. intros E. apply Hne.
    exact (inj_now _ (ca_ok _ _ Hr) _ _ _ _ Hcl Hc2 E).
  - intros n' [Hn'|Hne]%lookup_delete_None; [by subst; rewrite lookup_delete_eq|].
    apply lookup_delete_None. right. by apply Hr.
  - intros u' [x Hu']. apply lookup_delete_Some in Hu' as [Hne Hu'].
    destruct (ca_dirs _ _ Hr u') as (n' & c2 & Hc2 & Eu2); [by eauto|]. exists n', c2.
    rewrite lookup_delete_ne; [done|]. intros <-. congruence.
  - intros u' s Hs. pose proof (push_quar a (root st) _ (ca_quar _ _ Hr) (proj1 (proj2 Hc)) u' s Hs) as [Hd' ?].
    split; [|done]. cbn. apply lookup_delete_None. by right.
Qed.
End CatalogOps.
