(* ===== verification/CatalogCalls.v ===== *)
(** * The catalog: what its clients are promised

    [call_run] runs a method of the catalog; [call_spec] is its specification on
    the abstract state: the reply, every error included, and the next state.  Reads
    see the documents of the last checkpoint, writes go to the log. *)

From S2P Require Import Prelude Bytes CoreError FileSys Proto External Mapping Document IndexApi Collection.
From S2P Require Import CollectionSpec WalInterface Catalog CatalogSpec CatalogRel CatalogReplay CatalogCommit.
From S2P Require Import CatalogOpen CatalogOps.

Open Scope Z_scope.

Section CatalogCalls.
Context `{Json} `{Rfc3339} `{TantivySchema} `{!TantivyIndex} `{!MarkJson} `{UuidApi}.
Context `{WriteAheadLog} `{!Codec v1.CatalogSnapshot}.

(** The public methods of a single node. *)
Inductive call :=
| CallCreate (fresh : Uuid) (name : string) (mapping : Mapping)
| CallDrop (name : string)
| CallUpsert (fresh : Uuid) (collection : string) (id : option string) (source : list byte)
| CallGet (collection id : string)
| CallDelete (collection id : string)
| CallDescribe (name : string)
| CallList
| CallCheckpoint.

Inductive reply :=
| RCreated (mapping : Mapping) (new : bool)
| RDone
| RUpserted (id : string) (created : bool)
| RSource (source : list byte)
| RDeleted (existed : bool)
| RMapping (mapping : Mapping)
| RNames (names : list string).

Definition call_run (c : call) : M CatSt Error reply :=
  match c with
  | CallCreate fresh name mapping =>
      r ← create fresh name mapping; mret (RCreated (c_mapping (created_collection r)) (created_new r))
  | CallDrop name => drop_collection name;; mret RDone
  | CallUpsert fresh collection id source =>
      r ← upsert_document fresh collection id source;
      mret (RUpserted (upserted_id r) (upserted_created r))
  | CallGet collection id => r ← get_document collection id; mret (RSource r)
  | CallDelete collection id => r ← delete_document collection id; mret (RDeleted r)
  | CallDescribe name => r ← describe name; mret (RMapping r)
  | CallList => r ← list_names; mret (RNames r)
  | CallCheckpoint => checkpoint;; mret RDone
  end.

(** ** The specification *)

(** The committed documents of collection [cl] named [n]. *)
Definition readable (a : astate) (n : string) (cl : coll) : docs_map := base_docs a n (a_uuid cl).

Definition with_coll (a : astate) (n : string) (f : coll → result Error reply * astate) :
    result Error reply * astate :=
  match now a !! n with
  | Some cl => f cl
  | None => (Err (CollectionNotFound n), a)
  end.

Definition call_spec (a : astate) (c : call) : result Error reply * astate :=
  match c with
  | CallCreate fresh n m =>
      match validate_name n, now a !! n with
      | Ok _, Some cl =>
          if decide (a_mapping cl = m) then (Ok (RCreated m false), a)
          else (Err (SchemaConflict n), a)
      | Ok _, None => (Ok (RCreated m true), push a (CCreate n fresh m))
      | Err e, _ => (Err e, a)
      | Panic w, _ => (Panic w, a)
      end
  | CallDrop n => with_coll a n (λ _, (Ok RDone, push a (CDrop n)))
  | CallUpsert fresh n oid src => with_coll a n (λ cl,
      let id := or_new_id fresh oid in
      match from_slice src with
      | None => (Err (Validation (Msg "invalid JSON: {e}" [])), a)
      | Some v =>
          match validate_document (a_mapping cl) v with
          | Ok _ => (Ok (RUpserted id (bool_decide (readable a n cl !! id = None))),
                     push a (CIndex n id src))
          | Err e => (Err e, a)
          | Panic w => (Panic w, a)
          end
      end)
  | CallGet n id => with_coll a n (λ cl,
      match readable a n cl !! id with
      | Some src => (Ok (RSource src), a)
      | None => (Err (DocumentNotFound id), a)
      end)
  | CallDelete n id => with_coll a n (λ cl,
      (Ok (RDeleted (bool_decide (is_Some (readable a n cl !! id)))), push a (CDelete n id)))
  | CallDescribe n => with_coll a n (λ cl, (Ok (RMapping (a_mapping cl)), a))
  | CallList => (Ok (RNames (merge_sort String.le (map_to_list (now a)).*1)), a)
  | CallCheckpoint => (Ok RDone, checkpointed a)
  end.

(** What the caller and the environment provide: fresh uuids, ids short enough to
    be indexed, room in the log. *)
Definition call_cmd (c : call) : option cmd :=
  match c with
  | CallCreate fresh n m => Some (CCreate n fresh m)
  | CallDrop n => Some (CDrop n)
  | CallUpsert fresh n oid src => Some (CIndex n (or_new_id fresh oid) src)
  | CallDelete n id => Some (CDelete n id)
  | _ => None
  end.

Definition call_ok (a : astate) (r : Root) (c : call) : Prop :=
  match c with
  | CallCreate fresh n m => mapping_ok m ∧ new_uuid a r fresh
  | CallUpsert fresh n oid src => id_ok (or_new_id fresh oid)
  | CallGet n id | CallDelete n id => id_ok id
  | _ => True
  end ∧
  match call_cmd c with
  | Some cm => last a + 2 < two64 ∧ w_fits (wal_entry (last a + 1) (op_of cm))
  | None => True
  end.

(** ** Lookups *)

Lemma rel_lookup st a n :
  cat_rel st a →
  match now a !! n with
  | Some cl => ∃ e, collections (cat st) !! n = Some e ∧ running_ok a (col_dirs (root st)) n e cl
  | None => collections (cat st) !! n = None
  end.
Proof.
  intros Hr. destruct (collections (cat st) !! n) as [e|] eqn:He.
  - destruct (ca_some _ _ Hr _ _ He) as (cl & -> & ?). by exists e.
  - by rewrite (ca_none _ _ Hr _ He).
Qed.

Lemma running_mapping a dirs n e cl : running_ok a dirs n e cl → c_mapping (e_collection e) = a_mapping cl.
Proof. intros (_ & _ & index & k & _ & Hrep & _). apply (cr_mapping _ _ _ _ Hrep). Qed.

Lemma get_ok st n e : collections (cat st) !! n = Some e → catalog_get n st = (Ok e, st).
Proof. intros He. unfold catalog_get, lookup_entry. mpure. unfold lift. by rewrite He. Qed.

Lemma get_missing st n :
  collections (cat st) !! n = None → catalog_get n st = (Err (CollectionNotFound n), st).
Proof. intros He. unfold catalog_get, lookup_entry. mpure. unfold lift. by rewrite He. Qed.

(** A method that first looks up collection [n]. *)
Lemma with_coll_refines st a n (m : Entry → M CatSt Error reply) f :
  cat_rel st a →
  (∀ e cl, collections (cat st) !! n = Some e → now a !! n = Some cl →
    running_ok a (col_dirs (root st)) n e cl →
    ∃ st', m e st = ((f cl).1, st') ∧ cat_rel st' (f cl).2) →
  ∃ st', (catalog_get n ≫= m) st = ((with_coll a n f).1, st') ∧ cat_rel st' (with_coll a n f).2.
Proof.
  intros Hr Hm. pose proof (rel_lookup st a n Hr) as Hl. unfold with_coll.
  destruct (now a !! n) as [cl|].
  - destruct Hl as (e & He & Hrun). rewrite (M_bind_Ok _ _ _ _ _ (get_ok _ _ _ He)). by apply Hm.
  - rewrite (M_bind_Err _ _ _ _ _ (get_missing _ _ Hl)). by exists st.
Qed.

(** ** Writes *)

Lemma create_refines st a fresh n m :
  cat_rel st a → call_ok a (root st) (CallCreate fresh n m) →
  ∃ st', call_run (CallCreate fresh n m) st = ((call_spec a (CallCreate fresh n m)).1, st')
    ∧ cat_rel st' (call_spec a (CallCreate fresh n m)).2.
Proof.
  intros Hr [[Hv Hu] [Hroom Hfit]]. cbn [call_run call_spec]. unfold create.
  destruct (validate_name n) as [[]|e|w]; [|by exists st..].
  pose proof (rel_lookup st a n Hr) as Hl. destruct (now a !! n) as [cl|] eqn:Hcl.
  - destruct Hl as (e & He & Hrun). apply running_mapping in Hrun as Em. exists st.
    unfold check_create, lookup_entry, mbind, M_bind, lift, get, mret, M_ret. cbn. rewrite He, Em.
    case_decide as Hd; [|done]. cbn. by rewrite Em, Hd.
  - assert (Hc : can_log a (root st) (CCreate n fresh m)).
    { split; [done|]. split; [|done]. intros u [= ->]%list_elem_of_singleton. done. }
    destruct (log_cmd st a (CCreate n fresh m) (λ seq,
       c ← install_collection n fresh m seq; mret {| created_collection := c; created_new := true |}) Hr Hc)
      as (w & E & Hlog).
    destruct (create_cmd st a n fresh m w Hr Hc Hlog) as (c & st' & Ei & Em & Hr').
    exists st'. split; [|done]. unfold check_create, lookup_entry. erewrite M_bind_Ok.
    2: { mpure. erewrite M_bind_Ok; [|mpure; rewrite Hl; reflexivity]. etrans; [exact E|].
         erewrite M_bind_Ok; [reflexivity|exact Ei]. }
    cbn. by rewrite Em.
Qed.

Lemma drop_refines st a n :
  cat_rel st a → call_ok a (root st) (CallDrop n) →
  ∃ st', call_run (CallDrop n) st = ((call_spec a (CallDrop n)).1, st')
    ∧ cat_rel st' (call_spec a (CallDrop n)).2.
Proof.
  intros Hr [_ [Hroom Hfit]]. cbn [call_run call_spec]. unfold drop_collection. rewrite M_bind_assoc.
  apply with_coll_refines; [done|]. intros e cl He Hcl Hrun.
  assert (Hc : can_log a (root st) (CDrop n)).
  { split; [by exists cl|]. split; [by intros ? ?%elem_of_nil|done]. }
  destruct (log_cmd st a (CDrop n) (λ _,
     on_cat (λ c, set_collections (delete n (collections c)) c);; drop_dir (e_uuid e)) Hr Hc)
    as (w & E & Hlog).
  destruct (drop_cmd st a n e cl w Hr Hc Hlog He Hcl) as (st' & Ed & Hr').
  exists st'. split; [|done]. by erewrite M_bind_Ok; [|etrans; [exact E|exact Ed]].
Qed.

Lemma upsert_refines st a fresh n oid src :
  cat_rel st a → call_ok a (root st) (CallUpsert fresh n oid src) →
  ∃ st', call_run (CallUpsert fresh n oid src) st = ((call_spec a (CallUpsert fresh n oid src)).1, st')
    ∧ cat_rel st' (call_spec a (CallUpsert fresh n oid src)).2.
Proof.
  intros Hr [Hid [Hroom Hfit]]. cbn [call_run call_spec]. unfold upsert_document, check_document.
  rewrite M_bind_assoc, M_bind_assoc. apply with_coll_refines; [done|]. intros e cl He Hcl Hrun.
  rewrite (running_mapping _ _ _ _ _ Hrun). rewrite !M_bind_assoc.
  destruct (from_slice src) as [v|] eqn:Ev; [mpure|by exists st].
  rewrite !M_bind_assoc. destruct (validate_document (a_mapping cl) v) as [[]|err|why] eqn:Eval; [mpure|by exists st..].
  set (id := or_new_id fresh oid) in *. mpure.
  assert (Hc : can_log a (root st) (CIndex n id src)).
  { split; [exists cl, v; by split_and!|]. split; [by intros ? ?%elem_of_nil|done]. }
  destruct (log_cmd st a (CIndex n id src) (λ _, created ← on_col n (apply_upsert id src v);
     mret {| upserted_id := id; upserted_created := created |}) Hr Hc) as (w & E & Hlog).
  destruct (doc_cmd st a (CIndex n id src) w n e cl <[id := src]> (apply_upsert id src v)
    (bool_decide (readable a n cl !! id = None)) Hr Hc Hlog) as (st' & Eu & Hr'); try done.
  { intros s D g Hrep ->. destruct (upsert_rep s _ _ g id src v Hrep Eval Hid) as (s' & ? & ? & ? & _).
    by exists s'. }
  exists st'. split; [|done]. erewrite M_bind_Ok; [|etrans; [exact E|]; erewrite M_bind_Ok; [reflexivity|exact Eu]].
  done.
Qed.

Lemma delete_refines st a n id :
  cat_rel st a → call_ok a (root st) (CallDelete n id) →
  ∃ st', call_run (CallDelete n id) st = ((call_spec a (CallDelete n id)).1, st')
    ∧ cat_rel st' (call_spec a (CallDelete n id)).2.
Proof.
  intros Hr [Hid [Hroom Hfit]]. cbn [call_run call_spec]. unfold delete_document. rewrite M_bind_assoc.
  apply with_coll_refines; [done|]. intros e cl He Hcl Hrun.
  assert (Hc : can_log a (root st) (CDelete n id)).
  { split; [split; [by exists cl|done]|]. split; [by intros ? ?%elem_of_nil|done]. }
  destruct (log_cmd st a (CDelete n id) (λ _, on_col n (apply_delete id)) Hr Hc) as (w & E & Hlog).
  destruct (doc_cmd st a (CDelete n id) w n e cl (delete id) (apply_delete id)
    (bool_decide (is_Some (readable a n cl !! id))) Hr Hc Hlog) as (st' & Eu & Hr'); try done.
  { intros s D g Hrep ->. destruct (delete_rep s _ _ g id Hrep Hid) as (s' & ? & ? & ? & _). by exists s'. }
  exists st'. split; [|done]. by erewrite M_bind_Ok; [|etrans; [exact E|exact Eu]].
Qed.

(** ** Reads *)

Lemma get_refines st a n id :
  cat_rel st a → call_ok a (root st) (CallGet n id) →
  ∃ st', call_run (CallGet n id) st = ((call_spec a (CallGet n id)).1, st')
    ∧ cat_rel st' (call_spec a (CallGet n id)).2.
Proof.
  intros Hr [Hid _]. cbn [call_run call_spec]. unfold get_document. rewrite M_bind_assoc.
  apply with_coll_refines; [done|]. intros e cl He Hcl (Eu & Hz & index & k & Hd & Hrep & Hk).
  pose proof (source_rep _ _ _ _ id Hrep Hid) as Es.
  assert (E : on_col n (source id) st = (Ok (readable a n cl !! id), st)).
  { erewrite on_col_ok; [|done|by rewrite Eu|done]. f_equal. apply put_col_same; [done|by rewrite Eu]. }
  exists st. rewrite M_bind_assoc, (M_bind_Ok _ _ _ _ _ E). by destruct (readable a n cl !! id).
Qed.

Lemma rel_names st a : cat_rel st a → (map_to_list (collections (cat st))).*1 ≡ₚ (map_to_list (now a)).*1.
Proof.
  intros Hr. apply NoDup_Permutation; [apply NoDup_fst_map_to_list..|]. intros n.
  assert (Hdom : ∀ {B} (m : gmap string B), n ∈ (map_to_list m).*1 ↔ is_Some (m !! n)).
  { intros B m. rewrite list_elem_of_fmap. split.
    - intros ([k x] & -> & Hin%elem_of_map_to_list). cbn. eauto.
    - intros [x Hx]. exists (n, x). by rewrite elem_of_map_to_list. }
  rewrite !Hdom. pose proof (rel_lookup st a n Hr) as Hl.
  destruct (now a !! n); [destruct Hl as (e & -> & _)|rewrite Hl]; split; by eauto.
Qed.

Lemma merge_sort_perm (l k : list string) : l ≡ₚ k → merge_sort String.le l = merge_sort String.le k.
Proof.
  intros Hp. apply (StronglySorted_unique String.le);
    [apply StronglySorted_merge_sort; apply _..|]. by rewrite !merge_sort_Permutation.
Qed.

Lemma checkpoint_refines st a :
  cat_rel st a → ∃ st', checkpoint st = (Ok tt, st') ∧ cat_rel st' (checkpointed a).
Proof.
  intros Hr. destruct (ca_wal _ _ Hr) as (es & fl & Hw & _ & _).
  eapply checkpoint_ok; [apply Hr|by apply cat_rel_loaded|apply Hr|done|apply Hr|].
  intros u s Hs. by apply (ca_quar _ _ Hr) in Hs as [? _].
Qed.

(** ** All calls *)

Lemma call_sim st a c :
  cat_rel st a → call_ok a (root st) c →
  ∃ st', call_run c st = ((call_spec a c).1, st') ∧ cat_rel st' (call_spec a c).2.
Proof.
  intros Hr Hc. destruct c.
  - by apply create_refines.
  - by apply drop_refines.
  - by apply upsert_refines.
  - by apply get_refines.
  - by apply delete_refines.
  - cbn [call_run call_spec]. unfold describe. rewrite M_bind_assoc. apply with_coll_refines; [done|].
    intros e cl _ _ Hrun%running_mapping. exists st. cbn. by rewrite Hrun.
  - exists st. split; [|done]. cbn [call_run call_spec fst]. rewrite <-(merge_sort_perm _ _ (rel_names st a Hr)). done.
  - destruct (checkpoint_refines st a Hr) as (st' & E & Hr'). exists st'. cbn [call_run].
    by rewrite (M_bind_Ok _ _ _ _ _ E).
Qed.
End CatalogCalls.
