(* ===== verification/CatalogHistory.v ===== *)
(** * The catalog: histories with crashes

    A history of a node interleaves calls with crashes and restarts: crashes between
    calls, in a checkpoint, and in the write of a command.  The node
    starts on an empty directory; a restart opens what the crash left.  This file
    proves that the node and its specification go through a history in step, and
    what a crash in the middle of a call or of a checkpoint leaves. *)

From S2P Require Import Prelude Bytes CoreError FileSys Proto External Mapping Document IndexApi Collection.
From S2P Require Import CollectionSpec WalInterface Catalog CatalogSpec CatalogRel CatalogReplay CatalogCommit.
From S2P Require Import CatalogOpen CatalogOps CatalogCalls.

Open Scope Z_scope.

Section CatalogHistory.
Context `{Json} `{Rfc3339} `{TantivySchema} `{!TantivyIndex} `{!MarkJson} `{UuidApi}.
Context `{WriteAheadLog} `{!Codec v1.CatalogSnapshot}.

(** ** An empty directory *)

Definition empty_root : Root :=
  {| files := ∅; col_dirs := ∅; quarantined := ∅; current_tar := None |}.
Definition empty_disk : Disk := {| d_root := empty_root; d_wal := w_empty |}.
Definition empty_state : astate := {| base := ∅; applied := 0; tail := []; last := 0 |}.

Lemma empty_disk_inv : disk_inv empty_disk empty_state.
Proof.
  destruct w_open_empty as (w & Ew & Hw). split; cbn.
  - split; cbn; try done; [|by left].
    split_and!; [intros ????; by rewrite lookup_empty|constructor|by intros ? ?%elem_of_nil].
  - left. split; [done|]. split; [done|]. exists []. split_and!; [done|constructor| |constructor].
    intros n c. cbn. rewrite lookup_empty. split; [done|by intros ?%elem_of_nil].
  - by exists w, [].
  - intros n c. by rewrite lookup_empty.
  - by intros ???? ?%elem_of_nil.
  - intros u s [x Hx]. cbn in Hx. by rewrite lookup_empty in Hx.
Qed.

(** ** Crashes in the middle of a checkpoint *)

(** The intermediate states of [checkpoint]: some collections committed; all
    committed and the snapshot being written; the snapshot written and the log not
    trimmed yet. *)
Inductive in_checkpoint (st : CatSt) : CatSt → Prop :=
| in_commits ns rest st1 :
    (map_to_list (collections (cat st))).*1 = ns ++ rest →
    for_each ns (λ n, on_col n (commit (local_mark (c_seq (cat st))))) st = (Ok tt, st1) →
    in_checkpoint st st1
| in_write st1 d :
    for_each (map_to_list (collections (cat st))).*1
      (λ n, on_col n (commit (local_mark (c_seq (cat st))))) st = (Ok tt, st1) →
    d ∈ replacing SNAPSHOT_TMP (encode_to_vec (snapshot_proto (cat st1) (c_seq (cat st))))
      (files (root st1)) →
    in_checkpoint st {| cat := cat st1; root := set_files d (root st1) |}
| in_trim st1 :
    commit_all (local_mark (c_seq (cat st))) st = (Ok tt, st1) →
    in_checkpoint st st1.

Lemma in_commits_dirs st a ns rest st1 :
  cat_rel st a → (map_to_list (collections (cat st))).*1 = ns ++ rest →
  for_each ns (λ n, on_col n (commit (local_mark (c_seq (cat st))))) st = (Ok tt, st1) →
  same_but_cols st st1 ∧ dirs_rel a (root st1) ∧ quarantine_ok (root st1) (tail a).*2.
Proof.
  intros Hr Hns E. rewrite (ca_seq _ _ Hr) in E.
  destruct (commit_loop (last a) (now a) (local_mark (last a)) ns _ st (inj_now _ (ca_ok _ _ Hr))
    (cat_rel_loaded _ _ Hr)) as (st1' & E' & Hsame & Hl).
  { assert (Hall : Forall (λ n, is_Some (collections (cat st) !! n)) (ns ++ rest)).
    { rewrite <-Hns. apply Forall_forall. intros n ([n' e] & -> & Hin%elem_of_map_to_list)%list_elem_of_fmap.
      by eauto. }
    by apply Forall_app in Hall as [? _]. }
  rewrite E in E'. injection E' as <-. split; [done|].
  destruct Hsame as (_ & _ & _ & Hq & _ & Hd). split.
  - apply loaded_dirs; [apply Hr| |intros u ?%Hd; by apply Hr].
    eapply loaded_impl; [|exact Hl]. cbn. intros n c D k Hc [(_ & -> & ->)|(_ & -> & ?)].
    + right. split; [done|]. by exists c.
    + by left.
  - intros u s. rewrite Hq. intros Hs. destruct (ca_quar _ _ Hr u s Hs) as [Hn ?]. split; [|done].
    apply eq_None_not_Some. rewrite Hd, Hn. by intros [].
Qed.

Lemma checkpoint_crash st a st1 d :
  cat_rel st a → in_checkpoint st st1 → crash_disk (disk_of st1) d →
  disk_inv d a ∨ disk_inv d (checkpointed a).
Proof.
  intros Hr Hin Hcr. destruct (ca_wal _ _ Hr) as (es & fl & Hw & Hfl & Hes).
  destruct Hin as [ns rest st1 Hns E|st1 d' E Hd'|st1 E].
  - left. destruct (in_commits_dirs st a ns rest st1 Hr Hns E) as ((_ & Ew & Ef & _) & Hd & Hq).
    eapply (crash_disk_inv a st1); rewrite ?Ef, ?Ew; try done; apply Hr.
  - left. destruct (in_commits_dirs st a _ [] st1 Hr (eq_sym (app_nil_r _)) E) as ((_ & Ew & Ef & _) & Hd & Hq).
    eapply (crash_disk_inv a {| cat := cat st1; root := set_files d' (root st1) |});
      cbn; rewrite ?Ew; try done; [apply Hr| |by destruct Hd].
    apply (replacing_other _ _ _ _ SNAPSHOT_FILE) in Hd'; [|done]. rewrite Ef in Hd'. unfold snapshot_ok. rewrite Hd'. apply Hr.
  - right. destruct (commit_all_ok a _ st (local_mark (c_seq (cat st))) (inj_now _ (ca_ok _ _ Hr))
      (cat_rel_loaded _ _ Hr) (ca_seq _ _ Hr)) as (st1' & E' & Hl & Hs & Ew & Eq & Hd & Hsn).
    rewrite E in E'. injection E' as <-. eapply (cat_rel_crash st1); [|done].
    eapply (cat_rel_checkpointed a st1 es fl); [apply Hr| |done|by rewrite Hs, (ca_seq _ _ Hr)|by rewrite Ew|..].
    + eapply loaded_impl; [|exact Hl]. cbn. intros n c D k _ [-> ->]. done.
    + intros u Hu. by apply Hr, Hd.
    + intros u s. rewrite Eq. intros Hs'. destruct (ca_quar _ _ Hr u s Hs') as [Hn _].
      apply eq_None_not_Some. rewrite Hd, Hn. by intros [].
Qed.
(** ** Events *)

(** A crash between two calls or during a checkpoint. *)
Definition killed_idle (st : CatSt) (d : Disk) : Prop :=
  ∃ st1, (st1 = st ∨ in_checkpoint st st1) ∧ crash_disk (disk_of st1) d.

(** A crash while the command [c] of a write is appended to the log. *)
Definition killed_appending (st : CatSt) (a : astate) (c : cmd) (d : Disk) : Prop :=
  crash (files (root st)) (files (d_root d)) ∧ col_dirs (d_root d) = col_dirs (root st)
  ∧ quarantined (d_root d) = quarantined (root st)
  ∧ w_crash_in_append (wal_entry (last a + 1) (op_of c)) (c_wal (cat st)) (d_wal d).

(** A crash in a write, before its command is applied. *)
Definition killed_logging (st : CatSt) (a : astate) (c : cmd) (d : Disk) : Prop :=
  (∃ w, log_ok (push a c) w ∧ crash_disk (disk_of (logged st w (last a + 1))) d) ∨ killed_appending st a c d.

Lemma killed_idle_open st a d :
  cat_rel st a → killed_idle st d → ∃ st', catalog_open d = (Ok st', disk_of st') ∧ cat_rel st' (checkpointed a).
Proof.
  intros Hr (st1 & Hin & Hc).
  assert (Hi : disk_inv d a ∨ disk_inv d (checkpointed a)).
  { destruct Hin as [->|Hin]; [left; by eapply cat_rel_crash|by eapply checkpoint_crash]. }
  destruct Hi as [Hi|Hi]; destruct (catalog_open_ok _ _ Hi) as (st' & E & Hr'); by exists st'.
Qed.

Lemma killed_logging_open st a c d :
  cat_rel st a → can_log a (root st) c → killed_logging st a c d →
  ∃ st', catalog_open d = (Ok st', disk_of st') ∧ (cat_rel st' (checkpointed a) ∨ cat_rel st' (checkpointed (push a c))).
Proof.
  intros Hr Hc Hd. assert (Hor : disk_inv d a ∨ disk_inv d (push a c)).
  { destruct Hd as [(w & Hl & ?)|(? & ? & ? & ?)]; [right; by eapply crash_logged|by apply (crash_logging st)]. }
  destruct Hor as [Hi|Hi]; destruct (catalog_open_ok _ _ Hi) as (st' & E & Hr'); eauto.
Qed.

Inductive event :=
| ECall (c : call)
(** a crash at rest or in a checkpoint that leaves [d], then [Catalog::open] *)
| ERestart (d : Disk)
(** a crash in the write of [c] that leaves [d], then [Catalog::open] *)
| EKilled (c : cmd) (d : Disk).

Definition reopen (d : Disk) : M CatSt Error reply := λ st,
  match (catalog_open d).1 with
  | Ok st' => (Ok RDone, st')
  | Err err => (Err err, st)
  | Panic w => (Panic w, st)
  end.

Definition node_step (e : event) : M CatSt Error reply :=
  match e with
  | ECall c => call_run c
  | ERestart d | EKilled _ d => reopen d
  end.

(** What the specification allows as the reply to an event and the next state: a restart
    checkpoints what was logged; a write that was killed is there or not. *)
Inductive spec_step (a : astate) : event → result Error reply → astate → Prop :=
| spec_call c r a' : call_spec a c = (r, a') → spec_step a (ECall c) r a'
| spec_restart d : spec_step a (ERestart d) (Ok RDone) (checkpointed a)
| spec_lost c d : spec_step a (EKilled c d) (Ok RDone) (checkpointed a)
| spec_kept c d : spec_step a (EKilled c d) (Ok RDone) (checkpointed (push a c)).

Fixpoint node_run (st : CatSt) (es : list event) : list (result Error reply) * CatSt :=
  match es with
  | [] => ([], st)
  | e :: es =>
      let '(r, st) := node_step e st in
      let '(rs, st) := node_run st es in (r :: rs, st)
  end.

Inductive spec_run : astate → list event → list (result Error reply) → astate → Prop :=
| spec_done a : spec_run a [] [] a
| spec_event a e r a1 es rs a2 : spec_step a e r a1 → spec_run a1 es rs a2 → spec_run a (e :: es) (r :: rs) a2.

Definition event_ok (st : CatSt) (a : astate) (e : event) : Prop :=
  match e with
  | ECall c => call_ok a (root st) c
  | ERestart d => killed_idle st d
  | EKilled c d => can_log a (root st) c ∧ killed_logging st a c d
  end.

(** The events are possible where they happen, in every state of the specification that the
    node can then be in. *)
Fixpoint events_ok (st : CatSt) (a : astate) (es : list event) : Prop :=
  match es with
  | [] => True
  | e :: es =>
      event_ok st a e
      ∧ ∀ r a', spec_step a e r a' → cat_rel (node_step e st).2 a' → events_ok (node_step e st).2 a' es
  end.

Lemma event_sim st a e :
  cat_rel st a → event_ok st a e →
  ∃ a', spec_step a e (node_step e st).1 a' ∧ cat_rel (node_step e st).2 a'.
Proof.
  intros Hr He. destruct e as [c|d|c d]; cbn in *.
  - destruct (call_sim st a c Hr He) as (st' & -> & ?). exists (call_spec a c).2. split; [|done]. constructor. by destruct (call_spec a c).
  - destruct (killed_idle_open st a d Hr He) as (st' & E & ?). unfold reopen. rewrite E.
    exists (checkpointed a). split; [constructor|done].
  - destruct He as [Hc He]. destruct (killed_logging_open st a c d Hr Hc He) as (st' & E & Hor). unfold reopen. rewrite E.
    destruct Hor; [exists (checkpointed a)|exists (checkpointed (push a c))]; (split; [constructor|done]).
Qed.

Lemma events_sim es : ∀ st a,
  cat_rel st a → events_ok st a es →
  ∃ a', spec_run a es (node_run st es).1 a' ∧ cat_rel (node_run st es).2 a'.
Proof.
  induction es as [|e es IH]; intros st a Hr He; [exists a; split; [constructor|done]|]. destruct He as [He Hes].
  destruct (event_sim st a e Hr He) as (a1 & Hs & Hr1).
  destruct (IH _ _ Hr1 (Hes _ _ Hs Hr1)) as (a2 & Hs2 & Hr2). exists a2. cbn.
  destruct (node_step e st) as [r st']. cbn in *. destruct (node_run st' es). cbn in *. split; [by econstructor|done].
Qed.
End CatalogHistory.
