(* ===== verification/CatalogCorrect.v ===== *)
(** * The catalog: correctness

    The theorems about the durability and the behaviour of a single node, the
    evaluated instances, and the interleavings that the code does not survive. *)

From S2P Require Import Prelude Bytes CoreError FileSys SegmentedLog LogCorrect Proto External Samples SampleCodecs.
From S2P Require Import Mapping Document IndexApi Collection SampleIndex CollectionSpec WalInterface Wal Catalog.
From S2P Require Import CatalogSpec CatalogRel CatalogReplay CatalogCommit CatalogOpen CatalogOps CatalogCalls.
From S2P Require Import CatalogHistory.

Open Scope Z_scope.

Section CatalogCorrect.
Context `{Json} `{Rfc3339} `{TantivySchema} `{!TantivyIndex} `{!MarkJson} `{UuidApi}.
Context `{WriteAheadLog} `{!Codec v1.CatalogSnapshot}.

(** C1: A node started on an empty directory goes through every history of client calls,
    checkpoints, crashes and restarts that satisfies [events_ok] as the abstract database
    does: each reply, errors included, is the specified one, and [Catalog::open] succeeds
    after each crash, whatever unsynced bytes it took. A crash comes between two calls, in
    a checkpoint before the trim of the log, or in a write while its command is appended
    to the log or before it is applied; in the last case the command is there after the
    restart or not. [events_ok] asks of the calls that a create has a mapping whose schema
    Tantivy accepts and a new uuid, that document ids fit in a term (65530 bytes), and
    that the log has room. Crashes inside the directory changes of create and drop, inside
    the trim and inside open are not covered ([empty_collection_dir_blocks_open],
    [replay_crash_loses_document]). *)
Theorem catalog_history_refines :
  ∃ st, catalog_open empty_disk = (Ok st, disk_of st) ∧
    ∀ es, events_ok st empty_state es → ∃ a, spec_run empty_state es (node_run st es).1 a.
Proof.
  destruct (catalog_open_ok _ _ empty_disk_inv) as (st & E & Hr). exists st. split; [done|].
  intros es Hes. destruct (events_sim es st empty_state Hr Hes) as (a & ? & _). by exists a.
Qed.

(** Each public method of the catalog behaves on every branch, errors included,
    as specified on the abstract state, and leaves the node in a state related to
    the next abstract state. *)
Theorem call_refines st a c :
  cat_rel st a → call_ok a (root st) c →
  ∃ st', call_run c st = ((call_spec a c).1, st') ∧ cat_rel st' (call_spec a c).2.
Proof. apply call_sim. Qed.

(** What a client reads of document [id] of a collection. *)
Definition read_result (docs : docs_map) (id : string) : result Error (list byte) :=
  match docs !! id with
  | Some src => Ok src
  | None => Err (DocumentNotFound id)
  end.

Lemma read_checkpointed st a n cl id :
  cat_rel st (checkpointed a) → now a !! n = Some cl → id_ok id →
  get_document n id st = (read_result (a_docs cl) id, st).
Proof.
  intros Hr Hcl Hid. destruct (get_refines st _ n id Hr) as (st' & E & _); [by split|].
  cbn [call_run call_spec] in E. unfold with_coll, readable, base_docs in E. cbn in E.
  rewrite Hcl, decide_True in E by done. unfold mbind, M_bind in E. unfold read_result.
  pose proof (rel_lookup st _ n Hr) as Hl. cbn in Hl. rewrite Hcl in Hl.
  destruct Hl as (e & He & Eu & Hz & index & k & Hd & Hrep & _).
  assert (Hsame : (get_document n id st).2 = st).
  { unfold get_document. rewrite (M_bind_Ok _ _ _ _ _ (get_ok _ _ _ He)).
    pose proof (source_rep _ _ _ _ id Hrep Hid) as Es.
    erewrite M_bind_Ok; [|eapply on_col_ok; [done|by rewrite Eu|done]].
    unfold lift. cbn [snd]. apply put_col_same; [done|by rewrite Eu]. }
  destruct (get_document n id st) as [r s]. cbn in Hsame. subst s. f_equal.
  destruct (a_docs cl !! id); destruct r; cbn in E; unfold mret, M_ret in E; congruence.
Qed.

(** C3: After every history covered by [catalog_history_refines], and a crash between two
    calls or in a checkpoint before the trim of the log, [Catalog::open] succeeds on what
    is left, and every collection of the abstract database is then readable with exactly
    its documents (under ids that fit in a term), those written after the last checkpoint
    included. A crash inside create, drop or open is not covered. *)
Theorem acknowledged_writes_survive :
  ∃ st, catalog_open empty_disk = (Ok st, disk_of st) ∧
    ∀ es d, events_ok st empty_state es → killed_idle (node_run st es).2 d →
    ∃ a st', spec_run empty_state es (node_run st es).1 a ∧ catalog_open d = (Ok st', disk_of st') ∧
      ∀ n cl id, now a !! n = Some cl → id_ok id → get_document n id st' = (read_result (a_docs cl) id, st').
Proof.
  destruct (catalog_open_ok _ _ empty_disk_inv) as (st & E & Hr). exists st. split; [done|].
  intros es d Hes Hd. destruct (events_sim es st empty_state Hr Hes) as (a & Hs & Hra).
  destruct (killed_idle_open _ _ _ Hra Hd) as (st' & Eo & Hr'). exists a, st'. do 2 (split; [done|]).
  intros. by eapply (read_checkpointed st' a).
Qed.

(** C5: A write is atomic under crashes.  If the process dies while the command is
    appended to the log, or after that and before it is applied in memory, the next
    open succeeds and yields the database without the command or with it. *)
Theorem interrupted_write_atomic st a c w d :
  cat_rel st a → can_log a (root st) c → log_ok (push a c) w →
  crash_disk (disk_of (logged st w (last a + 1))) d
  ∨ (crash (files (root st)) (files (d_root d)) ∧ col_dirs (d_root d) = col_dirs (root st)
     ∧ quarantined (d_root d) = quarantined (root st)
     ∧ w_crash_in_append (wal_entry (last a + 1) (op_of c)) (c_wal (cat st)) (d_wal d)) →
  ∃ st', catalog_open d = (Ok st', disk_of st') ∧
    (cat_rel st' (checkpointed a) ∨ cat_rel st' (checkpointed (push a c))).
Proof.
  intros Hr Hc Hl [Hd|Hd]; apply (killed_logging_open st a c d Hr Hc); [left; by exists w|by right].
Qed.

(** C28: A crash in the middle of a checkpoint - after some of the collections have
    been committed, while the snapshot is written, or before the log is trimmed -
    loses nothing and applies nothing twice: the next open yields the same
    database. *)
Theorem interrupted_checkpoint_safe st a st1 d :
  cat_rel st a → in_checkpoint st st1 → crash_disk (disk_of st1) d →
  ∃ st', catalog_open d = (Ok st', disk_of st') ∧ cat_rel st' (checkpointed a).
Proof.
  intros Hr Hin Hc. apply (killed_idle_open st a d Hr). exists st1. by split; [right|].
Qed.

(** A document written with an id can be read back under that id once a
    checkpoint has run, byte for byte, whatever the collection held before. *)
Theorem upsert_checkpoint_get st a fresh n oid src r st1 st2 :
  cat_rel st a → call_ok a (root st) (CallUpsert fresh n oid src) →
  upsert_document fresh n oid src st = (Ok r, st1) → checkpoint st1 = (Ok tt, st2) →
  upserted_id r = or_new_id fresh oid ∧ get_document n (upserted_id r) st2 = (Ok src, st2).
Proof.
  intros Hr Hc Eu Ec. destruct (call_sim _ _ _ Hr Hc) as (st1' & E1 & Hr1).
  cbn [call_run] in E1. rewrite (M_bind_Ok _ _ _ _ _ Eu) in E1. cbn [mret M_ret] in E1.
  injection E1 as E1 <-.
  destruct (checkpoint_refines _ _ Hr1) as (st2' & Ec' & Hr2). rewrite Ec in Ec'. injection Ec' as <-.
  cbn [call_spec] in E1, Hr2. unfold with_coll in E1, Hr2. destruct (now a !! n) as [cl|] eqn:Hcl; [|done].
  destruct (from_slice src) as [v|]; [|done].
  destruct (validate_document (a_mapping cl) v) as [[]| |]; [|done..]. cbn [fst snd] in *.
  injection E1 as -> _. split; [done|]. destruct Hc as [Hid _].
  rewrite (read_checkpointed st2 _ n (set_docs <[or_new_id fresh oid := src]> cl) _ Hr2); [|..|done].
  - unfold read_result. cbn. by rewrite lookup_insert_eq.
  - rewrite now_push. cbn. by rewrite lookup_alter_eq, Hcl.
Qed.
End CatalogCorrect.

(** ** Evaluated instances *)

Module Demo.
#[local] Existing Instances Samples.json Samples.rfc3339 Samples.schema Samples.uuid SampleIndex.tantivy
  SampleIndex.mark_json SampleCodecs.wal_entry_codec SampleCodecs.snapshot_codec sum_crc32c.

Definition closed : CatSt :=
  {| cat := {| c_seq := 0; c_wal := st_empty 0; collections := ∅ |}; root := empty_root |}.

(** The node after opening [d]. *)
Definition opened (d : Disk) : CatSt :=
  match (catalog_open d).1 with
  | Ok st => st
  | _ => closed
  end.

(** The worst crash: every unsynced byte is gone. *)
Definition worst_crash (d : Disk) : Disk :=
  {| d_root := set_files (crash_min (files (d_root d))) (d_root d); d_wal := crash_min (d_wal d) |}.

Lemma worst_crash_ok d : crash_disk d (worst_crash d).
Proof. by split_and!; [apply crash_min_crash|..|apply crash_min_crash]. Qed.

Definition started : CatSt := opened empty_disk.
Definition writes : list event :=
  [ECall (CallCreate "u1" "books" sample_mapping); ECall (CallUpsert "u2" "books" (Some "a") [x07])].
Definition written : CatSt := (node_run started writes).2.
Definition written_state : astate :=
  (call_spec (call_spec empty_state (CallCreate "u1" "books" sample_mapping)).2 (CallUpsert "u2" "books" (Some "a") [x07])).2.
Definition drop_books : cmd := CDrop "books".

(** The files of a node that dies right after the drop is written to its log, before the
    sync. *)
Definition dies_logging (z : Z) (st : CatSt) : Disk :=
  {| d_root := set_files (crash_min (files (root st))) (root st);
     d_wal := crash_min (disk (append z (encode_to_vec (wal_entry z (op_of drop_books))) (c_wal (cat st))).2) |}.

(** Restart, read, delete, checkpoint, read again, drop a missing collection, and die in
    the drop of the other. *)
Definition after (e : event) (st : CatSt) : CatSt := (node_step e st).2.
Definition calls : list event :=
  [ERestart (worst_crash (disk_of written)); ECall (CallGet "books" "a");
   ECall (CallDelete "books" "a"); ECall CallCheckpoint; ECall (CallGet "books" "a"); ECall (CallDrop "films")].
Definition final : CatSt :=
  after (ECall (CallDrop "films")) (after (ECall (CallGet "books" "a")) (after (ECall CallCheckpoint)
    (after (ECall (CallDelete "books" "a")) (after (ECall (CallGet "books" "a"))
      (after (ERestart (worst_crash (disk_of written))) written))))).
Definition history : list event := writes ++ calls ++ [EKilled drop_books (dies_logging 4 final)].

Lemma new_uuid_empty st u : quarantined (root st) = ∅ → new_uuid empty_state (root st) u.
Proof.
  intros Hq. split_and!.
  - intros (n & c & Hl & _). cbn in Hl. by rewrite lookup_empty in Hl.
  - by apply not_elem_of_nil.
  - intros s. by rewrite Hq, lookup_empty.
Qed.

Lemma started_rel : cat_rel started empty_state.
Proof.
  destruct (catalog_open_ok _ _ empty_disk_inv) as (st & E & Hr). unfold started, opened. by rewrite E.
Qed.

Lemma events_ok_call st a c es :
  call_ok a (root st) c → events_ok (after (ECall c) st) (call_spec a c).2 es → events_ok st a (ECall c :: es).
Proof. intros Hc Hes. split; [done|]. intros r a' Hs _. inversion Hs as [c' r' a'' E| | |]; subst. by rewrite E in Hes. Qed.

Lemma events_ok_restart st a d es :
  crash_disk (disk_of st) d → events_ok (after (ERestart d) st) (checkpointed a) es → events_ok st a (ERestart d :: es).
Proof. intros Hd Hes. split; [exists st; by split; [left|]|]. intros r a' Hs _. by inversion Hs; subst. Qed.

Lemma create_ok : call_ok empty_state (root started) (CallCreate "u1" "books" sample_mapping).
Proof.
  split; [split; [apply sample_mapping_ok|by apply new_uuid_empty]|].
  split; [done|vm_compute; reflexivity].
Qed.

Lemma writes_ok es : events_ok written written_state es → events_ok started empty_state (writes ++ es).
Proof.
  intros Hes. apply events_ok_call; [apply create_ok|]. apply events_ok_call; [|exact Hes].
  split; [by apply id_ok_short|]. split; [done|vm_compute; reflexivity].
Qed.

Lemma written_rel : cat_rel written written_state.
Proof.
  destruct (call_sim started empty_state _ started_rel create_ok) as (st1 & E1 & Hr1).
  assert (Hc : call_ok (call_spec empty_state (CallCreate "u1" "books" sample_mapping)).2 (root st1) (CallUpsert "u2" "books" (Some "a") [x07])).
  { split; [by apply id_ok_short|]. split; [done|vm_compute; reflexivity]. }
  destruct (call_sim _ _ _ Hr1 Hc) as (st2 & E2 & Hr2). unfold written, writes. cbn [node_run node_step]. rewrite E1, E2. exact Hr2.
Qed.

Lemma dies_logging_killed st a z : z = last a + 1 → killed_appending st a drop_books (dies_logging z st).
Proof.
  intros ->. split; [apply crash_min_crash|]. split; [reflexivity|]. split; [reflexivity|].
  right. apply crash_min_crash.
Qed.

Lemma history_ok : events_ok started empty_state history.
Proof.
  apply writes_ok.
  apply events_ok_restart; [apply worst_crash_ok|].
  apply events_ok_call; [split; [by apply id_ok_short|done]|].
  apply events_ok_call; [split; [by apply id_ok_short|split; [done|vm_compute; reflexivity]]|].
  apply events_ok_call; [done|]. apply events_ok_call; [split; [by apply id_ok_short|done]|].
  apply events_ok_call; [split; [done|split; [done|vm_compute; reflexivity]]|].
  split; [|done]. split.
  - split; [vm_compute; by eexists|]. split; [by intros ? ?%elem_of_nil|]. split; [done|vm_compute; reflexivity].
  - right. change (node_step ?e ?st).2 with (after e st). unfold final. apply dies_logging_killed. vm_compute. reflexivity.
Qed.

Lemma catalog_history_refines_witness :
  ∃ a, spec_run empty_state history
    [Ok (RCreated sample_mapping true); Ok (RUpserted "a" true); Ok RDone; Ok (RSource [x07]);
     Ok (RDeleted true); Ok RDone; Err (DocumentNotFound "a"); Err (CollectionNotFound "films"); Ok RDone] a.
Proof.
  destruct catalog_history_refines as (st & E & Hh).
  assert (st = started) as -> by (unfold started, opened; by rewrite E).
  destruct (Hh history history_ok) as [a Ha]. exists a. revert Ha.
  assert (Er : (node_run started history).1 = [Ok (RCreated sample_mapping true); Ok (RUpserted "a" true); Ok RDone; Ok (RSource [x07]);
     Ok (RDeleted true); Ok RDone; Err (DocumentNotFound "a"); Err (CollectionNotFound "films"); Ok RDone]) by (vm_compute; reflexivity).
  rewrite Er. done.
Defined.

Lemma call_refines_witness :
  ∃ st', call_run (CallDescribe "books") written = (Ok (RMapping sample_mapping), st')
    ∧ cat_rel st' written_state.
Proof. apply (call_refines written written_state (CallDescribe "books") written_rel). by split. Defined.

Definition books : coll :=
  {| a_uuid := ("u1" : @Uuid Samples.uuid); a_mapping := sample_mapping; a_docs := {[ "a" := [x07] ]} |}.

Lemma acknowledged_writes_survive_witness :
  ∃ a st', spec_run empty_state writes [Ok (RCreated sample_mapping true); Ok (RUpserted "a" true)] a
    ∧ catalog_open (worst_crash (disk_of written)) = (Ok st', disk_of st')
    ∧ ∀ n cl id, now a !! n = Some cl → id_ok id → get_document n id st' = (read_result (a_docs cl) id, st').
Proof.
  destruct acknowledged_writes_survive as (st & E & Hh).
  assert (st = started) as -> by (unfold started, opened; by rewrite E).
  apply (Hh writes (worst_crash (disk_of written)) (writes_ok [] I)).
  exists written. split; [by left|apply worst_crash_ok].
Defined.

Lemma drop_books_can_log : can_log written_state (root written) drop_books.
Proof.
  split; [vm_compute; by eexists|]. split; [by intros ? ?%elem_of_nil|].
  split; [done|vm_compute; reflexivity].
Qed.

Lemma interrupted_write_atomic_witness :
  ∃ st', catalog_open (dies_logging 3 written) = (Ok st', disk_of st')
    ∧ (cat_rel st' (checkpointed written_state)
       ∨ cat_rel st' (checkpointed (push written_state drop_books))).
Proof.
  destruct (log_cmd written written_state drop_books (λ _, mret tt) written_rel drop_books_can_log)
    as (w & _ & Hw).
  apply (interrupted_write_atomic written written_state drop_books w _ written_rel drop_books_can_log Hw).
  right. apply dies_logging_killed. reflexivity.
Defined.

(** The state after the commit of the only collection. *)
Definition half_checkpointed : CatSt :=
  (for_each ["books"] (λ n, on_col n (commit (local_mark (c_seq (cat written))))) written).2.

Lemma interrupted_checkpoint_safe_witness :
  ∃ st', catalog_open (worst_crash (disk_of half_checkpointed)) = (Ok st', disk_of st')
    ∧ cat_rel st' (checkpointed written_state).
Proof.
  apply (interrupted_checkpoint_safe written written_state half_checkpointed _ written_rel);
    [|apply worst_crash_ok].
  apply (in_commits written ["books"] []); [vm_compute; reflexivity|].
  apply injective_projections; [vm_compute; reflexivity|reflexivity].
Defined.

Definition overwritten : CatSt := (upsert_document "u3" "books" (Some "a") [x08] written).2.

Lemma upsert_checkpoint_get_witness :
  get_document "books" "a" (checkpoint overwritten).2 = (Ok [x08], (checkpoint overwritten).2).
Proof.
  apply (upsert_checkpoint_get written written_state "u3" "books" (Some "a") [x08]
    {| upserted_id := "a"; upserted_created := true |} overwritten (checkpoint overwritten).2 written_rel).
  - split; [by apply id_ok_short|]. split; [done|vm_compute; reflexivity].
  - apply injective_projections; [vm_compute; reflexivity|reflexivity].
  - apply injective_projections; [vm_compute; reflexivity|reflexivity].
Defined.

(** ** Interleavings that lose data or block the start *)

(** The files of a node that dies in [open] after the replay and before the final
    checkpoint. *)
Definition dies_after_replay (d : Disk) : Disk :=
  match (load_catalog d).1 with
  | Ok (st, applied_seq, entries) => disk_of (replay applied_seq entries false st).2
  | _ => d
  end.

(** Two collections and a document in the first, all acknowledged and in the log. *)
Definition acknowledged : CatSt :=
  (node_run written [ECall (CallCreate "u3" "films" sample_mapping)]).2.

(** C38: Replaying a create writes a snapshot that claims everything up to that
    command as applied, although the documents replayed before it are only buffered
    in memory.  If the process dies before the checkpoint at the end of [open], the
    next open skips these documents: an acknowledged document that a first open
    would have served is gone. *)
Theorem replay_crash_loses_document :
  (get_document "books" "a" (opened (disk_of acknowledged))).1 = Ok [x07]
  ∧ (get_document "books" "a" (opened (dies_after_replay (disk_of acknowledged)))).1
    = Err (DocumentNotFound "a").
Proof. vm_compute. done. Qed.

(** The error an open fails with. *)
Definition open_error (d : Disk) : option Error :=
  match (catalog_open d).1 with
  | Err e => Some e
  | _ => None
  end.

(** The files of a node that dies in [create] after [create_dir] and before
    [Index::create_in_dir] (or in [drop] after part of [remove_dir_all]). *)
Definition dies_in_create : Disk :=
  let d := disk_of (node_run started [ECall (CallCreate "u1" "books" sample_mapping)]).2 in
  {| d_root := set_col_dirs {[ "u1" := None ]} (d_root d); d_wal := d_wal d |}.

(** A collection directory without an index, which a crash between the two
    steps of [Collection::create] leaves, makes [Catalog::open] fail, and fail again
    on every later attempt. *)
Theorem empty_collection_dir_blocks_open :
  open_error dies_in_create = Some (TantivyError "open_in_dir")
  ∧ open_error (catalog_open dies_in_create).2 = Some (TantivyError "open_in_dir").
Proof. vm_compute. done. Qed.

(** The log append of an upsert whose target has been replaced meanwhile; the
    document itself goes to the writer of the dropped collection. *)
Definition late_append (collection id : string) (source : list byte) : M CatSt Error unit :=
  seq ← next_seq; on_wal (w_append (wal_entry seq (index_op collection id source))).

(** [upsert_document] validates against the collection it found; before it takes
    the lock of the log, the collection is dropped and created with another
    mapping. *)
Definition raced : CatSt :=
  let st := (node_run started [ECall (CallCreate "u1" "books" sample_mapping)]).2 in
  let checked := (check_document "books" [x07] st).2 in
  let replaced := (node_run checked [ECall (CallDrop "books");
                                     ECall (CallCreate "u2" "books" other_mapping)]).2 in
  (late_append "books" "a" [x07] replaced).2.

(** The document of an upsert that races with a drop and a create of its
    collection is logged without being valid for the new mapping; the replay of
    that entry fails, so the node does not start again. *)
Theorem raced_upsert_blocks_open :
  is_ok (check_document "books" [x07]
           (node_run started [ECall (CallCreate "u1" "books" sample_mapping)]).2).1 = true
  ∧ open_error (disk_of raced) = Some (type_err Text).
Proof. vm_compute. done. Qed.

Definition hyphen_created : result Error reply * CatSt :=
  call_run (CallCreate ("u1" : @Uuid Samples.uuid) "books" hyphen_mapping) started.

Definition panic_of {A} (r : result Error A) : option string :=
  match r with
  | Panic w => Some w
  | _ => None
  end.
Definition without_dirs (d : Disk) : Disk := {| d_root := set_col_dirs ∅ (d_root d); d_wal := d_wal d |}.

(** [validate_field] accepts a name that Tantivy refuses: the create logs the command,
    makes the directory and panics while it builds the schema; the node does not open
    again, neither with the directory nor, when it has been removed by hand, without
    it: the replay of the create panics. *)
Theorem hyphen_field_blocks_open :
  Mapping_new (fields hyphen_mapping) = Ok hyphen_mapping
  ∧ panic_of hyphen_created.1 = Some "assertion failed: is_valid_field_name(&field_name)"
  ∧ open_error (disk_of hyphen_created.2) = Some (TantivyError "open_in_dir")
  ∧ panic_of (catalog_open (without_dirs (disk_of hyphen_created.2))).1
    = Some "assertion failed: is_valid_field_name(&field_name)".
Proof. split_and!; vm_compute; done. Qed.
End Demo.
