(* ===== verification/CatalogSnapshots.v ===== *)
(** * Snapshots of the catalog (crates/core/src/catalog.rs)

    [build_snapshot] archives the committed files of every collection together with
    the catalog; [install_snapshot] replaces a catalog by an archive.  A tar archive
    is its contents.  The staging directories under [_snapshots] are emptied before
    use and never read back, so they are values here; what is moved to [aside] is
    gone. *)

From S2P Require Import Prelude Bytes CoreError FileSys Proto External Mapping Document IndexApi Collection.
From S2P Require Import CollectionSpec WalInterface Catalog CatalogSpec CatalogRel CatalogCommit CatalogOpen.
From S2P Require Import CatalogOps CatalogCalls CatalogHistory SegmentedLog LogCorrect Samples SampleCodecs.
From S2P Require Import SampleIndex Wal CatalogCorrect.

Open Scope Z_scope.

Section CatalogSnapshots.
Context `{Json} `{Rfc3339} `{TantivySchema} `{!TantivyIndex} `{!MarkJson} `{UuidApi}.
Context `{WriteAheadLog} `{!Codec v1.CatalogSnapshot}.

Abbreviation MC := (M CatSt Error).

(** The loop of [build_snapshot] over the collections. *)
Fixpoint archive_collections (entries : list (string * Entry)) (staging : gmap Uuid Index) :
    MC (gmap Uuid Index) :=
  match entries with
  | [] => mret staging
  | (name, e) :: entries =>
      index ← on_col name archive_into;
      archive_collections entries (<[e_uuid e := index]> staging)
  end.

Definition build_snapshot : MC archive :=
  s ← get;
  let applied_seq := c_seq (cat s) in
  let catalog := encode_to_vec (snapshot_proto (cat s) applied_seq) in
  cols ← archive_collections (map_to_list (collections (cat s))) ∅;
  let tar := {| ar_catalog := catalog; ar_cols := cols |} in
  on_root (set_current_tar (Some tar));;
  mret tar.

Definition invalid_archive_uuid (s : string) : Error :=
  Recovery (Msg "invalid uuid {:?} in archive" [s]).

(** The body of the loop of [install_snapshot]: the collection in the way is moved
    aside, then the staged one takes its place.  Returns what is left staged. *)
Definition move_aside (uuid : Uuid) : MC unit :=
  on_root (λ r, set_col_dirs (delete uuid (col_dirs r)) r).

Definition place (uuid : Uuid) (staging : gmap Uuid Index) : MC (gmap Uuid Index) :=
  index ← lift (ok_or (Io NotFound) (staging !! uuid));
  on_root (λ r, set_col_dirs (<[uuid := Some index]> (col_dirs r)) r);;
  mret (delete uuid staging).

Fixpoint install_entries (entries : list v1.CatalogEntry) (staging : gmap Uuid Index) : MC unit :=
  match entries with
  | [] => mret tt
  | entry :: entries =>
      uuid ← lift (ok_or (invalid_archive_uuid (v1.entry_uuid entry)) (uuid_parse_str (v1.entry_uuid entry)));
      move_aside uuid;;
      staging ← place uuid staging;
      install_entries entries staging
  end.

(** The loop of [rebuild]. *)
Fixpoint rebuild_entries (dirs : gmap Uuid (option Index)) (entries : list v1.CatalogEntry)
    (rebuilt : gmap string Entry) (max_seq : Z) : result Error (gmap string Entry * Z) :=
  match entries with
  | [] => Ok (rebuilt, max_seq)
  | entry :: entries =>
      uuid ← ok_or (invalid_archive_uuid (v1.entry_uuid entry)) (uuid_parse_str (v1.entry_uuid entry));
      proto_mapping ← ok_or (Recovery (Msg "archive entry {uuid} has no mapping" [uuid_to_string uuid]))
                            (v1.entry_mapping entry);
      mapping ← Mapping_try_from_proto proto_mapping;
      c ← collection_open dirs uuid mapping;
      rebuild_entries dirs entries
        (<[v1.entry_name entry := {| e_uuid := uuid; e_created_seq := v1.entry_created_seq entry;
                                     e_collection := c |}]> rebuilt)
        (max_seq `max` v1.entry_created_seq entry)
  end.

Definition rebuild (snapshot : v1.CatalogSnapshot) : MC unit :=
  s ← get;
  '(rebuilt, max_seq) ← lift (rebuild_entries (col_dirs (root s)) (v1.entries snapshot) ∅
                                (v1.applied_seq snapshot));
  on_cat (λ c, set_seq max_seq (set_collections rebuilt c)).

(** The rename of the staged [catalog.pb], whose contents [unpack] has not synced. *)
Definition publish_catalog (bytes : list byte) : MC unit :=
  on_root (λ r, set_files (<[SNAPSHOT_FILE := File bytes 0]> (files r)) r).

Definition publish_snapshot (tar : archive) : MC unit := on_root (set_current_tar (Some tar)).

Definition install_snapshot (tar : archive) : MC unit :=
  snapshot ← lift (ok_or (Recovery (Msg "corrupt catalog snapshot in archive: {e}" []))
                         (decode (ar_catalog tar)));
  install_entries (v1.entries snapshot) (ar_cols tar);;
  publish_catalog (ar_catalog tar);;
  rebuild snapshot;;
  sweep_orphans (v1.applied_seq snapshot);;
  publish_snapshot tar.

Definition current_snapshot : MC (option archive) := s ← get; mret (current_tar (root s)).

(** ** Archiving a node *)

(** Every collection in memory has its index on disk, at the commit it reads. *)
Record housed (st : CatSt) : Prop := {
  ho_dir : ∀ n e, collections (cat st) !! n = Some e →
    col_dirs (root st) !! e_uuid e = Some (Some (c_reader (e_collection e)));
  ho_valid : ∀ n e, collections (cat st) !! n = Some e → mapping_ok (c_mapping (e_collection e));
  ho_inj : ∀ n1 n2 e1 e2, collections (cat st) !! n1 = Some e1 → collections (cat st) !! n2 = Some e2 →
    e_uuid e1 = e_uuid e2 → n1 = n2
}.

Lemma loaded_housed z d P st : inj_uuids d → loaded z d P st → housed st.
Proof.
  intros Hinj [Hs _]. split.
  - intros n e He. destruct (Hs n e He) as (c & D & k & _ & (-> & _ & index & Hd & Hrep & _) & _).
    rewrite Hd. do 2 f_equal. symmetry. apply (cr_reader _ _ _ _ Hrep).
  - intros n e He. destruct (Hs n e He) as (c & D & k & _ & (_ & _ & index & _ & Hrep & _) & _).
    pose proof (cr_mapping _ _ _ _ Hrep) as Em. cbn in Em. rewrite Em. apply Hrep.
  - intros n1 n2 e1 e2 H1' H2' E. destruct (Hs _ _ H1') as (c1 & ? & ? & ? & (E1 & _) & _).
    destruct (Hs _ _ H2') as (c2 & ? & ? & ? & (E2 & _) & _). eapply Hinj; [done..|congruence].
Qed.

(** The directories that the collections in [l] are archived as. *)
Definition staged (l : list (string * Entry)) : gmap Uuid Index :=
  list_to_map ((λ ne, (e_uuid ne.2, c_reader (e_collection ne.2))) <$> l).

Lemma archive_into_ok st n e :
  housed st → collections (cat st) !! n = Some e →
  on_col n archive_into st = (Ok (c_reader (e_collection e)), st).
Proof.
  intros Hh He. pose proof (ho_dir _ Hh n e He) as Hd. destruct e as [u z [cu cm cp cr]]. cbn in Hd.
  erewrite on_col_ok; [|done|exact Hd|]; [|unfold archive_into; by mpure; mpure].
  f_equal. exact (put_col_same _ _ _ _ He Hd).
Qed.

Lemma archive_collections_ok st l : ∀ acc,
  housed st → Forall (λ ne, collections (cat st) !! ne.1 = Some ne.2) l →
  NoDup ((e_uuid ∘ snd) <$> l) →
  archive_collections l acc st = (Ok (staged l ∪ acc), st).
Proof.
  induction l as [|[n e] l IH]; intros acc Hh Hl Hnd.
  { unfold staged. cbn. by rewrite (left_id_L ∅ (∪)). }
  apply Forall_cons in Hl as [He Hl]. cbn in He. cbn [fmap list_fmap] in Hnd. apply NoDup_cons in Hnd as [Hn Hnd].
  cbn [archive_collections]. rewrite (M_bind_Ok _ _ _ _ _ (archive_into_ok _ _ _ Hh He)).
  rewrite IH by done. do 2 f_equal. unfold staged. cbn.
  rewrite <-insert_union_l, insert_union_r; [done|].
  apply not_elem_of_list_to_map_1. rewrite <-list_fmap_compose. exact Hn.
Qed.

Lemma NoDup_uuids st : housed st → NoDup ((e_uuid ∘ snd) <$> map_to_list (collections (cat st))).
Proof.
  intros Hh. apply NoDup_fmap_2_strong; [|apply NoDup_map_to_list].
  intros [n1 e1] [n2 e2] H1'%elem_of_map_to_list H2'%elem_of_map_to_list E. cbn in E.
  assert (n1 = n2) as -> by (by eapply (ho_inj _ Hh)). congruence.
Qed.

Definition live_entries (st : CatSt) : list (string * Entry) := map_to_list (collections (cat st)).

Lemma live_entries_lookup st : Forall (λ ne, collections (cat st) !! ne.1 = Some ne.2) (live_entries st).
Proof. apply Forall_forall. intros [n e] Hin. by apply elem_of_map_to_list. Qed.

(** The archive of a node. *)
Definition archive_of (st : CatSt) : archive :=
  {| ar_catalog := encode_to_vec (snapshot_proto (cat st) (c_seq (cat st)));
     ar_cols := staged (live_entries st) |}.

Lemma build_snapshot_ok st :
  housed st →
  build_snapshot st
  = (Ok (archive_of st), {| cat := cat st; root := set_current_tar (Some (archive_of st)) (root st) |}).
Proof.
  intros Hh. unfold build_snapshot. mpure.
  erewrite M_bind_Ok; [|apply archive_collections_ok; [done|apply live_entries_lookup|by apply NoDup_uuids]].
  cbv beta. rewrite (right_id_L ∅ (∪)). done.
Qed.

(** ** Installing it *)

(** The entries of a catalog snapshot. *)
Definition entry_proto (ne : string * Entry) : v1.CatalogEntry :=
  {| v1.entry_name := ne.1; v1.entry_uuid := uuid_to_string (e_uuid ne.2);
     v1.entry_mapping := Some (Mapping_to_proto (c_mapping (e_collection ne.2)));
     v1.entry_created_seq := e_created_seq ne.2 |}.

Lemma snapshot_proto_entries st z : v1.entries (snapshot_proto (cat st) z) = entry_proto <$> live_entries st.
Proof. apply list_fmap_ext. by intros ? []. Qed.

Lemma install_entries_ok l : ∀ staging st,
  NoDup ((e_uuid ∘ snd) <$> l) →
  Forall (λ ne, staging !! e_uuid ne.2 = Some (c_reader (e_collection ne.2))) l →
  ∃ dirs, install_entries (entry_proto <$> l) staging st
          = (Ok tt, {| cat := cat st; root := set_col_dirs dirs (root st) |})
    ∧ ∀ u, dirs !! u = match staged l !! u with
                       | Some index => Some (Some index)
                       | None => col_dirs (root st) !! u
                       end.
Proof.
  induction l as [|[n e] l IH]; intros staging st Hnd Hl.
  { exists (col_dirs (root st)). split; [by destruct st as [? []]|]. done. }
  cbn [fmap list_fmap] in Hnd. apply NoDup_cons in Hnd as [Hn Hnd]. apply Forall_cons in Hl as [He Hl]. cbn in He.
  cbn [fmap list_fmap install_entries]. change (v1.entry_uuid (entry_proto (n, e))) with (uuid_to_string (e_uuid e)).
  rewrite uuid_parse_to_string. mpure. mpure. unfold place. rewrite He. cbn [ok_or].
  rewrite M_bind_assoc. mpure. rewrite M_bind_assoc. mpure. mpure.
  set (st1 := {| cat := _; root := _ |}).
  destruct (IH (delete (e_uuid e) staging) st1) as (dirs & E & Hd); [done| |].
  { rewrite Forall_forall in Hl. apply Forall_forall. intros ne Hin. rewrite lookup_delete_ne; [by apply Hl|].
    intros E. apply Hn, list_elem_of_fmap. by exists ne. }
  exists dirs. split; [exact E|]. intros u. rewrite Hd. unfold staged. cbn [fmap list_fmap].
  rewrite list_to_map_cons. cbn [fst snd]. destruct (decide (e_uuid e = u)) as [<-|Hne].
  - rewrite lookup_insert_eq.
    assert (Hno : (list_to_map ((λ ne, (e_uuid ne.2, c_reader (e_collection ne.2))) <$> l) : gmap Uuid Index) !! e_uuid e = None).
    { apply not_elem_of_list_to_map_1. rewrite <-list_fmap_compose. exact Hn. }
    rewrite Hno. cbn. by rewrite lookup_insert_eq.
  - rewrite lookup_insert_ne by done. cbn. by rewrite lookup_insert_ne, lookup_delete_ne by done.
Qed.

(** The collection of [e], opened anew. *)
Definition transferred (e : Entry) : Entry :=
  {| e_uuid := e_uuid e; e_created_seq := e_created_seq e;
     e_collection := from_index (e_uuid e) (c_mapping (e_collection e)) (c_reader (e_collection e)) |}.

Lemma rebuild_entries_ok dirs l : ∀ acc z,
  Forall (λ ne, mapping_ok (c_mapping (e_collection ne.2))
               ∧ dirs !! e_uuid ne.2 = Some (Some (c_reader (e_collection ne.2)))) l →
  NoDup l.*1 →
  ∃ z', rebuild_entries dirs (entry_proto <$> l) acc z
        = Ok (list_to_map ((λ ne, (ne.1, transferred ne.2)) <$> l) ∪ acc, z').
Proof.
  induction l as [|[n e] l IH]; intros acc z Hl Hnd; [exists z; cbn; by rewrite (left_id_L ∅ (∪))|].
  apply Forall_cons in Hl as [[Hv Hd] Hl]. cbn in Hv, Hd. cbn [fmap list_fmap] in Hnd.
  apply NoDup_cons in Hnd as [Hn Hnd].
  cbn [fmap list_fmap rebuild_entries]. change (v1.entry_uuid (entry_proto (n, e))) with (uuid_to_string (e_uuid e)).
  rewrite uuid_parse_to_string. cbn. rewrite Mapping_proto_roundtrip by apply Hv. cbn.
  unfold collection_open. rewrite Hd. cbn.
  destruct (IH (<[n := transferred e]> acc) (z `max` e_created_seq e) Hl Hnd) as (z' & E). exists z'.
  etrans; [exact E|]. do 2 f_equal. rewrite <-insert_union_l, insert_union_r; [done|].
  apply not_elem_of_list_to_map_1. rewrite <-list_fmap_compose. exact Hn.
Qed.

(** No collection of the archive or of the node has been quarantined before. *)
Definition not_quarantined (st : CatSt) (tar : archive) : Prop :=
  ∀ u s, is_Some (quarantined (root st) !! (u, s)) →
    col_dirs (root st) !! u = None ∧ ar_cols tar !! u = None.

(** The collections that a node holds after installing the archive of [st]. *)
Definition transferred_cols (st : CatSt) : gmap string Entry := transferred <$> collections (cat st).

Lemma transferred_list st :
  list_to_map ((λ ne, (ne.1, transferred ne.2)) <$> live_entries st) = transferred_cols st.
Proof.
  unfold live_entries, transferred_cols. rewrite <-(list_to_map_to_list (transferred <$> collections (cat st))), map_to_list_fmap.
  done.
Qed.

Lemma staged_lookup st u index :
  housed st → staged (live_entries st) !! u = Some index →
  ∃ n e, collections (cat st) !! n = Some e ∧ e_uuid e = u ∧ c_reader (e_collection e) = index.
Proof.
  intros Hh Hs. apply elem_of_list_to_map_2, list_elem_of_fmap in Hs as ([n e] & E & Hin).
  apply elem_of_map_to_list in Hin. exists n, e. cbn in E. by simplify_eq.
Qed.

Lemma staged_live st n e :
  housed st → collections (cat st) !! n = Some e →
  staged (live_entries st) !! e_uuid e = Some (c_reader (e_collection e)).
Proof.
  intros Hh He. apply elem_of_list_to_map_1.
  - rewrite <-list_fmap_compose. by apply NoDup_uuids.
  - apply list_elem_of_fmap. exists (n, e). split; [done|]. by apply elem_of_map_to_list.
Qed.

Lemma transferred_uuids st u :
  u ∈ live_uuids {| c_seq := 0; c_wal := c_wal (cat st); collections := transferred_cols st |}
  ↔ ∃ n e, collections (cat st) !! n = Some e ∧ e_uuid e = u.
Proof.
  unfold live_uuids, transferred_cols. cbn. rewrite <-list_fmap_compose, list_elem_of_fmap. split.
  - intros ([n e] & -> & Hin%elem_of_map_to_list). rewrite lookup_fmap in Hin.
    apply fmap_Some in Hin as (e0 & He0 & ->). exists n, e0. done.
  - intros (n & e & He & <-). exists (n, transferred e). split; [done|].
    apply elem_of_map_to_list. by rewrite lookup_fmap, He.
Qed.

Lemma install_snapshot_ok st stB :
  housed st → not_quarantined stB (archive_of st) →
  ∃ st', install_snapshot (archive_of st) stB = (Ok tt, st')
    ∧ collections (cat st') = transferred_cols st ∧ c_wal (cat st') = c_wal (cat stB)
    ∧ (∀ u, col_dirs (root st') !! u = Some <$> staged (live_entries st) !! u)
    ∧ files (root st') = <[SNAPSHOT_FILE := File (ar_catalog (archive_of st)) 0]> (files (root stB))
    ∧ current_tar (root st') = Some (archive_of st)
    ∧ (∀ u s, is_Some (quarantined (root st') !! (u, s)) →
         is_Some (quarantined (root stB) !! (u, s))
         ∨ is_Some (col_dirs (root stB) !! u) ∧ staged (live_entries st) !! u = None).
Proof.
  intros Hh Hq. unfold install_snapshot. cbn [ar_catalog archive_of]. rewrite decode_encode. mpure.
  rewrite snapshot_proto_entries.
  destruct (install_entries_ok (live_entries st) (staged (live_entries st)) stB) as (dirs & Ei & Hd);
    [by apply NoDup_uuids| |].
  { apply Forall_forall. intros [n e] Hin%elem_of_map_to_list. by eapply staged_live. }
  cbn [ar_cols archive_of]. rewrite (M_bind_Ok _ _ _ _ _ Ei). mpure. unfold rebuild.
  rewrite M_bind_assoc. mpure. cbn [root set_files col_dirs set_col_dirs].
  destruct (rebuild_entries_ok dirs (live_entries st) ∅ (c_seq (cat st))) as (z & Er).
  { apply Forall_forall. intros [n e] Hin%elem_of_map_to_list. cbn. split; [by eapply (ho_valid _ Hh)|].
    rewrite Hd. by erewrite staged_live. }
  { apply NoDup_fst_map_to_list. }
  rewrite snapshot_proto_entries.
  change (v1.applied_seq (snapshot_proto (cat st) (c_seq (cat st)))) with (c_seq (cat st)).
  rewrite Er, (right_id_L ∅ (∪)), transferred_list.
  rewrite M_bind_assoc. mpure. mpure. cbn [cat root set_files set_col_dirs].
  set (st1 := {| cat := _; root := _ |}).
  assert (Hlive : ∀ u, u ∈ live_uuids (cat st1) ↔ is_Some (staged (live_entries st) !! u)).
  { intros u. etrans; [exact (transferred_uuids st u)|]. split.
    - intros (n & e & He & <-). rewrite (staged_live _ _ _ Hh He). by eauto.
    - intros [i Hi]. destruct (staged_lookup _ _ _ Hh Hi) as (n & e & ? & ? & _). by exists n, e. }
  unfold sweep_orphans. rewrite M_bind_assoc. mpure. rewrite M_bind_assoc. mpure.
  destruct (sweep_loop (live_uuids (cat st1)) (c_seq (cat st)) (map_to_list (col_dirs (root st1))).*1 st1)
    as (st2 & Es & Ec & Ef & Hdirs & _ & Hnew).
  { apply NoDup_fst_map_to_list. }
  { apply Forall_forall. intros u ([u' x] & -> & Hin%elem_of_map_to_list)%list_elem_of_fmap. by eauto. }
  { intros u s Hs. destruct (Hq u s Hs) as [Hn Ha]. cbn. rewrite Hd. cbn in Ha. by rewrite Ha. }
  erewrite M_bind_Ok; [|exact Es]. eexists. split; [done|].
  cbn. rewrite Ec, Ef. split; [done|]. split; [done|]. split; [|do 2 (split; [done|])].
  2: { intros u s [Hs|[[x Hx] Hlv]]%Hnew; [by left|right]. cbn in Hx. rewrite Hd in Hx. rewrite Hlive in Hlv.
       destruct (staged (live_entries st) !! u); [by destruct Hlv|]. split; [by eauto|done]. }
  intros u. rewrite Hdirs. cbn [col_dirs root st1 set_files set_col_dirs]. rewrite Hd.
  destruct (staged (live_entries st) !! u) as [i|] eqn:Hi.
  - rewrite decide_False; [done|]. intros [_ Hno]. apply Hno, Hlive. by rewrite Hi.
  - case_decide as Hdec; [done|]. cbn. destruct (col_dirs (root stB) !! u) as [x|] eqn:Hx; [|done].
    destruct Hdec. split.
    + apply list_elem_of_fmap. exists (u, x). split; [done|]. apply elem_of_map_to_list.
      cbn. by rewrite Hd, Hi.
    + rewrite Hlive, Hi. by intros [].
Qed.

(** ** Transfer *)

Lemma get_document_housed st n id :
  housed st →
  (get_document n id st).1
  = match collections (cat st) !! n with
    | None => Err (CollectionNotFound n)
    | Some e => src ← source_by_id (index_schema (c_reader (e_collection e))) (c_reader (e_collection e)) id;
                ok_or (DocumentNotFound id) src
    end.
Proof.
  intros Hh. unfold get_document. destruct (collections (cat st) !! n) as [e|] eqn:He.
  - rewrite (M_bind_Ok _ _ _ _ _ (get_ok _ _ _ He)). pose proof (ho_dir _ Hh n e He) as Hd.
    unfold on_col. rewrite M_bind_assoc. mpure. rewrite M_bind_assoc, He. mpure.
    rewrite M_bind_assoc, Hd. mpure. unfold source, mbind, M_bind, get, lift. cbn.
    by destruct (source_by_id _ _ _).
  - by rewrite (M_bind_Err _ _ _ _ _ (get_missing _ _ He)).
Qed.

(** C23: A follower that installs the archive built by another node serves exactly
    that node's committed state: the same collections with the same uuids and
    mappings, the same documents under every id, and no directory of anything else
    is left in place. *)
Theorem snapshot_transfer st stB :
  housed st → not_quarantined stB (archive_of st) →
  ∃ tar st1 stB', build_snapshot st = (Ok tar, st1) ∧ cat st1 = cat st
    ∧ install_snapshot tar stB = (Ok tt, stB')
    ∧ (∀ n, (describe n stB').1 = (describe n st).1)
    ∧ (∀ n id, (get_document n id stB').1 = (get_document n id st).1)
    ∧ (∀ u, is_Some (col_dirs (root stB') !! u) ↔ ∃ n e, collections (cat st) !! n = Some e ∧ e_uuid e = u)
    ∧ housed stB'.
Proof.
  intros Hh Hq. destruct (install_snapshot_ok st stB Hh Hq) as (st' & Ei & Ecol & _ & Hdirs & _).
  assert (Hlook : ∀ n, collections (cat st') !! n = transferred <$> collections (cat st) !! n).
  { intros n. rewrite Ecol. unfold transferred_cols. by rewrite lookup_fmap. }
  assert (Hh' : housed st').
  { split.
    - intros n e'. rewrite Hlook. intros (e & He & ->)%fmap_Some. rewrite Hdirs. cbn.
      by rewrite (staged_live _ _ _ Hh He).
    - intros n e'. rewrite Hlook. intros (e & He & ->)%fmap_Some. by apply (ho_valid _ Hh n e).
    - intros n1 n2 e1 e2. rewrite !Hlook. intros (f1 & H1' & ->)%fmap_Some (f2 & H2' & ->)%fmap_Some E.
      by eapply (ho_inj _ Hh). }
  eexists (archive_of st), _, st'. split; [by apply build_snapshot_ok|]. split; [done|]. split; [done|].
  split; [|split; [|split; [|done]]].
  - intros n. unfold describe, catalog_get, lookup_entry, mbind, M_bind, get, mret, M_ret, lift. cbn.
    rewrite Hlook. by destruct (collections (cat st) !! n).
  - intros n id. rewrite !get_document_housed by done. rewrite Hlook.
    by destruct (collections (cat st) !! n).
  - intros u. rewrite Hdirs. split.
    + intros [x (i & Hi & ->)%fmap_Some]. destruct (staged_lookup _ _ _ Hh Hi) as (n & e & ? & ? & _).
      by exists n, e.
    + intros (n & e & He & <-). rewrite (staged_live _ _ _ Hh He). by eexists.
Qed.

(** The catalog that [install_snapshot] has renamed into place is not synced: a
    power loss after a successful install may leave an empty [catalog.pb]. *)
Theorem installed_catalog_unsynced st stB st' :
  housed st → not_quarantined stB (archive_of st) →
  install_snapshot (archive_of st) stB = (Ok tt, st') →
  ∃ d, crash (files (root st')) d ∧ d !! SNAPSHOT_FILE = Some (File [] 0).
Proof.
  intros Hh Hq E. destruct (install_snapshot_ok st stB Hh Hq) as (st'' & E' & _ & _ & _ & Hf & _ & _).
  rewrite E in E'. injection E' as <-. exists (crash_min (files (root st'))).
  split; [apply crash_min_crash|]. rewrite Hf. unfold crash_min. by rewrite lookup_fmap, lookup_insert_eq.
Qed.
End CatalogSnapshots.

(** ** Evaluated instances *)

Module SnapDemo.
#[local] Existing Instances Samples.json Samples.rfc3339 Samples.schema Samples.uuid SampleIndex.tantivy
  SampleIndex.mark_json SampleCodecs.wal_entry_codec SampleCodecs.snapshot_codec sum_crc32c.

(** A leader with a collection and a document, and a fresh follower. *)
Definition leader : CatSt := (checkpoint Demo.written).2.
Definition follower : CatSt := Demo.started.

Lemma leader_housed : housed leader.
Proof.
  destruct (checkpoint_refines _ _ Demo.written_rel) as (st & E & Hr).
  unfold leader. rewrite E. eapply loaded_housed; [|by apply cat_rel_loaded]. apply inj_now, Hr.
Qed.

Lemma follower_fresh : not_quarantined follower (archive_of leader).
Proof. intros u s [x Hx]. assert (E : quarantined (root follower) = ∅) by done. by rewrite E, lookup_empty in Hx. Qed.

Lemma snapshot_transfer_witness :
  ∃ tar st1 stB', build_snapshot leader = (Ok tar, st1) ∧ install_snapshot tar follower = (Ok tt, stB')
    ∧ (get_document "books" "a" stB').1 = Ok [x07].
Proof.
  destruct (snapshot_transfer leader follower leader_housed follower_fresh)
    as (tar & st1 & stB' & Eb & _ & Ei & _ & Hget & _).
  exists tar, st1, stB'. split; [exact Eb|]. split; [exact Ei|]. rewrite (Hget "books" "a").
  vm_compute. reflexivity.
Defined.

Lemma installed_catalog_unsynced_witness :
  ∃ d, crash (files (root (install_snapshot (archive_of leader) follower).2)) d
    ∧ d !! SNAPSHOT_FILE = Some (File [] 0).
Proof.
  apply (installed_catalog_unsynced leader follower _ leader_housed follower_fresh).
  apply injective_projections; [vm_compute; reflexivity|reflexivity].
Defined.

(** A node that already holds the collection of the archive dies between the two
    renames of [install_snapshot]. *)
Definition dies_installing : Disk := disk_of (move_aside ("u1" : @Uuid Samples.uuid) leader).2.

(** A crash in [install_snapshot] between moving a collection aside and putting
    the new one in its place leaves the old catalog without the directory of that
    collection: the node does not start again, although the old data is still on
    disk. *)
Theorem interrupted_install_blocks_open :
  Demo.open_error dies_installing
  = Some (Recovery (Msg "catalog entry {uuid} has no data dir" ["u1"])).
Proof. vm_compute. done. Qed.
End SnapDemo.
