(* ===== verification/Conversions.v ===== *)
(** * Raft messages and their protobuf form (crates/proto/src/conversions.rs)

    The Raft types of openraft and the conversions to and from the generated
    messages of [raft.proto].  Sub-messages are optional on the wire, so the
    conversions from protobuf fail on a missing one. *)

From S2P Require Import Prelude Bytes Proto.

Open Scope Z_scope.

(** ** The openraft types

    Public structs of openraft with [NodeId = u64], [Node = raft::Node] and
    [D = Command].  [Membership] hides its fields: [Membership::new] adds a default
    node for every voter without one. *)

Module openraft.

Record LeaderId := { term : Z; leader_node : Z }.
Record Vote := { leader_id : LeaderId; committed : bool }.
Record LogId := { log_leader : LeaderId; index : Z }.

Class MembershipApi := {
  Membership : Type;
  Membership_new : list (gset Z) → gmap Z raft.Node → Membership;
  get_joint_config : Membership → list (gset Z);
  membership_nodes : Membership → gmap Z raft.Node;
  Membership_default : Membership;
  config_new cs ns : get_joint_config (Membership_new cs ns) = cs;
  nodes_new cs ns :
    (∀ i, i ∈ ⋃ cs → is_Some (ns !! i)) → membership_nodes (Membership_new cs ns) = ns;
  voters_have_nodes m i : i ∈ ⋃ get_joint_config m → is_Some (membership_nodes m !! i);
  membership_eq m m' :
    get_joint_config m = get_joint_config m' → membership_nodes m = membership_nodes m' → m = m'
}.

Section types.
Context `{MembershipApi}.

Record StoredMembership := { stored_log_id : option LogId; stored_membership : Membership }.

Record SnapshotMeta := {
  last_log_id : option LogId;
  last_membership : StoredMembership;
  snapshot_id : string
}.

Inductive EntryPayload :=
| Blank
| Normal (cmd : v1.Command)
| MembershipChange (m : Membership).

Record Entry := { log_id : LogId; payload : EntryPayload }.

Record VoteRequest := { req_vote : Vote; req_last_log_id : option LogId }.
Record VoteResponse := { resp_vote : Vote; vote_granted : bool; resp_last_log_id : option LogId }.
Record AppendEntriesRequest := {
  append_vote : Vote;
  prev_log_id : option LogId;
  append_entries : list Entry;
  leader_commit : option LogId
}.
Inductive AppendEntriesResponse :=
| Success
| PartialSuccess (m : option LogId)
| Conflict
| HigherVote (v : Vote).
Record SnapshotResponse := { snapshot_vote : Vote }.
End types.
End openraft.

(** ** Conversions *)

Inductive ConversionError := MissingField (field : string).

#[global] Instance ConversionError_eq_dec : EqDecision ConversionError.
Proof. solve_decision. Defined.

Abbreviation conv := (result ConversionError).

Definition require {T} (opt : option T) (field : string) : conv T := ok_or (MissingField field) opt.

(** [opt.map(TryInto::try_into).transpose()?]. *)
Definition try_opt {A B} (f : A → conv B) (o : option A) : conv (option B) :=
  match o with
  | Some a => b ← f a; mret (Some b)
  | None => Ok None
  end.

Definition LeaderId_to (v : openraft.LeaderId) : raft.LeaderId :=
  {| raft.leader_term := openraft.term v; raft.leader_node_id := openraft.leader_node v |}.
Definition LeaderId_from (v : raft.LeaderId) : openraft.LeaderId :=
  {| openraft.term := raft.leader_term v; openraft.leader_node := raft.leader_node_id v |}.

Definition Vote_to (v : openraft.Vote) : raft.Vote :=
  {| raft.vote_leader_id := Some (LeaderId_to (openraft.leader_id v));
     raft.vote_committed := openraft.committed v |}.
Definition Vote_try_from (v : raft.Vote) : conv openraft.Vote :=
  l ← require (raft.vote_leader_id v) "Vote.leader_id";
  mret {| openraft.leader_id := LeaderId_from l; openraft.committed := raft.vote_committed v |}.

Definition LogId_to (v : openraft.LogId) : raft.LogId :=
  {| raft.log_leader_id := Some (LeaderId_to (openraft.log_leader v));
     raft.log_index := openraft.index v |}.
Definition LogId_try_from (v : raft.LogId) : conv openraft.LogId :=
  l ← require (raft.log_leader_id v) "LogId.leader_id";
  mret {| openraft.log_leader := LeaderId_from l; openraft.index := raft.log_index v |}.

Section Conversions.
Context `{openraft.MembershipApi}.

(** A [BTreeSet] is iterated in ascending order. *)
Definition Membership_to (m : openraft.Membership) : raft.Membership :=
  {| raft.configs := (λ set, {| raft.node_ids := merge_sort Z.le (elements set) |})
                       <$> openraft.get_joint_config m;
     raft.nodes := openraft.membership_nodes m |}.
Definition Membership_try_from (m : raft.Membership) : conv openraft.Membership :=
  Ok (openraft.Membership_new ((λ s, list_to_set (raft.node_ids s)) <$> raft.configs m)
        (raft.nodes m)).

Definition StoredMembership_to (s : openraft.StoredMembership) : raft.StoredMembership :=
  {| raft.sm_log_id := LogId_to <$> openraft.stored_log_id s;
     raft.sm_membership := Some (Membership_to (openraft.stored_membership s)) |}.
Definition StoredMembership_try_from (s : raft.StoredMembership) : conv openraft.StoredMembership :=
  log_id ← try_opt LogId_try_from (raft.sm_log_id s);
  m ← require (raft.sm_membership s) "StoredMembership.membership";
  membership ← Membership_try_from m;
  mret {| openraft.stored_log_id := log_id; openraft.stored_membership := membership |}.

Definition SnapshotMeta_to (m : openraft.SnapshotMeta) : raft.SnapshotMeta :=
  {| raft.meta_last_log_id := LogId_to <$> openraft.last_log_id m;
     raft.meta_last_membership := Some (StoredMembership_to (openraft.last_membership m));
     raft.meta_snapshot_id := openraft.snapshot_id m |}.
Definition SnapshotMeta_try_from (m : raft.SnapshotMeta) : conv openraft.SnapshotMeta :=
  log_id ← try_opt LogId_try_from (raft.meta_last_log_id m);
  lm ← require (raft.meta_last_membership m) "SnapshotMeta.last_membership";
  membership ← StoredMembership_try_from lm;
  mret {| openraft.last_log_id := log_id; openraft.last_membership := membership;
          openraft.snapshot_id := raft.meta_snapshot_id m |}.

Definition Entry_to (e : openraft.Entry) : raft.Entry :=
  {| raft.entry_log_id := Some (LogId_to (openraft.log_id e));
     raft.entry_payload := Some
       match openraft.payload e with
       | openraft.Blank => raft.PayloadBlank
       | openraft.Normal cmd => raft.PayloadNormal cmd
       | openraft.MembershipChange m => raft.PayloadMembership (Membership_to m)
       end |}.
Definition Entry_try_from (e : raft.Entry) : conv openraft.Entry :=
  l ← require (raft.entry_log_id e) "Entry.log_id";
  log_id ← LogId_try_from l;
  p ← require (raft.entry_payload e) "Entry.payload";
  payload ←
    match p with
    | raft.PayloadBlank => Ok openraft.Blank
    | raft.PayloadNormal cmd => Ok (openraft.Normal cmd)
    | raft.PayloadMembership m => m ← Membership_try_from m; Ok (openraft.MembershipChange m)
    end;
  mret {| openraft.log_id := log_id; openraft.payload := payload |}.

Definition VoteRequest_to (r : openraft.VoteRequest) : raft.VoteRequest :=
  {| raft.vq_vote := Some (Vote_to (openraft.req_vote r));
     raft.vq_last_log_id := LogId_to <$> openraft.req_last_log_id r |}.
Definition VoteRequest_try_from (r : raft.VoteRequest) : conv openraft.VoteRequest :=
  v ← require (raft.vq_vote r) "VoteRequest.vote";
  vote ← Vote_try_from v;
  last ← try_opt LogId_try_from (raft.vq_last_log_id r);
  mret {| openraft.req_vote := vote; openraft.req_last_log_id := last |}.

Definition VoteResponse_to (r : openraft.VoteResponse) : raft.VoteResponse :=
  {| raft.vr_vote := Some (Vote_to (openraft.resp_vote r));
     raft.vr_vote_granted := openraft.vote_granted r;
     raft.vr_last_log_id := LogId_to <$> openraft.resp_last_log_id r |}.
Definition VoteResponse_try_from (r : raft.VoteResponse) : conv openraft.VoteResponse :=
  v ← require (raft.vr_vote r) "VoteResponse.vote";
  vote ← Vote_try_from v;
  last ← try_opt LogId_try_from (raft.vr_last_log_id r);
  mret {| openraft.resp_vote := vote; openraft.vote_granted := raft.vr_vote_granted r;
          openraft.resp_last_log_id := last |}.

Definition AppendEntriesRequest_to (r : openraft.AppendEntriesRequest) : raft.AppendEntriesRequest :=
  {| raft.aq_vote := Some (Vote_to (openraft.append_vote r));
     raft.aq_prev_log_id := LogId_to <$> openraft.prev_log_id r;
     raft.aq_entries := Entry_to <$> openraft.append_entries r;
     raft.aq_leader_commit := LogId_to <$> openraft.leader_commit r |}.
Definition AppendEntriesRequest_try_from (r : raft.AppendEntriesRequest) :
    conv openraft.AppendEntriesRequest :=
  entries ← collect Entry_try_from (raft.aq_entries r);
  v ← require (raft.aq_vote r) "AppendEntriesRequest.vote";
  vote ← Vote_try_from v;
  prev ← try_opt LogId_try_from (raft.aq_prev_log_id r);
  commit ← try_opt LogId_try_from (raft.aq_leader_commit r);
  mret {| openraft.append_vote := vote; openraft.prev_log_id := prev;
          openraft.append_entries := entries; openraft.leader_commit := commit |}.

Definition AppendEntriesResponse_to (r : openraft.AppendEntriesResponse) :
    raft.AppendEntriesResponse :=
  {| raft.ar_result := Some
       match r with
       | openraft.Success => raft.ResultSuccess
       | openraft.PartialSuccess m => raft.ResultPartialSuccess {| raft.matching := LogId_to <$> m |}
       | openraft.Conflict => raft.ResultConflict
       | openraft.HigherVote v => raft.ResultHigherVote (Vote_to v)
       end |}.
Definition AppendEntriesResponse_try_from (r : raft.AppendEntriesResponse) :
    conv openraft.AppendEntriesResponse :=
  res ← require (raft.ar_result r) "AppendEntriesResponse.result";
  match res with
  | raft.ResultSuccess => Ok openraft.Success
  | raft.ResultPartialSuccess p =>
      m ← try_opt LogId_try_from (raft.matching p); Ok (openraft.PartialSuccess m)
  | raft.ResultConflict => Ok openraft.Conflict
  | raft.ResultHigherVote v => v ← Vote_try_from v; Ok (openraft.HigherVote v)
  end.

Definition SnapshotResponse_to (r : openraft.SnapshotResponse) : raft.SnapshotResponse :=
  {| raft.sr_vote := Some (Vote_to (openraft.snapshot_vote r)) |}.
Definition SnapshotResponse_try_from (r : raft.SnapshotResponse) : conv openraft.SnapshotResponse :=
  v ← require (raft.sr_vote r) "SnapshotResponse.vote";
  vote ← Vote_try_from v;
  mret {| openraft.snapshot_vote := vote |}.
End Conversions.

(** ** Round trips *)

(** [f] decodes what [g] encodes. *)
Definition inverts {A B} (f : B → conv A) (g : A → B) : Prop := ∀ x, f (g x) = Ok x.

Create HintDb conv.

Lemma try_opt_inverts {A B} (f : B → conv A) (g : A → B) :
  inverts f g → inverts (try_opt f) (fmap g).
Proof. intros Hf [x|]; cbn; [by rewrite Hf|done]. Qed.

Lemma collect_inverts {A B} (f : B → conv A) (g : A → B) :
  inverts f g → inverts (collect f) (fmap g).
Proof.
  intros Hf l. apply collect_Ok. apply Forall2_fmap_l, Forall_Forall2_diag, Forall_forall.
  intros x _. apply Hf.
Qed.

Lemma Vote_inverts : inverts Vote_try_from Vote_to.
Proof. by intros [[] ?]. Qed.
Lemma LogId_inverts : inverts LogId_try_from LogId_to.
Proof. by intros [[] ?]. Qed.
#[export] Hint Resolve try_opt_inverts collect_inverts Vote_inverts LogId_inverts : conv.

#[local] Arguments try_opt : simpl never.
#[local] Arguments collect : simpl never.
#[local] Arguments LogId_try_from : simpl never.
#[local] Arguments LogId_to : simpl never.
#[local] Arguments Vote_try_from : simpl never.
#[local] Arguments Vote_to : simpl never.
#[local] Arguments Membership_try_from : simpl never.
#[local] Arguments Membership_to : simpl never.
#[local] Arguments StoredMembership_try_from : simpl never.
#[local] Arguments StoredMembership_to : simpl never.
#[local] Arguments Entry_try_from : simpl never.
#[local] Arguments Entry_to : simpl never.

(** Decode the next part of a message with its round trip [H]. *)
Ltac decode_with H := rewrite H; cbn -[fmap].

Section RoundTrips.
Context `{openraft.MembershipApi}.

Lemma sorted_set (s : gset Z) : list_to_set (merge_sort Z.le (elements s)) = s.
Proof.
  apply leibniz_equiv. rewrite (merge_sort_Permutation Z.le (elements s)). apply list_to_set_elements.
Qed.

Lemma Membership_inverts : inverts Membership_try_from Membership_to.
Proof.
  intros m. unfold Membership_try_from, Membership_to. cbn -[fmap]. rewrite <-list_fmap_compose.
  assert (E : (λ s, list_to_set (raft.node_ids s)) ∘ (λ set : gset Z,
      {| raft.node_ids := merge_sort Z.le (elements set) |}) <$> openraft.get_joint_config m
    = openraft.get_joint_config m).
  { rewrite <-(list_fmap_id (openraft.get_joint_config m)) at 2. apply list_fmap_ext.
    intros _ s _. apply sorted_set. }
  rewrite E. f_equal. apply openraft.membership_eq; [apply openraft.config_new|].
  apply openraft.nodes_new, openraft.voters_have_nodes.
Qed.

Lemma StoredMembership_inverts : inverts StoredMembership_try_from StoredMembership_to.
Proof.
  intros [l m]. unfold StoredMembership_try_from, StoredMembership_to. cbn -[fmap].
  decode_with (try_opt_inverts _ _ LogId_inverts l). by decode_with (Membership_inverts m).
Qed.

Lemma SnapshotMeta_inverts : inverts SnapshotMeta_try_from SnapshotMeta_to.
Proof.
  intros [l m s]. unfold SnapshotMeta_try_from, SnapshotMeta_to. cbn -[fmap].
  decode_with (try_opt_inverts _ _ LogId_inverts l). by decode_with (StoredMembership_inverts m).
Qed.

Lemma Entry_inverts : inverts Entry_try_from Entry_to.
Proof.
  intros [l p]. unfold Entry_try_from, Entry_to. cbn -[fmap].
  decode_with (LogId_inverts l). destruct p as [|c|m]; [done..|]. by decode_with (Membership_inverts m).
Qed.

Lemma VoteRequest_inverts : inverts VoteRequest_try_from VoteRequest_to.
Proof.
  intros [v l]. unfold VoteRequest_try_from, VoteRequest_to. cbn -[fmap].
  decode_with (Vote_inverts v). by decode_with (try_opt_inverts _ _ LogId_inverts l).
Qed.

Lemma VoteResponse_inverts : inverts VoteResponse_try_from VoteResponse_to.
Proof.
  intros [v b l]. unfold VoteResponse_try_from, VoteResponse_to. cbn -[fmap].
  decode_with (Vote_inverts v). by decode_with (try_opt_inverts _ _ LogId_inverts l).
Qed.

Lemma AppendEntriesRequest_inverts :
  inverts AppendEntriesRequest_try_from AppendEntriesRequest_to.
Proof.
  intros [v p es c]. unfold AppendEntriesRequest_try_from, AppendEntriesRequest_to. cbn -[fmap].
  rewrite (collect_inverts _ _ Entry_inverts es). cbn -[fmap].
  decode_with (Vote_inverts v). decode_with (try_opt_inverts _ _ LogId_inverts p).
  by decode_with (try_opt_inverts _ _ LogId_inverts c).
Qed.

Lemma AppendEntriesResponse_inverts :
  inverts AppendEntriesResponse_try_from AppendEntriesResponse_to.
Proof.
  intros [|m| |v]; cbn -[fmap]; [done| |done|by decode_with (Vote_inverts v)].
  by decode_with (try_opt_inverts _ _ LogId_inverts m).
Qed.

Lemma SnapshotResponse_inverts : inverts SnapshotResponse_try_from SnapshotResponse_to.
Proof.
  intros [v]. unfold SnapshotResponse_try_from, SnapshotResponse_to. cbn -[fmap].
  by decode_with (Vote_inverts v).
Qed.

(** C30: Every Raft message and log entry survives its protobuf form: converting to
    the wire message and back returns the value itself, memberships (whose voter
    sets are lists on the wire) included. *)
Theorem raft_messages_roundtrip :
  inverts Entry_try_from Entry_to ∧ inverts SnapshotMeta_try_from SnapshotMeta_to
  ∧ inverts VoteRequest_try_from VoteRequest_to ∧ inverts VoteResponse_try_from VoteResponse_to
  ∧ inverts AppendEntriesRequest_try_from AppendEntriesRequest_to
  ∧ inverts AppendEntriesResponse_try_from AppendEntriesResponse_to
  ∧ inverts SnapshotResponse_try_from SnapshotResponse_to.
Proof.
  split_and!; [apply Entry_inverts|apply SnapshotMeta_inverts|apply VoteRequest_inverts|
    apply VoteResponse_inverts|apply AppendEntriesRequest_inverts|apply AppendEntriesResponse_inverts|
    apply SnapshotResponse_inverts].
Qed.

(** ** Incomplete messages *)

Definition log_id_complete (l : raft.LogId) : bool := bool_decide (is_Some (raft.log_leader_id l)).
Definition opt_complete {A} (p : A → bool) (o : option A) : bool :=
  match o with
  | Some a => p a
  | None => true
  end.
Definition vote_complete (v : raft.Vote) : bool := bool_decide (is_Some (raft.vote_leader_id v)).
Definition entry_complete (e : raft.Entry) : bool :=
  match raft.entry_log_id e, raft.entry_payload e with
  | Some l, Some _ => log_id_complete l
  | _, _ => false
  end.
Definition append_complete (r : raft.AppendEntriesRequest) : bool :=
  forallb entry_complete (raft.aq_entries r)
  && match raft.aq_vote r with Some v => vote_complete v | None => false end
  && opt_complete log_id_complete (raft.aq_prev_log_id r)
  && opt_complete log_id_complete (raft.aq_leader_commit r).

(** [r] is accepted exactly if [b], and otherwise fails with an error. *)
Definition accepts {A} (r : conv A) (b : bool) : Prop :=
  match r with
  | Ok _ => b = true
  | Err _ => b = false
  | Panic _ => False
  end.

Lemma accepts_bind {A B} (r : conv A) (f : A → conv B) b c :
  accepts r b → (∀ a, r = Ok a → accepts (f a) c) → accepts (r ≫= f) (b && c).
Proof. destruct r; cbn; [|by intros ->|done]. intros -> Hf. by apply Hf. Qed.

Lemma accepts_require {A} (o : option A) f : accepts (require o f) (bool_decide (is_Some o)).
Proof. by destruct o. Qed.

Lemma try_opt_accepts {A B} (f : A → conv B) p o :
  (∀ a, accepts (f a) (p a)) → accepts (try_opt f o) (opt_complete p o).
Proof. intros Hf. destruct o as [a|]; [|done]. specialize (Hf a). unfold try_opt. by destruct (f a). Qed.

Lemma collect_accepts {A B} (f : A → conv B) p l :
  (∀ a, accepts (f a) (p a)) → accepts (collect f l) (forallb p l).
Proof.
  intros Hf. induction l as [|a l IH]; [done|]. cbn [collect forallb]. apply accepts_bind; [apply Hf|].
  intros b _. rewrite <-(andb_true_r (forallb p l)). by apply accepts_bind.
Qed.

Lemma LogId_accepts l : accepts (LogId_try_from l) (log_id_complete l).
Proof. by destruct l as [[]]. Qed.
Lemma Vote_accepts v : accepts (Vote_try_from v) (vote_complete v).
Proof. by destruct v as [[]]. Qed.
Lemma Entry_accepts e : accepts (Entry_try_from e) (entry_complete e).
Proof.
  destruct e as [[l|] [p|]]; unfold entry_complete; cbn; [| |done..]; pose proof (LogId_accepts l) as Hl.
  - unfold Entry_try_from. cbn. destruct (LogId_try_from l); cbn; [|done..]. by destruct p.
  - unfold Entry_try_from. cbn. by destruct (LogId_try_from l).
Qed.

(** A wire append request is accepted exactly when no required sub-message is
    missing (the vote with its leader, the leader of every log id, and for every
    entry its log id and payload); any other request is refused with an error,
    never a panic. *)
Theorem append_request_accepted_iff r :
  accepts (AppendEntriesRequest_try_from r) (append_complete r).
Proof.
  unfold append_complete, AppendEntriesRequest_try_from. rewrite <-!andb_assoc.
  apply accepts_bind; [apply collect_accepts, Entry_accepts|]. intros es _.
  destruct (raft.aq_vote r) as [v|]; cbn; [|done].
  apply accepts_bind; [apply Vote_accepts|]. intros v' _.
  apply accepts_bind; [apply try_opt_accepts, LogId_accepts|]. intros p _.
  rewrite <-(andb_true_r (opt_complete _ (raft.aq_leader_commit r))).
  by apply accepts_bind; [apply try_opt_accepts, LogId_accepts|].
Qed.
End RoundTrips.
