(* ===== verification/LogStore.v ===== *)
(** * The Raft log store (crates/cluster/src/log_store.rs)

    Raft entries in a segmented log under [log/], and the vote, the committed id and
    the purge point in [raft-meta.pb], replaced atomically on every change.  The
    async methods run to completion under their locks. *)

From S2P Require Import Prelude Bytes CoreError FileSys SegmentedLog Proto Conversions.

Open Scope Z_scope.

Definition META_FILE : string := "raft-meta.pb".
Definition META_TMP : string := ".raft-meta.pb.tmp".

(** [StorageError]: the subject and verb of the failed operation, and its cause. *)
Inductive cause :=
| CoreCause (e : Error)
| IoCause (e : io_error)
| DecodeCause
| ConversionCause (e : ConversionError)
| MissingRecord (index : Z).

Inductive StorageError :=
| ReadLogs (c : cause)
| WriteLogs (c : cause)
| ReadVote (c : cause)
| WriteVote (c : cause)
| ReadStateMachine (c : cause)
| WriteStateMachine (c : cause)
| Apply (log_id : openraft.LogId) (c : cause).

(** A [RangeBounds<u64>]. *)
Inductive Bound := Included (z : Z) | Excluded (z : Z) | Unbounded.
Record bounds := { start_bound : Bound; end_bound : Bound }.

Definition concrete_range (range : bounds) (last : option Z) : Z * Z :=
  let from :=
    match start_bound range with
    | Included s => s
    | Excluded s => saturating_succ s
    | Unbounded => 0
    end in
  let to :=
    match end_bound range with
    | Included e => saturating_succ e
    | Excluded e => e
    | Unbounded => match last with Some l => saturating_succ l | None => 0 end
    end in
  (from, to).

Record Meta := {
  vote : option openraft.Vote;
  committed : option openraft.LogId;
  last_purged : option openraft.LogId
}.
Definition Meta_default : Meta := {| vote := None; committed := None; last_purged := None |}.
Definition set_vote (v : option openraft.Vote) (m : Meta) : Meta :=
  {| vote := v; committed := committed m; last_purged := last_purged m |}.
Definition set_committed (c : option openraft.LogId) (m : Meta) : Meta :=
  {| vote := vote m; committed := c; last_purged := last_purged m |}.
Definition set_last_purged (l : option openraft.LogId) (m : Meta) : Meta :=
  {| vote := vote m; committed := committed m; last_purged := l |}.

Record LogState := {
  last_purged_log_id : option openraft.LogId;
  state_last_log_id : option openraft.LogId
}.

Section LogStore.
Context `{Crc32c} `{openraft.MembershipApi} `{!Codec raft.Entry} `{!Codec raft.RaftMeta}.

(** The store, its directory and the directory of its log. *)
Record StoreSt := { s_log : LogSt; s_meta : Meta; s_dir : dir }.

(** What is on disk when no process runs. *)
Record StoreDisk := { sd_log : dir; sd_dir : dir }.
Definition store_disk (st : StoreSt) : StoreDisk := {| sd_log := disk (s_log st); sd_dir := s_dir st |}.

Abbreviation MS := (M StoreSt StorageError).

Definition on_log {A} (wrap : cause → StorageError) (m : M LogSt Error A) : MS A :=
  mapE (λ e, wrap (CoreCause e))
    (zoom s_log (λ l s, {| s_log := l; s_meta := s_meta s; s_dir := s_dir s |}) m).
Definition on_dir {A} (wrap : cause → StorageError) (m : IO A) : MS A :=
  mapE (λ e, wrap (IoCause e))
    (zoom s_dir (λ d s, {| s_log := s_log s; s_meta := s_meta s; s_dir := d |}) m).
Definition on_meta (f : Meta → Meta) : MS unit :=
  modify (λ s, {| s_log := s_log s; s_meta := f (s_meta s); s_dir := s_dir s |}).

Definition decode_entry (bytes : list byte) : result StorageError openraft.Entry :=
  proto ← ok_or (ReadLogs DecodeCause) (decode bytes);
  map_err (λ e, ReadLogs (ConversionCause e)) (Entry_try_from proto).

(** ** The meta file *)

Definition meta_proto (m : Meta) : raft.RaftMeta :=
  {| raft.rm_vote := Vote_to <$> vote m; raft.rm_committed := LogId_to <$> committed m;
     raft.rm_last_purged := LogId_to <$> last_purged m |}.

Definition load_meta (d : dir) : result StorageError Meta :=
  match (fs_read META_FILE d).1 with
  | Ok bytes =>
      proto ← ok_or (ReadVote DecodeCause) (decode bytes);
      v ← map_err (λ e, ReadVote (ConversionCause e)) (try_opt Vote_try_from (raft.rm_vote proto));
      c ← map_err (λ e, ReadLogs (ConversionCause e)) (try_opt LogId_try_from (raft.rm_committed proto));
      p ← map_err (λ e, ReadLogs (ConversionCause e)) (try_opt LogId_try_from (raft.rm_last_purged proto));
      mret {| vote := v; committed := c; last_purged := p |}
  | Err NotFound => Ok Meta_default
  | Err e => Err (ReadVote (IoCause e))
  | Panic w => Panic w
  end.

Definition persist_meta (m : Meta) : IO unit :=
  file_create META_TMP;;
  write_all META_TMP (encode_to_vec (meta_proto m));;
  fsync META_TMP;;
  rename META_TMP META_FILE.

(** ** The store *)

Definition store_open (sd : StoreDisk) : result StorageError StoreSt * StoreDisk :=
  match SegmentedLog.open (sd_log sd) with
  | (Ok l, ld) =>
      let sd := {| sd_log := ld; sd_dir := sd_dir sd |} in
      match load_meta (sd_dir sd) with
      | Ok meta =>
          let st := {| s_log := {| slf := l; disk := ld |}; s_meta := meta; s_dir := sd_dir sd |} in
          let '(r, st) :=
            match last_purged meta with
            | Some purged => on_log WriteLogs (purge_through (openraft.index purged)) st
            | None => (Ok tt, st)
            end in
          (r;; Ok st, store_disk st)
      | Err e => (Err e, sd)
      | Panic w => (Panic w, sd)
      end
  | (Err e, ld) => (Err (ReadLogs (CoreCause e)), {| sd_log := ld; sd_dir := sd_dir sd |})
  | (Panic w, ld) => (Panic w, {| sd_log := ld; sd_dir := sd_dir sd |})
  end.

Definition try_get_log_entries (range : bounds) : MS (list openraft.Entry) :=
  s ← get;
  let '(from, to) := concrete_range range (last_index (slf (s_log s))) in
  records ← on_log ReadLogs (read_range from to);
  lift (collect (λ '(_, bytes), decode_entry bytes) records).

Definition get_log_state : MS LogState :=
  s ← get;
  let last_purged := last_purged (s_meta s) in
  last_log_id ←
    match last_index (slf (s_log s)) with
    | Some index =>
        records ← on_log ReadLogs (read_range index (saturating_succ index));
        entry ← lift (ok_or (ReadLogs (MissingRecord index)) (head records));
        e ← lift (decode_entry entry.2);
        mret (Some (openraft.log_id e))
    | None => mret last_purged
    end;
  mret {| last_purged_log_id := last_purged; state_last_log_id := last_log_id |}.

(** [persist_meta(&self.inner.dir, &meta)]. *)
Definition save_meta (wrap : cause → StorageError) : MS unit :=
  s ← get; on_dir wrap (persist_meta (s_meta s)).

Definition save_vote (v : openraft.Vote) : MS unit :=
  on_meta (set_vote (Some v));; save_meta WriteVote.
Definition read_vote : MS (option openraft.Vote) := s ← get; mret (vote (s_meta s)).

Definition save_committed (c : option openraft.LogId) : MS unit :=
  on_meta (set_committed c);; save_meta WriteLogs.
Definition read_committed : MS (option openraft.LogId) := s ← get; mret (committed (s_meta s)).

(** The loop of [append]. *)
Definition append_entry (entry : openraft.Entry) : MS unit :=
  on_log WriteLogs
    (append (openraft.index (openraft.log_id entry)) (encode_to_vec (Entry_to entry))).

(** [append]: the flush callback runs after the sync; its argument is the result. *)
Definition store_append (entries : list openraft.Entry) : MS unit :=
  for_each entries append_entry;;
  on_log WriteLogs sync.

Definition truncate (log_id : openraft.LogId) : MS unit :=
  on_log WriteLogs (truncate_from (openraft.index log_id)).

Definition purge (log_id : openraft.LogId) : MS unit :=
  on_meta (set_last_purged (Some log_id));;
  save_meta WriteLogs;;
  on_log WriteLogs (purge_through (openraft.index log_id)).
End LogStore.
