(* ===== verification/LogStoreSpec.v ===== *)
(** * The Raft log store: specification and correctness

    What openraft may rely on: the vote, the committed id and the purge point are
    durable when the call returns, appended entries are durable and read back
    unchanged, truncation and purging remove exactly a suffix or a prefix. *)

From S2P Require Import Prelude Bytes CoreError FileSys SegmentedLog LogInv LogSpec LogCorrect Proto Conversions LogStore.

Open Scope Z_scope.

Section LogStoreSpec.
Context `{Crc32c} `{openraft.MembershipApi} `{!Codec raft.Entry} `{!Codec raft.RaftMeta}.

(** ** The abstract store *)

Record raft_log := {
  rl_meta : Meta;
  rl_entries : list openraft.Entry;
  (** the index of the next entry, once the log has held one *)
  rl_next : option Z
}.

Definition entry_index (e : openraft.Entry) : Z := openraft.index (openraft.log_id e).

(** The purge floor: the index of the last purged entry. *)
Definition floor_of (m : Meta) : Z :=
  match last_purged m with
  | Some l => openraft.index l
  | None => -1
  end.

Inductive store_op :=
| SaveVote (v : openraft.Vote)
| SaveCommitted (c : option openraft.LogId)
| Append (es : list openraft.Entry)
| Truncate (l : openraft.LogId)
| Purge (l : openraft.LogId).

Definition store_run (o : store_op) : M StoreSt StorageError unit :=
  match o with
  | SaveVote v => save_vote v
  | SaveCommitted c => save_committed c
  | Append es => store_append es
  | Truncate l => truncate l
  | Purge l => purge l
  end.

(** The entries continue the log, with encodings that fit in a record. *)
Fixpoint continues (fl : Z) (next : option Z) (es : list openraft.Entry) : Prop :=
  match es with
  | [] => True
  | e :: es =>
      match next with
      | Some n => entry_index e = n
      | None => fl < entry_index e
      end
      ∧ 0 ≤ entry_index e ∧ entry_index e + 1 < two64 ∧ blen (encode_to_vec (Entry_to e)) < two32
      ∧ continues fl (Some (entry_index e + 1)) es
  end.

Definition next_after (next : option Z) (es : list openraft.Entry) : option Z :=
  match last es with
  | Some e => Some (entry_index e + 1)
  | None => next
  end.

(** What openraft ensures before a call. *)
Definition store_pre (r : raft_log) (o : store_op) : Prop :=
  match o with
  | SaveVote _ | SaveCommitted _ => True
  | Append es => continues (floor_of (rl_meta r)) (rl_next r) es
  | Truncate l => floor_of (rl_meta r) < openraft.index l
  | Purge l => floor_of (rl_meta r) ≤ openraft.index l
      ∧ ∀ n, rl_next r = Some n → openraft.index l < n
  end.

Definition store_post (r : raft_log) (o : store_op) : raft_log :=
  match o with
  | SaveVote v => {| rl_meta := set_vote (Some v) (rl_meta r);
                     rl_entries := rl_entries r; rl_next := rl_next r |}
  | SaveCommitted c => {| rl_meta := set_committed c (rl_meta r);
                          rl_entries := rl_entries r; rl_next := rl_next r |}
  | Append es => {| rl_meta := rl_meta r; rl_entries := rl_entries r ++ es;
                    rl_next := next_after (rl_next r) es |}
  | Truncate l => {| rl_meta := rl_meta r;
                     rl_entries := filter (λ e, entry_index e < openraft.index l) (rl_entries r);
                     rl_next := Z.min (openraft.index l) <$> rl_next r |}
  | Purge l => {| rl_meta := set_last_purged (Some l) (rl_meta r);
                  rl_entries := filter (λ e, openraft.index l < entry_index e) (rl_entries r);
                  rl_next := rl_next r |}
  end.

(** ** The refinement relation *)

Definition record (e : openraft.Entry) : Z * list byte := (entry_index e, encode_to_vec (Entry_to e)).

Definition meta_ok (d : dir) (m : Meta) : Prop :=
  d !! META_FILE = None ∧ m = Meta_default
  ∨ ∃ f, d !! META_FILE = Some f ∧ f_data f = encode_to_vec (meta_proto m)
      ∧ (length (f_data f) ≤ f_synced f)%nat.

(** The log [l] holds the entries [es] above the floor [fl]; those below [dur] are
    synced. *)
Record log_part (dur : option Z) (l : LogSt) (es : list openraft.Entry) (fl : Z) (next : option Z) :
    Prop := {
  lp_rel : ∃ a, log_rel DEFAULT_SEGMENT_MAX_BYTES l a ∧ al_entries a = record <$> es ∧ al_floor a = fl
    ∧ al_next a = next ∧ (∀ n, dur = Some n → n ≤ al_durable a)
    ∧ ∀ kv, kv ∈ al_past a → ∃ e, kv = record e ∧ 0 ≤ entry_index e ≤ fl;
  lp_floor : -1 ≤ fl;
  lp_above : Forall (λ e, fl < entry_index e) es;
  lp_next : ∀ n, next = Some n → fl < n ∧ Forall (λ e, entry_index e < n) es;
  lp_none : next = None → es = [];
  lp_room : ∀ n, next = Some n → n < two64
}.

Record store_rel (st : StoreSt) (r : raft_log) : Prop := {
  sr_meta : s_meta st = rl_meta r;
  sr_file : meta_ok (s_dir st) (rl_meta r);
  sr_log : log_part (rl_next r) (s_log st) (rl_entries r) (floor_of (rl_meta r)) (rl_next r)
}.

(** ** The log operations *)

Lemma max_ok : 0 ≤ DEFAULT_SEGMENT_MAX_BYTES < 2 ^ 63.
Proof. done. Qed.

Lemma filter_record (P : Z → Prop) `{!∀ z, Decision (P z)} (es : list openraft.Entry) :
  filter (λ kv, P kv.1) (record <$> es) = record <$> filter (λ e, P (entry_index e)) es.
Proof.
  induction es as [|e es IH]; [done|]. cbn [fmap list_fmap]. rewrite !filter_cons. cbn [record fst].
  case_decide; by rewrite IH.
Qed.

Lemma Forall_keep (P Q : openraft.Entry → Prop) `{!∀ e, Decision (Q e)} es :
  Forall P es → Forall P (filter Q es).
Proof.
  intros Hes. apply Forall_forall. intros e [_ Hin]%list_elem_of_filter.
  rewrite Forall_forall in Hes. by apply Hes.
Qed.

(** The first entry of a log is lost whole or not at all, so its index counts as synced
    with it. *)
Lemma part_append dur dur' l es fl next e :
  log_part dur l es fl next →
  match next with Some n => entry_index e = n | None => fl < entry_index e end →
  0 ≤ entry_index e → entry_index e + 1 < two64 → blen (encode_to_vec (Entry_to e)) < two32 →
  (∀ n, dur' = Some n → n ≤ entry_index e ∧ (next = None ∨ dur = Some n)) →
  ∃ l', append (entry_index e) (encode_to_vec (Entry_to e)) l = (Ok tt, l')
    ∧ log_part dur' l' (es ++ [e]) fl (Some (entry_index e + 1)).
Proof.
  intros [(a & Hr & He & Hf & Hn & Hd & Hp) Hfl Hab Hnx Hno Hroom] Hal H0' Hmax Hb Hdur.
  assert (Ha : index_allowed a (entry_index e)).
  { unfold index_allowed. rewrite Hn, Hf. by destruct next. }
  destruct (run_op_sim _ _ _ _ _ max_ok Hr (astep_append a _ _ Ha H0' Hmax Hb)) as (l' & E & Hr').
  assert (Hgt : fl < entry_index e) by (destruct next as [n|]; [by subst n; apply Hnx|done]).
  exists l'. split; [done|]. split; try done.
  - eexists. split; [exact Hr'|]. cbn. rewrite He, fmap_app. do 3 (split; [done|]). split; [|done].
    intros n En. destruct (Hdur n En) as [Hle Hor]. rewrite Hn. destruct next as [n'|]; [|done].
    destruct Hor as [?|Edur]; [done|]. specialize (Hd n Edur). lia.
  - apply Forall_app. split; [done|]. by constructor.
  - intros n [= <-]. split; [lia|]. apply Forall_app. split; [|constructor; [lia|constructor]].
    destruct next as [n|]; [|by rewrite Hno]. subst n.
    eapply Forall_impl; [by apply Hnx|]. cbn. lia.
  - by intros n [= <-].
Qed.

Lemma part_sync dur l es fl next :
  log_part dur l es fl next → ∃ l', sync l = (Ok tt, l') ∧ log_part next l' es fl next.
Proof.
  intros [(a & Hr & He & Hf & Hn & _ & Hp) Hfl Hab Hnx Hno Hroom].
  destruct (run_op_sim _ _ _ _ _ max_ok Hr (astep_sync a)) as (l' & E & Hr').
  exists l'. split; [done|]. split; try done.
  eexists. split; [exact Hr'|]. cbn. do 3 (split; [done|]). split; [|done].
  intros n ->. rewrite Hn. done.
Qed.

Lemma part_truncate l es fl next i :
  log_part next l es fl next → fl < i →
  ∃ l', truncate_from i l = (Ok tt, l')
    ∧ log_part (Z.min i <$> next) l' (filter (λ e, entry_index e < i) es) fl (Z.min i <$> next).
Proof.
  intros [(a & Hr & He & Hf & Hn & Hd & Hp) Hfl Hab Hnx Hno Hroom] Hi.
  destruct (run_op_sim _ _ _ _ _ max_ok Hr (astep_truncate a i ltac:(lia))) as (l' & E & Hr').
  exists l'. split; [done|]. split; try done.
  - eexists. split; [exact Hr'|]. cbn [al_entries al_floor al_next al_durable al_past]. rewrite He, Hn.
    split; [exact (filter_record (λ z, z < i) es)|]. do 2 (split; [done|]). split; [|done]. intros n (n0 & En & ->)%fmap_Some.
    specialize (Hd n0 En). lia.
  - by apply Forall_keep.
  - intros n (n0 & En & ->)%fmap_Some. destruct (Hnx n0 En) as [? Hlt]. split; [lia|].
    rewrite Forall_forall in Hlt. apply Forall_forall. intros e [? Hin]%list_elem_of_filter.
    specialize (Hlt e Hin). cbn in *. lia.
  - intros ->%fmap_None. by rewrite Hno.
  - intros n (n0 & En & ->)%fmap_Some. specialize (Hroom n0 En). lia.
Qed.

(** Any log that stands for the purged records. *)
Lemma part_purged l es fl next i :
  log_part next l es fl next → fl ≤ i → (∀ n, next = Some n → i < n) →
  ∃ a a', log_rel DEFAULT_SEGMENT_MAX_BYTES l a ∧ astep a (OpPurge i) a'
    ∧ ∀ l', log_rel DEFAULT_SEGMENT_MAX_BYTES l' a' → log_part next l' (filter (λ e, i < entry_index e) es) i next.
Proof.
  intros [(a & Hr & He & Hf & Hn & Hd & Hp) Hfl Hab Hnx Hno Hroom] Hi Hlt. subst fl.
  rewrite <-Hn in Hlt. eexists a, _. split; [done|]. split; [by apply astep_purge|]. intros l' Hr'. split; try lia.
  - eexists. split; [exact Hr'|]. cbn [al_entries al_floor al_next al_durable al_past]. rewrite He.
    split; [exact (filter_record (λ z, i < z) es)|]. do 3 (split; [done|]). intros kv [Hin|[Hle Hin]%list_elem_of_filter]%elem_of_app.
    + destruct (Hp kv Hin) as (e & -> & ?). exists e. split; [done|lia].
    + apply list_elem_of_fmap in Hin as (e & -> & Hin). exists e. split; [done|]. cbn in Hle.
      rewrite Forall_forall in Hab. specialize (Hab e Hin). cbn in Hab. lia.
  - apply Forall_forall. by intros e [? _]%list_elem_of_filter.
  - intros n En. split; [by apply Hlt; rewrite Hn|]. by apply Forall_keep, Hnx.
  - intros En. by rewrite (Hno En).
  - exact Hroom.
Qed.

Lemma part_purge l es fl next i :
  log_part next l es fl next → fl ≤ i → (∀ n, next = Some n → i < n) →
  ∃ l', purge_through i l = (Ok tt, l')
    ∧ log_part next l' (filter (λ e, i < entry_index e) es) i next.
Proof.
  intros Hl Hi Hlt. destruct (part_purged _ _ _ _ _ Hl Hi Hlt) as (a & a' & Hr & Hs & Hl').
  destruct (run_op_sim _ _ _ _ _ max_ok Hr Hs) as (l' & E & Hr'). eauto.
Qed.

#[local] Instance record_inj : Inj (=) (=) record.
Proof.
  intros e e' E. apply (f_equal snd) in E. cbn [record snd] in E.
  apply (f_equal (decode (T := raft.Entry))) in E. rewrite !decode_encode in E.
  assert (E' : Entry_try_from (Entry_to e) = Entry_try_from (Entry_to e')) by congruence.
  rewrite !Entry_inverts in E'. congruence.
Qed.

Lemma records_exist (l : list (Z * list byte)) :
  (∀ kv, kv ∈ l → ∃ e, kv = record e) → ∃ es, l = record <$> es.
Proof.
  induction l as [|kv l IH]; intros Hl; [by exists []|].
  destruct (Hl kv) as [e ->]; [left|]. destruct IH as [es ->]; [intros; apply Hl; by right|].
  by exists (e :: es).
Qed.

(** Reopening what a crash leaves of the log, before the purge is redone. *)
Lemma part_crash dur l es fl next d :
  log_part dur l es fl next → next = None ∨ (∃ n, dur = Some n ∧ fl < n) → crash (disk l) d →
  ∃ sl d' es0 next' m, SegmentedLog.open d = (Ok sl, d') ∧ (∀ n, dur = Some n → n ≤ m)
    ∧ log_part next' {| slf := sl; disk := d' |} es0 (-1) next' ∧ Forall (λ e, 0 ≤ entry_index e) es0
    ∧ filter (λ e, fl < entry_index e) es0 = filter (λ e, entry_index e < m) es
    ∧ (next' = Some m ∧ fl < m ∧ (∃ n, next = Some n ∧ m ≤ n) ∨ next' = None ∧ es0 = []).
Proof.
  intros [(a & Hr & He & Hf & Hn & Hd & Hp) Hfl Hab Hnx Hno Hroom] Hd0 Hc.
  destruct (crash_sim _ _ _ _ Hr Hc) as (sl & d' & a' & Eo & (m & Hm & Hent & Hsub & Hf' & Hp' & Hor) & Hr').
  assert (Hrec : ∀ kv, kv ∈ al_entries a' → ∃ e, kv = record e ∧ 0 ≤ entry_index e
                   ∧ (e ∈ es ∨ entry_index e ≤ fl)).
  { intros kv [Hin|Hin]%Hsub; [|destruct (Hp kv Hin) as (e & -> & ?); exists e; split; [done|]; split; [lia|]; right; lia].
    rewrite He in Hin. apply list_elem_of_fmap in Hin as (e & -> & Hin). exists e. split; [done|].
    rewrite Forall_forall in Hab. specialize (Hab e Hin). cbn in Hab. split; [lia|by left]. }
  destruct (records_exist (al_entries a')) as [es0 E0]; [by intros kv (e & -> & _)%Hrec; eauto|].
  assert (H0s : ∀ e, e ∈ es0 → 0 ≤ entry_index e ∧ (e ∈ es ∨ entry_index e ≤ fl)).
  { intros e Hin. destruct (Hrec (record e)) as (e' & <-%(inj record) & ?); [|done].
    rewrite E0. by apply list_elem_of_fmap_2. }
  assert (H0f : Forall (λ e, 0 ≤ entry_index e) es0) by (apply Forall_forall; intros e ?; by apply H0s).
  rewrite He, E0, Hf in Hent.
  assert (Hent' : filter (λ e, fl < entry_index e) es0 = filter (λ e, entry_index e < m) es).
  { apply (inj (fmap record)). etrans; [symmetry; exact (filter_record (λ z, fl < z) es0)|].
    etrans; [exact Hent|exact (filter_record (λ z, z < m) es)]. }
  clear Hent. rename Hent' into Hent.
  exists sl, d', es0, (al_next a'), m. split; [done|]. split; [intros n En; specialize (Hd n En); lia|].
  assert (Hfm : al_next a' = Some m → fl < m).
  { intros En. destruct Hor as [(_ & _ & n & En' & _)|[En' _]]; [|congruence].
    destruct Hd0 as [->|(n0 & Edur & ?)]; [congruence|]. specialize (Hd n0 Edur). lia. }
  split; [|split; [done|split; [done|]]].
  - split; try done.
    + exists a'. split; [done|]. split; [done|]. split; [done|]. split; [done|]. split.
      * intros n En. destruct Hor as [(Hn' & -> & _)|[Hn' _]]; rewrite Hn' in En; by simplify_eq.
      * rewrite Hp'. by intros ? ?%elem_of_nil.
    + eapply Forall_impl; [exact H0f|]. cbn. lia.
    + intros n En. destruct Hor as [(Hn' & _)|[Hn' _]]; rewrite Hn' in En; [|done]. injection En as <-.
      specialize (Hfm Hn'). split; [lia|]. apply Forall_forall. intros e Hin.
      destruct (H0s e Hin) as [? [Hin'|?]]; [|lia]. destruct (decide (fl < entry_index e)); [|lia].
      assert (Hin2 : e ∈ filter (λ e, fl < entry_index e) es0) by (by apply list_elem_of_filter).
      rewrite Hent in Hin2. by apply list_elem_of_filter in Hin2 as [? _].
    + intros En. destruct Hor as [(Hn' & _)|[_ Hz]]; [congruence|].
      rewrite E0 in Hz. by apply fmap_nil_inv in Hz.
    + intros n En. destruct Hor as [(Hn' & _ & n1 & En1 & ?)|[Hn' _]]; rewrite Hn' in En; [|done].
      injection En as <-. rewrite Hn in En1. specialize (Hroom n1 En1). lia.
  - destruct Hor as [(Hn' & _ & n & En & ?)|[Hn' Hz]].
    + left. split; [done|]. split; [by apply Hfm|]. rewrite Hn in En. by exists n.
    + right. split; [done|]. rewrite E0 in Hz. by apply fmap_nil_inv in Hz.
Qed.

(** ** The store operations *)

Lemma on_log_ok {A} wrap (m : M LogSt Error A) st r l :
  m (s_log st) = (Ok r, l) →
  on_log wrap m st = (Ok r, {| s_log := l; s_meta := s_meta st; s_dir := s_dir st |}).
Proof. intros E. unfold on_log, mapE, zoom. by rewrite E. Qed.

Lemma save_meta_ok wrap st :
  ∃ d, save_meta wrap st = (Ok tt, {| s_log := s_log st; s_meta := s_meta st; s_dir := d |})
    ∧ meta_ok d (s_meta st).
Proof.
  destruct (replace_ok META_TMP META_FILE (encode_to_vec (meta_proto (s_meta st))) (s_dir st))
    as (d & E & Hd).
  exists d. split; [unfold save_meta; mpure; unfold on_dir, mapE, zoom, persist_meta; by rewrite E|].
  right. by eexists.
Qed.

Lemma appends_ok es : ∀ dur st es0 fl next,
  log_part dur (s_log st) es0 fl next → (∀ n, dur = Some n → ∀ n', next = Some n' → n ≤ n') →
  (dur ≠ None → next ≠ None) → continues fl next es →
  ∃ l, for_each es append_entry st = (Ok tt, {| s_log := l; s_meta := s_meta st; s_dir := s_dir st |})
    ∧ log_part dur l (es0 ++ es) fl (next_after next es).
Proof.
  induction es as [|e es IH]; intros dur st es0 fl next Hl Hdn Hsome Hc.
  { exists (s_log st). rewrite app_nil_r. split; [by destruct st|done]. }
  destruct Hc as (Hn & H0' & Hm & Hb & Hc).
  destruct (part_append dur dur (s_log st) es0 fl next e Hl Hn H0' Hm Hb) as (l1 & E1 & Hl1).
  { intros n En. split; [|by right]. destruct next as [n'|]; [rewrite Hn; by apply (Hdn n En)|]. exfalso. by apply Hsome; [congruence|]. }
  edestruct (IH dur {| s_log := l1; s_meta := s_meta st; s_dir := s_dir st |}) as (l2 & E2 & Hl2);
    [exact Hl1| |done|exact Hc|].
  { intros n En n' [= <-]. destruct next as [n1|]; [specialize (Hdn n En n1 eq_refl); lia|].
    exfalso. by apply Hsome; [congruence|]. }
  exists l2. split; [cbn [for_each]; erewrite M_bind_Ok; [exact E2|by apply on_log_ok]|].
  rewrite <-app_assoc in Hl2. cbn in Hl2. unfold next_after in *. rewrite last_cons.
  by destruct (last es).
Qed.

Lemma store_sim st r o :
  store_rel st r → store_pre r o →
  ∃ st', store_run o st = (Ok tt, st') ∧ store_rel st' (store_post r o).
Proof.
  intros [Hm Hf Hl] Hpre. destruct o as [v|c|es|l|l]; cbn [store_run store_post] in *.
  - unfold save_vote. mpure. edestruct save_meta_ok as (d & -> & Hd). cbn in Hd. rewrite Hm in Hd.
    eexists. split; [done|]. by split; cbn; [rewrite Hm|..].
  - unfold save_committed. mpure. edestruct save_meta_ok as (d & -> & Hd). cbn in Hd. rewrite Hm in Hd.
    eexists. split; [done|]. by split; cbn; [rewrite Hm|..].
  - destruct (appends_ok es (rl_next r) st (rl_entries r) _ _ Hl) as (l1 & E1 & Hl1); [|done|done|].
    { intros n En n' En'. rewrite En in En'. injection En' as <-. lia. }
    destruct (part_sync _ _ _ _ _ Hl1) as (l2 & E2 & Hl2).
    eexists. split; [unfold store_append; rewrite (M_bind_Ok _ _ _ _ _ E1); by apply on_log_ok|by split].
  - destruct (part_truncate _ _ _ _ _ Hl Hpre) as (l' & E & Hl').
    eexists. split; [by apply on_log_ok|by split].
  - destruct Hpre as [Hle Hlt]. destruct (part_purge _ _ _ _ _ Hl Hle Hlt) as (l' & E & Hl').
    unfold purge. mpure.
    destruct (save_meta_ok WriteLogs {| s_log := s_log st; s_meta := set_last_purged (Some l) (s_meta st);
      s_dir := s_dir st |}) as (d & Ed & Hd). cbn in Hd. rewrite Hm in Hd.
    eexists. split; [rewrite (M_bind_Ok _ _ _ _ _ Ed); by apply on_log_ok|].
    by split; cbn; [rewrite Hm|..].
Qed.

(** ** Restarts *)

Definition crash_store (sd sd' : StoreDisk) : Prop :=
  crash (sd_log sd) (sd_log sd') ∧ crash (sd_dir sd) (sd_dir sd').

Lemma load_meta_ok d m : meta_ok d m → load_meta d = Ok m.
Proof.
  unfold load_meta. intros [[Hn ->]|(f & Hf & Hd & _)].
  - unfold fs_read, fs_lookup, mbind, M_bind. by rewrite Hn.
  - rewrite (fs_read_ok _ _ _ Hf). cbn [fst]. rewrite Hd, decode_encode. destruct m as [v c p].
    cbn -[fmap]. rewrite (try_opt_inverts _ _ Vote_inverts v). cbn -[fmap].
    rewrite (try_opt_inverts _ _ LogId_inverts c). cbn -[fmap].
    by rewrite (try_opt_inverts _ _ LogId_inverts p).
Qed.

Lemma meta_ok_crash d d' m : crash d d' → meta_ok d m → meta_ok d' m.
Proof.
  intros Hc [[Hn ->]|(f & Hf & Hd & Hs)].
  - left. split; [by eapply crash_lookup_None|done].
  - right. destruct (crash_lookup _ _ _ _ Hc Hf) as (f' & Hf' & Hcf).
    pose proof (crash_file_synced _ _ Hs Hcf) as E. destruct Hcf as (_ & _ & _ & Hsy').
    exists f'. split_and!; [done|congruence|lia].
Qed.

(** Opening a store whose log part is [dur]-synced and whose meta file holds [m], which
    may have been written before the log was purged. *)
Lemma store_open_purges dur l es fl next sd m :
  log_part dur l es fl next → fl ≤ floor_of m →
  next = None ∨ (∃ n, dur = Some n ∧ floor_of m < n) → crash (disk l) (sd_log sd) →
  meta_ok (sd_dir sd) m →
  ∃ st' next' mark, store_open sd = (Ok st', store_disk st')
    ∧ store_rel st' {| rl_meta := m; rl_next := next';
                       rl_entries := filter (λ e, floor_of m < entry_index e) (filter (λ e, entry_index e < mark) es) |}
    ∧ (∀ n, dur = Some n → n ≤ mark)
    ∧ (next' = Some mark ∧ (∃ n, next = Some n ∧ mark ≤ n) ∨ next' = None ∧ filter (λ e, entry_index e < mark) es = []).
Proof.
  intros Hl Hle Hdn Hc Hm.
  destruct (part_crash _ _ _ _ _ (sd_log sd) Hl)
    as (sl & d' & es0 & next' & mark & Eo & Hmark & Hl0 & H0s & Hfil & Hor); [|done|].
  { destruct Hdn as [?|(n & ? & ?)]; [by left|right]. exists n. split; [done|lia]. }
  assert (Hmk : ∀ n, next' = Some n → floor_of m < n).
  { intros n ->. destruct Hor as [([= ->] & _ & n' & En & _)|[? _]]; [|done].
    destruct Hdn as [->|(n1 & E1 & ?)]; [done|]. specialize (Hmark n1 E1). lia. }
  assert (Hp : ∃ l', match last_purged m with
               | Some p => purge_through (openraft.index p) {| slf := sl; disk := d' |}
               | None => (Ok tt, {| slf := sl; disk := d' |})
               end = (Ok tt, l')
             ∧ log_part next' l' (filter (λ e, floor_of m < entry_index e) es0) (floor_of m) next').
  { pose proof (lp_floor _ _ _ _ _ Hl) as Hfl. unfold floor_of in *. destruct (last_purged m) as [p|].
    - apply (part_purge _ _ (-1)); [done|lia|done].
    - eexists. split; [done|]. rewrite list_filter_all; [done|].
      rewrite Forall_forall in H0s. intros e Hin. specialize (H0s e Hin). cbn in H0s. lia. }
  destruct Hp as (l' & Ep & Hl').
  assert (Ees : filter (λ e, floor_of m < entry_index e) es0
    = filter (λ e, floor_of m < entry_index e) (filter (λ e, entry_index e < mark) es)).
  { rewrite <-Hfil, list_filter_filter. apply list_filter_iff. intros e. cbn. lia. }
  exists {| s_log := l'; s_meta := m; s_dir := sd_dir sd |}, next', mark.
  split; [|split; [split; [done|done|]|split; [done|]]].
  - unfold store_open. rewrite Eo. cbn [sd_dir]. rewrite (load_meta_ok _ _ Hm). destruct (last_purged m) as [p|].
    + erewrite on_log_ok; [|exact Ep]. done.
    + by simplify_eq.
  - cbn. by rewrite <-Ees.
  - destruct Hor as [(? & _ & ?)|[? E0]]; [by left|right]. split; [done|]. by rewrite <-Hfil, E0.
Qed.

Lemma store_open_ok dur l es next sd m :
  log_part dur l es (floor_of m) next →
  next = None ∨ (∃ n, dur = Some n ∧ floor_of m < n) → crash (disk l) (sd_log sd) →
  meta_ok (sd_dir sd) m →
  ∃ st' next' mark, store_open sd = (Ok st', store_disk st')
    ∧ store_rel st' {| rl_meta := m; rl_entries := filter (λ e, entry_index e < mark) es; rl_next := next' |}
    ∧ (∀ n, dur = Some n → n ≤ mark)
    ∧ (next' = Some mark ∧ (∃ n, next = Some n ∧ mark ≤ n)
       ∨ next' = None ∧ filter (λ e, entry_index e < mark) es = []).
Proof.
  intros Hl Hdn Hc Hm. destruct (store_open_purges _ _ _ _ _ sd m Hl) as (st' & next' & mark & Eo & Hr & ?); [lia|done..|].
  exists st', next', mark. split; [done|]. split; [|done]. rewrite (list_filter_all _ (filter _ es)) in Hr; [done|].
  intros e [_ Hin]%list_elem_of_filter. pose proof (lp_above _ _ _ _ _ Hl) as Hab. rewrite Forall_forall in Hab. by apply Hab.
Qed.

Lemma all_below mark (es : list openraft.Entry) n :
  Forall (λ e, entry_index e < n) es → n ≤ mark → filter (λ e, entry_index e < mark) es = es.
Proof.
  intros Hes Hle. apply list_filter_all. intros e Hin. rewrite Forall_forall in Hes.
  specialize (Hes e Hin). cbn in Hes. lia.
Qed.

Lemma store_crash_sim st r sd :
  store_rel st r → crash_store (store_disk st) sd →
  ∃ st' next', store_open sd = (Ok st', store_disk st')
    ∧ store_rel st' {| rl_meta := rl_meta r; rl_entries := rl_entries r; rl_next := next' |}
    ∧ (next' = rl_next r ∨ next' = None ∧ rl_entries r = []).
Proof.
  intros [Hm Hf Hl] [Hcl Hcd]. cbn in *.
  destruct (store_open_ok _ _ _ _ sd _ Hl) as (st' & next' & mark & Eo & Hr & Hmark & Hor); [|done|by eapply meta_ok_crash|].
  { destruct (rl_next r) as [n|] eqn:En; [right|by left]. exists n. split; [done|]. by apply (lp_next _ _ _ _ _ Hl). }
  assert (Efil : filter (λ e, entry_index e < mark) (rl_entries r) = rl_entries r).
  { destruct (rl_next r) as [n|] eqn:En; [|by rewrite (lp_none _ _ _ _ _ Hl)].
    apply (all_below _ _ n); [by apply (lp_next _ _ _ _ _ Hl)|by apply Hmark]. }
  rewrite Efil in Hr, Hor. exists st', next'. split; [done|]. split; [done|].
  destruct Hor as [(-> & n & En & Hle)|[-> E]]; [left|by right].
  rewrite En in *. specialize (Hmark n eq_refl). f_equal. lia.
Qed.

(** ** Reads *)

Lemma decode_entry_ok e : decode_entry (encode_to_vec (Entry_to e)) = Ok e.
Proof. unfold decode_entry. rewrite decode_encode. cbn [ok_or mbind result_bind]. by rewrite Entry_inverts. Qed.

Lemma decode_entries_ok es :
  collect (λ '(_, bytes), decode_entry bytes) (record <$> es) = Ok es.
Proof.
  apply collect_Ok. rewrite Forall2_fmap_l. apply Forall_Forall2_diag, Forall_forall.
  intros e _. apply decode_entry_ok.
Qed.

Lemma store_read_range st r wrap from to :
  store_rel st r → from ≤ to →
  on_log wrap (read_range from to) st
  = (Ok (record <$> filter (λ e, from ≤ entry_index e < to) (rl_entries r)), st).
Proof.
  intros [_ _ Hl] Hle. destruct (lp_rel _ _ _ _ _ Hl) as (a & Hr & He & _).
  erewrite on_log_ok; [|by apply (log_rel_read_range _ _ _ _ _ Hr)]. f_equal; [|by destruct st].
  rewrite He. f_equal. exact (filter_record (λ z, from ≤ z < to) (rl_entries r)).
Qed.

Lemma store_last_index st r :
  store_rel st r → last_index (slf (s_log st)) = entry_index <$> last (rl_entries r).
Proof.
  intros [_ _ Hl]. destruct (lp_rel _ _ _ _ _ Hl) as (a & Hr & He & _).
  rewrite (log_rel_last_index _ _ _ Hr), He, fmap_last. by destruct (last (rl_entries r)).
Qed.

(** What the reads of a store need to know: [store_rel] gives it, and so does the weaker
    relation of a store that runs. *)
Record store_serves (st : StoreSt) (r : raft_log) : Prop := {
  sv_meta : s_meta st = rl_meta r;
  sv_last : last_index (slf (s_log st)) = entry_index <$> last (rl_entries r);
  sv_range wrap from to : from ≤ to → on_log wrap (read_range from to) st
    = (Ok (record <$> filter (λ e, from ≤ entry_index e < to) (rl_entries r)), st);
  sv_sorted : StronglySorted Z.lt (entry_index <$> rl_entries r);
  sv_bounds : Forall (λ e, 0 ≤ entry_index e < u64_max) (rl_entries r)
}.

Lemma store_rel_serves st r : store_rel st r → store_serves st r.
Proof.
  intros Hr. pose proof Hr as [Hm _ Hl]. split; [done|by apply store_last_index|intros; by apply store_read_range|..].
  - destruct (lp_rel _ _ _ _ _ Hl) as (a & Ha & He & _).
    assert (Ek : (al_entries a).*1 = entry_index <$> rl_entries r) by (rewrite He, <-list_fmap_compose; done).
    rewrite <-Ek. pose proof (log_rel_contiguous _ _ _ Ha) as Hc. unfold contiguous in Hc.
    destruct (al_next a) as [n|]; [destruct Hc as [ps ->]; apply entries_from_sorted|rewrite Hc; constructor].
  - apply Forall_forall. intros e Hin. pose proof (lp_floor _ _ _ _ _ Hl). pose proof (lp_above _ _ _ _ _ Hl) as Ha.
    rewrite Forall_forall in Ha. specialize (Ha e Hin). cbn in Ha.
    destruct (rl_next r) as [n|] eqn:En; [|rewrite (lp_none _ _ _ _ _ Hl eq_refl) in Hin; by apply elem_of_nil in Hin].
    destruct (lp_next _ _ _ _ _ Hl n eq_refl) as [_ Hn]. pose proof (lp_room _ _ _ _ _ Hl n eq_refl).
    rewrite Forall_forall in Hn. specialize (Hn e Hin). cbn in Hn. unfold u64_max. lia.
Qed.
End LogStoreSpec.
