(* ===== verification/SampleRaft.v ===== *)
(** * Concrete Raft instances

    An executable membership type and codecs for the messages the cluster crate
    stores, used to evaluate the development on concrete inputs. *)

From S2P Require Import Prelude Bytes Proto SampleCodecs Conversions.

Open Scope Z_scope.

Module SampleRaft.
Import SampleCodecs.

Definition default_node : raft.Node := {| raft.node_id := 0; raft.rpc_addr := "" |}.

Definition voters_known (p : list (gset Z) * gmap Z raft.Node) : Prop :=
  set_Forall (λ i, is_Some (p.2 !! i)) (⋃ p.1).

#[global] Instance voters_known_dec p : Decision (voters_known p).
Proof. unfold voters_known. apply _. Defined.

Definition member : Type := { p | bool_decide (voters_known p) }.

(** Voters without a node get the default one. *)
Definition extended (cs : list (gset Z)) (ns : gmap Z raft.Node) : gmap Z raft.Node :=
  ns ∪ gset_to_gmap default_node (⋃ cs).

Lemma extended_known cs ns : bool_decide (voters_known (cs, extended cs ns)).
Proof.
  apply bool_decide_pack. intros i Hi. cbn in *. unfold extended.
  rewrite lookup_union. assert (E : gset_to_gmap default_node (⋃ cs) !! i = Some default_node).
  { by apply lookup_gset_to_gmap_Some. }
  rewrite E. destruct (ns !! i); by eexists.
Qed.

Definition member_new (cs : list (gset Z)) (ns : gmap Z raft.Node) : member :=
  (cs, extended cs ns) ↾ extended_known cs ns.

#[refine] Definition membership : openraft.MembershipApi := {|
  openraft.Membership := member;
  openraft.Membership_new := member_new;
  openraft.get_joint_config m := (`m).1;
  openraft.membership_nodes m := (`m).2;
  openraft.Membership_default := member_new [] ∅
|}.
Proof.
  - done.
  - intros cs ns Hk. cbn. apply map_eq. intros i. unfold extended. rewrite lookup_union.
    destruct (ns !! i) as [n|] eqn:En; [by destruct (gset_to_gmap default_node (⋃ cs) !! i)|].
    assert (Hno : gset_to_gmap default_node (⋃ cs) !! i = None).
    { apply lookup_gset_to_gmap_None. intros Hi. destruct (Hk i Hi) as [? ?]. congruence. }
    by rewrite Hno.
  - intros [p Hp] i Hi. pose proof (bool_decide_unpack _ Hp) as Hk. by apply Hk.
  - intros [[cs ns] Hp] [[cs' ns'] Hp'] E1 E2. apply (sig_eq_pi _). cbn in *. by subst.
Defined.

(** ** Codecs *)

#[export] Instance LeaderId_eq_dec : EqDecision raft.LeaderId.
Proof. solve_decision. Defined.
#[export] Instance LeaderId_countable : Countable raft.LeaderId.
Proof.
  refine (inj_countable' (λ l, (raft.leader_term l, raft.leader_node_id l))
    (λ '(t, n), raft.Build_LeaderId t n) _). by intros [].
Defined.
#[export] Instance LogId_eq_dec : EqDecision raft.LogId.
Proof. solve_decision. Defined.
#[export] Instance LogId_countable : Countable raft.LogId.
Proof.
  refine (inj_countable' (λ l, (raft.log_leader_id l, raft.log_index l))
    (λ '(t, n), raft.Build_LogId t n) _). by intros [].
Defined.
#[export] Instance Vote_eq_dec : EqDecision raft.Vote.
Proof. solve_decision. Defined.
#[export] Instance Vote_countable : Countable raft.Vote.
Proof.
  refine (inj_countable' (λ l, (raft.vote_leader_id l, raft.vote_committed l))
    (λ '(t, n), raft.Build_Vote t n) _). by intros [].
Defined.
#[export] Instance Node_countable : Countable raft.Node.
Proof.
  refine (inj_countable' (λ l, (raft.node_id l, raft.rpc_addr l))
    (λ '(t, n), raft.Build_Node t n) _). by intros [].
Defined.
#[export] Instance NodeIdSet_eq_dec : EqDecision raft.NodeIdSet.
Proof. solve_decision. Defined.
#[export] Instance NodeIdSet_countable : Countable raft.NodeIdSet.
Proof. refine (inj_countable' raft.node_ids raft.Build_NodeIdSet _). by intros []. Defined.
#[export] Instance RaftMembership_eq_dec : EqDecision raft.Membership.
Proof. solve_decision. Defined.
#[export] Instance RaftMembership_countable : Countable raft.Membership.
Proof.
  refine (inj_countable' (λ l, (raft.configs l, raft.nodes l))
    (λ '(t, n), raft.Build_Membership t n) _). by intros [].
Defined.
#[export] Instance StoredMembership_eq_dec : EqDecision raft.StoredMembership.
Proof. solve_decision. Defined.
#[export] Instance StoredMembership_countable : Countable raft.StoredMembership.
Proof.
  refine (inj_countable' (λ l, (raft.sm_log_id l, raft.sm_membership l))
    (λ '(t, n), raft.Build_StoredMembership t n) _). by intros [].
Defined.

Definition payload_sum (p : raft.Payload) : unit + v1.Command + raft.Membership :=
  match p with
  | raft.PayloadBlank => inl (inl tt)
  | raft.PayloadNormal c => inl (inr c)
  | raft.PayloadMembership m => inr m
  end.
Definition sum_payload (s : unit + v1.Command + raft.Membership) : raft.Payload :=
  match s with
  | inl (inl _) => raft.PayloadBlank
  | inl (inr c) => raft.PayloadNormal c
  | inr m => raft.PayloadMembership m
  end.
#[export] Instance Payload_eq_dec : EqDecision raft.Payload.
Proof. solve_decision. Defined.
#[export] Instance Payload_countable : Countable raft.Payload.
Proof. refine (inj_countable' payload_sum sum_payload _). by intros []. Defined.
#[export] Instance Entry_eq_dec : EqDecision raft.Entry.
Proof. solve_decision. Defined.
#[export] Instance Entry_countable : Countable raft.Entry.
Proof.
  refine (inj_countable' (λ l, (raft.entry_log_id l, raft.entry_payload l))
    (λ '(t, n), raft.Build_Entry t n) _). by intros [].
Defined.
#[export] Instance RaftMeta_eq_dec : EqDecision raft.RaftMeta.
Proof. solve_decision. Defined.
#[export] Instance RaftMeta_countable : Countable raft.RaftMeta.
Proof.
  refine (inj_countable' (λ l, (raft.rm_vote l, raft.rm_committed l, raft.rm_last_purged l))
    (λ '(v, c, p), raft.Build_RaftMeta v c p) _). by intros [].
Defined.

Definition entry_codec : Codec raft.Entry := countable_codec raft.Entry.
Definition meta_codec : Codec raft.RaftMeta := countable_codec raft.RaftMeta.
Definition stored_membership_codec : Codec raft.StoredMembership := countable_codec raft.StoredMembership.

(** A change to a joint configuration of nodes 1, 2 and 2, 3. *)
Definition joint : @openraft.Membership membership :=
  member_new [ {[ 1; 2 ]}; {[ 2; 3 ]} ] {[ 1 := {| raft.node_id := 1; raft.rpc_addr := "a:1" |} ]}.
Definition joint_entry : @openraft.Entry membership :=
  {| openraft.log_id := {| openraft.log_leader := {| openraft.term := 4; openraft.leader_node := 1 |};
                           openraft.index := 9 |};
     openraft.payload := openraft.MembershipChange (H := membership) joint |}.

Lemma raft_messages_roundtrip_witness :
  Entry_try_from (H := membership) (Entry_to joint_entry) = Ok joint_entry.
Proof. destruct (raft_messages_roundtrip (H := membership)) as [He _]. apply He. Defined.
End SampleRaft.
