(* ===== verification/LogStoreCorrect.v ===== *)
(** * The Raft log store: correctness

    The contract of [RaftLogStorage] and [RaftLogReader] as theorems about the
    store, evaluated instances, and the calls that the store does not survive. *)

From S2P Require Import Prelude Bytes CoreError FileSys SegmentedLog LogInv LogOps LogSpec LogCorrect Proto.
From S2P Require Import SampleCodecs Conversions LogStore LogStoreSpec SampleRaft.

Open Scope Z_scope.

Section LogStoreCorrect.
Context `{Crc32c} `{openraft.MembershipApi} `{!Codec raft.Entry} `{!Codec raft.RaftMeta}.

Definition empty_store_disk : StoreDisk := {| sd_log := ∅; sd_dir := ∅ |}.
Definition empty_log : raft_log := {| rl_meta := Meta_default; rl_entries := []; rl_next := None |}.

Lemma empty_store_rel : ∃ st, store_open empty_store_disk = (Ok st, store_disk st) ∧ store_rel st empty_log.
Proof.
  destruct (log_rel_fresh DEFAULT_SEGMENT_MAX_BYTES) as (l & E & Hr).
  exists {| s_log := {| slf := l; disk := ∅ |}; s_meta := Meta_default; s_dir := ∅ |}. split.
  - unfold store_open, SegmentedLog.open, empty_store_disk. cbn [sd_log]. by rewrite E.
  - split; [done|by left|]. split; cbn; try done.
    exists alog_empty. split_and!; try done. by intros ? ?%elem_of_nil.
Qed.

(** C10: A crash at rest of a log store that is in the relation [store_rel], whatever
    unsynced bytes it takes: [LogStore::open] succeeds and serves the same vote, committed
    id, purge point and entries. [store_rel] holds after calls that keep [store_pre]
    (appends that continue the log, truncations above the purge point, purges below the
    next index of the log) and after restarts; after a purge past the end of the log, as
    openraft makes it when a snapshot is installed, it does not hold, and synced entries
    can be lost ([snapshot_install_loses_entries]). *)
Theorem log_store_durable st r sd :
  store_rel st r → crash_store (store_disk st) sd →
  ∃ st' next, store_open sd = (Ok st', store_disk st')
    ∧ store_rel st' {| rl_meta := rl_meta r; rl_entries := rl_entries r; rl_next := next |}
    ∧ (read_vote st').1 = Ok (vote (rl_meta r)) ∧ (read_committed st').1 = Ok (committed (rl_meta r))
    ∧ (next = rl_next r ∨ next = None ∧ rl_entries r = []).
Proof.
  intros Hr Hc. destruct (store_crash_sim _ _ _ Hr Hc) as (st' & next & E & Hr' & Hn).
  exists st', next. pose proof (sr_meta _ _ Hr') as Em. cbn in Em.
  split_and!; try done; unfold read_vote, read_committed; mpure; cbn; by rewrite Em.
Qed.

(** ** Reads *)

(** The last log id as openraft defines it: of the last entry, or else of the last
    purged one. *)
Definition last_id (r : raft_log) : option openraft.LogId :=
  match last (rl_entries r) with
  | Some e => Some (openraft.log_id e)
  | None => last_purged (rl_meta r)
  end.

Lemma index_bounds st r e : store_serves st r → e ∈ rl_entries r → 0 ≤ entry_index e < u64_max.
Proof. intros Hr Hin. pose proof (sv_bounds _ _ Hr) as Hb. rewrite Forall_forall in Hb. by apply Hb. Qed.

(** The indexes are increasing, so the last entry is above the others. *)
Lemma store_last st r e :
  store_serves st r → last (rl_entries r) = Some e →
  ∃ init, rl_entries r = init ++ [e] ∧ Forall (λ e', entry_index e' < entry_index e) init.
Proof.
  intros Hr [init E]%last_Some. exists init. split; [done|]. pose proof (sv_sorted _ _ Hr) as Hs.
  rewrite E, fmap_app in Hs. clear E Hr. induction init as [|x init IH]; [constructor|].
  cbn in Hs. apply StronglySorted_cons in Hs as [Hx Hs]. constructor; [|by apply IH].
  rewrite Forall_forall in Hx. apply Hx, elem_of_app. right. by left.
Qed.

(** [get_log_state] reports the purge point and the id of the last entry, or the
    purge point when the log is empty. *)
Theorem get_log_state_correct st r :
  store_serves st r →
  get_log_state st = (Ok {| last_purged_log_id := last_purged (rl_meta r);
                            state_last_log_id := last_id r |}, st).
Proof.
  intros Hr. unfold get_log_state. mpure. rewrite (sv_last _ _ Hr), (sv_meta _ _ Hr).
  unfold last_id. destruct (last (rl_entries r)) as [e|] eqn:El; [|done].
  cbn [fmap option_fmap option_map]. destruct (store_last _ _ _ Hr El) as (init & E & Hlt).
  assert (Hin : e ∈ rl_entries r) by (rewrite E; apply elem_of_app; right; by left).
  pose proof (index_bounds _ _ _ Hr Hin). unfold saturating_succ. rewrite decide_False by lia.
  rewrite M_bind_assoc. erewrite M_bind_Ok; [|apply (sv_range _ _ Hr); lia]. cbv beta.
  assert (Ef : filter (λ e', entry_index e ≤ entry_index e' < entry_index e + 1) (rl_entries r) = [e]).
  { rewrite E, filter_app, list_filter_none; [cbn; by rewrite decide_True by lia|].
    rewrite Forall_forall in Hlt. intros x Hx. specialize (Hlt x Hx). cbn in Hlt. lia. }
  rewrite Ef, M_bind_assoc. cbn [fmap list_fmap head ok_or]. mpure.
  rewrite M_bind_assoc. unfold record. cbn [snd]. rewrite decode_entry_ok. by mpure.
Qed.

Definition in_bounds (b : bounds) (z : Z) : Prop :=
  match start_bound b with Included s => s ≤ z | Excluded s => s < z | Unbounded => True end
  ∧ match end_bound b with Included e => z ≤ e | Excluded e => z < e | Unbounded => True end.

#[global] Instance in_bounds_dec b z : Decision (in_bounds b z).
Proof. unfold in_bounds. destruct (start_bound b), (end_bound b); apply _. Defined.

Definition bound_u64 (b : Bound) : Prop :=
  match b with Included z | Excluded z => is_u64 z | Unbounded => True end.

(** The range handed to the log. *)
Definition range_of (r : raft_log) (b : bounds) : Z * Z :=
  concrete_range b (entry_index <$> last (rl_entries r)).

Lemma concrete_range_ok st r b e :
  store_serves st r → bound_u64 (start_bound b) → bound_u64 (end_bound b) → e ∈ rl_entries r →
  (range_of r b).1 ≤ entry_index e < (range_of r b).2 ↔ in_bounds b (entry_index e).
Proof.
  intros Hr Hs He Hin. pose proof (index_bounds _ _ _ Hr Hin) as Hb.
  assert (Hlast : ∃ e', last (rl_entries r) = Some e' ∧ entry_index e ≤ entry_index e' < u64_max).
  { destruct (last (rl_entries r)) as [e'|] eqn:El.
    - exists e'. split; [done|]. destruct (store_last _ _ _ Hr El) as (init & E & Hlt).
      split; [|apply (index_bounds _ _ _ Hr); rewrite E; apply elem_of_app; right; by left].
      rewrite E in Hin. apply elem_of_app in Hin as [Hin|Hin]; [|by apply list_elem_of_singleton in Hin as ->].
      rewrite Forall_forall in Hlt. specialize (Hlt e Hin). cbn in Hlt. lia.
    - apply last_None in El. rewrite El in Hin. by apply elem_of_nil in Hin. }
  destruct Hlast as (e' & El & Hle). unfold range_of, in_bounds, concrete_range. rewrite El. cbn.
  unfold saturating_succ, is_u64, u64_max, bound_u64 in *.
  destruct (start_bound b), (end_bound b); repeat case_decide; unfold is_u64 in *; lia.
Qed.

Lemma try_get_ok st r b :
  store_serves st r → bound_u64 (start_bound b) → bound_u64 (end_bound b) →
  (range_of r b).1 ≤ (range_of r b).2 →
  try_get_log_entries b st
  = (Ok (filter (λ e, in_bounds b (entry_index e)) (rl_entries r)), st).
Proof.
  intros Hr Hs He Hle. unfold try_get_log_entries. mpure. rewrite (sv_last _ _ Hr).
  fold (range_of r b). pose proof (λ e, concrete_range_ok st r b e Hr Hs He) as Hc.
  destruct (range_of r b) as [from to]. cbn in Hle, Hc.
  erewrite M_bind_Ok; [|apply (sv_range _ _ Hr _ _ _ Hle)]. unfold lift.
  rewrite decode_entries_ok. do 2 f_equal. clear Hr Hle. revert Hc.
  generalize (rl_entries r). intros es. induction es as [|e es IH]; intros Hc; [done|].
  rewrite !filter_cons. rewrite IH by (intros; apply Hc; by right).
  specialize (Hc e ltac:(left)). repeat case_decide; tauto.
Qed.

(** [try_get_log_entries] returns exactly the entries whose index lies in the
    requested range, in order, decoded to what was appended, for every kind of
    bound, [u64::MAX] included. *)
Theorem try_get_log_entries_correct st r b :
  store_serves st r → bound_u64 (start_bound b) → bound_u64 (end_bound b) →
  (range_of r b).1 ≤ (range_of r b).2 →
  try_get_log_entries b st
  = (Ok (filter (λ e, in_bounds b (entry_index e)) (rl_entries r)), st).
Proof. apply try_get_ok. Qed.

(** A range whose start lies above the end of the log, such as [5..] on a log
    that ends before 4, makes [try_get_log_entries] panic while it holds the lock of
    the log, instead of returning no entries. *)
Theorem try_get_log_entries_panics st r b :
  store_serves st r → (range_of r b).2 < (range_of r b).1 →
  (try_get_log_entries b st).1 = Panic "range start is greater than range end in BTreeMap".
Proof.
  intros Hr Hlt. unfold try_get_log_entries. mpure. rewrite (sv_last _ _ Hr).
  fold (range_of r b). destruct (range_of r b) as [from to]. cbn in Hlt.
  unfold on_log, mapE, zoom, mbind, M_bind, read_range. mstep get_self_ok. by rewrite decide_True.
Qed.

(** ** Crashes in the middle of an operation *)

Lemma continues_take fl mark es : ∀ n,
  continues fl (Some n) es →
  filter (λ e, entry_index e < mark) es = take (Z.to_nat (mark - n)) es.
Proof.
  induction es as [|e es IH]; intros n Hc; [by rewrite take_nil|].
  destruct Hc as (<- & H0' & _ & _ & Hc). rewrite filter_cons, (IH _ Hc). case_decide as Hlt.
  - replace (Z.to_nat (mark - entry_index e)) with (S (Z.to_nat (mark - (entry_index e + 1)))) by lia. done.
  - by replace (Z.to_nat (mark - entry_index e)) with 0%nat by lia;
      replace (Z.to_nat (mark - (entry_index e + 1))) with 0%nat by lia.
Qed.

(** A crash in the middle of an append, after some of its entries have been
    written and none is synced, leaves the old log followed by a prefix of the new
    entries; in particular no acknowledged entry is lost. *)
Theorem interrupted_append_keeps_prefix st r n es sd :
  store_rel st r → rl_next r = Some n → continues (floor_of (rl_meta r)) (Some n) es →
  crash_store (store_disk (for_each es append_entry st).2) sd →
  ∃ st' next k, store_open sd = (Ok st', store_disk st')
    ∧ store_rel st' {| rl_meta := rl_meta r; rl_entries := rl_entries r ++ take k es; rl_next := next |}.
Proof.
  intros [Hm Hf Hl] En Hc [Hcl Hcd]. rewrite En in Hl.
  destruct (appends_ok es (Some n) st (rl_entries r) _ _ Hl) as (l & E & Hl'); [|done|done|].
  { intros n1 [= ->] n2 [= ->]. lia. }
  rewrite E in Hcl, Hcd. cbn in Hcl, Hcd. destruct (lp_next _ _ _ _ _ Hl n eq_refl) as [Hfn Hlt].
  destruct (store_open_ok _ _ _ _ sd _ Hl') as (st' & next & mark & Eo & Hr & Hmark & _);
    [right; by exists n|done|by eapply meta_ok_crash|].
  exists st', next, (Z.to_nat (mark - n)). split; [done|].
  rewrite filter_app, (all_below _ _ n Hlt (Hmark n eq_refl)), (continues_take _ _ _ _ Hc) in Hr. done.
Qed.

(** The vote, the committed id and the purge point change atomically: a crash at
    any point of the rewrite of the meta file leaves the store with the old values,
    and one right after it with the new ones. *)
Theorem meta_replaced_atomically st r m d sd :
  store_rel st r → floor_of m = floor_of (rl_meta r) →
  d ∈ replacing META_TMP (encode_to_vec (meta_proto m)) (s_dir st) ∨ d = (persist_meta m (s_dir st)).2 →
  crash (disk (s_log st)) (sd_log sd) → crash d (sd_dir sd) →
  ∃ st', store_open sd = (Ok st', store_disk st') ∧ (s_meta st' = rl_meta r ∨ s_meta st' = m).
Proof.
  intros [Hm Hf Hl] Efl Hd Hcl Hcd.
  assert (Hok : meta_ok d (rl_meta r) ∨ meta_ok d m).
  { destruct Hd as [Hd| ->].
    - left. unfold meta_ok. rewrite (replacing_other _ _ _ _ META_FILE Hd) by done. exact Hf.
    - right. destruct (replace_ok META_TMP META_FILE (encode_to_vec (meta_proto m)) (s_dir st)) as (d' & E & Hd').
      unfold persist_meta. rewrite E. right. by eexists. }
  assert (Hopen : ∀ m', floor_of m' = floor_of (rl_meta r) → meta_ok d m' →
    ∃ st', store_open sd = (Ok st', store_disk st') ∧ s_meta st' = m').
  { intros m' Ef Hmo. rewrite <-Ef in Hl.
    destruct (store_open_ok _ _ _ _ sd m' Hl) as (st' & next' & mark & Eo & Hr & _);
      [|done|by eapply meta_ok_crash|exists st'; split; [done|apply (sr_meta _ _ Hr)]].
    destruct (rl_next r) as [n|] eqn:En; [right|by left]. exists n. split; [done|]. by apply (lp_next _ _ _ _ _ Hl). }
  destruct Hok as [Ho|Ho]; [destruct (Hopen _ eq_refl Ho) as (st' & ? & ?)|destruct (Hopen _ Efl Ho) as (st' & ? & ?)];
    eauto.
Qed.
End LogStoreCorrect.

(** ** Evaluated instances *)

Module StoreDemo.
#[local] Existing Instances sum_crc32c SampleRaft.membership SampleRaft.entry_codec SampleRaft.meta_codec.

Definition id (n : Z) : openraft.LogId :=
  {| openraft.log_leader := {| openraft.term := 1; openraft.leader_node := 1 |}; openraft.index := n |}.
Definition ballot : openraft.Vote :=
  {| openraft.leader_id := {| openraft.term := 3; openraft.leader_node := 7 |};
     openraft.committed := false |}.
Definition entry (n : Z) : openraft.Entry := {| openraft.log_id := id n; openraft.payload := openraft.Blank |}.

Definition closed : StoreSt := {| s_log := st_empty 0; s_meta := Meta_default; s_dir := ∅ |}.
Definition opened (sd : StoreDisk) : StoreSt :=
  match (store_open sd).1 with
  | Ok st => st
  | _ => closed
  end.
Definition run_all (os : list store_op) (st : StoreSt) : StoreSt := (for_each os store_run st).2.

Definition fresh : StoreSt := opened empty_store_disk.

Lemma fresh_store_rel : store_rel fresh empty_log.
Proof. destruct empty_store_rel as (st & E & Hr). unfold fresh, opened. by rewrite E. Qed.

(** Two entries and a vote. *)
Definition loaded : StoreSt := run_all [Append [entry 1; entry 2]; SaveVote ballot] fresh.
Definition loaded_log : raft_log :=
  store_post (store_post empty_log (Append [entry 1; entry 2])) (SaveVote ballot).

Lemma entries_fit : continues (-1) None [entry 1; entry 2].
Proof. repeat (split; [first [done|vm_compute; reflexivity]|]). done. Qed.

Lemma loaded_rel : store_rel loaded loaded_log.
Proof.
  destruct (store_sim fresh empty_log (Append [entry 1; entry 2]) fresh_store_rel entries_fit) as (st1 & E1 & Hr1).
  destruct (store_sim st1 _ (SaveVote ballot) Hr1 I) as (st2 & E2 & Hr2).
  unfold loaded, run_all. cbn [for_each]. rewrite (M_bind_Ok _ _ _ _ _ E1), (M_bind_Ok _ _ _ _ _ E2). exact Hr2.
Qed.

Definition worst_crash (st : StoreSt) : StoreDisk :=
  {| sd_log := crash_min (disk (s_log st)); sd_dir := crash_min (s_dir st) |}.

Lemma worst_crash_store st : crash_store (store_disk st) (worst_crash st).
Proof. split; apply crash_min_crash. Qed.

Lemma log_store_durable_witness :
  ∃ st' next, store_open (worst_crash loaded) = (Ok st', store_disk st')
    ∧ store_rel st' {| rl_meta := rl_meta loaded_log; rl_entries := rl_entries loaded_log; rl_next := next |}
    ∧ (read_vote st').1 = Ok (Some ballot) ∧ (read_committed st').1 = Ok None
    ∧ (next = Some 3 ∨ next = None ∧ rl_entries loaded_log = []).
Proof. apply (log_store_durable loaded loaded_log _ loaded_rel), worst_crash_store. Defined.

Lemma get_log_state_correct_witness :
  get_log_state loaded
  = (Ok {| last_purged_log_id := None; state_last_log_id := Some (id 2) |}, loaded).
Proof. apply (get_log_state_correct loaded loaded_log (store_rel_serves _ _ loaded_rel)). Defined.

Lemma try_get_log_entries_correct_witness :
  try_get_log_entries {| start_bound := Excluded 1; end_bound := Included u64_max |} loaded
  = (Ok [entry 2], loaded).
Proof.
  apply (try_get_log_entries_correct loaded loaded_log
    {| start_bound := Excluded 1; end_bound := Included u64_max |} (store_rel_serves _ _ loaded_rel)); done.
Defined.

Lemma try_get_log_entries_panics_witness :
  (try_get_log_entries {| start_bound := Included 5; end_bound := Unbounded |} loaded).1
  = Panic "range start is greater than range end in BTreeMap".
Proof.
  apply (try_get_log_entries_panics loaded loaded_log
    {| start_bound := Included 5; end_bound := Unbounded |} (store_rel_serves _ _ loaded_rel)). done.
Defined.

Lemma interrupted_append_keeps_prefix_witness :
  ∃ st' next k, store_open (worst_crash (for_each [entry 3] append_entry loaded).2) = (Ok st', store_disk st')
    ∧ store_rel st' {| rl_meta := rl_meta loaded_log;
                       rl_entries := rl_entries loaded_log ++ take k [entry 3]; rl_next := next |}.
Proof.
  apply (interrupted_append_keeps_prefix loaded loaded_log 3 [entry 3] _ loaded_rel);
    [done| |apply worst_crash_store].
  repeat (split; [first [done|vm_compute; reflexivity]|]). done.
Defined.

(** The committed id is being written. *)
Definition next_meta : Meta := set_committed (Some (id 1)) (rl_meta loaded_log).

Lemma meta_replaced_atomically_witness :
  ∃ st', store_open {| sd_log := crash_min (disk (s_log loaded));
                       sd_dir := crash_min (file_create META_TMP (s_dir loaded)).2 |}
         = (Ok st', store_disk st')
    ∧ (s_meta st' = rl_meta loaded_log ∨ s_meta st' = next_meta).
Proof.
  apply (meta_replaced_atomically loaded loaded_log next_meta (file_create META_TMP (s_dir loaded)).2 _ loaded_rel);
    [done|left; left|apply crash_min_crash|apply crash_min_crash].
Defined.

(** ** Installing a snapshot on a follower that lags behind *)

(** The follower holds entries 1 and 2; a snapshot up to 10 is installed, openraft
    purges through 10 and appends 11. *)
Definition caught_up : StoreSt := run_all [Purge (id 10); Append [entry 11]] loaded.

(** After a purge beyond the end of the log (a snapshot installed on a lagging
    follower), entries that are appended, synced and acknowledged are gone after a
    restart: the log served 11 before it, and reports nothing after the purge point
    afterwards. *)
Theorem snapshot_install_loses_entries :
  match (get_log_state caught_up).1 with
  | Ok s => state_last_log_id s
  | _ => None
  end = Some (id 11)
  ∧ match (get_log_state (opened (store_disk caught_up))).1 with
    | Ok s => state_last_log_id s
    | _ => None
    end = Some (id 10).
Proof. vm_compute. done. Qed.
End StoreDemo.
