(* ===== verification/LogStoreLive.v ===== *)
(** * The Raft log store while it runs

    openraft purges up to the last log id of a snapshot that it has installed, which may be
    past the end of the log, and then appends behind that.  Without a restart in between
    the log store handles every such sequence; with one it does not
    ([LogStoreCorrect.StoreDemo.snapshot_install_loses_entries]), so that [store_pre], under
    which the store is durable, is narrower than the contract here. *)

From S2P Require Import Prelude Bytes CoreError FileSys SegmentedLog LogSpec LogCorrect LogLive Proto Conversions.
From S2P Require Import LogStore LogStoreSpec SampleRaft LogStoreCorrect.

Open Scope Z_scope.

Section LogStoreLive.
Context `{Crc32c} `{openraft.MembershipApi} `{!Codec raft.Entry} `{!Codec raft.RaftMeta}.

(** openraft's side of the storage contract: appended entries continue the log or, when it
    is empty, start above the last purged entry; the purge point does not go back. *)
Definition live_pre (r : raft_log) (o : store_op) : Prop :=
  match o with
  | SaveVote _ | SaveCommitted _ => True
  | Append es => continues (floor_of (rl_meta r)) ((λ e, entry_index e + 1) <$> last (rl_entries r)) es
  | Truncate l => is_u64 (openraft.index l)
  | Purge l => floor_of (rl_meta r) ≤ openraft.index l ∧ is_u64 (openraft.index l)
  end.

Fixpoint live_pres (r : raft_log) (os : list store_op) : Prop :=
  match os with
  | [] => True
  | o :: os => live_pre r o ∧ live_pres (store_post r o) os
  end.

(** The log holds the entries, above the purge point [fl]. *)
Definition live_part (l : LogSt) (es : list openraft.Entry) (fl : Z) : Prop :=
  ∃ a, live_rel DEFAULT_SEGMENT_MAX_BYTES l a ∧ ll_entries a = record <$> es ∧ ll_floor a = fl.

Record store_live (st : StoreSt) (r : raft_log) : Prop := {
  sl_meta : s_meta st = rl_meta r;
  sl_file : meta_ok (s_dir st) (rl_meta r);
  sl_log : live_part (s_log st) (rl_entries r) (floor_of (rl_meta r))
}.

Lemma store_live_serves st r : store_live st r → store_serves st r.
Proof.
  intros [Hm _ (a & Hr & He & _)]. split; [done|..].
  - rewrite (live_last_index _ _ _ Hr), He, fmap_last. by destruct (last (rl_entries r)).
  - intros wrap from to Hle. erewrite on_log_ok; [|by apply (live_read_range _ _ _ _ _ Hr)]. f_equal; [|by destruct st].
    rewrite He. f_equal. exact (filter_record (λ z, from ≤ z < to) (rl_entries r)).
  - pose proof (live_sorted _ _ _ Hr) as Hs. by rewrite He, <-list_fmap_compose in Hs.
  - pose proof (live_bounds _ _ _ Hr) as Hb. rewrite He, Forall_fmap in Hb. eapply Forall_impl; [exact Hb|]. cbn. unfold u64_max. lia.
Qed.

Lemma part_live_sim l es fl o :
  live_part l es fl → (∀ a, ll_entries a = record <$> es → ll_floor a = fl → lpre a o) →
  ∃ l', run_op o l = (Ok tt, l') ∧ ∀ es' fl',
    (∀ a, ll_entries a = record <$> es → ll_floor a = fl → ll_entries (lpost a o) = record <$> es' ∧ ll_floor (lpost a o) = fl') →
    live_part l' es' fl'.
Proof.
  intros (a & Hr & He & Hf) Hp. destruct (live_sim _ _ _ _ max_ok Hr (Hp a He Hf)) as (l' & E & Hr').
  exists l'. split; [done|]. intros es' fl' Hpost. destruct (Hpost a He Hf). by exists (lpost a o).
Qed.

Lemma appends_live es : ∀ st es0 fl,
  live_part (s_log st) es0 fl → continues fl ((λ e, entry_index e + 1) <$> last es0) es →
  ∃ l, for_each es append_entry st = (Ok tt, {| s_log := l; s_meta := s_meta st; s_dir := s_dir st |})
    ∧ live_part l (es0 ++ es) fl.
Proof.
  induction es as [|e es IH]; intros st es0 fl Hl Hc.
  { exists (s_log st). rewrite app_nil_r. split; [by destruct st|done]. }
  destruct Hc as (Hn & H0' & Hm & Hb & Hc).
  destruct (part_live_sim _ _ _ (OpAppend (entry_index e) (encode_to_vec (Entry_to e))) Hl) as (l1 & E1 & Hl1).
  { intros a He Hf. split; [|done]. unfold lnext_ok. rewrite He, fmap_last. destruct (last es0) as [e0|]; cbn in *; [done|]. by rewrite Hf. }
  specialize (Hl1 (es0 ++ [e]) fl). edestruct (IH {| s_log := l1; s_meta := s_meta st; s_dir := s_dir st |} (es0 ++ [e]) fl) as (l2 & E2 & Hl2).
  { apply Hl1. intros a He Hf. cbn. by rewrite He, fmap_app. }
  { by rewrite last_snoc. }
  exists l2. split; [cbn [for_each]; erewrite M_bind_Ok; [exact E2|by apply on_log_ok]|]. by rewrite <-app_assoc in Hl2.
Qed.

Lemma store_live_sim st r o :
  store_live st r → live_pre r o → ∃ st', store_run o st = (Ok tt, st') ∧ store_live st' (store_post r o).
Proof.
  intros [Hm Hf Hl] Hpre. destruct o as [v|c|es|l|l]; cbn [store_run store_post] in *.
  - unfold save_vote. mpure. edestruct save_meta_ok as (d & -> & Hd). cbn in Hd. rewrite Hm in Hd.
    eexists. split; [done|]. by split; cbn; [rewrite Hm|..].
  - unfold save_committed. mpure. edestruct save_meta_ok as (d & -> & Hd). cbn in Hd. rewrite Hm in Hd.
    eexists. split; [done|]. by split; cbn; [rewrite Hm|..].
  - destruct (appends_live es st (rl_entries r) _ Hl Hpre) as (l1 & E1 & Hl1).
    destruct (part_live_sim _ _ _ OpSync Hl1) as (l2 & E2 & Hl2); [done|].
    eexists. split; [unfold store_append; rewrite (M_bind_Ok _ _ _ _ _ E1); by apply on_log_ok|split; [done|done|by apply Hl2]].
  - destruct (part_live_sim _ _ _ (OpTruncate (openraft.index l)) Hl) as (l' & E & Hl'); [done|].
    eexists. split; [by apply on_log_ok|split; [done|done|apply Hl']]. intros a He Ef. cbn. split; [|done].
    rewrite He. exact (filter_record (λ z, z < openraft.index l) (rl_entries r)).
  - destruct Hpre as [Hle Hu]. destruct (part_live_sim _ _ _ (OpPurge (openraft.index l)) Hl) as (l' & E & Hl'); [done|].
    unfold purge. mpure.
    destruct (save_meta_ok WriteLogs {| s_log := s_log st; s_meta := set_last_purged (Some l) (s_meta st);
      s_dir := s_dir st |}) as (d & Ed & Hd). cbn in Hd. rewrite Hm in Hd.
    eexists. split; [rewrite (M_bind_Ok _ _ _ _ _ Ed); by apply on_log_ok|]. split; cbn; [by rewrite Hm|done|].
    apply Hl'. intros a He Ef. cbn. rewrite He, Ef. split; [exact (filter_record (λ z, openraft.index l < z) (rl_entries r))|lia].
Qed.

Lemma store_live_run os : ∀ st r,
  store_live st r → live_pres r os → ∃ st', for_each os store_run st = (Ok tt, st') ∧ store_live st' (foldl store_post r os).
Proof.
  induction os as [|o os IH]; intros st r Hr Hp; [by exists st|]. destruct Hp as [Ho Hp].
  destruct (store_live_sim _ _ _ Hr Ho) as (st1 & E1 & Hr1). destruct (IH _ _ Hr1 Hp) as (st2 & E2 & Hr2).
  exists st2. split; [|done]. cbn [for_each]. by rewrite (M_bind_Ok _ _ _ _ _ E1).
Qed.

Lemma empty_store_live : ∃ st, store_open empty_store_disk = (Ok st, store_disk st) ∧ store_live st empty_log.
Proof.
  destruct (log_rel_fresh DEFAULT_SEGMENT_MAX_BYTES) as (l & E & _). pose proof E as E'. injection E' as <-.
  eexists {| s_log := {| slf := _; disk := ∅ |}; s_meta := Meta_default; s_dir := ∅ |}. split.
  - unfold store_open, SegmentedLog.open, empty_store_disk. cbn [sd_log]. by rewrite E.
  - split; [done|by left|]. exists llog_empty. split; [apply live_fresh|done].
Qed.

(** C8: A log store that starts on an empty directory and is not restarted serves what it
    was told: every sequence of saves, appends, truncations and purges that keeps
    openraft's contract succeeds, purges past the end of the log included, and the vote,
    the committed id, the log state and the entries of every range that starts neither
    above its own end nor above the end of the log are then the specified ones. The
    contract: appended entries continue the log or, when it is empty, start above the last
    purged entry, the purge point does not go back, and indexes and encoded entries fit in
    u64 and u32. *)
Theorem log_store_op_refines os :
  live_pres empty_log os →
  let r := foldl store_post empty_log os in
  ∃ st0 st, store_open empty_store_disk = (Ok st0, store_disk st0) ∧ for_each os store_run st0 = (Ok tt, st)
    ∧ (read_vote st).1 = Ok (vote (rl_meta r)) ∧ (read_committed st).1 = Ok (committed (rl_meta r))
    ∧ get_log_state st = (Ok {| last_purged_log_id := last_purged (rl_meta r); state_last_log_id := last_id r |}, st)
    ∧ ∀ b, bound_u64 (start_bound b) → bound_u64 (end_bound b) → (range_of r b).1 ≤ (range_of r b).2 →
        try_get_log_entries b st = (Ok (filter (λ e, in_bounds b (entry_index e)) (rl_entries r)), st).
Proof.
  intros Hp r. destruct empty_store_live as (st0 & E0 & Hl0). destruct (store_live_run os _ _ Hl0 Hp) as (st & E & Hr). fold r in Hr.
  exists st0, st. split; [done|]. split; [done|]. pose proof (store_live_serves _ _ Hr) as Hs. pose proof (sv_meta _ _ Hs) as Em.
  split; [unfold read_vote; mpure; by rewrite Em|]. split; [unfold read_committed; mpure; by rewrite Em|].
  split; [by apply get_log_state_correct|]. intros b. by apply try_get_ok.
Qed.
End LogStoreLive.

Module LiveDemo.
Import StoreDemo.
#[local] Existing Instances sum_crc32c SampleRaft.membership SampleRaft.entry_codec SampleRaft.meta_codec.

(** What openraft does when it installs a snapshot that ends at 10, and afterwards. *)
Definition installed : list store_op :=
  [Append [entry 1; entry 2]; SaveVote ballot; Purge (id 10); Append [entry 11; entry 12]; Truncate (id 12);
   SaveCommitted (Some (id 11))].

Lemma installed_contract : live_pres empty_log installed.
Proof. cbn; split_and!; try done; vm_compute; reflexivity. Qed.

Lemma log_store_op_refines_witness :
  ∃ st0 st, store_open empty_store_disk = (Ok st0, store_disk st0) ∧ for_each installed store_run st0 = (Ok tt, st)
    ∧ get_log_state st = (Ok {| last_purged_log_id := Some (id 10); state_last_log_id := Some (id 11) |}, st)
    ∧ try_get_log_entries {| start_bound := Included 11; end_bound := Unbounded |} st = (Ok [entry 11], st).
Proof.
  destruct (log_store_op_refines installed installed_contract) as (st0 & st & E0 & E & _ & _ & Es & Eg).
  exists st0, st. split; [exact E0|]. split; [exact E|]. split; [exact Es|].
  exact (Eg {| start_bound := Included 11; end_bound := Unbounded |} ltac:(done) ltac:(done) ltac:(done)).
Defined.
End LiveDemo.
