(* ===== verification/LogStoreKilled.v ===== *)
(** * Kills inside the operations of the Raft log store

    Whatever point of an operation the process is killed at, the store that is opened
    afterwards holds the log before the operation, the log after it, or, for an append,
    the log before it and some of the new entries.  Truncations are the exception:
    [LogKilled.LogKilledDemo.interrupted_truncate_leaves_hole]. *)

From S2P Require Import Prelude Bytes CoreError FileSys SegmentedLog LogSpec LogCorrect LogKilled Proto Conversions.
From S2P Require Import LogStore LogStoreSpec SampleRaft LogStoreCorrect.

Open Scope Z_scope.

Section LogStoreKilled.
Context `{Crc32c} `{openraft.MembershipApi} `{!Codec raft.Entry} `{!Codec raft.RaftMeta}.

(** The meta file that an operation writes. *)
Definition meta_written (o : store_op) (m : Meta) : option Meta :=
  match o with
  | SaveVote v => Some (set_vote (Some v) m)
  | SaveCommitted c => Some (set_committed c m)
  | Purge l => Some (set_last_purged (Some l) m)
  | Append _ | Truncate _ => None
  end.

(** What is on disk when the process is killed in an operation: before it starts or
    after it ends; after some entries of an append have been written, none of them
    synced; while the meta file is written; in a purge, after the meta file has been
    written and some segments have been deleted. *)
Inductive store_killed (st : StoreSt) : store_op → StoreDisk → Prop :=
| killed_before o : store_killed st o (store_disk st)
| killed_after o st1 : store_run o st = (Ok tt, st1) → store_killed st o (store_disk st1)
| killed_in_append es1 es2 st1 :
    for_each es1 append_entry st = (Ok tt, st1) → store_killed st (Append (es1 ++ es2)) (store_disk st1)
| killed_in_meta o m d :
    meta_written o (s_meta st) = Some m → d ∈ replacing META_TMP (encode_to_vec (meta_proto m)) (s_dir st) →
    store_killed st o {| sd_log := disk (s_log st); sd_dir := d |}
| killed_in_purge l k d log1 :
    persist_meta (set_last_purged (Some l) (s_meta st)) (s_dir st) = (Ok tt, d) →
    purge_rounds (openraft.index l) k (s_log st) = (Ok tt, log1) →
    store_killed st (Purge l) {| sd_log := disk log1; sd_dir := d |}.

(** The meta data and the entries that a kill in the operation may leave. *)
Inductive interrupted (r : raft_log) : store_op → Meta → list openraft.Entry → Prop :=
| interrupted_before o : interrupted r o (rl_meta r) (rl_entries r)
| interrupted_after o : interrupted r o (rl_meta (store_post r o)) (rl_entries (store_post r o))
| interrupted_append es k : interrupted r (Append es) (rl_meta r) (rl_entries r ++ take k es).

(** A disk from which the store opens with [m] and a part of [es]. *)
Definition opens_as (P : Meta → list openraft.Entry → Prop) (sd : StoreDisk) : Prop :=
  ∃ dur l es fl next m, disk l = sd_log sd ∧ log_part dur l es fl next ∧ fl ≤ floor_of m
    ∧ (next = None ∨ ∃ n, dur = Some n ∧ floor_of m < n) ∧ meta_ok (sd_dir sd) m
    ∧ ∀ mark, (∀ n, dur = Some n → n ≤ mark) →
        P m (filter (λ e, floor_of m < entry_index e) (filter (λ e, entry_index e < mark) es)).

Lemma opens_as_open P sd0 sd :
  opens_as P sd0 → crash (sd_log sd0) (sd_log sd) → crash (sd_dir sd0) (sd_dir sd) →
  ∃ st' r', store_open sd = (Ok st', store_disk st') ∧ store_rel st' r' ∧ P (rl_meta r') (rl_entries r').
Proof.
  intros (dur & l & es & fl & next & m & El & Hl & Hfl & Hdn & Hm & HP) Hcl Hcd. rewrite <-El in Hcl.
  destruct (store_open_purges _ _ _ _ _ sd m Hl Hfl Hdn Hcl) as (st' & next' & mark & Eo & Hr & Hmark & _);
    [by eapply meta_ok_crash|].
  eexists st', _. split; [done|]. split; [exact Hr|]. by apply HP.
Qed.

(** A log part that is synced whole. *)
Lemma opens_whole (P : Meta → list openraft.Entry → Prop) l es fl next m sd :
  disk l = sd_log sd → log_part next l es fl next → fl ≤ floor_of m → (∀ n, next = Some n → floor_of m < n) →
  meta_ok (sd_dir sd) m → P m (filter (λ e, floor_of m < entry_index e) es) → opens_as P sd.
Proof.
  intros El Hl Hfl Hn Hm HP. exists next, l, es, fl, next, m. do 3 (split; [done|]).
  split; [destruct next as [n|]; [right; exists n; eauto|by left]|]. split; [done|]. intros mark Hmark.
  destruct next as [n|]; [|by rewrite (lp_none _ _ _ _ _ Hl) in HP |- *].
  rewrite (all_below mark es n); [done|by apply (lp_next _ _ _ _ _ Hl)|by apply Hmark].
Qed.

Lemma store_opens (P : Meta → list openraft.Entry → Prop) st r d :
  store_rel st r → meta_ok d (rl_meta r) → P (rl_meta r) (rl_entries r) →
  opens_as P {| sd_log := disk (s_log st); sd_dir := d |}.
Proof.
  intros [Hm Hf Hl] Hd HP. eapply opens_whole; [done|exact Hl|done| |done|].
  - intros n En. by apply (lp_next _ _ _ _ _ Hl).
  - rewrite list_filter_all; [done|]. intros e He. pose proof (lp_above _ _ _ _ _ Hl) as Ha.
    rewrite Forall_forall in Ha. by apply Ha.
Qed.

(** Entries written and not synced. *)
Lemma appends_unsynced es st es0 fl next :
  log_part next (s_log st) es0 fl next → continues fl next es →
  ∃ dur l, for_each es append_entry st = (Ok tt, {| s_log := l; s_meta := s_meta st; s_dir := s_dir st |})
    ∧ log_part dur l (es0 ++ es) fl (next_after next es) ∧ (next_after next es = None ∨ ∃ n, dur = Some n ∧ fl < n)
    ∧ ∀ mark, (∀ n, dur = Some n → n ≤ mark) → ∃ k, filter (λ e, entry_index e < mark) (es0 ++ es) = es0 ++ take k es.
Proof.
  intros Hl Hc. destruct next as [n|].
  - destruct (appends_ok es (Some n) st es0 fl (Some n) Hl) as (l & E & Hl'); [|done|done|].
    { intros n1 [= ->] n2 [= ->]. lia. }
    destruct (lp_next _ _ _ _ _ Hl n eq_refl) as [Hfn Hlt].
    exists (Some n), l. split; [done|]. split; [done|]. split; [right; by exists n|]. intros mark Hmark.
    exists (Z.to_nat (mark - n)). by rewrite filter_app, (all_below _ _ n Hlt (Hmark n eq_refl)), (continues_take _ _ _ _ Hc).
  - assert (es0 = []) as -> by (by apply (lp_none _ _ _ _ _ Hl)). destruct es as [|e es].
    { exists None, (s_log st). split; [by destruct st|]. split; [done|]. split; [by left|]. intros mark _. by exists 0%nat. }
    destruct Hc as (Hfl & H0' & Hmx & Hb & Hc).
    destruct (part_append None (Some (entry_index e)) _ _ _ _ _ Hl Hfl H0' Hmx Hb) as (l1 & E1 & Hl1); [intros n [= <-]; split; [lia|by left]|].
    edestruct (appends_ok es (Some (entry_index e)) {| s_log := l1; s_meta := s_meta st; s_dir := s_dir st |}) as (l2 & E2 & Hl2);
      [exact Hl1|intros n [= <-] n' [= <-]; lia|done|exact Hc|].
    exists (Some (entry_index e)), l2. split; [cbn [for_each]; erewrite M_bind_Ok; [exact E2|by apply on_log_ok]|].
    split; [unfold next_after in *; rewrite last_cons; by destruct (last es)|]. split; [right; by eexists|]. intros mark Hmark.
    exists (Z.to_nat (mark - entry_index e)). by apply (continues_take fl mark (e :: es)).
Qed.

Lemma part_purge_killed l es fl next i k :
  log_part next l es fl next → fl ≤ i → (∀ n, next = Some n → i < n) →
  ∃ log1 l', purge_rounds i k l = (Ok tt, log1)
    ∧ log_part next {| slf := l'; disk := disk log1 |} (filter (λ e, i < entry_index e) es) i next.
Proof.
  intros Hl Hi Hlt. destruct (part_purged _ _ _ _ _ Hl Hi Hlt) as (a & a' & Hr & Hs & Hl').
  destruct (purge_killed _ _ _ _ _ k Hr Hs) as (log1 & l' & E & Hr'). eauto.
Qed.

Lemma continues_app fl es1 es2 : ∀ next, continues fl next (es1 ++ es2) → continues fl next es1.
Proof. induction es1 as [|e es1 IH]; intros next; [done|]. cbn. naive_solver. Qed.

Lemma killed_opens st r o sd :
  store_rel st r → store_pre r o → store_killed st o sd → opens_as (interrupted r o) sd.
Proof.
  intros Hr Hpre Hk. destruct Hk as [o|o st1 E|es1 es2 st1 E|o m d Em Hd|l k d log1 Em E]; cbn [store_pre] in Hpre.
  - eapply store_opens; [done|apply Hr|constructor].
  - destruct (store_sim _ _ _ Hr Hpre) as (st2 & E2 & Hr2). rewrite E in E2. injection E2 as <-.
    eapply store_opens; [done|apply Hr2|constructor].
  - apply continues_app in Hpre. destruct (appends_unsynced es1 st _ _ _ (sr_log _ _ Hr) Hpre) as (dur & l & E1 & Hl & Hdn & Hfil).
    rewrite E in E1. injection E1 as ->. exists dur, l, (rl_entries r ++ es1), (floor_of (rl_meta r)), (next_after (rl_next r) es1), (rl_meta r).
    do 2 (split; [done|]). split; [done|]. split; [done|]. split; [apply Hr|]. intros mark Hmark.
    destruct (Hfil mark Hmark) as [k Ek]. rewrite list_filter_all.
    + rewrite Ek. replace (take k es1) with (take (k `min` length es1) (es1 ++ es2)); [apply interrupted_append|].
      rewrite take_app_le by lia. destruct (decide (k ≤ length es1)%nat); [by rewrite Nat.min_l|]. by rewrite Nat.min_r, !take_ge by lia.
    + intros e [_ He]%list_elem_of_filter. pose proof (lp_above _ _ _ _ _ Hl) as Ha. rewrite Forall_forall in Ha. by apply Ha.
  - eapply store_opens; [done| |constructor]. unfold meta_ok. rewrite (replacing_other _ _ _ _ META_FILE Hd) by done. apply Hr.
  - destruct Hpre as [Hle Hlt]. pose proof (sr_log _ _ Hr) as Hl. 
    destruct (part_purge_killed _ _ _ _ _ k Hl Hle Hlt) as (log2 & l' & E2 & Hl'). rewrite E in E2. injection E2 as <-.
    destruct (replace_ok META_TMP META_FILE (encode_to_vec (meta_proto (set_last_purged (Some l) (s_meta st)))) (s_dir st)) as (d' & E' & Hd').
    unfold persist_meta in Em. rewrite E' in Em. injection Em as ->. rewrite (sr_meta _ _ Hr) in Hd'.
    eapply (opens_whole _ {| slf := l'; disk := disk log1 |}) with (m := set_last_purged (Some l) (rl_meta r));
      [done|exact Hl'|done|exact Hlt|right; by eexists|].
    rewrite list_filter_filter. rewrite (list_filter_iff _ (λ e, openraft.index l < entry_index e)).
    + apply (interrupted_after r (Purge l)).
    + intros e. cbn. lia.
Qed.

(** C9: A kill in a call of the log store other than a truncation (before and after the
    call, between two entries of an append, while the meta file is replaced, between the
    deletions of a purge), followed by a crash, leaves a directory that opens with the log
    and the meta data from before the call, those from after it, or those from before it
    with a prefix of the appended entries. The store is in [store_rel] and the call keeps
    [store_pre]: a purge ends below the next index of the log. A kill inside a truncation
    is not covered ([interrupted_truncate_leaves_hole]). *)
Theorem interrupted_store_op st r o sd0 sd :
  store_rel st r → store_pre r o → store_killed st o sd0 → crash_store sd0 sd →
  ∃ st' r', store_open sd = (Ok st', store_disk st') ∧ store_rel st' r'
    ∧ interrupted r o (rl_meta r') (rl_entries r').
Proof. intros Hr Hpre Hk [Hcl Hcd]. eapply opens_as_open; [by eapply killed_opens|done|done]. Qed.
End LogStoreKilled.

(** ** Evaluated instances *)

Module KilledDemo.
Import StoreDemo.
#[local] Existing Instances sum_crc32c SampleRaft.membership SampleRaft.entry_codec SampleRaft.meta_codec.

(** Killed in a purge, after the meta file has been written. *)
Definition purged_meta : dir := (persist_meta (set_last_purged (Some (id 1)) (s_meta loaded)) (s_dir loaded)).2.
Definition in_purge : StoreDisk :=
  {| sd_log := disk (purge_rounds 1 0 (s_log loaded)).2; sd_dir := purged_meta |}.

Lemma killed_purging : store_killed loaded (Purge (id 1)) in_purge.
Proof. apply (killed_in_purge loaded (id 1) 0); vm_compute; reflexivity. Qed.

Lemma interrupted_store_op_witness :
  ∃ st' r', store_open {| sd_log := crash_min (sd_log in_purge); sd_dir := crash_min (sd_dir in_purge) |}
      = (Ok st', store_disk st') ∧ store_rel st' r'
    ∧ interrupted loaded_log (Purge (id 1)) (rl_meta r') (rl_entries r').
Proof.
  apply (interrupted_store_op loaded loaded_log (Purge (id 1)) in_purge _ loaded_rel); [|exact killed_purging|].
  - split; [done|]. by intros n [= <-].
  - split; apply crash_min_crash.
Defined.

(** The purge is finished by [open]. *)
Example purge_redone :
  let st := opened {| sd_log := crash_min (sd_log in_purge); sd_dir := crash_min (sd_dir in_purge) |} in
  (last_purged (s_meta st), last_index (slf (s_log st)), size (records (slf (s_log st)))) = (Some (id 1), Some 2, 1%nat).
Proof. vm_compute. reflexivity. Qed.
End KilledDemo.
