(* ===== verification/StateMachine.v ===== *)
(** * The Raft state machine (crates/cluster/src/state_machine.rs)

    Applies committed Raft entries to the local catalog, keeps the membership in
    [membership.pb], and builds and installs snapshots.  The async methods run to
    completion under the lock of the state; a snapshot file is its contents. *)

From S2P Require Import Prelude Bytes CoreError FileSys Proto External Mapping Document IndexApi Collection.
From S2P Require Import WalInterface Catalog CatalogSnapshots Conversions LogStore.

Open Scope Z_scope.

Definition MEMBERSHIP_FILE : string := "membership.pb".
Definition MEMBERSHIP_TMP : string := ".membership.pb.tmp".

(** [type_config::Response]. *)
Record Response := { response_id : string; response_created : bool }.
Definition Response_default : Response := {| response_id := ""; response_created := false |}.

Definition to_log_id (mark : LogMark) : openraft.LogId :=
  {| openraft.log_leader := {| openraft.term := mark_term mark; openraft.leader_node := mark_node mark |};
     openraft.index := mark_index mark |}.

(** The mark an entry is applied at. *)
Definition mark_of (id : openraft.LogId) : LogMark :=
  {| mark_term := openraft.term (openraft.log_leader id);
     mark_node := openraft.leader_node (openraft.log_leader id);
     mark_index := openraft.index id |}.

Definition snapshot_id (last_log_id : option openraft.LogId) : string :=
  match last_log_id with
  | Some id =>
      u64_to_string (openraft.term (openraft.log_leader id)) +:+ "-"
      +:+ u64_to_string (openraft.leader_node (openraft.log_leader id)) +:+ "-"
      +:+ u64_to_string (openraft.index id)
  | None => "init"
  end.

Section StateMachine.
Context `{Json} `{Rfc3339} `{TantivySchema} `{!TantivyIndex} `{!MarkJson} `{UuidApi}.
Context `{WriteAheadLog} `{!Codec v1.CatalogSnapshot}.
Context `{openraft.MembershipApi} `{!Codec raft.StoredMembership}.

Record SmState := {
  last_applied : option openraft.LogId;
  sm_membership : openraft.StoredMembership;
  sm_snapshot : option openraft.SnapshotMeta
}.

(** [StoredMembership::default()]. *)
Definition StoredMembership_default : openraft.StoredMembership :=
  {| openraft.stored_log_id := None; openraft.stored_membership := openraft.Membership_default |}.

Record SmSt := { sm_catalog : CatSt; meta_dir : dir; sm_state : SmState }.

Abbreviation MSm := (M SmSt StorageError).

Definition on_catalog {A} (wrap : cause → StorageError) (m : M CatSt Error A) : MSm A :=
  mapE (λ e, wrap (CoreCause e))
    (zoom sm_catalog (λ c s, {| sm_catalog := c; meta_dir := meta_dir s; sm_state := sm_state s |}) m).
Definition on_meta_dir {A} (m : IO A) : MSm A :=
  mapE (λ e, WriteStateMachine (IoCause e))
    (zoom meta_dir (λ d s, {| sm_catalog := sm_catalog s; meta_dir := d; sm_state := sm_state s |}) m).
Definition on_state (f : SmState → SmState) : MSm unit :=
  modify (λ s, {| sm_catalog := sm_catalog s; meta_dir := meta_dir s; sm_state := f (sm_state s) |}).

Definition set_last_applied (l : option openraft.LogId) (s : SmState) : SmState :=
  {| last_applied := l; sm_membership := sm_membership s; sm_snapshot := sm_snapshot s |}.
Definition set_membership (m : openraft.StoredMembership) (s : SmState) : SmState :=
  {| last_applied := last_applied s; sm_membership := m; sm_snapshot := sm_snapshot s |}.
Definition set_snapshot (m : option openraft.SnapshotMeta) (s : SmState) : SmState :=
  {| last_applied := last_applied s; sm_membership := sm_membership s; sm_snapshot := m |}.

(** ** The membership file *)

Definition load_membership (d : dir) : result StorageError openraft.StoredMembership :=
  match (fs_read MEMBERSHIP_FILE d).1 with
  | Ok bytes =>
      proto ← ok_or (ReadStateMachine DecodeCause) (decode bytes);
      map_err (λ e, ReadStateMachine (ConversionCause e)) (StoredMembership_try_from proto)
  | Err NotFound => Ok StoredMembership_default
  | Err e => Err (ReadStateMachine (IoCause e))
  | Panic w => Panic w
  end.

Definition persist_membership (m : openraft.StoredMembership) : MSm unit :=
  on_meta_dir (
    file_create MEMBERSHIP_TMP;;
    write_all MEMBERSHIP_TMP (encode_to_vec (StoredMembership_to m));;
    fsync MEMBERSHIP_TMP;;
    rename MEMBERSHIP_TMP MEMBERSHIP_FILE).

(** ** The state machine *)

Definition sm_open (catalog : CatSt) (d : dir) : result StorageError SmSt :=
  m ← load_membership d;
  mret {| sm_catalog := catalog; meta_dir := d;
          sm_state := {| last_applied := None; sm_membership := m; sm_snapshot := None |} |}.

Definition applied_log_id : MSm (option openraft.LogId) :=
  m ← on_catalog ReadStateMachine min_committed_mark;
  s ← get;
  mret (match m with
        | Some mark => Some (to_log_id mark)
        | None => last_applied (sm_state s)
        end).

Definition applied_state : MSm (option openraft.LogId * openraft.StoredMembership) :=
  l ← applied_log_id;
  s ← get;
  mret (l, sm_membership (sm_state s)).

(** The body of the loop of [apply]. *)
Definition apply_entry (entry : openraft.Entry) : MSm Response :=
  let log_id := openraft.log_id entry in
  on_state (set_last_applied (Some log_id));;
  match openraft.payload entry with
  | openraft.Blank => mret Response_default
  | openraft.MembershipChange membership =>
      let stored := {| openraft.stored_log_id := Some log_id; openraft.stored_membership := membership |} in
      persist_membership stored;;
      on_state (set_membership stored);;
      mret Response_default
  | openraft.Normal command =>
      outcome ← on_catalog (Apply log_id) (apply_command (mark_of log_id) command);
      mret {| response_id := outcome_id outcome; response_created := outcome_created outcome |}
  end.

Fixpoint apply (entries : list openraft.Entry) : MSm (list Response) :=
  match entries with
  | [] => mret []
  | entry :: entries =>
      response ← apply_entry entry;
      responses ← apply entries;
      mret (response :: responses)
  end.

Definition sm_install_snapshot (meta : openraft.SnapshotMeta) (tar : archive) : MSm unit :=
  on_catalog WriteStateMachine (install_snapshot tar);;
  persist_membership (openraft.last_membership meta);;
  on_state (λ s, set_snapshot (Some meta) (set_membership (openraft.last_membership meta)
                   (set_last_applied (openraft.last_log_id meta) s))).

Definition get_current_snapshot : MSm (option (openraft.SnapshotMeta * archive)) :=
  s ← get;
  tar ← on_catalog WriteStateMachine current_snapshot;
  mret (match sm_snapshot (sm_state s), tar with
        | Some meta, Some tar => Some (meta, tar)
        | _, _ => None
        end).

Definition sm_build_snapshot : MSm (openraft.SnapshotMeta * archive) :=
  tar ← on_catalog WriteStateMachine build_snapshot;
  last_log_id ← applied_log_id;
  s ← get;
  let meta := {| openraft.last_log_id := last_log_id;
                 openraft.last_membership := sm_membership (sm_state s);
                 openraft.snapshot_id := snapshot_id last_log_id |} in
  on_state (set_snapshot (Some meta));;
  mret (meta, tar).
End StateMachine.
