(* ===== verification/ReplicaSpec.v ===== *)
(** * Replicas: applying committed commands

    On the replicated path the catalog does not log: openraft hands committed
    commands to [apply_command] with their log position as the mark.  [replica st d i]
    says that the catalog [st] holds the database [d] after the entries up to
    index [i], whatever part of it is committed to the indexes. *)

From S2P Require Import Prelude Bytes CoreError FileSys Proto External Mapping Document IndexApi Collection.
From S2P Require Import CollectionSpec WalInterface Catalog CatalogSpec CatalogRel CatalogReplay CatalogCommit.
From S2P Require Import CatalogOpen CatalogCalls.

Open Scope Z_scope.

Section ReplicaSpec.
Context `{Json} `{Rfc3339} `{TantivySchema} `{!TantivyIndex} `{!MarkJson} `{UuidApi}.
Context `{WriteAheadLog} `{!Codec v1.CatalogSnapshot}.

(** [P] relates each collection to the documents and the mark of its last commit. *)
Record replica_with (P : string → coll → docs_map → Z → Prop) (st : CatSt) (d : gmap string coll) (i : Z) :
    Prop := {
  rp_loaded : loaded i d P st;
  rp_inj : inj_uuids d;
  rp_dirs : ∀ u, is_Some (col_dirs (root st) !! u) → live d u
}.

(** A commit is not newer than [i], and complete if it is at [i]. *)
Definition commit_upto (i : Z) (n : string) (c : coll) (D : docs_map) (k : Z) : Prop :=
  k ≤ i ∧ (k = i → D = a_docs c).

Definition replica (st : CatSt) (d : gmap string coll) (i : Z) : Prop := replica_with (commit_upto i) st d i.

Lemma replica_lookup P st d i n :
  replica_with P st d i →
  match d !! n with
  | Some c => ∃ e D k, collections (cat st) !! n = Some e ∧ holds i (col_dirs (root st)) e c D k ∧ P n c D k
  | None => collections (cat st) !! n = None
  end.
Proof.
  intros [[Hs Hn] _ _]. destruct (collections (cat st) !! n) as [e|] eqn:He.
  - destruct (Hs _ _ He) as (c & D & k & -> & ? & ?). by exists e, D, k.
  - by rewrite (Hn _ He).
Qed.

Lemma replica_impl P Q st d i :
  (∀ n c D k, d !! n = Some c → P n c D k → Q n c D k) → replica_with P st d i → replica_with Q st d i.
Proof. intros HPQ [Hl Hi Hd]. split; [by eapply loaded_impl|done|done]. Qed.

(** An entry seen from a later index. *)
Lemma holds_mono i j dirs dirs' e c D k :
  i ≤ j → dirs' !! a_uuid c = dirs !! a_uuid c → holds i dirs e c D k → holds j dirs' e c D k.
Proof. intros Hij Ed (? & ? & index & ? & ?). split; [done|]. split; [lia|]. exists index. by rewrite Ed. Qed.

(** If [P] holds of the commits in database [d], [Q] holds of them after command [c]. *)
Definition advances (d : gmap string coll) (c : cmd) (P Q : string → coll → docs_map → Z → Prop) : Prop :=
  ∀ n cl cl' D k, d !! n = Some cl → step d c !! n = Some cl' → P n cl D k → Q n cl' D k.

Lemma commit_upto_later i j n c c' D k : i < j → commit_upto i n c D k → commit_upto j n c' D k.
Proof. intros ? [? _]. split; lia. Qed.

(** What a replica never touches: its write-ahead log and its quarantine. *)
Definition idle_parts (st : CatSt) : wal * gmap (Uuid * Z) (option Index) := (c_wal (cat st), quarantined (root st)).

(** What a command does to the catalog's files: a schema change rewrites the
    snapshot, a document command leaves them alone. *)
Definition files_step (st st' : CatSt) (c : cmd) (d' : gmap string coll) (z : Z) : Prop :=
  idle_parts st' = idle_parts st ∧
  match c with
  | CCreate _ _ _ | CDrop _ => snapshot_ok (files (root st')) (saved_as d' z z)
  | CIndex _ _ _ | CDelete _ _ => files (root st') = files (root st)
  end.

(** A method of collection [n] that changes its documents in the writer only. *)
Lemma doc_step {A} (P Q : string → coll → docs_map → Z → Prop) st d i j n c f (m : M ColSt Error A) :
  replica_with P st d i → i ≤ j → d !! n = Some c →
  (∀ n' c' D k, n' ≠ n → d !! n' = Some c' → P n' c' D k → Q n' c' D k) →
  (∀ D k, P n c D k → Q n (set_docs f c) D k) →
  (∀ s D g, col_rep s (a_mapping c) D g →
    ∃ r s', m s = (Ok r, s') ∧ col_rep s' (a_mapping c) D (f g) ∧ on_disk s' = on_disk s) →
  ∃ r st', on_col n m st = (Ok r, st') ∧ replica_with Q st' (alter (set_docs f) n d) j
    ∧ idle_parts st' = idle_parts st ∧ files (root st') = files (root st).
Proof.
  intros Hr Hij Hc HQ HQn Hm. pose proof (replica_lookup _ _ _ _ n Hr) as Hl. rewrite Hc in Hl.
  destruct Hl as (e & D & k & He & (Eu & Hz & index & Hd & Hrep & Hk) & HP).
  destruct (Hm _ _ _ Hrep) as (r & [c' i'] & Em & Hrep' & Edisk). cbn in Edisk. subst i'.
  exists r, (put_col st n e {| col := c'; on_disk := index |}).
  split; [eapply on_col_ok; [done|by rewrite Eu|done]|]. split; [|done].
  assert (Edirs : <[e_uuid e := Some index]> (col_dirs (root st)) = col_dirs (root st))
    by (apply insert_id; by rewrite Eu).
  destruct Hr as [[Hs Hn] Hinj Hdirs]. split; cbn; rewrite ?Edirs.
  - split; cbn; rewrite ?Edirs.
    + intros n' e' [[<- <-]|[Hne He']]%lookup_insert_Some.
      * exists (set_docs f c), D, k. rewrite lookup_alter_eq, Hc. split; [done|]. split; [|by apply HQn].
        split; [done|]. split; [cbn; lia|]. by exists index.
      * destruct (Hs _ _ He') as (c2 & D2 & k2 & Hc2 & Hh & ?). exists c2, D2, k2.
        rewrite lookup_alter_ne by done. split; [done|]. split; [|by apply HQ].
        by apply (holds_mono i _ (col_dirs (root st))).
    + intros n' [Hn' Hne]%lookup_insert_None. rewrite lookup_alter_ne by done. by apply Hn.
  - intros n1 n2 c1 c2 H1' H2' E. apply alter_uuid in H1' as (d1 & ? & E1), H2' as (d2 & ? & E2); [|done..].
    eapply Hinj; [done..|congruence].
  - intros u (n' & c2 & Hc2 & Eu2)%Hdirs. unfold live. destruct (decide (n = n')) as [<-|Hne].
    + exists n, (set_docs f c2). by rewrite lookup_alter_eq, Hc2.
    + exists n', c2. by rewrite lookup_alter_ne.
Qed.

Lemma replica_committed P st d i n c :
  replica_with P st d i → d !! n = Some c → ∃ D k, committed_index n st = (Ok k, st) ∧ P n c D k.
Proof.
  intros Hr Hc. pose proof (replica_lookup _ _ _ _ n Hr) as Hl. rewrite Hc in Hl.
  destruct Hl as (e & D & k & He & (Eu & _ & index & Hd & _ & Hk) & HP).
  exists D, k. split; [|done]. eapply committed_index_ok; [done|by rewrite Eu|done].
Qed.

(** ** The four commands *)

Lemma lookup_entry_ok st n : lookup_entry n st = (Ok (collections (cat st) !! n), st).
Proof. done. Qed.

(** The snapshot that [persist] leaves. *)
Lemma saved_snapshot Q st d z fd :
  loaded z d Q st →
  fd !! SNAPSHOT_FILE = Some (File (encode_to_vec (snapshot_proto (cat st) z))
                                   (length (encode_to_vec (snapshot_proto (cat st) z)))) →
  snapshot_ok fd (saved_as d z z).
Proof. intros Hl Hf. right. eexists _, _. split; [exact Hf|]. split; [done|]. split; [done|]. by eapply snapshot_proto_rep. Qed.

(** A committed command, with a fresh uuid if it creates a collection. *)
Definition committed_cmd (d : gmap string coll) (c : cmd) : Prop :=
  cmd_ok d c ∧ ∀ u, u ∈ creates [c] → ¬ live d u.

(** The id a command is answered with. *)
Definition reply_id (c : cmd) : string :=
  match c with
  | CIndex _ id _ | CDelete _ id => id
  | _ => ""
  end.

(** A document that can be built where it is applied. *)
Definition index_builds (d : gmap string coll) (n id : string) (src : list byte) : Prop :=
  ∃ c v, d !! n = Some c ∧ from_slice src = Some v ∧ buildable (a_mapping c) v ∧ id_ok id.

Section commands.
Context (P Q : string → coll → docs_map → Z → Prop) (st : CatSt) (d : gmap string coll) (i : Z) (mark : LogMark).
Hypothesis Hr : replica_with P st d i.
Hypothesis Hle : ∀ n c D k, P n c D k → k ≤ i.
Hypothesis Hlt : i < mark_index mark.

Lemma apply_index_ok n id src :
  index_builds d n id src → advances d (CIndex n id src) P Q →
  ∃ created st', apply_command mark (command (op_of (CIndex n id src))) st
      = (Ok {| outcome_id := id; outcome_created := created |}, st')
    ∧ replica_with Q st' (step d (CIndex n id src)) (mark_index mark)
    ∧ files_step st st' (CIndex n id src) (step d (CIndex n id src)) (mark_index mark).
Proof.
  intros (c & v & Hc & Ev & Hval & Hid) Hadv. cbn. unfold apply_index. cbn [v1.index_collection].
  pose proof (replica_lookup _ _ _ _ n Hr) as Hl. rewrite Hc in Hl. destruct Hl as (e & _ & _ & He & _).
  rewrite (M_bind_Ok _ _ _ _ _ (lookup_entry_ok st n)), He.
  destruct (replica_committed _ _ _ _ _ _ Hr Hc) as (D & k & Ek & Hk%Hle). rewrite (M_bind_Ok _ _ _ _ _ Ek).
  rewrite decide_False by lia. cbn [v1.index_source v1.index_id]. rewrite Ev. mpure.
  destruct (doc_step P Q st d i (mark_index mark) n c <[id := src]> (apply_upsert id src v) Hr)
    as (b & st' & E & Hr' & Hf); [lia|done|..].
  { intros n' c' D' k' Hne Hc'. apply Hadv; cbn; [done|by rewrite lookup_alter_ne]. }
  { intros D' k'. apply Hadv; cbn; [done|by rewrite lookup_alter_eq, Hc]. }
  { intros s D' g Hrep. destruct (upsert_built s _ _ g id src v Hrep Hval Hid) as (s' & ? & ? & ? & _).
    by eexists _, s'. }
  exists b, st'. rewrite (M_bind_Ok _ _ _ _ _ E). done.
Qed.

Lemma apply_delete_ok n id :
  cmd_ok d (CDelete n id) → advances d (CDelete n id) P Q →
  ∃ st', apply_command mark (command (op_of (CDelete n id))) st
      = (Ok {| outcome_id := id; outcome_created := false |}, st')
    ∧ replica_with Q st' (step d (CDelete n id)) (mark_index mark)
    ∧ files_step st st' (CDelete n id) (step d (CDelete n id)) (mark_index mark).
Proof.
  intros [[c Hc] Hid] Hadv. cbn. unfold apply_delete_doc. cbn [v1.delete_collection].
  pose proof (replica_lookup _ _ _ _ n Hr) as Hl. rewrite Hc in Hl. destruct Hl as (e & _ & _ & He & _).
  rewrite (M_bind_Ok _ _ _ _ _ (lookup_entry_ok st n)), He.
  destruct (replica_committed _ _ _ _ _ _ Hr Hc) as (D & k & Ek & Hk%Hle). rewrite (M_bind_Ok _ _ _ _ _ Ek).
  rewrite decide_False by lia. cbn [v1.delete_id].
  destruct (doc_step P Q st d i (mark_index mark) n c (delete id) (apply_delete id) Hr)
    as (b & st' & E & Hr' & Hf); [lia|done|..].
  { intros n' c' D' k' Hne Hc'. apply Hadv; cbn; [done|by rewrite lookup_alter_ne]. }
  { intros D' k'. apply Hadv; cbn; [done|by rewrite lookup_alter_eq, Hc]. }
  { intros s D' g Hrep. destruct (delete_rep s _ _ g id Hrep Hid) as (s' & ? & ? & ? & _). by eexists _, s'. }
  exists st'. by rewrite (M_bind_Ok _ _ _ _ _ E).
Qed.

Lemma apply_create_ok n u m :
  0 ≤ mark_index mark → cmd_ok d (CCreate n u m) → advances d (CCreate n u m) P Q → ¬ live d u →
  Q n {| a_uuid := u; a_mapping := m; a_docs := ∅ |} ∅ 0 →
  ∃ st', apply_command mark (command (op_of (CCreate n u m))) st = (Ok ApplyOutcome_default, st')
    ∧ replica_with Q st' (step d (CCreate n u m)) (mark_index mark)
    ∧ files_step st st' (CCreate n u m) (step d (CCreate n u m)) (mark_index mark).
Proof.
  intros H0' [Hn Hv] Hadv Hu HQ. pose proof (replica_lookup _ _ _ _ n Hr) as Hl. rewrite Hn in Hl.
  destruct Hr as [[Hs Hno] Hinj Hdirs].
  assert (Hdir : col_dirs (root st) !! u = None) by (apply eq_None_not_Some; by intros ?%Hdirs).
  pose proof (install_new st n u m (mark_index mark) Hv Hdir) as Ei. set (st1 := {| cat := _; root := _ |}) in Ei.
  destruct (persist_ok st1 (mark_index mark)) as (fd & Ep & Efd).
  exists {| cat := cat st1; root := set_files fd (root st1) |}. split.
  { cbn. unfold apply_create. cbn [v1.create_mapping v1.create_collection v1.create_uuid].
    erewrite M_bind_Ok; [reflexivity|]. mpure. rewrite Mapping_proto_roundtrip by apply Hv. mpure.
    rewrite (M_bind_Ok _ _ _ _ _ (lookup_entry_ok st n)), Hl, uuid_parse_to_string. mpure.
    by rewrite (M_bind_Ok _ _ _ _ _ Ei). }
  assert (Hne : ∀ n' c', d !! n' = Some c' → u ≠ a_uuid c') by (intros n' c' Hc' ->; apply Hu; by exists n', c').
  assert (Hl' : loaded (mark_index mark) (step d (CCreate n u m)) Q {| cat := cat st1; root := set_files fd (root st1) |}).
  { split; cbn.
    + intros n' e' [[<- <-]|[Hne' He']]%lookup_insert_Some.
      * eexists _, ∅, 0. rewrite lookup_insert_eq. split; [done|]. split; [|done]. split; [done|]. split; [cbn; lia|].
        exists (create_in_dir (schema_of m)). cbn. rewrite lookup_insert_eq.
        split; [done|]. split; [by apply col_rep_create|apply mark_at_create].
      * destruct (Hs _ _ He') as (c2 & D2 & k2 & Hc2 & Hh & ?). exists c2, D2, k2.
        assert (Hc2' : step d (CCreate n u m) !! n' = Some c2) by (cbn; by rewrite lookup_insert_ne).
        split; [done|]. split; [|by eapply Hadv].
        apply (holds_mono i _ (col_dirs (root st))); [lia| |done].
        rewrite lookup_insert_ne, lookup_insert_ne; [done|by apply (Hne n')..].
    + intros n' [Hn' Hne']%lookup_insert_None. rewrite lookup_insert_ne by done. by apply Hno. }
  split; [split; cbn; [done|..]|].
  - intros n1 n2 c1 c2 [[<- <-]|[? H1']]%lookup_insert_Some [[<- <-]|[? H2']]%lookup_insert_Some E; cbn in *;
      [done|by eapply Hne in H2'|by eapply Hne in H1'|by eapply Hinj].
  - intros u' Hu'. destruct (decide (u = u')) as [<-|Hne']; [eexists n, _; by rewrite lookup_insert_eq|].
    rewrite !lookup_insert_ne in Hu' by done. destruct (Hdirs _ Hu') as (n' & c' & Hc' & ?).
    exists n', c'. rewrite lookup_insert_ne; [done|]. intros <-. congruence.
  - split; [done|]. by eapply saved_snapshot.
Qed.

Lemma apply_drop_ok n :
  cmd_ok d (CDrop n) → advances d (CDrop n) P Q →
  ∃ st', apply_command mark (command (op_of (CDrop n))) st = (Ok ApplyOutcome_default, st')
    ∧ replica_with Q st' (step d (CDrop n)) (mark_index mark)
    ∧ files_step st st' (CDrop n) (step d (CDrop n)) (mark_index mark).
Proof.
  intros [c Hc] Hadv. pose proof (replica_lookup _ _ _ _ n Hr) as Hl. rewrite Hc in Hl.
  destruct Hl as (e & D & k & He & (Eu & _) & _). destruct Hr as [[Hs Hno] Hinj Hdirs].
  set (st1 := {| cat := set_collections (delete n (collections (cat st))) (cat st);
                 root := set_col_dirs (delete (e_uuid e) (col_dirs (root st))) (root st) |}).
  destruct (persist_ok st1 (mark_index mark)) as (fd & Ep & Efd).
  exists {| cat := cat st1; root := set_files fd (root st1) |}. split.
  { cbn. unfold apply_drop. erewrite M_bind_Ok; [reflexivity|].
    rewrite (M_bind_Ok _ _ _ _ _ (lookup_entry_ok st n)), He. mpure. mpure. exact Ep. }
  assert (Hl' : loaded (mark_index mark) (step d (CDrop n)) Q {| cat := cat st1; root := set_files fd (root st1) |}).
  { split; cbn.
    + intros n' e' [Hne He']%lookup_delete_Some. destruct (Hs _ _ He') as (c2 & D2 & k2 & Hc2 & Hh & ?).
      assert (Hc2' : step d (CDrop n) !! n' = Some c2) by (cbn; by rewrite lookup_delete_ne).
      exists c2, D2, k2. split; [done|]. split; [|by eapply Hadv].
      apply (holds_mono i _ (col_dirs (root st))); [lia| |done]. apply lookup_delete_ne.
      rewrite Eu. intros E. apply Hne. by eapply Hinj.
    + intros n' [->|Hn']%lookup_delete_None; [apply lookup_delete_eq|].
      apply lookup_delete_None. right. by apply Hno. }
  split; [split; cbn; [done|..]|].
  - intros n1 n2 c1 c2 [_ ?]%lookup_delete_Some [_ ?]%lookup_delete_Some E. by eapply Hinj.
  - intros u [x [Hne Hx]%lookup_delete_Some]. destruct (Hdirs u) as (n' & c' & Hc' & ?); [by eauto|].
    exists n', c'. rewrite lookup_delete_ne; [done|]. intros <-. congruence.
  - split; [done|]. by eapply saved_snapshot.
Qed.

Lemma apply_cmd_with c :
  0 ≤ mark_index mark → committed_cmd d c → advances d c P Q →
  (∀ n u m, c = CCreate n u m → Q n {| a_uuid := u; a_mapping := m; a_docs := ∅ |} ∅ 0) →
  ∃ out st', apply_command mark (command (op_of c)) st = (Ok out, st') ∧ outcome_id out = reply_id c
    ∧ replica_with Q st' (step d c) (mark_index mark)
    ∧ files_step st st' c (step d c) (mark_index mark).
Proof.
  intros H0' [Hc Hu] Hadv Hnew. destruct c as [n u m|n|n id src|n id].
  - destruct (apply_create_ok n u m H0' Hc Hadv) as (st' & E & Hr'); [apply Hu; left|by eapply Hnew|]. by eexists _, st'.
  - destruct (apply_drop_ok n Hc Hadv) as (st' & E & Hr'). by eexists _, st'.
  - assert (Hb : index_builds d n id src).
    { destruct Hc as (cl & v & Hn & Ev & Hval & Hid). exists cl, v. do 2 (split; [done|]). split; [|done].
      pose proof (replica_lookup _ _ _ _ n Hr) as Hl. rewrite Hn in Hl.
      destruct Hl as (e & D & k & _ & (_ & _ & index & _ & Hrep & _) & _). apply validated_buildable; [apply (cr_valid _ _ _ _ Hrep)|done]. }
    destruct (apply_index_ok n id src Hb Hadv) as (b & st' & E & Hr'). by eexists _, st'.
  - destruct (apply_delete_ok n id Hc Hadv) as (st' & E & Hr'). by eexists _, st'.
Qed.
End commands.

Lemma apply_cmd_ok st d i mark c :
  replica st d i → i < mark_index mark → 0 ≤ mark_index mark → committed_cmd d c →
  ∃ out st', apply_command mark (command (op_of c)) st = (Ok out, st') ∧ outcome_id out = reply_id c
    ∧ replica st' (step d c) (mark_index mark).
Proof.
  intros Hr Hlt H0' Hc. destruct (apply_cmd_with _ (commit_upto (mark_index mark)) st d i mark Hr) with c
    as (out & st' & ? & ? & ? & _); try done.
  - by intros n c' D k [? _].
  - intros n cl cl' D k _ _. by apply commit_upto_later.
  - by exists out, st'.
Qed.

(** Entries that do not touch the catalog. *)
Lemma replica_advance P Q st d i j :
  replica_with P st d i → i ≤ j → (∀ n c D k, d !! n = Some c → P n c D k → Q n c D k) → replica_with Q st d j.
Proof.
  intros [[Hs Hn] Hinj Hd] Hij HPQ. split; [|done|done]. split; [|done]. intros n e He.
  destruct (Hs n e He) as (c & D & k & ? & ? & ?). exists c, D, k. split; [done|].
  split; [|by apply HPQ]. by apply (holds_mono i _ (col_dirs (root st))).
Qed.

(** ** Commits *)

(** Everything applied to collection [n] is committed. *)
Definition fully_committed (st : CatSt) (d : gmap string coll) (n : string) : Prop :=
  ∀ c, d !! n = Some c → ∃ e index, collections (cat st) !! n = Some e
    ∧ col_dirs (root st) !! e_uuid e = Some (Some index)
    ∧ col_rep {| col := e_collection e; on_disk := index |} (a_mapping c) (a_docs c) (a_docs c).

(** What [commit_collection n] at mark [m] leaves of the commits. *)
Definition committed_from (P : string → coll → docs_map → Z → Prop) (n : string) (m : Z)
    (n' : string) (c : coll) (D : docs_map) (k : Z) : Prop :=
  if decide (n' = n)
  then (D = a_docs c ∧ k = m ∧ ∃ D0 k0, P n' c D0 k0 ∧ k0 < m) ∨ P n' c D k ∧ m ≤ k
  else P n' c D k.

Lemma commit_collection_with P st d i n mark :
  replica_with P st d i → is_Some (d !! n) →
  ∃ st', commit_collection n mark st = (Ok tt, st')
    ∧ replica_with (committed_from P n (mark_index mark)) st' d i
    ∧ idle_parts st' = idle_parts st ∧ files (root st') = files (root st).
Proof.
  intros Hr [c Hc]. pose proof (replica_lookup _ _ _ _ n Hr) as Hl. rewrite Hc in Hl.
  destruct Hl as (e & D & k & He & (Eu & Hz & index & Hd & Hrep & Hk) & HP).
  unfold commit_collection. rewrite (M_bind_Ok _ _ _ _ _ (get_ok _ _ _ He)).
  rewrite (M_bind_Ok _ _ _ _ _ (committed_index_ok st n e index k He ltac:(by rewrite Eu) Hk)).
  case_decide as Hlt.
  - destruct (commit_one i d _ st n mark (rp_inj _ _ _ _ Hr) (rp_loaded _ _ _ _ Hr) ltac:(by eauto))
      as (st' & E & (_ & Ew & Ef & Eq & _ & Hdirs) & Hl').
    exists st'. split; [done|]. split; [|split; [unfold idle_parts; congruence|done]].
    split; [|apply Hr|intros u Hu; by apply (rp_dirs _ _ _ _ Hr), Hdirs].
    eapply loaded_impl; [|exact Hl']. unfold committed_from. intros n' c' D' k' Hc'. cbn. case_decide as En; [|done].
    subst n'. assert (c' = c) as -> by congruence. intros [-> ->]. left. split_and!; [done..|]. by exists D, k.
  - exists st. split; [done|]. split; [|done]. destruct Hr as [[Hs Hn] Hinj Hdirs]. split; [|done|done].
    split; [|done]. intros n' e' He'. destruct (Hs _ _ He') as (c2 & D2 & k2 & Hc2 & Hh & HP2).
    exists c2, D2, k2. do 2 (split; [done|]). unfold committed_from. case_decide as Hn'; [|done]. right.
    split; [done|]. subst n'. rewrite He in He'. injection He' as <-.
    destruct Hh as (Eu2 & _ & index2 & Hd2 & _ & mk2 & Em2 & <-), Hk as (mk & Em & <-).
    rewrite <-Eu2, Eu, Hd in Hd2. injection Hd2 as <-. rewrite Em in Em2. injection Em2 as <-. lia.
Qed.

Lemma replica_fully_committed P st d i n :
  replica_with P st d i → (∀ c D k, P n c D k → D = a_docs c) → fully_committed st d n.
Proof.
  intros Hr Hfull c Hc. pose proof (replica_lookup _ _ _ _ n Hr) as Hl. rewrite Hc in Hl.
  destruct Hl as (e & D & k & He & (Eu & Hz & index & Hd & Hrep & Hk) & ->%Hfull).
  exists e, index. by rewrite Eu.
Qed.

Lemma commit_collection_ok st d i n c mark :
  replica st d i → d !! n = Some c → mark_index mark = i →
  ∃ st', commit_collection n mark st = (Ok tt, st') ∧ replica st' d i ∧ fully_committed st' d n.
Proof.
  intros Hr Hc Hmk. destruct (commit_collection_with _ st d i n mark Hr) as (st' & E & Hr' & _); [by eauto|].
  exists st'. split; [done|]. split.
  - eapply replica_impl; [|exact Hr']. intros n' c' D k _. unfold committed_from, commit_upto. rewrite Hmk.
    case_decide; [|done]. intros [(-> & -> & _)|[? _]]; [by split|done].
  - eapply replica_fully_committed; [exact Hr'|]. intros c' D k. unfold committed_from. rewrite Hmk, decide_True by done.
    intros [[-> _]|[[? HD] ?]]; [done|]. apply HD. lia.
Qed.

Lemma read_fully_committed st d n c id :
  fully_committed st d n → d !! n = Some c → id_ok id →
  get_document n id st = (ok_or (DocumentNotFound id) (a_docs c !! id), st).
Proof.
  intros Hf Hc Hid. destruct (Hf c Hc) as (e & index & He & Hd & Hrep). unfold get_document.
  rewrite (M_bind_Ok _ _ _ _ _ (get_ok _ _ _ He)). pose proof (source_rep _ _ _ _ id Hrep Hid) as Es.
  erewrite M_bind_Ok; [|eapply on_col_ok; [done|done|done]]. cbv beta. by rewrite put_col_same.
Qed.

Lemma checkpoint_applied_ok P st d i mark :
  replica_with P st d i →
  ∃ st', checkpoint_applied mark st = (Ok tt, st')
    ∧ replica_with (λ n c D k, D = a_docs c ∧ k = mark_index mark) st' d i
    ∧ idle_parts st' = idle_parts st ∧ snapshot_ok (files (root st')) (saved_as d (mark_index mark) i).
Proof.
  intros Hr. destruct (commit_all_at i d _ st mark (rp_inj _ _ _ _ Hr) (rp_loaded _ _ _ _ Hr))
    as (st' & E & Hl & _ & Ew & Eq & Hd & Hsn).
  exists st'. split; [done|]. split; [|split; [unfold idle_parts; congruence|done]].
  split; [done|apply Hr|intros u Hu; by apply (rp_dirs _ _ _ _ Hr), Hd].
Qed.

(** ** The reported log position *)

(** The committed index of the collections in memory. *)
Definition committed_at (st : CatSt) (n : string) (k : Z) : Prop :=
  ∃ e index, collections (cat st) !! n = Some e
    ∧ col_dirs (root st) !! e_uuid e = Some (Some index) ∧ mark_at index k.

(** [m] is the least of [acc] and the commits of [ns]. *)
Definition least (st : CatSt) (ns : list string) (acc : option LogMark) (o : option LogMark) : Prop :=
  match o with
  | None => ns = [] ∧ acc = None
  | Some m => (∀ n k, n ∈ ns → committed_at st n k → mark_index m ≤ k)
      ∧ (∀ m0, acc = Some m0 → mark_index m ≤ mark_index m0)
      ∧ (acc = Some m ∨ ∃ n, n ∈ ns ∧ committed_at st n (mark_index m))
  end.

Lemma committed_at_unique st n k k' : committed_at st n k → committed_at st n k' → k = k'.
Proof.
  intros (e & i & He & Hd & mk & Em & <-) (e' & i' & He' & Hd' & mk' & Em' & <-).
  rewrite He in He'. injection He' as <-. rewrite Hd in Hd'. injection Hd' as <-. congruence.
Qed.

Definition min_loop : list string → option LogMark → M CatSt Error (option LogMark) :=
  fix go (names : list string) (acc : option LogMark) :=
     match names with
     | [] => mret acc
     | name :: names =>
         m ← on_col name committed_mark;
         go names (min_mark acc (default LogMark_default m))
     end.

Lemma min_loop_ok P st d i ns : ∀ acc,
  replica_with P st d i → Forall (λ n, is_Some (d !! n)) ns →
  ∃ o, min_loop ns acc st = (Ok o, st) ∧ least st ns acc o.
Proof.
  induction ns as [|n ns IH]; intros acc Hr Hns.
  { exists acc. split; [done|]. destruct acc as [m|]; [|done]. split; [by intros ?? ?%elem_of_nil|].
    split; [by intros ? [= ->]|by left]. }
  apply Forall_cons in Hns as [[c Hc] Hns]. pose proof (replica_lookup _ _ _ _ n Hr) as Hl. rewrite Hc in Hl.
  destruct Hl as (e & D & k & He & (Eu & _ & index & Hd & _ & mk & Emk & Ek) & _).
  assert (Hat : committed_at st n k) by (exists e, index; rewrite Eu; split_and!; [done|done|by exists mk]).
  assert (E : on_col n committed_mark st = (Ok mk, st)).
  { erewrite on_col_ok; [|done|by rewrite Eu|unfold committed_mark; mpure; cbn; unfold lift; rewrite Emk; reflexivity].
    rewrite put_col_same; [done|done|by rewrite Eu]. }
  destruct (IH (min_mark acc (default LogMark_default mk)) Hr Hns) as (o & Eo & Ho).
  exists o. split; [cbn; by rewrite (M_bind_Ok _ _ _ _ _ E)|].
  destruct o as [m|]; [|destruct Ho as [_ Ho]; unfold min_mark in Ho; repeat case_match; done].
  destruct Ho as (Hall & Hacc & Hor). unfold min_mark in *. split_and!.
  - intros n' k' [->|Hin]%elem_of_cons Hk'; [|by eapply Hall].
    rewrite (committed_at_unique _ _ _ _ Hk' Hat). destruct acc as [m0|]; [case_decide as Hm|];
      specialize (Hacc _ eq_refl); lia.
  - intros m0 ->. case_decide as Hm; specialize (Hacc _ eq_refl); lia.
  - destruct Hor as [Hor|(n' & ? & ?)]; [|right; exists n'; split; [by right|done]].
    destruct acc as [m0|]; [case_decide; [by left|]|]; right; exists n; split; try left;
      injection Hor as <-; by rewrite Ek.
Qed.

Lemma min_committed_ok P st d i :
  replica_with P st d i →
  ∃ o, min_committed_mark st = (Ok o, st)
    ∧ match o with
      | None => d = ∅
      | Some m => (∀ n k, committed_at st n k → mark_index m ≤ k)
          ∧ ∃ n, is_Some (d !! n) ∧ committed_at st n (mark_index m)
      end.
Proof.
  intros Hr. set (ns := (map_to_list (collections (cat st))).*1).
  assert (Hns : Forall (λ n, is_Some (d !! n)) ns).
  { apply Forall_forall. intros n ([n' e] & -> & Hin%elem_of_map_to_list)%list_elem_of_fmap. cbn.
    destruct (lo_some _ _ _ _ (rp_loaded _ _ _ _ Hr) _ _ Hin) as (c & _ & _ & Hc & _). by eauto. }
  destruct (min_loop_ok P st d i ns None Hr Hns) as (o & E & Ho).
  exists o. split; [unfold min_committed_mark; mpure; exact E|]. destruct o as [m|].
  - destruct Ho as (Hall & _ & [?|(n & Hin & Hat)]); [done|]. split.
    + intros n' k (e & index & He & Hd & Hk). eapply (Hall n' k); [|by exists e, index].
      apply list_elem_of_fmap. exists (n', e). by rewrite elem_of_map_to_list.
    + exists n. split; [|done]. rewrite Forall_forall in Hns. by apply Hns.
  - destruct Ho as [Hnil _]. apply map_empty. intros n.
    pose proof (replica_lookup _ _ _ _ n Hr) as Hl. destruct (d !! n) as [c|]; [|done].
    destruct Hl as (e & _ & _ & He & _). exfalso.
    assert (Hin : n ∈ ns) by (apply list_elem_of_fmap; exists (n, e); by rewrite elem_of_map_to_list).
    rewrite Hnil in Hin. by apply elem_of_nil in Hin.
Qed.
End ReplicaSpec.
