(* ===== verification/StateMachineCorrect.v ===== *)
(** * The Raft state machine: correctness

    Replicas that apply the same committed entries hold the same database, whatever
    each has committed to its indexes; reads after a commit see every applied write;
    the reported log position is covered by every collection; the membership is
    durable.  The last part evaluates restarts that go wrong. *)

From S2P Require Import Prelude Bytes CoreError FileSys SegmentedLog LogCorrect Proto External Samples SampleCodecs.
From S2P Require Import Mapping Document IndexApi Collection SampleIndex CollectionSpec WalInterface Wal Catalog.
From S2P Require Import CatalogSpec CatalogRel CatalogCommit CatalogOpen CatalogHistory CatalogCorrect.
From S2P Require Import CatalogSnapshots Conversions LogStore SampleRaft StateMachine ReplicaSpec.

Open Scope Z_scope.

Section StateMachineCorrect.
Context `{Json} `{Rfc3339} `{TantivySchema} `{!TantivyIndex} `{!MarkJson} `{UuidApi}.
Context `{WriteAheadLog} `{!Codec v1.CatalogSnapshot}.
Context `{openraft.MembershipApi} `{!Codec raft.StoredMembership}.

(** ** Committed logs *)

(** What a committed entry carries. *)
Inductive content :=
| CBlank
| CMember (m : openraft.Membership)
| CCmd (c : cmd).

Definition entry_of (x : openraft.LogId * content) : openraft.Entry :=
  {| openraft.log_id := x.1;
     openraft.payload := match x.2 with
                         | CBlank => openraft.Blank
                         | CMember m => openraft.MembershipChange m
                         | CCmd c => openraft.Normal (command (op_of c))
                         end |}.

Definition db_after (d : gmap string coll) (x : openraft.LogId * content) : gmap string coll :=
  match x.2 with
  | CCmd c => step d c
  | _ => d
  end.
Definition member_after (m : openraft.StoredMembership) (x : openraft.LogId * content) :
    openraft.StoredMembership :=
  match x.2 with
  | CMember m => {| openraft.stored_log_id := Some x.1; openraft.stored_membership := m |}
  | _ => m
  end.
Definition answer (x : openraft.LogId * content) : string :=
  match x.2 with
  | CCmd c => reply_id c
  | _ => ""
  end.

(** Entries with increasing indexes above [i], whose commands were accepted by the
    leader in the database they are applied to.  Entry 0 is the first membership. *)
Fixpoint committed_log (d : gmap string coll) (i : Z) (l : list (openraft.LogId * content)) : Prop :=
  match l with
  | [] => True
  | x :: l =>
      i < openraft.index x.1 ∧ 0 ≤ openraft.index x.1
      ∧ match x.2 with CCmd c => 0 < openraft.index x.1 ∧ committed_cmd d c | _ => True end
      ∧ committed_log (db_after d x) (openraft.index x.1) l
  end.

Definition last_index_of (i : Z) (l : list (openraft.LogId * content)) : Z :=
  foldl (λ _ x, openraft.index x.1) i l.

Lemma committed_log_app l1 l2 : ∀ d i,
  committed_log d i (l1 ++ l2) ↔ committed_log d i l1 ∧ committed_log (foldl db_after d l1) (last_index_of i l1) l2.
Proof.
  induction l1 as [|x l1 IH]; intros d i; [cbn; tauto|]. cbn [app committed_log foldl].
  rewrite IH. unfold last_index_of. cbn [foldl]. tauto.
Qed.

(** ** The state machine and its database *)

Definition membership_ok (d : dir) (m : openraft.StoredMembership) : Prop :=
  d !! MEMBERSHIP_FILE = None ∧ m = StoredMembership_default
  ∨ ∃ f, d !! MEMBERSHIP_FILE = Some f ∧ f_data f = encode_to_vec (StoredMembership_to m)
      ∧ (length (f_data f) ≤ f_synced f)%nat.

Record sm_rel (st : SmSt) (d : gmap string coll) (i : Z) (m : openraft.StoredMembership) : Prop := {
  sr_replica : replica (sm_catalog st) d i;
  sr_member : sm_membership (sm_state st) = m;
  sr_member_file : membership_ok (meta_dir st) m
}.

Lemma persist_membership_ok m st :
  ∃ d, persist_membership m st
       = (Ok tt, {| sm_catalog := sm_catalog st; meta_dir := d; sm_state := sm_state st |})
    ∧ membership_ok d m.
Proof.
  destruct (replace_ok MEMBERSHIP_TMP MEMBERSHIP_FILE (encode_to_vec (StoredMembership_to m)) (meta_dir st))
    as (d & E & Hd).
  exists d. split; [unfold persist_membership, on_meta_dir, mapE, zoom; by rewrite E|]. right. by eexists.
Qed.

Lemma on_catalog_ok {A} wrap (m : M CatSt Error A) st r c :
  m (sm_catalog st) = (Ok r, c) →
  on_catalog wrap m st = (Ok r, {| sm_catalog := c; meta_dir := meta_dir st; sm_state := sm_state st |}).
Proof. intros E. unfold on_catalog, mapE, zoom. by rewrite E. Qed.

Lemma apply_entry_ok st d i m x :
  sm_rel st d i m → committed_log d i [x] →
  ∃ r st', apply_entry (entry_of x) st = (Ok r, st') ∧ response_id r = answer x
    ∧ last_applied (sm_state st') = Some x.1
    ∧ sm_rel st' (db_after d x) (openraft.index x.1) (member_after m x).
Proof.
  intros [Hr Hm Hf] (Hi & H0' & Hc & _). destruct x as [l [|mem|c]]; cbn in *; unfold apply_entry; cbn; mpure.
  - eexists _, _. split; [done|]. split; [done|]. split; [done|]. split; [eapply replica_advance; [done|lia|intros; by eapply commit_upto_later]|done|done].
  - set (stored := {| openraft.stored_log_id := Some l; openraft.stored_membership := mem |}).
    edestruct (persist_membership_ok stored) as (d' & E & Hd'). rewrite (M_bind_Ok _ _ _ _ _ E). mpure.
    eexists _, _. split; [done|]. split; [done|]. split; [done|].
    split; [eapply replica_advance; [done|lia|intros; by eapply commit_upto_later]|done|done].
  - destruct Hc as [_ Hc]. destruct (apply_cmd_ok (sm_catalog st) d i (mark_of l) c Hr Hi H0' Hc) as (out & cst & E & Eid & Hr').
    erewrite M_bind_Ok; [|eapply on_catalog_ok; exact E].
    eexists _, _. split; [done|]. split; [done|]. split; [done|]. by split.
Qed.

Lemma apply_ok l : ∀ st d i m,
  sm_rel st d i m → committed_log d i l →
  ∃ rs st', apply (entry_of <$> l) st = (Ok rs, st') ∧ response_id <$> rs = answer <$> l
    ∧ sm_rel st' (foldl db_after d l) (last_index_of i l) (foldl member_after m l).
Proof.
  induction l as [|x l IH]; intros st d i m Hr Hl; [by exists [], st|].
  destruct Hl as (Hi & H0' & Hc & Hl).
  destruct (apply_entry_ok st d i m x Hr) as (r & st1 & E1 & Er & _ & Hr1); [by split_and!|].
  destruct (IH _ _ _ _ Hr1 Hl) as (rs & st2 & E2 & Ers & Hr2).
  exists (r :: rs), st2. split; [|split; [cbn; by rewrite Er, Ers|done]].
  cbn [fmap list_fmap apply]. rewrite (M_bind_Ok _ _ _ _ _ E1), (M_bind_Ok _ _ _ _ _ E2). done.
Qed.

Lemma apply_app es1 es2 : ∀ st rs1 st1 rs2 st2,
  apply es1 st = (Ok rs1, st1) → apply es2 st1 = (Ok rs2, st2) → apply (es1 ++ es2) st = (Ok (rs1 ++ rs2), st2).
Proof.
  induction es1 as [|e es1 IH]; intros st rs1 st1 rs2 st2 E1 E2; cbn [app apply] in *.
  { injection E1 as <- <-. done. }
  unfold mbind, M_bind in E1 |- *. destruct (apply_entry e st) as [[r|?|?] st'] eqn:E; try done.
  destruct (apply es1 st') as [[rs|?|?] st''] eqn:E'; try done. injection E1 as <- <-.
  by rewrite (IH _ _ _ _ _ E' E2).
Qed.

(** A linearizable read: commit what has been applied, then get. *)
Definition read_latest (n id : string) (mark : LogMark) : M CatSt Error (list byte) :=
  commit_collection n mark;; get_document n id.

Lemma read_latest_ok st d i n c id mark :
  replica st d i → d !! n = Some c → mark_index mark = i → id_ok id →
  ∃ st', read_latest n id mark st = (ok_or (DocumentNotFound id) (a_docs c !! id), st') ∧ replica st' d i.
Proof.
  intros Hr Hc Hmk Hid. destruct (commit_collection_ok st d i n c mark Hr Hc Hmk) as (st' & E & Hr' & Hf).
  exists st'. split; [|done]. unfold read_latest. rewrite (M_bind_Ok _ _ _ _ _ E).
  by apply (read_fully_committed st' d n c).
Qed.

(** Replicas converge: two replicas of the same database that apply the same
    committed log answer every later read of every document alike, no matter which
    of the writes each of them had already committed to its indexes. *)
Theorem replicas_converge st1 st2 d i m1 m2 l n c id mark :
  sm_rel st1 d i m1 → sm_rel st2 d i m2 → committed_log d i l → id_ok id →
  foldl db_after d l !! n = Some c → mark_index mark = last_index_of i l →
  ∃ rs1 rs2 st1' st2', apply (entry_of <$> l) st1 = (Ok rs1, st1') ∧ apply (entry_of <$> l) st2 = (Ok rs2, st2')
    ∧ (read_latest n id mark (sm_catalog st1')).1 = (read_latest n id mark (sm_catalog st2')).1
    ∧ (read_latest n id mark (sm_catalog st1')).1 = ok_or (DocumentNotFound id) (a_docs c !! id).
Proof.
  intros H1' H2' Hl Hid Hc Hmk. destruct (apply_ok l _ _ _ _ H1' Hl) as (rs1 & s1 & E1 & _ & Hr1).
  destruct (apply_ok l _ _ _ _ H2' Hl) as (rs2 & s2 & E2 & _ & Hr2).
  destruct (read_latest_ok _ _ _ n c id mark (sr_replica _ _ _ _ Hr1) Hc Hmk Hid) as (? & R1 & _).
  destruct (read_latest_ok _ _ _ n c id mark (sr_replica _ _ _ _ Hr2) Hc Hmk Hid) as (? & R2 & _).
  exists rs1, rs2, s1, s2. by rewrite R1, R2.
Qed.

Lemma applied_state_run st o :
  min_committed_mark (sm_catalog st) = (Ok o, sm_catalog st) →
  applied_state st = (Ok (match o with Some mk => Some (to_log_id mk) | None => last_applied (sm_state st) end,
                          sm_membership (sm_state st)), st).
Proof.
  intros E. assert (Ea : on_catalog ReadStateMachine min_committed_mark st = (Ok o, st)).
  { unfold on_catalog, mapE, zoom. rewrite E. by destruct st. }
  unfold applied_state, applied_log_id. rewrite M_bind_assoc, (M_bind_Ok _ _ _ _ _ Ea).
  rewrite M_bind_assoc. mpure. mpure. by mpure.
Qed.

(** The log position that [applied_state] reports is safe: it never exceeds the
    commit of any collection, so a restart that resumes after it misses no write;
    without collections the position of the last entry seen is reported. *)
Theorem applied_state_safe st d i m :
  sm_rel st d i m →
  ∃ o, applied_state st = (Ok (o, m), st)
    ∧ match o with
      | Some l => d = ∅ ∧ last_applied (sm_state st) = Some l
          ∨ (∀ n k, committed_at (sm_catalog st) n k → openraft.index l ≤ k) ∧ openraft.index l ≤ i
      | None => d = ∅ ∧ last_applied (sm_state st) = None
      end.
Proof.
  intros [Hr <- _]. destruct (min_committed_ok _ _ _ _ Hr) as (o & E & Ho). rewrite (applied_state_run st o E).
  eexists. split; [done|]. destruct o as [mk|].
  - right. destruct Ho as [Hall (n & [c Hc] & Hat)]. split; [done|]. cbn.
    pose proof (replica_lookup _ _ _ _ n Hr) as Hl. rewrite Hc in Hl.
    destruct Hl as (e & D & k & He & (Eu & _ & index & Hd & _ & Hk) & Hki & _).
    assert (Hat' : committed_at (sm_catalog st) n k) by (exists e, index; by rewrite Eu).
    rewrite (committed_at_unique _ _ _ _ Hat Hat'). done.
  - destruct (last_applied (sm_state st)) as [l|]; [by left|done].
Qed.

(** After [checkpoint_applied] at the last applied position, the state machine
    reports exactly that position as applied: nothing is replayed after a restart. *)
Theorem checkpoint_then_applied st d i m mark cst :
  sm_rel st d i m → mark_index mark = i → d ≠ ∅ →
  checkpoint_applied mark (sm_catalog st) = (Ok tt, cst) →
  ∃ l st', applied_state {| sm_catalog := cst; meta_dir := meta_dir st; sm_state := sm_state st |}
           = (Ok (Some l, m), st') ∧ openraft.index l = i.
Proof.
  intros [Hr <- Hf] Hmk Hne E. destruct (checkpoint_applied_ok _ _ _ _ mark Hr) as (cst' & E' & Hr' & _).
  rewrite E in E'. injection E' as <-. set (st' := {| sm_catalog := cst; meta_dir := _; sm_state := _ |}).
  destruct (min_committed_ok _ _ _ _ Hr') as (o & Eo & Ho).
  rewrite (applied_state_run st' o Eo). destruct o as [mk|]; [|done].
  eexists _, _. split; [done|]. cbn. destruct Ho as [_ (n & [c Hc] & Hat)].
  pose proof (replica_lookup _ _ _ _ n Hr') as Hl. rewrite Hc in Hl.
  destruct Hl as (e & D & k & He & (Eu & _ & index & Hd & _ & Hk) & _ & ->).
  rewrite <-Hmk. apply (committed_at_unique cst n); [done|]. exists e, index. by rewrite Eu.
Qed.

Lemma load_membership_crash d m dd :
  membership_ok d m → crash d dd → load_membership dd = Ok m ∧ membership_ok dd m.
Proof.
  intros [[Hn ->]|(f & Hf & Hd & Hs)] Hc.
  - pose proof (crash_lookup_None _ _ _ Hc Hn) as Hn'. split; [|by left].
    unfold load_membership, fs_read, fs_lookup, mbind, M_bind. by rewrite Hn'.
  - destruct (crash_lookup _ _ _ _ Hc Hf) as (f' & Hf' & Hcf).
    pose proof (crash_file_synced _ _ Hs Hcf) as E. destruct Hcf as (_ & _ & _ & Hsy').
    split; [|right; exists f'; split_and!; [done|congruence|lia]].
    unfold load_membership. rewrite (fs_read_ok _ _ _ Hf'). cbn [fst]. rewrite E, Hd, decode_encode.
    cbn [ok_or mbind result_bind]. by rewrite StoredMembership_inverts.
Qed.

(** A membership change that has been applied survives a crash: the state
    machine opened on what is left starts with it. *)
Theorem membership_durable st d i m cst dd :
  sm_rel st d i m → crash (meta_dir st) dd →
  ∃ st', sm_open cst dd = Ok st' ∧ sm_membership (sm_state st') = m ∧ membership_ok (meta_dir st') m.
Proof.
  intros [_ _ Hf] Hc. destruct (load_membership_crash _ _ _ Hf Hc) as [E Hok].
  unfold sm_open. rewrite E. eexists. split; [done|]. done.
Qed.
End StateMachineCorrect.

(** ** Evaluated instances *)

Module SmDemo.
#[local] Existing Instances Samples.json Samples.rfc3339 Samples.schema Samples.uuid SampleIndex.tantivy
  SampleIndex.mark_json SampleCodecs.wal_entry_codec SampleCodecs.snapshot_codec sum_crc32c
  SampleRaft.membership SampleRaft.stored_membership_codec.

Definition id (n : Z) : openraft.LogId :=
  {| openraft.log_leader := {| openraft.term := 1; openraft.leader_node := 1 |}; openraft.index := n |}.

(** A state machine on an empty catalog. *)
Definition boot (c : CatSt) (d : dir) : SmSt :=
  match sm_open c d with
  | Ok st => st
  | _ => {| sm_catalog := c; meta_dir := d;
            sm_state := {| last_applied := None; sm_membership := StoredMembership_default;
                           sm_snapshot := None |} |}
  end.
Definition fresh : SmSt := boot Demo.started ∅.

Lemma fresh_rel : sm_rel fresh ∅ 0 StoredMembership_default.
Proof.
  assert (Ec : collections (cat (sm_catalog fresh)) = ∅) by done.
  assert (Ed : col_dirs (root (sm_catalog fresh)) = ∅) by done.
  split; [|done|by left]. split.
  - split; rewrite Ec; [intros n e He; by rewrite lookup_empty in He|done].
  - intros n1 n2 c1 c2 Hc. by rewrite lookup_empty in Hc.
  - rewrite Ed. intros u [x Hx]. by rewrite lookup_empty in Hx.
Qed.

Definition create_books (mapping : Mapping) (u : @Uuid Samples.uuid) : content := CCmd (CCreate "books" u mapping).
Definition put_a : content := CCmd (CIndex "books" "a" [x07]).

(** A collection, a document, an empty entry and a membership change. *)
Definition log : list (openraft.LogId * content) :=
  [(id 1, create_books sample_mapping "u1"); (id 2, put_a); (id 3, CBlank);
   (id 4, CMember (SampleRaft.joint : @openraft.Membership SampleRaft.membership))].

Lemma log_committed : committed_log ∅ 0 log.
Proof.
  split; [done|]. split; [done|]. split.
  { split; [done|]. split; [split; [done|apply sample_mapping_ok]|]. intros u _ (n & c & Hc & _). by rewrite lookup_empty in Hc. }
  split; [done|]. split; [done|]. split.
  { split; [done|]. split; [|by intros ? ?%elem_of_nil].
    exists {| a_uuid := ("u1" : @Uuid Samples.uuid); a_mapping := sample_mapping; a_docs := ∅ |},
      (Samples.JObj [("n", Samples.JInt 7)]).
    split; [vm_compute; reflexivity|]. split; [done|]. split; [vm_compute; reflexivity|by apply id_ok_short]. }
  split; [done|]. split; [done|]. split; [done|]. by split_and!.
Qed.

Definition applied : SmSt := (apply (entry_of <$> log) fresh).2.
Definition stored : openraft.StoredMembership :=
  {| openraft.stored_log_id := Some (id 4); openraft.stored_membership := SampleRaft.joint |}.

Lemma applied_rel : sm_rel applied (foldl db_after ∅ log) 4 stored.
Proof. destruct (apply_ok log _ _ _ _ fresh_rel log_committed) as (rs & st & E & _ & Hr). unfold applied. by rewrite E. Qed.

Definition books : coll :=
  {| a_uuid := ("u1" : @Uuid Samples.uuid); a_mapping := sample_mapping; a_docs := {[ "a" := [x07] ]} |}.

Lemma replicas_converge_witness :
  ∃ rs1 rs2 st1' st2', apply (entry_of <$> log) fresh = (Ok rs1, st1') ∧ apply (entry_of <$> log) fresh = (Ok rs2, st2')
    ∧ (read_latest "books" "a" (local_mark 4) (sm_catalog st1')).1
      = (read_latest "books" "a" (local_mark 4) (sm_catalog st2')).1
    ∧ (read_latest "books" "a" (local_mark 4) (sm_catalog st1')).1 = Ok [x07].
Proof.
  apply (replicas_converge fresh fresh ∅ 0 _ _ log "books" books "a" (local_mark 4) fresh_rel fresh_rel log_committed);
    [by apply id_ok_short|vm_compute; reflexivity|done].
Defined.

Lemma applied_state_safe_witness :
  ∃ o, applied_state applied = (Ok (o, stored), applied)
    ∧ match o with
      | Some l => foldl db_after ∅ log = ∅ ∧ last_applied (sm_state applied) = Some l
          ∨ (∀ n k, committed_at (sm_catalog applied) n k → openraft.index l ≤ k) ∧ openraft.index l ≤ 4
      | None => foldl db_after ∅ log = ∅ ∧ last_applied (sm_state applied) = None
      end.
Proof. apply (applied_state_safe applied _ 4 stored applied_rel). Defined.

Lemma checkpoint_then_applied_witness :
  ∃ l st', applied_state {| sm_catalog := (checkpoint_applied (local_mark 4) (sm_catalog applied)).2;
                            meta_dir := meta_dir applied; sm_state := sm_state applied |}
           = (Ok (Some l, stored), st') ∧ openraft.index l = 4.
Proof.
  apply (checkpoint_then_applied applied _ 4 stored (local_mark 4) _ applied_rel).
  - done.
  - intros E. apply (f_equal (λ m : gmap string coll, bool_decide (is_Some (m !! "books")))) in E.
    vm_compute in E. done.
  - apply injective_projections; [vm_compute; reflexivity|reflexivity].
Defined.

Lemma membership_durable_witness :
  ∃ st', sm_open Demo.started (crash_min (meta_dir applied)) = Ok st' ∧ sm_membership (sm_state st') = stored
    ∧ membership_ok (meta_dir st') stored.
Proof. apply (membership_durable applied _ 4 stored Demo.started _ applied_rel), crash_min_crash. Defined.

(** ** Restarts that go wrong *)

(** The state machine after a crash and a restart. *)
Definition restarted (st : SmSt) : SmSt :=
  boot (Demo.opened (disk_of (sm_catalog st))) (meta_dir st).

Definition reported (st : SmSt) : option Z :=
  match (applied_state st).1 with
  | Ok (o, _) => openraft.index <$> o
  | _ => None
  end.

Definition apply_error (l : list (openraft.LogId * content)) (st : SmSt) : option StorageError :=
  match (apply (entry_of <$> l) st).1 with
  | Err e => Some e
  | _ => None
  end.

(** A collection is replaced by one of the same name with another mapping. *)
Definition replaced : list (openraft.LogId * content) :=
  [(id 1, create_books sample_mapping "u1"); (id 2, put_a); (id 3, CCmd (CDrop "books"));
   (id 4, create_books other_mapping "u2")].

(** A replica applies a log in which a collection is dropped and created anew
    under the same name with another mapping; after a restart before the next
    checkpoint it reports position 0, openraft hands it the log again, and the old
    document is applied to the new collection: the application fails on an entry
    that had been applied before. *)
Theorem restart_replays_into_new_collection :
  apply_error replaced fresh = None
  ∧ reported (restarted (apply (entry_of <$> replaced) fresh).2) = Some 0
  ∧ apply_error replaced (restarted (apply (entry_of <$> replaced) fresh).2)
    = Some (Apply (id 2) (CoreCause (type_err Text))).
Proof. vm_compute. done. Qed.

(** A checkpoint at 2, then a second collection. *)
Definition two_collections : SmSt :=
  let st := (apply (entry_of <$> take 2 log) fresh).2 in
  let st := (on_catalog WriteStateMachine (checkpoint_applied (local_mark 2)) st).2 in
  (apply (entry_of <$> [(id 3, CCmd (CCreate "films" ("u3" : @Uuid Samples.uuid) sample_mapping))]) st).2.

(** Creating a collection moves the reported log position back: it was 2 after
    the checkpoint at 2, and is 0 once a second collection exists that has never been
    committed. *)
Theorem new_collection_resets_applied :
  reported (on_catalog WriteStateMachine (checkpoint_applied (local_mark 2))
              (apply (entry_of <$> take 2 log) fresh).2).2 = Some 2
  ∧ reported two_collections = Some 0.
Proof. vm_compute. done. Qed.
End SmDemo.
