(* ===== verification/ReplicaEffect.v ===== *)
(** * Replicas: the effect of every entry

    What an entry of the log does to a replica when nothing is known of the collection it
    names: the leader checks a command when it submits it, and the collection may be gone,
    exist already, or have another mapping when the command is applied. *)

From S2P Require Import Prelude Bytes CoreError FileSys SegmentedLog LogCorrect Proto External Samples SampleCodecs.
From S2P Require Import Mapping Document IndexApi Collection SampleIndex CollectionSpec WalInterface Wal Catalog.
From S2P Require Import CatalogSpec CatalogRel CatalogCommit CatalogOpen CatalogHistory CatalogCorrect.
From S2P Require Import CatalogSnapshots Conversions LogStore SampleRaft StateMachine ReplicaSpec StateMachineCorrect.

Open Scope Z_scope.

Section ReplicaEffect.
Context `{Json} `{Rfc3339} `{TantivySchema} `{!TantivyIndex} `{!MarkJson} `{UuidApi}.
Context `{WriteAheadLog} `{!Codec v1.CatalogSnapshot}.
Context `{openraft.MembershipApi} `{!Codec raft.StoredMembership}.

(** What a command has of its own when it reaches the log: the mapping of a create was
    validated and its uuid is new, the id of a document fits in a term. *)
Definition submitted (d : gmap string coll) (c : cmd) : Prop :=
  match c with
  | CCreate n u m => mapping_valid m ∧ (d !! n = None → ¬ live d u)
  | CDrop _ => True
  | CIndex _ id _ | CDelete _ id => id_ok id
  end.

(** The database after a command and the id it is answered with, or [None] when applying
    it fails. *)
Definition effect (d : gmap string coll) (c : cmd) : option (gmap string coll * string) :=
  match c with
  | CCreate n u m =>
      match d !! n with
      | Some _ => Some (d, "")
      | None => if decide (accepted (to_schema m)) then Some (step d c, "") else None
      end
  | CDrop n => Some (delete n d, "")
  | CIndex n id src =>
      match d !! n with
      | None => Some (d, "")
      | Some cl =>
          v ← from_slice src;
          if decide (buildable (a_mapping cl) v) then Some (step d c, id) else None
      end
  | CDelete n id =>
      match d !! n with
      | None => Some (d, "")
      | Some _ => Some (step d c, id)
      end
  end.

Definition entry_effect (d : gmap string coll) (x : openraft.LogId * content) : option (gmap string coll * string) :=
  match x.2 with
  | CCmd c => effect d c
  | _ => Some (d, "")
  end.

Fixpoint log_effect (d : gmap string coll) (l : list (openraft.LogId * content)) :
    option (gmap string coll * list string) :=
  match l with
  | [] => Some (d, [])
  | x :: l =>
      '(d1, id) ← entry_effect d x;
      '(d2, ids) ← log_effect d1 l;
      Some (d2, id :: ids)
  end.

(** Entries with increasing indexes above [i], of submitted commands.  Entry 0 is the first
    membership. *)
Fixpoint submitted_log (d : gmap string coll) (i : Z) (l : list (openraft.LogId * content)) : Prop :=
  match l with
  | [] => True
  | x :: l =>
      i < openraft.index x.1 ∧ 0 ≤ openraft.index x.1
      ∧ match x.2 with CCmd c => 0 < openraft.index x.1 ∧ submitted d c | _ => True end
      ∧ match entry_effect d x with Some (d', _) => submitted_log d' (openraft.index x.1) l | None => True end
  end.

Lemma log_effect_app l1 l2 : ∀ d,
  log_effect d (l1 ++ l2)
  = ('(d1, ids1) ← log_effect d l1; '(d2, ids2) ← log_effect d1 l2; Some (d2, ids1 ++ ids2)).
Proof.
  induction l1 as [|x l1 IH]; intros d; cbn; [by destruct (log_effect d l2) as [[? ?]|]|].
  destruct (entry_effect d x) as [[d1 id]|]; [|done]. cbn. rewrite IH.
  destruct (log_effect d1 l1) as [[d2 ids]|]; [|done]. cbn. by destruct (log_effect d2 l2) as [[? ?]|].
Qed.

Lemma log_effect_length l : ∀ d d' ids, log_effect d l = Some (d', ids) → length ids = length l.
Proof.
  induction l as [|x l IH]; cbn; intros d d' ids E; [by injection E as _ <-|].
  destruct (entry_effect d x) as [[d1 id]|]; [|done]. cbn in E. destruct (log_effect d1 l) as [[d2 ids2]|] eqn:E2; [|done].
  injection E as _ <-. cbn. by rewrite (IH _ _ _ E2).
Qed.

Lemma submitted_log_app l1 l2 : ∀ d i d1 ids,
  submitted_log d i (l1 ++ l2) → log_effect d l1 = Some (d1, ids) → submitted_log d1 (last_index_of i l1) l2.
Proof.
  induction l1 as [|x l1 IH]; cbn; intros d i d1 ids Hl E; [by injection E as <- _|]. destruct Hl as (_ & _ & _ & Hl).
  destruct (entry_effect d x) as [[d2 id]|]; [|done]. cbn in E. destruct (log_effect d2 l1) as [[d3 ids3]|] eqn:E3; [|done].
  injection E as <- _. by eapply IH.
Qed.

Lemma submitted_log_prefix l1 l2 : ∀ d i, submitted_log d i (l1 ++ l2) → submitted_log d i l1.
Proof.
  induction l1 as [|x l1 IH]; cbn; intros d i Hl; [done|]. destruct Hl as (? & ? & ? & Hl). do 3 (split; [done|]).
  destruct (entry_effect d x) as [[d2 id]|]; [|done]. by eapply IH.
Qed.

(** A command that is valid where it stands takes effect. *)
Lemma committed_effect d c :
  (∀ n cl, d !! n = Some cl → mapping_valid (a_mapping cl)) → committed_cmd d c →
  submitted d c ∧ effect d c = Some (step d c, reply_id c).
Proof.
  intros Hm [Hc Hu]. destruct c as [n u m|n|n id src|n id]; cbn in *.
  - destruct Hc as [-> [Hv Ha]]. rewrite decide_True by done. split; [|done]. split; [done|]. intros _. apply Hu. left.
  - done.
  - destruct Hc as (cl & v & Hn & Ev & Hval & Hid). rewrite Hn, Ev. cbn. split; [done|].
    rewrite decide_True; [done|]. apply validated_buildable; [by eapply Hm|done].
  - destruct Hc as [[cl ->] Hid]. done.
Qed.

(** ** One entry *)

Section command.
Context (st : CatSt) (d : gmap string coll) (i : Z) (mark : LogMark).
Hypothesis Hr : replica st d i.
Hypothesis Hlt : i < mark_index mark.
Hypothesis H0' : 0 ≤ mark_index mark.

Lemma replica_later : replica st d (mark_index mark).
Proof. eapply replica_advance; [exact Hr|lia|]. intros n c D k _. by apply commit_upto_later. Qed.

Lemma replica_mapping n c : d !! n = Some c → mapping_ok (a_mapping c).
Proof.
  intros Hc. pose proof (replica_lookup _ _ _ _ n Hr) as Hl. rewrite Hc in Hl.
  destruct Hl as (e & D & k & _ & (_ & _ & index & _ & Hrep & _) & _). apply (cr_valid _ _ _ _ Hrep).
Qed.

Lemma commits_le n c D k : commit_upto i n c D k → k ≤ i.
Proof. by intros [? _]. Qed.

Lemma commits_advance c : advances d c (commit_upto i) (commit_upto (mark_index mark)).
Proof. intros n cl cl' D k _ _. by apply commit_upto_later. Qed.

(** A command on a collection that is not there. *)
Lemma apply_missing n : d !! n = None → lookup_entry n st = (Ok None, st).
Proof. intros Hn. rewrite lookup_entry_ok. pose proof (replica_lookup _ _ _ _ n Hr) as Hl. rewrite Hn in Hl. by rewrite Hl. Qed.

Lemma apply_existing n c : d !! n = Some c → ∃ e, lookup_entry n st = (Ok (Some e), st) ∧ collections (cat st) !! n = Some e.
Proof.
  intros Hn. rewrite lookup_entry_ok. pose proof (replica_lookup _ _ _ _ n Hr) as Hl. rewrite Hn in Hl.
  destruct Hl as (e & _ & _ & He & _). exists e. by rewrite He.
Qed.

Lemma create_existing n u m c :
  d !! n = Some c → mapping_valid m →
  apply_command mark (command (op_of (CCreate n u m))) st = (Ok ApplyOutcome_default, st).
Proof.
  intros Hn Hv. destruct (apply_existing n c Hn) as (e & He & _). cbn. unfold apply_create. cbn [v1.create_mapping v1.create_collection].
  erewrite M_bind_Ok; [reflexivity|]. mpure. rewrite Mapping_proto_roundtrip by done. mpure.
  by rewrite (M_bind_Ok _ _ _ _ _ He).
Qed.

Lemma create_unbuilt n u m :
  d !! n = None → ¬ live d u → mapping_valid m → ¬ accepted (to_schema m) →
  is_ok (apply_command mark (command (op_of (CCreate n u m))) st).1 = false.
Proof.
  intros Hn Hu Hv Ha. assert (Hdir : ¬ is_Some (col_dirs (root st) !! u)) by (by intros ?%(rp_dirs _ _ _ _ Hr)).
  cbn. unfold apply_create. cbn [v1.create_mapping v1.create_collection v1.create_uuid].
  rewrite M_bind_assoc. mpure. rewrite Mapping_proto_roundtrip by done. rewrite M_bind_assoc. mpure.
  rewrite M_bind_assoc, (M_bind_Ok _ _ _ _ _ (apply_missing n Hn)), uuid_parse_to_string. rewrite M_bind_assoc. mpure.
  rewrite M_bind_assoc. unfold install_collection. rewrite M_bind_assoc. mpure. rewrite decide_False by done.
  unfold collection_create. rewrite !M_bind_assoc. mpure. rewrite decide_False by done. rewrite !M_bind_assoc. mpure.
  rewrite !M_bind_assoc. mpure. rewrite !M_bind_assoc. unfold build_schema. by rewrite decide_False.
Qed.

(** Applying [c] does what [effect d c] says. *)
Definition does_effect (c : cmd) : Prop :=
  match effect d c with
  | Some (d', id) => ∃ out st', apply_command mark (command (op_of c)) st = (Ok out, st')
      ∧ outcome_id out = id ∧ replica st' d' (mark_index mark)
  | None => is_ok (apply_command mark (command (op_of c)) st).1 = false
  end.

Lemma unchanged_effect c id :
  effect d c = Some (d, id) →
  (∃ out, apply_command mark (command (op_of c)) st = (Ok out, st) ∧ outcome_id out = id) → does_effect c.
Proof. intros E (out & Ea & Eid). unfold does_effect. rewrite E. exists out, st. split_and!; [done|done|apply replica_later]. Qed.

Lemma create_effect n u m : submitted d (CCreate n u m) → does_effect (CCreate n u m).
Proof.
  intros [Hv Hu]. destruct (d !! n) as [c|] eqn:Hn.
  - eapply unchanged_effect; [cbn; by rewrite Hn|]. exists ApplyOutcome_default. split; [by eapply create_existing|done].
  - specialize (Hu eq_refl). unfold does_effect. cbn [effect]. rewrite Hn. case_decide as Ha; [|by apply create_unbuilt].
    destruct (apply_create_ok _ (commit_upto (mark_index mark)) st d i mark Hr Hlt n u m H0') as (st' & E & Hr' & _);
      [by split|by apply commits_advance|done|split; [done|done]|]. by eexists _, st'.
Qed.

Lemma drop_effect n : does_effect (CDrop n).
Proof.
  destruct (d !! n) as [c|] eqn:Hn.
  - destruct (apply_drop_ok _ (commit_upto (mark_index mark)) st d i mark Hr Hlt n) as (st' & E & Hr' & _);
      [by exists c|by apply commits_advance|]. by eexists _, st'.
  - eapply unchanged_effect; [cbn; rewrite delete_id by done; reflexivity|]. exists ApplyOutcome_default. split; [|done]. cbn. unfold apply_drop.
    rewrite M_bind_assoc, (M_bind_Ok _ _ _ _ _ (apply_missing n Hn)). rewrite M_bind_assoc. mpure.
    pose proof (replica_lookup _ _ _ _ n Hr) as Hl. rewrite Hn in Hl. destruct st as [[? ? ?] ?]. cbn in *. by rewrite delete_id.
Qed.

Lemma index_effect n id src : id_ok id → does_effect (CIndex n id src).
Proof.
  intros Hid. destruct (d !! n) as [cl|] eqn:Hn.
  2: { eapply unchanged_effect; [cbn; by rewrite Hn|]. exists ApplyOutcome_default. split; [|done]. cbn. unfold apply_index.
       by rewrite (M_bind_Ok _ _ _ _ _ (apply_missing n Hn)). }
  unfold does_effect. cbn [effect]. rewrite Hn.
  assert (Hb : ∀ v, from_slice src = Some v → buildable (a_mapping cl) v → index_builds d n id src)
    by (intros v Ev Hv; by exists cl, v).
  destruct (from_slice src) as [v|] eqn:Ev; cbn; [case_decide as Hv|].
  - destruct (apply_index_ok _ (commit_upto (mark_index mark)) st d i mark Hr (commits_le) Hlt n id src) as (b & st' & E & Hr' & _);
      [by eapply Hb|by apply commits_advance|]. by eexists _, st'.
  - destruct (apply_existing n cl Hn) as (e & He & Hcol). unfold apply_index. cbn [v1.index_collection v1.index_source v1.index_id].
    rewrite (M_bind_Ok _ _ _ _ _ He). destruct (replica_committed _ _ _ _ _ _ Hr Hn) as (D & k & Ek & [Hk _]).
    rewrite (M_bind_Ok _ _ _ _ _ Ek), decide_False, Ev by lia. mpure.
    pose proof (replica_lookup _ _ _ _ n Hr) as Hl. rewrite Hn in Hl.
    destruct Hl as (e' & D' & k' & He' & (Eu & _ & index & Hd & Hrep & _) & _). rewrite Hcol in He'. injection He' as <-.
    destruct (upsert_unbuilt _ _ _ _ id src v Hrep Hv) as [Hf _]. unfold mbind, M_bind.
    destruct (apply_upsert id src v _) as [r s'] eqn:Er. cbn in Hf.
    rewrite (on_col_ok st n e index (apply_upsert id src v) r s') by (done || by rewrite Eu). by destruct r.
  - destruct (apply_existing n cl Hn) as (e & He & _). unfold apply_index. cbn [v1.index_collection v1.index_source].
    rewrite (M_bind_Ok _ _ _ _ _ He). destruct (replica_committed _ _ _ _ _ _ Hr Hn) as (D & k & Ek & [Hk _]).
    by rewrite (M_bind_Ok _ _ _ _ _ Ek), decide_False, Ev by lia.
Qed.

Lemma delete_effect n id : id_ok id → does_effect (CDelete n id).
Proof.
  intros Hid. destruct (d !! n) as [cl|] eqn:Hn.
  - unfold does_effect. cbn [effect]. rewrite Hn.
    destruct (apply_delete_ok _ (commit_upto (mark_index mark)) st d i mark Hr (commits_le) Hlt n id) as (st' & E & Hr' & _);
      [split; [by exists cl|done]|by apply commits_advance|]. by eexists _, st'.
  - eapply unchanged_effect; [cbn; by rewrite Hn|]. exists ApplyOutcome_default. split; [|done]. cbn. unfold apply_delete_doc.
    by rewrite (M_bind_Ok _ _ _ _ _ (apply_missing n Hn)).
Qed.

Lemma apply_command_effect c : submitted d c → does_effect c.
Proof.
  intros Hc. destruct c; cbn in Hc; [by apply create_effect|apply drop_effect|by apply index_effect|by apply delete_effect].
Qed.
End command.

Lemma on_catalog_fails {A B} wrap (mc : M CatSt Error A) (f : A → M SmSt StorageError B) st :
  is_ok (mc (sm_catalog st)).1 = false → is_ok ((a ← on_catalog wrap mc; f a) st).1 = false.
Proof. unfold on_catalog, mapE, zoom, mbind, M_bind. by destruct (mc (sm_catalog st)) as [[]]. Qed.

Lemma apply_entry_effect st d i m x :
  sm_rel st d i m → submitted_log d i [x] →
  match entry_effect d x with
  | Some (d', id) => ∃ r st', apply_entry (entry_of x) st = (Ok r, st') ∧ response_id r = id
      ∧ sm_rel st' d' (openraft.index x.1) (member_after m x)
  | None => is_ok (apply_entry (entry_of x) st).1 = false
  end.
Proof.
  intros Hr (Hi & H0' & Hc & _). destruct x as [l y]. destruct y as [|mem|c]; cbn [entry_effect snd fst] in *.
  1, 2: match goal with |- context [entry_of ?x] =>
          destruct (apply_entry_ok st d i m x Hr) as (r & st' & E & Er & _ & Hr'); [by split_and!|]; by exists r, st' end.
  destruct Hr as [Hr Hm Hf], Hc as [_ Hc]. unfold apply_entry. cbn. mpure.
  pose proof (apply_command_effect (sm_catalog st) d i (mark_of l) Hr Hi H0' c Hc) as He. unfold does_effect in He.
  destruct (effect d c) as [[d' id]|].
  - destruct He as (out & cst & E & Eid & Hr'). erewrite M_bind_Ok; [|eapply on_catalog_ok; exact E].
    eexists _, _. split; [done|]. split; [done|]. by split.
  - by apply on_catalog_fails.
Qed.

Lemma apply_log_effect l : ∀ st d i m,
  sm_rel st d i m → submitted_log d i l →
  match log_effect d l with
  | Some (d', ids) => ∃ rs st', apply (entry_of <$> l) st = (Ok rs, st') ∧ response_id <$> rs = ids
      ∧ sm_rel st' d' (last_index_of i l) (foldl member_after m l)
  | None => is_ok (apply (entry_of <$> l) st).1 = false
  end.
Proof.
  induction l as [|x l IH]; intros st d i m Hr Hl; [by exists [], st|].
  destruct Hl as (Hi & H0' & Hc & Hl). pose proof (apply_entry_effect st d i m x Hr) as He.
  cbn. destruct (entry_effect d x) as [[d1 id]|] eqn:Ex; cbn.
  - destruct He as (r & st1 & E1 & Er & Hr1); [cbn; by rewrite Ex|]. specialize (IH st1 d1 _ _ Hr1 Hl).
    rewrite (M_bind_Ok _ _ _ _ _ E1). destruct (log_effect d1 l) as [[d2 ids]|]; cbn.
    + destruct IH as (rs & st2 & E2 & Ers & Hr2). exists (r :: rs), st2. rewrite (M_bind_Ok _ _ _ _ _ E2).
      split; [done|]. split; [cbn; by rewrite Er, Ers|done].
    + unfold mbind, M_bind. by destruct (apply (entry_of <$> l) st1) as [[]].
  - unfold mbind, M_bind. cbn in He. rewrite Ex in He. specialize (He ltac:(by split_and!)). by destruct (apply_entry (entry_of x) st) as [[]].
Qed.

(** C11: Applying any log of submitted commands to a replica does what [log_effect] says,
    whether or not the commands still fit the database they are applied to: each entry
    changes the database and is answered with the id as effect prescribes (a create of an
    existing collection and a command on a missing one change nothing), and the
    application fails exactly when some entry has no effect: a create whose schema Tantivy
    refuses, or an index of a document that is not JSON or cannot be built under the
    mapping that the collection then has. A submitted create has a validated mapping and a
    new uuid; document ids fit in a term; the indexes increase. *)
Theorem apply_refines st d i m l :
  sm_rel st d i m → submitted_log d i l →
  match log_effect d l with
  | Some (d', ids) => ∃ rs st', apply (entry_of <$> l) st = (Ok rs, st') ∧ response_id <$> rs = ids
      ∧ sm_rel st' d' (last_index_of i l) (foldl member_after m l)
  | None => is_ok (apply (entry_of <$> l) st).1 = false
  end.
Proof. apply apply_log_effect. Qed.
End ReplicaEffect.

(** ** A log whose commands no longer fit *)

Module EffectDemo.
Import SmDemo.
#[local] Existing Instances Samples.json Samples.rfc3339 Samples.schema Samples.uuid SampleIndex.tantivy
  SampleIndex.mark_json SampleCodecs.wal_entry_codec SampleCodecs.snapshot_codec sum_crc32c
  SampleRaft.membership SampleRaft.stored_membership_codec.

(** Two clients create the collection; a third drops it while a fourth writes to it. *)
Definition busy : list (openraft.LogId * content) :=
  [(id 1, create_books sample_mapping "u1"); (id 2, create_books other_mapping "u2"); (id 3, put_a);
   (id 4, CCmd (CDrop "books")); (id 5, put_a); (id 6, CCmd (CDrop "books")); (id 7, CCmd (CDelete "books" "a"))].

Ltac next := split; [done|]; split; [done|]; split; [split; [done|]|vm_compute entry_effect; cbv beta iota].

Lemma busy_submitted : submitted_log ∅ 0 busy.
Proof.
  assert (Hid : id_ok "a") by (by apply id_ok_short).
  assert (Hnew : ∀ u, ¬ live (∅ : gmap string coll) u)
    by (intros u (n & c & Hc & _); by rewrite lookup_empty in Hc).
  next; [split; [apply sample_mapping_ok|intros _; apply Hnew]|].
  next; [split; [apply other_mapping_ok|intros E; vm_compute in E; done]|].
  do 5 (next; [done|]). done.
Qed.

Lemma apply_refines_witness :
  submitted_log ∅ 0 busy
  ∧ ∃ d' rs st', apply (entry_of <$> busy) fresh = (Ok rs, st') ∧ response_id <$> rs = [""; ""; "a"; ""; ""; ""; ""]
    ∧ sm_rel st' d' 7 StoredMembership_default.
Proof.
  split; [apply busy_submitted|]. pose proof (apply_refines fresh ∅ 0 StoredMembership_default busy fresh_rel busy_submitted) as He.
  assert (El : snd <$> log_effect ∅ busy = Some [""; ""; "a"; ""; ""; ""; ""]) by (vm_compute; reflexivity).
  destruct (log_effect ∅ busy) as [[d' ids]|]; [|done]. injection El as ->. destruct He as (rs & st' & E & Ers & Hr). exists d', rs, st'.
  split; [exact E|]. split; [exact Ers|exact Hr].
Defined.

(** The document of the first mapping under the second one. *)
Definition raced : list (openraft.LogId * content) :=
  [(id 1, create_books sample_mapping "u1"); (id 2, CCmd (CDrop "books")); (id 3, create_books other_mapping "u2"); (id 4, put_a)].

Example raced_no_effect : log_effect ∅ raced = None ∧ is_ok (apply (entry_of <$> raced) fresh).1 = false.
Proof. vm_compute. done. Qed.
End EffectDemo.
