(* ===== verification/ReplicaLog.v ===== *)
(** * Replicas: positions in a committed log

    After a restart a replica is handed the entries after its reported position
    again, on top of indexes that already hold some of their effects.  This file has
    the facts about committed logs that make the replay correct: what the entries
    after a position touch, and what they leave as it is. *)

From S2P Require Import Prelude Bytes CoreError FileSys Proto External Mapping Document IndexApi Collection.
From S2P Require Import CollectionSpec WalInterface Catalog CatalogSpec CatalogOps Conversions ReplicaSpec StateMachine.
From S2P Require Import StateMachineCorrect.

Open Scope Z_scope.

Section ReplicaLog.
Context `{Json} `{Rfc3339} `{TantivySchema} `{!TantivyIndex} `{!MarkJson} `{UuidApi}.
Context `{WriteAheadLog} `{!Codec v1.CatalogSnapshot}.
Context `{openraft.MembershipApi} `{!Codec raft.StoredMembership}.

Abbreviation item := (openraft.LogId * content)%type.

(** The database, the last index and the membership after a log. *)
Definition db_of (l : list item) : gmap string coll := foldl db_after ∅ l.
Definition last_of (l : list item) : Z := last_index_of (-1) l.
Definition members_of (l : list item) : openraft.StoredMembership := foldl member_after StoredMembership_default l.

(** The entries after index [k]. *)
Definition after (k : Z) (l : list item) : list item := filter (λ x, k < openraft.index x.1) l.

(** The document of collection [n] that an entry writes or deletes. *)
Definition touches (n : string) (x : item) : option string :=
  match x.2 with
  | CCmd (CIndex n' id _) | CCmd (CDelete n' id) => if decide (n' = n) then Some id else None
  | _ => None
  end.

Definition is_drop (x : item) : Prop := match x.2 with CCmd (CDrop _) => True | _ => False end.
Definition is_member (x : item) : Prop := match x.2 with CMember _ => True | _ => False end.
Definition no_drops (l : list item) : Prop := Forall (λ x, ¬ is_drop x) l.
Definition no_members (l : list item) : Prop := Forall (λ x, ¬ is_member x) l.

(** A version of the log that has every entry up to index [k]. *)
Definition version (l : list item) (k : Z) (p : list item) : Prop :=
  ∃ r, l = p ++ r ∧ Forall (λ x, k < openraft.index x.1) r.

(** Each document of [D] is as some version from [k] on has it. *)
Definition covers (l : list item) (n : string) (k : Z) (D : docs_map) : Prop :=
  ∀ id, ∃ p c, version l k p ∧ db_of p !! n = Some c ∧ D !! id = a_docs c !! id.

(** ** Indexes increase *)

Lemma committed_log_above l : ∀ d i, committed_log d i l → Forall (λ x, i < openraft.index x.1) l.
Proof.
  induction l as [|x l IH]; intros d i Hl; [done|]. destruct Hl as (Hi & _ & _ & Hl).
  constructor; [done|]. eapply Forall_impl; [by eapply IH|]. cbn. lia.
Qed.

Lemma committed_log_below l : ∀ d i,
  committed_log d i l → i ≤ last_index_of i l ∧ Forall (λ x, openraft.index x.1 ≤ last_index_of i l) l.
Proof.
  induction l as [|x l IH]; intros d i Hl; [done|]. destruct Hl as (Hi & _ & _ & Hl).
  destruct (IH _ _ Hl) as [Hx Hf]. unfold last_index_of in *. cbn [foldl]. split; [lia|]. by constructor.
Qed.

Lemma last_of_app l x : last_of (l ++ [x]) = openraft.index x.1.
Proof. unfold last_of, last_index_of. by rewrite foldl_app. Qed.
Lemma db_of_app l r : db_of (l ++ r) = foldl db_after (db_of l) r.
Proof. apply foldl_app. Qed.
Lemma members_of_app l r : members_of (l ++ r) = foldl member_after (members_of l) r.
Proof. apply foldl_app. Qed.

Lemma committed_split l r :
  committed_log ∅ (-1) (l ++ r) ↔ committed_log ∅ (-1) l ∧ committed_log (db_of l) (last_of l) r.
Proof. apply committed_log_app. Qed.

Lemma after_all k l : Forall (λ x, k < openraft.index x.1) l → after k l = l.
Proof. intros Hl. apply list_filter_all. by apply Forall_forall. Qed.
Lemma after_none k l : Forall (λ x, openraft.index x.1 ≤ k) l → after k l = [].
Proof. intros Hl. apply list_filter_none. intros x Hx. rewrite Forall_forall in Hl. specialize (Hl x Hx). cbn in *. lia. Qed.
Lemma after_app k l r : after k (l ++ r) = after k l ++ after k r.
Proof. apply filter_app. Qed.

Lemma after_last l k : committed_log ∅ (-1) l → last_of l ≤ k → after k l = [].
Proof.
  intros Hl Hk. apply after_none. eapply Forall_impl; [by eapply committed_log_below|]. cbn.
  unfold last_of in Hk. lia.
Qed.

Lemma after_split l k : ∀ d i, committed_log d i l → ∃ q, l = q ++ after k l ∧ Forall (λ x, openraft.index x.1 ≤ k) q.
Proof.
  induction l as [|x l IH]; intros d i Hl; [by exists []|]. destruct Hl as (Hi & _ & _ & Hl).
  destruct (decide (k < openraft.index x.1)) as [Hk|Hk].
  - exists []. split; [|done]. symmetry. apply after_all. constructor; [done|].
    eapply Forall_impl; [by eapply committed_log_above|]. cbn. lia.
  - destruct (IH _ _ Hl) as (q & E & Hq). exists (x :: q). unfold after. rewrite filter_cons_False by (cbn; lia).
    split; [cbn; by f_equal|]. constructor; [lia|done].
Qed.

(** The next entry after position [j]. *)
Lemma after_next l j x r :
  committed_log ∅ (-1) l → after j l = x :: r →
  ∃ q, l = q ++ x :: r ∧ j < openraft.index x.1 ∧ committed_log (db_of q) (last_of q) (x :: r)
    ∧ (∀ k, j ≤ k < openraft.index x.1 → after k l = x :: r) ∧ after (openraft.index x.1) l = r.
Proof.
  intros Hl E. destruct (after_split l j _ _ Hl) as (q & Eq & Hq). rewrite E in Eq. exists q.
  assert (Hj : j < openraft.index x.1).
  { assert (Hx : x ∈ after j l) by (rewrite E; left). by apply list_elem_of_filter in Hx as [? _]. }
  pose proof Hl as Hc. rewrite Eq in Hc. apply committed_log_app in Hc as [_ Hc].
  pose proof (committed_log_above _ _ _ (proj2 (proj2 (proj2 Hc)))) as Hr.
  split; [done|]. split; [done|]. split; [done|]. split.
  - intros k Hk. rewrite Eq, after_app, (after_none k q), after_all; [done|..].
    + constructor; [lia|]. eapply Forall_impl; [exact Hr|]. cbn. lia.
    + eapply Forall_impl; [exact Hq|]. cbn. lia.
  - rewrite Eq, after_app, after_none, (app_nil_l (after _ _)); [|eapply Forall_impl; [exact Hq|]; cbn; lia].
    unfold after. rewrite filter_cons_False by (cbn; lia). by apply after_all.
Qed.

Lemma Forall_after P k k' l : k ≤ k' → Forall P (after k l) → Forall P (after k' l).
Proof.
  intros Hk Hl. apply Forall_forall. intros x [Hx Hin]%list_elem_of_filter. rewrite Forall_forall in Hl.
  apply Hl, list_elem_of_filter. split; [lia|done].
Qed.

(** No entry is left after the last. *)
Lemma after_nil l j : committed_log ∅ (-1) l → -1 ≤ j ≤ last_of l → after j l = [] → j = last_of l.
Proof.
  intros Hl Hj Ha. destruct l as [|x l _] using rev_ind; [unfold last_of, last_index_of in *; cbn in *; lia|].
  rewrite last_of_app in *. destruct (decide (j < openraft.index x.1)) as [Hx|]; [|lia].
  rewrite after_app in Ha. apply app_nil in Ha as [_ Ha]. unfold after in Ha. by rewrite filter_cons_True in Ha.
Qed.

(** ** Versions *)

Lemma version_mono l k k' p : k ≤ k' → version l k' p → version l k p.
Proof. intros Hk (r & El & Hr). exists r. split; [done|]. eapply Forall_impl; [exact Hr|]. cbn. lia. Qed.

Lemma version_all l k : version l k l.
Proof. exists []. by rewrite app_nil_r. Qed.

Lemma version_app l x k p : k < openraft.index x.1 → version l k p → version (l ++ [x]) k p.
Proof.
  intros Hk (r & -> & Hr). exists (r ++ [x]). rewrite app_assoc. split; [done|]. apply Forall_app. by split; [|constructor].
Qed.

Lemma version_last l k p : committed_log ∅ (-1) l → last_of l ≤ k → version l k p → p = l.
Proof.
  intros Hl Hk (r & E & Hr). destruct r as [|x r _] using rev_ind; [by rewrite app_nil_r in E|].
  rewrite E, app_assoc, last_of_app in Hk. apply Forall_app in Hr as [_ Hx]. inversion Hx. lia.
Qed.

(** The versions from [k] on, when [x] is the next entry. *)
Lemma version_next q x r k p :
  after k (q ++ x :: r) = x :: r → after (openraft.index x.1) (q ++ x :: r) = r → version (q ++ x :: r) k p →
  version (q ++ x :: r) (openraft.index x.1) p ∨ p = q.
Proof.
  intros Ek Er (r' & El & Hr'). assert (Hr : Forall (λ y, openraft.index x.1 < openraft.index y.1) r).
  { rewrite <-Er. apply Forall_forall. by intros y [? _]%list_elem_of_filter. }
  pose proof Ek as E. rewrite El, after_app, (after_all k r') in E by done.
  destruct (after k p) as [|y a] eqn:Ea.
  - right. cbn in E. subst r'. by apply app_inv_tail in El.
  - left. injection E as -> E. exists r'. split; [done|]. rewrite <-E in Hr. by apply Forall_app in Hr as [_ ?].
Qed.

Lemma version_one q x r :
  after (openraft.index x.1) (q ++ x :: r) = r → version (q ++ x :: r) (openraft.index x.1) (q ++ [x]).
Proof.
  intros Er. exists r. rewrite <-app_assoc. split; [done|]. rewrite <-Er. apply Forall_forall.
  by intros y [? _]%list_elem_of_filter.
Qed.

Lemma covers_mono l n k k' D : k ≤ k' → covers l n k' D → covers l n k D.
Proof. intros Hk Hc id. destruct (Hc id) as (p & c & Hp & ?). exists p, c. split; [by eapply version_mono|done]. Qed.

Lemma covers_all l n k c : db_of l !! n = Some c → covers l n k (a_docs c).
Proof. intros Hc id. exists l, c. split; [apply version_all|done]. Qed.

Lemma covers_last l n k D c :
  committed_log ∅ (-1) l → last_of l ≤ k → db_of l !! n = Some c → covers l n k D → D = a_docs c.
Proof.
  intros Hl Hk Hn Hc. apply map_eq. intros id. destruct (Hc id) as (p & c' & Hp & Hc' & ->).
  apply version_last in Hp; [|done..]. congruence.
Qed.

Lemma covers_app l x n k D : k < openraft.index x.1 → covers l n k D → covers (l ++ [x]) n k D.
Proof. intros Hk Hc id. destruct (Hc id) as (p & c & Hp & ?). exists p, c. split; [by apply version_app|done]. Qed.

(** ** What an entry leaves alone *)

Lemma entry_stable d i x n c c' :
  committed_log d i [x] → d !! n = Some c → db_after d x !! n = Some c' →
  a_uuid c' = a_uuid c ∧ a_mapping c' = a_mapping c
  ∧ ∀ id, touches n x ≠ Some id → a_docs c' !! id = a_docs c !! id.
Proof.
  intros (_ & _ & Hc & _) Hd Hd'. destruct x as [lid [|m|[n' u m|n'|n' id' src|n' id']]];
    unfold db_after, touches in *; cbn in *; try (by simplify_eq).
  - destruct Hc as (_ & [Hn _] & _). rewrite lookup_insert_ne in Hd' by congruence. by simplify_eq.
  - apply lookup_delete_Some in Hd' as [_ ?]. by simplify_eq.
  - destruct (decide (n' = n)) as [->|]; [rewrite lookup_alter_eq, Hd in Hd'|rewrite lookup_alter_ne in Hd' by done];
      simplify_eq/=; [|done]. split_and!; [done..|]. intros id Hid. rewrite lookup_insert_ne; congruence.
  - destruct (decide (n' = n)) as [->|]; [rewrite lookup_alter_eq, Hd in Hd'|rewrite lookup_alter_ne in Hd' by done];
      simplify_eq/=; [|done]. split_and!; [done..|]. intros id Hid. rewrite lookup_delete_ne; congruence.
Qed.

Lemma entry_keeps d i x n c :
  committed_log d i [x] → ¬ is_drop x → d !! n = Some c → is_Some (db_after d x !! n).
Proof.
  intros (_ & _ & Hc & _) Hx Hd. destruct x as [lid [|m|cm]]; unfold db_after; cbn in *; [by eauto..|].
  destruct (step_keeps d cm n c) as (c' & ? & _); [apply (proj2 Hc)|done| |by eauto].
  destruct cm; cbn in *; [apply not_elem_of_nil|done|apply not_elem_of_nil..].
Qed.

(** A collection stays while nothing is dropped. *)
Lemma log_stable r n : ∀ d i c,
  committed_log d i r → no_drops r → d !! n = Some c →
  ∃ c', foldl db_after d r !! n = Some c' ∧ a_uuid c' = a_uuid c ∧ a_mapping c' = a_mapping c.
Proof.
  induction r as [|x r IH]; intros d i c Hl Hr Hd; [by exists c|].
  apply (committed_log_app [x] r) in Hl as [Hx Hl]. apply Forall_cons in Hr as [Hnd Hr].
  destruct (entry_keeps _ _ _ _ _ Hx Hnd Hd) as [c1 Hd1].
  destruct (entry_stable _ _ _ _ _ _ Hx Hd Hd1) as (Eu1 & Em1 & _).
  destruct (IH _ _ _ Hl Hr Hd1) as (c' & ? & Eu & Em). exists c'. split_and!; [done|congruence..].
Qed.

(** The value an entry gives to a document. *)
Definition writes (x : item) : option (string * string * option (list byte)) :=
  match x.2 with
  | CCmd (CIndex n id src) => Some (n, id, Some src)
  | CCmd (CDelete n id) => Some (n, id, None)
  | _ => None
  end.

Lemma touches_writes n x : touches n x = match writes x with
                                         | Some (n', id, _) => if decide (n' = n) then Some id else None
                                         | None => None
                                         end.
Proof. by destruct x as [lid [|m|[]]]. Qed.

(** Replaying an entry: the document it writes is as it was just after it, the others
    stay. *)
Lemma covers_next q x r n D D' k :
  committed_log ∅ (-1) (q ++ x :: r) → ¬ is_drop x →
  after k (q ++ x :: r) = x :: r → after (openraft.index x.1) (q ++ x :: r) = r →
  (∀ id, touches n x = Some id → ∃ c, db_of (q ++ [x]) !! n = Some c ∧ D' !! id = a_docs c !! id) →
  (∀ id, touches n x ≠ Some id → D' !! id = D !! id) →
  covers (q ++ x :: r) n k D → covers (q ++ x :: r) n (openraft.index x.1) D'.
Proof.
  intros Hl Hx Ek Er Hin Hout HD id. pose proof (version_one _ _ _ Er) as Hv.
  destruct (decide (touches n x = Some id)) as [Ht|Ht].
  { destruct (Hin id Ht) as (c & Hc & E). by exists (q ++ [x]), c. }
  rewrite (Hout id Ht). destruct (HD id) as (p & c & Hp & Hc & E).
  destruct (version_next _ _ _ _ _ Ek Er Hp) as [Hp'| ->]; [by exists p, c|].
  change (x :: r) with ([x] ++ r) in Hl. apply committed_split in Hl as [_ Hl].
  apply committed_log_app in Hl as [Hlx _]. destruct (entry_keeps _ _ _ _ _ Hlx Hx Hc) as [c' Hc'].
  destruct (entry_stable _ _ _ _ _ _ Hlx Hc Hc') as (_ & _ & Hs). exists (q ++ [x]), c'. split; [done|].
  rewrite db_of_app. split; [done|]. by rewrite Hs.
Qed.

(** Replaying a write. *)
Lemma covers_write q x r n id v D k :
  committed_log ∅ (-1) (q ++ x :: r) → writes x = Some (n, id, v) →
  after k (q ++ x :: r) = x :: r → after (openraft.index x.1) (q ++ x :: r) = r →
  covers (q ++ x :: r) n k D → covers (q ++ x :: r) n (openraft.index x.1) (partial_alter (λ _, v) id D).
Proof.
  intros Hl Hx Ek Er. apply covers_next; try done.
  - unfold writes, is_drop in *. destruct x as [lid [|m|[]]]; cbn in *; [by intros []..|done| |]; by intros [].
  - intros id'. rewrite touches_writes, Hx, decide_True by done. intros [= <-]. rewrite lookup_partial_alter_eq, db_of_app.
    change (x :: r) with ([x] ++ r) in Hl. apply committed_split in Hl as [_ (_ & _ & Hc & _)].
    destruct x as [lid [|m|[]]]; unfold writes in Hx; cbn in *; simplify_eq.
    + destruct Hc as (_ & (c & w & Hc & _) & _). rewrite lookup_alter_eq, Hc. eexists. split; [done|].
      cbn. by rewrite lookup_insert_eq.
    + destruct Hc as (_ & [[c Hc] _] & _). rewrite lookup_alter_eq, Hc. eexists. split; [done|].
      cbn. by rewrite lookup_delete_eq.
  - intros id'. rewrite touches_writes, Hx, decide_True by done. intros Hne. rewrite lookup_partial_alter_ne; congruence.
Qed.

(** Replaying an entry that does not write to collection [n]. *)
Lemma covers_other q x r n D k :
  committed_log ∅ (-1) (q ++ x :: r) → ¬ is_drop x → touches n x = None →
  after k (q ++ x :: r) = x :: r → after (openraft.index x.1) (q ++ x :: r) = r →
  covers (q ++ x :: r) n k D → covers (q ++ x :: r) n (openraft.index x.1) D.
Proof. intros Hl Hx Ht Ek Er. apply covers_next; try done. by rewrite Ht. Qed.

(** ** Memberships *)

Lemma no_members_after r : ∀ m, no_members r → foldl member_after m r = m.
Proof.
  induction r as [|x r IH]; intros m Hr; [done|]. apply Forall_cons in Hr as [Hx Hr]. cbn [foldl].
  rewrite IH by done. unfold member_after, is_member in *. by destruct x.2.
Qed.

(** Replaying the next entry moves the membership on. *)
Lemma member_replay q x r m :
  (no_members (x :: r) → m = members_of (q ++ x :: r)) →
  no_members r → member_after m x = members_of (q ++ x :: r).
Proof.
  intros Hm Hr. rewrite members_of_app. cbn [foldl]. rewrite no_members_after by done.
  destruct x as [lid [|mem|c]]; [|done|]; rewrite Hm by (by constructor; [intros []|]);
    rewrite members_of_app; cbn [foldl]; by rewrite no_members_after.
Qed.
End ReplicaLog.
