(* ===== verification/ReplicaRestart.v ===== *)
(** * Replicas: restarts

    [tracked sync quar l j st g K] relates a state machine to the longest log [l] it has ever
    applied and to the position [j] it has applied again since its last start.  The
    invariant is kept by applying entries, by commits whose mark trails behind, and
    by crashes, also in the middle of a replay; at the end of the log it is the
    relation [sm_rel] of a replica that was never stopped. *)

From S2P Require Import Prelude Bytes CoreError FileSys Proto External Mapping Document IndexApi Collection.
From S2P Require Import CollectionSpec WalInterface Catalog CatalogSpec CatalogRel CatalogCommit CatalogOpen CatalogOps.
From S2P Require Import CatalogCalls CatalogHistory Conversions LogStore StateMachine ReplicaSpec StateMachineCorrect ReplicaLog.

Open Scope Z_scope.

Section ReplicaRestart.
Context `{Json} `{Rfc3339} `{TantivySchema} `{!TantivyIndex} `{!MarkJson} `{UuidApi}.
Context `{WriteAheadLog} `{!Codec v1.CatalogSnapshot}.
Context `{openraft.MembershipApi} `{!Codec raft.StoredMembership}.

Abbreviation item := (openraft.LogId * content)%type.

Definition same_schema : gmap string coll → gmap string coll → Prop :=
  map_Forall2 (λ _ c c', a_uuid c = a_uuid c' ∧ a_mapping c = a_mapping c').

(** ** Schemas *)

#[export] Instance same_schema_equivalence : Equivalence same_schema.
Proof.
  split.
  - intros d n. destruct (d !! n); by constructor.
  - intros d d' Hd n. specialize (Hd n). by destruct Hd as [?? []|]; constructor.
  - intros d1 d2 d3 H1' H2' n. specialize (H1' n). specialize (H2' n).
    destruct H1' as [?? []|]; inversion H2' as [?? []|]; subst; constructor; split; congruence.
Qed.

Lemma same_schema_lookup d d' n c :
  same_schema d d' → d !! n = Some c → ∃ c', d' !! n = Some c' ∧ a_uuid c = a_uuid c' ∧ a_mapping c = a_mapping c'.
Proof. intros Hd Hc. specialize (Hd n). rewrite Hc in Hd. inversion Hd; subst. eauto. Qed.

Lemma same_schema_is_Some d d' n : same_schema d d' → is_Some (d !! n) ↔ is_Some (d' !! n).
Proof. intros Hd. specialize (Hd n). destruct Hd; split; intros []; eauto; done. Qed.

Lemma same_schema_alter d d' n f : same_schema d d' → same_schema (alter (set_docs f) n d) d'.
Proof.
  intros Hd n'. specialize (Hd n'). destruct (decide (n = n')) as [<-|]; [|by rewrite lookup_alter_ne].
  rewrite lookup_alter_eq. destruct Hd; by constructor.
Qed.

Lemma same_schema_inj d d' : same_schema d d' → inj_uuids d → inj_uuids d'.
Proof.
  intros Hd Hi n1 n2 c1 c2 H1' H2' E.
  destruct (same_schema_lookup d' d n1 c1) as (c1' & ? & Eu1 & _); [by symmetry|done|].
  destruct (same_schema_lookup d' d n2 c2) as (c2' & ? & Eu2 & _); [by symmetry|done|].
  eapply Hi; [done..|congruence].
Qed.

Lemma same_schema_live d d' u : same_schema d d' → live d u → live d' u.
Proof.
  intros Hd (n & c & Hc & <-). destruct (same_schema_lookup d d' n c Hd Hc) as (c' & ? & -> & _). by exists n, c'.
Qed.

(** The commit of a collection and its documents in the writer, at position [j] of
    the log [l]. *)
Definition rcommit (l : list item) (j : Z) (K : string → Z) (n : string) (c : coll) (D : docs_map) (k : Z) : Prop :=
  k = K n ∧ 0 ≤ k ≤ last_of l ∧ covers l n k D ∧ covers l n (k `max` j) (a_docs c).

(** The position a log is reported to be applied up to. *)
Definition reported_index (o : option openraft.LogId) : Z := from_option openraft.index (-1) o.

(** The contents of [catalog.pb], which are synced if [sync]. *)
Definition saved_file (sync : bool) (f : dir) (a : astate) : Prop :=
  (f !! SNAPSHOT_FILE = None ∧ snap_rep v1.CatalogSnapshot_default a)
  ∨ ∃ x snap, f !! SNAPSHOT_FILE = Some x ∧ f_data x = encode_to_vec snap
      ∧ (sync = true → (length (f_data x) ≤ f_synced x)%nat) ∧ snap_rep snap a.

Lemma snapshot_saved sync f a : snapshot_ok f a → saved_file sync f a.
Proof. intros [?|(x & snap & ? & ? & ? & ?)]; [by left|]. right. by exists x, snap. Qed.

Lemma load_saved sync f a : saved_file sync f a → ∃ snap, load_snapshot f = Ok snap ∧ snap_rep snap a.
Proof.
  intros [[Hn Hs]|(x & snap & Hf & Hd & _ & Hs)]; unfold load_snapshot.
  - exists v1.CatalogSnapshot_default. unfold fs_read, fs_lookup, mbind, M_bind. by rewrite Hn.
  - exists snap. rewrite (fs_read_ok _ _ _ Hf). cbn. by rewrite Hd, decode_encode.
Qed.

(** A crash that does not lose bytes of [catalog.pb]. *)
Definition keeps_catalog (f f' : dir) : Prop := f_data <$> f' !! SNAPSHOT_FILE = f_data <$> f !! SNAPSHOT_FILE.

Lemma saved_crash sync f f' a :
  crash f f' → sync = true ∨ keeps_catalog f f' → saved_file sync f a → saved_file sync f' a.
Proof.
  intros Hc Hk [[Hn Hs]|(x & snap & Hf & Hd & Hsy & Hs)]; [left; split; [by eapply crash_lookup_None|done]|].
  right. destruct (crash_lookup _ _ _ _ Hc Hf) as (x' & Hf' & Hcf). exists x', snap. split; [done|].
  destruct sync.
  - pose proof (crash_file_synced _ _ (Hsy eq_refl) Hcf) as E. destruct Hcf as (_ & _ & _ & Hsy').
    specialize (Hsy eq_refl). split; [congruence|]. split; [lia|done].
  - destruct Hk as [|Hk]; [done|]. unfold keeps_catalog in Hk. rewrite Hf, Hf' in Hk. injection Hk as ->. done.
Qed.

(** ** Kills *)

Definition with_catalog (st : SmSt) (cst : CatSt) : SmSt :=
  {| sm_catalog := cst; meta_dir := meta_dir st; sm_state := sm_state st |}.
Definition with_meta_dir (st : SmSt) (d : dir) : SmSt :=
  {| sm_catalog := sm_catalog st; meta_dir := d; sm_state := sm_state st |}.

(** The names that [commit_all] goes through. *)
Definition commit_names (st : SmSt) : list string := (map_to_list (collections (cat (sm_catalog st)))).*1.
Definition commit_each (mark : LogMark) (ns : list string) : M CatSt Error unit :=
  for_each ns (λ n, on_col n (commit mark)).

(** What a replica at position [j] is killed in the middle of: nothing, the commits of
    [checkpoint_applied] (or the one commit of a read), the writing of [catalog.pb]
    after them, or the writing of [membership.pb]. *)
Inductive killed_in (j : Z) (st : SmSt) : SmSt → Prop :=
| killed_at_rest : killed_in j st st
| killed_in_commits mark ns rest cst :
    0 ≤ mark_index mark ≤ j → commit_names st ≡ₚ ns ++ rest →
    commit_each mark ns (sm_catalog st) = (Ok tt, cst) → killed_in j st (with_catalog st cst)
| killed_in_persist mark cst f :
    0 ≤ mark_index mark ≤ j → commit_each mark (commit_names st) (sm_catalog st) = (Ok tt, cst) →
    f ∈ replacing SNAPSHOT_TMP (encode_to_vec (snapshot_proto (cat cst) (mark_index mark))) (files (root cst)) →
    killed_in j st (with_catalog st {| cat := cat cst; root := set_files f (root cst) |})
| killed_in_membership stored d :
    d ∈ replacing MEMBERSHIP_TMP (encode_to_vec (StoredMembership_to stored)) (meta_dir st) →
    killed_in j st (with_meta_dir st d).

(** Whether [catalog.pb] is synced, and what is in quarantine: nothing a replica does
    between two installs of a snapshot changes them. *)
Section tracked.
Context (sync : bool) (quar : gmap (Uuid * Z) (option Index)).

(** The snapshot file lists the collections of [d]. *)
Definition schema_saved (f : dir) (d : gmap string coll) (z : Z) : Prop :=
  ∃ d0 k z0, z0 ≤ z ∧ saved_file sync f (saved_as d0 k z0) ∧ same_schema d0 d.

(** An empty write-ahead log and the quarantine. *)
Definition idle_ok (p : wal * gmap (Uuid * Z) (option Index)) : Prop := w_rel p.1 [] (-1) 0 ∧ p.2 = quar.

(** The catalog of a replica. *)
Record cat_tracked (l : list item) (j : Z) (st : CatSt) (g : gmap string coll) (K : string → Z) : Prop := {
  ct_schema : same_schema g (db_of l);
  ct_replica : replica_with (rcommit l j K) st g (last_of l);
  ct_idle : idle_ok (idle_parts st);
  ct_saved : schema_saved (files (root st)) (db_of l) (last_of l)
}.

Record tracked (l : list item) (j : Z) (st : SmSt) (g : gmap string coll) (K : string → Z) : Prop := {
  tk_log : committed_log ∅ (-1) l;
  tk_pos : -1 ≤ j ≤ last_of l;
  tk_no_drops : no_drops (after j l);
  tk_cat : cat_tracked l j (sm_catalog st) g K;
  tk_low : db_of l = ∅ ∨ ∃ n, is_Some (db_of l !! n) ∧ K n ≤ j;
  tk_last : -1 ≤ reported_index (last_applied (sm_state st)) ≤ j;
  tk_file : membership_ok (meta_dir st) (sm_membership (sm_state st));
  tk_member : no_members (after j l) → sm_membership (sm_state st) = members_of l
}.

(** At the end of the log the collections hold its database. *)
Lemma caught_up l st g K : committed_log ∅ (-1) l → cat_tracked l (last_of l) st g K → g = db_of l.
Proof.
  intros Hl [Hs Hr _ _]. apply map_eq. intros n. pose proof (replica_lookup _ _ _ _ n Hr) as Hn.
  specialize (Hs n). destruct (db_of l !! n) as [c'|] eqn:Hc'; inversion Hs as [c c0 [Eu Em] Ec|Ec].
  2: done. subst c0. rewrite <-Ec in Hn. destruct Hn as (e & D & k & _ & _ & _ & Hk & _ & Hc).
  apply (covers_last l n _ _ c') in Hc; [|done|lia|done]. destruct c, c'. cbn in *. congruence.
Qed.

(** A replica at the end of its log is one that was never stopped. *)
Lemma tracked_sm_rel l st g K :
  tracked l (last_of l) st g K → sm_rel st (db_of l) (last_of l) (members_of l).
Proof.
  intros Ht. pose proof (tk_log _ _ _ _ _ Ht) as Hl. pose proof (caught_up _ _ _ _ Hl (tk_cat _ _ _ _ _ Ht)) as Eg.
  assert (Em : sm_membership (sm_state st) = members_of l).
  { apply (tk_member _ _ _ _ _ Ht). rewrite after_last; [constructor|done|lia]. }
  split; [|done|rewrite <-Em; apply Ht]. rewrite <-Eg. eapply replica_impl; [|apply Ht].
  intros n c D k Hc (_ & Hk & HD & Hd). split; [lia|]. intros ->.
  rewrite Eg in Hc. apply (covers_last l n _ _ c) in HD; [done|done|lia|done].
Qed.

(** ** The next entry of a log *)

(** An entry of the log changes the catalog or the membership. *)
Lemma apply_entry_with (R : CatSt → Prop) x st :
  match x.2 with
  | CCmd c => ∃ out cst, apply_command (mark_of x.1) (command (op_of c)) (sm_catalog st) = (Ok out, cst) ∧ R cst
  | _ => R (sm_catalog st)
  end →
  membership_ok (meta_dir st) (sm_membership (sm_state st)) →
  ∃ r st', apply_entry (entry_of x) st = (Ok r, st') ∧ R (sm_catalog st')
    ∧ sm_membership (sm_state st') = member_after (sm_membership (sm_state st)) x
    ∧ last_applied (sm_state st') = Some x.1
    ∧ membership_ok (meta_dir st') (sm_membership (sm_state st')).
Proof.
  intros HR Hm. destruct x as [lid [|mem|c]]; cbn in HR; unfold apply_entry; cbn; mpure.
  - by eexists _, _.
  - set (stored := {| openraft.stored_log_id := Some lid; openraft.stored_membership := mem |}).
    edestruct (persist_membership_ok stored) as (d' & E & Hd'). rewrite (M_bind_Ok _ _ _ _ _ E). mpure.
    by eexists _, _.
  - destruct HR as (out & cst & E & HR). erewrite M_bind_Ok; [|eapply on_catalog_ok; exact E]. by eexists _, _.
Qed.

(** A new entry at the end of the log: the commits stay, and a new collection has
    none. *)
Definition marks_after (l : list item) (K : string → Z) (n : string) : Z :=
  if decide (is_Some (db_of l !! n)) then K n else 0.

Lemma rcommit_app l x K n c c' D k :
  committed_log ∅ (-1) (l ++ [x]) → db_of l !! n = Some c → db_of (l ++ [x]) !! n = Some c' →
  rcommit l (last_of l) K n c D k → rcommit (l ++ [x]) (openraft.index x.1) (marks_after l K) n c' D k.
Proof.
  intros Hl Hc Hc' (-> & Hk & HD & _). pose proof Hl as (Hl1 & Hx & _)%committed_split.
  split; [unfold marks_after; by rewrite decide_True by eauto|]. split; [rewrite last_of_app; lia|].
  split; [apply covers_app; [lia|done]|by apply covers_all].
Qed.

Lemma cat_tracked_apply l st g K lid c :
  committed_log ∅ (-1) (l ++ [(lid, CCmd c)]) → cat_tracked l (last_of l) st g K →
  ∃ out st', apply_command (mark_of lid) (command (op_of c)) st = (Ok out, st')
    ∧ cat_tracked (l ++ [(lid, CCmd c)]) (openraft.index lid) st' (db_of (l ++ [(lid, CCmd c)])) (marks_after l K).
Proof.
  intros Hl Hct. pose proof Hl as (Hl1 & Hx & H0' & [Hpos Hc] & _)%committed_split.
  pose proof (caught_up _ _ _ _ Hl1 Hct) as ->. destruct Hct as [_ Hr Hw (d0 & k0 & z0 & Hz & Hsn & Hs)].
  assert (Edb : db_of (l ++ [(lid, CCmd c)]) = step (db_of l) c) by (by rewrite db_of_app).
  destruct (apply_cmd_with _ (rcommit (l ++ [(lid, CCmd c)]) (openraft.index lid) (marks_after l K))
      st (db_of l) (last_of l) (mark_of lid) Hr) with c as (out & st' & E & _ & Hr' & Ew & Hf); try done.
  - intros n cl D k (_ & ? & _). lia.
  - intros n cl cl' D k Hn Hn' HP. eapply rcommit_app; [done..| |done]. by rewrite Edb.
  - intros n u m ->. destruct Hc as [[Hn _] _]. split; [unfold marks_after; by rewrite decide_False by (by rewrite Hn; intros [])|].
    split; [rewrite last_of_app; cbn in *; lia|].
    assert (Ec : db_of (l ++ [(lid, CCmd (CCreate n u m))]) !! n = Some {| a_uuid := u; a_mapping := m; a_docs := ∅ |})
      by (by rewrite Edb; cbn; rewrite lookup_insert_eq).
    split; by apply (covers_all _ _ _ _ Ec).
  - exists out, st'. split; [done|]. rewrite <-Edb in *. split; [done| |by rewrite Ew|].
    + rewrite last_of_app. done.
    + rewrite last_of_app. cbn. cbn in Hx.
      destruct c; try (eexists _, _, _; split; [|split; [apply snapshot_saved; exact Hf|done]]; cbn; lia);
        rewrite Hf; exists d0, k0, z0; (split; [lia|]); (split; [done|]); rewrite Edb; symmetry; by apply same_schema_alter.
Qed.

(** ** Replaying a known entry *)

Section replay.
Context (l : list item) (j : Z) (K : string → Z) (q : list item) (x : item) (r : list item).
Hypothesis Hl : committed_log ∅ (-1) l.
Hypothesis Hr : no_drops (x :: r).
Hypothesis El : l = q ++ x :: r.
Hypothesis Hj : j < openraft.index x.1.
Hypothesis Hk : ∀ k, j ≤ k < openraft.index x.1 → after k l = x :: r.
Hypothesis Er : after (openraft.index x.1) l = r.

Lemma rcommit_skip n c D k :
  touches n x = None ∨ openraft.index x.1 ≤ K n → rcommit l j K n c D k → rcommit l (openraft.index x.1) K n c D k.
Proof.
  intros Ht (-> & Hb & HD & Hd). split; [done|]. split; [done|]. split; [done|].
  destruct (decide (openraft.index x.1 ≤ K n)); [by replace (_ `max` openraft.index x.1) with (K n `max` j) by lia|].
  destruct Ht as [Ht|]; [|done]. rewrite Z.max_r by lia.
  pose proof (Hk (K n `max` j) ltac:(lia)) as Ek. apply Forall_cons in Hr as [Hnd _]. rewrite El in *. by eapply covers_other.
Qed.

Lemma rcommit_write n id v c D k :
  writes x = Some (n, id, v) → K n < openraft.index x.1 → rcommit l j K n c D k →
  rcommit l (openraft.index x.1) K n (set_docs (partial_alter (λ _, v) id) c) D k.
Proof.
  intros Hx Hlt (-> & Hb & HD & Hd). split; [done|]. split; [done|]. split; [done|].
  rewrite Z.max_r by lia. cbn. pose proof (Hk (K n `max` j) ltac:(lia)) as Ek.
  rewrite El in *. by eapply covers_write.
Qed.

(** The collection a replayed entry names is there. *)
Lemma replay_collection n c0 : foldl db_after (db_of q) [x] !! n = Some c0 →
  ∃ c, db_of l !! n = Some c ∧ a_mapping c = a_mapping c0.
Proof.
  intros Hc0. rewrite El in Hl |- *. rewrite (app_assoc q [x] r : q ++ x :: r = (q ++ [x]) ++ r) in *.
  apply committed_split in Hl as [_ Hl']. apply Forall_cons in Hr as [_ Hr']. rewrite <-db_of_app in Hc0.
  destruct (log_stable r n _ _ _ Hl' Hr' Hc0) as (c & Hc & _ & ?). exists c. by rewrite db_of_app.
Qed.

Lemma replay_unchanged st g out :
  cat_tracked l j st g K → (∀ n, is_Some (g !! n) → touches n x = None ∨ openraft.index x.1 ≤ K n) →
  ∃ out' st' g', (Ok out : result Error ApplyOutcome, st) = (Ok out', st') ∧ cat_tracked l (openraft.index x.1) st' g' K.
Proof.
  intros [Hs Hrep Hw Hsv] Ht. exists out, st, g. split; [done|]. split; [done| |done|done].
  eapply replica_impl; [|exact Hrep]. intros n c D k Hc. apply rcommit_skip. apply Ht. by eauto.
Qed.

(** A write that the commit of its collection does not cover. *)
Lemma replay_write {A} st g n id v c (m : M ColSt Error A) :
  cat_tracked l j st g K → writes x = Some (n, id, v) → g !! n = Some c → K n < openraft.index x.1 →
  (∀ s D docs, col_rep s (a_mapping c) D docs →
    ∃ a s', m s = (Ok a, s') ∧ col_rep s' (a_mapping c) D (partial_alter (λ _, v) id docs) ∧ on_disk s' = on_disk s) →
  ∃ a st' g', on_col n m st = (Ok a, st') ∧ cat_tracked l (openraft.index x.1) st' g' K.
Proof.
  intros [Hs Hrep Hw Hsv] Hx Hc Hlt Hm.
  destruct (doc_step _ (rcommit l (openraft.index x.1) K) st g (last_of l) (last_of l) n c
    (partial_alter (λ _, v) id) m Hrep) as (a & st' & E & Hrep' & Ew & Ef); [lia|done|..].
  - intros n' c' D k Hne Hc'. apply rcommit_skip. left. by rewrite touches_writes, Hx, decide_False.
  - intros D k. by apply rcommit_write.
  - done.
  - exists a, st', (alter (set_docs (partial_alter (λ _, v) id)) n g). split; [done|].
    split; [by apply same_schema_alter|done|by rewrite Ew|by rewrite Ef].
Qed.

(** The collection [n] of a replayed entry, in memory. *)
Lemma replay_target st g c n c0 :
  cat_tracked l j st g K → x.2 = CCmd c → step (db_of q) c !! n = Some c0 →
  ∃ e cg, g !! n = Some cg ∧ collections (cat st) !! n = Some e ∧ a_mapping cg = a_mapping c0
    ∧ committed_index n st = (Ok (K n), st).
Proof.
  intros Hct Ex Hc0. pose proof (ct_replica _ _ _ _ _ Hct) as Hrep.
  destruct (replay_collection n c0) as (c1 & Hc1 & Em1); [cbn; unfold db_after; by rewrite Ex|].
  destruct (same_schema_lookup (db_of l) g n c1) as (cg & Hg & _ & Em); [symmetry; apply Hct|done|].
  pose proof (replica_lookup _ _ _ _ n Hrep) as Hn. rewrite Hg in Hn. destruct Hn as (e & _ & _ & He & _).
  destruct (replica_committed _ _ _ _ _ _ Hrep Hg) as (D & k & E & HP). pose proof (proj1 HP) as ->.
  exists e, cg. split_and!; [done|done|congruence|done].
Qed.

Lemma replay_covered st g out n id v :
  cat_tracked l j st g K → writes x = Some (n, id, v) → openraft.index x.1 ≤ K n →
  ∃ out' st' g', (Ok out : result Error ApplyOutcome, st) = (Ok out', st') ∧ cat_tracked l (openraft.index x.1) st' g' K.
Proof.
  intros Hct Hx Hle. eapply replay_unchanged; [done|]. intros n' _. rewrite touches_writes, Hx.
  destruct (decide (n = n')) as [<-|]; [by right|by left].
Qed.

Lemma rerun_create st g n u m :
  cat_tracked l j st g K → x.2 = CCmd (CCreate n u m) → mapping_ok m →
  ∃ out st' g', apply_command (mark_of x.1) (command (op_of (CCreate n u m))) st = (Ok out, st')
    ∧ cat_tracked l (openraft.index x.1) st' g' K.
Proof.
  intros Hct Ex Hv.
  destruct (replay_target st g _ n {| a_uuid := u; a_mapping := m; a_docs := ∅ |} Hct Ex)
    as (e & cg & _ & He & _); [apply lookup_insert_eq|].
  assert (E : apply_command (mark_of x.1) (command (op_of (CCreate n u m))) st = (Ok ApplyOutcome_default, st)).
  { cbn. unfold apply_create. cbn [v1.create_mapping v1.create_collection v1.create_uuid].
    erewrite M_bind_Ok; [reflexivity|]. mpure. rewrite Mapping_proto_roundtrip by apply Hv. mpure.
    by rewrite (M_bind_Ok _ _ _ _ _ (lookup_entry_ok st n)), He. }
  rewrite E. eapply replay_unchanged; [done|]. intros n' _. left. unfold touches. by rewrite Ex.
Qed.

Lemma rerun_index st g n id src :
  cat_tracked l j st g K → x.2 = CCmd (CIndex n id src) → cmd_ok (db_of q) (CIndex n id src) →
  ∃ out st' g', apply_command (mark_of x.1) (command (op_of (CIndex n id src))) st = (Ok out, st')
    ∧ cat_tracked l (openraft.index x.1) st' g' K.
Proof.
  intros Hct Ex (c0 & v & Hc0 & Ev & Hval & Hid).
  destruct (replay_target st g _ n (set_docs <[id:=src]> c0) Hct Ex) as (e & cg & Hg & He & Em & Ek);
    [by cbn; rewrite lookup_alter_eq, Hc0|].
  assert (Hx : writes x = Some (n, id, Some src)) by (unfold writes; by rewrite Ex).
  cbn. unfold apply_index. cbn [v1.index_collection].
  rewrite (M_bind_Ok _ _ _ _ _ (lookup_entry_ok st n)), He, (M_bind_Ok _ _ _ _ _ Ek).
  case_decide as Hle; cbn in Hle; [by eapply replay_covered|]. cbn [v1.index_source v1.index_id]. rewrite Ev. mpure.
  destruct (replay_write st g n id (Some src) cg (apply_upsert id src v) Hct Hx Hg) as (b & st' & g' & E & Hct'); [lia| |].
  - intros s D' docs Hs. cbn in Em. destruct (upsert_rep s _ _ docs id src v Hs) as (s' & ? & ? & ? & _);
      [by rewrite Em|done|]. by eexists _, s'.
  - rewrite (M_bind_Ok _ _ _ _ _ E). by eexists _, st', g'.
Qed.

Lemma rerun_delete st g n id :
  cat_tracked l j st g K → x.2 = CCmd (CDelete n id) → cmd_ok (db_of q) (CDelete n id) →
  ∃ out st' g', apply_command (mark_of x.1) (command (op_of (CDelete n id))) st = (Ok out, st')
    ∧ cat_tracked l (openraft.index x.1) st' g' K.
Proof.
  intros Hct Ex [[c0 Hc0] Hid].
  destruct (replay_target st g _ n (set_docs (delete id) c0) Hct Ex) as (e & cg & Hg & He & Em & Ek);
    [by cbn; rewrite lookup_alter_eq, Hc0|].
  assert (Hx : writes x = Some (n, id, None)) by (unfold writes; by rewrite Ex).
  cbn. unfold apply_delete_doc. cbn [v1.delete_collection].
  rewrite (M_bind_Ok _ _ _ _ _ (lookup_entry_ok st n)), He, (M_bind_Ok _ _ _ _ _ Ek).
  case_decide as Hle; cbn in Hle; [by eapply replay_covered|]. cbn [v1.delete_id].
  destruct (replay_write st g n id None cg (apply_delete id) Hct Hx Hg) as (b & st' & g' & E & Hct'); [lia| |].
  - intros s D' docs Hs. destruct (delete_rep s _ _ docs id Hs Hid) as (s' & ? & ? & ? & _). by eexists _, s'.
  - rewrite (M_bind_Ok _ _ _ _ _ E). by eexists _, st', g'.
Qed.

Lemma replay_command st g c :
  cat_tracked l j st g K → x.2 = CCmd c →
  ∃ out st' g', apply_command (mark_of x.1) (command (op_of c)) st = (Ok out, st')
    ∧ cat_tracked l (openraft.index x.1) st' g' K.
Proof.
  intros Hct Ex. assert (Hc : committed_cmd (db_of q) c).
  { rewrite El in Hl. apply committed_split in Hl as [_ (_ & _ & Hc & _)]. rewrite Ex in Hc. apply Hc. }
  destruct Hc as [Hc _]. destruct c as [n u m|n|n id src|n id].
  - eapply rerun_create; [done..|apply Hc].
  - apply Forall_cons in Hr as [Hx _]. unfold is_drop in Hx. by rewrite Ex in Hx.
  - by eapply rerun_index.
  - by eapply rerun_delete.
Qed.

(** Entries that do not touch the catalog. *)
Lemma replay_other st g :
  cat_tracked l j st g K → (∀ n, touches n x = None) → cat_tracked l (openraft.index x.1) st g K.
Proof.
  intros [Hs Hrep Hw Hsv] Ht. split; [done| |done|done].
  eapply replica_impl; [|exact Hrep]. intros n c D k Hc. apply rcommit_skip. left. apply Ht.
Qed.
End replay.

(** ** The operations of a replica *)

Lemma rcommit_low l K st g : cat_tracked l (last_of l) st g K → db_of l = ∅ ∨ ∃ n, is_Some (db_of l !! n) ∧ K n ≤ last_of l.
Proof.
  intros [Hs Hr _ _]. destruct (map_choose_or_empty (db_of l)) as [(n & c & Hc)|]; [right|by left].
  exists n. split; [by eauto|]. destruct (same_schema_lookup (db_of l) g n c) as (cg & Hg & _); [by symmetry|done|].
  destruct (replica_committed _ _ _ _ _ _ Hr Hg) as (D & k & _ & -> & ? & _). lia.
Qed.

Lemma cat_tracked_other l st g K x :
  committed_log ∅ (-1) (l ++ [x]) → db_after (db_of l) x = db_of l → cat_tracked l (last_of l) st g K →
  cat_tracked (l ++ [x]) (openraft.index x.1) st (db_of (l ++ [x])) (marks_after l K).
Proof.
  intros Hl Ex Hct. pose proof Hl as (Hl1 & Hx & _)%committed_split.
  pose proof (caught_up _ _ _ _ Hl1 Hct) as ->. destruct Hct as [_ Hr Hw (d0 & k0 & z0 & Hz & Hsn & Hs)].
  assert (Edb : db_of (l ++ [x]) = db_of l) by (by rewrite db_of_app).
  rewrite Edb. split; [by rewrite Edb| |done|]; rewrite last_of_app.
  - eapply replica_advance; [exact Hr|lia|]. intros n c D k Hc HP. eapply rcommit_app; [done|done|by rewrite Edb|done].
  - rewrite Edb. exists d0, k0, z0. split; [lia|done].
Qed.

(** A new entry at the end of the log. *)
Lemma tracked_apply l st g K x :
  tracked l (last_of l) st g K → committed_log (db_of l) (last_of l) [x] →
  ∃ r st' g' K', apply_entry (entry_of x) st = (Ok r, st') ∧ tracked (l ++ [x]) (openraft.index x.1) st' g' K'.
Proof.
  intros Ht Hx. pose proof (tk_log _ _ _ _ _ Ht) as Hl. pose proof (tk_cat _ _ _ _ _ Ht) as Hct.
  assert (Hlx : committed_log ∅ (-1) (l ++ [x])) by (by apply committed_split).
  assert (Ea : after (openraft.index x.1) (l ++ [x]) = []) by (apply after_last; [done|rewrite last_of_app; lia]).
  destruct (apply_entry_with (λ cst, cat_tracked (l ++ [x]) (openraft.index x.1) cst (db_of (l ++ [x])) (marks_after l K))
    x st) as (r & st' & E & Hct' & Em & El & Hm); [|apply Ht|].
  { destruct x as [lid [|mem|c]]; [by eapply cat_tracked_other..|by eapply cat_tracked_apply]. }
  exists r, st', (db_of (l ++ [x])), (marks_after l K). split; [done|]. destruct Hx as (Hx & H0' & _).
  split; [done|rewrite last_of_app; lia|by rewrite Ea; constructor|done| |rewrite El; cbn; lia|done|].
  - rewrite <-(last_of_app l x) in Hct' |- *. by eapply rcommit_low.
  - intros _. rewrite Em, members_of_app. cbn. f_equal. apply (tk_member _ _ _ _ _ Ht).
    rewrite after_last; [constructor|done|lia].
Qed.

(** A known entry after a restart. *)
Lemma tracked_replay l j st g K x r :
  tracked l j st g K → after j l = x :: r →
  ∃ resp st' g', apply_entry (entry_of x) st = (Ok resp, st') ∧ tracked l (openraft.index x.1) st' g' K.
Proof.
  intros [Hl Hp Hnd Hct Hlow Hla Hf Hm] Ea. rewrite Ea in Hnd, Hm.
  destruct (after_next l j x r Hl Ea) as (q & El & Hj & Hc & Hk & Er).
  destruct (apply_entry_with (λ cst, ∃ g', cat_tracked l (openraft.index x.1) cst g' K) x st)
    as (resp & st' & E & (g' & Hct') & Em & Ela & Hm'); [|done|].
  { destruct (x.2) as [|mem|c] eqn:Ex; [exists g; eapply replay_other; try done; intros n; unfold touches; by rewrite Ex..|].
    destruct (replay_command l j K q x r Hl Hnd El Hj Hk Er (sm_catalog st) g c Hct Ex) as (out & cst & g' & E & Hct').
    exists out, cst. split; [done|]. by exists g'. }
  exists resp, st', g'. split; [done|]. split; [done| |rewrite Er; by inversion Hnd|done| |rewrite Ela; cbn; lia|done|].
  - destruct Hc as (_ & H0' & _). split; [lia|].
    pose proof (proj2 (committed_log_below _ _ _ Hl)) as Hb. rewrite Forall_forall in Hb.
    apply (Hb x). rewrite El. apply elem_of_app. right. left.
  - destruct Hlow as [|(n & Hn & HK)]; [by left|right]. exists n. split; [done|lia].
  - rewrite Er, Em. intros Hr. rewrite El in Hm |- *. by apply member_replay.
Qed.

(** [commit_collection] at a position that has been applied. *)
Lemma tracked_commit l j st g K n mark :
  tracked l j st g K → is_Some (db_of l !! n) → 0 ≤ mark_index mark ≤ 0 `max` j →
  ∃ cst K', commit_collection n mark (sm_catalog st) = (Ok tt, cst)
    ∧ tracked l j {| sm_catalog := cst; meta_dir := meta_dir st; sm_state := sm_state st |} g K'
    ∧ mark_index mark ≤ K' n.
Proof.
  intros [Hl Hp Hnd [Hs Hr Hw Hsv] Hlow Hla Hf Hm] Hn Hmk.
  destruct (commit_collection_with _ _ g _ n mark Hr) as (cst & E & Hr' & Ew & Ef); [by rewrite same_schema_is_Some|].
  assert (HK0 : ∀ n, is_Some (db_of l !! n) → 0 ≤ K n).
  { intros n' [c' Hc']%(same_schema_is_Some _ _ n' Hs).
    destruct (replica_committed _ _ _ _ _ _ Hr Hc') as (D & k & _ & -> & ? & _). lia. }
  set (m := mark_index mark) in *. set (K' := λ n', if decide (n' = n ∧ K n < m) then m else K n').
  exists cst, K'. split; [done|]. split; [|unfold K'; case_decide as Hd; [done|]; destruct (decide (K n < m)); [by destruct Hd|lia]].
  split; try done.
  - split; cbn; [done| |by rewrite Ew|by rewrite Ef]. eapply replica_impl; [|exact Hr'].
    intros n' c D k _ HP. unfold committed_from in HP. unfold rcommit, K'.
    destruct (decide (n' = n)) as [->|]; [|by rewrite decide_False by (by intros [])].
    destruct HP as [(-> & -> & D0 & k0 & (-> & _ & _ & Hc) & Hlt)|[(-> & ?) ?]].
    + pose proof (HK0 n Hn). rewrite decide_True by done. split; [done|]. split; [lia|].
      split; (eapply covers_mono; [|exact Hc]); lia.
    + rewrite decide_False by (intros []; lia). done.
  - destruct Hlow as [|(n' & Hn' & HK)]; [by left|right]. exists n'. split; [done|]. unfold K'.
    case_decide as Hd; [|done]. destruct Hd as [-> ?]. specialize (HK0 n Hn). lia.
Qed.

(** ** Reads *)

(** What a read of the database [d] answers. *)
Definition db_read (d : gmap string coll) (n id : string) : result Error (list byte) :=
  match d !! n with
  | None => Err (CollectionNotFound n)
  | Some c => ok_or (DocumentNotFound id) (a_docs c !! id)
  end.

Lemma get_committed l j st g K n c id :
  cat_tracked l j st g K → g !! n = Some c → id_ok id →
  ∃ D, covers l n (K n) D ∧ get_document n id st = (ok_or (DocumentNotFound id) (D !! id), st).
Proof.
  intros Hct Hc Hid. pose proof (replica_lookup _ _ _ _ n (ct_replica _ _ _ _ _ Hct)) as Hn. rewrite Hc in Hn.
  destruct Hn as (e & D & k & He & (Eu & _ & index & Hd & Hrep & _) & -> & _ & HD & _). exists D. split; [done|].
  unfold get_document. rewrite (M_bind_Ok _ _ _ _ _ (get_ok _ _ _ He)). pose proof (source_rep _ _ _ _ id Hrep Hid) as Es.
  erewrite M_bind_Ok; [|eapply on_col_ok; [done|by rewrite Eu|done]]. cbv beta. rewrite put_col_same; [done|done|by rewrite Eu].
Qed.

(** A read at mark [m] answers from a version that has every entry up to it,
    whatever the replica is going through. *)
Lemma tracked_read l j st g K n id mark :
  tracked l j st g K → 0 ≤ mark_index mark ≤ 0 `max` j → id_ok id →
  ∃ p cst K', read_latest n id mark (sm_catalog st) = (db_read (db_of p) n id, cst)
    ∧ version l (mark_index mark) p
    ∧ tracked l j {| sm_catalog := cst; meta_dir := meta_dir st; sm_state := sm_state st |} g K'.
Proof.
  intros Ht Hmk Hid. unfold read_latest. destruct (db_of l !! n) as [c|] eqn:Hc.
  - destruct (tracked_commit _ _ _ _ _ n mark Ht ltac:(by eauto) Hmk) as (cst & K' & E & Ht' & Hle).
    destruct (same_schema_lookup (db_of l) g n c) as (cg & Hg & _); [symmetry; apply Ht|done|].
    destruct (get_committed l j cst g K' n cg id (tk_cat _ _ _ _ _ Ht') Hg Hid) as (D & HD & Eg).
    destruct (HD id) as (p & c' & Hp & Hc' & ED). exists p, cst, K'. rewrite (M_bind_Ok _ _ _ _ _ E), Eg.
    unfold db_read. rewrite Hc', ED. split; [done|]. split; [by eapply version_mono|done].
  - exists l, (sm_catalog st), K. unfold db_read. rewrite Hc. split; [|split; [apply version_all|by destruct st]].
    unfold commit_collection. assert (Hn : collections (cat (sm_catalog st)) !! n = None).
    { pose proof (replica_lookup _ _ _ _ n (ct_replica _ _ _ _ _ (tk_cat _ _ _ _ _ Ht))) as Hn.
      assert (Hg : g !! n = None); [|by rewrite Hg in Hn].
      apply eq_None_not_Some. intros Hg%(same_schema_is_Some g (db_of l) n (ct_schema _ _ _ _ _ (tk_cat _ _ _ _ _ Ht))).
      rewrite Hc in Hg. by destruct Hg. }
    erewrite M_bind_Err; [done|]. by rewrite (M_bind_Err _ _ _ _ _ (get_missing _ _ Hn)).
Qed.

(** [checkpoint_applied] at a position that has been applied. *)
Lemma tracked_checkpoint l j st g K mark :
  tracked l j st g K → 0 ≤ mark_index mark ≤ j →
  ∃ cst K', checkpoint_applied mark (sm_catalog st) = (Ok tt, cst)
    ∧ tracked l j {| sm_catalog := cst; meta_dir := meta_dir st; sm_state := sm_state st |} g K'.
Proof.
  intros [Hl Hp Hnd [Hs Hr Hw Hsv] Hlow Hla Hf Hm] Hmk.
  assert (Hd : map_Forall (λ n c, covers l n j (a_docs c)) g).
  { intros n c Hc. destruct (replica_committed _ _ _ _ _ _ Hr Hc) as (D & k & _ & _ & _ & _ & Hc').
    eapply covers_mono; [|exact Hc']. lia. }
  destruct (checkpoint_applied_ok _ _ _ _ mark Hr) as (cst & E & Hr' & Ew & Hsn).
  exists cst, (λ _, mark_index mark). split; [done|]. split; try done.
  - split; cbn; [done| |by rewrite Ew|].
    + eapply replica_impl; [|exact Hr']. intros n c D k Hc [-> ->]. specialize (Hd n c Hc).
      split; [done|]. split; [lia|]. split; (eapply covers_mono; [|exact Hd]); lia.
    + eexists g, _, _. split; [|split; [apply snapshot_saved; exact Hsn|done]]. lia.
  - destruct Hlow as [|(n & Hn & _)]; [by left|right]. exists n. split; [done|lia].
Qed.

(** ** Kills in the middle of an operation *)

Lemma tracked_commits l j st g K mark ns rest cst :
  tracked l j st g K → 0 ≤ mark_index mark ≤ j → commit_names st ≡ₚ ns ++ rest →
  commit_each mark ns (sm_catalog st) = (Ok tt, cst) → ∃ K', tracked l j (with_catalog st cst) g K'.
Proof.
  intros [Hl Hp Hnd [Hs Hr Hw Hsv] Hlow Hla Hf Hm] Hmk Hns E.
  assert (Hd : map_Forall (λ n c, covers l n j (a_docs c)) g).
  { intros n c Hc. destruct (replica_committed _ _ _ _ _ _ Hr Hc) as (D & k & _ & _ & _ & _ & Hc').
    eapply covers_mono; [|exact Hc']. lia. }
  destruct (commit_loop (last_of l) g mark ns _ (sm_catalog st) (rp_inj _ _ _ _ Hr) (rp_loaded _ _ _ _ Hr))
    as (cst' & E' & (_ & Ew & Ef & Eq & _ & Hdirs) & Hlo).
  { assert (Hall : Forall (λ n, is_Some (collections (cat (sm_catalog st)) !! n)) (ns ++ rest)).
    { rewrite <-Hns. apply Forall_forall. intros n ([n' e] & -> & Hin%elem_of_map_to_list)%list_elem_of_fmap. by eauto. }
    by apply Forall_app in Hall as [? _]. }
  unfold commit_each in E. rewrite E in E'. injection E' as <-.
  set (K' := λ n, if decide (n ∈ ns) then mark_index mark else K n). exists K'. split; try done.
  - split; cbn; [done| |unfold idle_parts; by rewrite Ew, Eq|by rewrite Ef].
    split; [|apply Hr|intros u Hu; by apply (rp_dirs _ _ _ _ Hr), Hdirs].
    eapply loaded_impl; [|exact Hlo]. cbn. intros n c D k Hc [(Hin & -> & ->)|[Hin HP]]; unfold rcommit, K'.
    + specialize (Hd n c Hc). rewrite decide_True by done. split; [done|]. split; [lia|].
      split; (eapply covers_mono; [|exact Hd]); lia.
    + by rewrite decide_False.
  - destruct Hlow as [|(n & Hn & HK)]; [by left|right]. exists n. split; [done|]. unfold K'. case_decide; lia.
Qed.

(** Only [catalog.pb] and [membership.pb] are read back. *)
Lemma tracked_files l j st cst f g K :
  f !! SNAPSHOT_FILE = files (root cst) !! SNAPSHOT_FILE → tracked l j (with_catalog st cst) g K →
  tracked l j (with_catalog st {| cat := cat cst; root := set_files f (root cst) |}) g K.
Proof.
  intros Ef [Hl Hp Hnd [Hs [[Ho Hn] Hi Hd] Hw (d0 & k & z0 & Hz & Hsv & Hs0)] Hlow Hla Hf Hm].
  split; try done. split; try done. exists d0, k, z0. split; [done|]. split; [|done].
  cbn. unfold saved_file. rewrite Ef. exact Hsv.
Qed.

Lemma tracked_meta_dir l j st d g K :
  d !! MEMBERSHIP_FILE = meta_dir st !! MEMBERSHIP_FILE → tracked l j st g K → tracked l j (with_meta_dir st d) g K.
Proof.
  intros Ed [Hl Hp Hnd Hct Hlow Hla Hf Hm]. split; try done. cbn. unfold membership_ok. rewrite Ed. exact Hf.
Qed.

Lemma tracked_killed l j st g K st' : tracked l j st g K → killed_in j st st' → ∃ K', tracked l j st' g K'.
Proof.
  intros Ht [|mark ns rest cst Hmk Hns E|mark cst f Hmk E Hf|stored d Hd].
  - by exists K.
  - by eapply tracked_commits.
  - destruct (tracked_commits l j st g K mark (commit_names st) [] cst Ht Hmk) as [K' Ht']; [by rewrite app_nil_r|done|].
    exists K'. apply tracked_files; [|done]. by eapply replacing_other.
  - exists K. apply tracked_meta_dir; [|done]. by eapply replacing_other.
Qed.

(** ** Opening the files of a stopped replica *)

(** The counter that [open_entries] carries does not decide what is opened. *)
Lemma open_entries_max dirs dropped es : ∀ cols z z' cols' y,
  open_entries dirs dropped es cols z = Ok (cols', y) → ∃ y', open_entries dirs dropped es cols z' = Ok (cols', y').
Proof.
  induction es as [|e es IH]; intros cols z z' cols' y E; cbn in *; [injection E as <- _; by eauto|].
  case_decide; [by eapply IH|]. destruct (ok_or _ (uuid_parse_str _)) as [u| |]; try done. cbn in *.
  destruct (ok_or _ (v1.entry_mapping e)) as [pm| |]; try done. cbn in *.
  destruct (Mapping_try_from_proto pm) as [m| |]; try done. cbn in *. case_decide; [done|].
  destruct (collection_open dirs u m) as [c| |]; try done. cbn in *. by eapply IH.
Qed.

Lemma sweep_noop high st :
  (∀ u, is_Some (col_dirs (root st) !! u) → u ∈ live_uuids (cat st)) → sweep_orphans high st = (Ok tt, st).
Proof.
  intros Hlive. unfold sweep_orphans. mpure. unfold collection_dirs at 1. mpure.
  assert (Hus : Forall (λ u, u ∈ live_uuids (cat st)) (map_to_list (col_dirs (root st))).*1).
  { apply Forall_forall. intros u ([u' x] & -> & Hin)%list_elem_of_fmap. apply elem_of_map_to_list in Hin.
    apply Hlive. by eauto. }
  apply for_each_noop. eapply Forall_impl; [exact Hus|]. cbn. intros u Hu. by rewrite decide_True.
Qed.

(** A collection [c] as it is opened again, with the documents of [c']. *)
Definition reopened (l : list item) (K : string → Z) (dirs : gmap Uuid (option Index)) (n : string) (c c' : coll) : Prop :=
  a_uuid c = a_uuid c' ∧ a_mapping c = a_mapping c' ∧ 0 ≤ K n ≤ last_of l ∧ covers l n (K n) (a_docs c') ∧
  ∃ index, dirs !! a_uuid c' = Some (Some index) ∧ mark_at index (K n)
    ∧ col_rep {| col := from_index (a_uuid c') (a_mapping c') index; on_disk := index |} (a_mapping c')
        (a_docs c') (a_docs c').

Lemma reopen_db l j st g K :
  cat_tracked l j st g K → ∃ g', map_Forall2 (reopened l K (col_dirs (root st))) g g'.
Proof.
  intros Hct. apply map_choice. intros n c Hc. pose proof (replica_lookup _ _ _ _ n (ct_replica _ _ _ _ _ Hct)) as Hn.
  rewrite Hc in Hn. destruct Hn as (e & D & k & _ & (_ & _ & index & Hd & Hrep & Hk) & -> & Hb & HD & _).
  exists {| a_uuid := a_uuid c; a_mapping := a_mapping c; a_docs := D |}. do 4 (split; [done|]). exists index.
  split; [done|]. split; [done|]. apply col_rep_open; apply Hrep.
Qed.

(** Opening the collections of the snapshot file. *)
Lemma reopen_entries l j st g K f dirs g' :
  cat_tracked l j st g K → schema_saved f (db_of l) (last_of l) → dirs = col_dirs (root st) →
  map_Forall2 (reopened l K dirs) g g' →
  ∃ snap cols y, load_snapshot f = Ok snap
    ∧ open_entries dirs [] (v1.entries snap) ∅ (v1.applied_seq snap) = Ok (cols, y)
    ∧ ∀ n, option_Forall2 (λ e c', e_uuid e = a_uuid c' ∧ e_created_seq e ≤ last_of l
        ∧ ∃ index, dirs !! a_uuid c' = Some (Some index) ∧ e_collection e = from_index (a_uuid c') (a_mapping c') index)
        (cols !! n) (g' !! n).
Proof.
  intros Hct (d0 & k0 & z0 & Hz & Hsn & Hs0) -> Hg'.
  destruct (load_saved _ _ _ Hsn) as (snap & El & Ea & lst & Elst & Hnd & Hbase & Hb).
  assert (Hin : ∀ n c z, (n, c, z) ∈ lst → ∃ cg c', g !! n = Some cg ∧ g' !! n = Some c'
    ∧ reopened l K (col_dirs (root st)) n cg c' ∧ a_uuid c = a_uuid c' ∧ a_mapping c = a_mapping c').
  { intros n c z Hx. assert (Hc : d0 !! n = Some c) by (apply Hbase, list_elem_of_fmap; by exists (n, c, z)).
    destruct (same_schema_lookup d0 g n c) as (cg & Hcg & Eu & Em); [|done|].
    { etrans; [exact Hs0|]. symmetry. apply Hct. }
    specialize (Hg' n). rewrite Hcg in Hg'. inversion Hg' as [cg' c' Hre E1 E2|]; subst. exists cg, c'.
    destruct Hre as (? & ? & ?). split_and!; [done..|congruence|congruence]. }
  destruct (open_entries_ok (col_dirs (root st)) [] lst ∅ z0 Hnd Hb) as (cols & Eo & Hcols).
  { apply Forall_forall. intros [[n c] z] Hx _. cbn. destruct (Hin _ _ _ Hx) as (cg & c' & _ & _ & Hre & -> & ->).
    destruct Hre as (_ & _ & _ & _ & index & Hd & _ & Hrep). split; [apply Hrep|by eauto]. }
  destruct (open_entries_max _ _ _ _ _ (v1.applied_seq snap) _ _ Eo) as (y & Ey).
  exists snap, cols, y. rewrite Elst. do 2 (split; [done|]). intros n. specialize (Hcols n).
  destruct (cols !! n) as [e|] eqn:He.
  - destruct Hcols as [([[n' c] z] & Hx & <- & _ & index & Hd & ->)|Hc]; [|by rewrite lookup_empty in Hc]. cbn in *.
    destruct (Hin _ _ _ Hx) as (cg & c' & _ & -> & _ & Eu & Em). rewrite Forall_forall in Hb. specialize (Hb _ Hx). cbn in Hb.
    constructor. cbn. rewrite Eu, Em in *. split; [done|]. split; [lia|]. by exists index.
  - destruct Hcols as [_ Hn]. destruct (g' !! n) as [c'|] eqn:Hc'; [|constructor]. exfalso.
    specialize (Hg' n). rewrite Hc' in Hg'. inversion Hg' as [cg ? _ Hcg|]; subst.
    destruct (same_schema_lookup g d0 n cg) as (c & Hc & _); [|done|].
    { etrans; [apply Hct|]. by symmetry. }
    apply Hbase in Hc. assert (Hnn : n ∈ lst.*1.*1) by (apply list_elem_of_fmap; by exists (n, c)).
    by apply Hn, elem_of_nil in Hnn.
Qed.

(** A catalog whose collections are opened from the directories of [g']. *)
Lemma reopened_catalog l g g' K pos cst :
  same_schema g (db_of l) → inj_uuids g → map_Forall2 (reopened l K (col_dirs (root cst))) g g' →
  (∀ n, option_Forall2 (λ e c', e_uuid e = a_uuid c' ∧ e_created_seq e ≤ last_of l
     ∧ ∃ index, col_dirs (root cst) !! a_uuid c' = Some (Some index)
         ∧ e_collection e = from_index (a_uuid c') (a_mapping c') index) (collections (cat cst) !! n) (g' !! n)) →
  (∀ u, is_Some (col_dirs (root cst) !! u) → live g u) →
  idle_ok (idle_parts cst) → schema_saved (files (root cst)) (db_of l) (last_of l) →
  (∀ n, is_Some (db_of l !! n) → pos ≤ K n) → cat_tracked l pos cst g' K.
Proof.
  intros Hs0 Hi Hg' Hcols Hdirs Hidle Hsv Hpos.
  assert (Hs : same_schema g g') by (eapply map_Forall2_impl; [exact Hg'|]; by intros n c c' (? & ? & _)).
  split; [by etrans; [symmetry|]| |done|done].
  split; [|by eapply same_schema_inj|intros u Hu; by eapply same_schema_live, Hdirs].
  split; intros n; specialize (Hcols n); [|intros Hn; rewrite Hn in Hcols; by inversion Hcols].
  intros e He. rewrite He in Hcols. inversion Hcols as [? c' (Eu & Hz & index & Hd & Ee) E1 E2|]; subst.
  specialize (Hg' n). rewrite <-E2 in Hg'. inversion Hg' as [cg ? (_ & _ & Hb & HD & index' & Hd' & Hk & Hrep) Ecg|]; subst.
  exists c', (a_docs c'), (K n). rewrite Hd in Hd'. injection Hd' as <-. split; [done|]. split.
  - split; [done|]. split; [done|]. exists index. by rewrite Ee.
  - split; [done|]. split; [done|]. split; [done|]. rewrite Z.max_l; [done|]. apply Hpos.
    apply (same_schema_is_Some g (db_of l)); [done|]. by rewrite <-Ecg.
Qed.

Lemma reopen_load l j st g K d :
  cat_tracked l j st g K → crash_disk (disk_of st) d →
  sync = true ∨ keeps_catalog (files (root st)) (files (d_root d)) →
  ∃ cst a wd g', load_catalog d = (Ok (cst, a, []), {| d_root := d_root d; d_wal := wd |}) ∧ root cst = d_root d
    ∧ ∀ pos, (∀ n, is_Some (db_of l !! n) → pos ≤ K n) → cat_tracked l pos cst g' K.
Proof.
  intros Hct (Hcf & Hcd & Hcq & Hcw) Hkept. cbn in Hcf, Hcd, Hcq, Hcw. destruct (reopen_db _ _ _ _ _ Hct) as [g' Hg'].
  assert (Hsv : schema_saved (files (d_root d)) (db_of l) (last_of l)).
  { destruct (ct_saved _ _ _ _ _ Hct) as (d0 & k0 & z0 & ? & Hsn & ?). exists d0, k0, z0.
    split; [done|]. split; [|done]. by eapply saved_crash. }
  destruct (reopen_entries _ _ _ _ _ _ (col_dirs (d_root d)) g' Hct Hsv Hcd) as (snap & cols & y & El & Eo & Hcols);
    [by rewrite Hcd|].
  destruct (w_recover _ _ _ _ _ (proj1 (ct_idle _ _ _ _ _ Hct)) Hcw) as (w & es & Ew & Hw & Hes).
  assert (es = []) as ->.
  { destruct es as [|e es]; [done|]. destruct (w_seqs _ _ _ _ Hw) as (_ & Hsq & _). apply Forall_cons in Hsq as [He _].
    rewrite filter_cons_True in Hes by lia. done. }
  set (cst := {| cat := {| c_seq := y; c_wal := w; collections := cols |}; root := d_root d |}).
  eexists cst, _, _, g'. split; [unfold load_catalog; rewrite El, Ew; cbn; cbn in Eo; by rewrite Eo|]. split; [done|].
  intros pos. destruct Hct as [Hs0 [Hl0 Hi0 Hd0] Hid0 _]. apply (reopened_catalog l g); try done; cbn.
  - by rewrite Hcd.
  - by rewrite Hcd.
  - split; cbn; [done|]. rewrite Hcq. apply Hid0.
Qed.

(** The directories of an opened replica are those of its collections. *)
Lemma reopen_dirs l g' K cst u :
  (∀ pos, (∀ n, is_Some (db_of l !! n) → pos ≤ K n) → cat_tracked l pos cst g' K) →
  (∀ n, is_Some (db_of l !! n) → 0 ≤ K n) → is_Some (col_dirs (root cst) !! u) → u ∈ live_uuids (cat cst).
Proof. intros Hct HK Hu. destruct (Hct 0 HK) as [_ [Hl _ Hd] _ _]. by apply (loaded_live _ _ _ _ u Hl), Hd. Qed.

Lemma tracked_committed l j st g K n :
  cat_tracked l j st g K → is_Some (g !! n) → committed_at st n (K n) ∧ 0 ≤ K n.
Proof.
  intros Hct [c Hc]. pose proof (replica_lookup _ _ _ _ n (ct_replica _ _ _ _ _ Hct)) as Hn. rewrite Hc in Hn.
  destruct Hn as (e & D & k & He & (Eu & _ & index & Hd & _ & Hk) & -> & ? & _).
  split; [|lia]. exists e, index. by rewrite Eu.
Qed.

Lemma tracked_marks l j st g K n : cat_tracked l j st g K → is_Some (db_of l !! n) → 0 ≤ K n.
Proof. intros Hct Hn. eapply tracked_committed; [exact Hct|]. by eapply same_schema_is_Some, Hn; apply Hct. Qed.

Lemma reopen_ok l j st g K d :
  cat_tracked l j st g K → crash_disk (disk_of st) d →
  sync = true ∨ keeps_catalog (files (root st)) (files (d_root d)) →
  ∃ cst g', catalog_open d = (Ok cst, disk_of cst)
    ∧ ∀ pos, (∀ n, is_Some (db_of l !! n) → pos ≤ K n) → cat_tracked l pos cst g' K.
Proof.
  intros Hct Hcd Hkept. destruct (reopen_load _ _ _ _ _ _ Hct Hcd Hkept) as (cst & a & wd & g' & El & _ & Hct').
  exists cst, g'. split; [|done]. unfold catalog_open. rewrite El. unfold open_tail. mpure. mpure.
  erewrite M_bind_Ok; [|apply sweep_noop]; [done|]. intros u. eapply reopen_dirs; [done|].
  intros n. by eapply tracked_marks.
Qed.

(** The least commit of the collections. *)
Lemma tracked_position l j st g K :
  cat_tracked l j st g K →
  ∃ o, min_committed_mark st = (Ok o, st)
    ∧ let pos := from_option mark_index (-1) o in
      (∀ n, is_Some (db_of l !! n) → pos ≤ K n) ∧ (o = None ∧ db_of l = ∅ ∨ ∃ n, is_Some (db_of l !! n) ∧ K n = pos).
Proof.
  intros Hct. pose proof (ct_schema _ _ _ _ _ Hct) as Hs.
  destruct (min_committed_ok _ _ _ _ (ct_replica _ _ _ _ _ Hct)) as (o & E & Ho). exists o. split; [done|].
  destruct o as [m|]; cbn.
  - destruct Ho as [Hall (n & Hn & Hat)]. split.
    + intros n' Hn'. eapply Hall, tracked_committed; [done|]. by eapply same_schema_is_Some.
    + right. exists n. split; [by eapply same_schema_is_Some|]. eapply committed_at_unique; [|done].
      by eapply tracked_committed.
  - subst g. apply map_Forall2_empty_inv_l in Hs as E0. rewrite E0. split; [|by left]. by intros n [? ?%lookup_empty_Some].
Qed.

(** The directory [raft/]: the membership file as the state machine left it, and the
    files of the log store. *)
Definition raft_dir_of (st : SmSt) (dm : dir) : Prop := dm !! MEMBERSHIP_FILE = meta_dir st !! MEMBERSHIP_FILE.

(** A restart on a catalog that has been opened: the reported position is not past the
    applied one, and the replica is ready to be handed what follows. *)
Lemma restart_from l j st K dm md cst g' :
  committed_log ∅ (-1) l → -1 ≤ j ≤ last_of l → db_of l = ∅ ∨ (∃ n, is_Some (db_of l !! n) ∧ K n ≤ j) →
  membership_ok (meta_dir st) (sm_membership (sm_state st)) →
  (no_members (after j l) → sm_membership (sm_state st) = members_of l) → raft_dir_of st dm → crash dm md →
  (∀ n, is_Some (db_of l !! n) → 0 ≤ K n) →
  (∀ pos, (∀ n, is_Some (db_of l !! n) → pos ≤ K n) → cat_tracked l pos cst g' K) →
  ∃ st' o, sm_open cst md = Ok st'
    ∧ applied_state st' = (Ok (o, sm_membership (sm_state st)), st') ∧ -1 ≤ reported_index o ≤ j
    ∧ (no_drops (after (reported_index o) l) → tracked l (reported_index o) st' g' K).
Proof.
  intros Hl Hp Hlow Hf Hm Hdm Hcm HK Hct'.
  assert (Hf1 : membership_ok dm (sm_membership (sm_state st))).
  { unfold raft_dir_of in Hdm. destruct Hf as [[Hn ?]|(f & Hn & ?)]; [left|right; exists f]; by rewrite Hdm. }
  destruct (load_membership_crash _ _ _ Hf1 Hcm) as [Em Hf'].
  destruct (tracked_position _ _ _ _ _ (Hct' 0 HK)) as (o & Eo & Hpos & Ho).
  set (st' := {| sm_catalog := cst; meta_dir := md; sm_state := {| last_applied := None;
                   sm_membership := sm_membership (sm_state st); sm_snapshot := None |} |}).
  exists st', (to_log_id <$> o). split; [unfold sm_open; by rewrite Em|].
  split; [rewrite (applied_state_run st' o Eo); by destruct o|].
  assert (Er : reported_index (to_log_id <$> o) = from_option mark_index (-1) o) by (by destruct o). rewrite Er.
  set (pos := from_option mark_index (-1) o) in *.
  assert (Hb : -1 ≤ pos ≤ j ∧ (db_of l = ∅ ∨ ∃ n, is_Some (db_of l !! n) ∧ K n ≤ pos)).
  { destruct Ho as [[-> E0]|(n & Hn & En)]; [cbn in pos; subst pos; split; [lia|by left]|].
    pose proof (HK n Hn). split; [|right; exists n; split; [done|lia]]. split; [lia|].
    destruct Hlow as [E0|(n' & Hn' & Hle)]; [rewrite E0 in Hn; by destruct Hn as [? ?%lookup_empty_Some]|].
    specialize (Hpos n' Hn'). lia. }
  destruct Hb as [Hb Hlow']. split; [done|]. intros Hnd'.
  split; [done|lia|done|by apply Hct'|done|cbn; lia|done|]. intros Hm'. apply Hm. eapply Forall_after, Hm'. lia.
Qed.

(** A crash at any time and a restart: everything opens. *)
Lemma tracked_restart l j st g K d dm md :
  tracked l j st g K → crash_disk (disk_of (sm_catalog st)) d → raft_dir_of st dm → crash dm md →
  sync = true ∨ keeps_catalog (files (root (sm_catalog st))) (files (d_root d)) →
  ∃ cst st' o, catalog_open d = (Ok cst, disk_of cst) ∧ sm_open cst md = Ok st'
    ∧ applied_state st' = (Ok (o, sm_membership (sm_state st)), st') ∧ -1 ≤ reported_index o ≤ j
    ∧ (no_drops (after (reported_index o) l) → ∃ g', tracked l (reported_index o) st' g' K).
Proof.
  intros [Hl Hp Hnd Hct Hlow Hla Hf Hm] Hcd Hdm Hcm Hkept.
  destruct (reopen_ok _ _ _ _ _ _ Hct Hcd Hkept) as (cst & g' & Ec & Hct').
  destruct (restart_from l j st K dm md cst g') as (st' & o & Es & Ea & Hb & Ht); [done..|intros n; by eapply tracked_marks|done|].
  exists cst, st', o. do 4 (split; [done|]). intros Hd. exists g'. by apply Ht.
Qed.

(** Handing the entries after the reported position to the replica. *)
Lemma tracked_catch_up l r : ∀ j st g K,
  tracked l j st g K → after j l = r →
  ∃ rs st' g', apply (entry_of <$> r) st = (Ok rs, st') ∧ tracked l (last_of l) st' g' K.
Proof.
  induction r as [|x r IH]; intros j st g K Ht Ea.
  - exists [], st, g. split; [done|]. destruct (tk_pos _ _ _ _ _ Ht).
    by rewrite <-(after_nil l j (tk_log _ _ _ _ _ Ht)).
  - destruct (tracked_replay _ _ _ _ _ _ _ Ht Ea) as (resp & st1 & g1 & E1 & Ht1).
    destruct (after_next l j x r (tk_log _ _ _ _ _ Ht) Ea) as (_ & _ & _ & _ & _ & Er).
    destruct (IH _ _ _ _ Ht1 Er) as (rs & st2 & g2 & E2 & Ht2). exists (resp :: rs), st2, g2.
    split; [|done]. cbn [fmap list_fmap apply]. by rewrite (M_bind_Ok _ _ _ _ _ E1), (M_bind_Ok _ _ _ _ _ E2).
Qed.

End tracked.

(** ** Histories of a replica *)

(** A state machine on empty directories. *)
Definition started (st : SmSt) : Prop :=
  ∃ cst, catalog_open empty_disk = (Ok cst, disk_of cst) ∧ sm_open cst ∅ = Ok st.

(** The log applied so far, the position since the last start, and the state. *)
Record replica_state := { rs_log : list item; rs_pos : Z; rs_sm : SmSt }.

(** openraft hands over a new entry, or one that was applied before the last
    restart; a read commits a collection or the checkpoint loop commits all of them
    at a position that has been applied, not necessarily the last; the process is
    killed, at rest or in the middle of commits and file writes ([killed_in]), and
    started again.  Nothing is dropped after the position a restart reports.  With
    [sync] the catalog file was written by the node itself, which syncs it; without,
    it may come from a snapshot, and its bytes survive by assumption. *)
Inductive replica_step (sync : bool) : replica_state → replica_state → Prop :=
| StepApply l st x r st' :
    committed_log (db_of l) (last_of l) [x] → apply_entry (entry_of x) st = (Ok r, st') →
    replica_step sync {| rs_log := l; rs_pos := last_of l; rs_sm := st |}
                 {| rs_log := l ++ [x]; rs_pos := openraft.index x.1; rs_sm := st' |}
| StepReplay l j st x rest r st' :
    after j l = x :: rest → apply_entry (entry_of x) st = (Ok r, st') →
    replica_step sync {| rs_log := l; rs_pos := j; rs_sm := st |}
                 {| rs_log := l; rs_pos := openraft.index x.1; rs_sm := st' |}
| StepCommit l j st n mark cst :
    is_Some (db_of l !! n) → 0 ≤ mark_index mark ≤ j →
    commit_collection n mark (sm_catalog st) = (Ok tt, cst) →
    replica_step sync {| rs_log := l; rs_pos := j; rs_sm := st |}
                 {| rs_log := l; rs_pos := j; rs_sm := with_catalog st cst |}
| StepCheckpoint l j st mark cst :
    0 ≤ mark_index mark ≤ j → checkpoint_applied mark (sm_catalog st) = (Ok tt, cst) →
    replica_step sync {| rs_log := l; rs_pos := j; rs_sm := st |}
                 {| rs_log := l; rs_pos := j; rs_sm := with_catalog st cst |}
| StepRestart l j st st1 d dm md cst st' o m :
    killed_in j st st1 → crash_disk (disk_of (sm_catalog st1)) d → raft_dir_of st1 dm → crash dm md →
    sync = true ∨ keeps_catalog (files (root (sm_catalog st1))) (files (d_root d)) →
    catalog_open d = (Ok cst, disk_of cst) → sm_open cst md = Ok st' →
    applied_state st' = (Ok (o, m), st') → no_drops (after (reported_index o) l) →
    replica_step sync {| rs_log := l; rs_pos := j; rs_sm := st |}
                 {| rs_log := l; rs_pos := reported_index o; rs_sm := st' |}.

Definition run_of (st : SmSt) : replica_state → Prop :=
  rtc (replica_step true) {| rs_log := []; rs_pos := -1; rs_sm := st |}.

Lemma started_tracked sync st : started st → tracked sync ∅ [] (-1) st ∅ (λ _, 0).
Proof.
  intros (cst & Ec & Es). destruct w_open_empty as (w & Ew & Hw).
  set (cst0 := {| cat := {| c_seq := 0; c_wal := w; collections := ∅ |}; root := empty_root |}).
  assert (E0 : catalog_open empty_disk = (Ok cst0, disk_of cst0)).
  { assert (El : load_snapshot ∅ = Ok v1.CatalogSnapshot_default) by done.
    unfold catalog_open, load_catalog. cbn. rewrite El, Ew. cbn. unfold open_tail. mpure. mpure. fold cst0.
    erewrite M_bind_Ok; [|apply sweep_noop]; [done|]. cbn. by intros u [? ?%lookup_empty_Some]. }
  rewrite Ec in E0. injection E0 as ->. unfold sm_open in Es.
  assert (Em : load_membership ∅ = Ok StoredMembership_default) by done. rewrite Em in Es. injection Es as <-.
  split; cbn; [done|done|constructor| |by left|done|by left|done].
  split; [done| |done|].
  - split; cbn; [split; cbn|by intros ???? ?%lookup_empty_Some|by intros ? [? ?%lookup_empty_Some]];
      [by intros ?? ?%lookup_empty_Some|done].
  - exists ∅, 0, (-1). split; [done|]. split; [|done]. left. split; [done|]. split; [done|]. exists [].
    split; [done|]. split; [constructor|]. split; [|done]. cbn.
    intros n c. split; [by intros ?%lookup_empty_Some|by intros ?%elem_of_nil].
Qed.

Lemma step_tracked sync quar s s' :
  replica_step sync s s' → (∃ g K, tracked sync quar (rs_log s) (rs_pos s) (rs_sm s) g K) →
  ∃ g K, tracked sync quar (rs_log s') (rs_pos s') (rs_sm s') g K.
Proof.
  intros Hs (g & K & Ht). destruct Hs as [l st x r st' Hx E|l j st x rest r st' Ea E|l j st n mark cst Hn Hm E|
    l j st mark cst Hm E|l j st st1 d dm md cst st' o m Hki Hcd Hdm Hcm Hkept Ec Es Ea Hnd]; cbn in *.
  - destruct (tracked_apply _ _ _ _ _ _ _ Ht Hx) as (r' & st2 & g' & K' & E' & Ht'). rewrite E in E'.
    injection E' as <- <-. by exists g', K'.
  - destruct (tracked_replay _ _ _ _ _ _ _ _ _ Ht Ea) as (r' & st2 & g' & E' & Ht'). rewrite E in E'.
    injection E' as <- <-. by exists g', K.
  - destruct (tracked_commit _ _ l j st g K n mark Ht Hn ltac:(lia)) as (cst' & K' & E' & Ht' & _). rewrite E in E'.
    injection E' as <-. by exists g, K'.
  - destruct (tracked_checkpoint _ _ _ _ _ _ _ _ Ht Hm) as (cst' & K' & E' & Ht'). rewrite E in E'.
    injection E' as <-. by exists g, K'.
  - destruct (tracked_killed _ _ _ _ _ _ _ _ Ht Hki) as [K1 Ht1].
    destruct (tracked_restart _ _ _ _ _ _ _ _ _ _ Ht1 Hcd Hdm Hcm Hkept) as (cst' & st2 & o' & Ec' & Es' & Ea' & _ & Ht').
    rewrite Ec in Ec'. injection Ec' as <-. rewrite Es in Es'. injection Es' as <-. rewrite Ea in Ea'.
    injection Ea' as <- _. destruct (Ht' Hnd) as [g' Hg']. by exists g', K1.
Qed.

Lemma run_tracked st s :
  started st → run_of st s → ∃ g K, tracked true ∅ (rs_log s) (rs_pos s) (rs_sm s) g K.
Proof.
  intros Hst Hrun. unfold run_of in Hrun. remember {| rs_log := []; rs_pos := -1; rs_sm := st |} as s0 eqn:E0.
  assert (Ht : ∃ g K, tracked true ∅ (rs_log s0) (rs_pos s0) (rs_sm s0) g K)
    by (subst s0; cbn; eauto using started_tracked).
  clear E0. induction Hrun as [|s0 s1 s2 Hs _ IH]; [done|]. by eapply IH, step_tracked.
Qed.

Lemma run_checkpoint st l j st1 mark cst :
  run_of st {| rs_log := l; rs_pos := j; rs_sm := st1 |} → 0 ≤ mark_index mark ≤ j →
  checkpoint_applied mark (sm_catalog st1) = (Ok tt, cst) →
  run_of st {| rs_log := l; rs_pos := j; rs_sm := with_catalog st1 cst |}.
Proof. intros Hrun Hm E. eapply rtc_r; [exact Hrun|]. by eapply StepCheckpoint. Qed.

(** A replica at the end of its log accepts what is committed next. *)
Lemma run_apply st xs : ∀ l st1,
  started st → run_of st {| rs_log := l; rs_pos := last_of l; rs_sm := st1 |} →
  committed_log (db_of l) (last_of l) xs →
  ∃ rs st2, apply (entry_of <$> xs) st1 = (Ok rs, st2)
    ∧ run_of st {| rs_log := l ++ xs; rs_pos := last_of (l ++ xs); rs_sm := st2 |}.
Proof.
  induction xs as [|x xs IH]; intros l st1 Hst Hrun Hxs; [exists [], st1; by rewrite app_nil_r|].
  apply (committed_log_app [x] xs) in Hxs as [Hx Hxs]. destruct (run_tracked st _ Hst Hrun) as (g & K & Ht). cbn in Ht.
  destruct (tracked_apply _ _ _ _ _ _ _ Ht Hx) as (r & st' & _ & _ & E & _).
  destruct (IH (l ++ [x]) st' Hst) as (rs & st2 & E2 & Hrun2).
  - eapply rtc_r; [exact Hrun|]. rewrite last_of_app. by eapply StepApply.
  - by rewrite db_of_app, last_of_app.
  - exists (r :: rs), st2. rewrite <-app_assoc in Hrun2. split; [|done].
    cbn [fmap list_fmap apply]. by rewrite (M_bind_Ok _ _ _ _ _ E), (M_bind_Ok _ _ _ _ _ E2).
Qed.

(** A replica that is handed the rest of its log catches up. *)
Lemma run_catch_up st l r : ∀ j st1,
  started st → run_of st {| rs_log := l; rs_pos := j; rs_sm := st1 |} → after j l = r →
  ∃ rs st2, apply (entry_of <$> r) st1 = (Ok rs, st2)
    ∧ run_of st {| rs_log := l; rs_pos := last_of l; rs_sm := st2 |}.
Proof.
  induction r as [|x r IH]; intros j st1 Hst Hrun Ea; destruct (run_tracked st _ Hst Hrun) as (g & K & Ht); cbn in Ht.
  { exists [], st1. split; [done|]. by rewrite <-(after_nil l j (tk_log _ _ _ _ _ _ _ Ht) (tk_pos _ _ _ _ _ _ _ Ht) Ea). }
  destruct (tracked_replay _ _ _ _ _ _ _ _ _ Ht Ea) as (resp & st' & _ & E & _).
  destruct (after_next l j x r (tk_log _ _ _ _ _ _ _ Ht) Ea) as (_ & _ & _ & _ & _ & Er).
  destruct (IH (openraft.index x.1) st' Hst) as (rs & st2 & E2 & Hrun2); [|done|].
  - eapply rtc_r; [exact Hrun|]. by eapply StepReplay.
  - exists (resp :: rs), st2. split; [|done].
    cbn [fmap list_fmap apply]. by rewrite (M_bind_Ok _ _ _ _ _ E), (M_bind_Ok _ _ _ _ _ E2).
Qed.
End ReplicaRestart.
