(* ===== verification/ReplicaSnapshot.v ===== *)
(** * Replicas: snapshots

    A snapshot of a replica is an archive of what its collections have committed, with
    the least of their positions.  Installed on another replica it gives a state that
    is [tracked] at that position: the entries after it are applied on top of
    collections that may already hold some of their effects, as after a restart. *)

From S2P Require Import Prelude Bytes CoreError FileSys Proto External Mapping Document IndexApi Collection.
From S2P Require Import CollectionSpec WalInterface Catalog CatalogSpec CatalogRel CatalogCommit CatalogOpen CatalogOps.
From S2P Require Import CatalogCalls CatalogSnapshots Conversions LogStore StateMachine ReplicaSpec StateMachineCorrect.
From S2P Require Import ReplicaLog ReplicaRestart.

Open Scope Z_scope.

Section ReplicaSnapshot.
Context `{Json} `{Rfc3339} `{TantivySchema} `{!TantivyIndex} `{!MarkJson} `{UuidApi}.
Context `{WriteAheadLog} `{!Codec v1.CatalogSnapshot}.
Context `{openraft.MembershipApi} `{!Codec raft.StoredMembership}.

Abbreviation item := (openraft.LogId * content)%type.

(** The position a snapshot claims. *)
Definition snap_pos (meta : openraft.SnapshotMeta) : Z := reported_index (openraft.last_log_id meta).

(** A snapshot built by a replica that had applied the log [l]. *)
Definition snapshot_at (l : list item) (meta : openraft.SnapshotMeta) (tar : archive) : Prop :=
  ∃ sync quar j st st' g K, tracked sync quar l j st g K ∧ sm_build_snapshot st = (Ok (meta, tar), st').

(** ** Building *)

Lemma tracked_housed sync quar l j st g K : cat_tracked sync quar l j st g K → housed st.
Proof. intros [_ [Hl Hi _] _ _]. by eapply loaded_housed. Qed.

(** Building changes the current archive and the metadata of the snapshot only. *)
Definition with_snapshot (st : SmSt) (meta : openraft.SnapshotMeta) (tar : archive) : SmSt :=
  {| sm_catalog := {| cat := cat (sm_catalog st); root := set_current_tar (Some tar) (root (sm_catalog st)) |};
     meta_dir := meta_dir st; sm_state := set_snapshot (Some meta) (sm_state st) |}.

Lemma tracked_with_snapshot sync quar l j st g K meta tar :
  tracked sync quar l j st g K → tracked sync quar l j (with_snapshot st meta tar) g K.
Proof.
  intros [Hl Hp Hnd [Hs [[Ho Hn] Hi Hd] Hw Hsv] Hlow Hla Hf Hm]. by split.
Qed.

(** What is known of a snapshot that a replica has built. *)
Lemma build_run sync quar l j st g K :
  tracked sync quar l j st g K →
  ∃ meta, sm_build_snapshot st
      = (Ok (meta, archive_of (sm_catalog st)), with_snapshot st meta (archive_of (sm_catalog st)))
    ∧ openraft.last_membership meta = sm_membership (sm_state st)
    ∧ -1 ≤ snap_pos meta ≤ j ∧ (∀ n, is_Some (db_of l !! n) → snap_pos meta ≤ K n)
    ∧ (db_of l = ∅ ∨ ∃ n, is_Some (db_of l !! n) ∧ K n ≤ snap_pos meta).
Proof.
  intros Ht. pose proof (tk_cat _ _ _ _ _ _ _ Ht) as Hct.
  pose proof (build_snapshot_ok _ (tracked_housed _ _ _ _ _ _ _ Hct)) as Eb.
  set (tar := archive_of (sm_catalog st)) in *.
  assert (Hct1 : cat_tracked sync quar l j (sm_catalog (with_snapshot st {| openraft.last_log_id := None;
    openraft.last_membership := sm_membership (sm_state st); openraft.snapshot_id := "" |} tar)) g K)
    by (apply (tracked_with_snapshot sync quar l j st g K _ tar), Ht).
  destruct (tracked_position _ _ _ _ _ _ _ Hct1) as (o & Eo & Hpos & Ho).
  set (last := match o with Some mark => Some (to_log_id mark) | None => last_applied (sm_state st) end).
  exists {| openraft.last_log_id := last; openraft.last_membership := sm_membership (sm_state st);
            openraft.snapshot_id := snapshot_id last |}.
  split; [|split; [done|]].
  { unfold sm_build_snapshot. erewrite M_bind_Ok; [|eapply on_catalog_ok; exact Eb]. unfold applied_log_id.
    rewrite M_bind_assoc. erewrite M_bind_Ok; [|eapply on_catalog_ok; exact Eo]. done. }
  assert (HK : ∀ n, is_Some (db_of l !! n) → 0 ≤ K n).
  { intros n Hn. eapply tracked_committed; [exact Hct|]. by eapply same_schema_is_Some, Hn; apply Hct. }
  unfold snap_pos. cbn [openraft.last_log_id]. destruct Ho as [[-> E0]|(n & Hn & En)].
  - split; [apply Ht|]. split; [|by left]. rewrite E0. by intros n [? ?%lookup_empty_Some].
  - assert (El : reported_index last = from_option mark_index (-1) o).
    { unfold last. destruct o; [done|]. cbn in En. specialize (HK n Hn). lia. }
    rewrite El. pose proof (HK n Hn). split; [|split; [done|]; right; exists n; split; [done|lia]]. split; [lia|].
    destruct (tk_low _ _ _ _ _ _ _ Ht) as [E0|(n' & Hn' & Hle)];
      [rewrite E0 in Hn; by destruct Hn as [? ?%lookup_empty_Some]|]. specialize (Hpos n' Hn'). lia.
Qed.

Lemma tracked_build sync quar l j st g K :
  tracked sync quar l j st g K →
  ∃ meta tar st', sm_build_snapshot st = (Ok (meta, tar), st') ∧ tracked sync quar l j st' g K.
Proof.
  intros Ht. destruct (build_run _ _ _ _ _ _ _ Ht) as (meta & E & _). eexists _, _, _. split; [exact E|].
  by apply tracked_with_snapshot.
Qed.

(** The directories of an archive are those of live collections. *)
Lemma archive_live sync quar l j st g K u :
  cat_tracked sync quar l j st g K → is_Some (ar_cols (archive_of st) !! u) ↔ live (db_of l) u.
Proof.
  intros Hct. pose proof (tracked_housed _ _ _ _ _ _ _ Hct) as Hh. pose proof (ct_schema _ _ _ _ _ _ _ Hct) as Hs.
  pose proof (ct_replica _ _ _ _ _ _ _ Hct) as Hr. split.
  - intros [i (n & e & He & <- & _)%staged_lookup]; [|done].
    destruct (lo_some _ _ _ _ (rp_loaded _ _ _ _ Hr) n e He) as (c & _ & _ & Hc & (Eu & _) & _).
    eapply same_schema_live; [exact Hs|]. by exists n, c.
  - intros Hl%(same_schema_live (db_of l) g); [|by symmetry]. destruct Hl as (n & c & Hc & <-).
    pose proof (replica_lookup _ _ _ _ n Hr) as Hn. rewrite Hc in Hn. destruct Hn as (e & _ & _ & He & (<- & _) & _).
    cbn. rewrite (staged_live _ _ _ Hh He). by eauto.
Qed.

(** ** Installing *)

Lemma reopened_dirs l K dirs dirs' (g g' : gmap string coll) :
  (∀ n c, g !! n = Some c → dirs' !! a_uuid c = dirs !! a_uuid c) →
  map_Forall2 (reopened l K dirs) g g' → map_Forall2 (reopened l K dirs') g g'.
Proof.
  intros Hd Hg n. specialize (Hg n). specialize (Hd n). destruct Hg as [c c' Hr|]; constructor.
  specialize (Hd c eq_refl). destruct Hr as (Eu & Em & Hb & HD & i & Hi & ?). do 4 (split; [done|]).
  exists i. rewrite <-Eu, Hd, Eu. done.
Qed.

(** The catalog after an install. *)
Lemma install_catalog sync quar l j st g K stB pos :
  cat_tracked sync quar l j st g K → w_rel (c_wal (cat stB)) [] (-1) 0 → not_quarantined stB (archive_of st) →
  (∀ n, is_Some (db_of l !! n) → pos ≤ K n) →
  ∃ st' g', install_snapshot (archive_of st) stB = (Ok tt, st')
    ∧ cat_tracked false (quarantined (root st')) l pos st' g' K
    ∧ (∀ u s, is_Some (quarantined (root st') !! (u, s)) →
         is_Some (quarantined (root stB) !! (u, s)) ∨ is_Some (col_dirs (root stB) !! u) ∧ ¬ live (db_of l) u).
Proof.
  intros Hct Hw Hq Hpos. pose proof (tracked_housed _ _ _ _ _ _ _ Hct) as Hh.
  destruct (install_snapshot_ok st stB Hh Hq) as (st' & Ei & Ecol & Ew & Hdirs & Ef & _ & Hnew).
  destruct (reopen_db _ _ _ _ _ _ _ Hct) as [g' Hg']. exists st', g'. split; [done|]. split.
  2: { intros u s [?|[? Hs]]%Hnew; [by left|right]. split; [done|]. intros Hl.
       eapply (archive_live _ _ _ _ _ _ _ u Hct) in Hl as [i Hi]. cbn in Hi. congruence. }
  pose proof (ct_replica _ _ _ _ _ _ _ Hct) as Hr. pose proof (ct_schema _ _ _ _ _ _ _ Hct) as Hs.
  assert (Hd : ∀ n c, g !! n = Some c → col_dirs (root st') !! a_uuid c = col_dirs (root st) !! a_uuid c).
  { intros n c Hc. pose proof (replica_lookup _ _ _ _ n Hr) as Hn. rewrite Hc in Hn.
    destruct Hn as (e & _ & _ & He & (<- & _) & _). by rewrite Hdirs, (staged_live _ _ _ Hh He), (ho_dir _ Hh n e He). }
  apply (reopened_dirs _ _ _ _ _ _ Hd) in Hg' as Hg2.
  apply (reopened_catalog false (quarantined (root st')) l g); try done.
  - apply Hr.
  - intros n. rewrite Ecol. unfold transferred_cols. rewrite lookup_fmap. specialize (Hg2 n).
    pose proof (replica_lookup _ _ _ _ n Hr) as Hn. destruct (g !! n) as [c|] eqn:Hc; inversion Hg2 as [? c' Hre|]; subst;
      [|rewrite Hn; constructor].
    destruct Hn as (e & D & k & He & (Eu & Hz & index & Hi & Hrep & _) & _). rewrite He. constructor. cbn.
    destruct Hre as (Eu' & Em' & _ & _ & index' & Hi' & _). split; [congruence|]. split; [done|]. exists index'.
    split; [done|]. rewrite <-Eu', (Hd n c Hc), Hi in Hi'. injection Hi' as <-.
    pose proof (cr_mapping _ _ _ _ Hrep) as Em. cbn in Em. pose proof (cr_reader _ _ _ _ Hrep) as Er. cbn in Er.
    unfold transferred. cbn. congruence.
  - intros u Hu. apply (same_schema_live (db_of l) g); [by symmetry|].
    eapply (archive_live _ _ _ _ _ _ _ u Hct). cbn. rewrite Hdirs in Hu. by apply fmap_is_Some in Hu.
  - split; cbn; [by rewrite Ew|done].
  - exists g, (c_seq (cat st)), (last_of l). split; [done|]. split; [|done]. right.
    eexists _, _. rewrite Ef, lookup_insert_eq. split; [done|]. split; [done|]. split; [done|].
    eapply snapshot_proto_rep, Hr.
Qed.

(** A replica after an install is one that has been restarted at the position of the
    snapshot. *)
Lemma tracked_install l meta tar stB :
  snapshot_at l meta tar → w_rel (c_wal (cat (sm_catalog stB))) [] (-1) 0 → not_quarantined (sm_catalog stB) tar →
  ∃ st' g' K, sm_install_snapshot meta tar stB = (Ok tt, st')
    ∧ (no_drops (after (snap_pos meta) l) →
       tracked false (quarantined (root (sm_catalog st'))) l (snap_pos meta) st' g' K)
    ∧ (∀ u s, is_Some (quarantined (root (sm_catalog st')) !! (u, s)) →
         is_Some (quarantined (root (sm_catalog stB)) !! (u, s))
         ∨ is_Some (col_dirs (root (sm_catalog stB)) !! u) ∧ ¬ live (db_of l) u).
Proof.
  intros (sync & quar & j & st & st1 & g & K & Ht & Eb) Hw Hq.
  destruct (build_run _ _ _ _ _ _ _ Ht) as (meta' & Eb' & Emem & Hb & Hpos & Hlow). rewrite Eb in Eb'.
  injection Eb' as <- -> _. destruct Ht as [Hl Hp Hnd Hct _ _ _ Hm].
  destruct (install_catalog _ _ _ _ _ _ _ _ (snap_pos meta) Hct Hw Hq Hpos) as (cst & g' & Ei & Hct' & Hnew).
  set (st2 := {| sm_catalog := cst; meta_dir := meta_dir stB; sm_state := sm_state stB |}).
  destruct (persist_membership_ok (openraft.last_membership meta) st2) as (d' & Ep & Hd').
  eexists _, g', K. split; [|split].
  - unfold sm_install_snapshot. erewrite M_bind_Ok; [|eapply on_catalog_ok; exact Ei].
    rewrite (M_bind_Ok _ _ _ _ _ Ep). done.
  - intros Hnd'. split; [done|lia|done|done|done| |done|].
    + change (-1 ≤ snap_pos meta ≤ snap_pos meta). lia.
    + cbn. rewrite Emem. intros Hm'. apply Hm. eapply Forall_after, Hm'. lia.
  - done.
Qed.
End ReplicaSnapshot.
