(* ===== verification/RestartCorrect.v ===== *)
(** * Replicas: restarts are correct

    A replica of the cluster, killed at any time and any number of times, ends up
    with the database of the committed log, as one that was never stopped. *)

From S2P Require Import Prelude Bytes CoreError FileSys SegmentedLog LogCorrect Proto External Samples SampleCodecs.
From S2P Require Import Mapping Document IndexApi Collection SampleIndex CollectionSpec WalInterface Wal Catalog.
From S2P Require Import CatalogSpec CatalogRel CatalogCommit CatalogOpen CatalogOps CatalogHistory CatalogCorrect Conversions LogStore SampleRaft.
From S2P Require Import StateMachine ReplicaSpec StateMachineCorrect ReplicaLog ReplicaRestart.

Open Scope Z_scope.

Section RestartCorrect.
Context `{Json} `{Rfc3339} `{TantivySchema} `{!TantivyIndex} `{!MarkJson} `{UuidApi}.
Context `{WriteAheadLog} `{!Codec v1.CatalogSnapshot}.
Context `{openraft.MembershipApi} `{!Codec raft.StoredMembership}.

(** C14: After every [run_of], that is any sequence of entries whose commands are valid
    where they stand, commits at positions already applied, kills at rest, in a checkpoint
    or in the membership write, restarts that report a position after which the log has no
    drop, and replays cut short, a replica that has caught up with its log holds exactly
    the log's database and membership, and applies every continuation of valid commands. *)
Theorem caught_up_is_current st s xs :
  started st → run_of st s → rs_pos s = last_of (rs_log s) →
  committed_log (db_of (rs_log s)) (last_of (rs_log s)) xs →
  sm_rel (rs_sm s) (db_of (rs_log s)) (last_of (rs_log s)) (members_of (rs_log s))
  ∧ ∃ rs st', apply (entry_of <$> xs) (rs_sm s) = (Ok rs, st')
    ∧ sm_rel st' (db_of (rs_log s ++ xs)) (last_of (rs_log s ++ xs)) (members_of (rs_log s ++ xs)).
Proof.
  intros Hst Hrun Hpos Hxs. destruct s as [l j st1]. cbn in *. subst j.
  destruct (run_tracked _ _ Hst Hrun) as (g & K & Ht). split; [by eapply tracked_sm_rel|].
  destruct (run_apply st xs l st1 Hst Hrun Hxs) as (rs & st' & E & Hrun'). exists rs, st'. split; [done|].
  destruct (run_tracked _ _ Hst Hrun') as (g' & K' & Ht'). by eapply tracked_sm_rel.
Qed.

(** C13: A replica that has only applied entries, committed and restarted ([run_of]) is
    killed at rest, between the commits or in the file write of a checkpoint, or in the
    write of the membership file: it opens again and reports a position not past what it
    had applied, and if no collection is dropped in the log after that position, applying
    the entries after it again succeeds and leaves the database and membership of the
    whole log, although the indexes already held some of their effects. The commands of
    the log are valid where they stand. Kills inside [apply_create] and [apply_drop] are
    not covered ([interrupted_create_restarts], [interrupted_drop_blocks_replica]). *)
Theorem restart_catches_up st s sm d dm md :
  started st → run_of st s → killed_in (rs_pos s) (rs_sm s) sm →
  crash_disk (disk_of (sm_catalog sm)) d → raft_dir_of sm dm → crash dm md →
  ∃ cst st' o m, catalog_open d = (Ok cst, disk_of cst) ∧ sm_open cst md = Ok st'
    ∧ applied_state st' = (Ok (o, m), st') ∧ -1 ≤ reported_index o ≤ rs_pos s
    ∧ (no_drops (after (reported_index o) (rs_log s)) →
       ∃ rs st'', apply (entry_of <$> after (reported_index o) (rs_log s)) st' = (Ok rs, st'')
         ∧ sm_rel st'' (db_of (rs_log s)) (last_of (rs_log s)) (members_of (rs_log s))).
Proof.
  intros Hst Hrun Hk Hcd Hdm Hcm. destruct (run_tracked _ _ Hst Hrun) as (g & K0 & Ht0).
  destruct (tracked_killed _ _ _ _ _ _ _ _ Ht0 Hk) as [K Ht].
  destruct (tracked_restart _ _ _ _ _ _ _ _ _ _ Ht Hcd Hdm Hcm ltac:(by left)) as (cst & st' & o & Ec & Es & Ea & Hb & Hcatch).
  exists cst, st', o, (sm_membership (sm_state sm)). do 4 (split; [done|]). intros Hnd.
  destruct (Hcatch Hnd) as [g' Ht']. destruct (tracked_catch_up _ _ _ _ _ _ _ _ Ht' eq_refl) as (rs & st'' & g'' & E & Ht'').
  exists rs, st''. split; [done|]. by eapply tracked_sm_rel.
Qed.
End RestartCorrect.

(** ** Evaluated instances *)

Module RestartDemo.
Import SmDemo.
#[local] Existing Instances Samples.json Samples.rfc3339 Samples.schema Samples.uuid SampleIndex.tantivy
  SampleIndex.mark_json SampleCodecs.wal_entry_codec SampleCodecs.snapshot_codec sum_crc32c
  SampleRaft.membership SampleRaft.stored_membership_codec.

Lemma fresh_started : started fresh.
Proof.
  exists Demo.started. split; [|done]. destruct (catalog_open_ok _ _ empty_disk_inv) as (st & E & _).
  unfold Demo.started, Demo.opened. by rewrite E.
Qed.

Definition put_b : content := CCmd (CIndex "books" "b" [x07]).
Definition del_a : content := CCmd (CDelete "books" "a").

Definition members : content := CMember (SampleRaft.joint : @openraft.Membership SampleRaft.membership).

(** The first membership, a collection and a document; a checkpoint at the position
    before the document; another document, a deletion and a membership change. *)
Definition first : list (openraft.LogId * content) :=
  [(id 0, members); (id 1, create_books sample_mapping "u1"); (id 2, put_a)].
Definition second : list (openraft.LogId * content) := [(id 3, put_b); (id 4, del_a); (id 5, members)].

Definition st1 : SmSt := (apply (entry_of <$> first) fresh).2.
Definition st2 : SmSt := with_catalog st1 (checkpoint_applied (local_mark 1) (sm_catalog st1)).2.
Definition st3 : SmSt := (apply (entry_of <$> second) st2).2.

Lemma put_ok (d : gmap string coll) i c :
  d !! "books" = Some c → a_mapping c = sample_mapping → id_ok i → committed_cmd d (CIndex "books" i [x07]).
Proof.
  intros Hc Em Hi. split; [|by intros ? ?%elem_of_nil]. exists c, (Samples.JObj [("n", Samples.JInt 7)]).
  split; [done|]. split; [done|]. split; [rewrite Em; vm_compute; reflexivity|done].
Qed.

Definition books_with (docs : docs_map) : coll :=
  {| a_uuid := ("u1" : @Uuid Samples.uuid); a_mapping := sample_mapping; a_docs := docs |}.

Lemma log_ok : committed_log ∅ (-1) (first ++ second).
Proof.
  split; [done|]. split; [done|]. split; [done|].
  split; [done|]. split; [done|]. split.
  { split; [done|]. split; [split; [done|apply sample_mapping_ok]|].
    intros u _ (n & c & Hc & _). cbn in Hc. by rewrite lookup_empty in Hc. }
  split; [done|]. split; [done|].
  split; [split; [done|]; apply (put_ok _ _ (books_with ∅)); [done..|by apply id_ok_short]|].
  split; [done|]. split; [done|]. split.
  { split; [done|]. apply (put_ok _ _ (books_with {[ "a" := [x07] ]})); [vm_compute; reflexivity|done|by apply id_ok_short]. }
  split; [done|]. split; [done|]. split; [|by split_and!]. split; [done|]. split; [|by intros ? ?%elem_of_nil].
  split; [by eexists; vm_compute|by apply id_ok_short].
Qed.

Definition reached : replica_state := {| rs_log := first ++ second; rs_pos := 5; rs_sm := st3 |}.

Lemma reached_run : run_of fresh reached.
Proof.
  pose proof log_ok as [H1 H2]%committed_split.
  destruct (run_apply fresh first [] fresh fresh_started (rtc_refl _ _) H1) as (rs1 & s1 & E1 & Hrun1).
  assert (s1 = st1) as -> by (unfold st1; by rewrite E1).
  assert (E : last_of ([] ++ first) = 2) by (vm_compute; reflexivity). rewrite E in Hrun1. cbn [app] in Hrun1.
  assert (Hrun2 : run_of fresh {| rs_log := first; rs_pos := 2; rs_sm := st2 |}).
  { apply (run_checkpoint fresh first 2 st1 (local_mark 1) _ Hrun1); [clear; cbn; lia|].
    apply injective_projections; [vm_compute; reflexivity|reflexivity]. }
  destruct (run_apply fresh second first st2 fresh_started Hrun2 H2) as (rs2 & s2 & E2 & Hrun).
  assert (s2 = st3) as -> by (unfold st3; by rewrite E2). exact Hrun.
Qed.

Lemma caught_up_is_current_witness :
  sm_rel st3 (db_of (first ++ second)) 5 (members_of (first ++ second))
  ∧ ∃ rs st', apply (entry_of <$> [(id 6, CBlank)]) st3 = (Ok rs, st')
    ∧ sm_rel st' (db_of ((first ++ second) ++ [(id 6, CBlank)])) 6 (members_of ((first ++ second) ++ [(id 6, CBlank)])).
Proof. apply (caught_up_is_current fresh reached [(id 6, CBlank)] fresh_started reached_run); [done|by split_and!]. Defined.

(** The replica is killed in a checkpoint, after the commit of its collection. *)
Definition half_checkpoint : CatSt := (commit_each (local_mark 4) ["books"] (sm_catalog st3)).2.
Definition committing : SmSt := with_catalog st3 half_checkpoint.

Lemma committing_names : commit_names st3 = ["books"].
Proof. vm_compute. reflexivity. Qed.

Lemma committing_ok : (commit_each (local_mark 4) ["books"] (sm_catalog st3)).1 = Ok tt.
Proof. vm_compute. reflexivity. Qed.

Lemma committing_killed : killed_in 5 st3 committing.
Proof.
  apply (killed_in_commits 5 st3 (local_mark 4) ["books"] [] half_checkpoint); [by split|by rewrite committing_names|].
  rewrite <-committing_ok. unfold half_checkpoint. apply surjective_pairing.
Qed.

Lemma restart_catches_up_witness :
  ∃ cst st' o m, catalog_open (Demo.worst_crash (disk_of (sm_catalog committing))) = (Ok cst, disk_of cst)
    ∧ sm_open cst (crash_min (meta_dir committing)) = Ok st'
    ∧ applied_state st' = (Ok (o, m), st') ∧ -1 ≤ reported_index o ≤ 5
    ∧ (no_drops (after (reported_index o) (first ++ second)) →
       ∃ rs st'', apply (entry_of <$> after (reported_index o) (first ++ second)) st' = (Ok rs, st'')
         ∧ sm_rel st'' (db_of (first ++ second)) 5 (members_of (first ++ second))).
Proof.
  apply (restart_catches_up fresh reached committing _ (meta_dir committing) _ fresh_started reached_run committing_killed);
    [apply Demo.worst_crash_ok|done|apply crash_min_crash].
Defined.

(** The replica of the example reports position 1 and is handed four entries again,
    two of which its index had already. *)
Example restart_position :
  reported (restarted st3) = Some 1 ∧ apply_error (after 1 (first ++ second)) (restarted st3) = None.
Proof. vm_compute. done. Qed.

(** A replica that holds a collection dies in [apply_drop], between [drop_dir] and
    [persist]. *)
Definition dies_in_drop : Disk := disk_of (drop_dir ("u1" : @Uuid Samples.uuid) (sm_catalog st2)).2.

(** A replica has no write-ahead log that tells [open] of the drop: the catalog file
    still lists the collection, its directory is gone, and the node does not start. *)
Theorem interrupted_drop_blocks_replica :
  Demo.open_error (disk_of (sm_catalog st2)) = None
  ∧ Demo.open_error dies_in_drop = Some (Recovery (Msg "catalog entry {uuid} has no data dir" ["u1"])).
Proof. vm_compute. done. Qed.
End RestartDemo.
