(* ===== verification/ReplicaCreate.v ===== *)
(** * A replica that is killed while it creates a collection

    [apply_create] makes the directory of a collection and its index before it writes
    [catalog.pb].  A kill in between leaves a directory that no collection owns.  The
    next start moves it to the quarantine, and the replica creates the collection when
    it is handed the entry again.  When the index was there and a second kill comes at the
    same place, the directory cannot be moved: the quarantine has one of that name. *)

From S2P Require Import Prelude Bytes CoreError FileSys Proto External Mapping Document IndexApi Collection.
From S2P Require Import CollectionSpec WalInterface Catalog CatalogSpec CatalogRel CatalogReplay CatalogOpen CatalogOps CatalogHistory Conversions LogStore.
From S2P Require Import StateMachine ReplicaSpec StateMachineCorrect ReplicaLog ReplicaRestart.
From S2P Require Import SegmentedLog LogCorrect Samples SampleCodecs SampleIndex Wal CatalogCorrect SampleRaft RestartCorrect.

Open Scope Z_scope.

Section ReplicaCreate.
Context `{Json} `{Rfc3339} `{TantivySchema} `{!TantivyIndex} `{!MarkJson} `{UuidApi}.
Context `{WriteAheadLog} `{!Codec v1.CatalogSnapshot}.
Context `{openraft.MembershipApi} `{!Codec raft.StoredMembership}.

(** The state that [collection_create] leaves: a directory, with or without an index. *)
Definition with_dir (cst : CatSt) (u : Uuid) (x : option Index) : CatSt :=
  {| cat := cat cst; root := set_col_dirs (<[u := x]> (col_dirs (root cst))) (root cst) |}.

(** Killed in [apply_create] of the collection [n] at index [i]: after the directory, after
    the index, or while [catalog.pb] is written. *)
Inductive killed_creating (n : string) (u : Uuid) (m : Mapping) (i : Z) (cst : CatSt) : CatSt → Prop :=
| killed_after_dir : killed_creating n u m i cst (with_dir cst u None)
| killed_after_index : killed_creating n u m i cst (with_dir cst u (Some (create_in_dir (schema_of m))))
| killed_before_rename c cst1 f :
    install_collection n u m i cst = (Ok c, cst1) →
    f ∈ replacing SNAPSHOT_TMP (encode_to_vec (snapshot_proto (cat cst1) i)) (files (root cst1)) →
    killed_creating n u m i cst {| cat := cat cst1; root := set_files f (root cst1) |}.

(** What the kill leaves on disk. *)
Lemma creating_disk n u m i cst cst1 :
  killed_creating n u m i cst cst1 → mapping_ok m → col_dirs (root cst) !! u = None →
  ∃ x, col_dirs (root cst1) = <[u := x]> (col_dirs (root cst)) ∧ quarantined (root cst1) = quarantined (root cst)
    ∧ c_wal (cat cst1) = c_wal (cat cst) ∧ files (root cst1) !! SNAPSHOT_FILE = files (root cst) !! SNAPSHOT_FILE.
Proof.
  intros Hk Hm Hu. destruct Hk as [| |c cst1 f E Hf]; [by eexists|by eexists|].
  rewrite install_new in E by done. injection E as _ <-.
  cbn in *. eexists. split; [by rewrite insert_insert_eq|]. do 2 (split; [done|]). by eapply replacing_other.
Qed.

(** ** Opening with an orphan *)

Lemma open_entries_orphan dirs u x dropped es : ∀ cols z r,
  dirs !! u = None → open_entries dirs dropped es cols z = Ok r → open_entries (<[u := x]> dirs) dropped es cols z = Ok r.
Proof.
  induction es as [|e es IH]; intros cols z r Hu E; cbn in *; [done|]. case_decide; [by eapply IH|].
  destruct (ok_or _ (uuid_parse_str _)) as [v| |]; [|done..]. cbn in *.
  destruct (ok_or _ (v1.entry_mapping e)) as [pm| |]; [|done..]. cbn in *.
  destruct (Mapping_try_from_proto pm) as [m| |]; [|done..]. cbn in *.
  destruct (decide (dirs !! v = None)) as [|Hv]; [done|]. assert (u ≠ v) by congruence.
  unfold collection_open in *. rewrite lookup_insert_ne, decide_False by done.
  destruct (dirs !! v) as [[index|]|]; [|done..]. cbn in *. by eapply IH.
Qed.

Lemma sweep_one high cst u x :
  (∀ v, is_Some (col_dirs (root cst) !! v) → v ∈ live_uuids (cat cst)) → col_dirs (root cst) !! u = None →
  u ∉ live_uuids (cat cst) → quarantined (root cst) !! (u, high) = None →
  sweep_orphans high (with_dir cst u x)
  = (Ok tt, {| cat := cat cst; root := set_quarantined (<[(u, high) := x]> (quarantined (root cst))) (root cst) |}).
Proof.
  intros Hlive Hu Hdead Hq. unfold sweep_orphans. mpure. unfold collection_dirs at 1. mpure.
  set (dirs := <[u := x]> (col_dirs (root cst))). assert (Hin : (u, x) ∈ map_to_list dirs) by (apply elem_of_map_to_list, lookup_insert_eq).
  apply list_elem_of_split in Hin as (l1 & l2 & El). pose proof (NoDup_fst_map_to_list dirs) as Hnd.
  change (col_dirs (root (with_dir cst u x))) with dirs. change (cat (with_dir cst u x)) with (cat cst).
  rewrite El, fmap_app in Hnd |- *. cbn [fmap list_fmap fst] in Hnd |- *.
  apply NoDup_app in Hnd as (_ & Hn1 & [Hn2 _]%NoDup_cons).
  assert (Hothers : ∀ v, v ∈ l1.*1 ∨ v ∈ l2.*1 → v ∈ live_uuids (cat cst)).
  { intros v Hv. assert (v ≠ u) by (intros ->; destruct Hv as [Hv|Hv]; [eapply (Hn1 u Hv); by left|done]).
    assert (Hx : ∃ y, (v, y) ∈ map_to_list dirs).
    { rewrite El. destruct Hv as [([v' y] & -> & Hv)%list_elem_of_fmap|([v' y] & -> & Hv)%list_elem_of_fmap]; exists y;
        apply elem_of_app; [by left|right; by right]. }
    destruct Hx as [y Hy%elem_of_map_to_list]. unfold dirs in Hy. rewrite lookup_insert_ne in Hy by done. apply Hlive. by eexists. }
  erewrite for_each_app.
  2: { apply for_each_noop, Forall_forall. intros v Hv. rewrite decide_True by auto. done. }
  cbn [for_each]. rewrite decide_False by done.
  erewrite M_bind_Ok.
  2: { unfold quarantine. mpure. cbn [with_dir root col_dirs set_col_dirs quarantined]. rewrite lookup_insert_eq, decide_False; [reflexivity|].
       rewrite Hq. by intros [? [=]]. }
  rewrite for_each_noop.
  - do 2 f_equal. cbn. unfold set_quarantined, set_col_dirs. cbn. by rewrite delete_insert_id.
  - apply Forall_forall. intros v Hv. rewrite decide_True by auto. done.
Qed.

(** The quarantine is only looked at by [sweep_orphans]. *)
Lemma cat_tracked_quarantine sync q q' l j cst g K :
  cat_tracked sync q l j cst g K →
  cat_tracked sync q' l j {| cat := cat cst; root := set_quarantined q' (root cst) |} g K.
Proof. intros [Hs [[Ho Hn] Hi Hd] [Hw _] Hsv]. split; [done|split; [by split|done|done]|by split|done]. Qed.

Lemma open_orphan d u x cst a wd :
  col_dirs (d_root d) !! u = None → load_catalog d = (Ok (cst, a, []), {| d_root := d_root d; d_wal := wd |}) → root cst = d_root d →
  (∀ v, is_Some (col_dirs (root cst) !! v) ↔ v ∈ live_uuids (cat cst)) → quarantined (root cst) !! (u, c_seq (cat cst)) = None →
  let cst' := {| cat := cat cst; root := set_quarantined (<[(u, c_seq (cat cst)) := x]> (quarantined (root cst))) (root cst) |} in
  catalog_open {| d_root := set_col_dirs (<[u := x]> (col_dirs (d_root d))) (d_root d); d_wal := d_wal d |} = (Ok cst', disk_of cst').
Proof.
  intros Hu El Er Hlive Hq cst'.
  assert (El' : (load_catalog {| d_root := set_col_dirs (<[u := x]> (col_dirs (d_root d))) (d_root d); d_wal := d_wal d |}).1
    = Ok (with_dir cst u x, a, [])).
  { revert El. unfold load_catalog. cbn [d_root d_wal files set_col_dirs col_dirs]. destruct (load_snapshot _) as [snap| |]; [|done..].
    destruct (w_open (d_wal d)) as [[[w es]| |] wd']; [|done..]. cbn [d_root col_dirs].
    destruct (open_entries (col_dirs (d_root d)) _ _ _ _) as [[cols y]| |] eqn:Eo; [|done..].
    intros [= <- <- -> _]. rewrite (open_entries_orphan _ _ _ _ _ _ _ _ Hu Eo). done. }
  unfold catalog_open. destruct (load_catalog {| d_root := set_col_dirs _ _; d_wal := _ |}) as [r d1]. cbn in El'. subst r. unfold open_tail. mpure. mpure.
  change (cat (with_dir cst u x)) with (cat cst). erewrite M_bind_Ok; [done|]. apply sweep_one; [apply Hlive|by rewrite Er| |done].
  rewrite <-Hlive, Er, Hu. by intros [? [=]].
Qed.

(** ** The replica after the kill *)

Lemma tracked_live sync q l j cst g K v :
  cat_tracked sync q l j cst g K → is_Some (col_dirs (root cst) !! v) ↔ v ∈ live_uuids (cat cst).
Proof.
  intros [_ Hr _ _]. pose proof Hr as [Hl _ Hd]. split; [intros Hv; by apply (loaded_live _ _ _ _ v Hl), Hd|].
  intros (n & c & Hc & <-)%(loaded_live _ _ _ _ v Hl). pose proof (replica_lookup _ _ _ _ n Hr) as Hn. rewrite Hc in Hn.
  destruct Hn as (e & D & k & _ & (_ & _ & index & Hx & _) & _). by eexists.
Qed.

(** The restart, with the orphan in quarantine. *)
Lemma tracked_create_restart sync q l j st g K n u m i cst1 d dm md :
  tracked sync q l j st g K → mapping_ok m → col_dirs (root (sm_catalog st)) !! u = None → (∀ z, q !! (u, z) = None) →
  killed_creating n u m i (sm_catalog st) cst1 → crash_disk (disk_of cst1) d → raft_dir_of st dm → crash dm md →
  sync = true ∨ keeps_catalog (files (root cst1)) (files (d_root d)) →
  ∃ cst st' o z x, catalog_open d = (Ok cst, disk_of cst) ∧ sm_open cst md = Ok st'
    ∧ applied_state st' = (Ok (o, sm_membership (sm_state st)), st') ∧ -1 ≤ reported_index o ≤ j
    ∧ quarantined (root cst) = <[(u, z) := x]> q
    ∧ (no_drops (after (reported_index o) l) → ∃ g', tracked sync (<[(u, z) := x]> q) l (reported_index o) st' g' K).
Proof.
  intros Ht Hmk Hu Hq Hk (Hcf & Hcd & Hcq & Hcw) Hdm Hcm Hkept. cbn in Hcf, Hcd, Hcq, Hcw.
  destruct (creating_disk _ _ _ _ _ _ Hk Hmk Hu) as (x & Ed & Eq & Ew & Ef).
  destruct Ht as [Hl Hp Hnd Hct Hlow Hla Hf Hm]. set (cst0 := sm_catalog st) in *.
  assert (Hct0 : cat_tracked sync q l j {| cat := cat cst0; root := set_files (files (root cst1)) (root cst0) |} g K).
  { destruct Hct as [Hs [[Ho Hn] Hi Hd] Hw (d0 & k & z0 & Hz & Hsv & Hs0)]. split; [done|split; [by split|done|done]|done|].
    exists d0, k, z0. split; [done|]. split; [|done]. cbn. unfold saved_file. rewrite Ef. exact Hsv. }
  set (d0 := {| d_root := set_col_dirs (col_dirs (root cst0)) (d_root d); d_wal := d_wal d |}).
  destruct (reopen_load sync q l j _ g K d0 Hct0) as (cst & a & wd & g' & El & Er & Hct'); [|done|].
  { split; [done|]. split; [done|]. cbn. rewrite Hcq, Hcw || idtac. split; [congruence|]. by rewrite <-Ew. }
  assert (HK : ∀ n, is_Some (db_of l !! n) → 0 ≤ K n) by (intros n' Hn'; by eapply tracked_marks).
  pose proof (Hct' 0 HK) as Hct1. pose proof (ct_idle _ _ _ _ _ _ _ Hct1) as [_ Eq1]. cbn in Eq1.
  assert (Ed' : d = {| d_root := set_col_dirs (<[u := x]> (col_dirs (d_root d0))) (d_root d0); d_wal := d_wal d0 |}).
  { destruct d as [[fs dirs qs] w]. cbn in *. by rewrite Hcd, Ed. }
  pose proof (open_orphan d0 u x cst a wd Hu El Er (λ v, tracked_live _ _ _ _ _ _ _ v Hct1)) as Eo. rewrite <-Ed', Eq1 in Eo.
  specialize (Eo (Hq _)). cbv zeta in Eo.
  destruct (restart_from sync (<[(u, c_seq (cat cst)) := x]> q) l j st K dm md _ g' Hl Hp Hlow Hf Hm Hdm Hcm HK
    (λ pos Hpos, cat_tracked_quarantine _ _ _ _ _ _ _ _ (Hct' pos Hpos))) as (st' & o & Es & Ea & Hb & Ht').
  eexists _, st', o, (c_seq (cat cst)), x. split; [exact Eo|]. do 3 (split; [done|]). split; [done|]. intros Hd. exists g'. by apply Ht'.
Qed.

(** C19: A replica that has caught up and has not been killed in a create before
    ([run_of]) is killed while it creates a collection, after it has made the directory
    and before [catalog.pb] is in place: it starts again with the directory in quarantine,
    reports a position not past what it had applied, and if no collection is dropped after
    that position, applies the rest of its log and the create without an error and holds
    the database with the new collection. A second kill at the same place is not covered
    ([interrupted_create_twice_blocks_replica]). *)
Theorem interrupted_create_restarts st l sm n u m i cst1 d dm md :
  started st → run_of st {| rs_log := l; rs_pos := last_of l; rs_sm := sm |} →
  committed_log (db_of l) (last_of l) [(i, CCmd (CCreate n u m))] →
  killed_creating n u m (openraft.index i) (sm_catalog sm) cst1 →
  crash_disk (disk_of cst1) d → raft_dir_of sm dm → crash dm md →
  let l' := l ++ [(i, CCmd (CCreate n u m))] in
  ∃ cst sm0 o mem, catalog_open d = (Ok cst, disk_of cst) ∧ sm_open cst md = Ok sm0
    ∧ applied_state sm0 = (Ok (o, mem), sm0) ∧ -1 ≤ reported_index o ≤ last_of l
    ∧ (∃ z, is_Some (quarantined (root cst) !! (u, z)))
    ∧ (no_drops (after (reported_index o) l) →
       ∃ rs sm1, apply (entry_of <$> after (reported_index o) l') sm0 = (Ok rs, sm1)
         ∧ sm_rel sm1 (db_of l') (openraft.index i) (members_of l')).
Proof.
  intros Hst Hrun Hx Hk Hcd Hdm Hcm l'. destruct (run_tracked _ _ Hst Hrun) as (g & K & Ht). cbn [rs_log rs_pos rs_sm] in Ht.
  assert (Hu : col_dirs (root (sm_catalog sm)) !! u = None).
  { apply eq_None_not_Some. intros Hu. destruct Hx as (_ & _ & [_ [_ Hnew]] & _). apply (Hnew u); [by left|].
    eapply same_schema_live; [apply (ct_schema _ _ _ _ _ _ _ (tk_cat _ _ _ _ _ _ _ Ht))|].
    by eapply rp_dirs, Hu; apply (ct_replica _ _ _ _ _ _ _ (tk_cat _ _ _ _ _ _ _ Ht)). }
  assert (Hmk : mapping_ok m) by (destruct Hx as (_ & _ & (_ & [_ Hmk] & _) & _); exact Hmk).
  destruct (tracked_create_restart true ∅ l _ sm g K n u m _ cst1 d dm md Ht Hmk Hu (λ z, lookup_empty _) Hk Hcd Hdm Hcm (or_introl eq_refl))
    as (cst & sm0 & o & z & x & Ec & Es & Ea & Hb & Eq & Hnd).
  exists cst, sm0, o, (sm_membership (sm_state sm)). do 4 (split; [done|]). split; [exists z; rewrite Eq, lookup_insert_eq; by eexists|].
  intros Hd. destruct (Hnd Hd) as [g' Ht']. destruct (tracked_catch_up _ _ _ _ _ _ _ _ Ht' eq_refl) as (rs & sm1 & g1 & E1 & Ht1).
  destruct (tracked_apply _ _ _ _ _ _ _ Ht1 Hx) as (r & sm2 & g2 & K2 & E2 & Ht2).
  exists (rs ++ [r]), sm2. split.
  - unfold l'. rewrite after_app, fmap_app, (after_all _ [_]).
    + eapply apply_app; [exact E1|]. cbn [fmap list_fmap apply]. by rewrite (M_bind_Ok _ _ _ _ _ E2).
    + constructor; [|constructor]. destruct Hx as [Hi _]. cbn in *. lia.
  - change (openraft.index i) with (openraft.index (i, CCmd (CCreate n u m)).1). rewrite <-(last_of_app l (i, CCmd (CCreate n u m))) in Ht2 |- *. by eapply tracked_sm_rel.
Qed.
End ReplicaCreate.

(** ** A replica that dies in a create *)

Module CreateDemo.
Import SmDemo RestartDemo.
#[local] Existing Instances Samples.json Samples.rfc3339 Samples.schema Samples.uuid SampleIndex.tantivy
  SampleIndex.mark_json SampleCodecs.wal_entry_codec SampleCodecs.snapshot_codec sum_crc32c
  SampleRaft.membership SampleRaft.stored_membership_codec.

Definition u2 : @Uuid Samples.uuid := "u2".
Definition create_notes : content := CCmd (CCreate "notes" u2 sample_mapping).

(** The replica of the restart example applies the creation of a second collection and is
    killed when the index is there and [catalog.pb] is not written yet. *)
Definition creating (cst : CatSt) : CatSt := with_dir cst u2 (Some (create_in_dir (schema_of sample_mapping))).

Lemma create_notes_ok : committed_log (db_of (first ++ second)) (last_of (first ++ second)) [(id 6, create_notes)].
Proof.
  split; [vm_compute; reflexivity|]. split; [done|]. split; [|done]. split; [done|]. split; [split; [done|apply sample_mapping_ok]|].
  intros u ->%list_elem_of_singleton (n & c & Hc & Eu).
  assert (E : db_of (first ++ second) = {[ "books" := books_with {[ "b" := [x07] ]} ]}) by (vm_compute; reflexivity).
  rewrite E in Hc. apply lookup_singleton_Some in Hc as [_ <-]. by vm_compute in Eu.
Qed.

Lemma reached_last : run_of fresh {| rs_log := first ++ second; rs_pos := last_of (first ++ second); rs_sm := st3 |}.
Proof. assert (E : last_of (first ++ second) = 5) by (vm_compute; reflexivity). rewrite E. exact reached_run. Qed.

Lemma interrupted_create_restarts_witness :
  let d := Demo.worst_crash (disk_of (creating (sm_catalog st3))) in
  let l' := (first ++ second) ++ [(id 6, create_notes)] in
  ∃ cst sm0 o mem, catalog_open d = (Ok cst, disk_of cst) ∧ sm_open cst (crash_min (meta_dir st3)) = Ok sm0
    ∧ applied_state sm0 = (Ok (o, mem), sm0) ∧ -1 ≤ reported_index o ≤ last_of (first ++ second)
    ∧ (∃ z, is_Some (quarantined (root cst) !! (u2, z)))
    ∧ (no_drops (after (reported_index o) (first ++ second)) →
       ∃ rs sm1, apply (entry_of <$> after (reported_index o) l') sm0 = (Ok rs, sm1)
         ∧ sm_rel sm1 (db_of l') (openraft.index (id 6)) (members_of l')).
Proof.
  intros d l'. unfold l', d, create_notes, creating.
  apply (interrupted_create_restarts fresh (first ++ second) st3 "notes" u2 sample_mapping (id 6)
    (with_dir (sm_catalog st3) u2 (Some (create_in_dir (schema_of sample_mapping)))) _ (meta_dir st3) _ fresh_started reached_last create_notes_ok).
  - apply killed_after_index.
  - apply Demo.worst_crash_ok.
  - done.
  - apply crash_min_crash.
Defined.

(** What the disk is after the replica has started on [d], was handed the entries that it
    does not report and was killed in the create. *)
Definition dies_again (d : Disk) : Disk :=
  let st := boot (Demo.opened d) (meta_dir st2) in
  disk_of (creating (sm_catalog (apply (entry_of <$> after (default (-1) (reported st)) first) st).2)).

(** The first start moves the directory away; the second kill at the same place leaves the
    same directory, the sequence number in the name of its quarantine is the same one, and
    the node does not start. *)
Theorem interrupted_create_twice_blocks_replica :
  let d := disk_of (creating (sm_catalog st2)) in
  Demo.open_error d = None ∧ Demo.open_error (dies_again d) = Some (Io DirectoryNotEmpty).
Proof. vm_compute. done. Qed.
End CreateDemo.
