(* ===== verification/MemStore.v ===== *)
(** * In-memory stores (crates/cluster/src/type_config.rs)

    The test module of [type_config.rs] has a log store and a state machine in memory,
    against which a single node is started.  They are the reference for what openraft
    expects of its storage: the log store on disk answers every call as the one in
    memory does, and the state machine never reports more than the one in memory. *)

From S2P Require Import Prelude Bytes CoreError FileSys SegmentedLog LogSpec LogCorrect Proto External Mapping Document.
From S2P Require Import IndexApi Collection WalInterface Catalog Conversions LogStore LogStoreSpec LogStoreCorrect LogStoreLive.
From S2P Require Import CatalogSpec StateMachine ReplicaSpec StateMachineCorrect ReplicaLog ReplicaRestart SampleRaft.
From S2P Require Import Samples SampleCodecs SampleIndex Wal CatalogCorrect RestartCorrect.

Open Scope Z_scope.

(** ** The interface *)

(** [RaftLogReader] and [RaftLogStorage]. *)
Class RaftLogStorage `{openraft.MembershipApi} (S : Type) := {
  rls_try_get_log_entries : bounds → M S StorageError (list openraft.Entry);
  rls_get_log_state : M S StorageError LogState;
  rls_save_vote : openraft.Vote → M S StorageError unit;
  rls_read_vote : M S StorageError (option openraft.Vote);
  rls_save_committed : option openraft.LogId → M S StorageError unit;
  rls_read_committed : M S StorageError (option openraft.LogId);
  rls_append : list openraft.Entry → M S StorageError unit;
  rls_truncate : openraft.LogId → M S StorageError unit;
  rls_purge : openraft.LogId → M S StorageError unit
}.

(** [LogStore] implements it. *)
#[export] Instance disk_storage `{Crc32c} `{openraft.MembershipApi} `{!Codec raft.Entry} `{!Codec raft.RaftMeta} :
    RaftLogStorage StoreSt := {|
  rls_try_get_log_entries := try_get_log_entries;
  rls_get_log_state := get_log_state;
  rls_save_vote := save_vote;
  rls_read_vote := read_vote;
  rls_save_committed := save_committed;
  rls_read_committed := read_committed;
  rls_append := store_append;
  rls_truncate := truncate;
  rls_purge := purge
|}.

(** [BTreeMap::range] panics on these bounds. *)
Definition range_panics (b : bounds) : bool :=
  match start_bound b, end_bound b with
  | Excluded s, Excluded e => bool_decide (e ≤ s)
  | Included s, Included e | Included s, Excluded e | Excluded s, Included e => bool_decide (e < s)
  | _, _ => false
  end.

Section mem.
Context `{openraft.MembershipApi}.

(** [LogInner]. *)
Record LogInner := {
  mem_log : gmap Z openraft.Entry;
  mem_last_purged : option openraft.LogId;
  mem_vote : option openraft.Vote;
  mem_committed : option openraft.LogId
}.
Definition LogInner_default : LogInner :=
  {| mem_log := ∅; mem_last_purged := None; mem_vote := None; mem_committed := None |}.

Abbreviation MM := (M LogInner StorageError).

Definition on_mem_log (f : gmap Z openraft.Entry → gmap Z openraft.Entry) : MM unit :=
  modify (λ s, {| mem_log := f (mem_log s); mem_last_purged := mem_last_purged s; mem_vote := mem_vote s;
                  mem_committed := mem_committed s |}).

(** [log.range(b)]. *)
Definition mem_range (b : bounds) : MM (list (Z * openraft.Entry)) :=
  s ← get;
  if range_panics b then lift (Panic "range start is greater than range end in BTreeMap")
  else mret (filter (λ ke, in_bounds b ke.1) (btree_iter Z.le (mem_log s))).

Definition mem_try_get_log_entries (b : bounds) : MM (list openraft.Entry) :=
  l ← mem_range b; mret l.*2.

Definition mem_get_log_state : MM LogState :=
  s ← get;
  let last := openraft.log_id <$> last (btree_iter Z.le (mem_log s)).*2 in
  mret {| last_purged_log_id := mem_last_purged s;
          state_last_log_id := match last with Some l => Some l | None => mem_last_purged s end |}.

Definition mem_save_vote (v : openraft.Vote) : MM unit :=
  modify (λ s, {| mem_log := mem_log s; mem_last_purged := mem_last_purged s; mem_vote := Some v;
                  mem_committed := mem_committed s |}).
Definition mem_read_vote : MM (option openraft.Vote) := s ← get; mret (mem_vote s).

Definition mem_save_committed (c : option openraft.LogId) : MM unit :=
  modify (λ s, {| mem_log := mem_log s; mem_last_purged := mem_last_purged s; mem_vote := mem_vote s;
                  mem_committed := c |}).
Definition mem_read_committed : MM (option openraft.LogId) := s ← get; mret (mem_committed s).

Definition mem_append (entries : list openraft.Entry) : MM unit :=
  for_each entries (λ e, on_mem_log <[openraft.index (openraft.log_id e) := e]>).

Definition remove_keys (keys : list Z) : MM unit := for_each keys (λ k, on_mem_log (delete k)).

Definition mem_truncate (log_id : openraft.LogId) : MM unit :=
  l ← mem_range {| start_bound := Included (openraft.index log_id); end_bound := Unbounded |};
  remove_keys l.*1.

Definition mem_purge (log_id : openraft.LogId) : MM unit :=
  modify (λ s, {| mem_log := mem_log s; mem_last_purged := Some log_id; mem_vote := mem_vote s;
                  mem_committed := mem_committed s |});;
  l ← mem_range {| start_bound := Unbounded; end_bound := Included (openraft.index log_id) |};
  remove_keys l.*1.
End mem.

#[export] Instance mem_storage `{openraft.MembershipApi} : RaftLogStorage LogInner := {|
  rls_try_get_log_entries := mem_try_get_log_entries;
  rls_get_log_state := mem_get_log_state;
  rls_save_vote := mem_save_vote;
  rls_read_vote := mem_read_vote;
  rls_save_committed := mem_save_committed;
  rls_read_committed := mem_read_committed;
  rls_append := mem_append;
  rls_truncate := mem_truncate;
  rls_purge := mem_purge
|}.

(** ** Programs over the interface *)

Inductive storage_call `{openraft.MembershipApi} :=
| Update (o : store_op)
| ReadVoteCall
| ReadCommittedCall
| GetStateCall
| GetEntriesCall (b : bounds).

Inductive storage_answer `{openraft.MembershipApi} :=
| Done
| VoteIs (v : option openraft.Vote)
| CommittedIs (c : option openraft.LogId)
| StateIs (s : LogState)
| EntriesAre (es : list openraft.Entry).

Section client.
Context `{openraft.MembershipApi} {S : Type} `{!RaftLogStorage S}.

Definition update (o : store_op) : M S StorageError unit :=
  match o with
  | SaveVote v => rls_save_vote v
  | SaveCommitted c => rls_save_committed c
  | Append es => rls_append es
  | Truncate l => rls_truncate l
  | Purge l => rls_purge l
  end.

Definition make_call (c : storage_call) : M S StorageError storage_answer :=
  match c with
  | Update o => update o;; mret Done
  | ReadVoteCall => v ← rls_read_vote; mret (VoteIs v)
  | ReadCommittedCall => v ← rls_read_committed; mret (CommittedIs v)
  | GetStateCall => v ← rls_get_log_state; mret (StateIs v)
  | GetEntriesCall b => v ← rls_try_get_log_entries b; mret (EntriesAre v)
  end.

Fixpoint make_calls (cs : list storage_call) : M S StorageError (list storage_answer) :=
  match cs with
  | [] => mret []
  | c :: cs => a ← make_call c; rest ← make_calls cs; mret (a :: rest)
  end.
End client.

(** ** The store on disk and the store in memory *)

Section equivalence.
Context `{Crc32c} `{openraft.MembershipApi} `{!Codec raft.Entry} `{!Codec raft.RaftMeta}.

(** What openraft ensures of a sequence of calls: the contract of each update, and
    ranges that start within the log. *)
Fixpoint calls_ok (r : raft_log) (cs : list storage_call) : Prop :=
  match cs with
  | [] => True
  | Update o :: cs => live_pre r o ∧ calls_ok (store_post r o) cs
  | GetEntriesCall b :: cs =>
      bound_u64 (start_bound b) ∧ bound_u64 (end_bound b) ∧ range_panics b = false
      ∧ (range_of r b).1 ≤ (range_of r b).2 ∧ calls_ok r cs
  | _ :: cs => calls_ok r cs
  end.

Definition keyed (e : openraft.Entry) : Z * openraft.Entry := (entry_index e, e).

Record mem_rel (m : LogInner) (r : raft_log) : Prop := {
  mr_log : mem_log m = list_to_map (keyed <$> rl_entries r);
  mr_meta : rl_meta r = {| vote := mem_vote m; committed := mem_committed m; last_purged := mem_last_purged m |}
}.

(** The entries in the order of their indexes. *)
Definition in_order (r : raft_log) : Prop := StronglySorted Z.lt (entry_index <$> rl_entries r).

Lemma keyed_keys (es : list openraft.Entry) : (keyed <$> es).*1 = entry_index <$> es.
Proof. by rewrite <-list_fmap_compose. Qed.
Lemma keyed_values (es : list openraft.Entry) : (keyed <$> es).*2 = es.
Proof. rewrite <-list_fmap_compose. by apply list_fmap_id. Qed.

Lemma keyed_NoDup r : in_order r → NoDup (keyed <$> rl_entries r).*1.
Proof. intros Ho. rewrite keyed_keys. by apply StronglySorted_lt_NoDup. Qed.

Lemma keyed_sorted (es : list openraft.Entry) :
  StronglySorted Z.lt (entry_index <$> es) → StronglySorted (key_le Z.le) (keyed <$> es).
Proof.
  induction es as [|e es IH]; [constructor|]. rewrite !fmap_cons. intros Hs.
  apply StronglySorted_inv in Hs as [Hs Hx]. constructor; [by apply IH|]. 
  apply Forall_forall. intros ke (e' & -> & Hin)%list_elem_of_fmap. rewrite Forall_forall in Hx.
  specialize (Hx (entry_index e') ltac:(apply list_elem_of_fmap; by exists e')). unfold key_le. cbn. lia.
Qed.

Lemma mem_iter m r : mem_rel m r → in_order r → btree_iter Z.le (mem_log m) = keyed <$> rl_entries r.
Proof.
  intros Hm Ho. rewrite (mr_log _ _ Hm). apply (btree_iter_list_to_map Z.le); [by apply keyed_NoDup|by apply keyed_sorted].
Qed.

Lemma filter_keyed (P : Z → Prop) `{!∀ z, Decision (P z)} (es : list openraft.Entry) :
  filter (λ ke, P ke.1) (keyed <$> es) = keyed <$> filter (λ e, P (entry_index e)) es.
Proof.
  induction es as [|e es IH]; [done|]. cbn [fmap list_fmap]. rewrite !filter_cons. cbn [keyed fst].
  case_decide; by rewrite IH.
Qed.

Lemma mem_range_ok m r b :
  mem_rel m r → in_order r → range_panics b = false →
  mem_range b m = (Ok (keyed <$> filter (λ e, in_bounds b (entry_index e)) (rl_entries r)), m).
Proof. intros Hm Ho Hb. unfold mem_range. mpure. by rewrite Hb, (mem_iter _ _ Hm Ho), <-filter_keyed. Qed.

(** ** Updates in memory *)

Lemma mem_append_run (es : list openraft.Entry) : ∀ m,
  mem_append es m = (Ok tt, {| mem_log := foldl (λ l ke, <[ke.1 := ke.2]> l) (mem_log m) (keyed <$> es);
    mem_last_purged := mem_last_purged m; mem_vote := mem_vote m; mem_committed := mem_committed m |}).
Proof.
  unfold mem_append. induction es as [|e es IH]; intros m; [by destruct m|]. cbn [for_each]. mpure. by rewrite IH.
Qed.

Lemma remove_keys_run keys : ∀ m,
  remove_keys keys m = (Ok tt, {| mem_log := foldl (λ l k, delete k l) (mem_log m) keys;
    mem_last_purged := mem_last_purged m; mem_vote := mem_vote m; mem_committed := mem_committed m |}).
Proof.
  unfold remove_keys. induction keys as [|k keys IH]; intros m; [by destruct m|]. cbn [for_each]. mpure. by rewrite IH.
Qed.

Lemma foldl_delete_lookup {A} (keys : list Z) (i : Z) : ∀ l : gmap Z A,
  foldl (λ l k, delete k l) l keys !! i = if decide (i ∈ keys) then None else l !! i.
Proof.
  induction keys as [|k keys IH]; intros l; cbn [foldl]; [by rewrite decide_False by apply not_elem_of_nil|].
  rewrite IH. destruct (decide (i ∈ keys)) as [Hi|Hi]; [by rewrite decide_True by (by right)|].
  destruct (decide (k = i)) as [->|Hne]; [by rewrite lookup_delete_eq, decide_True by left|].
  rewrite lookup_delete_ne by done. rewrite decide_False; [done|]. by intros [->|?]%elem_of_cons.
Qed.

(** Removing the entries of a range keeps the others. *)
Lemma removed_log (es : list openraft.Entry) (P : Z → Prop) `{!∀ z, Decision (P z)} :
  NoDup (keyed <$> es).*1 →
  foldl (λ l k, delete k l) (list_to_map (keyed <$> es) : gmap Z openraft.Entry)
    (keyed <$> filter (λ e, P (entry_index e)) es).*1
  = list_to_map (keyed <$> filter (λ e, ¬ P (entry_index e)) es).
Proof.
  intros Hnd. rewrite <-(filter_keyed P).
  assert (E : keyed <$> filter (λ e, ¬ P (entry_index e)) es = filter (λ ke, ¬ P ke.1) (keyed <$> es))
    by (symmetry; exact (filter_keyed (λ z, ¬ P z) es)).
  rewrite E. apply map_eq. intros i. rewrite foldl_delete_lookup.
  assert (Hnd' : NoDup (filter (λ ke : Z * openraft.Entry, ¬ P ke.1) (keyed <$> es)).*1) by (by apply NoDup_fst_filter).
  apply option_eq. intros e. rewrite <-(elem_of_list_to_map _ _ _ Hnd'), list_elem_of_filter. cbn [fst].
  case_decide as Hi.
  - split; [done|]. intros [HP Hin]. apply list_elem_of_fmap in Hi as ([i' e'] & -> & [HP' _]%list_elem_of_filter). done.
  - rewrite <-(elem_of_list_to_map _ _ _ Hnd). split; [|by intros [_ ?]]. intros Hin. split; [|done]. intros HP.
    apply Hi, list_elem_of_fmap. exists (i, e). split; [done|]. by apply list_elem_of_filter.
Qed.

Lemma mem_sim m r o :
  mem_rel m r → in_order r → in_order (store_post r o) →
  ∃ m', update o m = (Ok tt, m') ∧ mem_rel m' (store_post r o).
Proof.
  intros Hm Ho Ho'. pose proof (mr_log _ _ Hm) as El. pose proof (mr_meta _ _ Hm) as Em. destruct o as [v|c|es|l|l]; cbn [update rls_append rls_truncate rls_purge mem_storage].
  - eexists. split; [done|]. split; [done|]. cbn. by rewrite Em.
  - eexists. split; [done|]. split; [done|]. cbn. by rewrite Em.
  - eexists. split; [apply mem_append_run|]. split; [|done]. cbn [mem_log].
    apply keyed_NoDup in Ho'. cbn [store_post rl_entries] in *. rewrite fmap_app in *.
    rewrite foldl_insert_list_to_map by (rewrite fmap_app in Ho'; by apply NoDup_app in Ho' as (_ & _ & ?)).
    rewrite El, <-list_to_map_app. apply list_to_map_proper; [|by rewrite (Permutation_app_comm (keyed <$> es))].
    by rewrite (Permutation_app_comm (keyed <$> es)).
  - eexists. split.
    + unfold mem_truncate. erewrite M_bind_Ok; [|by apply (mem_range_ok m r)]. apply remove_keys_run.
    + split; [|done]. cbn [mem_log store_post rl_entries]. rewrite El.
      rewrite (removed_log (rl_entries r) (in_bounds {| start_bound := Included (openraft.index l); end_bound := Unbounded |}))
        by (by apply keyed_NoDup).
      do 2 f_equal. apply list_filter_iff. intros e. unfold in_bounds. cbn. lia.
  - set (m1 := {| mem_log := mem_log m; mem_last_purged := Some l; mem_vote := mem_vote m; mem_committed := mem_committed m |}).
    assert (Hm1 : mem_rel m1 {| rl_meta := set_last_purged (Some l) (rl_meta r); rl_entries := rl_entries r; rl_next := rl_next r |}).
    { split; [done|]. cbn. by rewrite Em. }
    eexists. split.
    + unfold mem_purge. mpure. fold m1. erewrite M_bind_Ok; [|by apply (mem_range_ok _ _ _ Hm1)]. apply remove_keys_run.
    + split; [|apply Hm1]. cbn [mem_log store_post rl_entries m1]. rewrite El.
      rewrite (removed_log (rl_entries r) (in_bounds {| start_bound := Unbounded; end_bound := Included (openraft.index l) |}))
        by (by apply keyed_NoDup).
      do 2 f_equal. apply list_filter_iff. intros e. unfold in_bounds. cbn. lia.
Qed.

(** ** Calls *)

Lemma store_in_order st r : store_live st r → in_order r.
Proof. intros Hr. apply (sv_sorted st), store_live_serves, Hr. Qed.

Lemma make_calls_agree cs : ∀ st m r,
  store_live st r → mem_rel m r → calls_ok r cs →
  ∃ answers st' m', make_calls cs st = (Ok answers, st') ∧ make_calls cs m = (Ok answers, m').
Proof.
  induction cs as [|c cs IH]; intros st m r Hs Hm Hcs; [by exists [], st, m|].
  assert (Hstep : ∃ a st1 m1 r1, make_call c st = (Ok a, st1) ∧ make_call c m = (Ok a, m1)
    ∧ store_live st1 r1 ∧ mem_rel m1 r1 ∧ calls_ok r1 cs).
  { pose proof (store_in_order _ _ Hs) as Ho. pose proof (mr_meta _ _ Hm) as Em. destruct c as [o| | | |b]; cbn in Hcs.
    - destruct Hcs as [Hpre Hcs]. destruct (store_live_sim st r o Hs Hpre) as (st1 & E1 & Hs1).
      destruct (mem_sim m r o Hm Ho (store_in_order _ _ Hs1)) as (m1 & E2 & Hm1).
      exists Done, st1, m1, (store_post r o). cbn [make_call].
      assert (E1' : update o st = (Ok tt, st1)) by (by destruct o). rewrite (M_bind_Ok _ _ _ _ _ E1'), (M_bind_Ok _ _ _ _ _ E2).
      done.
    - exists (VoteIs (mem_vote m)), st, m, r. split; [|done]. cbn. unfold read_vote. mpure. rewrite (sl_meta _ _ Hs), Em. done.
    - exists (CommittedIs (mem_committed m)), st, m, r. split; [|done]. cbn. unfold read_committed. mpure.
      rewrite (sl_meta _ _ Hs), Em. done.
    - eexists (StateIs _), st, m, r. cbn [make_call]. split; [by rewrite (M_bind_Ok _ _ _ _ _ (get_log_state_correct st r (store_live_serves _ _ Hs)))|].
      split; [|done]. cbn [rls_get_log_state mem_storage]. unfold mem_get_log_state. rewrite M_bind_assoc. mpure.
      unfold last_id. rewrite (mem_iter _ _ Hm Ho), keyed_values, Em. by destruct (last (rl_entries r)); mpure.
    - destruct Hcs as (Hb1 & Hb2 & Hp & Hle & Hcs). eexists (EntriesAre _), st, m, r. cbn [make_call].
      split; [by rewrite (M_bind_Ok _ _ _ _ _ (try_get_ok st r b (store_live_serves _ _ Hs) Hb1 Hb2 Hle))|]. split; [|done].
      cbn [rls_try_get_log_entries mem_storage]. unfold mem_try_get_log_entries.
      rewrite M_bind_assoc. rewrite (M_bind_Ok _ _ _ _ _ (mem_range_ok m r b Hm Ho Hp)). mpure. by rewrite keyed_values. }
  destruct Hstep as (a & st1 & m1 & r1 & E1 & E2 & Hs1 & Hm1 & Hcs1).
  destruct (IH _ _ _ Hs1 Hm1 Hcs1) as (answers & st' & m' & E1' & E2'). exists (a :: answers), st', m'. cbn [make_calls].
  by rewrite (M_bind_Ok _ _ _ _ _ E1), (M_bind_Ok _ _ _ _ _ E2), (M_bind_Ok _ _ _ _ _ E1'), (M_bind_Ok _ _ _ _ _ E2').
Qed.

(** C25: Started empty and not restarted, the log store on disk and the in-memory store of
    the tests give the same answers to every sequence of calls of the storage interface
    that keeps openraft's contract (appends that continue the log or start above the last
    purged entry, a purge point that does not go back; purges past the end included) and
    asks only for ranges that start neither above their own end nor above the end of the
    log. For a range above the end the store on disk panics ([try_get_log_entries_panics])
    and the one in memory does not. *)
Theorem log_store_like_memory cs :
  calls_ok empty_log cs →
  ∃ st answers st' m', store_open empty_store_disk = (Ok st, store_disk st)
    ∧ make_calls cs st = (Ok answers, st') ∧ make_calls cs LogInner_default = (Ok answers, m').
Proof.
  intros Hcs. destruct empty_store_live as (st & Eo & Hr).
  destruct (make_calls_agree cs st LogInner_default empty_log Hr) as (answers & st' & m' & ? & ?); [by split|done|].
  by exists st, answers, st', m'.
Qed.
End equivalence.

(** ** The state machine in memory *)

Section machine.
Context `{openraft.MembershipApi}.

(** [SmInner]. *)
Record SmInner := {
  mem_last_applied : option openraft.LogId;
  mem_last_membership : openraft.StoredMembership
}.
Definition SmInner_default : SmInner :=
  {| mem_last_applied := None; mem_last_membership := StoredMembership_default |}.

Abbreviation MI := (M SmInner StorageError).

Definition mem_applied_state : MI (option openraft.LogId * openraft.StoredMembership) :=
  s ← get; mret (mem_last_applied s, mem_last_membership s).

(** The body of the loop of [apply]. *)
Definition mem_apply_entry (entry : openraft.Entry) : MI Response :=
  modify (λ s, {| mem_last_applied := Some (openraft.log_id entry); mem_last_membership := mem_last_membership s |});;
  match openraft.payload entry with
  | openraft.MembershipChange membership =>
      modify (λ s, {| mem_last_applied := mem_last_applied s;
                      mem_last_membership := {| openraft.stored_log_id := Some (openraft.log_id entry);
                                                openraft.stored_membership := membership |} |})
  | _ => mret tt
  end;;
  mret {| response_id := ""; response_created := false |}.

Fixpoint mem_apply (entries : list openraft.Entry) : MI (list Response) :=
  match entries with
  | [] => mret []
  | entry :: entries =>
      response ← mem_apply_entry entry;
      responses ← mem_apply entries;
      mret (response :: responses)
  end.

Definition mem_install_snapshot (meta : openraft.SnapshotMeta) : MI unit :=
  modify (λ _, {| mem_last_applied := openraft.last_log_id meta; mem_last_membership := openraft.last_membership meta |}).

Definition mem_get_current_snapshot : MI (option openraft.SnapshotMeta) := mret None.

(** The metadata; the snapshot file is empty. *)
Definition mem_build_snapshot : MI openraft.SnapshotMeta :=
  s ← get;
  mret {| openraft.last_log_id := mem_last_applied s; openraft.last_membership := mem_last_membership s;
          openraft.snapshot_id := "mem" |}.
End machine.

Section machines.
Context `{Json} `{Rfc3339} `{TantivySchema} `{!TantivyIndex} `{!MarkJson} `{UuidApi}.
Context `{WriteAheadLog} `{!Codec v1.CatalogSnapshot}.
Context `{openraft.MembershipApi} `{!Codec raft.StoredMembership}.

Abbreviation item := (openraft.LogId * content)%type.

Definition last_id_of (o : option openraft.LogId) (l : list item) : option openraft.LogId :=
  foldl (λ _ x, Some x.1) o l.

Lemma mem_apply_run (l : list item) : ∀ m, ∃ rs,
  mem_apply (entry_of <$> l) m
  = (Ok rs, {| mem_last_applied := last_id_of (mem_last_applied m) l;
               mem_last_membership := foldl member_after (mem_last_membership m) l |}).
Proof.
  induction l as [|x l IH]; intros m; [exists []; by destruct m|]. cbn [fmap list_fmap mem_apply].
  set (m1 := {| mem_last_applied := Some x.1; mem_last_membership := member_after (mem_last_membership m) x |}).
  assert (E : mem_apply_entry (entry_of x) m = (Ok {| response_id := ""; response_created := false |}, m1))
    by (by destruct x as [lid [|mem|c]]).
  rewrite (M_bind_Ok _ _ _ _ _ E). destruct (IH m1) as [rs Ers]. eexists. by rewrite (M_bind_Ok _ _ _ _ _ Ers).
Qed.

Lemma on_catalog_state {A} wrap (m : M CatSt Error A) st : sm_state (on_catalog wrap m st).2 = sm_state st.
Proof. unfold on_catalog, mapE, zoom. by destruct (m (sm_catalog st)) as [[] cst]. Qed.

Lemma apply_entry_last x st r st' :
  apply_entry (entry_of x) st = (Ok r, st') → last_applied (sm_state st') = Some x.1.
Proof.
  destruct x as [lid [|mem|c]]; unfold apply_entry; cbn [openraft.payload openraft.log_id entry_of fst snd]; mpure.
  - by intros [= _ <-].
  - set (stored := {| openraft.stored_log_id := Some lid; openraft.stored_membership := mem |}).
    edestruct (persist_membership_ok stored) as (d' & E & _). rewrite (M_bind_Ok _ _ _ _ _ E). mpure. by intros [= _ <-].
  - unfold mbind, M_bind. match goal with |- context [on_catalog ?w ?m ?s] =>
      pose proof (on_catalog_state w m s) as Hst; destruct (on_catalog w m s) as [[o|e|p] st1] end; [|done|done].
    intros [= _ <-]. cbn in Hst. by rewrite Hst.
Qed.

Lemma apply_last (l : list item) : ∀ st rs st',
  apply (entry_of <$> l) st = (Ok rs, st') → last_applied (sm_state st') = last_id_of (last_applied (sm_state st)) l.
Proof.
  induction l as [|x l IH]; intros st rs st'; [by intros [= _ <-]|]. cbn [fmap list_fmap apply].
  destruct (apply_entry (entry_of x) st) as [[r|e|w] st1] eqn:E1; [rewrite (M_bind_Ok _ _ _ _ _ E1)|unfold mbind, M_bind; by rewrite E1..].
  destruct (apply (entry_of <$> l) st1) as [[rs1|e|w] st2] eqn:E2; [|unfold mbind, M_bind; by rewrite E2..].
  rewrite (M_bind_Ok _ _ _ _ _ E2). intros [= _ <-]. rewrite (IH _ _ _ E2), (apply_entry_last _ _ _ _ E1). done.
Qed.

Lemma last_id_reported (l : list item) o : reported_index (last_id_of o l) = last_index_of (reported_index o) l.
Proof. revert o. induction l as [|x l IH]; intros o; [done|]. apply (IH (Some x.1)). Qed.

(** Started empty and given the same committed log, the state machine on disk and
    the one in memory have the same membership; the position that the one on disk
    reports is that of the one in memory while there is no collection, and never
    after it. *)
Theorem state_machine_like_memory st l :
  started st → committed_log ∅ (-1) l →
  ∃ rs st' rs' m o o' mem, apply (entry_of <$> l) st = (Ok rs, st') ∧ mem_apply (entry_of <$> l) SmInner_default = (Ok rs', m)
    ∧ applied_state st' = (Ok (o, mem), st') ∧ mem_applied_state m = (Ok (o', mem), m)
    ∧ reported_index o ≤ reported_index o' ∧ (db_of l = ∅ → o = o').
Proof.
  intros Hst Hl. destruct (run_apply st l [] st Hst (rtc_refl _ _) Hl) as (rs & st' & E & Hrun).
  destruct (run_tracked _ _ Hst Hrun) as (g & K & Ht). cbn in Ht. destruct (mem_apply_run l SmInner_default) as [rs' E'].
  pose proof (tk_cat _ _ _ _ _ _ _ Ht) as Hct. destruct (tracked_position _ _ _ _ _ _ _ Hct) as (mk & Em & Hpos & Ho).
  assert (Elast : last_applied (sm_state st') = last_id_of None l).
  { rewrite (apply_last _ _ _ _ E). destruct Hst as (cst & _ & Es). unfold sm_open in Es.
    assert (E0 : load_membership ∅ = Ok StoredMembership_default) by done. rewrite E0 in Es. by injection Es as <-. }
  assert (Emem : sm_membership (sm_state st') = members_of l).
  { apply (tk_member _ _ _ _ _ _ _ Ht). rewrite after_last; [constructor|done|done]. }
  eexists rs, st', rs', _, _, _, (members_of l). split; [done|]. split; [done|].
  split; [rewrite (applied_state_run st' mk Em), Emem; reflexivity|]. split; [done|].
  rewrite Elast. assert (El : reported_index (last_id_of None l) = last_of l) by apply last_id_reported.
  destruct Ho as [[-> E0]|(n & Hn & En)]; [done|]. split.
  - cbn [mem_last_applied]. change (mem_last_applied SmInner_default) with (@None openraft.LogId). rewrite El.
    destruct (tk_low _ _ _ _ _ _ _ Ht) as [E0|(n' & Hn' & Hle)];
      [rewrite E0 in Hn; by destruct Hn as [? ?%lookup_empty_Some]|]. specialize (Hpos n' Hn').
    destruct mk; [etrans; [exact Hpos|exact Hle]|by rewrite El].
  - intros E0. rewrite E0 in Hn. by destruct Hn as [? ?%lookup_empty_Some].
Qed.
End machines.

(** ** Evaluated instances *)

Module MemDemo.
Import StoreDemo.
#[local] Existing Instances sum_crc32c SampleRaft.membership SampleRaft.entry_codec SampleRaft.meta_codec.

(** Three entries, a truncation of the last, another entry in its place, a purge, and
    reads in between. *)
Definition calls : list storage_call :=
  [Update (Append [entry 1; entry 2; entry 3]); GetStateCall; Update (SaveVote ballot);
   Update (Truncate (id 3)); Update (Append [entry 3]); Update (SaveCommitted (Some (id 2)));
   Update (Purge (id 1)); GetEntriesCall {| start_bound := Included 2; end_bound := Unbounded |};
   ReadVoteCall; ReadCommittedCall; GetStateCall].

Lemma calls_contract : calls_ok empty_log calls.
Proof. cbn; split_and!; try done; try (vm_compute; reflexivity); intros; by simplify_eq. Qed.

(** The indexes in an answer. *)
Definition seen (a : storage_answer) : list Z :=
  match a with
  | Done => []
  | VoteIs v => option_list (openraft.term ∘ openraft.leader_id <$> v)
  | CommittedIs c => option_list (openraft.index <$> c)
  | StateIs s => option_list (openraft.index <$> state_last_log_id s)
  | EntriesAre es => entry_index <$> es
  end.
Definition seen_by (r : result StorageError (list storage_answer)) : list (list Z) :=
  match r with Ok answers => seen <$> answers | _ => [] end.

Lemma calls_answers :
  seen_by (make_calls calls LogInner_default).1 = [[]; [3]; []; []; []; []; []; [2; 3]; [3]; [2]; [3]].
Proof. vm_compute. reflexivity. Qed.

Lemma log_store_like_memory_witness :
  ∃ st answers st' m', store_open empty_store_disk = (Ok st, store_disk st)
    ∧ make_calls calls st = (Ok answers, st') ∧ make_calls calls LogInner_default = (Ok answers, m')
    ∧ seen <$> answers = [[]; [3]; []; []; []; []; []; [2; 3]; [3]; [2]; [3]].
Proof.
  destruct (log_store_like_memory calls calls_contract) as (st & answers & st' & m' & Eo & Es & Em).
  exists st, answers, st', m'. split; [exact Eo|]. split; [exact Es|]. split; [exact Em|].
  rewrite <-calls_answers, Em. reflexivity.
Defined.
End MemDemo.

Module MemMachineDemo.
Import SmDemo RestartDemo.
#[local] Existing Instances Samples.json Samples.rfc3339 Samples.schema Samples.uuid SampleIndex.tantivy
  SampleIndex.mark_json SampleCodecs.wal_entry_codec SampleCodecs.snapshot_codec sum_crc32c
  SampleRaft.membership SampleRaft.stored_membership_codec.

Lemma state_machine_like_memory_witness :
  ∃ rs st' rs' m o o' mem, apply (entry_of <$> first ++ second) fresh = (Ok rs, st')
    ∧ mem_apply (entry_of <$> first ++ second) SmInner_default = (Ok rs', m)
    ∧ applied_state st' = (Ok (o, mem), st') ∧ mem_applied_state m = (Ok (o', mem), m)
    ∧ reported_index o ≤ reported_index o' ∧ (db_of (first ++ second) = ∅ → o = o').
Proof. apply (state_machine_like_memory fresh (first ++ second) fresh_started log_ok). Defined.
End MemMachineDemo.
