(* ===== verification/ClusterSpec.v ===== *)
(** * The cluster as its clients see it

    Two descriptions of a cluster.  [log_step]: committed commands make up one log,
    and a read answers from some version of it that is not older than the call.
    [atomic_step]: one database on which every operation takes effect at one instant
    between its call and its return.  The events of the first are events of the
    second ([log_atomic]), so a system that implements the first is linearizable. *)

From S2P Require Import Prelude Traces Bytes CoreError FileSys Proto External Mapping Document IndexApi Collection.
From S2P Require Import CollectionSpec WalInterface Catalog CatalogSpec Conversions StateMachine StateMachineCorrect.
From S2P Require Import ReplicaLog ReplicaRestart.

Open Scope Z_scope.

Section ClusterSpec.
Context `{Json} `{Rfc3339} `{TantivySchema} `{!TantivyIndex} `{!MarkJson} `{UuidApi}.
Context `{WriteAheadLog} `{!Codec v1.CatalogSnapshot}.
Context `{openraft.MembershipApi} `{!Codec raft.StoredMembership}.

Abbreviation item := (openraft.LogId * content)%type.

(** The calls and returns of the clients, by the number of the call. *)
Inductive event :=
| CallWrite (r : nat) (c : cmd)
| ReturnWrite (r : nat)
| CallRead (r : nat) (n id : string)
| ReturnRead (r : nat) (v : result Error (list byte)).

(** ** A committed log *)

(** The writes in progress and whether they have been committed; the reads in
    progress with the last committed index at their call. *)
Record log_state := {
  lg_log : list item;
  lg_writes : gmap nat (cmd * bool);
  lg_reads : gmap nat (string * string * Z)
}.
Definition log_init : log_state := {| lg_log := []; lg_writes := ∅; lg_reads := ∅ |}.

(** The uuids that a log gives to collections. *)
Definition created (l : list item) : list Uuid := omap (λ x, if x.2 is CCmd (CCreate _ u _) then Some u else None) l.

(** Calls, commits, and the returns of writes.  A committed command was accepted in the
    database it is applied to, and no uuid is given out twice. *)
Inductive client_step : log_state → option event → log_state → Prop :=
| DoCallWrite L W R r c :
    W !! r = None →
    client_step {| lg_log := L; lg_writes := W; lg_reads := R |} (Some (CallWrite r c))
                {| lg_log := L; lg_writes := <[r := (c, false)]> W; lg_reads := R |}
| DoCommit L W R r c id :
    W !! r = Some (c, false) → committed_log (db_of L) (last_of L) [(id, CCmd c)] →
    NoDup (created (L ++ [(id, CCmd c)])) →
    client_step {| lg_log := L; lg_writes := W; lg_reads := R |} None
                {| lg_log := L ++ [(id, CCmd c)]; lg_writes := <[r := (c, true)]> W; lg_reads := R |}
| DoCommitOther L W R x :
    (if x.2 is CCmd _ then False else True) → committed_log (db_of L) (last_of L) [x] →
    client_step {| lg_log := L; lg_writes := W; lg_reads := R |} None
                {| lg_log := L ++ [x]; lg_writes := W; lg_reads := R |}
| DoReturnWrite L W R r c :
    W !! r = Some (c, true) →
    client_step {| lg_log := L; lg_writes := W; lg_reads := R |} (Some (ReturnWrite r))
                {| lg_log := L; lg_writes := delete r W; lg_reads := R |}
| DoCallRead L W R r n id :
    R !! r = None → id_ok id →
    client_step {| lg_log := L; lg_writes := W; lg_reads := R |} (Some (CallRead r n id))
                {| lg_log := L; lg_writes := W; lg_reads := <[r := (n, id, last_of L)]> R |}.

Inductive log_step : log_state → option event → log_state → Prop :=
| LogClient s o s' : client_step s o s' → log_step s o s'
| LogReturnRead L W R r n id k p :
    R !! r = Some (n, id, k) → version L k p →
    log_step {| lg_log := L; lg_writes := W; lg_reads := R |} (Some (ReturnRead r (db_read (db_of p) n id)))
             {| lg_log := L; lg_writes := W; lg_reads := delete r R |}.

(** ** One database *)

(** A read in progress holds its answer once it has taken effect. *)
Record atomic_state := {
  at_db : gmap string coll;
  at_writes : gmap nat (cmd * bool);
  at_reads : gmap nat (string * string * option (result Error (list byte)))
}.
Definition atomic_init : atomic_state := {| at_db := ∅; at_writes := ∅; at_reads := ∅ |}.

Inductive atomic_step : atomic_state → option event → atomic_state → Prop :=
| AtCallWrite d W R r c :
    W !! r = None →
    atomic_step {| at_db := d; at_writes := W; at_reads := R |} (Some (CallWrite r c))
                {| at_db := d; at_writes := <[r := (c, false)]> W; at_reads := R |}
| AtWrite d W R r c :
    W !! r = Some (c, false) → cmd_ok d c →
    atomic_step {| at_db := d; at_writes := W; at_reads := R |} None
                {| at_db := step d c; at_writes := <[r := (c, true)]> W; at_reads := R |}
| AtReturnWrite d W R r c :
    W !! r = Some (c, true) →
    atomic_step {| at_db := d; at_writes := W; at_reads := R |} (Some (ReturnWrite r))
                {| at_db := d; at_writes := delete r W; at_reads := R |}
| AtCallRead d W R r n id :
    R !! r = None →
    atomic_step {| at_db := d; at_writes := W; at_reads := R |} (Some (CallRead r n id))
                {| at_db := d; at_writes := W; at_reads := <[r := (n, id, None)]> R |}
| AtRead d W R r n id :
    R !! r = Some (n, id, None) →
    atomic_step {| at_db := d; at_writes := W; at_reads := R |} None
                {| at_db := d; at_writes := W; at_reads := <[r := (n, id, Some (db_read d n id))]> R |}
| AtReturnRead d W R r n id v :
    R !! r = Some (n, id, Some v) →
    atomic_step {| at_db := d; at_writes := W; at_reads := R |} (Some (ReturnRead r v))
                {| at_db := d; at_writes := W; at_reads := delete r R |}.

(** ** The versions of a log *)

Lemma version_snoc L x k p : version (L ++ [x]) k p → version L k p ∨ p = L ++ [x].
Proof.
  intros (r & E & Hr). destruct r as [|y r _] using rev_ind; [right; by rewrite app_nil_r in E|left].
  rewrite app_assoc in E. apply app_inj_tail in E as [E _]. exists r. split; [done|]. by apply Forall_app in Hr as [? _].
Qed.

Lemma version_extend l r k p : Forall (λ x, k < openraft.index x.1) r → version l k p → version (l ++ r) k p.
Proof. intros Hr (r' & -> & Hr'). exists (r' ++ r). rewrite app_assoc. split; [done|]. by apply Forall_app. Qed.

Lemma client_log s o s' : client_step s o s' → committed_log ∅ (-1) (lg_log s') → committed_log ∅ (-1) (lg_log s).
Proof. destruct 1; cbn; try done; by intros [? _]%committed_split. Qed.

(** ** The simulation *)

(** A read that has taken effect has the answer of an allowed version. *)
Definition read_rel (L : list item) (_ : nat) (a : string * string * Z)
    (b : string * string * option (result Error (list byte))) : Prop :=
  a.1 = b.1 ∧ ∀ v, b.2 = Some v → ∃ p, version L a.2 p ∧ v = db_read (db_of p) a.1.1 a.1.2.

Record log_rel (s : log_state) (a : atomic_state) : Prop := {
  lr_log : committed_log ∅ (-1) (lg_log s);
  lr_db : at_db a = db_of (lg_log s);
  lr_writes : at_writes a = lg_writes s;
  lr_reads : map_Forall2 (read_rel (lg_log s)) (lg_reads s) (at_reads a)
}.

(** Reads that take effect at the current database, in any order. *)
Definition takes_effect (d : gmap string coll) (b b' : string * string * option (result Error (list byte))) : Prop :=
  b = b' ∨ b.2 = None ∧ b' = (b.1, Some (db_read d b.1.1 b.1.2)).

Lemma effects d W R' (ks : list nat) : ∀ R,
  map_Forall2 (λ _ : nat, takes_effect d) R R' → (∀ r, r ∉ ks → R !! r = R' !! r) →
  traces atomic_step {| at_db := d; at_writes := W; at_reads := R |} []
                     {| at_db := d; at_writes := W; at_reads := R' |}.
Proof.
  induction ks as [|r ks IH]; intros R HR Hks.
  { assert (R = R') as -> by (apply map_eq; intros r; apply Hks, not_elem_of_nil). constructor. }
  pose proof (HR r) as Hr. destruct (R !! r) as [b|] eqn:Eb; inversion Hr as [? b' Hb E1 Eb'|Eb']; subst.
  2: { apply IH; [done|]. intros r' Hr'. destruct (decide (r' = r)) as [->|]; [congruence|]. apply Hks. set_solver. }
  destruct Hb as [<-|[Hn ->]].
  { apply IH; [done|]. intros r' Hr'. destruct (decide (r' = r)) as [->|]; [congruence|]. apply Hks. set_solver. }
  destruct b as [[n id] o]. cbn in *. subst o.
  eapply (traces_cons _ _ None _ []); [by eapply AtRead|]. apply IH.
  - intros r'. destruct (decide (r' = r)) as [->|]; [|by rewrite lookup_insert_ne].
    rewrite lookup_insert_eq, <-Eb'. constructor. by left.
  - intros r' Hr'. destruct (decide (r' = r)) as [->|]; [by rewrite lookup_insert_eq|].
    rewrite lookup_insert_ne by done. apply Hks. set_solver.
Qed.

Lemma effects_all d W (R R' : gmap nat (string * string * option (result Error (list byte)))) :
  map_Forall2 (λ _ : nat, takes_effect d) R R' →
  traces atomic_step {| at_db := d; at_writes := W; at_reads := R |} []
                     {| at_db := d; at_writes := W; at_reads := R' |}.
Proof.
  intros HR. apply (effects d W R' (map_to_list R).*1); [done|]. intros r Hr. specialize (HR r).
  destruct (R !! r) as [b|] eqn:Eb; [|by inversion HR]. destruct Hr. apply list_elem_of_fmap. exists (r, b).
  split; [done|]. by apply elem_of_map_to_list.
Qed.

(** The reads before a commit: those that answer from the new version have not yet
    taken effect. *)
Lemma reads_before L x (R : gmap nat (string * string * Z)) (R' : gmap nat (string * string * option (result Error (list byte)))) :
  map_Forall2 (read_rel (L ++ [x])) R R' →
  ∃ R0, map_Forall2 (read_rel L) R R0 ∧ map_Forall2 (λ _, takes_effect (db_of (L ++ [x]))) R0 R'.
Proof.
  intros HR. destruct (map_choice (λ r a b, read_rel L r a b ∧ from_option (takes_effect (db_of (L ++ [x])) b) False (R' !! r)) R)
    as [R0 HR0].
  - intros r a Ha. specialize (HR r). rewrite Ha in HR. inversion HR as [a0 b' [E Hv] Ea Eb'|]; subst a0. cbn.
    destruct b' as [nid o]. cbn in E. subst nid. destruct o as [v|]; [|exists (a.1, None); split; [by split|by left]].
    destruct (Hv v eq_refl) as (p & Hp & Ev). destruct (version_snoc _ _ _ _ Hp) as [Hp'| ->].
    + exists (a.1, Some v). split; [|by left]. split; [done|]. intros v' [= <-]. by exists p.
    + exists (a.1, None). split; [by split|]. right. cbn. by rewrite Ev.
  - exists R0. split; [eapply map_Forall2_impl; [exact HR0|]; by intros r a b [? _]|].
    intros r. specialize (HR r). specialize (HR0 r). destruct (R !! r) as [a|], (R' !! r) as [b'|] eqn:E';
      try by inversion HR.
    + inversion HR0 as [? b [_ Hb]|]; subst. by constructor.
    + inversion HR0. constructor.
Qed.

(** A commit in the log is a write of the database, then the effect of the reads that
    see it. *)
Lemma commit_back L x W W' R a' :
  log_rel {| lg_log := L ++ [x]; lg_writes := W'; lg_reads := R |} a' →
  (∀ R0, atomic_step {| at_db := db_of L; at_writes := W; at_reads := R0 |} None
                     {| at_db := db_of (L ++ [x]); at_writes := W'; at_reads := R0 |}
         ∨ db_of (L ++ [x]) = db_of L ∧ W' = W) →
  ∃ a, traces atomic_step a [] a' ∧ log_rel {| lg_log := L; lg_writes := W; lg_reads := R |} a.
Proof.
  intros [Hl Hd Hw Hr] Hstep. destruct a' as [d' W1 R']. cbn in *. subst d' W1.
  destruct (reads_before _ _ _ _ Hr) as (R0 & HR0 & Heff).
  exists {| at_db := db_of L; at_writes := W; at_reads := R0 |}. split; [|split; cbn; try done; by apply committed_split in Hl as [? _]].
  destruct (Hstep R0) as [Hs|[Ed ->]]; [|rewrite <-Ed; by apply effects_all].
  eapply (traces_cons _ _ None _ []); [done|by apply effects_all].
Qed.

Lemma log_back s o s' a' :
  log_step s o s' → log_rel s' a' → ∃ a, traces atomic_step a (option_list o) a' ∧ log_rel s a.
Proof.
  intros [s1 o1 s2 Hs|L W R r n id k p Hr Hp] Ha.
  - destruct Hs as [L W R r c Hr|L W R r c id Hr Hc Hnd|L W R x Hx Hc|L W R r c Hr|L W R r n id Hr Hid].
    + destruct a' as [d W' R'], Ha as [Hl Hd Hw HR]. cbn in *. subst d W'.
      exists {| at_db := db_of L; at_writes := W; at_reads := R' |}. split; [|by split].
      by apply (traces_one _ _ (Some _)), AtCallWrite.
    + eapply commit_back; [done|]. intros R0. left. rewrite db_of_app. apply AtWrite; [done|].
      apply (proj1 (proj2 (proj2 Hc))).
    + eapply commit_back; [done|]. intros R0. right. rewrite db_of_app. cbn. unfold db_after. by destruct x as [? []].
    + destruct a' as [d W' R'], Ha as [Hl Hd Hw HR]. cbn in *. subst d W'.
      exists {| at_db := db_of L; at_writes := W; at_reads := R' |}. split; [|by split].
      by eapply (traces_one _ _ (Some _)), AtReturnWrite.
    + destruct a' as [d W' R'], Ha as [Hl Hd Hw HR]. cbn in *. subst d W'.
      apply map_Forall2_insert_inv_l in HR as (b & R0 & -> & Hn & [E Hv] & HR0); [|done].
      destruct b as [nid ov]. cbn in E, Hv. subst nid.
      exists {| at_db := db_of L; at_writes := W; at_reads := R0 |}. split; [|by split].
      eapply (traces_cons _ _ (Some _) _ []); [by apply AtCallRead|]. destruct ov as [v|]; [|constructor].
      destruct (Hv v eq_refl) as (p & Hp & ->). apply version_last in Hp as ->; [|done|done].
      rewrite <-(insert_insert_eq R0 r (n, id, Some (db_read (db_of L) n id)) (n, id, None)).
      apply (traces_one atomic_step _ None). apply AtRead. apply lookup_insert_eq.
  - destruct a' as [d W' R'], Ha as [Hl Hd Hw HR]. cbn in *. subst d W'.
    assert (Hn : R' !! r = None).
    { specialize (HR r). rewrite lookup_delete_eq in HR. by inversion HR. }
    exists {| at_db := db_of L; at_writes := W; at_reads := <[r := (n, id, Some (db_read (db_of p) n id))]> R' |}. split.
    + rewrite <-(delete_insert_id R' r (n, id, Some (db_read (db_of p) n id)) Hn) at 2.
      eapply (traces_one _ _ (Some _)), AtReturnRead. apply lookup_insert_eq.
    + split; cbn; [done..|]. rewrite <-(insert_delete_id R r (n, id, k)) by done. apply map_Forall2_insert_2; [|done].
      split; [done|]. cbn. intros v [= <-]. by exists p.
Qed.

(** Every sequence of calls and returns of the log is one of the atomic database. *)
Lemma log_atomic t s :
  traces log_step log_init t s → committed_log ∅ (-1) (lg_log s) → ∃ a, traces atomic_step atomic_init t a.
Proof.
  intros Ht Hl. destruct (map_choice (read_rel (lg_log s)) (lg_reads s)) as [R HR].
  { intros r a _. exists (a.1, None). by split. }
  destruct (backward_simulation log_step atomic_step log_rel log_init t s
    {| at_db := db_of (lg_log s); at_writes := lg_writes s; at_reads := R |}) as (a & Ha & [_ Ed Ew Er]);
    [apply log_back|done|by split|].
  exists {| at_db := db_of (lg_log s); at_writes := lg_writes s; at_reads := R |}.
  destruct a as [d W R0]. cbn in *. subst d W. apply map_Forall2_empty_inv_l in Er as ->. exact Ha.
Qed.
End ClusterSpec.
