(* ===== verification/ClusterHistory.v ===== *)
(** * Histories of a cluster

    A cluster is the committed log with the clients' calls, its nodes, and the
    snapshots they have built.  Nodes join, apply and replay entries, commit,
    checkpoint, are killed and started again, build snapshots and install those of
    other nodes, in any order; a read is answered by a node that has applied
    what was committed when it was called.  openraft's part is what the steps assume:
    one committed log, handed to every node in order, and a snapshot only for a
    node whose log it extends. *)

From S2P Require Import Prelude Traces Bytes CoreError FileSys Proto External Mapping Document IndexApi Collection.
From S2P Require Import CollectionSpec WalInterface Catalog CatalogSpec CatalogSnapshots Conversions LogStore StateMachine.
From S2P Require Import ReplicaSpec StateMachineCorrect ReplicaLog ReplicaRestart ReplicaSnapshot ClusterSpec.
From S2P Require Import SegmentedLog LogCorrect Samples SampleCodecs SampleIndex Wal CatalogCorrect SampleRaft RestartCorrect.

Open Scope Z_scope.

Section ClusterHistory.
Context `{Json} `{Rfc3339} `{TantivySchema} `{!TantivyIndex} `{!MarkJson} `{UuidApi}.
Context `{WriteAheadLog} `{!Codec v1.CatalogSnapshot}.
Context `{openraft.MembershipApi} `{!Codec raft.StoredMembership}.

Abbreviation item := (openraft.LogId * content)%type.

(** A snapshot is kept with the log of the node that built it. *)
Record cluster_state := {
  cs_client : log_state;
  cs_nodes : gmap Z replica_state;
  cs_snaps : list (list item * openraft.SnapshotMeta * archive)
}.
Definition cluster_init : cluster_state := {| cs_client := log_init; cs_nodes := ∅; cs_snaps := [] |}.

Definition set_sm (s : replica_state) (st : SmSt) : replica_state :=
  {| rs_log := rs_log s; rs_pos := rs_pos s; rs_sm := st |}.

(** A read is answered at a mark that the node has applied and that is not older than
    the call; nothing is dropped after the position of an installed snapshot; the
    bytes of an installed [catalog.pb] survive a crash although they are not synced
    (the [false] of [replica_step]). *)
Inductive cluster_step : cluster_state → option event → cluster_state → Prop :=
| CsClient f o f' N S :
    client_step f o f' →
    cluster_step {| cs_client := f; cs_nodes := N; cs_snaps := S |} o
                 {| cs_client := f'; cs_nodes := N; cs_snaps := S |}
| CsJoin f N S i st :
    N !! i = None → started st →
    cluster_step {| cs_client := f; cs_nodes := N; cs_snaps := S |} None
                 {| cs_client := f; cs_nodes := <[i := {| rs_log := []; rs_pos := -1; rs_sm := st |}]> N; cs_snaps := S |}
| CsNode f N S i s s' :
    N !! i = Some s → replica_step false s s' → rs_log s' `prefix_of` lg_log f →
    cluster_step {| cs_client := f; cs_nodes := N; cs_snaps := S |} None
                 {| cs_client := f; cs_nodes := <[i := s']> N; cs_snaps := S |}
| CsBuild f N S i s meta tar st :
    N !! i = Some s → sm_build_snapshot (rs_sm s) = (Ok (meta, tar), st) →
    cluster_step {| cs_client := f; cs_nodes := N; cs_snaps := S |} None
                 {| cs_client := f; cs_nodes := <[i := set_sm s st]> N; cs_snaps := (rs_log s, meta, tar) :: S |}
| CsInstall f N S i s l meta tar st :
    N !! i = Some s → (l, meta, tar) ∈ S →
    last_of (rs_log s) ≤ snap_pos meta → no_drops (after (snap_pos meta) l) →
    sm_install_snapshot meta tar (rs_sm s) = (Ok tt, st) →
    cluster_step {| cs_client := f; cs_nodes := N; cs_snaps := S |} None
                 {| cs_client := f; cs_nodes := <[i := {| rs_log := l; rs_pos := snap_pos meta; rs_sm := st |}]> N;
                    cs_snaps := S |}
| CsReturnRead L W R N S i s r n id k mark v cst :
    N !! i = Some s → R !! r = Some (n, id, k) →
    k ≤ rs_pos s → k ≤ mark_index mark → 0 ≤ mark_index mark ≤ 0 `max` rs_pos s →
    read_latest n id mark (sm_catalog (rs_sm s)) = (v, cst) →
    cluster_step {| cs_client := {| lg_log := L; lg_writes := W; lg_reads := R |}; cs_nodes := N; cs_snaps := S |}
                 (Some (ReturnRead r v))
                 {| cs_client := {| lg_log := L; lg_writes := W; lg_reads := delete r R |};
                    cs_nodes := <[i := set_sm s (with_catalog (rs_sm s) cst)]> N; cs_snaps := S |}.

(** ** Uuids *)

Lemma created_app l r : created (l ++ r) = created l ++ created r.
Proof. apply omap_app. Qed.

Lemma live_entry d x u : live (db_after d x) u → live d u ∨ u ∈ created [x].
Proof.
  destruct x as [lid [|m|c]]; unfold db_after; cbn; [by left..|]. intros [?|Hu]%live_step; [by left|right].
  destruct c; cbn in *; [|by apply elem_of_nil in Hu..]. done.
Qed.

Lemma live_created l u : live (db_of l) u → u ∈ created l.
Proof.
  induction l as [|x l IH] using rev_ind; [intros (n & c & Hc & _); cbn in Hc; by rewrite lookup_empty in Hc|].
  rewrite db_of_app, created_app, elem_of_app. cbn [foldl]. intros [?|?]%live_entry; [left; by apply IH|by right].
Qed.

(** A uuid that is not in use any more is not used again. *)
Lemma dead_stays l r u : NoDup (created (l ++ r)) → u ∈ created l → ¬ live (db_of l) u → ¬ live (db_of (l ++ r)) u.
Proof.
  intros Hnd Hu Hd. induction r as [|x r IH] using rev_ind; [by rewrite app_nil_r|].
  rewrite app_assoc in *. rewrite created_app in Hnd. apply NoDup_app in Hnd as (Hnd & Hx & _).
  rewrite db_of_app. cbn [foldl]. intros [Hl|Hl]%live_entry; [by apply IH|]. apply (Hx u); [|done].
  rewrite created_app. apply elem_of_app. by left.
Qed.

(** ** The invariant *)

(** What is in quarantine is not in use any more. *)
Definition quar_dead (l : list item) (q : gmap (Uuid * Z) (option Index)) : Prop :=
  ∀ u z, is_Some (q !! (u, z)) → u ∈ created l ∧ ¬ live (db_of l) u.

Definition node_ok (L : list item) (s : replica_state) : Prop :=
  rs_log s `prefix_of` L
  ∧ ∃ q g K, tracked false q (rs_log s) (rs_pos s) (rs_sm s) g K ∧ quar_dead (rs_log s) q.

Record cluster_ok (cs : cluster_state) : Prop := {
  co_log : committed_log ∅ (-1) (lg_log (cs_client cs));
  co_uuids : NoDup (created (lg_log (cs_client cs)));
  co_nodes : map_Forall (λ _, node_ok (lg_log (cs_client cs))) (cs_nodes cs);
  co_snaps : Forall (λ x, x.1.1 `prefix_of` lg_log (cs_client cs) ∧ snapshot_at x.1.1 x.1.2 x.2) (cs_snaps cs)
}.

Lemma quar_dead_prefix l l' q : NoDup (created l') → l `prefix_of` l' → quar_dead l q → quar_dead l' q.
Proof.
  intros Hnd [r ->] Hq u z Hz. destruct (Hq u z Hz) as [Hu Hd]. split; [|by apply dead_stays].
  rewrite created_app. apply elem_of_app. by left.
Qed.

Lemma NoDup_created_prefix l L : l `prefix_of` L → NoDup (created L) → NoDup (created l).
Proof. intros [r ->]. rewrite created_app. by intros [? _]%NoDup_app. Qed.

Lemma client_extends f o f' :
  client_step f o f' → committed_log ∅ (-1) (lg_log f) → NoDup (created (lg_log f)) →
  lg_log f `prefix_of` lg_log f' ∧ committed_log ∅ (-1) (lg_log f') ∧ NoDup (created (lg_log f')).
Proof.
  destruct 1 as [| L W R r c id Hr Hc Hnd | L W R x Hx Hc | |]; cbn [lg_log]; intros Hl Hu; try (by split).
  - split; [by apply prefix_app_r|]. split; [by apply committed_split|done].
  - split; [by apply prefix_app_r|]. split; [by apply committed_split|]. rewrite created_app.
    destruct x as [lid [|m|c]]; cbn in *; by rewrite ?app_nil_r.
Qed.

Lemma replica_step_log sync s s' : replica_step sync s s' → rs_log s `prefix_of` rs_log s'.
Proof. destruct 1; cbn; [by apply prefix_app_r|done..]. Qed.

Lemma node_step_ok L s s' :
  NoDup (created L) → replica_step false s s' → rs_log s' `prefix_of` L → node_ok L s → node_ok L s'.
Proof.
  intros Hnd Hs Hp (_ & q & g & K & Ht & Hq). split; [done|].
  destruct (step_tracked false q s s' Hs) as (g' & K' & Ht'); [by eauto|]. exists q, g', K'. split; [done|].
  eapply quar_dead_prefix; [by eapply NoDup_created_prefix|by eapply replica_step_log|done].
Qed.

Lemma node_ok_extend L L' s : L `prefix_of` L' → node_ok L s → node_ok L' s.
Proof. intros HL [Hp Ht]. split; [by etrans|done]. Qed.

(** Of two versions of one log, the one that ends later extends the other. *)
Lemma prefixes_ordered (L l l' : list item) :
  committed_log ∅ (-1) L → l `prefix_of` L → l' `prefix_of` L → last_of l ≤ last_of l' → l `prefix_of` l'.
Proof.
  intros HL Hl Hl' Hle. destruct (prefix_weak_total l l' L Hl Hl') as [?|[r ->]]; [done|].
  destruct r as [|x r _] using rev_ind; [by rewrite app_nil_r|]. exfalso. destruct Hl as [r' ->].
  apply committed_split in HL as [HL _]. apply committed_split in HL as [_ Hr]. rewrite app_assoc, last_of_app in Hle.
  apply committed_log_above in Hr. apply Forall_app in Hr as [_ Hx]. inversion Hx. lia.
Qed.

Lemma snapshot_bounds l meta tar : snapshot_at l meta tar → snap_pos meta ≤ last_of l.
Proof.
  intros (sync & q & j & st & st' & g & K & Ht & E). destruct (build_run _ _ _ _ _ _ _ Ht) as (meta' & E' & _ & Hb & _).
  rewrite E in E'. injection E' as <- _ _. pose proof (tk_pos _ _ _ _ _ _ _ Ht). lia.
Qed.

Lemma snapshot_live l meta tar u : snapshot_at l meta tar → is_Some (ar_cols tar !! u) → live (db_of l) u.
Proof.
  intros (sync & q & j & st & st' & g & K & Ht & E). destruct (build_run _ _ _ _ _ _ _ Ht) as (meta' & E' & _).
  rewrite E in E'. injection E' as _ -> _. by apply (archive_live sync q l j _ g K), Ht.
Qed.

Lemma dirs_live sync q l j st g K u :
  tracked sync q l j st g K → is_Some (col_dirs (root (sm_catalog st)) !! u) → live (db_of l) u.
Proof.
  intros Ht Hu. pose proof (tk_cat _ _ _ _ _ _ _ Ht) as Hct.
  eapply same_schema_live; [apply Hct|]. by eapply rp_dirs, Hu; apply Hct.
Qed.

(** A node whose log a snapshot extends installs it. *)
Lemma install_node L s l meta tar :
  committed_log ∅ (-1) L → NoDup (created L) → node_ok L s →
  l `prefix_of` L → snapshot_at l meta tar → last_of (rs_log s) ≤ snap_pos meta →
  ∃ st, sm_install_snapshot meta tar (rs_sm s) = (Ok tt, st)
    ∧ (no_drops (after (snap_pos meta) l) → node_ok L {| rs_log := l; rs_pos := snap_pos meta; rs_sm := st |}).
Proof.
  intros HL Hnd (Hp & q & g & K & Ht & Hq) Hl Hs Hle. pose proof (snapshot_bounds _ _ _ Hs) as Hb.
  assert (Hpl : rs_log s `prefix_of` l) by (eapply prefixes_ordered; [done..|lia]).
  assert (Hq' : quar_dead l q) by (eapply quar_dead_prefix; [by eapply NoDup_created_prefix|done|done]).
  pose proof (ct_idle _ _ _ _ _ _ _ (tk_cat _ _ _ _ _ _ _ Ht)) as [Hw Eq]. cbn in Hw, Eq.
  destruct (tracked_install l meta tar (rs_sm s) Hs Hw) as (st & g' & K' & E & Ht' & Hnew).
  { intros u z Hz. rewrite Eq in Hz. split; apply eq_None_not_Some.
    - intros Hu%(dirs_live _ _ _ _ _ _ _ _ Ht). by apply (Hq u z Hz).
    - intros Hu%(snapshot_live _ _ _ _ Hs). by apply (Hq' u z Hz). }
  exists st. split; [done|]. intros Hdr. split; [done|]. eexists _, g', K'. split; [by apply Ht'|].
  intros u z [Hz|[Hu Hd]]%Hnew; [rewrite Eq in Hz; by apply (Hq' u z)|]. split; [|done].
  apply (dirs_live _ _ _ _ _ _ _ _ Ht), live_created in Hu. destruct Hpl as [r ->].
  cbn [rs_log]. rewrite created_app. apply elem_of_app. by left.
Qed.

Lemma node_ok_sm L s st :
  (∀ q g K, tracked false q (rs_log s) (rs_pos s) (rs_sm s) g K →
     ∃ K', tracked false q (rs_log s) (rs_pos s) st g K') →
  node_ok L s → node_ok L (set_sm s st).
Proof.
  intros Hst (Hp & q & g & K & Ht & Hq). split; [done|]. destruct (Hst _ _ _ Ht) as [K' Ht']. by exists q, g, K'.
Qed.

Lemma build_node L s meta tar st :
  sm_build_snapshot (rs_sm s) = (Ok (meta, tar), st) → node_ok L s →
  node_ok L (set_sm s st) ∧ snapshot_at (rs_log s) meta tar.
Proof.
  intros E Hs. split; [|destruct Hs as (_ & q & g & K & Ht & _); by eexists _, _, _, _, _, _, _].
  eapply node_ok_sm; [|done]. intros q g K Ht. destruct (tracked_build _ _ _ _ _ _ _ Ht) as (? & ? & ? & E' & Ht').
  rewrite E in E'. injection E' as _ _ <-. by exists K.
Qed.

(** The answer of a read, and the node after it. *)
Lemma read_node L s n id k mark v cst :
  committed_log ∅ (-1) L → id_ok id → k ≤ rs_pos s → k ≤ mark_index mark → 0 ≤ mark_index mark ≤ 0 `max` rs_pos s →
  read_latest n id mark (sm_catalog (rs_sm s)) = (v, cst) → node_ok L s →
  node_ok L (set_sm s (with_catalog (rs_sm s) cst)) ∧ ∃ p, version L k p ∧ v = db_read (db_of p) n id.
Proof.
  intros HL Hid Hk Hkm Hm E Hs. split.
  - eapply node_ok_sm; [|done]. intros q g K Ht.
    destruct (tracked_read _ _ _ _ _ _ _ n id mark Ht Hm Hid) as (p & cst' & K' & E' & _ & Ht').
    rewrite E in E'. injection E' as _ <-. by exists K'.
  - destruct Hs as ([r ->] & q & g & K & Ht & _).
    destruct (tracked_read _ _ _ _ _ _ _ n id mark Ht Hm Hid) as (p & cst' & K' & E' & Hp & _).
    rewrite E in E'. injection E' as -> _. exists p. split; [|done]. apply version_extend; [|by eapply version_mono].
    apply committed_split in HL as [_ Hr]. eapply Forall_impl; [by eapply committed_log_above|]. cbn.
    pose proof (tk_pos _ _ _ _ _ _ _ Ht). lia.
Qed.

(** The ids of the reads in progress can be looked up. *)
Definition reads_ok (f : log_state) : Prop := map_Forall (λ _ x, id_ok x.1.2) (lg_reads f).

Lemma client_reads f o f' : client_step f o f' → reads_ok f → reads_ok f'.
Proof. destruct 1; try done. unfold reads_ok. cbn. intros HR. by apply map_Forall_insert_2. Qed.

Lemma cluster_step_ok cs o cs' :
  cluster_step cs o cs' → reads_ok (cs_client cs) → cluster_ok cs → cluster_ok cs' ∧ reads_ok (cs_client cs').
Proof.
  intros Hs Hr [HL Hu HN HS]. destruct Hs as [f o f' N S Hf|f N S i st Hi Hst|f N S i s s' Hi Hs Hp|
    f N S i s meta tar st Hi E|f N S i s l meta tar st Hi Hin Hle Hdr E|
    L W R N S i s r n id k mark v cst Hi Hrd Hk Hkm Hm E]; cbn [cs_client cs_nodes cs_snaps] in *.
  - destruct (client_extends _ _ _ Hf HL Hu) as (Hp & HL' & Hu'). split; [|by eapply client_reads].
    split; cbn [cs_client cs_nodes cs_snaps]; [done|done|..].
    + eapply map_Forall_impl; [exact HN|]. intros i s. by apply node_ok_extend.
    + eapply Forall_impl; [exact HS|]. intros x [? ?]. split; [by etrans|done].
  - split; [|done]. split; try done. apply map_Forall_insert_2; [|done]. split; [apply prefix_nil|].
    exists ∅, ∅, (λ _, 0). split; [by apply started_tracked|]. intros u z [? Hz]. by rewrite lookup_empty in Hz.
  - split; [|done]. split; try done. apply map_Forall_insert_2; [|done]. eapply node_step_ok; [done..|by eapply HN].
  - destruct (build_node (lg_log f) s meta tar st E (HN _ _ Hi)) as [Hn Hsn]. split; [|done].
    split; try done; [by apply map_Forall_insert_2|]. constructor; [|done]. split; [apply (HN _ _ Hi)|done].
  - split; [|done]. split; try done. apply map_Forall_insert_2; [|done]. rewrite Forall_forall in HS.
    destruct (HS _ Hin) as [Hp Hsn]. destruct (install_node _ s l meta tar HL Hu (HN _ _ Hi) Hp Hsn Hle) as (st' & E' & Hn).
    rewrite E in E'. injection E' as <-. by apply Hn.
  - destruct (read_node L s n id k mark v cst HL (Hr _ _ Hrd) Hk Hkm Hm E (HN _ _ Hi)) as [Hn _].
    split; [|by apply map_Forall_delete]. split; try done. by apply map_Forall_insert_2.
Qed.

Lemma cluster_run_ok t cs :
  traces cluster_step cluster_init t cs → cluster_ok cs ∧ reads_ok (cs_client cs).
Proof.
  intros Ht. eapply (traces_invariant _ (λ cs, cluster_ok cs ∧ reads_ok (cs_client cs))); [|exact Ht|].
  - intros s o s' Hs [? ?]. by eapply cluster_step_ok.
  - split; [split; [done|constructor|apply map_Forall_empty|constructor]|apply map_Forall_empty].
Qed.

(** ** The cluster is a committed log *)

(** A cluster that is well formed shows its client part. *)
Definition cluster_rel (cs : cluster_state) (f : log_state) : Prop :=
  f = cs_client cs ∧ cluster_ok cs ∧ reads_ok (cs_client cs).

Lemma cluster_log cs o cs' f :
  cluster_step cs o cs' → cluster_rel cs f → ∃ f', traces log_step f (option_list o) f' ∧ cluster_rel cs' f'.
Proof.
  intros Hs (-> & Hok & Hr). destruct (cluster_step_ok _ _ _ Hs Hr Hok) as [Hok' Hr'].
  exists (cs_client cs'). split; [|done].
  destruct Hs as [f o f' N S Hf| | | | |L W R N S i s r n id k mark v cst Hi Hrd Hk Hkm Hm E]; cbn [cs_client];
    try constructor.
  - by apply traces_one, LogClient.
  - destruct (read_node L s n id k mark v cst (co_log _ Hok) (Hr _ _ Hrd) Hk Hkm Hm E (co_nodes _ Hok _ _ Hi))
      as [_ (p & Hp & ->)]. by eapply traces_one, LogReturnRead.
Qed.

Lemma cluster_atomic t cs :
  traces cluster_step cluster_init t cs → ∃ a, traces atomic_step atomic_init t a.
Proof.
  intros Ht. pose proof (cluster_run_ok _ _ Ht) as [Hok _].
  destruct (forward_simulation cluster_step log_step cluster_rel cluster_init t cs log_init cluster_log Ht)
    as (f & Hf & -> & _).
  - split; [done|]. apply (cluster_run_ok []). constructor.
  - eapply log_atomic; [exact Hf|]. apply Hok.
Qed.

(** C16: Linearizability of a cluster: the calls and returns in every run of
    [cluster_step] are those of one database on which each write and each read takes
    effect at one instant between its call and its return. In these runs nodes apply the
    committed log at their own pace, commit at positions already applied, build and
    install snapshots, are killed at rest, in a checkpoint or in the membership write,
    restart, and replay in part. The steps exclude: committed commands that are not valid
    where they stand ([raced_index_stops_replicas]), a drop after the position of a
    restart or of an installed snapshot ([restart_replays_into_new_collection]), a commit
    inside [build_snapshot] ([raced_snapshot_loses_document]), kills inside
    [apply_create], [apply_drop] and [install_snapshot], and a crash that loses the
    unsynced [catalog.pb] of an install. *)
Theorem cluster_linearizable t cs :
  traces cluster_step cluster_init t cs → ∃ a, traces atomic_step atomic_init t a.
Proof. apply cluster_atomic. Qed.

(** ** Nodes catch up *)

Lemma replay_steps sync q l r : ∀ j st g K,
  tracked sync q l j st g K → after j l = r →
  ∃ st' g', rtc (replica_step sync) {| rs_log := l; rs_pos := j; rs_sm := st |}
                                    {| rs_log := l; rs_pos := last_of l; rs_sm := st' |}
    ∧ tracked sync q l (last_of l) st' g' K.
Proof.
  induction r as [|x r IH]; intros j st g K Ht Ea; pose proof (tk_log _ _ _ _ _ _ _ Ht) as Hl.
  - exists st, g. pose proof (tk_pos _ _ _ _ _ _ _ Ht). rewrite <-(after_nil l j) by done. split; [constructor|done].
  - destruct (tracked_replay _ _ _ _ _ _ _ _ _ Ht Ea) as (resp & st1 & g1 & E & Ht1).
    destruct (after_next l j x r Hl Ea) as (_ & _ & _ & _ & _ & Er).
    destruct (IH _ _ _ _ Ht1 Er) as (st' & g' & Hrun & Ht'). exists st', g'. split; [|done].
    eapply rtc_l; [by eapply StepReplay|done].
Qed.

Lemma apply_steps sync q xs : ∀ l st g K,
  tracked sync q l (last_of l) st g K → committed_log (db_of l) (last_of l) xs →
  ∃ st' g' K', rtc (replica_step sync) {| rs_log := l; rs_pos := last_of l; rs_sm := st |}
                   {| rs_log := l ++ xs; rs_pos := last_of (l ++ xs); rs_sm := st' |}
    ∧ tracked sync q (l ++ xs) (last_of (l ++ xs)) st' g' K'.
Proof.
  induction xs as [|x xs IH]; intros l st g K Ht Hxs; [exists st, g, K; rewrite app_nil_r; by split|].
  apply (committed_log_app [x] xs) in Hxs as [Hx Hxs].
  destruct (tracked_apply _ _ _ _ _ _ _ Ht Hx) as (r & st1 & g1 & K1 & E & Ht1). rewrite <-(last_of_app l x) in Ht1.
  destruct (IH (l ++ [x]) st1 g1 K1 Ht1) as (st' & g' & K' & Hrun & Ht'); [by rewrite db_of_app, last_of_app|].
  rewrite <-app_assoc in Hrun, Ht'. exists st', g', K'. split; [|done]. eapply rtc_l; [|exact Hrun].
  rewrite last_of_app. by eapply StepApply.
Qed.

(** The node that is handed the rest of the log. *)
Lemma node_catches_up L s :
  committed_log ∅ (-1) L → node_ok L s →
  ∃ st, rtc (replica_step false) s {| rs_log := L; rs_pos := last_of L; rs_sm := st |}
    ∧ sm_rel st (db_of L) (last_of L) (members_of L).
Proof.
  destruct s as [l j st]. intros HL ([r ->] & q & g & K & Ht & _). cbn [rs_log rs_pos rs_sm] in *.
  apply committed_split in HL as [_ Hr]. destruct (replay_steps _ _ _ _ _ _ _ _ Ht eq_refl) as (st1 & g1 & Hrun1 & Ht1).
  destruct (apply_steps _ _ r _ _ _ _ Ht1 Hr) as (st2 & g2 & K2 & Hrun2 & Ht2). exists st2.
  split; [by etrans|by eapply tracked_sm_rel].
Qed.

Lemma lift_node f N S i s s' :
  rtc (replica_step false) s s' → N !! i = Some s → rs_log s' `prefix_of` lg_log f →
  traces cluster_step {| cs_client := f; cs_nodes := N; cs_snaps := S |} []
                      {| cs_client := f; cs_nodes := <[i := s']> N; cs_snaps := S |}.
Proof.
  intros Hrun. revert N. induction Hrun as [s|s s1 s2 Hs Hrun IH]; intros N Hi Hp; [rewrite insert_id by done; constructor|].
  assert (Hp1 : rs_log s1 `prefix_of` lg_log f).
  { etrans; [|exact Hp]. clear -Hrun. induction Hrun as [|???? _ IH]; [done|].
    etrans; [by eapply replica_step_log|done]. }
  eapply (traces_cons _ _ None _ []); [by eapply CsNode|]. rewrite <-(insert_insert_eq N i s2 s1).
  apply IH; [apply lookup_insert_eq|done].
Qed.

(** C17: In every run of [cluster_step], each node can catch up by its own steps: none of
    the entries it is handed fails, and it ends with the database and membership of the
    whole committed log. The runs are those of [cluster_linearizable]: in particular the
    commands are valid where they stand and no drop follows the position that a restart
    reports or a snapshot is installed at; without that an entry can fail
    ([restart_replays_into_new_collection]). *)
Theorem cluster_node_catches_up t cs i s :
  traces cluster_step cluster_init t cs → cs_nodes cs !! i = Some s →
  ∃ cs' st, traces cluster_step cs [] cs' ∧ cs_client cs' = cs_client cs
    ∧ cs_nodes cs' !! i = Some {| rs_log := lg_log (cs_client cs); rs_pos := last_of (lg_log (cs_client cs)); rs_sm := st |}
    ∧ sm_rel st (db_of (lg_log (cs_client cs))) (last_of (lg_log (cs_client cs))) (members_of (lg_log (cs_client cs))).
Proof.
  intros Ht Hi. pose proof (cluster_run_ok _ _ Ht) as [[HL _ HN _] _]. destruct cs as [f N S]. cbn [cs_client cs_nodes] in *.
  destruct (node_catches_up _ s HL (HN _ _ Hi)) as (st & Hrun & Hst).
  eexists {| cs_client := f; cs_nodes := <[i := _]> N; cs_snaps := S |}, st.
  split; [by eapply lift_node|]. split; [done|]. split; [apply lookup_insert_eq|done].
Qed.

(** C18: In every run of [cluster_step], a snapshot that some node built, without a commit
    in the middle of [build_snapshot], installs without an error on each node whose log it
    extends, also one with other collections, snapshots or quarantined directories; and if
    no collection is dropped in the builder's log after the position of the snapshot, the
    node then catches up with the committed log. The conditions of [cluster_linearizable]
    apply; a snapshot built around a checkpoint does lose entries
    ([raced_snapshot_loses_document]). *)
Theorem snapshot_installs_anywhere t cs i s l meta tar :
  traces cluster_step cluster_init t cs → cs_nodes cs !! i = Some s → (l, meta, tar) ∈ cs_snaps cs →
  last_of (rs_log s) ≤ snap_pos meta →
  ∃ st, sm_install_snapshot meta tar (rs_sm s) = (Ok tt, st)
    ∧ (no_drops (after (snap_pos meta) l) →
       ∃ st', rtc (replica_step false) {| rs_log := l; rs_pos := snap_pos meta; rs_sm := st |}
                {| rs_log := lg_log (cs_client cs); rs_pos := last_of (lg_log (cs_client cs)); rs_sm := st' |}
         ∧ sm_rel st' (db_of (lg_log (cs_client cs))) (last_of (lg_log (cs_client cs))) (members_of (lg_log (cs_client cs)))).
Proof.
  intros Ht Hi Hin Hle. pose proof (cluster_run_ok _ _ Ht) as [[HL Hu HN HS] _]. rewrite Forall_forall in HS.
  destruct (HS _ Hin) as [Hp Hsn]. destruct (install_node _ s l meta tar HL Hu (HN _ _ Hi) Hp Hsn Hle) as (st & E & Hn).
  exists st. split; [done|]. intros Hdr. by apply node_catches_up, Hn.
Qed.
End ClusterHistory.

(** ** Evaluated instances *)

Module HistoryDemo.
Import SmDemo RestartDemo.
#[local] Existing Instances Samples.json Samples.rfc3339 Samples.schema Samples.uuid SampleIndex.tantivy
  SampleIndex.mark_json SampleCodecs.wal_entry_codec SampleCodecs.snapshot_codec sum_crc32c
  SampleRaft.membership SampleRaft.stored_membership_codec.

Definition create : cmd := CCreate "books" ("u1" : @Uuid Samples.uuid) sample_mapping.
Definition put : cmd := CIndex "books" "a" [x07].

(** Two clients write and one reads.  Node 1 applies the log and builds a snapshot after a
    checkpoint; node 2 joins, installs the snapshot and answers the read. *)
Definition calls : list event :=
  [CallWrite 0 create; CallWrite 1 put; ReturnWrite 0; ReturnWrite 1; CallRead 2 "books" "a";
   ReturnRead 2 (Ok [x07])].

Definition applied_to (st : SmSt) (x : openraft.LogId * content) : SmSt := (apply_entry (entry_of x) st).2.
Definition a0 : SmSt := applied_to fresh (id 0, members).
Definition a1 : SmSt := applied_to a0 (id 1, CCmd create).
Definition a2 : SmSt := applied_to a1 (id 2, CCmd put).
Definition a3 : SmSt := with_catalog a2 (checkpoint_applied (local_mark 2) (sm_catalog a2)).2.

Definition built : result StorageError (openraft.SnapshotMeta * archive) * SmSt := sm_build_snapshot a3.
Definition meta : openraft.SnapshotMeta :=
  match built.1 with
  | Ok (meta, _) => meta
  | _ => {| openraft.last_log_id := None; openraft.last_membership := StoredMembership_default; openraft.snapshot_id := "" |}
  end.
Definition tar : archive :=
  match built.1 with Ok (_, tar) => tar | _ => {| ar_catalog := []; ar_cols := ∅ |} end.
Definition b1 : SmSt := (sm_install_snapshot meta tar fresh).2.
Definition answered : result Error (list byte) * CatSt := read_latest "books" "a" (local_mark 2) (sm_catalog b1).

Definition no_writes : gmap nat (cmd * bool) := ∅.
Definition at_log (L : list (openraft.LogId * content)) (W : gmap nat (cmd * bool)) (R : gmap nat (string * string * Z)) : log_state :=
  {| lg_log := L; lg_writes := W; lg_reads := R |}.
Definition W1 : gmap nat (cmd * bool) := <[0%nat := (create, false)]> no_writes.
Definition W2 : gmap nat (cmd * bool) := <[1%nat := (put, false)]> W1.
Definition W3 : gmap nat (cmd * bool) := <[1%nat := (put, true)]> (<[0%nat := (create, true)]> W2).
Definition done_log : log_state := at_log first (delete 1%nat (delete 0%nat W3)) ∅.

Ltac silent := eapply (traces_cons _ _ None).
Ltac shows := eapply (traces_cons _ _ (Some _)).

Lemma first_committed : committed_log ∅ (-1) first.
Proof. pose proof log_ok as [H1 _]%committed_split. exact H1. Qed.

(** The clients' part: the two writes are committed and answered. *)
Lemma clients_run :
  traces client_step log_init [CallWrite 0 create; CallWrite 1 put; ReturnWrite 0; ReturnWrite 1] done_log.
Proof.
  pose proof first_committed as Hl.
  apply (committed_log_app [(id 0, members)] _) in Hl as [H0 Hl].
  apply (committed_log_app [(id 1, CCmd create)] [(id 2, CCmd put)]) in Hl as [H1 H2].
  shows; [eapply DoCallWrite; done|].
  shows; [eapply DoCallWrite; done|].
  silent; [eapply (DoCommitOther _ _ _ (id 0, members)); [done|exact H0]|].
  silent; [eapply (DoCommit _ _ _ 0%nat create (id 1)); [done|exact H1|cbn; apply NoDup_singleton]|].
  silent; [eapply (DoCommit _ _ _ 1%nat put (id 2)); [done|exact H2|cbn; apply NoDup_singleton]|].
  shows; [by eapply DoReturnWrite|].
  apply (traces_one _ _ (Some (ReturnWrite 1))). by eapply (DoReturnWrite _ _ _ 1%nat put).
Qed.

Lemma writes_run N S :
  traces cluster_step {| cs_client := log_init; cs_nodes := N; cs_snaps := S |}
    [CallWrite 0 create; CallWrite 1 put; ReturnWrite 0; ReturnWrite 1]
    {| cs_client := done_log; cs_nodes := N; cs_snaps := S |}.
Proof.
  apply (traces_lift client_step cluster_step (λ f, {| cs_client := f; cs_nodes := N; cs_snaps := S |})); [|exact clients_run].
  intros f o f'. apply CsClient.
Qed.

Definition node (l : list (openraft.LogId * content)) (j : Z) (st : SmSt) : replica_state :=
  {| rs_log := l; rs_pos := j; rs_sm := st |}.

Lemma pair_of {A B} (p : A * B) a : p.1 = a → p = (a, p.2).
Proof. by destruct p; cbn; intros ->. Qed.

(** Node 1 applies the log and checkpoints. *)
Lemma node_1_run : rtc (replica_step false) (node [] (-1) fresh) (node first 2 a3).
Proof.
  pose proof first_committed as Hl.
  apply (committed_log_app [(id 0, members)] _) in Hl as [H0 Hl].
  apply (committed_log_app [(id 1, CCmd create)] [(id 2, CCmd put)]) in Hl as [H1 H2].
  eapply rtc_l; [eapply (StepApply false [] fresh (id 0, members) _ a0 H0), pair_of; vm_compute; reflexivity|].
  eapply rtc_l; [eapply (StepApply false [(id 0, members)] a0 (id 1, CCmd create) _ a1 H1), pair_of; vm_compute; reflexivity|].
  eapply rtc_l; [eapply (StepApply false [(id 0, members); (id 1, CCmd create)] a1 (id 2, CCmd put) _ a2 H2), pair_of;
    vm_compute; reflexivity|].
  apply rtc_once. apply (StepCheckpoint false first 2 a2 (local_mark 2)); [clear; cbn; lia|].
  apply pair_of. vm_compute. reflexivity.
Qed.

(** The nodes after the writes, and after node 1 has applied them. *)
Definition nodes : gmap Z replica_state := <[2 := node [] (-1) fresh]> (<[1 := node [] (-1) fresh]> ∅).
Definition nodes' : gmap Z replica_state := <[1 := set_sm (node first 2 a3) built.2]> (<[1 := node first 2 a3]> nodes).
Definition nodes'' : gmap Z replica_state := <[2 := node first (snap_pos meta) b1]> nodes'.

Lemma snapshot_pos : snap_pos meta = 2.
Proof. vm_compute. reflexivity. Qed.

Definition is_ok {E A} (r : result E A) : bool := match r with Ok _ => true | _ => false end.

Lemma built_ok : built.1 = Ok (meta, tar).
Proof.
  assert (Hok : is_ok built.1 = true) by (vm_compute; reflexivity). unfold meta, tar.
  by destruct (built.1) as [[m t]| |].
Qed.

Definition writes : list event := [CallWrite 0 create; CallWrite 1 put; ReturnWrite 0; ReturnWrite 1].

(** Two nodes join and the writes are made. *)
Lemma joined_run :
  traces cluster_step cluster_init writes {| cs_client := done_log; cs_nodes := nodes; cs_snaps := [] |}.
Proof.
  eapply (traces_cons _ _ None _ writes); [by apply (CsJoin _ _ _ 1 fresh), fresh_started|].
  eapply (traces_cons _ _ None _ writes); [by apply (CsJoin _ _ _ 2 fresh), fresh_started|].
  exact (writes_run nodes []).
Qed.

(** Node 1 applies them and builds a snapshot. *)
Lemma built_run :
  traces cluster_step cluster_init writes {| cs_client := done_log; cs_nodes := nodes'; cs_snaps := [(first, meta, tar)] |}.
Proof.
  change writes with (writes ++ []). eapply traces_app; [exact joined_run|].
  eapply (traces_app _ _ [] _ []); [by apply (lift_node _ _ _ 1 _ _ node_1_run)|].
  apply (traces_one _ _ None). apply (CsBuild _ _ _ 1 (node first 2 a3) meta tar built.2); [done|].
  apply pair_of. fold built. exact built_ok.
Qed.

(** Node 2 installs it. *)
Lemma snapshot_run :
  traces cluster_step cluster_init writes {| cs_client := done_log; cs_nodes := nodes''; cs_snaps := [(first, meta, tar)] |}.
Proof.
  change writes with (writes ++ option_list None). eapply traces_snoc; [exact built_run|].
  apply (CsInstall _ _ _ 2 (node [] (-1) fresh) first meta tar b1); [done|by left|..].
  - rewrite snapshot_pos. clear. cbn. lia.
  - rewrite snapshot_pos. constructor.
  - apply pair_of. vm_compute. reflexivity.
Qed.

Lemma read_run : ∃ cs,
  traces cluster_step {| cs_client := done_log; cs_nodes := nodes''; cs_snaps := [(first, meta, tar)] |}
    [CallRead 2 "books" "a"; ReturnRead 2 (Ok [x07])] cs.
Proof.
  eexists. shows; [eapply CsClient, (DoCallRead _ _ _ 2%nat "books" "a"); [done|by apply id_ok_short]|].
  apply (traces_one _ _ (Some (ReturnRead 2 (Ok [x07])))).
  eapply (CsReturnRead _ _ _ _ _ 2 (node first (snap_pos meta) b1) 2%nat "books" "a" 2 (local_mark 2) _ answered.2); [done|done|..].
  - cbn. rewrite snapshot_pos. done.
  - done.
  - cbn. rewrite snapshot_pos. done.
  - apply pair_of. vm_compute. reflexivity.
Qed.

Lemma cluster_linearizable_witness : ∃ a, traces atomic_step atomic_init calls a.
Proof.
  destruct read_run as [cs Hread].
  exact (cluster_linearizable calls cs (traces_app _ _ writes _ _ _ snapshot_run Hread)).
Defined.

Lemma cluster_node_catches_up_witness :
  ∃ cs' st, cs_nodes cs' !! 2 = Some {| rs_log := first; rs_pos := 2; rs_sm := st |}
    ∧ sm_rel st (db_of first) 2 (members_of first).
Proof.
  destruct (cluster_node_catches_up writes _ 2 (node [] (-1) fresh) joined_run eq_refl) as (cs' & st & _ & _ & Hi & Hst).
  exists cs', st. exact (conj Hi Hst).
Defined.

Lemma snapshot_installs_anywhere_witness :
  ∃ st, sm_install_snapshot meta tar fresh = (Ok tt, st)
    ∧ ∃ st', rtc (replica_step false) {| rs_log := first; rs_pos := snap_pos meta; rs_sm := st |}
               {| rs_log := first; rs_pos := 2; rs_sm := st' |}
        ∧ sm_rel st' (db_of first) 2 (members_of first).
Proof.
  destruct (snapshot_installs_anywhere writes _ 2 (node [] (-1) fresh) first meta tar built_run eq_refl)
    as (st & E & Hcatch).
  - by left.
  - rewrite snapshot_pos. clear. cbn. lia.
  - exists st. split; [exact E|]. apply Hcatch. rewrite snapshot_pos. constructor.
Defined.

(** [build_snapshot] holds the lock of the state, which keeps [apply] out but not the
    checkpoint loop: it may run between the archive and the applied position. *)
Definition raced_build (mark : LogMark) : M SmSt StorageError (openraft.SnapshotMeta * archive) :=
  tar ← on_catalog WriteStateMachine build_snapshot;
  on_catalog WriteStateMachine (checkpoint_applied mark);;
  last_log_id ← applied_log_id;
  s ← get;
  mret ({| openraft.last_log_id := last_log_id; openraft.last_membership := sm_membership (sm_state s);
           openraft.snapshot_id := snapshot_id last_log_id |}, tar).

(** The first checkpoint is older than the document. *)
Definition r1 : SmSt := with_catalog a1 (checkpoint_applied (local_mark 1) (sm_catalog a1)).2.
Definition r2 : SmSt := applied_to r1 (id 2, CCmd put).

Definition raced : option Z * option (result Error (list byte)) :=
  match raced_build (local_mark 2) r2 with
  | (Ok (meta, tar), st) =>
      (Some (snap_pos meta),
       Some (read_latest "books" "a" (local_mark 2) (sm_catalog (sm_install_snapshot meta tar fresh).2)).1)
  | _ => (None, None)
  end.

(** C39: A checkpoint between the two halves of [build_snapshot] gives a snapshot that
    claims a position its archive does not have: the follower that installs it at
    position 2 does not have the document of entry 2, and is not sent that entry again. *)
Theorem raced_snapshot_loses_document :
  (read_latest "books" "a" (local_mark 2) (sm_catalog r2)).1 = Ok [x07]
  ∧ raced = (Some 2, Some (Err (DocumentNotFound "a"))).
Proof. vm_compute. done. Qed.
End HistoryDemo.
