(* ===== verification/Search.v ===== *)
(** * Full-text search (crates/core/src/search.rs)

    [execute] parses a query over the default fields, counts the matches and
    fetches one page of hits.  What it uses of Tantivy's query parser and
    collectors is the class [TantivySearch]; [Search.execute] is proved to page
    through one fixed ranking of committed documents. *)

From S2P Require Import Prelude Bytes CoreError External Samples Mapping Document IndexApi Collection SampleIndex.
From S2P Require Import CollectionSpec.

Open Scope Z_scope.

(** [FieldEntry]: the name of a field, whether it is indexed, and whether its type
    is [FieldType::Str]. *)
Record FieldEntry := { entry_name : string; entry_indexed : bool; entry_str : bool }.

(** The entry that each builder call leaves in the schema. *)
Definition call_entry (c : schema_call) : FieldEntry :=
  match c with
  | add_text_field n (STRING_stored | TEXT) =>
      {| entry_name := n; entry_indexed := true; entry_str := true |}
  | add_text_field n (TextOpts i _) => {| entry_name := n; entry_indexed := i; entry_str := true |}
  | add_bytes_field_stored n => {| entry_name := n; entry_indexed := false; entry_str := false |}
  | add_i64_field n i _ | add_f64_field n i _ | add_date_field n i _ =>
      {| entry_name := n; entry_indexed := i; entry_str := false |}
  end.

(** [Schema::fields], [QueryParser::parse_query], and the collectors [Count] and
    [TopDocs] of a search, which see one ranking of the matching live documents. *)
Class TantivySearch `{TantivyIndex} := {
  Query : Type;
  Score : Type;
  schema_fields : Schema → list (FieldId * FieldEntry);
  parse_query : Index → list FieldId → string → option Query;
  ranking : Index → Query → list (Score * TantivyDocument);
  search_count : Index → Query → Z;
  (** [TopDocs::with_limit(limit).and_offset(offset)] *)
  search_top : Index → Query → Z → Z → result Error (list (Score * TantivyDocument));

  schema_fields_build calls : accepted calls →
    Forall2 (λ fe c, get_field (build calls) (call_name c) = Some fe.1 ∧ fe.2 = call_entry c)
      (schema_fields (build calls)) calls;
  ranking_live i q : (ranking i q).*2 ⊆+ index_docs i;
  search_count_ranking i q : search_count i q = Z.of_nat (length (ranking i q));
  (** the collector allocates room for [limit + offset] hits, which fails beyond some size *)
  max_top : Z;
  search_top_ranking i q limit offset : 0 < limit → 0 ≤ offset → limit + offset ≤ max_top →
    search_top i q limit offset = Ok (take (Z.to_nat limit) (drop (Z.to_nat offset) (ranking i q)));
  search_top_zero i q offset :
    search_top i q 0 offset = Panic "Limit must be strictly greater than 0."
}.

Module Search.
Section Search.
Context `{TantivySearch} `{!MarkJson} `{UuidApi}.

Record SearchHit := { hit_id : string; hit_score : Score; hit_source : list byte }.
Record SearchResults := { hits : list SearchHit; total : Z }.

Definition default_fields (schema : Schema) : list FieldId :=
  (filter (λ fe : FieldId * FieldEntry,
     entry_indexed fe.2 && bool_decide (entry_name fe.2 ≠ ID_FIELD) && entry_str fe.2 = true)
     (schema_fields schema)).*1.

Definition text_field (doc : TantivyDocument) (f : FieldId) (name : string) : result Error string :=
  match get_first doc f with
  | Some (TextV s) => Ok s
  | _ => Err (missing_field name)
  end.

(** The loop body of [execute]. *)
Definition fetch_hit (schema : Schema) (id_field source_field : FieldId)
    (hit : Score * TantivyDocument) : result Error SearchHit :=
  let doc := stored_doc schema hit.2 in
  id ← text_field doc id_field ID_FIELD;
  source ← bytes_field doc source_field SOURCE_FIELD;
  mret {| hit_id := id; hit_score := hit.1; hit_source := source |}.

Definition execute (index reader : Index) (query : string) (limit offset : Z) :
    result Error SearchResults :=
  let schema := index_schema index in
  q ← ok_or (Validation (Msg "invalid query: {e}" [])) (parse_query index (default_fields schema) query);
  let n := search_count reader q in
  if decide (limit = 0) then Ok {| hits := []; total := n |}
  else
    '(id_field, source_field) ← system_fields schema;
    top ← search_top reader q limit offset;
    hs ← collect (fetch_hit (index_schema reader) id_field source_field) top;
    Ok {| hits := hs; total := n |}.

(** [Collection::search]. *)
Definition search (query : string) (limit offset : Z) : M ColSt Error SearchResults :=
  s ← get; lift (execute (on_disk s) (c_reader (col s)) query limit offset).

(** ** Which fields a query without a field name searches *)

Lemma to_schema_default m c :
  mapping_ok m → c ∈ to_schema m →
  entry_indexed (call_entry c) && bool_decide (call_name c ≠ ID_FIELD) && entry_str (call_entry c) = true
  ↔ ∃ spec, fields m !! call_name c = Some spec ∧ (ty spec = Text ∨ ty spec = Keyword) ∧ indexed spec = true.
Proof.
  intros Hv Hc. assert (Hres : ∀ n spec, fields m !! n = Some spec → n ≠ ID_FIELD ∧ n ≠ SOURCE_FIELD)
    by (intros n spec Hl; by apply (mapping_valid_reserved m n spec (proj1 Hv))).
  unfold to_schema in Hc. apply elem_of_cons in Hc as [->|[->|Hc]%elem_of_cons]; cbn.
  1, 2: split; [done|]; intros (spec & Hl & _); by apply Hres in Hl as [? ?].
  apply list_elem_of_omap in Hc as ([n spec] & Hin & Ec). apply elem_of_btree_iter in Hin.
  pose proof (to_schema_field_name _ _ _ Ec) as En. rewrite En. destruct (Hres _ _ Hin) as [Hid _].
  rewrite bool_decide_true, andb_true_r by done.
  assert (Hfast : ty spec = Text → fast spec = false).
  { intros Et. destruct (proj1 Hv _ _ Hin) as (_ & _ & Hf). destruct (fast spec); naive_solver. }
  split.
  - intros Hb. exists spec. split; [done|]. unfold to_schema_field in Ec.
    destruct (ty spec) eqn:Et, (indexed spec), (fast spec); cbn in Ec; try done;
      injection Ec as <-; cbn in Hb; try done; naive_solver.
  - intros (spec' & Hl & Ht & Hi). simplify_eq. unfold to_schema_field in Ec. rewrite Hi in Ec. cbn in Ec.
    destruct Ht as [Ht|Ht]; rewrite Ht in Ec; by injection Ec as <-.
Qed.

Lemma default_fields_spec m f :
  mapping_ok m →
  f ∈ default_fields (schema_of m) ↔
  ∃ name spec, fields m !! name = Some spec ∧ (ty spec = Text ∨ ty spec = Keyword)
    ∧ indexed spec = true ∧ get_field (schema_of m) name = Some f.
Proof.
  intros Hv. pose proof (schema_fields_build _ (proj2 Hv)) as Hf. fold (schema_of m) in Hf.
  assert (Hen : ∀ c, entry_name (call_entry c) = call_name c) by (by intros [? []| | | |]).
  unfold default_fields. rewrite list_elem_of_fmap. split.
  - intros ([f' fe] & -> & [Hb Hin]%list_elem_of_filter). cbn in *.
    apply list_elem_of_lookup in Hin as [i Hi]. destruct (Forall2_lookup_l _ _ _ _ _ Hf Hi) as (c & Hc & Eg & Ee). cbn in *. subst fe.
    rewrite Hen in Hb. apply list_elem_of_lookup_2 in Hc.
    apply (to_schema_default m c Hv Hc) in Hb as (spec & ? & ? & ?). eauto 10.
  - intros (name & spec & Hl & Ht & Hi & Hg).
    assert (Hn : name ∈ call_name <$> to_schema m) 
      by (apply to_schema_names; right; right; exists spec; by rewrite Hi).
    apply list_elem_of_fmap in Hn as (c & -> & Hc). pose proof Hc as [i Hi']%list_elem_of_lookup.
    destruct (Forall2_lookup_r _ _ _ _ _ Hf Hi') as ([f' fe] & Hfe & Eg & Ee). cbn in *. subst fe.
    assert (f' = f) as -> by congruence. exists (f, call_entry c). split; [done|].
    apply list_elem_of_filter. split; [|by eapply list_elem_of_lookup_2]. cbn. rewrite Hen.
    apply (to_schema_default m c Hv Hc). eauto.
Qed.

(** ** Hits are committed documents *)

Lemma fetch_hit_shape m sc id src d idf srcf :
  mapping_ok m → doc_shape m id src d →
  get_field (schema_of m) ID_FIELD = Some idf → get_field (schema_of m) SOURCE_FIELD = Some srcf →
  fetch_hit (schema_of m) idf srcf (sc, d) = Ok {| hit_id := id; hit_score := sc; hit_source := src |}.
Proof.
  intros Hv (idf' & srcf' & Hid & Hsrc & E1 & E2)%doc_shape_get_first Hf Hs.
  assert (idf' = idf) as -> by congruence. assert (srcf' = srcf) as -> by congruence.
  assert (Hst : ∀ name f, stored_call (to_schema m) name → get_field (schema_of m) name = Some f →
    get_first (stored_doc (schema_of m) d) f = get_first d f).
  { intros name f Hn Hg. apply (stored_doc_get_first (to_schema m) name); [apply Hv|done..]. }
  unfold fetch_hit, text_field, bytes_field. cbn [fst snd].
  rewrite (Hst ID_FIELD idf), E1; [|by left; left|done]. cbn.
  rewrite (Hst SOURCE_FIELD srcf), E2; [done|by right; right; left|done].
Qed.

(** Every sublist of the live documents is fetched, as hits with distinct ids. *)
Lemma fetch_ranking m docs g (ranked : list (Score * TantivyDocument)) idf srcf :
  mapping_ok m → docs_rep m docs g → ranked.*2 ⊆+ docs →
  get_field (schema_of m) ID_FIELD = Some idf → get_field (schema_of m) SOURCE_FIELD = Some srcf →
  ∃ all, Forall2 (λ r h, fetch_hit (schema_of m) idf srcf r = Ok h) ranked all
    ∧ NoDup (hit_id <$> all) ∧ ∀ h, h ∈ all → g !! hit_id h = Some (hit_source h).
Proof.
  intros Hv (kvs & docs' & Hnd & -> & Hp & Hs) Hsub Hf Hsrc. rewrite Hp in Hsub.
  apply submseteq_Permutation in Hsub as [rest Hperm].
  destruct (Permutation_Forall2 Hperm Hs) as (kvs' & Hk & Hs').
  apply Forall2_app_inv_l in Hs' as (k1 & k2 & H1' & _ & ->).
  exists (zip_with (λ (r : Score * TantivyDocument) kv,
    {| hit_id := kv.1; hit_score := r.1; hit_source := kv.2 |}) ranked k1).
  assert (Hlen : length ranked = length k1) by (apply Forall2_length in H1'; by rewrite length_fmap in H1').
  assert (Hnd1 : NoDup k1.*1).
  { rewrite Hk, fmap_app in Hnd. by apply NoDup_app in Hnd as [? _]. }
  split_and!.
  - clear -Hv H1' Hf Hsrc. revert k1 H1'. induction ranked as [|[sc d] l IH]; intros k1 Hk1.
    + apply Forall2_nil_inv_l in Hk1 as ->. constructor.
    + apply Forall2_cons_inv_l in Hk1 as ([id src] & k1' & Hd & Hk1 & ->). cbn in *.
      constructor; [by apply fetch_hit_shape|by apply IH].
  - replace (hit_id <$> _) with k1.*1; [done|]. clear -Hlen. revert k1 Hlen.
    induction ranked; intros [|? ?] Hlen; cbn in *; try done. f_equal. auto.
  - intros h (i & Hi)%list_elem_of_lookup. apply lookup_zip_with_Some in Hi as (r & [id src] & -> & _ & Hi).
    cbn. apply elem_of_list_to_map_1; [done|]. rewrite Hk. apply elem_of_app. left. by eapply list_elem_of_lookup_2.
Qed.

Lemma collect_page {A B} (f : A → result Error B) l ys n k :
  Forall2 (λ x y, f x = Ok y) l ys → collect f (take n (drop k l)) = Ok (take n (drop k ys)).
Proof. intros Hf. apply collect_Ok. by apply Forall2_take, Forall2_drop. Qed.

(** What a search returns, given the ranking [all] of its hits. *)
Definition search_outcome (s : ColSt) (m : Mapping) (query : string)
    (all : list SearchHit) (limit offset : Z) : result Error SearchResults :=
  match parse_query (on_disk s) (default_fields (schema_of m)) query with
  | None => Err (Validation (Msg "invalid query: {e}" []))
  | Some _ => Ok {| hits := take (Z.to_nat limit) (drop (Z.to_nat offset) all);
                    total := Z.of_nat (length all) |}
  end.

Definition committed_hits (committed : docs_map) (all : list SearchHit) : Prop :=
  NoDup (hit_id <$> all) ∧ ∀ h, h ∈ all → committed !! hit_id h = Some (hit_source h).

(** A page that the collector has room for. *)
Definition page_ok (limit offset : Z) : Prop := 0 ≤ limit ∧ 0 ≤ offset ∧ limit + offset ≤ max_top.

Lemma search_rep s m committed g query :
  col_rep s m committed g →
  ∃ all, committed_hits committed all ∧ ∀ limit offset, page_ok limit offset →
    search query limit offset s = (search_outcome s m query all limit offset, s).
Proof.
  intros [Hv _ Hs Hr Hc _]. unfold search_outcome.
  assert (Es : ∀ limit offset, search query limit offset s
    = (execute (on_disk s) (c_reader (col s)) query limit offset, s)) by done.
  unfold execute in Es. rewrite Hr, Hs in Es.
  destruct (parse_query _ _ query) as [q|] eqn:Eq.
  2: { exists []. split; [|done]. split; [constructor|by intros ? ?%elem_of_nil]. }
  destruct (system_fields_exist m Hv) as (idf & srcf & Hf & Hsrc & _).
  destruct (fetch_ranking m _ _ _ idf srcf Hv Hc (ranking_live (on_disk s) q) Hf Hsrc) as (all & Hall & Hnd & Hin).
  exists all. split; [done|]. intros limit offset (Hl & Ho & Hmax).
  rewrite Es. f_equal. cbn [ok_or mbind result_bind]. rewrite search_count_ranking, (Forall2_length _ _ _ Hall).
  case_decide as Hz; [by subst limit|]. unfold system_fields. rewrite Hf, Hsrc. cbn [expect mbind result_bind mret result_ret].
  rewrite search_top_ranking by lia. cbn [mbind result_bind]. by rewrite (collect_page _ _ _ _ _ Hall).
Qed.

(** C29: Searching a collection pages through one fixed ranking of its committed
    documents: a query that does not parse is a validation error; otherwise there is
    a list of hits, with distinct ids and the committed sources, such that every
    page, a limit of 0 included, is that slice of it with the total length. *)
Theorem search_pages s m committed g query :
  col_rep s m committed g →
  ∃ all, committed_hits committed all ∧ ∀ limit offset, page_ok limit offset →
    search query limit offset s = (search_outcome s m query all limit offset, s).
Proof. apply search_rep. Qed.

(** A query that names no field searches exactly the indexed text and keyword
    fields of the mapping. *)
Theorem default_fields_iff m f :
  mapping_ok m →
  f ∈ default_fields (schema_of m) ↔
  ∃ name spec, fields m !! name = Some spec ∧ (ty spec = Text ∨ ty spec = Keyword)
    ∧ indexed spec = true ∧ get_field (schema_of m) name = Some f.
Proof. apply default_fields_spec. Qed.
End Search.
End Search.

(** ** A concrete search

    A query is a word; it matches the documents one of whose text values is that
    word.  The empty query does not parse. *)


Module SampleSearch.
Import Search.
#[local] Existing Instances Samples.json Samples.rfc3339 Samples.schema Samples.uuid
  SampleIndex.tantivy SampleIndex.mark_json.

Definition mentions (q : string) (d : SampleIndex.document) : bool :=
  existsb (λ kv, SampleIndex.is_text q kv.2) d.

Definition rank (i : SampleIndex.index) (q : string) : list (Z * SampleIndex.document) :=
  (λ d, (Z.of_nat (length d), d)) <$> filter (λ d, mentions q d = true) (SampleIndex.i_docs i).

#[refine] Definition tantivy_search : TantivySearch := {|
  Query := string;
  Score := Z;
  schema_fields s := (λ c, (call_name c, call_entry c)) <$> (s : list schema_call);
  parse_query _ _ q := if decide (q = "") then None else Some q;
  ranking := rank;
  search_count i q := Z.of_nat (length (rank i q));
  max_top := 1000;
  search_top i q limit offset :=
    if decide (limit = 0) then Panic "Limit must be strictly greater than 0."
    else Ok (take (Z.to_nat limit) (drop (Z.to_nat offset) (rank i q)))
|}.
Proof.
  - intros calls Hnd. apply Forall2_fmap_l, Forall_Forall2_diag, Forall_forall. intros c Hc. cbn.
    rewrite decide_True; [done|]. by apply list_elem_of_fmap_2.
  - intros i q. unfold rank. rewrite <-list_fmap_compose. cbn. rewrite list_fmap_id.
    apply sublist_submseteq, sublist_filter.
  - done.
  - intros i q limit offset Hl _ _. by rewrite decide_False by lia.
  - done.
Defined.
#[local] Existing Instance tantivy_search.

Definition col_with (ops : list (M ColSt Error bool)) : ColSt :=
  let s := {| col := from_index ("u" : @Uuid Samples.uuid) sample_mapping (create_in_dir (schema_of sample_mapping));
              on_disk := create_in_dir (schema_of sample_mapping) |} in
  (commit LogMark_default (foldl (λ s op, (op s).2) s ops)).2.

Definition doc_n (z : Z) : @Value Samples.json := Samples.JObj [("n", Samples.JInt z)].

(** Two documents, written and committed. *)
Definition two_docs : ColSt :=
  col_with [apply_upsert "a" [x07] (doc_n 7);
            apply_upsert "b" [x08] (doc_n 8)].

Lemma two_docs_rep : ∃ g, col_rep two_docs sample_mapping g g ∧ g = {[ "a" := [x07]; "b" := [x08] ]}.
Proof.
  pose proof (col_rep_create ("u" : @Uuid Samples.uuid) _ sample_mapping_ok) as Hr.
  edestruct (upsert_rep _ _ _ _ "a" [x07] (doc_n 7) Hr) as (s1 & E1 & Hr1 & _);
    [done|by apply id_ok_short|].
  edestruct (upsert_rep _ _ _ _ "b" [x08] (doc_n 8) Hr1) as (s2 & E2 & Hr2 & _);
    [done|by apply id_ok_short|].
  edestruct (commit_rep _ _ _ _ LogMark_default Hr2) as (s3 & E3 & Hr3 & _).
  eexists. split; [|done]. unfold two_docs, col_with. cbn [foldl]. rewrite E1. cbn [snd]. rewrite E2. cbn [snd].
  rewrite E3. exact Hr3.
Qed.

Lemma search_pages_witness :
  ∃ all : list SearchHit, committed_hits {[ "a" := [x07]; "b" := [x08] ]} all
    ∧ search "a" 1 0 two_docs
      = (Ok {| hits := take 1 all; total := Z.of_nat (length all) |}, two_docs).
Proof.
  destruct two_docs_rep as (g & Hr & ->).
  destruct (search_pages two_docs sample_mapping _ _ "a" Hr) as (all & Hall & Hs).
  exists all. split; [done|]. apply (Hs 1 0). done.
Defined.

Definition found (q : string) (limit offset : Z) : option (list (string * list byte)) :=
  match (search q limit offset two_docs).1 with
  | Ok r => Some ((λ h, (hit_id h, hit_source h)) <$> hits r)
  | _ => None
  end.

(** The page of the query [a] is the document with that id. *)
Example search_finds_a : found "a" 10 0 = Some [("a", [x07])] ∧ found "a" 0 0 = Some [] ∧ found "" 10 0 = None.
Proof. vm_compute. done. Qed.

Lemma default_fields_iff_witness :
  "s" ∈ default_fields (schema_of sample_mapping) ↔
  ∃ name spec, fields sample_mapping !! name = Some spec ∧ (ty spec = Text ∨ ty spec = Keyword)
    ∧ indexed spec = true ∧ get_field (schema_of sample_mapping) name = Some "s".
Proof. exact (default_fields_iff sample_mapping ("s" : FieldId) sample_mapping_ok). Defined.
End SampleSearch.
