(* ===== verification/Network.v ===== *)
(** * The Raft network (crates/cluster/src/network.rs)

    The client side of the three remote calls ([RaftNetwork for Client]), the
    chunking of a snapshot file into a stream, and the server side
    ([RaftService for RaftServer]).  tonic is the class [Transport], the local
    [openraft::Raft] of the server the class [RaftHandle]. *)

From S2P Require Import Prelude Bytes CoreError Proto Conversions.

Open Scope Z_scope.

(** ** Statuses *)

(** The codes of [tonic::Code] that the source names; the others by number. *)
Inductive Code := InvalidArgument | Unavailable | DeadlineExceeded | Internal | OtherCode (n : Z).
Record Status := { code : Code; status_message : message }.

Definition is_transport (status : Status) : bool :=
  match code status with
  | Unavailable | DeadlineExceeded => true
  | _ => false
  end.

(** The texts of the errors are not modelled beyond their format. *)
Definition invalid_arg (e : ConversionError) : Status :=
  {| code := InvalidArgument;
     status_message := let '(MissingField f) := e in Msg "missing required field `{field}`" [f] |}.
Definition internal (e : message) : Status := {| code := Internal; status_message := e |}.
Definition net_require {T} (opt : option T) (field : string) : result Status T :=
  ok_or {| code := InvalidArgument;
           status_message := Msg "missing required field `{field}`" [field] |} opt.
Definition empty_stream : Status :=
  {| code := InvalidArgument; status_message := Msg "empty snapshot stream" [] |}.

(** ** openraft's errors *)

Inductive net_cause :=
| StatusCause (s : Status)
| ConvCause (e : ConversionError)
| ConnectCause
| UnusedRpc.

(** [RPCError], [StreamingError]: the variants the source constructs. *)
Inductive RPCError :=
| RpcUnreachable (c : net_cause)
| RpcNetwork (c : net_cause).
Inductive StreamingError :=
| StreamUnreachable (c : net_cause)
| StreamNetwork (c : net_cause)
| StreamClosed
| StreamStorage (e : io_error).

Definition conv_err (e : ConversionError) : net_cause := ConvCause e.

Definition DEFAULT_CHUNK_SIZE : Z := 1024 * 1024.

(** ** The snapshot stream *)

(** How the reads of the file go: [reads i = inr k] lets the [i]-th read return at
    most [k] bytes (a short read), [inl e] makes it fail.  A read returns at least
    one byte before the end of the file and at most the size of the buffer. *)
Definition read_schedule : Type := nat → io_error + Z.

Definition read_len (chunk_size avail remaining : Z) : Z :=
  Z.min (Z.max avail 1) (Z.min chunk_size remaining).

(** [futures::stream::unfold]: the requests produced, and the error left in
    [read_err]. *)
Fixpoint chunk_loop (fuel i : nat) (reads : read_schedule) (file : list byte) (vote : raft.Vote)
    (meta : raft.SnapshotMeta) (chunk_size : Z) : list raft.SnapshotRequest * option io_error :=
  match fuel with
  | O => ([], None)
  | S fuel =>
      match reads i with
      | inl e => ([], Some e)
      | inr avail =>
          let n := read_len chunk_size avail (blen file) in
          if decide (n = 0) then ([], None)
          else
            let request := {| raft.sq_vote := Some vote; raft.sq_meta := Some meta;
                              raft.sq_data := take (Z.to_nat n) file |} in
            let '(rest, err) :=
              chunk_loop fuel (S i) reads (drop (Z.to_nat n) file) vote meta chunk_size in
            (request :: rest, err)
      end
  end.

(** Every chunk has at least one byte: one more step than there are bytes reaches
    the end. *)
Definition chunk_stream (reads : read_schedule) (file : list byte) (vote : raft.Vote)
    (meta : raft.SnapshotMeta) (chunk_size : Z) : list raft.SnapshotRequest * option io_error :=
  chunk_loop (S (length file)) 0 reads file vote meta chunk_size.

(** ** tonic and the local Raft *)

(** What the process at the other end, and the network, look like to the client:
    [World].  A call may fail with a status; a client-streaming call also tells
    whether the stream was read to its end. *)
Class Transport (World : Type) := {
  Channel : Type;
  connect : string → World → option Channel * World;
  rpc_append_entries : Channel → raft.AppendEntriesRequest → M World Status raft.AppendEntriesResponse;
  rpc_vote : Channel → raft.VoteRequest → M World Status raft.VoteResponse;
  rpc_snapshot : Channel → list raft.SnapshotRequest →
    World → result Status raft.SnapshotResponse * bool * World;
  (** the call was dropped before it completed *)
  rpc_snapshot_dropped : Channel → list raft.SnapshotRequest → World → World
}.

(** The methods of [openraft::Raft] that the server calls. *)
Class RaftHandle (R : Type) `{openraft.MembershipApi} := {
  raft_vote : openraft.VoteRequest → M R message openraft.VoteResponse;
  raft_append_entries : openraft.AppendEntriesRequest → M R message openraft.AppendEntriesResponse;
  begin_receiving_snapshot : M R message unit;
  install_full_snapshot :
    openraft.Vote → openraft.SnapshotMeta → list byte → M R message openraft.SnapshotResponse
}.

(** ** The client *)

Section Client.
Context {World : Type} `{Transport World} `{openraft.MembershipApi}.

Record Client := { node : raft.Node; channel : option Channel }.
Record NetSt := { client : Client; world : World }.

(** [NetworkFactory::new_client]. *)
Definition new_client (target : Z) (n : raft.Node) : Client := {| node := n; channel := None |}.

Definition set_channel {E} (ch : option Channel) : M NetSt E unit :=
  modify (λ s, {| client := {| node := node (client s); channel := ch |}; world := world s |}).

Definition in_world {E A} (m : M World E A) : M NetSt E A :=
  zoom world (λ w s, {| client := client s; world := w |}) m.

(** [Client::channel]: the cached channel, or a new connection to
    [http://<rpc_addr>]. *)
Definition get_channel {E} (unreachable : net_cause → E) : M NetSt E Channel :=
  s ← get;
  match channel (client s) with
  | Some ch => mret ch
  | None =>
      r ← in_world (λ w, let '(o, w) := connect ("http://" +:+ raft.rpc_addr (node (client s))) w in
                         (ok_or (unreachable ConnectCause) o, w));
      set_channel (Some r);; mret r
  end.

Definition invalidate_on_transport {E} (status : Status) : M NetSt E bool :=
  if is_transport status then set_channel None;; mret true else mret false.

Definition rpc_status {A} (status : Status) : M NetSt RPCError A :=
  transport ← invalidate_on_transport status;
  if (transport : bool) then throw (RpcUnreachable (StatusCause status))
  else throw (RpcNetwork (StatusCause status)).

(** The outcome of a call as a value, so that its error can be mapped by a method
    that changes the client. *)
Definition outcome {E F A} (m : M World E A) : M NetSt F (result E A) :=
  in_world (λ w, let '(r, w) := m w in (Ok r, w)).

(** The common shape of [append_entries] and [vote]: one call, its status or its
    converted response. *)
Definition unary {Req Resp A} (call : Channel → Req → M World Status Resp) (request : Req)
    (convert : Resp → conv A) : M NetSt RPCError A :=
  ch ← get_channel RpcUnreachable;
  r ← outcome (call ch request);
  match r with
  | Ok response => lift (map_err (λ e, RpcNetwork (conv_err e)) (convert response))
  | Err s => rpc_status s
  | Panic w => lift (Panic w)
  end.

Definition client_append_entries (rpc : openraft.AppendEntriesRequest) :
    M NetSt RPCError openraft.AppendEntriesResponse :=
  unary rpc_append_entries (AppendEntriesRequest_to rpc) AppendEntriesResponse_try_from.

Definition client_vote (rpc : openraft.VoteRequest) : M NetSt RPCError openraft.VoteResponse :=
  unary rpc_vote (VoteRequest_to rpc) VoteResponse_try_from.

Definition client_install_snapshot : M NetSt RPCError unit := throw (RpcUnreachable UnusedRpc).

(** [full_snapshot]: [cancelled] says that the cancel future resolved before the
    call, [chunk_option] is [option.snapshot_chunk_size()]. *)
Definition client_full_snapshot (vote : openraft.Vote) (meta : openraft.SnapshotMeta)
    (file : list byte) (cancelled : bool) (chunk_option : option Z) (reads : read_schedule) :
    M NetSt StreamingError openraft.SnapshotResponse :=
  ch ← get_channel StreamUnreachable;
  let chunk_size := Z.max (default DEFAULT_CHUNK_SIZE chunk_option) 1 in
  let '(stream, read_err) := chunk_stream reads file (Vote_to vote) (SnapshotMeta_to meta) chunk_size in
  if cancelled then
    in_world (λ w, (Ok tt, rpc_snapshot_dropped ch stream w));; throw StreamClosed
  else
    res ← in_world (λ w, let '(r, w) := rpc_snapshot ch stream w in (Ok r, w));
    match (if res.2 : bool then read_err else None) with
    | Some e => throw (StreamStorage e)
    | None =>
        match res.1 with
        | Ok response => lift (map_err (λ e, StreamNetwork (conv_err e)) (SnapshotResponse_try_from response))
        | Err status =>
            transport ← invalidate_on_transport status;
            if (transport : bool) then throw (StreamUnreachable (StatusCause status))
            else throw (StreamNetwork (StatusCause status))
        | Panic w => lift (Panic w)
        end
    end.
End Client.

(** ** The server *)

Section Server.
Context {R : Type} `{RaftHandle R}.

Definition server_vote (request : raft.VoteRequest) : M R Status raft.VoteResponse :=
  rpc ← lift (map_err invalid_arg (VoteRequest_try_from request));
  response ← mapE internal (raft_vote rpc);
  mret (VoteResponse_to response).

Definition server_append_entries (request : raft.AppendEntriesRequest) :
    M R Status raft.AppendEntriesResponse :=
  rpc ← lift (map_err invalid_arg (AppendEntriesRequest_try_from request));
  response ← mapE internal (raft_append_entries rpc);
  mret (AppendEntriesResponse_to response).

(** The [while let] loop of [snapshot]: [broken] is the status with which the
    incoming stream fails after [chunks], if it does. *)
Fixpoint receive_chunks (chunks : list raft.SnapshotRequest) (broken : option Status)
    (vote : option openraft.Vote) (meta : option openraft.SnapshotMeta) (data : list byte) :
    result Status (option openraft.Vote * option openraft.SnapshotMeta * list byte) :=
  match chunks with
  | [] => match broken with
          | Some status => Err status
          | None => Ok (vote, meta, data)
          end
  | chunk :: chunks =>
      '(vote, meta) ← match vote with
        | Some v => Ok (Some v, meta)
        | None =>
            v ← net_require (raft.sq_vote chunk) "SnapshotRequest.vote";
            v ← map_err invalid_arg (Vote_try_from v);
            m ← net_require (raft.sq_meta chunk) "SnapshotRequest.meta";
            m ← map_err invalid_arg (SnapshotMeta_try_from m);
            mret (Some v, Some m)
        end;
      receive_chunks chunks broken vote meta (data ++ raft.sq_data chunk)
  end.

Definition server_snapshot (chunks : list raft.SnapshotRequest) (broken : option Status) :
    M R Status raft.SnapshotResponse :=
  mapE internal begin_receiving_snapshot;;
  '(vote, meta, data) ← lift (receive_chunks chunks broken None None []);
  vote ← lift (ok_or empty_stream vote);
  meta ← lift (ok_or empty_stream meta);
  response ← mapE internal (install_full_snapshot vote meta data);
  mret (SnapshotResponse_to response).
End Server.
