(* ===== verification/NetworkCorrect.v ===== *)
(** * The Raft network: correctness

    A remote call over a connection that delivers every message is the local call;
    a snapshot file of any size, read in chunks of any size with short reads, is
    reassembled byte for byte.  A read error, however, ends the stream as if the
    file were complete. *)

From S2P Require Import Prelude Bytes CoreError Proto Conversions Network SampleRaft.

Open Scope Z_scope.

(** ** The stream *)

Section stream.
Context (vote : raft.Vote) (meta : raft.SnapshotMeta).

Definition carries (c : raft.SnapshotRequest) : Prop :=
  raft.sq_vote c = Some vote ∧ raft.sq_meta c = Some meta.

Definition payloads (cs : list raft.SnapshotRequest) : list byte := concat (raft.sq_data <$> cs).

Lemma read_len_bounds chunk_size avail remaining :
  1 ≤ chunk_size → 0 ≤ remaining →
  0 ≤ read_len chunk_size avail remaining ≤ remaining
  ∧ (read_len chunk_size avail remaining = 0 ↔ remaining = 0).
Proof. unfold read_len. lia. Qed.

(** What is sent is a prefix of the file, and all of it unless a read failed. *)
Lemma chunk_loop_spec reads chunk_size : 1 ≤ chunk_size →
  ∀ fuel i file, (length file < fuel)%nat →
  let '(cs, err) := chunk_loop fuel i reads file vote meta chunk_size in
  Forall carries cs ∧ Forall (λ c, raft.sq_data c ≠ []) cs
  ∧ payloads cs `prefix_of` file ∧ (err = None → payloads cs = file).
Proof.
  intros Hc. induction fuel as [|fuel IH]; intros i file Hf; [lia|]. cbn [chunk_loop].
  destruct (reads i) as [e|avail].
  { split_and!; [constructor|constructor|apply prefix_nil|done]. }
  destruct (read_len_bounds chunk_size avail (blen file) Hc) as [Hb Hz]; [unfold blen; lia|].
  case_decide as Hn.
  { assert (file = []) as -> by (apply nil_length_inv; unfold blen in *; lia).
    split_and!; [constructor|constructor|done|done]. }
  set (n := Z.to_nat (read_len chunk_size avail (blen file))).
  assert (Hn' : (0 < n ≤ length file)%nat) by (unfold n, blen in *; lia).
  specialize (IH (S i) (drop n file)). rewrite length_drop in IH. specialize (IH ltac:(lia)).
  destruct (chunk_loop fuel (S i) reads (drop n file) vote meta chunk_size) as [cs err].
  destruct IH as (H1 & H2 & [k Hk] & H4). unfold payloads in *. cbn. split_and!.
  - by constructor.
  - constructor; [|done]. cbn. intros E. apply (f_equal length) in E. rewrite length_take in E. cbn in E. lia.
  - exists k. by rewrite <-app_assoc, <-Hk, take_drop.
  - intros He. by rewrite (H4 He), take_drop.
Qed.

Lemma chunk_stream_spec reads chunk_size file cs err :
  1 ≤ chunk_size → chunk_stream reads file vote meta chunk_size = (cs, err) →
  Forall carries cs ∧ Forall (λ c, raft.sq_data c ≠ []) cs
  ∧ payloads cs `prefix_of` file ∧ (err = None → payloads cs = file).
Proof.
  intros Hc E. pose proof (chunk_loop_spec reads chunk_size Hc (S (length file)) 0 file ltac:(lia)) as Hs.
  unfold chunk_stream in E. by rewrite E in Hs.
Qed.

(** Reads that never fail leave no error. *)
Lemma chunk_stream_no_error reads chunk_size file :
  (∀ i, ∃ k, reads i = inr k) → (chunk_stream reads file vote meta chunk_size).2 = None.
Proof.
  intros Hr. unfold chunk_stream. generalize (S (length file)) 0%nat. intros fuel. revert file.
  induction fuel as [|fuel IH]; intros file i; cbn; [done|]. destruct (Hr i) as [k ->].
  case_decide; [done|]. specialize (IH (drop (Z.to_nat (read_len chunk_size k (blen file))) file) (S i)).
  by destruct (chunk_loop _ _ _ _ _ _ _).
Qed.
End stream.

(** ** The server *)

Section server.
Context {R : Type} `{RaftHandle R}.

(** Begin receiving, then install, as the server sees the two local calls. *)
Definition install (vote : openraft.Vote) (meta : openraft.SnapshotMeta) (data : list byte) :
    M R message openraft.SnapshotResponse :=
  begin_receiving_snapshot;; install_full_snapshot vote meta data.

Lemma receive_rest cs v m data :
  receive_chunks cs None (Some v) (Some m) data = Ok (Some v, Some m, data ++ payloads cs).
Proof.
  revert data. induction cs as [|c cs IH]; intros data; cbn.
  - by rewrite (right_id_L [] (++)).
  - rewrite IH. unfold payloads. cbn. by rewrite <-app_assoc.
Qed.

(** The vote and the meta of the first chunk, when both are there and complete. *)
Definition opening (c : raft.SnapshotRequest) : option (openraft.Vote * openraft.SnapshotMeta) :=
  match raft.sq_vote c, raft.sq_meta c with
  | Some v, Some m =>
      match Vote_try_from v, SnapshotMeta_try_from m with
      | Ok v, Ok m => Some (v, m)
      | _, _ => None
      end
  | _, _ => None
  end.

Lemma SnapshotMeta_no_panic m : match SnapshotMeta_try_from m with Panic _ => False | _ => True end.
Proof.
  assert (Hl : ∀ o, match try_opt LogId_try_from o with Panic _ => False | _ => True end).
  { intros [l|]; [|done]. cbn. unfold LogId_try_from, require. by destruct (raft.log_leader_id l). }
  assert (Hs : ∀ sm, match StoredMembership_try_from sm with Panic _ => False | _ => True end).
  { intros [l sm]. unfold StoredMembership_try_from. cbn. specialize (Hl l).
    destruct (try_opt LogId_try_from l), sm; try done. }
  destruct m as [l sm id]. unfold SnapshotMeta_try_from. cbn. specialize (Hl l).
  destruct (try_opt LogId_try_from l); [|done..]. destruct sm as [sm|]; [|done]. specialize (Hs sm). cbn.
  by destruct (StoredMembership_try_from sm).
Qed.

Lemma receive_first c cs :
  match opening c with
  | Some (v, m) => receive_chunks (c :: cs) None None None [] = Ok (Some v, Some m, payloads (c :: cs))
  | None => ∃ s, receive_chunks (c :: cs) None None None [] = Err s
  end.
Proof.
  unfold opening. cbn [receive_chunks].
  destruct (raft.sq_vote c) as [v|]; cbn [net_require ok_or mbind result_bind]; [|by eexists].
  unfold Vote_try_from, require.
  destruct (raft.vote_leader_id v) as [l|]; cbn [ok_or map_err mbind result_bind mret result_ret];
    [|by destruct (raft.sq_meta c); eexists].
  destruct (raft.sq_meta c) as [m|]; cbn [net_require ok_or mbind result_bind]; [|by eexists].
  pose proof (SnapshotMeta_no_panic m) as Hm.
  destruct (SnapshotMeta_try_from m) as [m'|e|]; cbn [map_err mbind result_bind mret result_ret];
    [|by eexists|done]. by rewrite receive_rest.
Qed.

Lemma receive_broken cs s v m data : is_ok (receive_chunks cs (Some s) v m data) = false.
Proof.
  revert v m data. induction cs as [|c cs IH]; intros v m data; cbn [receive_chunks]; [done|].
  match goal with |- is_ok (mbind _ ?x) = false => destruct x as [[v' m']|e|p] end; [apply IH|done..].
Qed.

(** The vote and the meta a stream is installed with. *)
Definition accepted (cs : list raft.SnapshotRequest) (broken : option Status) :
    option (openraft.Vote * openraft.SnapshotMeta) :=
  match cs, broken with
  | c :: _, None => opening c
  | _, _ => None
  end.

Lemma server_snapshot_run cs broken w :
  match accepted cs broken with
  | Some (v, m) =>
      server_snapshot cs broken w
      = mapE internal (r ← install v m (payloads cs); mret (SnapshotResponse_to r)) w
  | None =>
      is_ok (server_snapshot cs broken w).1 = false
      ∧ (server_snapshot cs broken w).2 = (begin_receiving_snapshot w).2
  end.
Proof.
  assert (Hrefuse : ∀ r, receive_chunks cs broken None None [] = r →
    is_ok (r ≫= λ x, ok_or empty_stream x.1.1) = false →
    is_ok (server_snapshot cs broken w).1 = false
    ∧ (server_snapshot cs broken w).2 = (begin_receiving_snapshot w).2).
  { intros r E Hr. unfold server_snapshot, mapE, mbind, M_bind, lift. rewrite E.
    destruct (begin_receiving_snapshot w) as [[[]|e|p] w1]; cbn; [|done..].
    by destruct r as [[[[v|] m] d]|e|p]. }
  destruct cs as [|c cs]; cbn [accepted].
  { eapply Hrefuse; [reflexivity|]. by destruct broken. }
  destruct broken as [s|].
  { eapply Hrefuse; [reflexivity|]. pose proof (receive_broken (c :: cs) s None None []) as Hb.
    by destruct (receive_chunks (c :: cs) (Some s) None None []). }
  pose proof (receive_first c cs) as Hf. destruct (opening c) as [[v m]|].
  - unfold server_snapshot, install, mapE, mbind, M_bind, lift. rewrite Hf.
    destruct (begin_receiving_snapshot w) as [[[]|e|p] w1]; cbn; [|done..].
    by destruct (install_full_snapshot v m _ w1) as [[r|e|p] w2].
  - destruct Hf as [s Hf]. by eapply Hrefuse.
Qed.

(** The server installs a streamed snapshot exactly when the stream ends properly,
    is not empty and its first chunk has a complete vote and meta: then with that vote
    and meta and the concatenation of all chunks.  In every other case it answers with
    an error and the local Raft is not asked to install anything. *)
Theorem server_snapshot_installs cs broken w :
  match accepted cs broken with
  | Some (v, m) =>
      server_snapshot cs broken w
      = mapE internal (r ← install v m (payloads cs); mret (SnapshotResponse_to r)) w
  | None =>
      is_ok (server_snapshot cs broken w).1 = false
      ∧ (server_snapshot cs broken w).2 = (begin_receiving_snapshot w).2
  end.
Proof. apply server_snapshot_run. Qed.
End server.

(** ** Remote calls *)

Section remote.
Context {R : Type} `{RaftHandle R}.

(** A connection that delivers: each call runs the handler of the server, and a
    stream is read to its end. *)
Definition direct : Transport R := {|
  Channel := unit;
  connect _ w := (Some tt, w);
  rpc_append_entries _ := server_append_entries;
  rpc_vote _ := server_vote;
  rpc_snapshot _ cs w := let '(r, w) := server_snapshot cs None w in (r, true, w);
  rpc_snapshot_dropped _ _ w := w
|}.
#[local] Existing Instance direct.

(** A local call of the server's Raft, seen from the client. *)
Definition remotely {E A} (network : net_cause → E) (m : M R message A) : M NetSt E A := λ s,
  let '(r, w) := m (world s) in
  (map_err (λ e, network (StatusCause (internal e))) r,
   {| client := {| node := node (client s); channel := Some tt |}; world := w |}).

Lemma get_channel_direct {E} (u : net_cause → E) (s : NetSt) :
  get_channel u s
  = (Ok tt, {| client := {| node := node (client s); channel := Some tt |}; world := world s |}).
Proof. unfold get_channel. destruct s as [[n [[]|]] w]; done. Qed.

Lemma unary_direct {Q P B} (call : Q → M R Status P) (q : Q) (m : M R message B)
    (from : P → conv B) (back : B → P) s :
  (∀ w, call q w = mapE internal (r ← m; mret (back r)) w) → inverts from back →
  unary (λ _ : Channel, call) q from s = remotely RpcNetwork m s.
Proof.
  intros Hc Hi. unfold unary. rewrite (M_bind_Ok _ _ _ _ _ (get_channel_direct _ s)).
  unfold outcome, in_world, zoom, remotely, mbind, M_bind. cbn. rewrite Hc. unfold mapE, mbind, M_bind.
  destruct (m (world s)) as [[r|e|p] w]; cbn; [by rewrite Hi|done..].
Qed.

(** The server's state and the client's answer after a stream that was not empty. *)
Lemma full_snapshot_direct vote meta file chunk reads s cs err :
  chunk_stream reads file (Vote_to vote) (SnapshotMeta_to meta)
    (Z.max (default DEFAULT_CHUNK_SIZE chunk) 1) = (cs, err) → cs ≠ [] →
  client_full_snapshot vote meta file false chunk reads s
  = match err with
    | None => remotely StreamNetwork (install vote meta (payloads cs)) s
    | Some e => (Err (StreamStorage e), (remotely StreamNetwork (install vote meta (payloads cs)) s).2)
    end.
Proof.
  intros Ec Hne. destruct (chunk_stream_spec _ _ _ _ _ _ _ (Z.le_max_r _ _) Ec) as (Hcar & _ & _ & _).
  destruct cs as [|c cs]; [done|]. apply Forall_cons in Hcar as [[Hv Hm] _].
  pose proof (server_snapshot_run (c :: cs) None (world s)) as Hs. cbn [accepted] in Hs.
  unfold opening in Hs. rewrite Hv, Hm, Vote_inverts, SnapshotMeta_inverts in Hs.
  generalize dependent (payloads (c :: cs)). intros data Hs.
  unfold client_full_snapshot. rewrite (M_bind_Ok _ _ _ _ _ (get_channel_direct _ s)), Ec.
  unfold in_world, zoom, remotely, mbind, M_bind. cbn. rewrite Hs. unfold mapE, mbind, M_bind.
  destruct (install vote meta data (world s)) as [[r|e|p] w], err; cbn [map_err]; try reflexivity.
  by destruct r as [[[]]].
Qed.

(** C22: Over a connection that delivers every message, [append_entries] and vote on the
    client equal the call on the server's Raft; so does [full_snapshot] of a non-empty
    file, for every chunk size and however short the reads are, when no read fails and the
    call is not cancelled. A failing read installs a prefix
    ([read_error_installs_prefix]). *)
Theorem remote_calls_transparent (s : NetSt) :
  (∀ rpc, client_append_entries rpc s = remotely RpcNetwork (raft_append_entries rpc) s)
  ∧ (∀ rpc, client_vote rpc s = remotely RpcNetwork (raft_vote rpc) s)
  ∧ (∀ vote meta file chunk reads, file ≠ [] → (∀ i, ∃ k, reads i = inr k) →
       client_full_snapshot vote meta file false chunk reads s
       = remotely StreamNetwork (install vote meta file) s).
Proof.
  split_and!.
  - intros rpc. apply (unary_direct _ _ _ _ AppendEntriesResponse_to); [|apply AppendEntriesResponse_inverts].
    intros w. unfold server_append_entries. rewrite AppendEntriesRequest_inverts. unfold mapE, mbind, M_bind, lift. cbn.
    by destruct (raft_append_entries rpc w) as [[]].
  - intros rpc. apply (unary_direct _ _ _ _ VoteResponse_to); [|apply VoteResponse_inverts].
    intros w. unfold server_vote. rewrite VoteRequest_inverts. unfold mapE, mbind, M_bind, lift. cbn.
    by destruct (raft_vote rpc w) as [[]].
  - intros vote meta file chunk reads Hne Hr.
    pose proof (chunk_stream_no_error (Vote_to vote) (SnapshotMeta_to meta) reads
      (Z.max (default DEFAULT_CHUNK_SIZE chunk) 1) file Hr) as He.
    destruct (chunk_stream _ _ _ _ _) as [cs err] eqn:Ec. cbn in He. subst err.
    destruct (chunk_stream_spec _ _ _ _ _ _ _ (Z.le_max_r _ _) Ec) as (_ & _ & _ & Hp). specialize (Hp eq_refl).
    rewrite (full_snapshot_direct _ _ _ _ _ _ _ _ Ec), Hp; [done|]. intros ->. by apply Hne.
Qed.

(** A read error on the sending side is taken for the end of the file: the client
    reports a storage error, but the server has seen a complete stream and has
    installed the part of the file that was read before the error. *)
Theorem read_error_installs_prefix (s : NetSt) vote meta file chunk reads n e :
  reads 0%nat = inr n → reads 1%nat = inl e →
  0 < n < blen file → n ≤ default DEFAULT_CHUNK_SIZE chunk →
  client_full_snapshot vote meta file false chunk reads s
  = (Err (StreamStorage e),
     (remotely StreamNetwork (install vote meta (take (Z.to_nat n) file)) s).2).
Proof.
  intros E0 E1 Hn Hc.
  assert (Ec : chunk_stream reads file (Vote_to vote) (SnapshotMeta_to meta)
    (Z.max (default DEFAULT_CHUNK_SIZE chunk) 1)
    = ([{| raft.sq_vote := Some (Vote_to vote); raft.sq_meta := Some (SnapshotMeta_to meta);
           raft.sq_data := take (Z.to_nat n) file |}], Some e)).
  { unfold chunk_stream. destruct file as [|b file]; [unfold blen in Hn; cbn in Hn; lia|].
    cbn [chunk_loop length]. rewrite E0, E1.
    assert (En : read_len (Z.max (default DEFAULT_CHUNK_SIZE chunk) 1) n (blen (b :: file)) = n)
      by (unfold read_len; lia).
    by rewrite En, decide_False by lia. }
  rewrite (full_snapshot_direct _ _ _ _ _ _ _ _ Ec) by done. unfold payloads. cbn.
  by rewrite (right_id_L [] (++)).
Qed.
End remote.

(** ** Evaluated instances *)

Module NetDemo.
#[local] Existing Instances SampleRaft.membership.

(** A Raft that records the snapshot data it installs. *)
Definition recorder : RaftHandle (list (list byte)) := {|
  raft_vote rpc w :=
    (Ok {| openraft.resp_vote := openraft.req_vote rpc; openraft.vote_granted := true;
           openraft.resp_last_log_id := None |}, w);
  raft_append_entries rpc w := (Ok openraft.Success, w);
  begin_receiving_snapshot w := (Ok tt, w);
  install_full_snapshot v m data w := (Ok {| openraft.snapshot_vote := v |}, data :: w)
|}.
#[local] Existing Instances recorder direct.

Definition a_vote : openraft.Vote :=
  {| openraft.leader_id := {| openraft.term := 1; openraft.leader_node := 1 |}; openraft.committed := true |}.
Definition a_meta : openraft.SnapshotMeta :=
  {| openraft.last_log_id := None;
     openraft.last_membership := {| openraft.stored_log_id := None;
                                    openraft.stored_membership := openraft.Membership_default |};
     openraft.snapshot_id := "init" |}.
Definition start : NetSt :=
  {| client := new_client 2 {| raft.node_id := 2; raft.rpc_addr := "host:1" |}; world := [] |}.

Definition short_reads : read_schedule := λ i, inr (Z.of_nat i).
Definition failing_reads : read_schedule := λ i, if decide (i = 0%nat) then inr 2 else inl UnexpectedEof.

(** Five bytes in chunks of at most two. *)
Lemma remote_calls_transparent_witness :
  client_full_snapshot a_vote a_meta [x01; x02; x03; x04; x05] false (Some 2) short_reads start
  = remotely StreamNetwork (install a_vote a_meta [x01; x02; x03; x04; x05]) start.
Proof.
  apply (remote_calls_transparent start); [done|]. intros i. by exists (Z.of_nat i).
Defined.

Lemma read_error_installs_prefix_witness :
  client_full_snapshot a_vote a_meta [x01; x02; x03; x04; x05] false (Some 2) failing_reads start
  = (Err (StreamStorage UnexpectedEof),
     (remotely StreamNetwork (install a_vote a_meta [x01; x02]) start).2).
Proof.
  apply (read_error_installs_prefix start a_vote a_meta [x01; x02; x03; x04; x05] (Some 2) failing_reads 2
    UnexpectedEof); by vm_compute.
Defined.

(** The server has installed two of the five bytes. *)
Example truncated_install :
  world (client_full_snapshot a_vote a_meta [x01; x02; x03; x04; x05] false (Some 2) failing_reads start).2
  = [[x01; x02]].
Proof. vm_compute. reflexivity. Qed.
End NetDemo.
