(* ===== verification/Cluster.v ===== *)
(** * A cluster node (crates/cluster/src/cluster.rs)

    The node that clients talk to: admission on the leader, writes through Raft,
    linearizable reads, the checkpoint loop, and the management calls.
    [openraft::Raft] is the class [Openraft]: its methods, and that a successful
    [client_write] has applied the command to the local state machine through
    [StateMachine::apply]. *)

From S2P Require Import Prelude Bytes CoreError FileSys Proto External Mapping Document IndexApi Collection Search.
From S2P Require Import WalInterface Catalog Conversions LogStore StateMachine.

Open Scope Z_scope.

Module cluster.

(** ** openraft's errors and metrics *)

Inductive RaftError (E : Type) :=
| APIError (e : E)
| RaftFatal (f : message).
Arguments APIError {E} e.
Arguments RaftFatal {E} f.

Inductive ClientWriteError :=
| WriteForwardToLeader (leader_node : option raft.Node)
| ChangeMembershipError (e : message).
Inductive CheckIsLeaderError :=
| ReadForwardToLeader (leader_node : option raft.Node)
| QuorumNotEnough.
Inductive InitializeError :=
| NotAllowed
| NotInMembers (e : message).

Inductive ServerState := Learner | Follower | Candidate | Leader | Shutdown.

Section metrics.
Context `{openraft.MembershipApi}.

Record RaftMetrics := {
  m_id : Z;
  m_current_term : Z;
  m_state : ServerState;
  m_current_leader : option Z;
  m_last_log_index : option Z;
  m_last_applied : option openraft.LogId;
  m_membership : openraft.StoredMembership
}.

(** ** The HTTP-facing view *)

Inductive ClientError :=
| Core (e : Error)
| ForwardToLeader (node : option raft.Node)
| AlreadyInitialized
| Unavailable
| Fatal (e : message).

Record ClusterMetrics := {
  cm_id : Z;
  cm_current_term : Z;
  cm_state : string;
  cm_current_leader : option Z;
  cm_last_log_index : option Z;
  cm_last_applied_index : option Z;
  cm_voters : list Z;
  cm_members : list Z
}.

Definition server_state (s : ServerState) : string :=
  match s with
  | Learner => "learner"
  | Follower => "follower"
  | Candidate => "candidate"
  | Leader => "leader"
  | Shutdown => "shutdown"
  end.

(** [voter_ids] and [nodes] iterate ordered sets. *)
Definition to_cluster_metrics (m : RaftMetrics) : ClusterMetrics :=
  let membership := openraft.stored_membership (m_membership m) in
  {| cm_id := m_id m;
     cm_current_term := m_current_term m;
     cm_state := server_state (m_state m);
     cm_current_leader := m_current_leader m;
     cm_last_log_index := m_last_log_index m;
     cm_last_applied_index := openraft.index <$> m_last_applied m;
     cm_voters := merge_sort Z.le (elements (⋃ openraft.get_joint_config membership));
     cm_members := (btree_iter Z.le (openraft.membership_nodes membership)).*1 |}.

Definition classify_write (err : RaftError ClientWriteError) : ClientError :=
  match err with
  | APIError (WriteForwardToLeader node) => ForwardToLeader node
  | APIError (ChangeMembershipError e) => Core (Validation e)
  | RaftFatal f => Fatal f
  end.

Definition classify_read (err : RaftError CheckIsLeaderError) : ClientError :=
  match err with
  | APIError (ReadForwardToLeader node) => ForwardToLeader node
  | APIError QuorumNotEnough => Unavailable
  | RaftFatal f => Fatal f
  end.

Definition classify_init (err : RaftError InitializeError) : ClientError :=
  match err with
  | APIError NotAllowed => AlreadyInitialized
  | APIError (NotInMembers e) => Core (Validation e)
  | RaftFatal f => Fatal f
  end.

Definition to_mark (log_id : openraft.LogId) : LogMark :=
  {| mark_term := openraft.term (openraft.log_leader log_id);
     mark_node := openraft.leader_node (openraft.log_leader log_id);
     mark_index := openraft.index log_id |}.
End metrics.

Section Cluster.
Context `{Json} `{Rfc3339} `{TantivySchema} `{!TantivyIndex} `{!TantivySearch} `{!MarkJson} `{UuidApi}.
Context `{WriteAheadLog} `{!Codec v1.CatalogSnapshot}.
Context `{openraft.MembershipApi} `{!Codec raft.StoredMembership}.

(** The local Raft core [R] and the state machine it drives.  [delivered] is the
    entries that reach the state machine while a write is in progress, those of other
    clients before and after its own included; a call that fails may have delivered some
    too.  A call that succeeds has applied its command and returns the response to it. *)
Class Openraft (R : Type) := {
  metrics : R → RaftMetrics;
  client_write : v1.Command → M (R * SmSt) (RaftError ClientWriteError) Response;
  ensure_linearizable : M (R * SmSt) (RaftError CheckIsLeaderError) unit;
  initialize : gmap Z raft.Node → M (R * SmSt) (RaftError InitializeError) unit;
  raft_add_learner : Z → raft.Node → M (R * SmSt) (RaftError ClientWriteError) unit;
  raft_change_membership : gset Z → bool → M (R * SmSt) (RaftError ClientWriteError) unit;
  delivered : v1.Command → R → list openraft.Entry;

  client_write_applies cmd r st resp r' st' :
    client_write cmd (r, st) = (Ok resp, (r', st')) →
    ∃ before id after rs rs',
      delivered cmd r = before ++ {| openraft.log_id := id; openraft.payload := openraft.Normal cmd |} :: after
      ∧ length rs = length before
      ∧ apply (delivered cmd r) st = (Ok (rs ++ resp :: rs'), st')
}.

Section node.
Context {R : Type} `{!Openraft R}.

Record Cluster := {
  id : Z;
  self_node : raft.Node;
  seed_peers : gmap Z raft.Node;
  raft_core : R;
  sm : SmSt
}.

Abbreviation MCl := (M Cluster ClientError).

Record CreateOutcome := { co_mapping : Mapping; co_created : bool }.
Record WriteOutcome := { wo_id : string; wo_created : bool }.

(** A call of the Raft core. *)
Definition on_raft {E A} (m : M (R * SmSt) E A) : M Cluster E A :=
  zoom (λ c, (raft_core c, sm c))
    (λ rs c, {| id := id c; self_node := self_node c; seed_peers := seed_peers c;
                raft_core := rs.1; sm := rs.2 |}) m.

(** A call of [sm.catalog()], with the conversion of [?] into [ClientError]. *)
Definition on_catalog_of {A} (m : M CatSt Error A) : MCl A :=
  mapE Core (zoom (λ c, sm_catalog (sm c))
    (λ s c, {| id := id c; self_node := self_node c; seed_peers := seed_peers c; raft_core := raft_core c;
               sm := {| sm_catalog := s; meta_dir := meta_dir (sm c); sm_state := sm_state (sm c) |} |}) m).

(** [spawn_read]: a panic of the blocking task is an error of the caller. *)
Definition spawn_read {A} (m : M CatSt Error A) : MCl A := λ c,
  let '(r, c') := on_catalog_of m c in
  (match r with Panic w => Err (Fatal (Msg "task panicked" [w])) | r => r end, c').

Definition get_metrics : MCl RaftMetrics := c ← get; mret (metrics (raft_core c)).

Definition forward_or_unavailable (m : RaftMetrics) : ClientError :=
  match m_current_leader m with
  | None => Unavailable
  | Some leader =>
      match openraft.membership_nodes (openraft.stored_membership (m_membership m)) !! leader with
      | Some node => ForwardToLeader (Some node)
      | None => Unavailable
      end
  end.

Definition ensure_leader : MCl unit :=
  c ← get;
  m ← get_metrics;
  if decide (m_current_leader m = Some (id c)) then mret tt else throw (forward_or_unavailable m).

Definition cl_write (cmd : v1.Command) : MCl Response :=
  mapE classify_write (on_raft (client_write cmd)).

(** ** The client operations.  [ddl] serialises [create_collection] and
    [drop_collection]; a method here runs to its end before the next one starts. *)

Definition create_collection (fresh : Uuid) (name : string) (mapping : Mapping) : MCl CreateOutcome :=
  ensure_leader;;
  o ← on_catalog_of (build_create_command fresh name mapping);
  match o with
  | Some cmd => cl_write cmd;; mret {| co_mapping := mapping; co_created := true |}
  | None => mret {| co_mapping := mapping; co_created := false |}
  end.

Definition index (fresh : Uuid) (collection : string) (id : option string) (source : list byte) :
    MCl WriteOutcome :=
  ensure_leader;;
  cmd ← on_catalog_of (build_index_command fresh collection id source);
  resp ← cl_write cmd;
  mret {| wo_id := response_id resp; wo_created := response_created resp |}.

Definition delete (collection id : string) : MCl unit :=
  ensure_leader;;
  cmd ← on_catalog_of (build_delete_command collection id);
  cl_write cmd;;
  mret tt.

Definition drop_collection (name : string) : MCl unit :=
  ensure_leader;;
  cmd ← on_catalog_of (build_drop_command name);
  cl_write cmd;;
  mret tt.

Definition linearizable_get (collection id : string) : MCl (list byte) :=
  mapE classify_read (on_raft ensure_linearizable);;
  m ← get_metrics;
  let mark := default LogMark_default (to_mark <$> m_last_applied m) in
  spawn_read (commit_collection collection mark;; get_document collection id).

(** [catalog.get(collection)?.search(query, limit, offset)]. *)
Definition catalog_search (collection query : string) (limit offset : Z) :
    M CatSt Error Search.SearchResults :=
  catalog_get collection;; on_col collection (Search.search query limit offset).

Definition search (collection query : string) (limit offset : Z) : MCl Search.SearchResults :=
  ensure_leader;;
  spawn_read (catalog_search collection query limit offset).

Definition list_collections : MCl (list string) := on_catalog_of list_names.
Definition describe_collection (name : string) : MCl Mapping := on_catalog_of (describe name).

(** ** Management *)

Definition default_members (c : Cluster) : gmap Z raft.Node := <[id c := self_node c]> (seed_peers c).

Definition init (members : option (gmap Z raft.Node)) : MCl unit :=
  c ← get;
  mapE classify_init (on_raft (initialize (default (default_members c) members))).

Definition add_learner (nid : Z) (rpc_addr : string) : MCl unit :=
  mapE classify_write (on_raft (raft_add_learner nid {| raft.node_id := nid; raft.rpc_addr := rpc_addr |})).

Definition change_membership (members : gset Z) (retain : bool) : MCl unit :=
  mapE classify_write (on_raft (raft_change_membership members retain)).

Definition cluster_metrics : MCl ClusterMetrics := m ← get_metrics; mret (to_cluster_metrics m).

Definition log_errors (m : MCl unit) : MCl unit := λ c, (Ok tt, (m c).2).

(** One tick of [checkpoint_loop]; a failure is only logged. *)
Definition checkpoint_tick : MCl unit :=
  m ← get_metrics;
  match m_last_applied m with
  | None => mret tt
  | Some applied => log_errors (spawn_read (checkpoint_applied (to_mark applied)))
  end.
End node.
End Cluster.
End cluster.
