(* ===== verification/ClusterCorrect.v ===== *)
(** * A cluster node: correctness

    Which requests are admitted, what an acknowledged write means for the
    replicated database, and what a linearizable read returns; then the
    interleaving of an admission with schema changes that stops every replica. *)

From S2P Require Import Prelude Bytes CoreError FileSys SegmentedLog LogCorrect Proto External Samples SampleCodecs.
From S2P Require Import Mapping Document IndexApi Collection SampleIndex CollectionSpec Search WalInterface Wal.
From S2P Require Import Catalog CatalogSpec CatalogRel CatalogCommit CatalogCalls CatalogHistory CatalogCorrect.
From S2P Require Import CatalogSnapshots Conversions LogStore SampleRaft StateMachine ReplicaSpec StateMachineCorrect.
From S2P Require Import ReplicaEffect Cluster.

Open Scope Z_scope.

Section ClusterCorrect.
Context `{Json} `{Rfc3339} `{TantivySchema} `{!TantivyIndex} `{!TantivySearch} `{!MarkJson} `{UuidApi}.
Context `{WriteAheadLog} `{!Codec v1.CatalogSnapshot}.
Context `{openraft.MembershipApi} `{!Codec raft.StoredMembership}.
Context {R : Type} `{!cluster.Openraft R}.
Abbreviation node := (cluster.Cluster (R:=R)).

(** ** Write requests *)

Inductive request :=
| QCreate (fresh : Uuid) (name : string) (mapping : Mapping)
| QIndex (fresh : Uuid) (collection : string) (id : option string) (source : list byte)
| QDelete (collection id : string)
| QDrop (name : string).

Definition request_run (q : request) : M node cluster.ClientError reply :=
  match q with
  | QCreate fresh n m =>
      r ← cluster.create_collection fresh n m;
      mret (RCreated (cluster.co_mapping r) (cluster.co_created r))
  | QIndex fresh n oid src =>
      r ← cluster.index fresh n oid src; mret (RUpserted (cluster.wo_id r) (cluster.wo_created r))
  | QDelete n id => cluster.delete n id;; mret RDone
  | QDrop n => cluster.drop_collection n;; mret RDone
  end.

(** The command a request stands for in database [d]: [None] when there is nothing
    to do. *)
Definition admission (d : gmap string coll) (q : request) : result Error (option cmd) :=
  match q with
  | QCreate fresh n m =>
      validate_name n;;
      match d !! n with
      | Some cl => if decide (a_mapping cl = m) then Ok None else Err (SchemaConflict n)
      | None => Ok (Some (CCreate n fresh m))
      end
  | QIndex fresh n oid src =>
      cl ← ok_or (CollectionNotFound n) (d !! n);
      v ← ok_or (Validation (Msg "invalid JSON: {e}" [])) (from_slice src);
      validate_document (a_mapping cl) v;;
      Ok (Some (CIndex n (or_new_id fresh oid) src))
  | QDelete n id => ok_or (CollectionNotFound n) (d !! n);; Ok (Some (CDelete n id))
  | QDrop n => ok_or (CollectionNotFound n) (d !! n);; Ok (Some (CDrop n))
  end.

(** The answer to an admitted request, given the response of the state machine. *)
Definition answered (q : request) (resp : Response) : reply :=
  match q with
  | QCreate _ _ m => RCreated m true
  | QIndex _ _ _ _ => RUpserted (response_id resp) (response_created resp)
  | _ => RDone
  end.

Definition leading (c : node) : Prop :=
  cluster.m_current_leader (cluster.metrics (cluster.raft_core c)) = Some (cluster.id c).

#[global] Instance leading_dec c : Decision (leading c).
Proof. unfold leading. apply _. Defined.

(** ** Admission *)

Lemma ensure_leader_run (c : node) :
  cluster.ensure_leader c
  = if decide (leading c) then (Ok tt, c)
    else (Err (cluster.forward_or_unavailable (cluster.metrics (cluster.raft_core c))), c).
Proof.
  unfold cluster.ensure_leader. mpure. unfold cluster.get_metrics. rewrite M_bind_assoc. mpure. mpure.
  by destruct (decide (_ = _)), (decide (leading c)).
Qed.

(** A call of the catalog that does not change it. *)
Lemma on_catalog_pure {A} (m : M CatSt Error A) (c : node) r :
  m (sm_catalog (cluster.sm c)) = (r, sm_catalog (cluster.sm c)) →
  cluster.on_catalog_of m c = (map_err cluster.Core r, c).
Proof. intros E. unfold cluster.on_catalog_of, mapE, zoom. rewrite E. by destruct c as [? ? ? ? []]. Qed.

Lemma replica_get st d i n :
  replica st d i →
  match d !! n with
  | Some cl => ∃ e, catalog_get n st = (Ok e, st) ∧ lookup_entry n st = (Ok (Some e), st)
                    ∧ c_mapping (e_collection e) = a_mapping cl
  | None => catalog_get n st = (Err (CollectionNotFound n), st) ∧ lookup_entry n st = (Ok None, st)
  end.
Proof.
  intros Hr. pose proof (replica_lookup _ _ _ _ n Hr) as Hl. destruct (d !! n) as [cl|].
  - destruct Hl as (e & D & k & He & (_ & _ & index & _ & Hrep & _) & _). exists e.
    split; [by apply get_ok|]. rewrite lookup_entry_ok, He. split; [done|]. apply (cr_mapping _ _ _ _ Hrep).
  - split; [by apply get_missing|]. by rewrite lookup_entry_ok, Hl.
Qed.

(** The builders accept what [admission] says, and change nothing. *)
Definition built_opt (r : result Error (option cmd)) : result Error (option v1.Command) :=
  match r with
  | Ok oc => Ok ((λ c, command (op_of c)) <$> oc)
  | Err e => Err e
  | Panic w => Panic w
  end.
Definition built (r : result Error (option cmd)) : result Error v1.Command :=
  match r with
  | Ok (Some c) => Ok (command (op_of c))
  | Ok None => Panic "no command"
  | Err e => Err e
  | Panic w => Panic w
  end.

Lemma build_create_run st d i fresh n m :
  replica st d i → build_create_command fresh n m st = (built_opt (admission d (QCreate fresh n m)), st).
Proof.
  intros Hr. unfold build_create_command. cbn [admission]. destruct (validate_name n) as [[]|e|p]; [|done..]. mpure.
  unfold check_create. rewrite M_bind_assoc. pose proof (replica_get _ _ _ n Hr) as Hg.
  destruct (d !! n) as [cl|].
  - destruct Hg as (e & _ & El & <-). rewrite (M_bind_Ok _ _ _ _ _ El). cbn. by case_decide.
  - destruct Hg as [_ El]. by rewrite (M_bind_Ok _ _ _ _ _ El).
Qed.

Lemma build_index_run st d i fresh n oid src :
  replica st d i → build_index_command fresh n oid src st = (built (admission d (QIndex fresh n oid src)), st).
Proof.
  intros Hr. unfold build_index_command, check_document. rewrite M_bind_assoc. cbn [admission].
  pose proof (replica_get _ _ _ n Hr) as Hg. destruct (d !! n) as [cl|].
  - destruct Hg as (e & Eg & _ & Em). rewrite (M_bind_Ok _ _ _ _ _ Eg), M_bind_assoc. cbn [ok_or mbind result_bind].
    destruct (from_slice src) as [v|]; [|done]. mpure. rewrite M_bind_assoc, Em. cbn [ok_or mbind result_bind].
    by destruct (validate_document (a_mapping cl) v) as [[]| |].
  - destruct Hg as [Eg _]. by rewrite (M_bind_Err _ _ _ _ _ Eg).
Qed.

Lemma build_delete_run st d i n id :
  replica st d i → build_delete_command n id st = (built (admission d (QDelete n id)), st).
Proof.
  intros Hr. unfold build_delete_command. pose proof (replica_get _ _ _ n Hr) as Hg. cbn [admission].
  destruct (d !! n) as [cl|].
  - destruct Hg as (e & Eg & _). by rewrite (M_bind_Ok _ _ _ _ _ Eg).
  - destruct Hg as [Eg _]. by rewrite (M_bind_Err _ _ _ _ _ Eg).
Qed.

Lemma build_drop_run st d i n :
  replica st d i → build_drop_command n st = (built (admission d (QDrop n)), st).
Proof.
  intros Hr. unfold build_drop_command. pose proof (replica_get _ _ _ n Hr) as Hg. cbn [admission].
  destruct (d !! n) as [cl|].
  - destruct Hg as (e & Eg & _). by rewrite (M_bind_Ok _ _ _ _ _ Eg).
  - destruct Hg as [Eg _]. by rewrite (M_bind_Err _ _ _ _ _ Eg).
Qed.

(** A request after the leadership check, with what its builder returns. *)
Definition after_admission (q : request) (r : result Error (option cmd)) : M node cluster.ClientError reply :=
  match r with
  | Ok (Some cm) => resp ← cluster.cl_write (command (op_of cm)); mret (answered q resp)
  | Ok None => mret (match q with QCreate _ _ m => RCreated m false | _ => RDone end)
  | Err e => throw (cluster.Core e)
  | Panic w => lift (Panic w)
  end.

(** The requests that always log a command. *)
Lemma submit_run {A} (q : request) (b : M CatSt Error v1.Command) (r : result Error (option cmd))
    (k : Response → A) (rep : A → reply) (c : node) :
  leading c → b (sm_catalog (cluster.sm c)) = (built r, sm_catalog (cluster.sm c)) → r ≠ Ok None →
  (∀ resp, rep (k resp) = answered q resp) →
  (x ← (cluster.ensure_leader;; cm ← cluster.on_catalog_of b; resp ← cluster.cl_write cm; mret (k resp));
   mret (rep x)) c = after_admission q r c.
Proof.
  intros Hl Hb Hn Hk. pose proof (ensure_leader_run c) as Ee. rewrite decide_True in Ee by done.
  rewrite M_bind_assoc, (M_bind_Ok _ _ _ _ _ Ee), M_bind_assoc, (M_bind_run _ _ _ _ _ (on_catalog_pure _ _ _ Hb)).
  destruct r as [[cm|]|e|p]; [|done..]. cbn [built map_err after_admission]. mpure. rewrite M_bind_assoc.
  unfold mbind, M_bind. destruct (cluster.cl_write _ c) as [[resp|e|p] c']; [|done..].
  cbn. unfold mret, M_ret. by rewrite Hk.
Qed.

Lemma request_leading q (c : node) d i m :
  sm_rel (cluster.sm c) d i m → leading c → request_run q c = after_admission q (admission d q) c.
Proof.
  intros [Hr _ _] Hl. pose proof (ensure_leader_run c) as Ee. rewrite decide_True in Ee by done.
  assert (Hne : ∀ n (k : coll → result Error (option cmd)), (∀ cl, k cl ≠ Ok None) →
    (ok_or (CollectionNotFound n) (d !! n) ≫= k) ≠ Ok None).
  { intros n k Hk. destruct (d !! n); [apply Hk|done]. }
  destruct q as [fresh n mp|fresh n oid src|n id|n]; cbn [request_run].
  - unfold cluster.create_collection. rewrite M_bind_assoc, (M_bind_Ok _ _ _ _ _ Ee), M_bind_assoc.
    rewrite (M_bind_run _ _ _ _ _ (on_catalog_pure _ _ _ (build_create_run _ _ _ fresh n mp Hr))).
    destruct (admission d (QCreate fresh n mp)) as [[cm|]|e|p]; [|done..].
    unfold after_admission, mbind, M_bind, lift. cbn -[cluster.cl_write].
    by destruct (cluster.cl_write _ c) as [[resp|e|p] c'].
  - apply (submit_run (QIndex fresh n oid src) _ _
      (λ resp, {| cluster.wo_id := response_id resp; cluster.wo_created := response_created resp |})
      (λ o, RUpserted (cluster.wo_id o) (cluster.wo_created o))); [done|by eapply build_index_run| |done].
    apply Hne. intros cl. destruct (from_slice src) as [v|]; [|done]. cbn.
    by destruct (validate_document (a_mapping cl) v).
  - apply (submit_run (QDelete n id) _ _ (λ _, tt) (λ _, RDone)); [done|by eapply build_delete_run| |done].
    by apply Hne.
  - apply (submit_run (QDrop n) _ _ (λ _, tt) (λ _, RDone)); [done|by eapply build_drop_run| |done].
    by apply Hne.
Qed.

Lemma request_not_leading q (c : node) :
  ¬ leading c →
  request_run q c = (Err (cluster.forward_or_unavailable (cluster.metrics (cluster.raft_core c))), c).
Proof.
  intros Hl. pose proof (ensure_leader_run c) as Ee. rewrite decide_False in Ee by done.
  destruct q; cbn [request_run]; unfold cluster.create_collection, cluster.index, cluster.delete, cluster.drop_collection;
    by rewrite M_bind_assoc, (M_bind_Err _ _ _ _ _ Ee).
Qed.

(** C24: What happens to a write request on a node, on every branch: a node that is not
    the leader answers with the leader's address, or unavailable, and does nothing; the
    leader refuses an invalid request with the error of the single-node catalog and does
    nothing, answers a repeated create at once, and otherwise submits exactly the
    command of the request to Raft. *)
Theorem cluster_write_admission q (c : node) d i m :
  sm_rel (cluster.sm c) d i m →
  request_run q c =
  if decide (leading c) then after_admission q (admission d q) c
  else (Err (cluster.forward_or_unavailable (cluster.metrics (cluster.raft_core c))), c).
Proof.
  intros Hr. case_decide; [by eapply request_leading|by apply request_not_leading].
Qed.

(** ** Acknowledged writes *)

Lemma op_of_inj c1 c2 :
  (∀ n u m, c1 = CCreate n u m ∨ c2 = CCreate n u m → mapping_valid m) → op_of c1 = op_of c2 → c1 = c2.
Proof.
  intros Hv E. destruct c1 as [n u m|n|n id src|n id], c2 as [n' u' m'|n'|n' id' src'|n' id']; try done; cbn in E.
  - assert (Em : Mapping_try_from_proto (Mapping_to_proto m) = Mapping_try_from_proto (Mapping_to_proto m'))
      by exact (f_equal (λ o, if o is v1.OpCreateCollection
        {| v1.create_mapping := Some p |} then Mapping_try_from_proto p else Panic "") E).
    rewrite !Mapping_proto_roundtrip in Em by (eapply Hv; eauto). injection Em as ->.
    injection E as -> Eu. by apply uuid_to_string_inj in Eu as ->.
  - by injection E as ->.
  - by injection E as -> -> ->.
  - by injection E as -> ->.
Qed.

Lemma cl_write_Ok cm (c : node) resp c' :
  cluster.cl_write cm c = (Ok resp, c') →
  cluster.client_write cm (cluster.raft_core c, cluster.sm c)
  = (Ok resp, (cluster.raft_core c', cluster.sm c')).
Proof.
  unfold cluster.cl_write, cluster.on_raft, mapE, zoom.
  destruct (cluster.client_write cm _) as [[r|e|p] [r' st']]; cbn; [|done..]. by intros [= -> <-].
Qed.

(** The mapping of a create request was validated when it was parsed. *)
Definition request_ok (q : request) : Prop :=
  match q with QCreate _ _ m => mapping_valid m | _ => True end.

Lemma admission_create d q cm n u m : admission d q = Ok (Some cm) → cm = CCreate n u m → request_ok q → mapping_valid m.
Proof.
  intros Ha -> Hq. destruct q as [fresh n' m'|fresh n' oid src|n' id|n']; cbn in *.
  - destruct (validate_name n'); [|done..]. cbn in Ha. destruct (d !! n'); [by case_decide|]. by simplify_eq.
  - destruct (d !! n') as [cl|]; [|done]. destruct (from_slice src) as [v|]; [|done]. cbn in Ha.
    by destruct (validate_document (a_mapping cl) v).
  - by destruct (d !! n').
  - by destruct (d !! n').
Qed.

(** An entry in the log of a leader's command. *)
Lemma entry_command x lid cm d i l :
  entry_of x = {| openraft.log_id := lid; openraft.payload := openraft.Normal (command (op_of cm)) |} →
  submitted_log d i (x :: l) → (∀ n u m, cm = CCreate n u m → mapping_valid m) → x = (lid, CCmd cm).
Proof.
  destruct x as [lid' [|mem|cm']]; [done..|]. intros Ex (_ & _ & [_ Hx] & _) Hv. injection Ex as -> Eop. f_equal. f_equal.
  apply op_of_inj; [|done]. intros n u mp [->| ->]; [by destruct Hx|by eapply Hv].
Qed.

(** An acknowledged request has written its command. *)
Lemma acknowledged_write q (c : node) d i m rep c' cm :
  sm_rel (cluster.sm c) d i m → admission d q = Ok (Some cm) → request_run q c = (Ok rep, c') →
  ∃ resp, cluster.client_write (command (op_of cm)) (cluster.raft_core c, cluster.sm c)
      = (Ok resp, (cluster.raft_core c', cluster.sm c')) ∧ rep = answered q resp.
Proof.
  intros Hr Ha Hrun. destruct (decide (leading c)) as [Hlead|Hn].
  2: { by rewrite (request_not_leading q c Hn) in Hrun. }
  rewrite (request_leading q c d i m Hr Hlead), Ha in Hrun. cbn [after_admission] in Hrun.
  unfold mbind, M_bind in Hrun. destruct (cluster.cl_write _ c) as [[resp|e|p] c1] eqn:Ew; [|done..].
  cbn in Hrun. injection Hrun as <- <-. exists resp. split; [by apply cl_write_Ok|done].
Qed.

(** C20: When the leader answers a write, its command stands among the entries that
    reached the local state machine while the call was in progress, entries of other
    clients before and after it; all of them have been applied, the state machine holds
    the database after them, and the answer carries the id that applying the command to
    the database at its place gave: the document's id, or an empty one if the collection
    had been dropped by then. *)
Theorem acknowledged_write_applied q (c : node) d i m rep c' cm l :
  sm_rel (cluster.sm c) d i m → request_ok q → admission d q = Ok (Some cm) →
  request_run q c = (Ok rep, c') →
  entry_of <$> l = cluster.delivered (command (op_of cm)) (cluster.raft_core c) → submitted_log d i l →
  ∃ before lid later d1 ids1 d2 id d3 ids3 created,
    l = before ++ (lid, CCmd cm) :: later
    ∧ log_effect d before = Some (d1, ids1) ∧ effect d1 cm = Some (d2, id) ∧ log_effect d2 later = Some (d3, ids3)
    ∧ sm_rel (cluster.sm c') d3 (last_index_of i l) (foldl member_after m l)
    ∧ rep = answered q {| response_id := id; response_created := created |}.
Proof.
  intros Hr Hq Ha Hrun Hl Hc. destruct (acknowledged_write _ _ _ _ _ _ _ _ Hr Ha Hrun) as (resp & Ew & ->).
  destruct (cluster.client_write_applies _ _ _ _ _ _ Ew) as (b & lid & a & rs & rs' & Eb & Elen & Eap). rewrite <-Hl in Eb, Eap.
  apply fmap_app_inv in Eb as (before & l2 & -> & Hl2 & ->). symmetry in Hl2. apply fmap_cons_inv in Hl2 as (x & later & Ex & -> & ->).
  pose proof (apply_log_effect _ _ _ _ _ Hr Hc) as He. destruct (log_effect d _) as [[d3 ids]|] eqn:El; [|by rewrite Eap in He].
  destruct He as (rs0 & st' & E' & Ers & Hr'). rewrite Eap in E'. injection E' as <- <-.
  rewrite log_effect_app in El. destruct (log_effect d before) as [[d1 ids1]|] eqn:E1; [|done]. cbn in El.
  pose proof (submitted_log_app _ _ _ _ _ _ Hc E1) as Hx.
  assert (x = (lid, CCmd cm)) as ->.
  { eapply entry_command; [by symmetry|exact Hx|]. intros n u mp E. by eapply admission_create. }
  cbn in El. destruct (effect d1 cm) as [[d2 id]|] eqn:E2; [|done]. cbn in El.
  destruct (log_effect d2 later) as [[d3' ids3]|] eqn:E3; [|done]. injection El as -> <-.
  rewrite fmap_app, fmap_cons in Ers. apply app_inj_1 in Ers as [_ [= Eid _]].
  2: { rewrite length_fmap, (log_effect_length _ _ _ _ E1). by rewrite Elen, length_fmap. }
  exists before, lid, later, d1, ids1, d2, id, d3, ids3, (response_created resp). do 5 (split; [done|]).
  rewrite <-Eid. by destruct resp.
Qed.

(** C40: index is not serialised with schema changes. Let the leader admit a document
    against its database, and let the entries that reach the log before the document's
    leave the collection with a mapping under which the document cannot be built (the
    collection was dropped and created again with such a mapping): every replica applies
    those entries and then fails on the document's, and a request for which exactly these
    entries are delivered is answered with an error. *)
Theorem raced_index_stops_replicas fresh n oid id src (c : node) d i m l1 lid l2 d' ids cl v :
  sm_rel (cluster.sm c) d i m → admission d (QIndex fresh n oid src) = Ok (Some (CIndex n id src)) →
  submitted_log d i (l1 ++ (lid, CCmd (CIndex n id src)) :: l2) → log_effect d l1 = Some (d', ids) →
  d' !! n = Some cl → from_slice src = Some v → ¬ buildable (a_mapping cl) v →
  (∀ st m', sm_rel st d i m' →
     (∃ rs st', apply (entry_of <$> l1) st = (Ok rs, st'))
     ∧ is_ok (apply (entry_of <$> l1 ++ (lid, CCmd (CIndex n id src)) :: l2) st).1 = false)
  ∧ (cluster.delivered (command (op_of (CIndex n id src))) (cluster.raft_core c)
       = entry_of <$> l1 ++ (lid, CCmd (CIndex n id src)) :: l2 →
     is_ok (request_run (QIndex fresh n oid src) c).1 = false).
Proof.
  intros Hr Ha Hl E1 Hn Ev Hv.
  assert (E : log_effect d (l1 ++ (lid, CCmd (CIndex n id src)) :: l2) = None)
    by (rewrite log_effect_app, E1; cbn; by rewrite Hn, Ev; cbn; rewrite decide_False).
  split.
  - intros st m' Hst. pose proof (apply_log_effect _ _ _ _ _ Hst Hl) as He. rewrite E in He. split; [|done].
    pose proof (apply_log_effect l1 _ _ _ _ Hst) as He1. rewrite E1 in He1. destruct He1 as (rs & st' & ? & _); [|by exists rs, st'].
    by eapply submitted_log_prefix.
  - intros Hdel. destruct (request_run _ c) as [[rep|e|w] c'] eqn:Erun; [exfalso|done..].
    destruct (acknowledged_write _ _ _ _ _ _ _ _ Hr Ha Erun) as (resp & Ew & _).
    destruct (cluster.client_write_applies _ _ _ _ _ _ Ew) as (_ & _ & _ & rs & rs' & _ & _ & Ea). rewrite Hdel in Ea.
    pose proof (apply_log_effect _ _ _ _ _ Hr Hl) as He. by rewrite E, Ea in He.
Qed.

(** ** Linearizable reads *)

Definition read_db (d : gmap string coll) (n id : string) : result cluster.ClientError (list byte) :=
  map_err cluster.Core
    (cl ← ok_or (CollectionNotFound n) (d !! n); ok_or (DocumentNotFound id) (a_docs cl !! id)).

Lemma linearizable_get_run (c : node) r' st' d i m n id l :
  cluster.ensure_linearizable (cluster.raft_core c, cluster.sm c) = (Ok tt, (r', st')) →
  sm_rel st' d i m → id_ok id →
  cluster.m_last_applied (cluster.metrics r') = Some l → openraft.index l = i →
  ∃ c', cluster.linearizable_get n id c = (read_db d n id, c') ∧ sm_rel (cluster.sm c') d i m.
Proof.
  intros El [Hr <- Hf] Hid Hm Hi. unfold cluster.linearizable_get.
  set (c1 := {| cluster.id := cluster.id c; cluster.self_node := cluster.self_node c;
                cluster.seed_peers := cluster.seed_peers c; cluster.raft_core := r'; cluster.sm := st' |} : node).
  assert (E1 : mapE cluster.classify_read (cluster.on_raft cluster.ensure_linearizable) c = (Ok tt, c1))
    by (unfold cluster.on_raft, mapE, zoom; by rewrite El).
  rewrite (M_bind_Ok _ _ _ _ _ E1). unfold cluster.get_metrics. rewrite M_bind_assoc. mpure. mpure.
  cbn [cluster.raft_core c1]. rewrite Hm. cbn [fmap option_fmap option_map default from_option Datatypes.id].
  unfold cluster.spawn_read, cluster.on_catalog_of, mapE, zoom, read_db.
  cbn [cluster.sm c1]. destruct (d !! n) as [cl|] eqn:Hn.
  - destruct (read_latest_ok _ _ _ n cl id (cluster.to_mark l) Hr Hn Hi Hid) as (st2 & E2 & Hr2).
    unfold read_latest in E2. rewrite E2. cbn. eexists. split; [by destruct (a_docs cl !! id)|]. by split.
  - pose proof (replica_get _ _ _ n Hr) as Hg. rewrite Hn in Hg. destruct Hg as [Hg _].
    unfold commit_collection. rewrite M_bind_assoc, (M_bind_Err _ _ _ _ _ Hg). cbn.
    eexists. split; [done|]. by destruct st'.
Qed.

(** A linearizable get returns the document as of the last entry applied once
    leadership has been confirmed, whether or not that entry had been committed to
    the index before, and leaves the database as it is. *)
Theorem linearizable_get_latest (c : node) r' st' d i m n id l :
  cluster.ensure_linearizable (cluster.raft_core c, cluster.sm c) = (Ok tt, (r', st')) →
  sm_rel st' d i m → id_ok id →
  cluster.m_last_applied (cluster.metrics r') = Some l → openraft.index l = i →
  ∃ c', cluster.linearizable_get n id c = (read_db d n id, c') ∧ sm_rel (cluster.sm c') d i m.
Proof. apply linearizable_get_run. Qed.
End ClusterCorrect.

(** ** Evaluated instances: a cluster of one node *)

Module ClusterDemo.
#[local] Existing Instances Samples.json Samples.rfc3339 Samples.schema Samples.uuid SampleIndex.tantivy
  SampleIndex.mark_json SampleSearch.tantivy_search SampleCodecs.wal_entry_codec SampleCodecs.snapshot_codec
  sum_crc32c SampleRaft.membership SampleRaft.stored_membership_codec.

(** The Raft core of a single voter: the index of the last entry. *)
Definition next_entry (i : Z) (cm : v1.Command) : openraft.Entry :=
  {| openraft.log_id := SmDemo.id (i + 1); openraft.payload := openraft.Normal cm |}.

Definition core_metrics (i : Z) : cluster.RaftMetrics :=
  {| cluster.m_id := 1; cluster.m_current_term := 1; cluster.m_state := cluster.Leader;
     cluster.m_current_leader := Some 1; cluster.m_last_log_index := Some i;
     cluster.m_last_applied := Some (SmDemo.id i); cluster.m_membership := StoredMembership_default |}.

Definition single_write (cm : v1.Command) : M (Z * SmSt) (cluster.RaftError cluster.ClientWriteError) Response :=
  λ '(i, st),
    let '(r, st') := apply_entry (next_entry i cm) st in
    (match r with
     | Ok resp => Ok resp
     | Err _ => Err (cluster.RaftFatal (Msg "stopped" []))
     | Panic w => Panic w
     end, (i + 1, st')).

#[refine] Definition single : cluster.Openraft Z := {|
  cluster.metrics := core_metrics;
  cluster.client_write := single_write;
  cluster.ensure_linearizable s := (Ok tt, s);
  cluster.initialize _ s := (Err (cluster.APIError cluster.NotAllowed), s);
  cluster.raft_add_learner _ _ s := (Ok tt, s);
  cluster.raft_change_membership _ _ s := (Ok tt, s);
  cluster.delivered cm i := [next_entry i cm]
|}.
Proof.
  intros cm i st resp r' st' E. exists [], (SmDemo.id (i + 1)), [], [], []. do 2 (split; [done|]).
  unfold single_write in E. cbn. unfold mbind, M_bind.
  destruct (apply_entry (next_entry i cm) st) as [[r|e|p] st1]; [|done..]. by injection E as <- _ <-.
Defined.
#[local] Existing Instance single.

(** The node after the log of [SmDemo.log]. *)
Definition the_node : cluster.Cluster :=
  {| cluster.id := 1; cluster.self_node := {| raft.node_id := 1; raft.rpc_addr := "host:1" |};
     cluster.seed_peers := ∅; cluster.raft_core := 4; cluster.sm := SmDemo.applied |}.

Abbreviation the_db := (foldl db_after ∅ SmDemo.log).
Definition put_b : request := QIndex ("f" : @Uuid Samples.uuid) "books" (Some "b") [x09].

Lemma cluster_write_admission_witness :
  request_run put_b the_node
  = if decide (leading the_node) then after_admission put_b (admission the_db put_b) the_node
    else (Err (cluster.forward_or_unavailable (cluster.metrics (cluster.raft_core the_node))), the_node).
Proof. apply (cluster_write_admission put_b the_node the_db 4 SmDemo.stored SmDemo.applied_rel). Defined.

Lemma pair_snd {A B} (p : A * B) a : p.1 = a → p = (a, p.2).
Proof. intros <-. by destruct p. Qed.

(** A core in which other clients' entries are applied in the batch of the next write,
    before and after its own. *)
Record busy_core := { core_last : Z; earlier : list content; later : list content }.

Fixpoint numbered (i : Z) (xs : list content) : list (openraft.LogId * content) :=
  match xs with
  | [] => []
  | x :: xs => (SmDemo.id i, x) :: numbered (i + 1) xs
  end.

Definition batch (r : busy_core) (cm : v1.Command) : list openraft.Entry :=
  let n := core_last r + 1 + Z.of_nat (length (earlier r)) in
  (entry_of <$> numbered (core_last r + 1) (earlier r))
  ++ {| openraft.log_id := SmDemo.id n; openraft.payload := openraft.Normal cm |}
  :: (entry_of <$> numbered (n + 1) (later r)).

Definition busy_write (cm : v1.Command) : M (busy_core * SmSt) (cluster.RaftError cluster.ClientWriteError) Response :=
  λ '(r, st),
    let '(rs, st') := apply (batch r cm) st in
    (match rs with
     | Ok rs => match rs !! length (earlier r) with Some resp => Ok resp | None => Panic "no response" end
     | Err _ => Err (cluster.RaftFatal (Msg "stopped" []))
     | Panic w => Panic w
     end, ({| core_last := core_last r + Z.of_nat (length (batch r cm)); earlier := []; later := [] |}, st')).

Lemma numbered_length xs : ∀ i, length (numbered i xs) = length xs.
Proof. induction xs as [|x xs IH]; intros i; cbn; [done|]. by rewrite IH. Qed.

#[refine] Definition busy : cluster.Openraft busy_core := {|
  cluster.metrics r := core_metrics (core_last r);
  cluster.client_write := busy_write;
  cluster.ensure_linearizable s := (Ok tt, s);
  cluster.initialize _ s := (Err (cluster.APIError cluster.NotAllowed), s);
  cluster.raft_add_learner _ _ s := (Ok tt, s);
  cluster.raft_change_membership _ _ s := (Ok tt, s);
  cluster.delivered cm r := batch r cm
|}.
Proof.
  intros cm r st resp r' st' E. unfold busy_write in E.
  destruct (apply (batch r cm) st) as [[rs|e|p] st1]; [|done..]. destruct (rs !! length (earlier r)) as [resp0|] eqn:El; [|done].
  injection E as -> _ ->. eexists _, _, _, (take (length (earlier r)) rs), (drop (S (length (earlier r))) rs).
  split; [reflexivity|]. split; [|by rewrite take_drop_middle].
  rewrite length_fmap, numbered_length, length_take. apply lookup_lt_Some in El. lia.
Defined.
#[local] Existing Instance busy.

Definition busy_node (earlier later : list content) : cluster.Cluster (R := busy_core) :=
  {| cluster.id := 1; cluster.self_node := {| raft.node_id := 1; raft.rpc_addr := "host:1" |};
     cluster.seed_peers := ∅; cluster.raft_core := {| core_last := 4; earlier := earlier; later := later |};
     cluster.sm := SmDemo.applied |}.

(** Another client's delete before the write, and its drop after it. *)
Definition between : cluster.Cluster (R := busy_core) :=
  busy_node [CCmd (CDelete "books" "a")] [CCmd (CDrop "books")].
Definition after_put : cluster.Cluster (R := busy_core) := (request_run put_b between).2.
Definition cmd_b : cmd := CIndex "books" "b" [x09].
Definition delivered_b : list (openraft.LogId * content) :=
  [(SmDemo.id 5, CCmd (CDelete "books" "a")); (SmDemo.id 6, CCmd cmd_b); (SmDemo.id 7, CCmd (CDrop "books"))].

Lemma id_ok_a : id_ok "a".
Proof. by apply id_ok_short. Qed.
Lemma id_ok_b : id_ok "b".
Proof. by apply id_ok_short. Qed.

Lemma delivered_b_submitted : submitted_log the_db 4 delivered_b.
Proof. EffectDemo.next; [apply id_ok_a|]. EffectDemo.next; [apply id_ok_b|]. EffectDemo.next; done. Qed.

Lemma acknowledged_write_applied_witness :
  ∃ before lid later d1 ids1 d2 id d3 ids3 created,
    delivered_b = before ++ (lid, CCmd cmd_b) :: later
    ∧ log_effect the_db before = Some (d1, ids1) ∧ effect d1 cmd_b = Some (d2, id) ∧ log_effect d2 later = Some (d3, ids3)
    ∧ sm_rel (cluster.sm after_put) d3 (last_index_of 4 delivered_b) (foldl member_after SmDemo.stored delivered_b)
    ∧ RUpserted "b" true = answered put_b {| response_id := id; response_created := created |}.
Proof.
  apply (acknowledged_write_applied put_b between the_db 4 SmDemo.stored (RUpserted "b" true) after_put cmd_b
    delivered_b SmDemo.applied_rel).
  - done.
  - vm_compute. reflexivity.
  - apply (pair_snd (request_run put_b between)). vm_compute. reflexivity.
  - done.
  - apply delivered_b_submitted.
Defined.

(** While the leader writes the document, the collection is dropped and created again with
    [n] as a text field. *)
Definition racing : cluster.Cluster (R := busy_core) :=
  busy_node [CCmd (CDrop "books"); SmDemo.create_books other_mapping "u2"] [].
Definition put_a7 : request := QIndex ("f" : @Uuid Samples.uuid) "books" (Some "a") [x07].
Definition recreation : list (openraft.LogId * content) :=
  [(SmDemo.id 5, CCmd (CDrop "books")); (SmDemo.id 6, SmDemo.create_books other_mapping "u2")].

Lemma recreation_submitted : submitted_log the_db 4 (recreation ++ [(SmDemo.id 7, SmDemo.put_a)]).
Proof.
  EffectDemo.next; [done|]. EffectDemo.next.
  - split; [apply other_mapping_ok|]. intros _ (n & c & Hc & _). by destruct n.
  - EffectDemo.next; [apply id_ok_a|done].
Qed.

Lemma raced_index_stops_replicas_witness :
  (∀ st m', sm_rel st the_db 4 m' →
     (∃ rs st', apply (entry_of <$> recreation) st = (Ok rs, st'))
     ∧ is_ok (apply (entry_of <$> recreation ++ [(SmDemo.id 7, SmDemo.put_a)]) st).1 = false)
  ∧ is_ok (request_run put_a7 racing).1 = false.
Proof.
  assert (Hn : (dx ← log_effect the_db recreation; a_mapping <$> dx.1 !! "books") = Some other_mapping) by (vm_compute; reflexivity).
  destruct (log_effect the_db recreation) as [[d' ids]|] eqn:E; [|done].
  cbn in Hn. destruct (d' !! "books") as [cl|] eqn:Hb; [|done]. injection Hn as Hm.
  destruct (raced_index_stops_replicas ("f" : @Uuid Samples.uuid) "books" (Some "a") "a" [x07] racing the_db 4 SmDemo.stored
    recreation (SmDemo.id 7) [] d' ids cl sample_doc SmDemo.applied_rel) as [Hall Hreq].
  - vm_compute. reflexivity.
  - apply recreation_submitted.
  - exact E.
  - exact Hb.
  - reflexivity.
  - rewrite Hm. apply (bool_decide_eq_false_1 (buildable other_mapping sample_doc)). vm_compute. reflexivity.
  - split; [exact Hall|]. apply Hreq. reflexivity.
Defined.

Lemma linearizable_get_latest_witness :
  ∃ c', cluster.linearizable_get "books" "a" the_node = (Ok [x07], c')
    ∧ sm_rel (cluster.sm c') the_db 4 SmDemo.stored.
Proof.
  assert (E : read_db the_db "books" "a" = Ok [x07]) by (vm_compute; reflexivity). rewrite <-E.
  apply (linearizable_get_latest the_node 4 SmDemo.applied the_db 4 SmDemo.stored "books" "a" (SmDemo.id 4)).
  - reflexivity.
  - apply SmDemo.applied_rel.
  - by apply id_ok_short.
  - reflexivity.
  - reflexivity.
Defined.

End ClusterDemo.
