(* ===== verification/Startup.v ===== *)
(** * Starting a cluster node (crates/cluster/src/cluster.rs, [Cluster::start])

    Opens the catalog, the state machine and the log store of the data directory and
    hands them to [openraft::Raft::new], which is the class [RaftStart]. *)

From S2P Require Import Prelude Bytes CoreError FileSys SegmentedLog Proto External Mapping Document IndexApi Collection.
From S2P Require Import Search WalInterface Catalog Conversions LogStore StateMachine Cluster.

Open Scope Z_scope.

(** [LogIdOptionExt::next_index] of openraft. *)
Definition next_index (id : option openraft.LogId) : Z :=
  match id with
  | Some id => openraft.index id + 1
  | None => 0
  end.

Section Startup.
Context `{Json} `{Rfc3339} `{TantivySchema} `{!TantivyIndex} `{!MarkJson} `{UuidApi}.
Context `{WriteAheadLog} `{!Codec v1.CatalogSnapshot}.
Context `{openraft.MembershipApi} `{!Codec raft.StoredMembership}.
Context `{Crc32c} `{!Codec raft.Entry} `{!Codec raft.RaftMeta}.

(** [data_dir] is the disk the node is started on; the checkpoint interval is a timer. *)
Record ClusterOptions := {
  opt_id : Z;
  opt_raft_addr : string;
  opt_seed_peers : gmap Z raft.Node;
  opt_cluster_name : string
}.

(** The [anyhow::Error] of [start], by the call it comes from. *)
Inductive StartError :=
| CatalogFailed (e : Error)
| StorageFailed (e : StorageError)
| ConfigInvalid (e : message)
| RaftFailed (e : message)
| BindFailed (e : io_error).

(** The data directory: [state/], the files of [raft/] (the membership of the state
    machine and the meta file of the log store), and the segments of the Raft log. *)
Record NodeDisk := { nd_state : Disk; nd_raft : dir; nd_log : dir }.

(** What [start] uses of openraft and of the network.  [Raft::new] recovers the state
    machine: it applies the entries of the log store after the reported position
    up to the saved committed id (the ids of one log are ordered by their index). *)
Class RaftStart (R : Type) := {
  validate_config : string → result message unit;
  raft_new : Z → string → StoreSt → SmSt → result message (R * SmSt);
  bind_addr : string → result io_error string;

  raft_new_recovers id name store sm o m c es rs sm' :
    applied_state sm = (Ok (o, m), sm) → read_committed store = (Ok c, store) →
    next_index o ≤ next_index c →
    try_get_log_entries {| start_bound := Included (next_index o); end_bound := Excluded (next_index c) |} store
      = (Ok es, store) →
    apply es sm = (Ok rs, sm') →
    ∃ r, raft_new id name store sm = Ok (r, sm')
}.

Section start.
Context {R : Type} `{!RaftStart R}.

Abbreviation MStart := (M NodeDisk StartError).

Definition open_state : MStart CatSt :=
  mapE CatalogFailed (zoom nd_state
    (λ s d, {| nd_state := s; nd_raft := nd_raft d; nd_log := nd_log d |}) catalog_open).

Definition open_machine (catalog : CatSt) : MStart SmSt :=
  d ← get; lift (map_err StorageFailed (sm_open catalog (nd_raft d))).

Definition open_log_store : MStart StoreSt :=
  mapE StorageFailed (zoom (λ d, {| sd_log := nd_log d; sd_dir := nd_raft d |})
    (λ s d, {| nd_state := nd_state d; nd_raft := sd_dir s; nd_log := sd_log s |}) store_open).

Definition start (opts : ClusterOptions) : MStart (cluster.Cluster (R := R)) :=
  catalog ← open_state;
  sm ← open_machine catalog;
  log_store ← open_log_store;
  lift (map_err ConfigInvalid (validate_config (opt_cluster_name opts)));;
  raft ← lift (map_err RaftFailed (raft_new (opt_id opts) (opt_cluster_name opts) log_store sm));
  rpc_addr ← lift (map_err BindFailed (bind_addr (opt_raft_addr opts)));
  mret {| cluster.id := opt_id opts;
          cluster.self_node := {| raft.node_id := opt_id opts; raft.rpc_addr := rpc_addr |};
          cluster.seed_peers := opt_seed_peers opts;
          cluster.raft_core := raft.1;
          cluster.sm := raft.2 |}.
End start.
End Startup.
