(* ===== verification/StartupCorrect.v ===== *)
(** * A killed cluster node starts again

    The composition of the catalog, the state machine, the log store and the start of
    the node: after a kill at any time the node starts with the database of its
    committed log. *)

From S2P Require Import Prelude Bytes CoreError FileSys SegmentedLog LogCorrect Proto External Samples SampleCodecs.
From S2P Require Import Mapping Document IndexApi Collection SampleIndex CollectionSpec Search WalInterface Wal Catalog.
From S2P Require Import CatalogSpec CatalogRel CatalogCommit CatalogOps CatalogHistory CatalogCorrect Conversions.
From S2P Require Import LogStore LogStoreSpec SampleRaft LogStoreCorrect StateMachine ReplicaSpec StateMachineCorrect.
From S2P Require Import Cluster ReplicaLog ReplicaRestart RestartCorrect Startup.

Open Scope Z_scope.

Section StartupCorrect.
Context `{Json} `{Rfc3339} `{TantivySchema} `{!TantivyIndex} `{!MarkJson} `{UuidApi}.
Context `{WriteAheadLog} `{!Codec v1.CatalogSnapshot}.
Context `{openraft.MembershipApi} `{!Codec raft.StoredMembership}.
Context `{Crc32c} `{!Codec raft.Entry} `{!Codec raft.RaftMeta}.
Context {R : Type} `{!RaftStart R}.

Abbreviation item := (openraft.LogId * content)%type.

(** The log store holds the committed log [l] above its purge point, and its saved
    committed id is the last of [l]. *)
Record holds_log (r : raft_log) (l : list item) : Prop := {
  hl_log : committed_log ∅ (-1) l;
  hl_committed : reported_index (committed (rl_meta r)) = last_of l;
  hl_entries : filter (λ e, entry_index e ≤ last_of l) (rl_entries r)
    = entry_of <$> after (floor_of (rl_meta r)) l;
  hl_room : last_of l + 1 < two64
}.

(** A running node: its state machine [st] and its log store. *)
Record node_disk (st : SmSt) (store : StoreSt) (d : NodeDisk) : Prop := {
  no_state : nd_state d = disk_of (sm_catalog st);
  no_membership : raft_dir_of st (nd_raft d);
  no_meta : nd_raft d !! META_FILE = s_dir store !! META_FILE;
  no_log : nd_log d = disk (s_log store)
}.

Definition crash_node (d d' : NodeDisk) : Prop :=
  crash_disk (nd_state d) (nd_state d') ∧ crash (nd_raft d) (nd_raft d') ∧ crash (nd_log d) (nd_log d').

(** ** The entries that are handed out again *)

Lemma next_reported o : next_index o = reported_index o + 1.
Proof. by destruct o. Qed.

Lemma filter_entries fl pos z (l : list item) :
  fl ≤ pos → Forall (λ x, openraft.index x.1 ≤ z) l →
  filter (λ e, pos + 1 ≤ entry_index e < z + 1) (entry_of <$> after fl l) = entry_of <$> after pos l.
Proof.
  intros Hfl Hl. induction Hl as [|x l Hx Hl IH]; [done|]. unfold after in *. rewrite !filter_cons.
  destruct (decide (fl < openraft.index x.1)) as [Hf|Hf], (decide (pos < openraft.index x.1)) as [Hp|Hp]; try lia.
  - cbn [fmap list_fmap]. rewrite filter_cons_True, IH; [done|]. unfold entry_index. cbn. lia.
  - cbn [fmap list_fmap]. rewrite filter_cons_False, IH; [done|]. unfold entry_index. cbn. lia.
  - done.
Qed.

Lemma entries_between r l pos :
  holds_log r l → floor_of (rl_meta r) ≤ pos →
  filter (λ e, pos + 1 ≤ entry_index e < last_of l + 1) (rl_entries r) = entry_of <$> after pos l.
Proof.
  intros Hh Hfl. rewrite <-(filter_entries (floor_of (rl_meta r)) pos (last_of l)), <-(hl_entries _ _ Hh);
    [|done|by eapply committed_log_below, Hh].
  rewrite list_filter_filter. apply list_filter_iff. intros e. cbn. lia.
Qed.

(** The entries that [Raft::new] reads. *)
Lemma reread_entries store r l pos :
  store_rel store r → holds_log r l → floor_of (rl_meta r) ≤ pos → -1 ≤ pos ≤ last_of l →
  try_get_log_entries {| start_bound := Included (pos + 1); end_bound := Excluded (last_of l + 1) |} store
  = (Ok (entry_of <$> after pos l), store).
Proof.
  intros Hr Hh Hfl Hp. pose proof (hl_room _ _ Hh). rewrite (try_get_ok _ r); [|by apply store_rel_serves|cbn; unfold is_u64; lia..].
  by rewrite <-(entries_between r).
Qed.

Lemma store_rel_dir store r d :
  store_rel store r → d !! META_FILE = s_dir store !! META_FILE →
  store_rel {| s_log := s_log store; s_meta := s_meta store; s_dir := d |} r.
Proof.
  intros [Hm Hf Hl] Ed. split; [done| |done]. cbn.
  destruct Hf as [[Hn ?]|(f & Hn & ?)]; [left|right; exists f]; by rewrite Ed.
Qed.

(** The state machine after [Raft::new]: the entries up to the committed id are applied. *)
Lemma recover_machine st l rest sm o :
  started st → run_of st {| rs_log := l; rs_pos := reported_index o; rs_sm := sm |} →
  committed_log ∅ (-1) (l ++ rest) → reported_index o ≤ last_of l →
  ∃ rs sm', apply (entry_of <$> after (reported_index o) (l ++ rest)) sm = (Ok rs, sm')
    ∧ run_of st {| rs_log := l ++ rest; rs_pos := last_of (l ++ rest); rs_sm := sm' |}.
Proof.
  intros Hst Hrun [Hl Hrest]%committed_split Hpos.
  destruct (run_catch_up st l _ _ _ Hst Hrun eq_refl) as (rs1 & sm1 & E1 & Hrun1).
  destruct (run_apply st rest l sm1 Hst Hrun1 Hrest) as (rs2 & sm2 & E2 & Hrun2).
  exists (rs1 ++ rs2), sm2. split; [|done]. rewrite after_app, fmap_app, (after_all _ rest).
  - by eapply apply_app.
  - eapply Forall_impl; [by eapply committed_log_above|]. cbn. lia.
Qed.

(** [Raft::new] on what was opened. *)
Lemma recover_node st l rest sm o m store r id name :
  started st → run_of st {| rs_log := l; rs_pos := reported_index o; rs_sm := sm |} →
  applied_state sm = (Ok (o, m), sm) → store_rel store r → holds_log r (l ++ rest) →
  floor_of (rl_meta r) ≤ reported_index o → -1 ≤ reported_index o ≤ last_of l →
  ∃ core sm', raft_new id name store sm = Ok (core, sm')
    ∧ run_of st {| rs_log := l ++ rest; rs_pos := last_of (l ++ rest); rs_sm := sm' |}.
Proof.
  intros Hst Hrun Ea Hr Hh Hfl Hp. pose proof (hl_log _ _ Hh) as [Hl Hrest]%committed_split.
  assert (Hll : last_of l ≤ last_of (l ++ rest)).
  { pose proof (committed_log_below _ _ _ Hrest) as [Hle _]. unfold last_of, last_index_of in *. by rewrite foldl_app. }
  destruct (recover_machine st l rest sm o Hst Hrun (hl_log _ _ Hh)) as (rs & sm' & Es & Hrun'); [lia|].
  pose proof (reread_entries store r (l ++ rest) (reported_index o) Hr Hh Hfl ltac:(lia)) as Eg.
  assert (Erc : read_committed store = (Ok (committed (rl_meta r)), store)).
  { unfold read_committed. mpure. by rewrite (sr_meta _ _ Hr). }
  rewrite <-(hl_committed _ _ Hh), <-!next_reported in Eg.
  assert (Hle : next_index o ≤ next_index (committed (rl_meta r))).
  { rewrite !next_reported, (hl_committed _ _ Hh). lia. }
  destruct (raft_new_recovers id name store sm o m _ _ _ _ Ea Erc Hle Eg Es) as [core En]. by exists core, sm'.
Qed.

Lemma start_ok opts d cst sm0 store core sm addr :
  catalog_open (nd_state d) = (Ok cst, disk_of cst) → sm_open cst (nd_raft d) = Ok sm0 →
  store_open {| sd_log := nd_log d; sd_dir := nd_raft d |} = (Ok store, store_disk store) →
  validate_config (opt_cluster_name opts) = Ok tt →
  raft_new (opt_id opts) (opt_cluster_name opts) store sm0 = Ok (core, sm) → bind_addr (opt_raft_addr opts) = Ok addr →
  ∃ c d', start opts d = (Ok c, d') ∧ cluster.id c = opt_id opts ∧ cluster.sm c = sm.
Proof.
  intros Ec Em Es Ev Er Eb. unfold start, open_state, open_machine, open_log_store, mapE, zoom, mbind, M_bind, get, lift.
  rewrite Ec. cbn. rewrite Em. cbn. rewrite Es. cbn. rewrite Ev. cbn. rewrite Er. cbn. rewrite Eb. cbn.
  by eexists _, _.
Qed.

(** A cluster node that is killed at any time, also in a checkpoint or while it
    writes the catalog or the membership file, starts again: what is left of its
    catalog, membership, log and meta file opens, and when no collection is dropped
    and nothing is purged after the position the state machine reports, the started
    node serves the database and the membership of its whole committed log, the entries
    that were committed but not yet applied included. *)
Theorem killed_node_restarts st l rest j sm sm1 store r d0 d opts addr :
  started st → run_of st {| rs_log := l; rs_pos := j; rs_sm := sm |} → killed_in j sm sm1 →
  store_rel store r → holds_log r (l ++ rest) →
  node_disk sm1 store d0 → crash_node d0 d →
  validate_config (opt_cluster_name opts) = Ok tt → bind_addr (opt_raft_addr opts) = Ok addr →
  ∃ cst sm0 o m, catalog_open (nd_state d) = (Ok cst, disk_of cst) ∧ sm_open cst (nd_raft d) = Ok sm0
    ∧ applied_state sm0 = (Ok (o, m), sm0) ∧ -1 ≤ reported_index o ≤ j
    ∧ (no_drops (after (reported_index o) l) → floor_of (rl_meta r) ≤ reported_index o →
       ∃ c d', start opts d = (Ok c, d') ∧ cluster.id c = opt_id opts
         ∧ run_of st {| rs_log := l ++ rest; rs_pos := last_of (l ++ rest); rs_sm := cluster.sm c |}
         ∧ sm_rel (cluster.sm c) (db_of (l ++ rest)) (last_of (l ++ rest)) (members_of (l ++ rest))).
Proof.
  intros Hst Hrun Hk Hr Hh [Es Edm Ems El] (Hcs & Hcr & Hcl) Hv Hb. rewrite Es in Hcs. rewrite El in Hcl.
  destruct (run_tracked _ _ Hst Hrun) as (g & K0 & Ht0). cbn in Ht0.
  destruct (tracked_killed _ _ _ _ _ _ _ _ Ht0 Hk) as [K Ht]. pose proof (tk_pos _ _ _ _ _ _ _ Ht) as Hj.
  destruct (tracked_restart _ _ _ _ _ _ _ _ _ _ Ht Hcs Edm Hcr ltac:(by left)) as (cst & sm0 & o & Ec & Eo & Ea & Hp & _).
  exists cst, sm0, o, (sm_membership (sm_state sm1)). do 4 (split; [done|]). intros Hnd Hfl.
  destruct (store_crash_sim _ _ {| sd_log := nd_log d; sd_dir := nd_raft d |} (store_rel_dir store r (nd_raft d0) Hr Ems))
    as (store' & next & Eso & Hr' & _); [by split|].
  edestruct (recover_node st l rest sm0 o) as (core & sm' & En & Hrun');
    [done| |exact Ea|exact Hr'|by destruct Hh|done|lia|].
  { eapply rtc_r; [exact Hrun|]. eapply StepRestart; [exact Hk|done|done|done|by left|done..]. }
  destruct (start_ok opts d cst sm0 store' core sm' addr) as (c & d' & E & Ei & <-); [done..|].
  exists c, d'. do 3 (split; [done|]). destruct (run_tracked _ _ Hst Hrun') as (g' & K' & Ht'). by eapply tracked_sm_rel.
Qed.
End StartupCorrect.

(** ** Evaluated instances *)

Module StartupDemo.
Import SmDemo RestartDemo.
#[local] Existing Instances Samples.json Samples.rfc3339 Samples.schema Samples.uuid SampleIndex.tantivy
  SampleIndex.mark_json SampleCodecs.wal_entry_codec SampleCodecs.snapshot_codec sum_crc32c
  SampleRaft.membership SampleRaft.stored_membership_codec SampleRaft.entry_codec SampleRaft.meta_codec.

(** A Raft core that does nothing but recover. *)
Definition recover (store : StoreSt) (sm : SmSt) : result message (unit * SmSt) :=
  match (applied_state sm).1, (read_committed store).1 with
  | Ok (o, _), Ok c =>
      match (try_get_log_entries {| start_bound := Included (next_index o); end_bound := Excluded (next_index c) |} store).1 with
      | Ok es =>
          match apply es sm with
          | (Ok _, sm') => Ok (tt, sm')
          | _ => Err (Msg "apply" [])
          end
      | _ => Err (Msg "read" [])
      end
  | _, _ => Err (Msg "state" [])
  end.

#[local] Program Instance raft_start : RaftStart unit := {|
  validate_config _ := Ok tt;
  raft_new _ _ := recover;
  bind_addr a := Ok a
|}.
Next Obligation.
  intros id' name store sm o m c es rs sm' Ea Ec _ Eg Es. unfold recover.
  rewrite Ea, Ec. cbn. rewrite Eg. cbn. rewrite Es. by exists tt.
Qed.

(** The log store of the node of the restart example; its last entry is committed but
    not applied. *)
Definition rest : list (openraft.LogId * content) := [(id 6, CBlank)].
Definition committed_entries : list openraft.Entry := entry_of <$> (first ++ second) ++ rest.
Definition store : StoreSt := StoreDemo.run_all [Append committed_entries; SaveCommitted (Some (id 6))] StoreDemo.fresh.
Definition store_log : raft_log :=
  store_post (store_post empty_log (Append committed_entries)) (SaveCommitted (Some (id 6))).

Lemma committed_entries_fit : continues (-1) None committed_entries.
Proof. repeat (split; [first [done|vm_compute; reflexivity]|]). done. Qed.

Lemma store_log_rel : store_rel store store_log.
Proof.
  destruct (store_sim StoreDemo.fresh empty_log (Append committed_entries) StoreDemo.fresh_store_rel committed_entries_fit)
    as (s1 & E1 & Hr1).
  destruct (store_sim s1 _ (SaveCommitted (Some (id 6))) Hr1 I) as (s2 & E2 & Hr2).
  unfold store, StoreDemo.run_all. cbn [for_each]. rewrite (M_bind_Ok _ _ _ _ _ E1), (M_bind_Ok _ _ _ _ _ E2). exact Hr2.
Qed.

Lemma store_holds_log : holds_log store_log ((first ++ second) ++ rest).
Proof.
  assert (Hl : committed_log ∅ (-1) ((first ++ second) ++ rest))
    by (apply committed_split; split; [apply log_ok|by split_and!]).
  assert (El : last_of ((first ++ second) ++ rest) = 6) by (vm_compute; reflexivity).
  split; rewrite ?El; [done|done| |done].
  change (floor_of (rl_meta store_log)) with (-1). change (rl_entries store_log) with committed_entries.
  rewrite after_all by (by eapply committed_log_above).
  apply list_filter_all. intros e He. pose proof (proj2 (committed_log_below _ _ _ Hl)) as Hb. fold (last_of ((first ++ second) ++ rest)) in Hb.
  rewrite El, Forall_forall in Hb. apply list_elem_of_fmap in He as (x & -> & Hx). by apply (Hb x).
Qed.

(** What the kill leaves. *)
Definition on_disk : NodeDisk :=
  {| nd_state := disk_of (sm_catalog st3); nd_raft := s_dir store ∪ meta_dir st3; nd_log := disk (s_log store) |}.
Definition left_over : NodeDisk :=
  {| nd_state := Demo.worst_crash (nd_state on_disk); nd_raft := crash_min (nd_raft on_disk);
     nd_log := crash_min (nd_log on_disk) |}.

Lemma on_disk_ok : node_disk st3 store on_disk.
Proof. split; [done|vm_compute; reflexivity|vm_compute; reflexivity|done]. Qed.

Definition opts : ClusterOptions :=
  {| opt_id := 1; opt_raft_addr := "127.0.0.1:9000"; opt_seed_peers := ∅; opt_cluster_name := "lumen" |}.

Lemma killed_node_restarts_witness :
  ∃ cst sm0 o m, catalog_open (nd_state left_over) = (Ok cst, disk_of cst) ∧ sm_open cst (nd_raft left_over) = Ok sm0
    ∧ applied_state sm0 = (Ok (o, m), sm0) ∧ -1 ≤ reported_index o ≤ 5
    ∧ (no_drops (after (reported_index o) (first ++ second)) → floor_of (rl_meta store_log) ≤ reported_index o →
       ∃ c d', start opts left_over = (Ok c, d') ∧ cluster.id c = 1
         ∧ run_of fresh {| rs_log := (first ++ second) ++ rest; rs_pos := 6; rs_sm := cluster.sm c |}
         ∧ sm_rel (cluster.sm c) (db_of ((first ++ second) ++ rest)) 6 (members_of ((first ++ second) ++ rest))).
Proof.
  apply (killed_node_restarts fresh (first ++ second) rest 5 st3 st3 store store_log on_disk left_over opts "127.0.0.1:9000"
    fresh_started reached_run (killed_at_rest 5 st3) store_log_rel store_holds_log on_disk_ok); [|done|done].
  split; [apply Demo.worst_crash_ok|split; apply crash_min_crash].
Defined.

(** The node of the example has applied its whole log; until the next commit it still
    reports the position of its index. *)
Example started_node_position :
  match (start opts left_over).1 with
  | Ok c => reported (cluster.sm c)
  | _ => None
  end = Some 1 ∧ last_applied (sm_state (match (start opts left_over).1 with Ok c => cluster.sm c | _ => fresh end)) = Some (id 6).
Proof. vm_compute. done. Qed.
End StartupDemo.
