(* ===== verification/NodeStore.v ===== *)
(** * The log store of a node and the committed log

    What Raft ensures of the calls of the log store, with respect to the log that the
    cluster has committed, and what the store then hands to the state machine: exactly
    the next entries of that log, also after a kill inside a call. *)

From S2P Require Import Prelude Bytes CoreError FileSys SegmentedLog LogTrunc LogSpec LogCorrect Proto External Mapping Document IndexApi Collection.
From S2P Require Import CollectionSpec WalInterface Catalog CatalogSpec Conversions LogStore LogStoreSpec LogStoreCorrect LogStoreKilled.
From S2P Require Import StateMachine ReplicaSpec StateMachineCorrect ReplicaLog ReplicaRestart ClusterHistory Startup StartupCorrect.

Open Scope Z_scope.

Section NodeStore.
Context `{Json} `{Rfc3339} `{TantivySchema} `{!TantivyIndex} `{!MarkJson} `{UuidApi}.
Context `{WriteAheadLog} `{!Codec v1.CatalogSnapshot}.
Context `{openraft.MembershipApi} `{!Codec raft.StoredMembership}.
Context `{Crc32c} `{!Codec raft.Entry} `{!Codec raft.RaftMeta}.

Abbreviation item := (openraft.LogId * content)%type.

(** The saved committed id is that of an entry of the committed log [L], and up to it the
    store holds [L] above its purge point. *)
Definition store_committed (L : list item) (r : raft_log) : Prop := ∃ l, l `prefix_of` L ∧ holds_log r l.

Definition saved_commit (r : raft_log) : Z := reported_index (committed (rl_meta r)).

(** Raft's part: a committed id is saved only when the log up to it is committed;
    committed entries are neither written anew nor truncated. *)
Definition raft_safe (L : list item) (r : raft_log) (o : store_op) : Prop :=
  match o with
  | SaveVote _ | Purge _ => True
  | SaveCommitted _ => store_committed L (store_post r o)
  | Append es => Forall (λ e, saved_commit r < entry_index e) es
  | Truncate l => saved_commit r < openraft.index l
  end.

Lemma store_committed_extend L L' r : L `prefix_of` L' → store_committed L r → store_committed L' r.
Proof. intros HL (l & Hl & Hh). exists l. split; [by etrans|done]. Qed.

(** The vote and the index of the next entry do not matter. *)
Lemma holds_log_same r r' l :
  committed (rl_meta r') = committed (rl_meta r) → last_purged (rl_meta r') = last_purged (rl_meta r) →
  rl_entries r' = rl_entries r → holds_log r l → holds_log r' l.
Proof.
  intros Ec Ep Ee [Hl Hc He Hr]. assert (Ef : floor_of (rl_meta r') = floor_of (rl_meta r)) by (unfold floor_of; by rewrite Ep).
  split; [done|by rewrite Ec|by rewrite Ef, Ee|done].
Qed.

Lemma holds_log_append r es l :
  Forall (λ e, saved_commit r < entry_index e) es → holds_log r l →
  holds_log {| rl_meta := rl_meta r; rl_entries := rl_entries r ++ es; rl_next := rl_next r |} l.
Proof.
  intros Hes [Hl Hc He Hr]. split; cbn; [done|done| |done]. rewrite filter_app, He, (list_filter_none _ es); [by rewrite app_nil_r|].
  intros e Hin. rewrite Forall_forall in Hes. specialize (Hes e Hin). unfold saved_commit in Hes. cbn in *. lia.
Qed.

Lemma filter_entry_of (P : Z → Prop) `{!∀ z, Decision (P z)} (l : list item) :
  filter (λ e, P (entry_index e)) (entry_of <$> l) = entry_of <$> filter (λ x, P (openraft.index x.1)) l.
Proof.
  induction l as [|x l IH]; [done|]. cbn [fmap list_fmap]. rewrite !filter_cons. change (entry_index (entry_of x)) with (openraft.index x.1).
  case_decide; by rewrite IH.
Qed.

Lemma store_committed_post L r o :
  store_pre r o → raft_safe L r o → store_committed L r → store_committed L (store_post r o).
Proof.
  intros Hpre Hs (l & Hp & Hh). destruct o as [v|c|es|t|t]; cbn [raft_safe store_pre] in *; [|done|..]; exists l; (split; [done|]).
  - by apply (holds_log_same r).
  - eapply holds_log_same; [..|by apply holds_log_append, Hh]; done.
  - destruct Hh as [Hl Hc He Hr]. unfold saved_commit in Hs. split; cbn; [done|done| |done]. rewrite <-He, list_filter_filter.
    apply list_filter_iff. intros e. cbn. lia.
  - destruct Hh as [Hl Hc He Hr]. split; cbn [store_post rl_meta rl_entries]; [done|done| |done].
    rewrite filter_comm, He. unfold floor_of at 2. cbn [last_purged set_last_purged].
    rewrite (filter_entry_of (λ z, openraft.index t < z)). f_equal. unfold after. rewrite list_filter_filter.
    apply list_filter_iff. intros x. cbn. lia.
Qed.

Lemma store_committed_interrupted L r o r' :
  store_pre r o → raft_safe L r o → interrupted r o (rl_meta r') (rl_entries r') →
  store_committed L r → store_committed L r'.
Proof.
  intros Hpre Hs Hi Hc. assert (Hkeep : ∀ r1, rl_meta r' = rl_meta r1 → rl_entries r' = rl_entries r1 →
    store_committed L r1 → store_committed L r').
  { intros r1 Em Ee (l & Hp & Hh). exists l. split; [done|]. apply (holds_log_same r1); by rewrite ?Em. }
  remember (rl_meta r') as m eqn:Em. remember (rl_entries r') as es eqn:Ee.
  destruct Hi as [o|o|es k]; [by apply (Hkeep r)|apply (Hkeep (store_post r o)); [done..|by apply store_committed_post]|].
  destruct Hc as (l & Hp & Hh). cbn in Hs.
  apply (Hkeep {| rl_meta := rl_meta r; rl_entries := rl_entries r ++ take k es; rl_next := rl_next r |}); [done..|].
  exists l. split; [done|]. apply holds_log_append; [by apply Forall_take|done].
Qed.

(** ** What the store hands out *)

(** The entries up to index [u]. *)
Definition upto (u : Z) (l : list item) : list item := filter (λ x, openraft.index x.1 ≤ u) l.

Lemma upto_prefix L l : committed_log ∅ (-1) L → l `prefix_of` L → upto (last_of l) L = l.
Proof.
  intros HL [r ->]. apply committed_split in HL as [Hl Hr]. unfold upto. rewrite filter_app, list_filter_all, list_filter_none.
  - apply app_nil_r.
  - intros x Hx. apply committed_log_above in Hr. rewrite Forall_forall in Hr. specialize (Hr x Hx). cbn in *. lia.
  - apply Forall_forall. by eapply committed_log_below.
Qed.

Lemma upto_after L u pos : upto u (after pos L) = after pos (upto u L).
Proof. apply filter_comm. Qed.

Lemma after_upto L u pos : committed_log ∅ (-1) L → ∃ rest, after pos L = upto u (after pos L) ++ rest.
Proof.
  intros HL. destruct (after_split L u _ _ HL) as (q & EL & Hq). exists (after pos (after u L)).
  assert (Eq : upto u L = q).
  { unfold upto. rewrite EL, filter_app, list_filter_all, list_filter_none; [by rewrite app_nil_r|..].
    - intros x [Hx _]%list_elem_of_filter. cbn in *. lia.
    - by apply Forall_forall. }
  rewrite upto_after, Eq. rewrite EL at 1. apply after_app.
Qed.

(** The store hands out the entries of the committed log. *)
Lemma handed_entries L store r pos u :
  committed_log ∅ (-1) L → store_rel store r → store_committed L r →
  floor_of (rl_meta r) ≤ pos → -1 ≤ pos ≤ u → u ≤ saved_commit r →
  try_get_log_entries {| start_bound := Included (pos + 1); end_bound := Excluded (u + 1) |} store
  = (Ok (entry_of <$> upto u (after pos L)), store).
Proof.
  intros HL Hr (l & [rest ->] & Hh) Hfl Hp Hu. pose proof (hl_room _ _ Hh). apply committed_split in HL as [Hl Hrest].
  unfold saved_commit in Hu. rewrite (hl_committed _ _ Hh) in Hu.
  rewrite (try_get_ok _ r); [|by apply store_rel_serves|cbn; unfold is_u64; lia..]. do 2 f_equal. cbn.
  assert (Er : upto u (after pos rest) = []).
  { apply list_filter_none. intros x [_ Hx]%list_elem_of_filter. apply committed_log_above in Hrest. rewrite Forall_forall in Hrest.
    specialize (Hrest x Hx). cbn in *. lia. }
  rewrite after_app. unfold upto in *. rewrite filter_app, Er, app_nil_r.
  etrans; [|exact (filter_entry_of (λ z, z ≤ u) (after pos l))]. rewrite <-(entries_between r l pos Hh Hfl), list_filter_filter.
  apply list_filter_iff. intros e. unfold in_bounds. cbn. lia.
Qed.

(** The state machine after the entries [es] of [L]. *)
Definition advance (L : list item) (s : replica_state) (es : list openraft.Entry) (st : SmSt) : replica_state :=
  let pos := foldl (λ _ e, entry_index e) (rs_pos s) es in
  {| rs_log := if decide (pos ≤ last_of (rs_log s)) then rs_log s else upto pos L; rs_pos := pos; rs_sm := st |}.

Lemma handed_pos j xs : foldl (λ _ e, entry_index e) j (entry_of <$> xs) = last_index_of j xs.
Proof. revert j. induction xs as [|x xs IH]; intros j; [done|]. apply (IH (openraft.index x.1)). Qed.

(** The next entry of [L] is replayed by a node that has had it before, and new to one
    that has not. *)
Lemma next_entry L l j x r :
  committed_log ∅ (-1) L → l `prefix_of` L → -1 ≤ j ≤ last_of l → after j L = x :: r →
  (∃ r', after j l = x :: r') ∨ j = last_of l ∧ l ++ [x] `prefix_of` L ∧ committed_log (db_of l) (last_of l) [x].
Proof.
  intros HL [rest ->] Hj Ea. pose proof HL as [Hl Hr]%committed_split. rewrite after_app in Ea.
  destruct (after j l) as [|y r'] eqn:El; [right|left; cbn in Ea; simplify_eq; by eexists].
  apply after_nil in El as ->; [|done..]. rewrite after_all in Ea by (by eapply committed_log_above). cbn in Ea. subst rest.
  split; [done|]. split; [exists r; by rewrite <-app_assoc|]. by apply (committed_log_app [x] r) in Hr as [? _].
Qed.

(** A node applies the next entries of the committed log without an error, by the steps
    of a replica. *)
Lemma handed_steps sync q L xs : ∀ s g K rest,
  committed_log ∅ (-1) L → rs_log s `prefix_of` L → tracked sync q (rs_log s) (rs_pos s) (rs_sm s) g K →
  after (rs_pos s) L = xs ++ rest →
  ∃ rs st, apply (entry_of <$> xs) (rs_sm s) = (Ok rs, st)
    ∧ let s' := advance L s (entry_of <$> xs) st in rtc (replica_step sync) s s' ∧ rs_log s' `prefix_of` L.
Proof.
  induction xs as [|x xs IH]; intros [l j st0] g K rest HL Hp Ht Ea; cbn [rs_log rs_pos rs_sm] in *.
  { exists [], st0. split; [done|]. unfold advance. cbn. rewrite decide_True by apply Ht. by split. }
  assert (Hone : ∃ resp st1 l1 g1 K1, apply_entry (entry_of x) st0 = (Ok resp, st1)
    ∧ replica_step sync {| rs_log := l; rs_pos := j; rs_sm := st0 |} {| rs_log := l1; rs_pos := openraft.index x.1; rs_sm := st1 |}
    ∧ tracked sync q l1 (openraft.index x.1) st1 g1 K1 ∧ l1 `prefix_of` L
    ∧ (l1 = l ∨ last_of l1 = openraft.index x.1 ∧ last_of l < openraft.index x.1)).
  { destruct (next_entry L l j x (xs ++ rest) HL Hp (tk_pos _ _ _ _ _ _ _ Ht) Ea) as [[r' El]|(-> & Hp1 & Hx)].
    - destruct (tracked_replay _ _ _ _ _ _ _ _ _ Ht El) as (resp & st1 & g1 & E & Ht1).
      exists resp, st1, l, g1, K. split; [done|]. split; [by eapply StepReplay|]. split; [done|]. split; [done|by left].
    - destruct (tracked_apply _ _ _ _ _ _ _ Ht Hx) as (resp & st1 & g1 & K1 & E & Ht1). exists resp, st1, (l ++ [x]), g1, K1.
      split; [done|]. split; [by eapply StepApply|]. split; [done|]. split; [done|right]. rewrite last_of_app. split; [done|apply Hx]. }
  destruct Hone as (resp & st1 & l1 & g1 & K1 & E1 & Hs1 & Ht1 & Hp1 & Hl1).
  destruct (after_next L j x (xs ++ rest) HL Ea) as (_ & _ & _ & _ & _ & Er).
  destruct (IH {| rs_log := l1; rs_pos := openraft.index x.1; rs_sm := st1 |} g1 K1 rest HL Hp1 Ht1 Er) as (rs & st & E2 & Hrun & Hp').
  exists (resp :: rs), st. split; [cbn [fmap list_fmap apply]; by rewrite (M_bind_Ok _ _ _ _ _ E1), (M_bind_Ok _ _ _ _ _ E2)|].
  assert (Eadv : advance L {| rs_log := l1; rs_pos := openraft.index x.1; rs_sm := st1 |} (entry_of <$> xs) st
    = advance L {| rs_log := l; rs_pos := j; rs_sm := st0 |} (entry_of <$> x :: xs) st).
  { unfold advance. cbn [rs_log rs_pos]. rewrite !handed_pos. change (last_index_of j (x :: xs)) with (last_index_of (openraft.index x.1) xs).
    f_equal. destruct Hl1 as [->|[El1 Hlt]]; [done|].
    assert (Hge : openraft.index x.1 ≤ last_index_of (openraft.index x.1) xs).
    { apply after_next in Ea as (q' & -> & _ & (_ & _ & _ & [Hc _]%committed_log_app) & _); [|done]. by eapply committed_log_below. }
    rewrite (decide_False (P := _ ≤ last_of l)) by lia. case_decide; [|done].
    rewrite <-(upto_prefix L l1 HL Hp1). f_equal. lia. }
  rewrite <-Eadv. split; [by eapply rtc_l|done].
Qed.

Lemma last_index_after l pos : committed_log ∅ (-1) l → -1 ≤ pos ≤ last_of l → last_index_of pos (after pos l) = last_of l.
Proof.
  intros Hl Hp. destruct (after_split l pos _ _ Hl) as (q & El & _).
  destruct (after pos l) as [|x r _] eqn:E using rev_ind; [by apply after_nil in E|].
  rewrite El, app_assoc, last_of_app. unfold last_index_of. by rewrite foldl_app.
Qed.

Lemma store_saved_commit L r :
  committed_log ∅ (-1) L → store_committed L r → last_of (upto (saved_commit r) L) = saved_commit r
    ∧ upto (saved_commit r) L `prefix_of` L ∧ committed_log ∅ (-1) (upto (saved_commit r) L).
Proof.
  intros HL (l & Hp & Hh). unfold saved_commit. rewrite (hl_committed _ _ Hh), upto_prefix by done.
  split; [done|]. split; [done|apply Hh].
Qed.

(** A node that is handed all that its store knows to be committed. *)
Lemma handed_all q L r s g K :
  committed_log ∅ (-1) L → store_committed L r → rs_log s `prefix_of` L → tracked false q (rs_log s) (rs_pos s) (rs_sm s) g K →
  rs_pos s ≤ saved_commit r →
  let c := saved_commit r in
  ∃ rs st, apply (entry_of <$> upto c (after (rs_pos s) L)) (rs_sm s) = (Ok rs, st)
    ∧ (last_of (rs_log s) ≤ c → sm_rel st (db_of (upto c L)) c (members_of (upto c L))).
Proof.
  intros HL Hc Hp Ht Hle c. destruct (after_upto L c (rs_pos s) HL) as [rest Er].
  destruct (store_saved_commit _ _ HL Hc) as (Elast & Hpl & Hcl). fold c in Elast, Hpl, Hcl.
  destruct (handed_steps false q L _ s g K rest HL Hp Ht Er) as (rs & st & E & Hrun & Hp').
  exists rs, st. split; [done|]. intros Hll. pose proof (tk_pos _ _ _ _ _ _ _ Ht) as Hpos.
  assert (Ht' : ∃ g K, let s' := advance L s (entry_of <$> upto c (after (rs_pos s) L)) st in
    tracked false q (rs_log s') (rs_pos s') (rs_sm s') g K).
  { cbv zeta. clear -Hrun Ht. assert (Ht1 : ∃ g K, tracked false q (rs_log s) (rs_pos s) (rs_sm s) g K) by eauto. clear Ht.
    induction Hrun as [|s0 s1 s2 Hs _ IH]; [done|]. by eapply IH, step_tracked. }
  destruct Ht' as (g' & K' & Ht'). unfold advance in Ht'. cbn [rs_log rs_pos rs_sm] in Ht'.
  rewrite handed_pos, upto_after, last_index_after, Elast in Ht'; [|done|rewrite Elast; unfold c; lia].
  rewrite <-Elast at 2. apply (tracked_sm_rel false q _ st g' K'). rewrite Elast. case_decide as Hd; [|done].
  assert (El : rs_log s = upto c L); [|by rewrite <-El].
  rewrite <-(upto_prefix L (rs_log s) HL Hp). f_equal. lia.
Qed.
End NodeStore.
