(* ===== verification/StoredCluster.v ===== *)
(** * Clusters of nodes with their log stores

    The cluster of [ClusterHistory] in which every node has its Raft log store: openraft
    appends, truncates, purges and saves through the calls of the store, and what the
    state machine applies is what the store hands out.  A kill stops the state machine
    and the store wherever they are, in the middle of a checkpoint and of a call, and the
    node starts again from what is left on disk.  openraft's part is [store_pre], its
    contract with the store, and [raft_safe], the safety of Raft. *)

From S2P Require Import Prelude Traces Bytes CoreError FileSys SegmentedLog LogSpec LogCorrect Proto External Mapping Document IndexApi Collection.
From S2P Require Import CollectionSpec WalInterface Catalog CatalogSpec CatalogOpen CatalogOps CatalogHistory CatalogSnapshots Conversions.
From S2P Require Import LogStore LogStoreSpec LogStoreCorrect LogStoreKilled StateMachine ReplicaSpec StateMachineCorrect.
From S2P Require Import Samples SampleCodecs SampleIndex Wal SampleRaft CatalogCorrect RestartCorrect.
From S2P Require Import ReplicaLog ReplicaRestart ReplicaSnapshot ClusterSpec ClusterHistory Cluster Startup StartupCorrect NodeStore.

Open Scope Z_scope.

Section StoredCluster.
Context `{Json} `{Rfc3339} `{TantivySchema} `{!TantivyIndex} `{!MarkJson} `{UuidApi}.
Context `{WriteAheadLog} `{!Codec v1.CatalogSnapshot}.
Context `{openraft.MembershipApi} `{!Codec raft.StoredMembership}.
Context `{Crc32c} `{!Codec raft.Entry} `{!Codec raft.RaftMeta}.

Abbreviation item := (openraft.LogId * content)%type.

(** A node: its state machine, its log store, and the log as openraft knows it. *)
Record node_state := { ns_replica : replica_state; ns_store : StoreSt; ns_raft : raft_log }.

Record stored_state := {
  ss_client : log_state;
  ss_nodes : gmap Z node_state;
  ss_snaps : list (list item * openraft.SnapshotMeta * archive)
}.
Definition stored_init : stored_state := {| ss_client := log_init; ss_nodes := ∅; ss_snaps := [] |}.

Definition set_replica (n : node_state) (s : replica_state) : node_state :=
  {| ns_replica := s; ns_store := ns_store n; ns_raft := ns_raft n |}.

(** What the directory of a node holds when its state machine is left as [st] and its
    log store as [sd]; both use [raft/]. *)
Record left_on_disk (st : SmSt) (sd : StoreDisk) (d : NodeDisk) : Prop := {
  ld_state : nd_state d = disk_of (sm_catalog st);
  ld_membership : raft_dir_of st (nd_raft d);
  ld_meta : nd_raft d !! META_FILE = sd_dir sd !! META_FILE;
  ld_log : nd_log d = sd_log sd
}.

(** A kill of a node, while the call [o] of its store is under way. *)
Record killed_node (L : list item) (n : node_state) (o : store_op) (st : SmSt) (d : NodeDisk) : Prop := {
  kn_machine : killed_in (rs_pos (ns_replica n)) (rs_sm (ns_replica n)) st;
  kn_pre : store_pre (ns_raft n) o;
  kn_safe : raft_safe L (ns_raft n) o;
  kn_disk : ∃ sd d0, store_killed (ns_store n) o sd ∧ left_on_disk st sd d0 ∧ crash_node d0 d
    ∧ keeps_catalog (files (root (sm_catalog st))) (files (d_root (nd_state d)))
}.

Abbreviation stored f N S := {| ss_client := f; ss_nodes := N; ss_snaps := S |}.

Inductive stored_step : stored_state → option event → stored_state → Prop :=
| StClient f o f' N S :
    client_step f o f' → stored_step (stored f N S) o (stored f' N S)
| StJoin f N S i st store :
    N !! i = None → started st → store_open empty_store_disk = (Ok store, store_disk store) →
    stored_step (stored f N S) None
      (stored f (<[i := {| ns_replica := {| rs_log := []; rs_pos := -1; rs_sm := st |};
                           ns_store := store; ns_raft := empty_log |}]> N) S)
| StCall f N S i n o store :
    N !! i = Some n → store_pre (ns_raft n) o → raft_safe (lg_log f) (ns_raft n) o →
    store_run o (ns_store n) = (Ok tt, store) →
    stored_step (stored f N S) None
      (stored f (<[i := {| ns_replica := ns_replica n; ns_store := store; ns_raft := store_post (ns_raft n) o |}]> N) S)
| StApply f N S i n u es rs st :
    N !! i = Some n → floor_of (rl_meta (ns_raft n)) ≤ rs_pos (ns_replica n) →
    rs_pos (ns_replica n) ≤ u ≤ saved_commit (ns_raft n) →
    try_get_log_entries {| start_bound := Included (rs_pos (ns_replica n) + 1); end_bound := Excluded (u + 1) |} (ns_store n)
      = (Ok es, ns_store n) →
    apply es (rs_sm (ns_replica n)) = (Ok rs, st) →
    stored_step (stored f N S) None
      (stored f (<[i := set_replica n (advance (lg_log f) (ns_replica n) es st)]> N) S)
| StCommit f N S i n name mark cst :
    N !! i = Some n → is_Some (db_of (rs_log (ns_replica n)) !! name) → 0 ≤ mark_index mark ≤ rs_pos (ns_replica n) →
    commit_collection name mark (sm_catalog (rs_sm (ns_replica n))) = (Ok tt, cst) →
    stored_step (stored f N S) None
      (stored f (<[i := set_replica n (set_sm (ns_replica n) (with_catalog (rs_sm (ns_replica n)) cst))]> N) S)
| StCheckpoint f N S i n mark cst :
    N !! i = Some n → 0 ≤ mark_index mark ≤ rs_pos (ns_replica n) →
    checkpoint_applied mark (sm_catalog (rs_sm (ns_replica n))) = (Ok tt, cst) →
    stored_step (stored f N S) None
      (stored f (<[i := set_replica n (set_sm (ns_replica n) (with_catalog (rs_sm (ns_replica n)) cst))]> N) S)
| StRestart f N S i n o st d cst st' store r p m :
    N !! i = Some n → killed_node (lg_log f) n o st d →
    catalog_open (nd_state d) = (Ok cst, disk_of cst) → sm_open cst (nd_raft d) = Ok st' →
    store_open {| sd_log := nd_log d; sd_dir := nd_raft d |} = (Ok store, store_disk store) → store_rel store r →
    applied_state st' = (Ok (p, m), st') → no_drops (after (reported_index p) (rs_log (ns_replica n))) →
    stored_step (stored f N S) None
      (stored f (<[i := {| ns_replica := {| rs_log := rs_log (ns_replica n); rs_pos := reported_index p; rs_sm := st' |};
                           ns_store := store; ns_raft := r |}]> N) S)
| StBuild f N S i n meta tar st :
    N !! i = Some n → sm_build_snapshot (rs_sm (ns_replica n)) = (Ok (meta, tar), st) →
    stored_step (stored f N S) None
      (stored f (<[i := set_replica n (set_sm (ns_replica n) st)]> N) ((rs_log (ns_replica n), meta, tar) :: S))
| StInstall f N S i n l meta tar st :
    N !! i = Some n → (l, meta, tar) ∈ S →
    last_of (rs_log (ns_replica n)) ≤ snap_pos meta → no_drops (after (snap_pos meta) l) →
    sm_install_snapshot meta tar (rs_sm (ns_replica n)) = (Ok tt, st) →
    stored_step (stored f N S) None
      (stored f (<[i := set_replica n {| rs_log := l; rs_pos := snap_pos meta; rs_sm := st |}]> N) S)
| StReturnRead L W R N S i n r name id k mark v cst :
    N !! i = Some n → R !! r = Some (name, id, k) →
    k ≤ rs_pos (ns_replica n) → k ≤ mark_index mark → 0 ≤ mark_index mark ≤ 0 `max` rs_pos (ns_replica n) →
    read_latest name id mark (sm_catalog (rs_sm (ns_replica n))) = (v, cst) →
    stored_step (stored {| lg_log := L; lg_writes := W; lg_reads := R |} N S) (Some (ReturnRead r v))
      (stored {| lg_log := L; lg_writes := W; lg_reads := delete r R |}
         (<[i := set_replica n (set_sm (ns_replica n) (with_catalog (rs_sm (ns_replica n)) cst))]> N) S).

(** ** The cluster without its stores *)

Definition forget (s : stored_state) : cluster_state :=
  {| cs_client := ss_client s; cs_nodes := ns_replica <$> ss_nodes s; cs_snaps := ss_snaps s |}.

(** The store of a node and the log that openraft and the cluster know. *)
Definition node_stored (L : list item) (n : node_state) : Prop :=
  store_rel (ns_store n) (ns_raft n) ∧ store_committed L (ns_raft n).

Record stored_ok (s : stored_state) : Prop := {
  so_cluster : cluster_ok (forget s);
  so_reads : reads_ok (ss_client s);
  so_nodes : map_Forall (λ _, node_stored (lg_log (ss_client s))) (ss_nodes s)
}.

#[local] Existing Instance record_inj.

Lemma store_rel_unique st r r' : store_rel st r → store_rel st r' → rl_meta r = rl_meta r' ∧ rl_entries r = rl_entries r'.
Proof.
  intros [Hm _ Hl] [Hm' _ Hl']. split; [congruence|].
  destruct (lp_rel _ _ _ _ _ Hl) as (a & Ha & Ea & _). destruct (lp_rel _ _ _ _ _ Hl') as (a' & Ha' & Ea' & _).
  pose proof (log_rel_read_all _ _ _ Ha) as E. rewrite (log_rel_read_all _ _ _ Ha'), Ea, Ea' in E. injection E as E.
  by apply (inj (fmap record)) in E.
Qed.

(** Only the meta file is read of the directory of the store. *)
Lemma opens_as_dir P sd d : d !! META_FILE = sd_dir sd !! META_FILE → opens_as P sd → opens_as P {| sd_log := sd_log sd; sd_dir := d |}.
Proof.
  intros Ed (dur & l & es & fl & next & m & ? & ? & ? & ? & Hm & ?). exists dur, l, es, fl, next, m. do 4 (split; [done|]).
  split; [|done]. cbn. unfold meta_ok in *. by rewrite Ed.
Qed.

Lemma killed_store_opens L n o st d :
  node_stored L n → killed_node L n o st d →
  ∃ store r, store_open {| sd_log := nd_log d; sd_dir := nd_raft d |} = (Ok store, store_disk store)
    ∧ store_rel store r ∧ store_committed L r.
Proof.
  intros [Hr Hc] [_ Hpre Hs (sd & d0 & Hk & [_ _ Em El] & (_ & Hcr & Hcl) & _)].
  pose proof (opens_as_dir _ _ _ Em (killed_opens _ _ _ _ Hr Hpre Hk)) as Ho. rewrite El in Hcl.
  destruct (opens_as_open _ _ {| sd_log := nd_log d; sd_dir := nd_raft d |} Ho Hcl Hcr) as (store & r & Eo & Hr' & Hi).
  exists store, r. split; [done|]. split; [done|]. by eapply store_committed_interrupted.
Qed.

Lemma replica_restart n o st d L cst st' p m :
  killed_node L n o st d → catalog_open (nd_state d) = (Ok cst, disk_of cst) → sm_open cst (nd_raft d) = Ok st' →
  applied_state st' = (Ok (p, m), st') → no_drops (after (reported_index p) (rs_log (ns_replica n))) →
  replica_step false (ns_replica n) {| rs_log := rs_log (ns_replica n); rs_pos := reported_index p; rs_sm := st' |}.
Proof.
  intros [Hk _ _ (sd & d0 & _ & [Es Em _ _] & (Hcs & Hcr & _) & Hkp)] Ec Eo Ea Hnd. destruct (ns_replica n) as [l j sm].
  eapply StepRestart; [exact Hk|by rewrite <-Es|exact Em|exact Hcr|by right|done..].
Qed.

(** ** Every step is one of the cluster without stores *)

Lemma forget_insert f N S i n :
  forget (stored f (<[i := n]> N) S) = {| cs_client := f; cs_nodes := <[i := ns_replica n]> (ns_replica <$> N); cs_snaps := S |}.
Proof. unfold forget. cbn. by rewrite fmap_insert. Qed.

Lemma forget_node f N S i n s :
  N !! i = Some n → rtc (replica_step false) (ns_replica n) (ns_replica s) → rs_log (ns_replica s) `prefix_of` lg_log f →
  traces cluster_step (forget (stored f N S)) [] (forget (stored f (<[i := s]> N) S)).
Proof. intros Hi Hrun Hp. rewrite forget_insert. eapply lift_node; [done| |done]. by rewrite lookup_fmap, Hi. Qed.

Lemma forget_lookup N i n : N !! i = Some n → (ns_replica <$> N : gmap Z replica_state) !! i = Some (ns_replica n).
Proof. intros Hi. by rewrite lookup_fmap, Hi. Qed.

(** A commit or a checkpoint. *)
Lemma forget_local f N S i n st :
  N !! i = Some n → stored_ok (stored f N S) → replica_step false (ns_replica n) (set_sm (ns_replica n) st) →
  traces cluster_step (forget (stored f N S)) [] (forget (stored f (<[i := set_replica n (set_sm (ns_replica n) st)]> N) S)).
Proof.
  intros Hi Hok Hs. eapply forget_node; [done|by apply rtc_once|].
  apply (co_nodes _ (so_cluster _ Hok) i (ns_replica n)). cbn. by apply forget_lookup.
Qed.

Lemma stored_forget s o s' :
  stored_step s o s' → stored_ok s → traces cluster_step (forget s) (option_list o) (forget s').
Proof.
  intros Hs Hok. pose proof (so_cluster _ Hok) as [HL _ HN _].
  destruct Hs as [f o f' N S Hf|f N S i st store Hi Hst Eo|f N S i n o store Hi Hpre Hsafe E|f N S i n u es rs st Hi Hfl Hu Eg Ea|
    f N S i n name mark cst Hi Hn Hm E|f N S i n mark cst Hi Hm E|f N S i n o st d cst st' store r p m Hi Hk Ec Es Eo Hr Ea Hnd|
    f N S i n meta tar st Hi E|f N S i n l meta tar st Hi Hin Hle Hnd E|L W R N S i n r name id k mark v cst Hi HR Hk Hkm Hm E];
    cbn [ss_client ss_nodes ss_snaps forget cs_client cs_nodes cs_snaps option_list] in *;
    try (pose proof (forget_lookup _ _ _ Hi) as Hi').
  - by apply traces_one, CsClient.
  - rewrite forget_insert. apply (traces_one _ _ None), CsJoin; [by rewrite lookup_fmap, Hi|done].
  - eapply forget_node; [done|constructor|]. apply (HN _ _ Hi').
  - destruct (HN _ _ Hi') as (Hp & q & g & K & Ht & _). destruct (so_nodes _ Hok _ _ Hi) as [Hr Hc].
    pose proof (handed_entries _ _ _ _ u HL Hr Hc Hfl) as Eg'. rewrite Eg in Eg'.
    injection Eg' as ->; [|pose proof (tk_pos _ _ _ _ _ _ _ Ht); lia|lia]. destruct (after_upto _ u (rs_pos (ns_replica n)) HL) as [rest Er].
    destruct (handed_steps _ _ _ _ _ _ _ rest HL Hp Ht Er) as (rs' & st' & Ea' & Hrun & Hp').
    rewrite Ea in Ea'. injection Ea' as <- <-. by eapply forget_node.
  - apply forget_local; [done..|]. destruct (ns_replica n). by eapply StepCommit.
  - apply forget_local; [done..|]. destruct (ns_replica n). by eapply StepCheckpoint.
  - eapply forget_node; [done|by eapply rtc_once, replica_restart|]. apply (HN _ _ Hi').
  - rewrite forget_insert. by eapply (traces_one _ _ None), CsBuild.
  - rewrite forget_insert. by eapply (traces_one _ _ None), CsInstall.
  - rewrite forget_insert. by eapply traces_one, CsReturnRead.
Qed.

(** ** The stores hold the committed log *)

Lemma forget_ok s t s' :
  traces cluster_step (forget s) t (forget s') → cluster_ok (forget s) → reads_ok (ss_client s) →
  cluster_ok (forget s') ∧ reads_ok (ss_client s').
Proof.
  intros Ht Hok Hr. eapply (traces_invariant _ (λ cs, cluster_ok cs ∧ reads_ok (cs_client cs)) _ _ _) in Ht; [done| |done].
  intros cs o cs' Hs [? ?]. by eapply cluster_step_ok.
Qed.

Lemma empty_committed L : store_committed L empty_log.
Proof. exists []. split; [apply prefix_nil|]. by split. Qed.

Lemma stored_step_nodes s o s' :
  stored_step s o s' → stored_ok s → map_Forall (λ _, node_stored (lg_log (ss_client s'))) (ss_nodes s').
Proof.
  intros Hs Hok. pose proof (so_nodes _ Hok) as HN. pose proof (so_cluster _ Hok) as [HL Hu _ _].
  destruct Hs as [f o f' N S Hf|f N S i st store Hi Hst Eo|f N S i n o store Hi Hpre Hsafe E|f N S i n u es rs st Hi Hfl Hu' Eg Ea|
    f N S i n name mark cst Hi Hn Hm E|f N S i n mark cst Hi Hm E|f N S i n o st d cst st' store r p m Hi Hk Ec Es Eo Hr Ea Hnd|
    f N S i n meta tar st Hi E|f N S i n l meta tar st Hi Hin Hle Hnd E|L W R N S i n r name id k mark v cst Hi HR Hk Hkm Hm E];
    cbn [ss_client ss_nodes lg_log forget cs_client] in *;
    try (apply map_Forall_insert_2; [|done]; try by apply (HN _ _ Hi)).
  - destruct (client_extends _ _ _ Hf HL Hu) as (Hp & _). eapply map_Forall_impl; [exact HN|].
    intros i n [? ?]. split; [done|by eapply store_committed_extend].
  - destruct empty_store_rel as (store' & Eo' & Hr). rewrite Eo in Eo'. injection Eo' as <-. split; [done|apply empty_committed].
  - destruct (HN _ _ Hi) as [Hr Hc]. destruct (store_sim _ _ _ Hr Hpre) as (store' & E' & Hr'). rewrite E in E'. injection E' as <-.
    split; [done|by apply store_committed_post].
  - destruct (killed_store_opens _ _ _ _ _ (HN _ _ Hi) Hk) as (store' & r' & Eo' & Hr' & l & Hp & Hh). rewrite Eo in Eo'. injection Eo' as <-.
    destruct (store_rel_unique _ _ _ Hr Hr') as [Em Ee]. split; [done|]. exists l. split; [done|].
    apply (holds_log_same r'); cbn; by rewrite ?Em.
Qed.

Lemma stored_step_ok s o s' : stored_step s o s' → stored_ok s → stored_ok s'.
Proof.
  intros Hs Hok. destruct (forget_ok _ _ _ (stored_forget _ _ _ Hs Hok) (so_cluster _ Hok) (so_reads _ Hok)).
  split; [done|done|by eapply stored_step_nodes].
Qed.

Lemma stored_init_ok : stored_ok stored_init.
Proof.
  split; [|apply map_Forall_empty|apply map_Forall_empty].
  split; cbn; [done|constructor|rewrite fmap_empty; apply map_Forall_empty|constructor].
Qed.

Lemma stored_run_ok t s : traces stored_step stored_init t s → stored_ok s.
Proof. intros Ht. eapply traces_invariant; [apply stored_step_ok|exact Ht|apply stored_init_ok]. Qed.

Lemma stored_run t s : traces stored_step stored_init t s → traces cluster_step cluster_init t (forget s).
Proof.
  intros Ht. destruct (forward_simulation stored_step cluster_step (λ s cs, cs = forget s ∧ stored_ok s) stored_init t s
    (forget stored_init)) as (cs & Hcs & -> & _); [|done|by split; [|apply stored_init_ok]|].
  - intros s0 o s1 a Hs [-> Hok]. exists (forget s1). split; [by apply stored_forget|split; [done|by eapply stored_step_ok]].
  - unfold forget in Hcs at 1. cbn in Hcs. by rewrite fmap_empty in Hcs.
Qed.

(** C2: Linearizability of a cluster whose nodes keep their logs in their log stores: the
    calls and returns in every run of [stored_step] are those of one database on which
    each write and each read takes effect at one instant between its call and its return.
    In these runs nodes append, truncate, purge and save through their stores, apply what
    the stores hand out, commit, checkpoint, build and install snapshots, and are killed
    at rest, in a checkpoint, in the membership write or in a store call other than a
    truncation, and restarted. The steps exclude, each with a counterexample in the
    development: committed commands that are not valid where they stand
    ([raced_index_stops_replicas]), a drop after the position of a restart or of an
    installed snapshot ([restart_replays_into_new_collection]), a purge past the end of
    the log ([snapshot_install_loses_entries]), a commit inside [build_snapshot]
    ([raced_snapshot_loses_document]), kills inside [apply_create], [apply_drop],
    [install_snapshot] and truncate, and a crash that loses the unsynced [catalog.pb] of
    an install. Raft's own safety is the condition [raft_safe]. *)
Theorem stored_cluster_linearizable t s :
  traces stored_step stored_init t s → ∃ a, traces atomic_step atomic_init t a.
Proof. intros Ht. by eapply cluster_atomic, stored_run. Qed.

(** C15: In every run of [stored_step], when the position of a node's state machine is
    between the purge point and the committed id of its store, the store hands out exactly
    the committed entries after the position up to the saved committed id, and the state
    machine applies them without an error; unless the node had applied more before a
    restart, it then holds the database and membership of the log up to that id. The
    position can fall below the purge point when a collection is created
    ([new_collection_resets_applied]); nothing is stated then. *)
Theorem stored_node_applies t s i n :
  traces stored_step stored_init t s → ss_nodes s !! i = Some n →
  floor_of (rl_meta (ns_raft n)) ≤ rs_pos (ns_replica n) ≤ saved_commit (ns_raft n) →
  let c := saved_commit (ns_raft n) in
  let L := lg_log (ss_client s) in
  ∃ es rs st,
    try_get_log_entries {| start_bound := Included (rs_pos (ns_replica n) + 1); end_bound := Excluded (c + 1) |} (ns_store n)
      = (Ok es, ns_store n)
    ∧ es = entry_of <$> upto c (after (rs_pos (ns_replica n)) L) ∧ apply es (rs_sm (ns_replica n)) = (Ok rs, st)
    ∧ (last_of (rs_log (ns_replica n)) ≤ c → sm_rel st (db_of (upto c L)) c (members_of (upto c L))).
Proof.
  intros Ht Hi [Hfl Hle] c L. pose proof (stored_run_ok _ _ Ht) as [[HL _ HN _] _ HS]. destruct (HS _ _ Hi) as [Hr Hc].
  destruct (HN _ _ (forget_lookup _ _ _ Hi)) as (Hp & q & g & K & Htr & _). pose proof (tk_pos _ _ _ _ _ _ _ Htr).
  destruct (handed_all q L (ns_raft n) _ g K HL Hc Hp Htr Hle) as (rs & st & E & Hsm).
  exists (entry_of <$> upto c (after (rs_pos (ns_replica n)) L)), rs, st. split; [eapply handed_entries; [done..|lia|done]|done].
Qed.

(** ** A killed node starts again *)

Section start.
Context {R : Type} `{!RaftStart R}.

(** C12: A node of a run of [stored_step] that is killed at rest, between the commits or
    in the file write of a checkpoint, in the write of the membership, and in a call of
    its log store other than a truncation, with [catalog.pb] surviving the crash: the
    catalog, the state machine and the log store open on what is left, and the reported
    position has been applied. If no collection is dropped after that position, nothing
    after it has been purged and it is not past the saved committed id, [Cluster::start],
    with a valid configuration and address, returns a node that, unless it had applied
    entries past the saved committed id before, holds the database and membership of the
    log up to that id. Kills inside [apply_create], [apply_drop] and [install_snapshot]
    are not covered ([interrupted_drop_blocks_replica]); a position below the purge point
    does occur ([new_collection_resets_applied]). *)
Theorem stored_node_restarts t s i n o st d opts addr :
  traces stored_step stored_init t s → ss_nodes s !! i = Some n → killed_node (lg_log (ss_client s)) n o st d →
  validate_config (opt_cluster_name opts) = Ok tt → bind_addr (opt_raft_addr opts) = Ok addr →
  ∃ cst sm0 p m store r, catalog_open (nd_state d) = (Ok cst, disk_of cst) ∧ sm_open cst (nd_raft d) = Ok sm0
    ∧ store_open {| sd_log := nd_log d; sd_dir := nd_raft d |} = (Ok store, store_disk store) ∧ store_rel store r
    ∧ applied_state sm0 = (Ok (p, m), sm0) ∧ -1 ≤ reported_index p ≤ rs_pos (ns_replica n)
    ∧ (no_drops (after (reported_index p) (rs_log (ns_replica n))) →
       floor_of (rl_meta r) ≤ reported_index p ≤ saved_commit r →
       let c := saved_commit r in
       let l := upto c (lg_log (ss_client s)) in
       ∃ node d', start opts d = (Ok node, d') ∧ cluster.id node = opt_id opts
         ∧ (last_of (rs_log (ns_replica n)) ≤ c → sm_rel (cluster.sm node) (db_of l) c (members_of l))).
Proof.
  intros Ht Hi Hk Hv Hb. pose proof (stored_run_ok _ _ Ht) as [[HL _ HN _] _ HS].
  destruct (HN _ _ (forget_lookup _ _ _ Hi)) as (Hp & q & g & K0 & Htr0 & _). cbn [forget cs_client] in *.
  destruct (killed_store_opens _ _ _ _ _ (HS _ _ Hi) Hk) as (store & r & Eso & Hr & Hc).
  destruct Hk as [Hkm _ _ (sd & d0 & _ & [Es Em _ _] & (Hcs & Hcr & _) & Hkp)]. rewrite Es in Hcs.
  destruct (tracked_killed _ _ _ _ _ _ _ _ Htr0 Hkm) as [K Htr].
  destruct (tracked_restart _ _ _ _ _ _ _ _ _ _ Htr Hcs Em Hcr ltac:(by right)) as (cst & sm0 & p & Ec & Eo & Ea & Hpos & Hnd).
  exists cst, sm0, p, (sm_membership (sm_state st)), store, r. do 6 (split; [done|]). intros Hdr [Hfl Hle].
  destruct (Hnd Hdr) as [g' Htr'].
  destruct (handed_all q _ r {| rs_log := rs_log (ns_replica n); rs_pos := reported_index p; rs_sm := sm0 |} g' K HL Hc Hp Htr' Hle)
    as (rs & sm' & Eap & Hsm). cbn [rs_pos rs_sm rs_log] in *.
  assert (Eg := handed_entries _ _ _ _ (saved_commit r) HL Hr Hc Hfl ltac:(lia) ltac:(done)). unfold saved_commit in Eg, Eap.
  rewrite <-!next_reported in Eg.
  assert (Erc : read_committed store = (Ok (committed (rl_meta r)), store)).
  { unfold read_committed. mpure. by rewrite (sr_meta _ _ Hr). }
  assert (Hnx : next_index p ≤ next_index (committed (rl_meta r))).
  { rewrite !next_reported. unfold saved_commit in Hle. lia. }
  destruct (raft_new_recovers (opt_id opts) (opt_cluster_name opts) store sm0 p _ _ _ _ _ Ea Erc Hnx Eg Eap) as [core En].
  destruct (start_ok opts d cst sm0 store core sm' addr) as (node & d' & E & Ei & <-); [done..|]. by exists node, d'.
Qed.
End start.
End StoredCluster.

(** ** Evaluated instances *)

Module StoredDemo.
Import SmDemo RestartDemo StoreDemo HistoryDemo StartupDemo.
#[local] Existing Instances Samples.json Samples.rfc3339 Samples.schema Samples.uuid SampleIndex.tantivy
  SampleIndex.mark_json SampleCodecs.wal_entry_codec SampleCodecs.snapshot_codec sum_crc32c
  SampleRaft.membership SampleRaft.stored_membership_codec SampleRaft.entry_codec SampleRaft.meta_codec StartupDemo.raft_start.

(** One node appends the entries of the two writes, saves the committed id and applies
    them; a client reads. *)
Definition entries : list openraft.Entry := entry_of <$> first.
Definition log1 : raft_log := store_post empty_log (Append entries).
Definition log2 : raft_log := store_post log1 (SaveCommitted (Some (SmDemo.id 2))).
Definition store1 : StoreSt := (store_run (Append entries) StoreDemo.fresh).2.
Definition store2 : StoreSt := (store_run (SaveCommitted (Some (SmDemo.id 2))) store1).2.

Lemma entries_continue : store_pre empty_log (Append entries).
Proof. repeat (split; [first [done|vm_compute; reflexivity]|]). done. Qed.

Lemma store1_run : store_run (Append entries) StoreDemo.fresh = (Ok tt, store1) ∧ store_rel store1 log1.
Proof. destruct (store_sim _ _ _ fresh_store_rel entries_continue) as (st & E & Hr). unfold store1. by rewrite E. Qed.
Lemma store2_run : store_run (SaveCommitted (Some (SmDemo.id 2))) store1 = (Ok tt, store2) ∧ store_rel store2 log2.
Proof. destruct (store_sim _ _ (SaveCommitted (Some (SmDemo.id 2))) (proj2 store1_run) I) as (st & E & Hr). unfold store2. by rewrite E. Qed.

Lemma first_last : last_of first = 2.
Proof. vm_compute. reflexivity. Qed.

Lemma log2_committed : store_committed first log2.
Proof.
  exists first. split; [done|]. split; [exact first_committed|by rewrite first_last| |by rewrite first_last].
  rewrite first_last. change (floor_of (rl_meta log2)) with (-1). change (rl_entries log2) with entries.
  rewrite after_all by (by eapply committed_log_above, first_committed). apply list_filter_all.
  intros e (x & -> & Hx)%list_elem_of_fmap. pose proof (proj2 (committed_log_below _ _ _ first_committed)) as Hb.
  fold (last_of first) in Hb. rewrite first_last, Forall_forall in Hb. by apply (Hb x).
Qed.

Definition joined : node_state :=
  {| ns_replica := HistoryDemo.node [] (-1) SmDemo.fresh; ns_store := StoreDemo.fresh; ns_raft := empty_log |}.
Definition loaded_node : node_state := {| ns_replica := ns_replica joined; ns_store := store2; ns_raft := log2 |}.
Definition nodes_with (n : node_state) : gmap Z node_state := <[1 := n]> ∅.
Definition with_node (f : log_state) (n : node_state) : stored_state := {| ss_client := f; ss_nodes := nodes_with n; ss_snaps := [] |}.

Lemma step_node f n n' :
  (∀ N, N !! 1 = Some n → stored_step {| ss_client := f; ss_nodes := N; ss_snaps := [] |} None
          {| ss_client := f; ss_nodes := <[1 := n']> N; ss_snaps := [] |}) →
  traces stored_step (with_node f n) [] (with_node f n').
Proof.
  intros Hs. unfold with_node, nodes_with. rewrite <-(insert_insert_eq ∅ 1 n' n).
  apply (traces_one _ _ None), Hs, lookup_insert_eq.
Qed.

Lemma writes_stored : traces stored_step stored_init writes (with_node done_log joined).
Proof.
  eapply (traces_cons _ _ None _ writes).
  - apply (StJoin _ _ _ 1 SmDemo.fresh StoreDemo.fresh); [done|exact fresh_started|].
    destruct empty_store_rel as (st & E & _). unfold StoreDemo.fresh, StoreDemo.opened. by rewrite E.
  - apply (traces_lift client_step stored_step (λ f, {| ss_client := f; ss_nodes := nodes_with joined; ss_snaps := [] |}));
      [|exact clients_run]. intros f o f'. apply StClient.
Qed.

Lemma loaded_run : traces stored_step stored_init writes (with_node done_log loaded_node).
Proof.
  change writes with (writes ++ [] ++ []). eapply traces_app; [exact writes_stored|]. eapply traces_app; apply step_node; intros N Hn.
  - apply (StCall _ _ _ 1 joined (Append entries) store1 Hn entries_continue); [|apply store1_run].
    by repeat constructor.
  - eapply (StCall _ _ _ 1 {| ns_replica := ns_replica joined; ns_store := store1; ns_raft := log1 |}
      (SaveCommitted (Some (SmDemo.id 2))) store2 Hn I); [exact log2_committed|apply store2_run].
Qed.

Lemma committed_2 : saved_commit log2 = 2.
Proof. done. Qed.

Lemma stored_node_applies_witness :
  saved_commit log2 = 2 ∧ ∃ es rs st,
    try_get_log_entries {| start_bound := Included (-1 + 1); end_bound := Excluded (saved_commit log2 + 1) |} store2
      = (Ok es, store2)
    ∧ es = entry_of <$> upto (saved_commit log2) (after (-1) first) ∧ apply es SmDemo.fresh = (Ok rs, st)
    ∧ sm_rel st (db_of (upto (saved_commit log2) first)) (saved_commit log2) (members_of (upto (saved_commit log2) first)).
Proof.
  split; [exact committed_2|].
  destruct (stored_node_applies writes (with_node done_log loaded_node) 1 loaded_node loaded_run eq_refl) as (es & rs & st & Eg & Ees & Ea & Hsm);
    [split; done|]. exists es, rs, st. split; [exact Eg|]. split; [exact Ees|]. split; [exact Ea|]. apply Hsm. done.
Defined.

(** The node that has applied the entries. *)
Definition applied_node : node_state :=
  set_replica loaded_node (advance (lg_log done_log) (ns_replica loaded_node) entries RestartDemo.st1).

Lemma handed : try_get_log_entries {| start_bound := Included 0; end_bound := Excluded 3 |} store2 = (Ok entries, store2).
Proof.
  apply (handed_entries first store2 log2 (-1) 2 first_committed (proj2 store2_run) log2_committed); by vm_compute.
Qed.

Lemma applied_run : traces stored_step stored_init writes (with_node done_log applied_node).
Proof.
  change writes with (writes ++ []). eapply traces_app; [exact loaded_run|]. apply step_node; intros N Hn.
  eapply (StApply done_log N [] 1 loaded_node 2 entries _ RestartDemo.st1 Hn); [done|done|exact handed|].
  apply pair_of. vm_compute. reflexivity.
Qed.

Lemma stored_cluster_linearizable_witness : ∃ a, traces atomic_step atomic_init calls a.
Proof.
  eapply (stored_cluster_linearizable calls).
  eapply (traces_app _ _ writes _ [CallRead 2 "books" "a"; ReturnRead 2 (Ok [x07])]); [exact applied_run|].
  shows; [eapply StClient, (DoCallRead _ _ _ 2%nat "books" "a"); [done|by apply id_ok_short]|].
  apply (traces_one _ _ (Some (ReturnRead 2 (Ok [x07])))).
  eapply (StReturnRead _ _ _ _ _ 1 applied_node 2%nat "books" "a" 2 (local_mark 2)); [done|done|done|done|done|].
  apply pair_of. vm_compute. reflexivity.
Defined.

(** The node is killed while it appends another entry, and loses all that is not synced. *)
Definition next_entry : openraft.Entry := entry_of (SmDemo.id 3, CBlank).
Definition appending : StoreSt := (for_each [next_entry] append_entry store2).2.
Definition on_disk : NodeDisk :=
  {| nd_state := disk_of (sm_catalog RestartDemo.st1); nd_raft := s_dir appending ∪ meta_dir RestartDemo.st1; nd_log := disk (s_log appending) |}.
Definition left_over : NodeDisk :=
  {| nd_state := Demo.worst_crash (nd_state on_disk); nd_raft := crash_min (nd_raft on_disk);
     nd_log := crash_min (nd_log on_disk) |}.

Lemma appending_run : for_each [next_entry] append_entry store2 = (Ok tt, appending).
Proof. apply pair_of. vm_compute. reflexivity. Qed.

Lemma killed_appending : killed_node first applied_node (Append [next_entry]) RestartDemo.st1 left_over.
Proof.
  split; [apply killed_at_rest|repeat (split; [first [done|vm_compute; reflexivity]|]); done|by repeat constructor|].
  exists (store_disk appending), on_disk. split; [exact (killed_in_append store2 [next_entry] [] appending appending_run)|].
  split; [split; [done|vm_compute; reflexivity|vm_compute; reflexivity|done]|].
  split; [split; [apply Demo.worst_crash_ok|split; apply crash_min_crash]|]. vm_compute. reflexivity.
Qed.

Lemma stored_node_restarts_witness :
  ∃ cst sm0 p m store r, catalog_open (nd_state left_over) = (Ok cst, disk_of cst) ∧ sm_open cst (nd_raft left_over) = Ok sm0
    ∧ store_open {| sd_log := nd_log left_over; sd_dir := nd_raft left_over |} = (Ok store, store_disk store) ∧ store_rel store r
    ∧ applied_state sm0 = (Ok (p, m), sm0) ∧ -1 ≤ reported_index p ≤ rs_pos (ns_replica applied_node)
    ∧ (no_drops (after (reported_index p) (rs_log (ns_replica applied_node))) →
       floor_of (rl_meta r) ≤ reported_index p ≤ saved_commit r →
       let c := saved_commit r in
       let l := upto c first in
       ∃ node d', start opts left_over = (Ok node, d') ∧ cluster.id node = 1
         ∧ (last_of (rs_log (ns_replica applied_node)) ≤ c → sm_rel (cluster.sm node) (db_of l) c (members_of l))).
Proof.
  exact (stored_node_restarts writes (with_node done_log applied_node) 1 applied_node (Append [next_entry]) RestartDemo.st1 left_over opts
    "127.0.0.1:9000" applied_run eq_refl killed_appending eq_refl eq_refl).
Defined.

(** The node that is started has applied the committed entries again. *)
Example restarted_node :
  match (start opts left_over).1 with
  | Ok node => last_applied (sm_state (cluster.sm node))
  | _ => None
  end = Some (SmDemo.id 2).
Proof. vm_compute. reflexivity. Qed.
End StoredDemo.
