(* ===== verification/Api.v ===== *)
(** * The HTTP layer (crates/api/src: engine.rs, error.rs, handlers.rs, lib.rs)

    The trait [Engine] with its two implementations, the handlers, the mapping of
    errors to responses, the route table and the standalone server.  What the layer
    uses of axum and serde is the classes [Axum] and [DtoJson]: path matching, the
    validity of header values, the deserialisation of a mapping.  A response keeps
    its status, [Location] header and body; a JSON body is kept as the value that is
    serialised. *)

From S2P Require Import Prelude Bytes CoreError FileSys Proto External Mapping Document IndexApi Collection Search.
From S2P Require Import WalInterface Catalog Conversions LogStore StateMachine Cluster.

Open Scope Z_scope.

(** ** Paths and their patterns *)

Inductive Segment := Lit (s : string) | Param.

Definition seg_matches (g : Segment) (s : string) : Prop :=
  match g with
  | Lit l => s = l
  | Param => s ≠ ""
  end.
Definition path_matches (pattern : list Segment) (path : list string) : Prop :=
  Forall2 seg_matches pattern path.
(** [p] has a static segment where [q], equal to it before, has a parameter. *)
Definition more_specific (p q : list Segment) : Prop :=
  ∃ pre l p' q', p = pre ++ Lit l :: p' ∧ q = pre ++ Param :: q'.

(** [Router::route] on a set of patterns: a path is served by a pattern that matches
    it; static segments have priority over parameters.  [HeaderValue::from_str]
    accepts some strings only. *)
Class Axum := {
  select : list (list Segment) → list string → option nat;
  header_ok : string → bool;
  select_matches ps path i :
    select ps path = Some i → ∃ p, ps !! i = Some p ∧ path_matches p path;
  select_complete ps path p : p ∈ ps → path_matches p path → is_Some (select ps path);
  select_static ps path i p q :
    select ps path = Some i → ps !! i = Some p → q ∈ ps → path_matches q path → ¬ more_specific q p
}.

(** [serde_json::from_slice::<MappingDto>]. *)
Class DtoJson := { dto_from_slice : list byte → option MappingDto }.

Module api.
Section api.
Context `{Json} `{Rfc3339} `{TantivySchema} `{!TantivyIndex} `{!TantivySearch} `{!MarkJson} `{UuidApi}.
Context `{WriteAheadLog} `{!Codec v1.CatalogSnapshot}.
Context `{openraft.MembershipApi} `{!Codec raft.StoredMembership}.
Context `{Axum} `{DtoJson}.

(** ** Errors and responses *)

Inductive ApiError :=
| Core (e : Error)
| BadMapping (m : message)
| ForwardToLeader (addr : string)
| Unavailable
| AlreadyInitialized
| Internal.

Definition from_client_error (e : cluster.ClientError) : ApiError :=
  match e with
  | cluster.Core core => Core core
  | cluster.ForwardToLeader (Some node) => ForwardToLeader (raft.rpc_addr node)
  | cluster.ForwardToLeader None | cluster.Unavailable => Unavailable
  | cluster.AlreadyInitialized => AlreadyInitialized
  | cluster.Fatal _ => Internal
  end.

Inductive StatusCode :=
| OK | CREATED | NO_CONTENT | TEMPORARY_REDIRECT | BAD_REQUEST | NOT_FOUND | METHOD_NOT_ALLOWED
| REQUEST_TIMEOUT | CONFLICT | PAYLOAD_TOO_LARGE | UNSUPPORTED_MEDIA_TYPE | UNPROCESSABLE_ENTITY | INTERNAL_SERVER_ERROR
| SERVICE_UNAVAILABLE.

Inductive WriteResult := Created | Updated.
Record Hit := { h_id : string; h_score : Score; h_source : Value }.

Inductive Body :=
| NoBody
| ErrorBody (type : string) (error_message : message)
| MappingBody (mapping : Mapping)
| ListResponse (collections : list string)
| IndexResponse (id : string) (result : WriteResult)
| GetResponse (id : string) (source : Value)
| SearchResponse (hits : list Hit) (total took_ms : Z)
| MetricsBody (metrics : cluster.ClusterMetrics).

Record Response := { status : StatusCode; location : option string; payload : Body }.

Definition respond (s : StatusCode) (b : Body) : Response :=
  {| status := s; location := None; payload := b |}.

Definition body (s : StatusCode) (kind : string) (m : message) : Response :=
  respond s (ErrorBody kind m).
Definition internal (m : string) : Response := body INTERNAL_SERVER_ERROR "internal" (Msg m []).

Definition forward_to_leader (addr : string) : Response :=
  let response := body TEMPORARY_REDIRECT "forward_to_leader" (Msg "leader at {addr}" [addr]) in
  if header_ok addr
  then {| status := status response; location := Some addr; payload := payload response |}
  else response.

(** [Error::to_string] of the variants shown to clients. *)
Definition error_display (e : Error) : message :=
  match e with
  | CollectionNotFound n => Msg "collection not found: {0}" [n]
  | SchemaConflict n =>
      Msg "schema conflict for collection {name}: existing mapping differs from requested" [n]
  | MappingError m => Msg "invalid mapping: {0}" (msg_fmt m :: msg_args m)
  | Validation m => Msg "document validation failed: {0}" (msg_fmt m :: msg_args m)
  | DocumentNotFound id => Msg "document not found: {0}" [id]
  | Recovery m => Msg "catalog recovery failed: {0}" (msg_fmt m :: msg_args m)
  | Io _ | TantivyError _ => Msg "{0}" []
  end.

Definition into_response (e : ApiError) : Response :=
  match e with
  | BadMapping m => body BAD_REQUEST "mapping" m
  | ForwardToLeader addr => forward_to_leader addr
  | Unavailable => body SERVICE_UNAVAILABLE "unavailable" (Msg "no leader available" [])
  | AlreadyInitialized =>
      body CONFLICT "already_initialized" (Msg "cluster already initialized" [])
  | Internal => internal "internal error"
  | Core e =>
      match e with
      | CollectionNotFound _ => body NOT_FOUND "collection_not_found" (error_display e)
      | DocumentNotFound _ => body NOT_FOUND "document_not_found" (error_display e)
      | SchemaConflict _ => body CONFLICT "schema_conflict" (error_display e)
      | Validation _ => body BAD_REQUEST "validation" (error_display e)
      | MappingError _ => body BAD_REQUEST "mapping" (error_display e)
      | Recovery _ | Io _ | TantivyError _ => internal "internal error"
      end
  end.

(** ** The engines *)

Record CreateOutcome := { co_mapping : Mapping; co_created : bool }.
Record WriteOutcome := { wo_id : string; wo_created : bool }.

(** The trait, over the state of its implementor. *)
Class Engine (S : Type) := {
  create_collection : Uuid → string → Mapping → M S ApiError CreateOutcome;
  drop_collection : string → M S ApiError unit;
  index : Uuid → string → option string → list byte → M S ApiError WriteOutcome;
  delete : string → string → M S ApiError unit;
  get_document : string → string → M S ApiError (list byte);
  search : string → string → Z → Z → M S ApiError Search.SearchResults;
  list_all : M S ApiError (list string);
  describe : string → M S ApiError Mapping
}.

(** [run]: a panic of the blocking task becomes an error of the request. *)
Definition run {A} (m : M CatSt Error A) : M CatSt ApiError A := λ st,
  let '(r, st') := m st in
  (match r with Ok a => Ok a | Err e => Err (Core e) | Panic _ => Err Internal end, st').

#[global] Instance StandaloneEngine : Engine CatSt := {|
  create_collection fresh name mapping :=
    created ← run (create fresh name mapping);
    mret {| co_mapping := c_mapping (created_collection created); co_created := created_new created |};
  drop_collection name := run (Catalog.drop_collection name);
  index fresh name id source :=
    upserted ← run (upsert_document fresh name id source);
    mret {| wo_id := upserted_id upserted; wo_created := upserted_created upserted |};
  delete name id := run (delete_document name id;; mret tt);
  get_document name id := run (Catalog.get_document name id);
  search name query limit offset := run (cluster.catalog_search name query limit offset);
  list_all := run list_names;
  describe name := run (Catalog.describe name)
|}.

Section cluster_engine.
Context {R : Type} `{!cluster.Openraft R}.

Abbreviation node := (cluster.Cluster (R:=R)).
Definition via {A} (m : M node cluster.ClientError A) : M node ApiError A := mapE from_client_error m.

#[global] Instance ClusterEngine : Engine node := {|
  create_collection fresh name mapping :=
    outcome ← via (cluster.create_collection fresh name mapping);
    mret {| co_mapping := cluster.co_mapping outcome; co_created := cluster.co_created outcome |};
  drop_collection name := via (cluster.drop_collection name);
  index fresh name id source :=
    outcome ← via (cluster.index fresh name id source);
    mret {| wo_id := cluster.wo_id outcome; wo_created := cluster.wo_created outcome |};
  delete name id := via (cluster.delete name id);
  get_document name id := via (cluster.linearizable_get name id);
  search name query limit offset := via (cluster.search name query limit offset);
  list_all := via cluster.list_collections;
  describe name := via (cluster.describe_collection name)
|}.
End cluster_engine.

(** ** The handlers *)

Definition DEFAULT_LIMIT : Z := 10.

Record SearchParams := { p_q : string; p_limit : option Z; p_offset : option Z }.

Definition parse_mapping (bytes : list byte) : result ApiError Mapping :=
  match dto_from_slice bytes with
  | Some dto => map_err (λ _, BadMapping (Msg "{e}" [])) (Mapping_try_from_dto dto)
  | None => Err (BadMapping (Msg "{e}" []))
  end.

Definition parse_source (bytes : list byte) : result ApiError Value := ok_or Internal (from_slice bytes).

Definition index_response (id : string) (created : bool) : Body :=
  IndexResponse id (if created then Created else Updated).

Definition hit_response (hit : Search.SearchHit) : result ApiError Hit :=
  source ← parse_source (Search.hit_source hit);
  mret {| h_id := Search.hit_id hit; h_score := Search.hit_score hit; h_source := source |}.

Definition search_response (results : Search.SearchResults) (took_ms : Z) : result ApiError Body :=
  hits ← collect hit_response (Search.hits results);
  mret (SearchResponse hits (Search.total results) took_ms).

(** The requests that reach a handler, after routing and extraction. *)
Inductive Request :=
| Health
| ListCollections
| CreateCollection (name : string) (bytes : list byte)
| DescribeCollection (name : string)
| DropCollection (name : string)
| IndexDocument (name : string) (bytes : list byte)
| PutDocument (name id : string) (bytes : list byte)
| GetDocument (name id : string)
| DeleteDocument (name id : string)
| SearchDocuments (name : string) (params : SearchParams).

Section handlers.
Context {S : Type} `{!Engine S}.

Definition list_collections_handler : M S ApiError Response :=
  collections ← list_all;
  mret (respond OK (ListResponse collections)).

(** [fresh] is the uuid drawn by [create] and by an [index] without an id. *)
Definition create_collection_handler (fresh : Uuid) (name : string) (bytes : list byte) : M S ApiError Response :=
  mapping ← lift (parse_mapping bytes);
  outcome ← create_collection fresh name mapping;
  mret (respond (if co_created outcome then CREATED else OK) (MappingBody (co_mapping outcome))).

Definition describe_collection_handler (name : string) : M S ApiError Response :=
  mapping ← describe name;
  mret (respond OK (MappingBody mapping)).

Definition drop_collection_handler (name : string) : M S ApiError Response :=
  drop_collection name;;
  mret (respond NO_CONTENT NoBody).

Definition index_document_handler (fresh : Uuid) (name : string) (bytes : list byte) : M S ApiError Response :=
  outcome ← index fresh name None bytes;
  mret (respond CREATED (index_response (wo_id outcome) true)).

Definition put_document_handler (fresh : Uuid) (name id : string) (bytes : list byte) : M S ApiError Response :=
  outcome ← index fresh name (Some id) bytes;
  mret (respond (if wo_created outcome then CREATED else OK)
          (index_response (wo_id outcome) (wo_created outcome))).

Definition get_document_handler (name id : string) : M S ApiError Response :=
  source ← get_document name id;
  v ← lift (parse_source source);
  mret (respond OK (GetResponse id v)).

Definition delete_document_handler (name id : string) : M S ApiError Response :=
  delete name id;;
  mret (respond NO_CONTENT NoBody).

(** [elapsed] is the milliseconds the search took. *)
Definition search_documents_handler (elapsed : Z) (name : string) (params : SearchParams) : M S ApiError Response :=
  let limit := default DEFAULT_LIMIT (p_limit params) in
  let offset := default 0 (p_offset params) in
  results ← search name (p_q params) limit offset;
  b ← lift (search_response results (wrap64 elapsed));
  mret (respond OK b).

Definition handle (fresh : Uuid) (elapsed : Z) (q : Request) : M S ApiError Response :=
  match q with
  | Health => mret (respond OK NoBody)
  | ListCollections => list_collections_handler
  | CreateCollection name bytes => create_collection_handler fresh name bytes
  | DescribeCollection name => describe_collection_handler name
  | DropCollection name => drop_collection_handler name
  | IndexDocument name bytes => index_document_handler fresh name bytes
  | PutDocument name id bytes => put_document_handler fresh name id bytes
  | GetDocument name id => get_document_handler name id
  | DeleteDocument name id => delete_document_handler name id
  | SearchDocuments name params => search_documents_handler elapsed name params
  end.

(** The response sent for a request; none when the task serving it panics. *)
Definition serve_request (fresh : Uuid) (elapsed : Z) (q : Request) (s : S) : option Response * S :=
  let '(r, s') := handle fresh elapsed q s in
  (match r with Ok resp => Some resp | Err e => Some (into_response e) | Panic _ => None end, s').

(** ** Routing

    [HEAD], which axum serves as a [GET] without the body, is left out. *)

Inductive Method := GET | PUT | POST | DELETE | OtherMethod.
Inductive Route := RHealth | RCollections | RCollection | RDocuments | RSearch | RDocument.

Definition app_routes : list (list Segment * Route) :=
  [([Lit "health"], RHealth);
   ([Lit "collections"], RCollections);
   ([Lit "collections"; Param], RCollection);
   ([Lit "collections"; Param; Lit "documents"], RDocuments);
   ([Lit "collections"; Param; Lit "documents"; Lit "search"], RSearch);
   ([Lit "collections"; Param; Lit "documents"; Param], RDocument)].

(** The path parameters of a path, decoded. *)
Fixpoint captures (pattern : list Segment) (path : list string) : list string :=
  match pattern, path with
  | Lit _ :: pattern, _ :: path => captures pattern path
  | Param :: pattern, s :: path => s :: captures pattern path
  | _, _ => []
  end.

Definition MAX_BODY_BYTES : Z := 4 * 1024 * 1024.

(** An HTTP request; [query] is [None] when the query string is not a
    [SearchParams]. *)
Record HttpRequest := {
  method : Method;
  path : list string;
  query : option SearchParams;
  bytes : list byte
}.

(** [DefaultBodyLimit::max], which the [Bytes] extractor enforces. *)
Definition with_body (r : HttpRequest) (k : list byte → Request) : StatusCode + Request :=
  if decide (MAX_BODY_BYTES < blen (bytes r)) then inl PAYLOAD_TOO_LARGE else inr (k (bytes r)).

Definition method_router (route : Route) (params : list string) (r : HttpRequest) :
    StatusCode + Request :=
  match route, method r, params with
  | RHealth, GET, [] => inr Health
  | RCollections, GET, [] => inr ListCollections
  | RCollection, PUT, [name] => with_body r (CreateCollection name)
  | RCollection, GET, [name] => inr (DescribeCollection name)
  | RCollection, DELETE, [name] => inr (DropCollection name)
  | RDocuments, POST, [name] => with_body r (IndexDocument name)
  | RSearch, GET, [name] =>
      match query r with
      | Some params => inr (SearchDocuments name params)
      | None => inl BAD_REQUEST
      end
  | RDocument, PUT, [name; id] => with_body r (PutDocument name id)
  | RDocument, GET, [name; id] => inr (GetDocument name id)
  | RDocument, DELETE, [name; id] => inr (DeleteDocument name id)
  | _, _, _ => inl METHOD_NOT_ALLOWED
  end.

Definition route (r : HttpRequest) : StatusCode + Request :=
  match select app_routes.*1 (path r) ≫= λ i, app_routes !! i with
  | Some (pattern, target) => method_router target (captures pattern (path r)) r
  | None => inl NOT_FOUND
  end.

Definition router (fresh : Uuid) (elapsed : Z) (r : HttpRequest) (s : S) : option Response * S :=
  match route r with
  | inl code => (Some (respond code NoBody), s)
  | inr q => serve_request fresh elapsed q s
  end.
End handlers.

(** ** The standalone server *)

(** [run_checkpoint]: a failure is logged and the loop goes on. *)
Definition run_checkpoint (st : CatSt) : CatSt := (checkpoint st).2.

(** What happens between the start and the shutdown signal: requests, and ticks of
    [checkpoint_loop].  A request that takes longer than the limit of [with_layers] is
    answered with 408 and its handler is dropped; the blocking task that the handler has
    spawned goes on, and its effect comes late. *)
Inductive server_event :=
| Incoming (fresh : Uuid) (elapsed : Z) (r : HttpRequest)
| TimedOut (r : HttpRequest)
| Late (fresh : Uuid) (elapsed : Z) (q : Request)
| Tick.

Fixpoint serve_events (es : list server_event) (st : CatSt) : list (option Response) * CatSt :=
  match es with
  | [] => ([], st)
  | Incoming fresh elapsed r :: es =>
      let '(resp, st) := router fresh elapsed r st in
      let '(resps, st) := serve_events es st in (resp :: resps, st)
  | TimedOut r :: es =>
      let '(resps, st) := serve_events es st in (Some (respond REQUEST_TIMEOUT NoBody) :: resps, st)
  | Late fresh elapsed q :: es => serve_events es (serve_request fresh elapsed q st).2
  | Tick :: es => serve_events es (run_checkpoint st)
  end.

(** [serve]: open the catalog, serve until the signal, then the last round of
    [checkpoint_loop], with no task left from a request that timed out. *)
Definition serve (d : Disk) (es : list server_event) :
    result Error (list (option Response)) * Disk :=
  match catalog_open d with
  | (Ok st, _) =>
      let '(resps, st) := serve_events es st in (Ok resps, disk_of (run_checkpoint st))
  | (Err e, d) => (Err e, d)
  | (Panic w, d) => (Panic w, d)
  end.
End api.
End api.
