(* ===== verification/ApiSpec.v ===== *)
(** * The HTTP layer of a standalone node: specification

    [http_spec] says, on the abstract database, which response each request gets and
    what it changes.  This file proves that the handlers over the catalog implement
    it. *)

From S2P Require Import Prelude Bytes CoreError FileSys Proto External Mapping Document IndexApi Collection Search.
From S2P Require Import CollectionSpec WalInterface Catalog CatalogSpec CatalogRel CatalogReplay CatalogCommit.
From S2P Require Import CatalogOpen CatalogOps CatalogCalls CatalogHistory Conversions LogStore StateMachine Cluster Api.
Import api.

Open Scope Z_scope.

Section ApiSpec.
Context `{Json} `{Rfc3339} `{TantivySchema} `{!TantivyIndex} `{!TantivySearch} `{!MarkJson} `{UuidApi}.
Context `{WriteAheadLog} `{!Codec v1.CatalogSnapshot}.
Context `{openraft.MembershipApi} `{!Codec raft.StoredMembership}.
Context `{Axum} `{DtoJson}.

(** ** Requests on the abstract database *)

Definition fails (resp : Response) (code : StatusCode) (kind : string) : Prop :=
  status resp = code ∧ location resp = None ∧ ∃ m, payload resp = ErrorBody kind m.

(** A body that is a document of mapping [m]. *)
Definition accepts (m : Mapping) (bytes : list byte) : bool :=
  match from_slice bytes with
  | Some v => is_ok (validate_document m v)
  | None => false
  end.

Definition shown (h : Search.SearchHit) (h' : Hit) : Prop :=
  h_id h' = Search.hit_id h ∧ h_score h' = Search.hit_score h
  ∧ from_slice (Search.hit_source h) = Some (h_source h').

Definition in_coll (a : astate) (n : string) (resp : Response) (a' : astate) (k : coll → Prop) : Prop :=
  match now a !! n with
  | Some cl => k cl
  | None => fails resp NOT_FOUND "collection_not_found" ∧ a' = a
  end.

Definition write_spec (a : astate) (n id : string) (bytes : list byte) (ok : coll → Response)
    (resp : Response) (a' : astate) : Prop :=
  in_coll a n resp a' (λ cl,
    if accepts (a_mapping cl) bytes then resp = ok cl ∧ a' = push a (CIndex n id bytes)
    else fails resp BAD_REQUEST "validation" ∧ a' = a).

Definition http_spec (fresh : Uuid) (elapsed : Z) (q : Request) (a : astate) (resp : Response)
    (a' : astate) : Prop :=
  match q with
  | Health => resp = respond OK NoBody ∧ a' = a
  | ListCollections =>
      resp = respond OK (ListResponse (merge_sort String.le (map_to_list (now a)).*1)) ∧ a' = a
  | CreateCollection n bytes =>
      match parse_mapping bytes, validate_name n, now a !! n with
      | Ok m, Ok _, None => resp = respond CREATED (MappingBody m) ∧ a' = push a (CCreate n fresh m)
      | Ok m, Ok _, Some cl =>
          a' = a ∧ if decide (a_mapping cl = m) then resp = respond OK (MappingBody m)
                   else fails resp CONFLICT "schema_conflict"
      | Ok m, _, _ => fails resp BAD_REQUEST "validation" ∧ a' = a
      | _, _, _ => fails resp BAD_REQUEST "mapping" ∧ a' = a
      end
  | DescribeCollection n =>
      in_coll a n resp a' (λ cl, resp = respond OK (MappingBody (a_mapping cl)) ∧ a' = a)
  | DropCollection n =>
      in_coll a n resp a' (λ cl, resp = respond NO_CONTENT NoBody ∧ a' = push a (CDrop n))
  | IndexDocument n bytes =>
      write_spec a n (uuid_to_string fresh) bytes
        (λ cl, respond CREATED (IndexResponse (uuid_to_string fresh) Created)) resp a'
  | PutDocument n id bytes =>
      write_spec a n id bytes
        (λ cl, if readable a n cl !! id then respond OK (IndexResponse id Updated)
               else respond CREATED (IndexResponse id Created)) resp a'
  | GetDocument n id =>
      in_coll a n resp a' (λ cl, a' = a ∧
        match readable a n cl !! id with
        | Some src => ∃ v, from_slice src = Some v ∧ resp = respond OK (GetResponse id v)
        | None => fails resp NOT_FOUND "document_not_found"
        end)
  | DeleteDocument n id =>
      in_coll a n resp a' (λ cl, resp = respond NO_CONTENT NoBody ∧ a' = push a (CDelete n id))
  | SearchDocuments n params =>
      in_coll a n resp a' (λ cl, a' = a ∧
        (fails resp BAD_REQUEST "validation" ∨
         ∃ all hs, Search.committed_hits (readable a n cl) all
           ∧ Forall2 shown (take (Z.to_nat (default DEFAULT_LIMIT (p_limit params)))
                              (drop (Z.to_nat (default 0 (p_offset params))) all)) hs
           ∧ resp = respond OK (SearchResponse hs (Z.of_nat (length all)) (wrap64 elapsed))))
  end.

(** The database after a request. *)
Definition http_next (fresh : Uuid) (q : Request) (a : astate) : astate :=
  let write n id bytes :=
    match now a !! n with
    | Some cl => if accepts (a_mapping cl) bytes then push a (CIndex n id bytes) else a
    | None => a
    end in
  match q with
  | CreateCollection n bytes =>
      match parse_mapping bytes, validate_name n, now a !! n with
      | Ok m, Ok _, None => push a (CCreate n fresh m)
      | _, _, _ => a
      end
  | DropCollection n => if now a !! n then push a (CDrop n) else a
  | IndexDocument n bytes => write n (uuid_to_string fresh) bytes
  | PutDocument n id bytes => write n id bytes
  | DeleteDocument n id => if now a !! n then push a (CDelete n id) else a
  | _ => a
  end.

Lemma spec_next fresh elapsed q a resp a' :
  http_spec fresh elapsed q a resp a' → a' = http_next fresh q a.
Proof.
  destruct q; cbn [http_spec http_next]; unfold write_spec, in_coll;
    repeat case_match; try done; intros; destruct_and?; done.
Qed.

(** What the client and the environment provide. *)
Definition http_ok (a : astate) (r : Root) (fresh : Uuid) (q : Request) : Prop :=
  let room c := last a + 2 < two64 ∧ w_fits (wal_entry (last a + 1) (op_of c)) in
  match q with
  | CreateCollection n bytes => ∀ m, parse_mapping bytes = Ok m →
      mapping_ok m ∧ new_uuid a r fresh ∧ room (CCreate n fresh m)
  | DropCollection n => room (CDrop n)
  | IndexDocument n bytes => id_ok (uuid_to_string fresh) ∧ room (CIndex n (uuid_to_string fresh) bytes)
  | PutDocument n id bytes => id_ok id ∧ room (CIndex n id bytes)
  | GetDocument n id => id_ok id
  | DeleteDocument n id => id_ok id ∧ room (CDelete n id)
  | SearchDocuments n params =>
      Search.page_ok (default DEFAULT_LIMIT (p_limit params)) (default 0 (p_offset params))
  | Health | ListCollections | DescribeCollection _ => True
  end.

(** Every stored document is the JSON it was when it was accepted. *)
Definition json_docs (d : gmap string coll) : Prop :=
  ∀ n c id src, d !! n = Some c → a_docs c !! id = Some src → is_Some (from_slice src).

Lemma json_docs_step d c : cmd_ok d c → json_docs d → json_docs (step d c).
Proof.
  intros Hc Hj n cl id src. destruct c as [n' u m|n'|n' id' src'|n' id']; cbn in *.
  - intros [[-> <-]|[_ ?]]%lookup_insert_Some; [cbn; by rewrite lookup_empty|by eapply Hj].
  - intros [_ ?]%lookup_delete_Some. by eapply Hj.
  - destruct Hc as (_ & v & _ & Hv & _).
    destruct (decide (n' = n)) as [->|Hne]; [|rewrite lookup_alter_ne by done; by eapply Hj].
    rewrite lookup_alter_eq. intros (c0 & Hc0 & ->)%fmap_Some. cbn.
    intros [[-> <-]|[_ ?]]%lookup_insert_Some; [by eauto|by eapply Hj].
  - destruct (decide (n' = n)) as [->|Hne]; [|rewrite lookup_alter_ne by done; by eapply Hj].
    rewrite lookup_alter_eq. intros (c0 & Hc0 & ->)%fmap_Some. cbn.
    intros [_ ?]%lookup_delete_Some. by eapply Hj.
Qed.

Lemma json_docs_run cs : ∀ d, cmds_ok d cs → json_docs d → json_docs (CatalogSpec.run d cs).
Proof.
  induction cs as [|c cs IH]; intros d Hc Hj; [done|]. destruct Hc as [Hc Hcs].
  apply (IH (step d c)); [done|by apply json_docs_step].
Qed.

Lemma json_docs_now a : astate_ok a → json_docs (base a) → json_docs (now a).
Proof. intros Ha. apply json_docs_run, Ha. Qed.

Lemma json_readable a n cl id src :
  json_docs (base a) → readable a n cl !! id = Some src → is_Some (from_slice src).
Proof.
  intros Hj. unfold readable, base_docs. destruct (base a !! n) as [c|] eqn:Hb; [|by rewrite lookup_empty].
  case_decide; [|by rewrite lookup_empty]. by eapply Hj.
Qed.

(** ** Running a method behind [run] *)

Lemma run_call {A} (m : M CatSt Error A) (f : A → reply) st out st' :
  (x ← m; mret (f x)) st = (out, st') → ∃ r, m st = (r, st') ∧ out = f <$> r.
Proof.
  unfold mbind, M_bind. destruct (m st) as [[x|e|w] s]; cbn; intros [= <- <-]; by eexists.
Qed.

Lemma serve_Ok {S} `{!Engine S} fresh elapsed q (s : S) resp s' :
  handle fresh elapsed q s = (Ok resp, s') → serve_request fresh elapsed q s = (Some resp, s').
Proof. unfold serve_request. by intros ->. Qed.
Lemma serve_Err {S} `{!Engine S} fresh elapsed q (s : S) e s' :
  handle fresh elapsed q s = (Err e, s') → serve_request fresh elapsed q s = (Some (into_response e), s').
Proof. unfold serve_request. by intros ->. Qed.

Lemma validate_name_cases n : validate_name n = Ok tt ∨ ∃ m, validate_name n = Err (Validation m).
Proof. unfold validate_name. case_decide; [eauto|]. destruct (starts_with_underscore n), (all_chars name_char_ok n); cbn; eauto. Qed.

Lemma validate_document_cases m v :
  validate_document m v = Ok tt ∨ ∃ e, validate_document m v = Err (Validation e).
Proof.
  destruct (is_ok (validate_document m v)) eqn:E; [left|right; by apply validate_document_Err].
  by destruct (validate_document m v) as [[]| |].
Qed.

Lemma parse_mapping_valid bytes m : parse_mapping bytes = Ok m → mapping_valid m.
Proof.
  unfold parse_mapping. destruct (dto_from_slice bytes) as [dto|]; [|done].
  unfold Mapping_try_from_dto. destruct (Mapping_new _) as [m'|e|w] eqn:E; cbn; [|done..].
  intros [= ->]. by apply Mapping_new_Ok in E as [<- ?].
Qed.
Lemma parse_mapping_err bytes e : parse_mapping bytes = Err e → ∃ m, e = BadMapping m.
Proof.
  unfold parse_mapping. destruct (dto_from_slice bytes) as [dto|]; [|intros [= <-]; eauto].
  destruct (Mapping_try_from_dto dto); cbn; [done| |done]. intros [= <-]. eauto.
Qed.
Lemma parse_mapping_not_Panic bytes w : parse_mapping bytes ≠ Panic w.
Proof.
  unfold parse_mapping. destruct (dto_from_slice bytes) as [dto|]; [|done].
  unfold Mapping_try_from_dto. destruct (Mapping_new _) eqn:E; cbn; try done. by apply Mapping_new_not_Panic in E.
Qed.

(** ** Requests that are calls of the catalog *)

(** The response of a handler that runs method [m] and continues with [k]. *)
Definition reply_of {A} (k : A → result ApiError Response) (r : result Error A) : option Response :=
  match r with
  | Ok x =>
      match k x with
      | Ok resp => Some resp
      | Err e => Some (into_response e)
      | Panic _ => None
      end
  | Err e => Some (into_response (Core e))
  | Panic _ => Some (into_response Internal)
  end.

Lemma serve_call {A} fresh elapsed q (m : M CatSt Error A) (f : A → reply) (k : A → result ApiError Response) c st a :
  cat_rel st a → call_ok a (root st) c → call_run c = (x ← m; mret (f x)) →
  (∀ s, handle fresh elapsed q s = (x ← api.run m; lift (k x)) s) →
  ∃ r st', (call_spec a c).1 = f <$> r ∧ cat_rel st' (call_spec a c).2
    ∧ serve_request fresh elapsed q st = (reply_of k r, st').
Proof.
  intros Hr Hc Ec Eh. destruct (call_sim st a c Hr Hc) as (st' & E & Hr'). rewrite Ec in E.
  apply run_call in E as (r & Em & Er). exists r, st'. split; [done|]. split; [done|].
  unfold serve_request. rewrite Eh. unfold mbind, M_bind, api.run, lift. rewrite Em.
  destruct r as [x|e|w]; cbn; [|done..]. by destruct (k x).
Qed.

(** The conclusion of each case below. *)
Definition served (fresh : Uuid) (elapsed : Z) (q : Request) (st : CatSt) (a : astate) : Prop :=
  ∃ resp st' a', serve_request fresh elapsed q st = (Some resp, st')
    ∧ http_spec fresh elapsed q a resp a' ∧ cat_rel st' a' ∧ base a' = base a.

Lemma fails_body code kind m : fails (body code kind m) code kind.
Proof. split; [done|]. split; [done|]. by exists m. Qed.

(** The response is known; its specification is left. *)
Ltac answer := eexists _, _, _; split; [reflexivity|]; split; [|by split].

Lemma create_served st a fresh elapsed n bytes :
  cat_rel st a → http_ok a (root st) fresh (CreateCollection n bytes) →
  served fresh elapsed (CreateCollection n bytes) st a.
Proof.
  intros Hr Hok. unfold served. cbn [http_spec]. destruct (parse_mapping bytes) as [m|e|w] eqn:Ep.
  2: { exists (into_response e), st, a. destruct (parse_mapping_err _ _ Ep) as [msg ->].
       split; [apply serve_Err; unfold handle, create_collection_handler; by rewrite Ep|]. split; [|done]. split; [apply fails_body|done]. }
  2: by apply parse_mapping_not_Panic in Ep.
  destruct (Hok m Ep) as (Hm & Hu & Hroom).
  destruct (serve_call fresh elapsed (CreateCollection n bytes) (create fresh n m)
    (λ r, RCreated (c_mapping (created_collection r)) (created_new r))
    (λ r, Ok (respond (if created_new r then CREATED else OK) (MappingBody (c_mapping (created_collection r)))))
    (CallCreate fresh n m) st a Hr) as (r & st' & Er & Hr' & Es).
  { by split. }
  { done. }
  { intros s. unfold handle, create_collection_handler. rewrite Ep. mpure. cbn. by rewrite M_bind_assoc. }
  rewrite Es. cbn [call_spec] in Er, Hr'.
  destruct (validate_name_cases n) as [En|[msg En]]; rewrite En in *; cbn in *.
  - destruct (now a !! n) as [cl|].
    + case_decide; destruct r as [[col new]|e|w]; simplify_eq/=; answer; (split; [done|]);
        [congruence|apply fails_body].
    + destruct r as [[col new]|e|w]; simplify_eq/=. answer. split; [congruence|done].
  - destruct r as [x|e|w]; simplify_eq/=. answer. split; [apply fails_body|done].
Qed.

Lemma index_served st a fresh elapsed q n oid bytes ok :
  cat_rel st a → id_ok (or_new_id fresh oid) →
  last a + 2 < two64 ∧ w_fits (wal_entry (last a + 1) (op_of (CIndex n (or_new_id fresh oid) bytes))) →
  (∀ s : CatSt, handle fresh elapsed q s
    = (x ← api.run (upsert_document fresh n oid bytes);
       lift (Ok (ok (upserted_id x) (upserted_created x)))) s) →
  (∀ resp a', write_spec a n (or_new_id fresh oid) bytes
     (λ cl, ok (or_new_id fresh oid) (bool_decide (readable a n cl !! or_new_id fresh oid = None))) resp a' →
     http_spec fresh elapsed q a resp a') →
  served fresh elapsed q st a.
Proof.
  intros Hr Hid Hroom Eh Hspec.
  destruct (serve_call fresh elapsed q (upsert_document fresh n oid bytes)
    (λ r, RUpserted (upserted_id r) (upserted_created r)) (λ x, Ok (ok (upserted_id x) (upserted_created x)))
    (CallUpsert fresh n oid bytes) st a Hr) as (r & st' & Er & Hr' & Es); [by split|reflexivity|exact Eh|].
  unfold served. rewrite Es. cbn [call_spec] in Er, Hr'. unfold with_coll in Er, Hr'. unfold write_spec, in_coll in Hspec.
  destruct (now a !! n) as [cl|].
  2: { destruct r; simplify_eq/=. answer. apply Hspec. split; [apply fails_body|done]. }
  unfold accepts in Hspec. destruct (from_slice bytes) as [v|].
  2: { destruct r; simplify_eq/=. answer. apply Hspec. split; [apply fails_body|done]. }
  destruct (validate_document_cases (a_mapping cl) v) as [Ev|[msg Ev]]; rewrite Ev in *; cbn in *;
    destruct r as [[id created]|e|w]; simplify_eq/=.
  - answer. apply Hspec. by split; [congruence|].
  - answer. apply Hspec. split; [apply fails_body|done].
Qed.

Lemma get_served st a fresh elapsed n id :
  cat_rel st a → json_docs (base a) → http_ok a (root st) fresh (GetDocument n id) →
  served fresh elapsed (GetDocument n id) st a.
Proof.
  intros Hr Hj Hok. cbn in Hok.
  destruct (serve_call fresh elapsed (GetDocument n id) (Catalog.get_document n id) RSource
    (λ src, v ← parse_source src; mret (respond OK (GetResponse id v)))
    (CallGet n id) st a Hr) as (r & st' & Er & Hr' & Es); [by split|done| |].
  { intros s. cbn [handle]. unfold get_document_handler, mbind, M_bind. destruct (get_document n id s) as [[src|e|w] s'] eqn:Eg;
      cbn in *; rewrite Eg; [|done..]. unfold lift. by destruct (parse_source src). }
  unfold served. rewrite Es. cbn [call_spec http_spec] in *. unfold with_coll in Er, Hr'. unfold in_coll.
  destruct (now a !! n) as [cl|].
  2: { destruct r; simplify_eq/=. answer. split; [apply fails_body|done]. }
  destruct (readable a n cl !! id) as [src|] eqn:Hs;
    [destruct (json_readable a n cl id src Hj Hs) as [v Hv]|]; destruct r; simplify_eq/=.
  - unfold parse_source. rewrite Hv. answer. split; [done|]. by exists v.
  - answer. split; [done|apply fails_body].
Qed.

Lemma search_response_ok a n cl all hs took :
  json_docs (base a) → Search.committed_hits (readable a n cl) all → (∀ h, h ∈ hs → h ∈ all) →
  ∃ hs', Forall2 shown hs hs'
    ∧ search_response {| Search.hits := hs; Search.total := Z.of_nat (length all) |} took
      = Ok (SearchResponse hs' (Z.of_nat (length all)) took).
Proof.
  intros Hj [_ Hc] Hin. unfold search_response. cbn [Search.hits Search.total].
  assert (∃ hs', Forall2 shown hs hs' ∧ collect hit_response hs = Ok hs') as (hs' & Hf & ->); [|by exists hs'].
  induction hs as [|h hs IH]; [by exists []|].
  destruct IH as (hs' & Hf & E); [set_solver|].
  destruct (json_readable a n cl (Search.hit_id h) (Search.hit_source h) Hj) as [v Hv]; [apply Hc, Hin; left|].
  assert (Eh : hit_response h
    = Ok {| h_id := Search.hit_id h; h_score := Search.hit_score h; h_source := v |})
    by (unfold hit_response, parse_source; by rewrite Hv).
  eexists (_ :: hs'). cbn [collect]. rewrite Eh, E. split; [|reflexivity]. by constructor.
Qed.

Lemma search_served st a fresh elapsed n params :
  cat_rel st a → json_docs (base a) → http_ok a (root st) fresh (SearchDocuments n params) →
  served fresh elapsed (SearchDocuments n params) st a.
Proof.
  intros Hr Hj Hok. unfold served. cbn [http_ok http_spec] in *. unfold in_coll.
  set (limit := default DEFAULT_LIMIT (p_limit params)) in *. set (offset := default 0 (p_offset params)) in *.
  assert (Eh : ∀ r, cluster.catalog_search n (p_q params) limit offset st = (r, st) →
    serve_request fresh elapsed (SearchDocuments n params) st = (reply_of (λ res,
      b ← search_response res (wrap64 elapsed); mret (respond OK b)) r, st)).
  { intros r E. unfold serve_request, handle, search_documents_handler, mbind, M_bind. cbn [search StandaloneEngine]. fold limit offset.
    unfold api.run. rewrite E. destruct r as [res|e|w]; cbn; [|done..]. unfold lift. by destruct (search_response res _). }
  pose proof (rel_lookup st a n Hr) as Hl. unfold cluster.catalog_search in Eh.
  destruct (now a !! n) as [cl|].
  2: { rewrite (Eh (Err (CollectionNotFound n))); [|by rewrite (M_bind_Err _ _ _ _ _ (get_missing _ _ Hl))].
       answer. split; [apply fails_body|done]. }
  destruct Hl as (e & He & Eu & Hz & index & k & Hd & Hrep & Hk).
  destruct (Search.search_rep _ _ _ _ (p_q params) Hrep) as (all & Hall & Hs). specialize (Hs limit offset Hok).
  rewrite (M_bind_Ok _ _ _ _ _ (get_ok _ _ _ He)) in Eh.
  erewrite Eh. 2: { erewrite on_col_ok; [|done|by rewrite Eu|exact Hs]. f_equal. apply put_col_same; [done|by rewrite Eu]. }
  unfold Search.search_outcome. destruct (parse_query _ _ _) as [qq|].
  2: { answer. split; [done|]. left. apply fails_body. }
  destruct (search_response_ok a n cl all (take (Z.to_nat limit) (drop (Z.to_nat offset) all)) (wrap64 elapsed) Hj Hall)
    as (hs & Hf & E). { intros h (i & Hi & _)%elem_of_take. rewrite lookup_drop in Hi. by eapply list_elem_of_lookup_2. }
  cbn [reply_of]. rewrite E. answer. split; [done|]. right. by exists all, hs.
Qed.

(** A request whose response does not depend on what the method returns. *)
Lemma plain_served {A} st a fresh elapsed q (m : M CatSt Error A) (f : A → reply) (ok : A → Response) c :
  cat_rel st a → call_ok a (root st) c → call_run c = (x ← m; mret (f x)) →
  (∀ s : CatSt, handle fresh elapsed q s = (x ← api.run m; lift (Ok (ok x))) s) →
  (∀ x, (call_spec a c).1 = Ok (f x) → http_spec fresh elapsed q a (ok x) (call_spec a c).2) →
  (∀ e, (call_spec a c).1 = Err e →
    http_spec fresh elapsed q a (into_response (Core e)) (call_spec a c).2) →
  (∀ w, (call_spec a c).1 ≠ Panic w) → base (call_spec a c).2 = base a →
  served fresh elapsed q st a.
Proof.
  intros Hr Hc Ec Eh Hok Herr Hpanic Hb.
  destruct (serve_call fresh elapsed q m f (λ x, Ok (ok x)) c st a Hr Hc Ec Eh) as (r & st' & Er & Hr' & Es).
  unfold served. rewrite Es. destruct r as [x|e|w]; cbn in *.
  - answer. by apply Hok.
  - answer. by apply Herr.
  - by apply Hpanic in Er.
Qed.

Ltac known_coll :=
  cbn [call_spec http_spec]; unfold with_coll, in_coll;
  match goal with
  | |- context [now ?a !! ?n] => destruct (now a !! n); cbn [fst snd]; try done
  | _ => idtac
  end.

Lemma request_served st a fresh elapsed q :
  cat_rel st a → json_docs (base a) → http_ok a (root st) fresh q → served fresh elapsed q st a.
Proof.
  intros Hr Hj Hok. destruct q as [| |n bytes|n|n|n bytes|n id bytes|n id|n id|n params].
  - eexists _, st, a. by split.
  - eapply (plain_served _ _ _ _ _ list_names RNames (λ ns, respond OK (ListResponse ns)) CallList); try done.
    intros ns. cbn. intros [= <-]. done.
  - by apply create_served.
  - eapply (plain_served _ _ _ _ _ (Catalog.describe n) RMapping (λ m, respond OK (MappingBody m)) (CallDescribe n));
      try done; known_coll.
    + intros m [= <-]. done.
    + intros e [= <-]. split; [apply fails_body|done].
  - eapply (plain_served _ _ _ _ _ (Catalog.drop_collection n) (λ _, RDone) (λ _, respond NO_CONTENT NoBody) (CallDrop n));
      try done; known_coll.
    intros e [= <-]. split; [apply fails_body|done].
  - eapply (index_served _ _ _ _ _ n None bytes (λ id _, respond CREATED (index_response id true)));
      [done|apply Hok..| |by intros].
    intros s. cbn [handle]. unfold index_document_handler, put_document_handler. cbn [index StandaloneEngine]. by rewrite M_bind_assoc.
  - eapply (index_served _ _ _ _ _ n (Some id) bytes
      (λ id created, respond (if created then CREATED else OK) (index_response id created))); [done|apply Hok..| |].
    + intros s. cbn [handle]. unfold index_document_handler, put_document_handler. cbn [index StandaloneEngine]. by rewrite M_bind_assoc.
    + intros resp a'. change (or_new_id fresh (Some id)) with id. cbn [http_spec]. unfold write_spec, in_coll. destruct (now a !! n) as [cl|]; [|done].
      destruct (accepts _ _); [|done].
      destruct (readable a n cl !! id); [rewrite bool_decide_false by done|rewrite bool_decide_true by done]; done.
  - by apply get_served.
  - eapply (plain_served _ _ _ _ _ (delete_document n id) RDeleted (λ _, respond NO_CONTENT NoBody) (CallDelete n id));
      try done; known_coll.
    + intros s. cbn [handle]. unfold delete_document_handler. cbn [delete StandaloneEngine]. unfold mbind, M_bind, api.run.
      by destruct (delete_document n id s) as [[x|e|w] s'].
    + intros e [= <-]. split; [apply fails_body|done].
  - by apply search_served.
Qed.
End ApiSpec.
