(* ===== verification/SampleHttp.v ===== *)
(** * A concrete router and mapping parser

    Instances of [Axum] and [DtoJson] on which the HTTP layer can be evaluated. *)

From S2P Require Import Prelude Bytes CoreError External Samples Mapping Api.

Open Scope Z_scope.

Module SampleHttp.

Definition seg_ok (g : Segment) (s : string) : bool :=
  match g with
  | Lit l => bool_decide (s = l)
  | Param => bool_decide (s ≠ "")
  end.

Fixpoint path_ok (p : list Segment) (path : list string) : bool :=
  match p, path with
  | [], [] => true
  | g :: p, s :: path => seg_ok g s && path_ok p path
  | _, _ => false
  end.

(** Static segments first. *)
Fixpoint before (p q : list Segment) : bool :=
  match p, q with
  | Lit _ :: _, Param :: _ => true
  | Param :: _, Lit _ :: _ => false
  | _ :: p, _ :: q => before p q
  | _, _ => false
  end.

Fixpoint best (ps : list (list Segment)) (path : list string) : option (nat * list Segment) :=
  match ps with
  | [] => None
  | p :: ps =>
      match best ps path with
      | Some (j, q) =>
          if path_ok p path && negb (before q p) then Some (0%nat, p) else Some (S j, q)
      | None => if path_ok p path then Some (0%nat, p) else None
      end
  end.

Lemma path_ok_matches p path : path_ok p path = true ↔ path_matches p path.
Proof.
  unfold path_matches. revert path. induction p as [|g p IH]; intros [|s path]; cbn.
  - by split.
  - split; [done|inversion 1].
  - split; [done|inversion 1].
  - rewrite andb_true_iff, IH, Forall2_cons. f_equiv. by destruct g; cbn; rewrite bool_decide_eq_true.
Qed.

Lemma before_trans p q r : length p = length r → length q = length r →
  before r p = true → before q p = false → before r q = true.
Proof.
  revert p q. induction r as [|x r IH]; intros [|y p] [|z q] Hp Hq; try done.
  injection Hp as Hp. injection Hq as Hq. destruct x, y, z; cbn; try done; by apply IH.
Qed.

Lemma before_asym p q : before p q = true → before q p = false.
Proof. revert q. induction p as [|[] p IH]; intros [|[] q]; cbn; try done; apply IH. Qed.

Lemma more_specific_before p q path :
  path_matches p path → path_matches q path → more_specific p q → before p q = true.
Proof.
  intros _ _ (pre & l & p' & q' & -> & ->). induction pre as [|[] pre IH]; cbn; done.
Qed.

Lemma best_ok ps path i p :
  best ps path = Some (i, p) →
  ps !! i = Some p ∧ path_matches p path ∧ ∀ q, q ∈ ps → path_matches q path → before q p = false.
Proof.
  revert i p. induction ps as [|p0 ps IH]; intros i p; cbn [best]; [done|].
  assert (Hself : ∀ p, before p p = false) by (intros l; induction l as [|[] l IHl]; done).
  assert (Hlen : ∀ p, path_matches p path → length p = length path) by (intros ?; apply Forall2_length).
  destruct (best ps path) as [[j q]|] eqn:Eb.
  - destruct (IH _ _ eq_refl) as (Hj & Hm & Hmin).
    destruct (path_ok p0 path) eqn:Ep; cbn; [apply path_ok_matches in Ep; destruct (before q p0) eqn:Eq; cbn|].
    + intros [= <- <-]. split; [done|]. split; [done|]. intros r [->|Hr]%elem_of_cons Hrm; [|by apply Hmin].
      by apply before_asym.
    + intros [= <- <-]. split; [done|]. split; [done|]. intros r [->|Hr]%elem_of_cons Hrm; [done|].
      destruct (before r p0) eqn:E; [|done].
      rewrite <-(Hmin r Hr Hrm). symmetry. apply (before_trans p0); [by rewrite !Hlen..|done|done].
    + intros [= <- <-]. split; [done|]. split; [done|]. intros r [->|Hr]%elem_of_cons Hrm; [|by apply Hmin].
      apply path_ok_matches in Hrm. congruence.
  - assert (Hnone : ∀ q, q ∈ ps → ¬ path_matches q path).
    { clear -Eb. intros q Hq Hm. apply path_ok_matches in Hm. induction ps as [|p1 ps IHp]; [by apply elem_of_nil in Hq|].
      cbn in Eb. destruct (best ps path) as [[j q']|]; [by destruct (_ && _)|].
      apply elem_of_cons in Hq as [->|Hq]; [by rewrite Hm in Eb|]. destruct (path_ok p1 path); [done|]. by apply IHp. }
    destruct (path_ok p0 path) eqn:Ep; [|done]. apply path_ok_matches in Ep. intros [= <- <-].
    split; [done|]. split; [done|]. intros r [->|Hr]%elem_of_cons Hrm; [done|]. by apply Hnone in Hrm.
Qed.

#[refine] Definition axum : Axum := {|
  select ps path := fst <$> best ps path;
  header_ok s := bool_decide (s ≠ "")
|}.
Proof.
  - intros ps path i E. apply fmap_Some in E as ([j p] & E & ->). apply best_ok in E as (? & ? & _). by exists p.
  - intros ps path p Hp Hm. apply path_ok_matches in Hm. apply fmap_is_Some.
    induction ps as [|p0 ps IH]; [by apply elem_of_nil in Hp|]. cbn. apply elem_of_cons in Hp as [->|Hp].
    + destruct (best ps path) as [[j q]|]; [by destruct (_ && _)|by rewrite Hm].
    + destruct IH as [[j q] ->]; [done|]. by destruct (_ && _).
  - intros ps path i p q E Hi Hq Hm Hs. apply fmap_Some in E as ([j p'] & E & ->).
    apply best_ok in E as (Hj & Hp' & Hmin). cbn in Hi. assert (p' = p) as -> by congruence.
    pose proof (more_specific_before _ _ _ Hm Hp' Hs). rewrite (Hmin q Hq Hm) in *. done.
Defined.

(** The byte 1 stands for the sample mapping, 2 for one with a field [-x]. *)
Definition dto_json : DtoJson := {|
  dto_from_slice bs :=
    if decide (bs = [x01]) then Some (MappingDto_from sample_mapping)
    else if decide (bs = [x02]) then Some (MappingDto_from hyphen_mapping)
    else None
|}.
End SampleHttp.
