(* ===== verification/ApiCorrect.v ===== *)
(** * The HTTP layer: correctness

    Routing, the standalone server over the lifetime of a process and across
    restarts, and what the nodes of a cluster answer when they are not the leader. *)

From S2P Require Import Prelude Bytes CoreError FileSys Proto External Mapping Document IndexApi Collection Search.
From S2P Require Import CollectionSpec WalInterface Catalog CatalogSpec CatalogRel CatalogReplay CatalogCommit.
From S2P Require Import CatalogOpen CatalogOps CatalogCalls CatalogHistory Conversions LogStore StateMachine Cluster.
From S2P Require Import SegmentedLog LogCorrect Samples SampleCodecs SampleIndex Wal CatalogCorrect CatalogSnapshots.
From S2P Require Import SampleRaft ReplicaSpec StateMachineCorrect ClusterCorrect Api ApiSpec SampleHttp.
Import api.

Open Scope Z_scope.

Section ApiCorrect.
Context `{Json} `{Rfc3339} `{TantivySchema} `{!TantivyIndex} `{!TantivySearch} `{!MarkJson} `{UuidApi}.
Context `{WriteAheadLog} `{!Codec v1.CatalogSnapshot}.
Context `{openraft.MembershipApi} `{!Codec raft.StoredMembership}.
Context `{Axum} `{DtoJson}.

(** ** Routing *)

(** The pattern a path is served by, when no other pattern matches or those that do
    are less specific. *)
Lemma route_at r i pattern target :
  app_routes !! i = Some (pattern, target) → path_matches pattern (path r) →
  (∀ j p t, app_routes !! j = Some (p, t) → j ≠ i → path_matches p (path r) → more_specific pattern p) →
  route r = method_router target (captures pattern (path r)) r.
Proof.
  intros Hi Hm Hu. assert (Hin : pattern ∈ app_routes.*1).
  { apply list_elem_of_fmap. exists (pattern, target). split; [done|]. by eapply list_elem_of_lookup_2. }
  unfold route. destruct (select_complete _ _ _ Hin Hm) as [j Ej]. rewrite Ej.
  destruct (select_matches _ _ _ Ej) as (p & Hp & Hpm). pose proof Hp as Hp'.
  rewrite list_lookup_fmap in Hp'. apply fmap_Some in Hp' as ([p' t] & Hj & ->).
  destruct (decide (j = i)) as [->|Hne].
  - cbn [mbind option_bind]. by rewrite Hi.
  - destruct (select_static _ _ _ _ _ Ej Hp Hin Hm). by eapply Hu.
Qed.

Ltac refute_route :=
  match goal with
  | Hp : path_matches _ _ |- _ =>
      unfold path_matches in Hp; cbn [path] in Hp;
      repeat match goal with
      | Hp : Forall2 _ (_ :: _) _ |- _ => apply Forall2_cons_inv_l in Hp as (? & ? & ? & ? & ?); simplify_eq/=
      | Hp : Forall2 _ [] _ |- _ => apply Forall2_nil_inv_l in Hp; simplify_eq/=
      end; try done
  end.

Ltac by_route i :=
  erewrite (route_at _ i); [|reflexivity| |];
  [|cbn [path]; repeat constructor; cbn; done|
   intros [|[|[|[|[|[|j]]]]]] p t Hj Hne Hp; cbn in Hj; simplify_eq/=; try done; refute_route].

(** How a client addresses a request. *)
Definition to_http (q : Request) : HttpRequest :=
  let req m p b := {| method := m; path := p; query := None; bytes := b |} in
  match q with
  | Health => req GET ["health"] []
  | ListCollections => req GET ["collections"] []
  | CreateCollection n b => req PUT ["collections"; n] b
  | DescribeCollection n => req GET ["collections"; n] []
  | DropCollection n => req DELETE ["collections"; n] []
  | IndexDocument n b => req POST ["collections"; n; "documents"] b
  | PutDocument n id b => req PUT ["collections"; n; "documents"; id] b
  | GetDocument n id => req GET ["collections"; n; "documents"; id] []
  | DeleteDocument n id => req DELETE ["collections"; n; "documents"; id] []
  | SearchDocuments n params =>
      {| method := GET; path := ["collections"; n; "documents"; "search"]; query := Some params; bytes := [] |}
  end.

Definition addressable (q : Request) : Prop :=
  match q with
  | Health | ListCollections => True
  | CreateCollection n b | IndexDocument n b => n ≠ "" ∧ blen b ≤ MAX_BODY_BYTES
  | DescribeCollection n | DropCollection n | SearchDocuments n _ => n ≠ ""
  | PutDocument n id b => n ≠ "" ∧ id ≠ "" ∧ id ≠ "search" ∧ blen b ≤ MAX_BODY_BYTES
  | GetDocument n id | DeleteDocument n id => n ≠ "" ∧ id ≠ "" ∧ id ≠ "search"
  end.

Lemma with_body_ok r k : blen (bytes r) ≤ MAX_BODY_BYTES → with_body r k = inr (k (bytes r)).
Proof. intros Hb. unfold with_body. by rewrite decide_False by lia. Qed.

Lemma route_to_http q : addressable q → route (to_http q) = inr q.
Proof.
  destruct q as [| |n b|n|n|n b|n id b|n id|n id|n params]; cbn [addressable to_http].
  - intros _. by by_route 0%nat.
  - intros _. by by_route 1%nat.
  - intros [Hn Hb]. by_route 2%nat. by apply with_body_ok.
  - intros Hn. by by_route 2%nat.
  - intros Hn. by by_route 2%nat.
  - intros [Hn Hb]. by_route 3%nat. by apply with_body_ok.
  - intros (Hn & Hid & Hs & Hb). by_route 5%nat. by apply with_body_ok.
  - intros (Hn & Hid & Hs). by by_route 5%nat.
  - intros (Hn & Hid & Hs). by by_route 5%nat.
  - intros Hn. by_route 4%nat; [done|].
    by exists [Lit "collections"; Param; Lit "documents"], "search", [], [].
Qed.

(** C31: The documented method and path of a request lead to its handler with the same
    parameters, for every request with non-empty names, a body within the limit and a
    document id other than [search], which is the path of the search handler
    ([document_search_unreachable]). *)
Theorem route_roundtrip q : addressable q → route (to_http q) = inr q.
Proof. apply route_to_http. Qed.

(** A request that is routed to the document [id]. *)
Definition targets_document (q : Request) (id : string) : Prop :=
  match q with
  | PutDocument _ id' _ | GetDocument _ id' | DeleteDocument _ id' => id' = id
  | _ => False
  end.

Lemma not_routed_to_search r q : route r = inr q → ¬ targets_document q "search".
Proof.
  unfold route. destruct (select app_routes.*1 (path r)) as [i|] eqn:Ei; [|done]. cbn [mbind option_bind].
  destruct (select_matches _ _ _ Ei) as (p & Hp & Hm). intros Hr Ht.
  assert (Hs : i = 5%nat → path r = ["collections"; default "" (path r !! 1%nat); "documents"; "search"] → False).
  { intros -> Ep. eapply (select_static _ _ _ _ [Lit "collections"; Param; Lit "documents"; Lit "search"] Ei Hp).
    - cbn. set_solver.
    - cbn in Hp. injection Hp as <-. rewrite Ep in Hm |- *. unfold path_matches in *.
      apply Forall2_cons in Hm as [_ [Hn _]%Forall2_cons]. by repeat constructor.
    - cbn in Hp. injection Hp as <-. by exists [Lit "collections"; Param; Lit "documents"], "search", [], []. }
  destruct i as [|[|[|[|[|[|i]]]]]]; cbn in Hp, Hr; simplify_eq/=; unfold method_router, with_body in Hr; refute_route;
    match goal with E : path _ = _ |- _ => rewrite E in * end; cbn in *;
    destruct (method r), (query r); simplify_eq/=; try case_decide; simplify_eq/=; try done; by apply Hs.
Qed.

(** No request reaches a document whose id is [search], although such a document
    can be stored through the catalog: its path is that of the search handler, which
    serves [GET] only, so a client that puts or deletes it is refused with 405. *)
Theorem document_search_unreachable :
  (∀ r q, route r = inr q → ¬ targets_document q "search")
  ∧ ∀ m n qs b, n ≠ "" → m ≠ GET →
      route {| method := m; path := ["collections"; n; "documents"; "search"]; query := qs; bytes := b |}
      = inl METHOD_NOT_ALLOWED.
Proof.
  split; [apply not_routed_to_search|]. intros m n qs b Hn Hm. by_route 4%nat.
  - by destruct m.
  - by exists [Lit "collections"; Param; Lit "documents"], "search", [], [].
Qed.

(** ** The standalone server *)

(** The responses to a sequence of requests and checkpoints, on the abstract
    database. *)
Inductive serves : astate → list server_event → list (option Response) → astate → Prop :=
| serves_nil a : serves a [] [] a
| serves_tick a es resps a' :
    serves (checkpointed a) es resps a' → serves a (Tick :: es) resps a'
| serves_handled a fresh elapsed r q resp a1 es resps a' :
    route r = inr q → http_spec fresh elapsed q a resp a1 → serves a1 es resps a' →
    serves a (Incoming fresh elapsed r :: es) (Some resp :: resps) a'
| serves_rejected a fresh elapsed r code es resps a' :
    route r = inl code → serves a es resps a' →
    serves a (Incoming fresh elapsed r :: es) (Some (respond code NoBody) :: resps) a'
| serves_timed_out a r es resps a' :
    serves a es resps a' → serves a (TimedOut r :: es) (Some (respond REQUEST_TIMEOUT NoBody) :: resps) a'
| serves_late a fresh elapsed q resp a1 es resps a' :
    http_spec fresh elapsed q a resp a1 → serves a1 es resps a' → serves a (Late fresh elapsed q :: es) resps a'.

(** What the clients and the environment provide along the way. *)
Fixpoint server_ok (es : list server_event) (st : CatSt) (a : astate) : Prop :=
  match es with
  | [] => True
  | Tick :: es => server_ok es (run_checkpoint st) (checkpointed a)
  | TimedOut _ :: es => server_ok es st a
  | Late fresh elapsed q :: es =>
      http_ok a (root st) fresh q ∧ server_ok es (serve_request fresh elapsed q st).2 (http_next fresh q a)
  | Incoming fresh elapsed r :: es =>
      match route r with
      | inl _ => server_ok es st a
      | inr q => http_ok a (root st) fresh q
          ∧ server_ok es (serve_request fresh elapsed q st).2 (http_next fresh q a)
      end
  end.

Lemma serve_events_sim es : ∀ st a,
  cat_rel st a → json_docs (base a) → server_ok es st a →
  ∃ resps st' a', serve_events es st = (resps, st') ∧ serves a es resps a'
    ∧ cat_rel st' a' ∧ json_docs (base a').
Proof.
  induction es as [|[fresh elapsed r|r|fresh elapsed q|] es IH]; intros st a Hr Hj Hok; cbn [server_ok serve_events] in *.
  - exists [], st, a. split; [done|]. split; [constructor|done].
  - unfold router. destruct (route r) as [code|q] eqn:Er.
    + destruct (IH st a Hr Hj Hok) as (resps & st' & a' & -> & Hs & Hr' & Hj').
      eexists _, st', a'. split; [done|]. split; [by apply serves_rejected|done].
    + destruct Hok as [Hq Hes]. destruct (request_served st a fresh elapsed q Hr Hj Hq) as (resp & st1 & a1 & E & Hsp & Hr1 & Eb).
      rewrite <-(spec_next _ _ _ _ _ _ Hsp) in Hes. rewrite E in Hes |- *. cbn [snd] in Hes. rewrite <-Eb in Hj.
      destruct (IH st1 a1 Hr1 Hj Hes) as (resps & st' & a' & -> & Hs & Hr' & Hj').
      eexists _, st', a'. split; [done|]. split; [by eapply serves_handled|done].
  - destruct (IH st a Hr Hj Hok) as (resps & st' & a' & -> & Hs & Hr' & Hj').
    eexists _, st', a'. split; [done|]. split; [by apply serves_timed_out|done].
  - destruct Hok as [Hq Hes]. destruct (request_served st a fresh elapsed q Hr Hj Hq) as (resp & st1 & a1 & E & Hsp & Hr1 & Eb).
    rewrite <-(spec_next _ _ _ _ _ _ Hsp) in Hes. rewrite E in Hes |- *. cbn [snd] in *. rewrite <-Eb in Hj.
    destruct (IH st1 a1 Hr1 Hj Hes) as (resps & st' & a' & E' & Hs & Hr' & Hj').
    exists resps, st', a'. split; [done|]. split; [by eapply serves_late|done].
  - destruct (checkpoint_refines st a Hr) as (st1 & E & Hr1). unfold run_checkpoint in *. rewrite E in *. cbn [snd] in *.
    destruct (IH st1 _ Hr1) as (resps & st' & a' & -> & Hs & Hr' & Hj'); [|done|].
    + cbn [checkpointed base]. by apply json_docs_now; [apply Hr|].
    + eexists _, st', a'. split; [done|]. split; [by apply serves_tick|done].
Qed.

(** The server over one run of the process: it starts on the files [d], serves, and
    stops. *)
Lemma serve_sim d a es :
  disk_inv d a → json_docs (base a) →
  (∀ st, (catalog_open d).1 = Ok st → server_ok es st (checkpointed a)) →
  ∃ resps d' a', serve d es = (Ok resps, d') ∧ serves (checkpointed a) es resps a'
    ∧ json_docs (now a') ∧ ∀ d'', crash_disk d' d'' → disk_inv d'' (checkpointed a').
Proof.
  intros Hd Hj Hok. destruct (catalog_open_ok d a Hd) as (st & E & Hr).
  destruct (serve_events_sim es st (checkpointed a) Hr) as (resps & st1 & a1 & Es & Hs & Hr1 & Hj1); [|by apply Hok; rewrite E|].
  { cbn [checkpointed base]. apply json_docs_now; [|done]. by destruct Hd. }
  destruct (checkpoint_refines st1 a1 Hr1) as (st2 & Ec & Hr2).
  exists resps, (disk_of st2), a1. unfold serve, run_checkpoint. rewrite E, Es, Ec.
  split; [done|]. split; [done|]. split; [by apply json_docs_now; [apply Hr1|]|].
  intros d'' Hc. by eapply cat_rel_crash.
Qed.

(** C4: A standalone server that starts on files related to an abstract database (an empty
    directory, or what a crash leaves of an earlier run of the server after its shutdown,
    by the last conclusion) gives every request of a session that satisfies [http_ok] the
    response that the abstract database prescribes, requests that time out and take effect
    late included; after the shutdown, whatever unsynced bytes a crash takes, the files
    hold exactly the final database. [http_ok] asks that a create has a mapping whose
    schema Tantivy accepts and a new uuid, that document ids fit in a term (65530 bytes),
    that the collector can allocate the page of a search, and that the log has room. What
    other requests get is not stated; a create with a field named with a leading hyphen
    gets a 500 ([hyphen_field_answers_500]). *)
Theorem standalone_server_refines d a es :
  disk_inv d a → json_docs (base a) →
  (∀ st, (catalog_open d).1 = Ok st → server_ok es st (checkpointed a)) →
  ∃ resps d' a', serve d es = (Ok resps, d') ∧ serves (checkpointed a) es resps a'
    ∧ json_docs (now a') ∧ ∀ d'', crash_disk d' d'' → disk_inv d'' (checkpointed a').
Proof. apply serve_sim. Qed.

Lemma spec_not_500 fresh elapsed q a resp a' :
  http_spec fresh elapsed q a resp a' → status resp ≠ INTERNAL_SERVER_ERROR.
Proof.
  assert (Hf : ∀ code kind, fails resp code kind → code ≠ INTERNAL_SERVER_ERROR →
    status resp ≠ INTERNAL_SERVER_ERROR) by (by intros ?? [<- _]).
  destruct q; cbn; unfold write_spec, in_coll; repeat case_match; try case_decide; intros Hs;
    destruct_and?; destruct_or?; destruct_and?; subst; try done; eauto.
  all: repeat match goal with Hx : ∃ _, _ |- _ => destruct Hx end; destruct_and?; by subst.
Qed.

Lemma route_not_500 r : route r ≠ inl INTERNAL_SERVER_ERROR.
Proof.
  unfold route. destruct (_ ≫= _) as [[pattern target]|]; [|done]. unfold method_router, with_body.
  repeat case_match; try case_decide; done.
Qed.

Lemma serves_not_500 a es resps a' :
  serves a es resps a' → Forall (λ o, ∃ resp, o = Some resp ∧ status resp ≠ INTERNAL_SERVER_ERROR) resps.
Proof.
  induction 1 as [| |a fresh elapsed r q resp a1 es resps a' Er Hsp|a fresh elapsed r code es resps a' Er
    |a r es resps a' _ IH|]; try done.
  - constructor; [|done]. exists resp. split; [done|]. by eapply spec_not_500.
  - constructor; [|done]. eexists. split; [done|]. cbn. intros ->. by apply route_not_500 in Er.
  - constructor; [|done]. by eexists.
Qed.

(** C26: Every request of a session that satisfies [http_ok], on files as in
    [standalone_server_refines] (mappings whose schema Tantivy accepts, ids that fit in a
    term, pages that the collector can allocate, room in the log) is answered by a
    standalone server, and not with 500. Outside [http_ok] there are requests that get a
    500: [hyphen_field_answers_500]. *)
Theorem standalone_never_500 d a es :
  disk_inv d a → json_docs (base a) →
  (∀ st, (catalog_open d).1 = Ok st → server_ok es st (checkpointed a)) →
  ∃ resps, (serve d es).1 = Ok resps
    ∧ Forall (λ o, ∃ resp, o = Some resp ∧ status resp ≠ INTERNAL_SERVER_ERROR) resps.
Proof.
  intros Hd Hj Hok. destruct (serve_sim d a es Hd Hj Hok) as (resps & d' & a' & E & Hs & _).
  exists resps. rewrite E. split; [done|]. by eapply serves_not_500.
Qed.

(** ** A cluster node *)

Section cluster_node.
Context {R : Type} `{!cluster.Openraft R}.
Abbreviation node := (cluster.Cluster (R:=R)).

(** The requests that only the leader serves. *)
Definition needs_leader (q : Request) : Prop :=
  match q with
  | CreateCollection _ bytes => is_ok (parse_mapping bytes) = true
  | DropCollection _ | IndexDocument _ _ | PutDocument _ _ _ | DeleteDocument _ _ | SearchDocuments _ _ => True
  | _ => False
  end.

Definition known_leader (c : node) : option raft.Node :=
  let m := cluster.metrics (cluster.raft_core c) in
  leader ← cluster.m_current_leader m;
  openraft.membership_nodes (openraft.stored_membership (cluster.m_membership m)) !! leader.

Lemma via_err {A} (m : M node cluster.ClientError A) e c c' :
  m c = (Err e, c') → via m c = (Err (from_client_error e), c').
Proof. intros E. unfold via, mapE. by rewrite E. Qed.

Lemma not_leading_err {A} (m : M node cluster.ClientError A) (c : node) :
  ¬ leading c →
  (cluster.ensure_leader;; m) c
  = (Err (cluster.forward_or_unavailable (cluster.metrics (cluster.raft_core c))), c).
Proof.
  intros Hl. pose proof (ensure_leader_run c) as Ee. rewrite decide_False in Ee by done.
  by rewrite (M_bind_Err _ _ _ _ _ Ee).
Qed.

Lemma handle_not_leading fresh elapsed q (c : node) :
  ¬ leading c → needs_leader q →
  handle fresh elapsed q c
  = (Err (from_client_error (cluster.forward_or_unavailable (cluster.metrics (cluster.raft_core c)))), c).
Proof.
  intros Hl Hq.
  assert (Hv : ∀ {A} (m : M node cluster.ClientError A), via (cluster.ensure_leader;; m) c
    = (Err (from_client_error (cluster.forward_or_unavailable (cluster.metrics (cluster.raft_core c)))), c))
    by (intros A m; by apply via_err, not_leading_err).
  destruct q; try done; cbn [handle needs_leader] in *;
    unfold create_collection_handler, drop_collection_handler, index_document_handler, put_document_handler,
      delete_document_handler, search_documents_handler;
    [destruct (parse_mapping _) as [m|e|w]; [mpure|done..]|..];
    cbn [create_collection drop_collection index delete search ClusterEngine];
    rewrite ?M_bind_assoc; apply M_bind_Err; apply Hv.
Qed.

(** C27: A node that is not the leader serves no write and no search: it answers 307
    with the address of the leader in [Location] when the leader is known and is a
    member, and 503 otherwise, and changes nothing. *)
Theorem cluster_http_redirects fresh elapsed q (c : node) :
  ¬ leading c → needs_leader q →
  ∃ resp, serve_request fresh elapsed q c = (Some resp, c) ∧
    match known_leader c with
    | Some leader => status resp = TEMPORARY_REDIRECT
        ∧ location resp = if header_ok (raft.rpc_addr leader) then Some (raft.rpc_addr leader) else None
    | None => fails resp SERVICE_UNAVAILABLE "unavailable"
    end.
Proof.
  intros Hl Hq. eexists. split; [by apply serve_Err, handle_not_leading|].
  unfold known_leader, cluster.forward_or_unavailable.
  destruct (cluster.m_current_leader _) as [l|]; cbn; [|apply fails_body].
  destruct (_ !! l) as [leader|]; cbn; [|apply fails_body].
  unfold forward_to_leader. by destruct (header_ok _).
Qed.

(** C21: A get of a document through the leader answers with the document as of the
    last applied entry - 200 with the parsed source, or 404 for a missing collection or
    document - and leaves the replicated database as it is. *)
Theorem cluster_http_get fresh elapsed (c : node) r' st' d i m n id l :
  cluster.ensure_linearizable (cluster.raft_core c, cluster.sm c) = (Ok tt, (r', st')) →
  sm_rel st' d i m → json_docs d → id_ok id →
  cluster.m_last_applied (cluster.metrics r') = Some l → openraft.index l = i →
  ∃ resp c', serve_request fresh elapsed (GetDocument n id) c = (Some resp, c') ∧ sm_rel (cluster.sm c') d i m ∧
    match d !! n with
    | None => fails resp NOT_FOUND "collection_not_found"
    | Some cl =>
        match a_docs cl !! id with
        | None => fails resp NOT_FOUND "document_not_found"
        | Some src => ∃ v, from_slice src = Some v ∧ resp = respond OK (GetResponse id v)
        end
    end.
Proof.
  intros El Hr Hj Hid Hm Hi.
  destruct (linearizable_get_run c r' st' d i m n id l El Hr Hid Hm Hi) as (c' & E & Hr').
  unfold serve_request. cbn [handle]. unfold get_document_handler. cbn [get_document ClusterEngine]. unfold mbind at 1, M_bind, via, mapE. rewrite E.
  unfold read_db. destruct (d !! n) as [cl|] eqn:Hn; cbn.
  2: { eexists _, c'. split; [reflexivity|]. split; [done|apply fails_body]. }
  destruct (a_docs cl !! id) as [src|] eqn:Hs; cbn.
  2: { eexists _, c'. split; [reflexivity|]. split; [done|apply fails_body]. }
  destruct (Hj n cl id src Hn Hs) as [v Hv]. unfold parse_source. rewrite Hv. cbn.
  eexists _, c'. split; [reflexivity|]. split; [done|]. by exists v.
Qed.
End cluster_node.
End ApiCorrect.

(** ** Evaluated instances *)

Module ApiDemo.
#[local] Existing Instances Samples.json Samples.rfc3339 Samples.schema Samples.uuid SampleIndex.tantivy
  SampleIndex.mark_json SampleSearch.tantivy_search SampleCodecs.wal_entry_codec SampleCodecs.snapshot_codec
  sum_crc32c SampleRaft.membership SampleRaft.stored_membership_codec SampleHttp.axum SampleHttp.dto_json.

Lemma route_roundtrip_witness :
  route (to_http (PutDocument "books" "a" [x07])) = inr (PutDocument "books" "a" [x07]).
Proof. apply (route_roundtrip (PutDocument "books" "a" [x07])). done. Defined.

Lemma document_search_unreachable_witness :
  route (to_http (PutDocument "books" "search" [x07])) = inl METHOD_NOT_ALLOWED.
Proof. by apply (proj2 document_search_unreachable). Defined.

(** Create a collection, put a document, checkpoint, read it, search for it, ask for a
    missing one, delete it in a request that times out, checkpoint, read it again, and send a path that is not served. *)
Definition incoming (q : Request) : server_event := Incoming ("u1" : @Uuid Samples.uuid) 5 (to_http q).
Definition session : list server_event :=
  [incoming (CreateCollection "books" [x01]); incoming (PutDocument "books" "a" [x07]); Tick;
   incoming (GetDocument "books" "a");
   incoming (SearchDocuments "books" {| p_q := "a"; p_limit := None; p_offset := None |});
   incoming (GetDocument "films" "a");
   TimedOut (to_http (DeleteDocument "books" "a")); Late ("u1" : @Uuid Samples.uuid) 5 (DeleteDocument "books" "a"); Tick;
   incoming (GetDocument "books" "a");
   Incoming ("u1" : @Uuid Samples.uuid) 5 {| method := GET; path := ["films"]; query := None; bytes := [] |}].

Definition statuses (rs : list (option Response)) : list (option StatusCode) := map (option_map status) rs.
Definition responses (r : result Error (list (option Response))) : list (option Response) :=
  match r with Ok rs => rs | _ => [] end.

Example session_statuses :
  statuses (responses (serve empty_disk session).1)
  = [Some CREATED; Some CREATED; Some OK; Some OK; Some NOT_FOUND; Some REQUEST_TIMEOUT;
     Some NOT_FOUND; Some NOT_FOUND].
Proof. vm_compute. reflexivity. Qed.

(** A create with a field name that Tantivy refuses is answered with 500. *)
Theorem hyphen_field_answers_500 :
  option_map status (serve_request ("u1" : @Uuid Samples.uuid) 5 (CreateCollection "books" [x02]) Demo.started).1
  = Some INTERNAL_SERVER_ERROR.
Proof. vm_compute. done. Qed.

Lemma empty_json : json_docs (base empty_state).
Proof. intros n c id src Hn. cbn in Hn. by rewrite lookup_empty in Hn. Qed.

Lemma opened_started st : (catalog_open empty_disk).1 = Ok st → st = Demo.started.
Proof. intros E. unfold Demo.started, Demo.opened. by rewrite E. Qed.

Lemma session_ok st : (catalog_open empty_disk).1 = Ok st → server_ok session st (checkpointed empty_state).
Proof.
  intros ->%opened_started. cbn [server_ok session incoming]. rewrite !route_to_http by done.
  split.
  { assert (Es : parse_mapping [x01] = Ok sample_mapping) by (vm_compute; reflexivity). intros m Em. rewrite Es in Em.
    injection Em as <-. split; [apply sample_mapping_ok|]. split; [by apply Demo.new_uuid_empty|by vm_compute]. }
  split; [split; [by apply id_ok_short|by vm_compute]|].
  split; [by apply id_ok_short|]. split; [done|]. split; [by apply id_ok_short|].
  split; [split; [by apply id_ok_short|by vm_compute]|]. split; [by apply id_ok_short|by vm_compute].
Qed.

Lemma standalone_server_refines_witness :
  ∃ resps d' a', serve empty_disk session = (Ok resps, d') ∧ serves (checkpointed empty_state) session resps a'
    ∧ json_docs (now a') ∧ ∀ d'', crash_disk d' d'' → disk_inv d'' (checkpointed a').
Proof. apply (standalone_server_refines empty_disk empty_state session empty_disk_inv empty_json session_ok). Defined.

Lemma standalone_never_500_witness :
  ∃ resps, (serve empty_disk session).1 = Ok resps
    ∧ Forall (λ o, ∃ resp, o = Some resp ∧ status resp ≠ INTERNAL_SERVER_ERROR) resps.
Proof. apply (standalone_never_500 empty_disk empty_state session empty_disk_inv empty_json session_ok). Defined.

(** A follower, whose leader is node 1. *)
Definition follower_metrics (i : Z) : cluster.RaftMetrics :=
  {| cluster.m_id := 2; cluster.m_current_term := 1; cluster.m_state := cluster.Follower;
     cluster.m_current_leader := Some 1; cluster.m_last_log_index := Some i;
     cluster.m_last_applied := Some (SmDemo.id i); cluster.m_membership := SmDemo.stored |}.

#[refine] Definition follower : cluster.Openraft Z := {|
  cluster.metrics := follower_metrics;
  cluster.client_write _ s := (Err (cluster.APIError (cluster.WriteForwardToLeader None)), s);
  cluster.ensure_linearizable s := (Err (cluster.APIError (cluster.ReadForwardToLeader None)), s);
  cluster.initialize _ s := (Err (cluster.APIError cluster.NotAllowed), s);
  cluster.raft_add_learner _ _ s := (Ok tt, s);
  cluster.raft_change_membership _ _ s := (Ok tt, s);
  cluster.delivered _ _ := []
|}.
Proof. done. Defined.
#[local] Existing Instance follower.

Definition follower_node : cluster.Cluster (R:=Z) :=
  {| cluster.id := 2; cluster.self_node := {| raft.node_id := 2; raft.rpc_addr := "b:1" |};
     cluster.seed_peers := ∅; cluster.raft_core := 4; cluster.sm := SmDemo.applied |}.

Lemma cluster_http_redirects_witness :
  ∃ resp, serve_request ("u" : @Uuid Samples.uuid) 5
            (DropCollection "books") follower_node = (Some resp, follower_node)
    ∧ status resp = TEMPORARY_REDIRECT ∧ location resp = Some "a:1".
Proof.
  destruct (cluster_http_redirects ("u" : @Uuid Samples.uuid) 5 (DropCollection "books") follower_node)
    as (resp & E & Hs); [done|done|]. exists resp. split; [exact E|exact Hs].
Defined.

Lemma the_db_json : json_docs (foldl db_after ∅ SmDemo.log).
Proof.
  intros n c id src Hn Hid.
  assert (foldl db_after ∅ SmDemo.log = {[ "books" := SmDemo.books ]}) as E by (vm_compute; reflexivity).
  rewrite E in Hn. apply lookup_singleton_Some in Hn as [<- <-].
  assert (a_docs SmDemo.books = {[ "a" := [x07] ]}) as Ed by (vm_compute; reflexivity).
  rewrite Ed in Hid. apply lookup_singleton_Some in Hid as [<- <-]. by eexists.
Qed.

#[local] Existing Instance ClusterDemo.single.

Lemma cluster_http_get_witness :
  ∃ resp c', serve_request ("u" : @Uuid Samples.uuid) 5 (GetDocument "books" "a") ClusterDemo.the_node = (Some resp, c')
    ∧ sm_rel (cluster.sm c') (foldl db_after ∅ SmDemo.log) 4 SmDemo.stored
    ∧ ∃ v, from_slice [x07] = Some v ∧ resp = respond OK (GetResponse "a" v).
Proof.
  destruct (cluster_http_get ("u" : @Uuid Samples.uuid) 5 ClusterDemo.the_node 4
    SmDemo.applied (foldl db_after ∅ SmDemo.log) 4 SmDemo.stored "books" "a" (SmDemo.id 4))
    as (resp & c' & E & Hr & Hs).
  - reflexivity.
  - apply SmDemo.applied_rel.
  - apply the_db_json.
  - by apply id_ok_short.
  - reflexivity.
  - reflexivity.
  - exists resp, c'. split; [exact E|]. split; [exact Hr|exact Hs].
Defined.
End ApiDemo.
