(* ===== verification/ApiCluster.v ===== *)
(** * The management API and start-up of a cluster node (crates/api/src/cluster.rs)

    The peer list given on the command line and in a file, the first membership, and
    the handlers under [/cluster].  A string is its bytes in UTF-8. *)

From S2P Require Import Prelude Bytes CoreError FileSys Proto External Mapping Document IndexApi Collection Search.
From S2P Require Import WalInterface Catalog Conversions LogStore StateMachine Cluster Api.

Open Scope Z_scope.

(** [serde_json::from_slice::<InitBody>]: the members listed, none by default. *)
Class InitJson := { init_from_slice : list byte → option (list (Z * string)) }.

Module management.
Import api.

(** ** Text *)

(** [str::split_once] on a character. *)
Fixpoint split_once (sep : ascii) (s : string) : option (string * string) :=
  match s with
  | EmptyString => None
  | String c s =>
      if decide (c = sep) then Some (EmptyString, s)
      else (λ ab, (String c ab.1, ab.2)) <$> split_once sep s
  end.

Definition newline : ascii := "010"%char.

(** The pieces of a text between line feeds, at least one. *)
Fixpoint pieces (s : string) : list string :=
  match s with
  | EmptyString => [EmptyString]
  | String c s =>
      if decide (c = newline) then EmptyString :: pieces s
      else match pieces s with
           | [] => [String c EmptyString]
           | l :: ls => String c l :: ls
           end
  end.

(** [str::lines]: a line ends with a line feed and loses a carriage return before it;
    what follows the last line feed is a line unless it is empty. *)
Fixpoint lines_of (ps : list string) : list string :=
  match ps with
  | [] => []
  | [l] => if decide (l = "") then [] else [l]
  | l :: ps => default l (strip_suffix (String "013"%char "") l) :: lines_of ps
  end.
Definition lines (s : string) : list string := lines_of (pieces s).

Definition utf8 (bs : list nat) : string := foldr (λ b s, String (ascii_of_nat b) s) EmptyString bs.

(** The characters with the Unicode property [White_Space]. *)
Definition white_space : list string :=
  utf8 <$> ([[9]; [10]; [11]; [12]; [13]; [32]; [194; 133]; [194; 160]; [225; 154; 128];
            [226; 128; 168]; [226; 128; 169]; [226; 128; 175]; [226; 129; 159]; [227; 128; 128]]
           ++ ((λ b, [226; 128; 128 + b]) <$> seq 0 11))%nat.

Fixpoint first_some {A B} (f : A → option B) (l : list A) : option B :=
  match l with
  | [] => None
  | x :: l => match f x with Some y => Some y | None => first_some f l end
  end.

(** [str::trim]: each round removes one character. *)
Fixpoint trim_with (strip : string → option string) (fuel : nat) (s : string) : string :=
  match fuel with
  | O => s
  | S fuel => match strip s with Some s' => trim_with strip fuel s' | None => s end
  end.
Definition trim_start (s : string) : string :=
  trim_with (λ s, first_some (λ w, strip_prefix w s) white_space) (String.length s) s.
Definition trim_end (s : string) : string :=
  trim_with (λ s, first_some (λ w, strip_suffix w s) white_space) (String.length s) s.
Definition trim (s : string) : string := trim_end (trim_start s).

Definition starts_with_hash (s : string) : bool :=
  match s with
  | String c _ => bool_decide (c = "#"%char)
  | EmptyString => false
  end.

(** ** Peers *)

Definition parse_peer (value : string) : result message (Z * string) :=
  '(id, addr) ← ok_or (Msg "expected <id>=<addr>" []) (split_once "="%char value);
  n ← ok_or (Msg "invalid peer id: {id}" [id]) (parse_u64 id);
  mret (n, addr).

(** The loop of [read_peers_file]. *)
Fixpoint read_peer_lines (ls : list string) : result message (list (Z * string)) :=
  match ls with
  | [] => Ok []
  | l :: ls =>
      let line := trim l in
      if bool_decide (line = "") || starts_with_hash line then read_peer_lines ls
      else
        peer ← parse_peer line;
        peers ← read_peer_lines ls;
        mret (peer :: peers)
  end.
Definition read_peers_file (contents : string) : result message (list (Z * string)) :=
  read_peer_lines (lines contents).

Definition node (id : Z) (rpc_addr : string) : raft.Node :=
  {| raft.node_id := id; raft.rpc_addr := rpc_addr |}.

(** The seed of [serve_cluster]: the peers of the command line, then those of the file. *)
Definition seed_peers (peers from_file : list (Z * string)) : gmap Z raft.Node :=
  foldl (λ seed '(id, addr), <[id := node id addr]> seed) ∅ (peers ++ from_file).

(** ** Reading peers back *)

Fixpoint has_char (c : ascii) (s : string) : bool :=
  match s with
  | EmptyString => false
  | String a s => bool_decide (a = c) || has_char c s
  end.

Lemma has_char_cons c a s : has_char c (String a s) = false ↔ a ≠ c ∧ has_char c s = false.
Proof. cbn. by rewrite orb_false_iff, bool_decide_eq_false. Qed.

Lemma split_once_app c a b : has_char c a = false → split_once c (a +:+ String c b) = Some (a, b).
Proof.
  induction a as [|x a IH].
  - intros _. change ("" +:+ String c b) with (String c b). cbn [split_once]. by rewrite decide_True.
  - intros [Hx Ha]%has_char_cons. change (String x a +:+ String c b) with (String x (a +:+ String c b)).
    cbn [split_once]. by rewrite decide_False, IH.
Qed.

Lemma split_once_Some c s a b : split_once c s = Some (a, b) → s = a +:+ String c b ∧ has_char c a = false.
Proof.
  revert a. induction s as [|x s IH]; intros a; cbn [split_once]; [done|]. case_decide as Hx.
  - intros [= <- <-]. by subst x.
  - intros ([a' b'] & E & [= -> ->])%fmap_Some. destruct (IH _ E) as [-> Ha]. split; [done|]. by apply has_char_cons.
Qed.

Lemma parse_digits_chars c acc s n :
  digit_of_ascii c = None → parse_digits acc s = Some n → has_char c s = false.
Proof.
  intros Hc. revert acc. induction s as [|a s IH]; intros acc; cbn [parse_digits]; [done|].
  destruct (digit_of_ascii a) as [d|] eqn:Ed; cbn; [|done]. case_decide; [|done]. intros E.
  apply has_char_cons. split; [congruence|by eapply IH].
Qed.

Lemma parse_u64_no_eq s n : parse_u64 s = Some n → has_char "="%char s = false.
Proof.
  assert (Hd : ∀ acc t, parse_digits acc t = Some n → has_char "="%char t = false)
    by (intros acc t; by apply parse_digits_chars).
  unfold parse_u64. destruct s as [|a s]; [done|]. case_decide as Ha; [|apply Hd].
  destruct s as [|b s]; [done|]. intros E%Hd. apply has_char_cons. by subst a.
Qed.

Lemma parse_peer_spec s n addr :
  parse_peer s = Ok (n, addr) ↔ ∃ id, s = id +:+ "=" +:+ addr ∧ parse_u64 id = Some n.
Proof.
  unfold parse_peer. split.
  - destruct (split_once "="%char s) as [[id b]|] eqn:Es; [|done]. cbn.
    destruct (parse_u64 id) as [m|] eqn:Ep; [|done]. intros [= -> ->].
    exists id. split; [|done]. by apply split_once_Some in Es as [-> _].
  - intros (id & -> & Ep). change ("=" +:+ addr) with (String "="%char addr).
    rewrite split_once_app by (by eapply parse_u64_no_eq). cbn. by rewrite Ep.
Qed.

(** A file of lines, each ended by a line feed. *)
Definition file_of (ls : list string) : string := foldr (λ l s, l +:+ String newline s) "" ls.

Lemma pieces_line l s : has_char newline l = false → pieces (l +:+ String newline s) = l :: pieces s.
Proof.
  induction l as [|c l IH].
  - intros _. change ("" +:+ String newline s) with (String newline s). cbn [pieces]. by rewrite decide_True.
  - intros [Hc Hl]%has_char_cons. change (String c l +:+ String newline s) with (String c (l +:+ String newline s)).
    cbn [pieces]. by rewrite decide_False, IH.
Qed.

Lemma has_char_strip c l : has_char c l = false → strip_suffix (String c "") l = None.
Proof.
  induction l as [|x l IH]; intros Hl; [done|]. apply has_char_cons in Hl as [Hx Hl]. cbn [strip_suffix].
  rewrite decide_False by congruence. by rewrite IH.
Qed.

Lemma lines_file_of ls :
  Forall (λ l, has_char newline l = false ∧ has_char "013"%char l = false) ls → lines (file_of ls) = ls.
Proof.
  unfold lines. induction 1 as [|l ls [Hn Hr] _ IH]; [done|]. cbn [file_of foldr]. fold (file_of ls).
  rewrite pieces_line by done. destruct (pieces (file_of ls)) as [|p ps] eqn:E.
  - destruct (file_of ls); cbn in E; [done|]. case_decide; [done|]. by destruct (pieces s).
  - cbn [lines_of]. rewrite has_char_strip by done. cbn [default from_option]. f_equal. exact IH.
Qed.

(** What a line of the file stands for: a peer, or nothing when it is blank or a
    comment. *)
Definition line_means (raw : string) (peer : option (Z * string)) : Prop :=
  has_char newline raw = false ∧ has_char "013"%char raw = false ∧
  match peer with
  | Some (id, addr) => is_u64 id ∧ trim raw = u64_to_string id +:+ "=" +:+ addr
  | None => trim raw = "" ∨ starts_with_hash (trim raw) = true
  end.

Lemma peer_line id n s : parse_u64 id = Some n → id +:+ s ≠ "" ∧ starts_with_hash (id +:+ s) = false.
Proof.
  destruct id as [|a id]; [done|]. change (String a id +:+ s) with (String a (id +:+ s)). intros E. split; [done|].
  cbn. apply bool_decide_eq_false. intros ->. cbn in E. done.
Qed.

Lemma read_peer_lines_ok raws peers :
  Forall2 line_means raws peers → read_peer_lines raws = Ok (omap (λ p, p) peers).
Proof.
  induction 1 as [|raw peer raws peers (_ & _ & Hp) _ IH]; [done|]. cbn [read_peer_lines].
  destruct peer as [[id addr]|].
  - destruct Hp as [Hid ->]. pose proof (parse_u64_to_string id Hid) as Ep.
    destruct (peer_line _ _ ("=" +:+ addr) Ep) as [Hne Hh]. rewrite bool_decide_false, Hh by done. cbn [orb].
    assert (parse_peer (u64_to_string id +:+ "=" +:+ addr) = Ok (id, addr)) as -> by (apply parse_peer_spec; eauto).
    cbn. by rewrite IH.
  - destruct Hp as [E|E]; rewrite E; [by rewrite bool_decide_true|by rewrite orb_true_r].
Qed.

(** A peers file is read back exactly: whatever blank lines, comments and outer
    white space it has, [read_peers_file] returns the peers of its lines, in order,
    each with the id it was printed with and its whole address, [=] signs included. *)
Theorem peers_file_roundtrip raws peers :
  Forall2 line_means raws peers → read_peers_file (file_of raws) = Ok (omap (λ p, p) peers).
Proof.
  intros Hf. unfold read_peers_file. rewrite lines_file_of; [by apply read_peer_lines_ok|].
  apply Forall_forall. intros l (i & Hi)%list_elem_of_lookup.
  destruct (Forall2_lookup_l _ _ _ _ _ Hf Hi) as (p & _ & ? & ? & _). done.
Qed.

Lemma peers_file_roundtrip_witness :
  read_peers_file (file_of ["# peers"; ""; "  1=a:1 "; "2=b=c"]) = Ok [(1, "a:1"); (2, "b=c")].
Proof.
  apply (peers_file_roundtrip _ [None; None; Some (1, "a:1"); Some (2, "b=c")]).
  assert (Hl : ∀ raw p, has_char newline raw = false → has_char "013"%char raw = false → (match p with
    | Some (id, addr) => is_u64 id ∧ trim raw = u64_to_string id +:+ "=" +:+ addr
    | None => trim raw = "" ∨ starts_with_hash (trim raw) = true end) → line_means raw p) by done.
  constructor; [apply Hl; [done..|by right]|]. constructor; [apply Hl; [done..|by left]|].
  constructor; [by apply Hl|]. constructor; [by apply Hl|]. constructor.
Defined.

(** The peer that a node is seeded with: the file overrides the command line, and the
    last entry of an id wins. *)
Lemma seed_peers_last peers from_file i :
  seed_peers peers from_file !! i
  = (λ p, node p.1 p.2) <$> last (filter (λ p, p.1 = i) (peers ++ from_file)).
Proof.
  unfold seed_peers. induction (peers ++ from_file) as [|[j addr] l IH] using rev_ind; [done|].
  rewrite foldl_app, filter_app. cbn [foldl]. rewrite filter_cons. cbn [fst]. case_decide as Hj.
  - subst j. rewrite lookup_insert_eq. by rewrite filter_nil, last_snoc.
  - rewrite lookup_insert_ne by done. by rewrite filter_nil, app_nil_r.
Qed.

Section management.
Context `{Json} `{Rfc3339} `{TantivySchema} `{!TantivyIndex} `{!TantivySearch} `{!MarkJson} `{UuidApi}.
Context `{WriteAheadLog} `{!Codec v1.CatalogSnapshot}.
Context `{openraft.MembershipApi} `{!Codec raft.StoredMembership}.
Context `{InitJson}.

(** ** The first membership *)

Definition parse_init_members (body : list byte) : result ApiError (option (gmap Z raft.Node)) :=
  if decide (body = []) then Ok None
  else
    members ← ok_or (BadMapping (Msg "{e}" [])) (init_from_slice body);
    if decide (members = []) then Ok None
    else Ok (Some (foldl (λ m '(id, addr), <[id := node id addr]> m) ∅ members)).

(** ** The handlers *)

Section handlers.
Context {R : Type} `{!cluster.Openraft R}.
Abbreviation cnode := (cluster.Cluster (R:=R)).

Definition init (body : list byte) : M cnode ApiError Response :=
  members ← lift (parse_init_members body);
  via (cluster.init members);;
  mret (respond OK NoBody).

Definition add_learner (node_id : Z) (rpc_addr : string) : M cnode ApiError Response :=
  via (cluster.add_learner node_id rpc_addr);;
  mret (respond OK NoBody).

Definition change_membership (members : list Z) (retain : bool) : M cnode ApiError Response :=
  via (cluster.change_membership (list_to_set members) retain);;
  mret (respond OK NoBody).

Definition metrics : M cnode ApiError Response :=
  m ← via cluster.cluster_metrics;
  mret (respond OK (MetricsBody m)).
End handlers.
End management.
End management.
