(* ===== verification/ClusterServer.v ===== *)
(** * The server of a cluster node (crates/api/src: cluster.rs, lib.rs, main.rs)

    The router of a cluster node, which serves the data API and the management API,
    the calls of [Cluster] that wait for the Raft core or stop it, and [serve_cluster]
    from the command line to the shutdown. *)

From S2P Require Import Prelude Bytes CoreError FileSys Proto External Mapping Document IndexApi Collection Search.
From S2P Require Import WalInterface Catalog SegmentedLog Conversions LogStore StateMachine Cluster Startup Api ApiCluster.
From S2P Require Import LogCorrect Samples SampleCodecs SampleIndex Wal SampleRaft StateMachineCorrect ClusterCorrect SampleHttp ApiCorrect.
Import api.

Open Scope Z_scope.

(** What [serde_json] makes of a body: a value, or an error of syntax or of data. *)
Inductive json_result (A : Type) := JsonOk (a : A) | JsonSyntax | JsonData.
Arguments JsonOk {A} a.
Arguments JsonSyntax {A}.
Arguments JsonData {A}.

(** [serde_json::from_slice] at [LearnerBody] and [MembershipBody]. *)
Class ManagementJson := {
  learner_from_slice : list byte → json_result (Z * string);
  membership_from_slice : list byte → json_result (list Z * bool)
}.

#[export] Instance Segment_eq_dec : EqDecision Segment.
Proof. solve_decision. Defined.

Module server.
Section server.
Context `{Json} `{Rfc3339} `{TantivySchema} `{!TantivyIndex} `{!TantivySearch} `{!MarkJson} `{UuidApi}.
Context `{WriteAheadLog} `{!Codec v1.CatalogSnapshot}.
Context `{openraft.MembershipApi} `{!Codec raft.StoredMembership}.
Context `{Crc32c} `{!Codec raft.Entry} `{!Codec raft.RaftMeta}.
Context `{Axum} `{DtoJson} `{InitJson} `{ManagementJson}.

(** ** Routing *)

Inductive ManagementRoute := MInit | MLearners | MMembership | MMetrics.

Definition management_routes : list (list Segment * ManagementRoute) :=
  [([Lit "cluster"; Lit "init"], MInit);
   ([Lit "cluster"; Lit "learners"], MLearners);
   ([Lit "cluster"; Lit "membership"], MMembership);
   ([Lit "cluster"; Lit "metrics"], MMetrics)].

Inductive ManagementRequest :=
| InitCluster (body : list byte)
| AddLearner (node_id : Z) (rpc_addr : string)
| ChangeMembership (members : list Z) (retain : bool)
| Metrics.

(** The extractor [Json<T>]: the content type, the body within its limit, the value. *)
Definition with_json {A} (content_json : bool) (r : HttpRequest) (parse : list byte → json_result A)
    (k : A → ManagementRequest) : StatusCode + ManagementRequest :=
  if negb content_json then inl UNSUPPORTED_MEDIA_TYPE
  else if decide (MAX_BODY_BYTES < blen (bytes r)) then inl PAYLOAD_TOO_LARGE
  else match parse (bytes r) with
       | JsonOk a => inr (k a)
       | JsonSyntax => inl BAD_REQUEST
       | JsonData => inl UNPROCESSABLE_ENTITY
       end.

Definition management_router (route : ManagementRoute) (content_json : bool) (r : HttpRequest) :
    StatusCode + ManagementRequest :=
  match route, method r with
  | MInit, POST =>
      if decide (MAX_BODY_BYTES < blen (bytes r)) then inl PAYLOAD_TOO_LARGE else inr (InitCluster (bytes r))
  | MLearners, POST => with_json content_json r learner_from_slice (λ '(id, addr), AddLearner id addr)
  | MMembership, POST => with_json content_json r membership_from_slice (λ '(ms, retain), ChangeMembership ms retain)
  | MMetrics, GET => inr Metrics
  | _, _ => inl METHOD_NOT_ALLOWED
  end.

(** [app_routes(state).merge(management_routes(cluster))]. *)
Definition all_routes : list (list Segment * (Route + ManagementRoute)) :=
  (prod_map id inl <$> app_routes) ++ (prod_map id inr <$> management_routes).

Definition cluster_route (content_json : bool) (r : HttpRequest) : StatusCode + (Request + ManagementRequest) :=
  match select all_routes.*1 (path r) ≫= λ i, all_routes !! i with
  | Some (pattern, inl target) => sum_map id inl (method_router target (captures pattern (path r)) r)
  | Some (pattern, inr target) => sum_map id inr (management_router target content_json r)
  | None => inl NOT_FOUND
  end.

(** ** The two APIs do not meet *)

(** Of two patterns that match a path, one is more specific. *)
Lemma matching_comparable (pa : list string) : ∀ p q,
  path_matches p pa → path_matches q pa → p = q ∨ more_specific p q ∨ more_specific q p.
Proof.
  induction pa as [|s pa IH]; intros p q Hp Hq.
  { apply Forall2_nil_inv_r in Hp as ->. apply Forall2_nil_inv_r in Hq as ->. by left. }
  apply Forall2_cons_inv_r in Hp as (g & p' & Hg & Hp & ->). apply Forall2_cons_inv_r in Hq as (h & q' & Hh & Hq & ->).
  assert (Hcons : ∀ g p q, more_specific p q → more_specific (g :: p) (g :: q)).
  { intros g0 p0 q0 (pre & l & a & b & -> & ->). by exists (g0 :: pre), l, a, b. }
  destruct (IH _ _ Hp Hq) as [->|Hs]; destruct g as [l|], h as [l'|]; cbn in Hg, Hh; subst; eauto.
  - right. left. by exists [], l, q', q'.
  - right. right. by exists [], l', q', q'.
  - destruct Hs as [Hs|Hs]; eauto.
  - right. left. by exists [], l, p', q'.
  - right. right. by exists [], l', q', p'.
  - destruct Hs as [Hs|Hs]; eauto.
Qed.

(** A path is served by the same pattern whatever patterns that do not match it are
    added. *)
Lemma select_extend ps qs pa :
  NoDup (ps ++ qs) → (∀ q, q ∈ qs → ¬ path_matches q pa) → select (ps ++ qs) pa = select ps pa.
Proof.
  intros Hnd Hqs. destruct (select ps pa) as [j|] eqn:Ej.
  - destruct (select_matches _ _ _ Ej) as (q & Hj & Hq).
    assert (Hin : q ∈ ps ++ qs) by (apply elem_of_app; left; by eapply list_elem_of_lookup_2).
    destruct (select_complete _ _ _ Hin Hq) as [i Ei]. rewrite Ei. destruct (select_matches _ _ _ Ei) as (p & Hi & Hp).
    assert (Hps : p ∈ ps).
    { apply list_elem_of_lookup_2 in Hi as Hpi. apply elem_of_app in Hpi as [?|Hpi]; [done|]. by apply Hqs in Hpi. }
    destruct (matching_comparable pa p q Hp Hq) as [->|[Hs|Hs]].
    + f_equal. eapply NoDup_lookup; [exact Hnd|exact Hi|]. by apply lookup_app_l_Some.
    + destruct (select_static _ _ _ _ _ Ej Hj Hps Hp Hs).
    + destruct (select_static _ _ _ _ _ Ei Hi Hin Hq Hs).
  - destruct (select (ps ++ qs) pa) as [i|] eqn:Ei; [|done]. destruct (select_matches _ _ _ Ei) as (p & Hi & Hp).
    apply list_elem_of_lookup_2, elem_of_app in Hi as [Hi|Hi]; [|by apply Hqs in Hi].
    destruct (select_complete _ _ _ Hi Hp) as [j Ej']. congruence.
Qed.

Lemma all_patterns : all_routes.*1 = app_routes.*1 ++ management_routes.*1.
Proof. done. Qed.

Lemma patterns_NoDup : NoDup (app_routes.*1 ++ management_routes.*1).
Proof. apply (bool_decide_unpack _). vm_compute. exact I. Qed.

(** The management API and the data API of a cluster node do not meet: a path that
    does not start with [cluster] is served exactly as by a standalone node, and one
    that does never reaches a handler of the data API. *)
Theorem cluster_routes_separate content_json r :
  (head (path r) ≠ Some "cluster" → cluster_route content_json r = sum_map id inl (route r))
  ∧ (head (path r) = Some "cluster" → ∀ q, cluster_route content_json r ≠ inr (inl q)).
Proof.
  unfold cluster_route. rewrite all_patterns. split; intros Hc.
  - rewrite select_extend; [|exact patterns_NoDup|].
    + unfold route. destruct (select app_routes.*1 (path r)) as [i|] eqn:Ei; [|done]. cbn [mbind option_bind].
      destruct (select_matches _ _ _ Ei) as (p & Hp & _). rewrite list_lookup_fmap in Hp.
      apply fmap_Some in Hp as ([p' t] & Hi & ->). unfold all_routes. rewrite Hi.
      erewrite lookup_app_l_Some; [|rewrite list_lookup_fmap, Hi; reflexivity]. done.
    + intros q ([q' t] & -> & Hin)%list_elem_of_fmap Hm. apply Hc. unfold management_routes in Hin.
      repeat (apply elem_of_cons in Hin as [[= -> ->]|Hin]; [apply Forall2_cons_inv_l in Hm as (? & ? & -> & _ & ->); done|]).
      by apply elem_of_nil in Hin.
  - intros q. destruct (select (app_routes.*1 ++ management_routes.*1) (path r)) as [i|] eqn:Ei; [|done]. cbn [mbind option_bind].
    destruct (select_matches _ _ _ Ei) as (p & Hp & Hm). rewrite <-all_patterns, list_lookup_fmap in Hp.
    apply fmap_Some in Hp as ([p' [t|t]] & Hi & ->); rewrite Hi; [|by destruct (management_router t content_json r)].
    exfalso. destruct (path r) as [|s pa]; [done|]. cbn in Hc. injection Hc as ->.
    do 10 (destruct i as [|i]; [cbn in Hi; simplify_eq; apply Forall2_cons_inv_l in Hm as (? & ? & Hs & _ & [= <- <-]); done|]). done.
Qed.

Section node.
Context {R : Type} `{!cluster.Openraft R}.
Abbreviation cnode := (cluster.Cluster (R:=R)).

Definition manage (q : ManagementRequest) : M cnode ApiError Response :=
  match q with
  | InitCluster body => management.init body
  | AddLearner id addr => management.add_learner id addr
  | ChangeMembership ms retain => management.change_membership ms retain
  | Metrics => management.metrics
  end.

Definition serve_management (q : ManagementRequest) (c : cnode) : option Response * cnode :=
  let '(r, c') := manage q c in
  (match r with Ok resp => Some resp | Err e => Some (into_response e) | Panic _ => None end, c').

Definition cluster_router (fresh : Uuid) (elapsed : Z) (content_json : bool) (r : HttpRequest) (c : cnode) :
    option Response * cnode :=
  match cluster_route content_json r with
  | inl code => (Some (respond code NoBody), c)
  | inr (inl q) => serve_request fresh elapsed q c
  | inr (inr q) => serve_management q c
  end.

(** ** Waiting and stopping *)

(** [Raft::wait(timeout).metrics(cond)] returns metrics that meet the condition, or
    fails at the timeout; [Raft::shutdown]. *)
Class RaftControl := {
  wait_metrics : (cluster.RaftMetrics → bool) → M (R * SmSt) message cluster.RaftMetrics;
  raft_shutdown : M (R * SmSt) message unit;
  wait_metrics_cond cond s m s' : wait_metrics cond s = (Ok m, s') → cond m = true;
  wait_metrics_returns cond s w : (wait_metrics cond s).1 ≠ Panic w
}.
Context `{!RaftControl}.

Definition raft_addr (c : cnode) : string := raft.rpc_addr (cluster.self_node c).

Definition wait_until (cond : cluster.ClusterMetrics → bool) : M cnode message cluster.ClusterMetrics :=
  m ← cluster.on_raft (wait_metrics (λ m, cond (cluster.to_cluster_metrics m)));
  mret (cluster.to_cluster_metrics m).

Definition wait_for_leader : M cnode message Z :=
  m ← wait_until (λ m, bool_decide (is_Some (cluster.cm_current_leader m)));
  match cluster.cm_current_leader m with
  | Some l => mret l
  | None => lift (Panic "leader present after wait")
  end.

(** The node with its two tasks: the Raft server and [checkpoint_loop]. *)
Record Running := { rn_cluster : cnode; rn_raft_server : bool; rn_checkpoint : bool }.

Definition shutdown : M Running message unit :=
  zoom rn_cluster (λ c s, {| rn_cluster := c; rn_raft_server := rn_raft_server s; rn_checkpoint := rn_checkpoint s |})
    (cluster.on_raft raft_shutdown);;
  modify (λ s, {| rn_cluster := rn_cluster s; rn_raft_server := rn_raft_server s; rn_checkpoint := false |});;
  modify (λ s, {| rn_cluster := rn_cluster s; rn_raft_server := false; rn_checkpoint := rn_checkpoint s |}).

(** ** [serve_cluster] *)

Context `{!RaftStart R}.

(** The arguments; the data directory is the disk the node is started on, the timer of
    the checkpoints is left out, and [cf_peers_file] is what reading the file gives. *)
Record ClusterConfig := {
  cf_id : Z;
  cf_bind : string;
  cf_raft_addr : string;
  cf_peers : list (Z * string);
  cf_peers_file : option (result io_error string);
  cf_cluster_name : string
}.

Inductive ServeError :=
| PeersUnreadable (e : io_error)
| PeersInvalid (e : message)
| StartFailed (e : StartError)
| HttpBindFailed (e : io_error)
| ShutdownFailed (e : message).

(** The peers listed in the file, if one is named. *)
Definition peers_of_file (config : ClusterConfig) : result ServeError (list (Z * string)) :=
  match cf_peers_file config with
  | None => Ok []
  | Some contents =>
      contents ← map_err PeersUnreadable contents;
      map_err PeersInvalid (management.read_peers_file contents)
  end.

Definition options_of (config : ClusterConfig) (from_file : list (Z * string)) : ClusterOptions :=
  {| opt_id := cf_id config; opt_raft_addr := cf_raft_addr config;
     opt_seed_peers := management.seed_peers (cf_peers config) from_file; opt_cluster_name := cf_cluster_name config |}.

(** What happens between the start and the shutdown signal: requests, entries that the
    Raft core hands to the state machine, and ticks of [checkpoint_loop].  The effect of a
    request that timed out comes late, or with the entry that it submitted. *)
Inductive node_event :=
| NodeIncoming (fresh : Uuid) (elapsed : Z) (content_json : bool) (r : HttpRequest)
| NodeTimedOut (r : HttpRequest)
| NodeLate (fresh : Uuid) (elapsed : Z) (q : Request + ManagementRequest)
| NodeApply (entries : list openraft.Entry)
| NodeTick.

Fixpoint serve_node_events (es : list node_event) (c : cnode) : list (option Response) * cnode :=
  match es with
  | [] => ([], c)
  | NodeIncoming fresh elapsed content_json r :: es =>
      let '(resp, c) := cluster_router fresh elapsed content_json r c in
      let '(resps, c) := serve_node_events es c in (resp :: resps, c)
  | NodeTimedOut r :: es =>
      let '(resps, c) := serve_node_events es c in (Some (respond REQUEST_TIMEOUT NoBody) :: resps, c)
  | NodeLate fresh elapsed (inl q) :: es => serve_node_events es (serve_request fresh elapsed q c).2
  | NodeLate fresh elapsed (inr q) :: es => serve_node_events es (serve_management q c).2
  | NodeApply entries :: es =>
      serve_node_events es
        {| cluster.id := cluster.id c; cluster.self_node := cluster.self_node c; cluster.seed_peers := cluster.seed_peers c;
           cluster.raft_core := cluster.raft_core c; cluster.sm := (apply entries (cluster.sm c)).2 |}
  | NodeTick :: es => serve_node_events es (cluster.checkpoint_tick c).2
  end.

(** [bind_http] is [TcpListener::bind] for the HTTP address.  When it fails the node is
    left running: only the end of the process stops its tasks. *)
Definition serve_cluster (bind_http : string → result io_error unit) (config : ClusterConfig) (es : list node_event)
    (d : NodeDisk) : result ServeError (list (option Response)) * NodeDisk * option Running :=
  match peers_of_file config with
  | Err e => (Err e, d, None)
  | Panic w => (Panic w, d, None)
  | Ok from_file =>
      match start (options_of config from_file) d with
      | (Err e, d) => (Err (StartFailed e), d, None)
      | (Panic w, d) => (Panic w, d, None)
      | (Ok c, d) =>
          let running c := {| rn_cluster := c; rn_raft_server := true; rn_checkpoint := true |} in
          match bind_http (cf_bind config) with
          | Err e => (Err (HttpBindFailed e), d, Some (running c))
          | Panic w => (Panic w, d, Some (running c))
          | Ok tt =>
              let '(resps, c) := serve_node_events es c in
              let '(stopped, node) := shutdown (running c) in
              (map_err ShutdownFailed stopped;; Ok resps, d, Some node)
          end
      end
  end.

(** ** Waiting never panics *)

(** [wait_for_leader] never reaches its [expect]: it fails when the Raft core does
    (a timeout), and otherwise returns the leader of metrics that the core showed. *)
Theorem wait_for_leader_total (c : cnode) :
  match (wait_for_leader c).1 with
  | Ok l => ∃ m, cluster.m_current_leader m = Some l
  | Err _ => True
  | Panic _ => False
  end.
Proof.
  unfold wait_for_leader, wait_until, cluster.on_raft, zoom, mbind, M_bind.
  set (cond := λ m, bool_decide _). pose proof (wait_metrics_cond cond (cluster.raft_core c, cluster.sm c)) as Hc.
  pose proof (wait_metrics_returns cond (cluster.raft_core c, cluster.sm c)) as Hp.
  destruct (wait_metrics cond _) as [[m|e|w] s']; [|done|by eapply Hp]. specialize (Hc _ _ eq_refl).
  apply bool_decide_eq_true in Hc. cbn in Hc |- *. destruct (cluster.m_current_leader m) as [l|] eqn:El; [by exists m|].
  by destruct Hc.
Qed.

(** ** The lifecycle *)

Lemma shutdown_stops (s s' : Running) :
  shutdown s = (Ok tt, s') → rn_raft_server s' = false ∧ rn_checkpoint s' = false.
Proof.
  unfold shutdown, zoom, mbind, M_bind. destruct (cluster.on_raft raft_shutdown (rn_cluster s)) as [[u|e|w] c]; [|done|done].
  by intros [= <-].
Qed.

(** A peers file that cannot be read stops the node before it opens anything; a
    failing start leaves no task behind; and when [serve_cluster] returns without an
    error the Raft server and the checkpoint loop have been stopped. *)
Theorem serve_cluster_lifecycle bind_http config es d :
  let '(r, d', node) := serve_cluster bind_http config es d in
  match peers_of_file config with
  | Err e => r = Err e ∧ d' = d ∧ node = None
  | Panic w => r = Panic w ∧ d' = d ∧ node = None
  | Ok from_file =>
      match (start (options_of config from_file) d).1, r, node with
      | Err e, _, _ => r = Err (StartFailed e) ∧ node = None
      | Panic w, _, _ => r = Panic w ∧ node = None
      | Ok _, Ok _, Some n => rn_raft_server n = false ∧ rn_checkpoint n = false
      | Ok _, _, _ => node ≠ None
      end
  end.
Proof.
  unfold serve_cluster. destruct (peers_of_file config) as [from_file|e|w]; [|done|done].
  destruct (start (options_of config from_file) d) as [[c|e|w] d1]; cbn [fst]; [|done|done].
  destruct (bind_http (cf_bind config)) as [[]|e|w]; [|done|done].
  destruct (serve_node_events es c) as [resps c']. destruct (shutdown _) as [[[]|e|w] n] eqn:Es; [|done|done].
  by eapply shutdown_stops.
Qed.
End node.
End server.
End server.

(** ** Evaluated instances *)

Module ServerDemo.
Import server.
#[local] Existing Instances Samples.json Samples.rfc3339 Samples.schema Samples.uuid SampleIndex.tantivy
  SampleIndex.mark_json SampleCodecs.wal_entry_codec SampleCodecs.snapshot_codec sum_crc32c
  SampleRaft.membership SampleRaft.stored_membership_codec SampleHttp.axum SampleHttp.dto_json ClusterDemo.single.

#[local] Instance init_json : InitJson := {| init_from_slice _ := None |}.
#[local] Instance management_json : ManagementJson := {|
  learner_from_slice bs := if decide (bs = [x01]) then JsonOk (2, "host:2") else JsonSyntax;
  membership_from_slice bs := if decide (bs = [x02]) then JsonOk ([1; 2], false) else JsonData
|}.

(** The single voter either meets a condition at once or never. *)
#[refine] Definition single_control : RaftControl (R := Z) := {|
  wait_metrics cond s :=
    (if cond (ClusterDemo.core_metrics s.1) then Ok (ClusterDemo.core_metrics s.1) else Err (Msg "timeout" []), s);
  raft_shutdown s := (Ok tt, s)
|}.
Proof.
  - intros cond s m s'. destruct (cond _) eqn:E; [|done]. intros [= <- _]. exact E.
  - intros cond s w. cbn. by destruct (cond _).
Defined.
#[local] Existing Instance single_control.

Lemma wait_for_leader_total_witness :
  match (wait_for_leader ClusterDemo.the_node).1 with
  | Ok l => ∃ m, cluster.m_current_leader m = Some l
  | Err _ => True
  | Panic _ => False
  end ∧ (wait_for_leader ClusterDemo.the_node).1 = Ok 1.
Proof. split; [apply (wait_for_leader_total ClusterDemo.the_node)|vm_compute; reflexivity]. Defined.

Definition request (m : Method) (p : list string) (b : list byte) : HttpRequest :=
  {| method := m; path := p; query := None; bytes := b |}.

Lemma cluster_routes_separate_witness :
  cluster_route true (request GET ["collections"] []) = inr (inl ListCollections)
  ∧ ∀ q, cluster_route true (request POST ["cluster"; "learners"] [x01]) ≠ inr (inl q).
Proof.
  split.
  - rewrite (proj1 (cluster_routes_separate true (request GET ["collections"] []))); [vm_compute; reflexivity|done].
  - apply (proj2 (cluster_routes_separate true (request POST ["cluster"; "learners"] [x01]))). done.
Defined.

(** The statuses of management requests: routed, wrong method, no JSON, bad JSON, bad data. *)
Example management_statuses :
  cluster_route true (request POST ["cluster"; "learners"] [x01]) = inr (inr (AddLearner 2 "host:2"))
  ∧ cluster_route true (request GET ["cluster"; "init"] []) = inl METHOD_NOT_ALLOWED
  ∧ cluster_route false (request POST ["cluster"; "learners"] [x01]) = inl UNSUPPORTED_MEDIA_TYPE
  ∧ cluster_route true (request POST ["cluster"; "learners"] [x00]) = inl BAD_REQUEST
  ∧ cluster_route true (request POST ["cluster"; "membership"] [x00]) = inl UNPROCESSABLE_ENTITY
  ∧ cluster_route true (request GET ["cluster"; "nodes"] []) = inl NOT_FOUND.
Proof. vm_compute. done. Qed.
End ServerDemo.
